(* ===== verification/_CoqProject ===== *)
-Q . S2P
Prelude.v
Store.v
StoreLogic.v
Snapshot.v
SystemKeys.v
Payloads.v
LogRecord.v
Txn.v
Hex.v
Base64.v
Fsm.v
FsmSpec.v
FsmProps.v
FsmInvariants.v
FsmOps.v
Events.v
Stream.v
Quota.v
Session.v
Node.v
Acl.v
Forward.v
Dial.v
Join.v
Execute.v
Remote.v
Channel.v
Handler.v
HandlerProps.v
NodeInvariants.v
ForwardProps.v
JoinProps.v
ReadProps.v
ExecuteProps.v
NodeSafety.v
ChannelProps.v
RemoteProps.v
Ipc.v
IpcProps.v
IpcNode.v
Client.v
ClientProps.v
Calendar.v
Cron.v
CronParse.v
Files.v
Registry.v
RegistryProps.v
IpcToken.v
IpcTokenProps.v
RegistryWitnesses.v
CronProps.v
Scheduler.v
SchedulerProps.v
SchedulerRun.v
CronStore.v
Witnesses.v
CronWitnesses.v
Kvctl.v
Dispatch.v
DispatchProps.v
Tickets.v
KvctlProps.v
TicketsProps.v
KvctlWitnesses.v
RelRecord.v
RelStore.v
RelChain.v
RelRun.v
RelChainProps.v
RelJournal.v
RelSign.v
RelIssue.v
RelChainTxn.v
RelWriters.v
RelConc.v
RelConcProps.v
RelSchedule.v
RelWitnesses.v
RelNode.v
