(* ===== verification/Prelude.v ===== *)
(** * A verification development for libp2p-kv-raft

    The program is a replicated key-value store.  A node keeps a SQLite table
    ([src/pkg/store]), changes it only by applying raft log entries
    ([src/pkg/kvfsm]), and serves requests of its local operator and of remote
    peers ([src/pkg/daemon]).  Reserved keys hold the cluster's own records:
    groups, commands, group-command and peer-group relations, members, invites,
    stations.  Messages, record payloads, keys and transactions are encoded by
    [src/pkg/shmevent] and [src/pkg/logrecord].

    Files, in dependency order, and the code they model:

    - Prelude: bytes, machine integers, byte order, Go's slicing with its
      panics, errors and [errors.Is], the result type [gores] (a value, an
      error or a panic), tactics and hints.
    - Store: [store.go] -- the table as a finite map, the committed and the
      transaction view, one fault per database call taken from a schedule,
      scans, [WithTx], [DumpAll], [LoadAll].
    - StoreLogic: a specification logic over the table: what a computation reads
      ([Reads]), does in a transaction ([TxSteps]) and refines ([Refines]).
    - Snapshot: [Persist] and [Restore] of [fsm.go], and their theorems.
    - SystemKeys, Payloads, LogRecord, Txn: the codecs of [pkg/shmevent] and
      [pkg/logrecord] (keys, records, log keys, transactions).
    - Fsm: [fsm.go], [fsm_acl.go], [fsm_cascade.go], [fsm_encoding.go] -- every
      operation of [Apply].  FsmSpec is its abstract specification on the table,
      FsmProps relates the two, FsmInvariants holds the refinement, the
      invariants and a replica that catches up from a snapshot, FsmOps the
      behaviour of each operation.
    - Hex: the text of tokens.
    - Events: the messages of [pkg/shmevent] as a sum with the source's
      constructors, their builders, the envelope (CRC, signature) and registry.
    - Stream: readers and streams, the framing of [channel.go] and the chunks of
      the data plane's rings in [chandata.go], with writes that fail half-way.
      Quota: [quota.go] and the limits of [host.go].  Session: the sessions of
      [channel.go], their table and its reaper.
    - Node: the state of [daemon.Node] a handler touches, the monad [D] over it,
      raft, the network, the libp2p host, the rings and the random source as
      schedules of replies, the log of calls, and the class [Env] of what the
      node is configured with.
    - Acl: [acl.go].  Forward: [forward.go], [raft_lifecycle.go] and the write
      path of [daemon.go].  Dial: address resolution, relay candidates and
      retrying dials of [daemon.go] and [host.go].  Join: joining, invites,
      recruiting.  Execute: notifications and redemption of execution invites.
      Remote: submitting a command to another cluster and reading its log page
      by page.  Channel: handshake, reading and uploading goroutines and the
      operator's requests of [channel.go], and the relay gate.  Handler:
      [handleShmEvent] with its whole switch, and [handleClientStream].
    - HandlerProps (what a remote caller can make a node do), NodeInvariants (the
      invariant of a node under any traffic), ForwardProps, JoinProps,
      ReadProps, ExecuteProps, NodeSafety (no input panics), ChannelProps (two
      nodes and a channel), RemoteProps (two nodes and a log).
    - Ipc: [pkg/ipc/ipc.go] -- [Call], [CallRaw] and the loop of [Serve] as turns of
      a transition system over named shared-memory segments.  IpcProps: its
      invariant under every interleaving.  IpcNode: the node behind it.
    - Client: [pkg/shmclient] -- sessions and every method of them, over one atomic
      round trip, in which a request under the id of the one before it gets the answer
      of the one before it.  ClientProps: what they promise, and that the transport
      implements the round trip.
    - Calendar: instants, civil dates and their text, zones, and how [time.Date] finds an
      instant for a reading of the clocks of a zone, as Go's [time] has them.
      Cron: [examples/croncmd/spec.go] -- cron expressions, their masks and the
      search for the next fire.  CronParse: the parser against its grammar.
      CronProps: the search.  Scheduler: [croncmd.go], [scheduler.go],
      [history.go] and the in-process store of [store.go], as programs over the
      store's interface.  SchedulerProps: any number of schedulers over one
      store.  SchedulerRun: one undisturbed pass, and zones that turn their
      clocks.  CronStore: the store of
      [store.go] on a node, through the client library.
    - Files: programs over files, the disk they act on (names and files, so that
      two names can share one), and a logic for the states they go through.
      Registry and RegistryProps: [pkg/registry], every operation, against a map
      and a selection.  IpcToken and IpcTokenProps: the secret of a node's local
      channel ([pkg/ipc/token.go]), made by whichever process comes first.
    - Base64: the text of tickets.  Kvctl: the operator's commands of [pkg/kvctl]
      on the node selected in the registry, over the disk, the client library, a
      clock and a random source.  Dispatch: [dispatch.go], the dispatcher over an
      interface of the command log.  Tickets: invites, signed tickets, relay nodes
      and the smaller commands.  KvctlProps: listings and the local permission check against
      the node's table.  DispatchProps: the dispatcher on a command log whose calls
      fail and whose entries carry the time of the machine's clock.  TicketsProps: what a ticket vouches for.
    - RelRecord: [examples/relations] -- entities, keys and signed records.  RelStore:
      its backend and store, as programs over one atomic write and one ordered
      read.  RelChain: the chain of events and its verifier.  RelJournal and
      RelSign: the log book's operations.  RelRun: programs that only read.
      RelChainProps: what a verified book shows.  RelIssue, RelChainTxn and
      RelWriters: which transactions an operation can issue, whatever it reads.
      RelConc and RelConcProps: any number of writers, interleaved in any way.
      RelSchedule: schedules that can be run.  RelNode: the backend on a node.
    - Witnesses, RegistryWitnesses, CronWitnesses, KvctlWitnesses and RelWitnesses: concrete nodes, tables and messages on which the hypotheses of
      the theorems hold.

    What the theorems show.  The state machine refines its specification under
    every schedule of database faults, atomically; a replica that restores a snapshot
    and applies the entries after it is where the others are; tables the entries of
    honest nodes lead to keep their list caps and unique group names; transactions are
    compare-and-swap; cascades, confirmations, invites and command requests do
    exactly what they should; every codec round-trips.  A node keeps its
    invariant under any traffic, never panics while its host has an address, confines strangers and non-voters
    in what they can write and read, forwards writes faithfully and answers what
    it was asked.  What one side of a channel sends the other side receives,
    whatever the pieces it arrives in, up to the first chunk the quota refuses; only
    authenticated chunks get into an
    inbox, only authorised peers get a channel, an upload is forwarded whole
    before a half-close; the pages of a remote log are its records, each once.
    Local calls are atomic under every interleaving of the two processes when
    their ids differ, and a value the operator writes through the local
    transport is the value it reads.  The client's calls are what the transport
    does; while consecutive ids differ a scan returns exactly its window of the range and a compare-and-swap
    swaps exactly when it should.  The registry's files hold one of the states of
    the operation under way at every moment, whatever fails, and all processes
    that race for a node's secret get the same one.  The operator's own check of
    a command's permissions is the state machine's; as long as the clock of its machine goes
    forward the dispatcher runs a handler exactly once per request and result that could not be written, never for a
    request that is handled, and the instance's log on the node decides what is;
    a ticket opens to what was signed, and an accepted one is signed by the peer
    its address names.  A cron expression means what its grammar says,
    and, in zones that keep one offset, the next fire is the first minute that matches,
    a pass of the scheduler submits exactly what is due and not yet claimed, schedulers that join, crash,
    stall and see operations fail or get lost never submit a fire twice as long
    as no pass works with a reading of the clock older than the windows allow,
    and the store on a node does what the in-process store does.  A log book that
    verifies is what its chain of events says, signed throughout, and its head
    digest commits to all of those events; however writers interleave, and whatever is
    reported as failed, the events stay one chain without gaps and none is ever
    changed.  Some theorems state what the code does where it does not do what it means:
    [ring_timeout_desync], [second_data_ready_panics], [ipc_id_reuse_loses_request],
    [huge_step_wraps], [public_access_exceeds_cap], [forward_txn_bypass],
    [late_dump_diverges], [no_address_panics], [clock_back_runs_again],
    [repeated_hour_goes_back], [repeated_hour_never_ends], [skipped_midnight_never_ends],
    [pass_never_returns], [truncation_undetected], [unchained_strike_verifies],
    [chain_freezes] and [signoff_count_stale].

    Bounds and fuel.  Integers are [Z] with their wrap-around written out
    ([u16], [u32], [u64], [s64]); lengths in encodings are bounded where the
    code truncates them.  Loops over a byte string use its length plus one as
    fuel; the polling loops of the write path take one step per element of the
    schedule of raft views, which the code's deadline bounds.  The reading loop
    of a channel has one step more than the stream has bytes (a frame has at
    least its four bytes of length), the uploading loop one more than the ring
    has bytes, the paging loop one more than the network has replies left;
    [channel_delivery], [upload_forwards] and [remote_log_paging] prove that
    with this fuel the loops return their result.  The search for the next fire
    has one step per minute of its five years, which [next_is_first_match] shows to be
    enough in a zone that keeps its offset; in other zones it may not end, and a program
    that comes to such a search is the program that does not return ([Spin]).  An operator's listing takes as many
    turns as the node has rows, and one, which [eachRow_run] shows to be enough; the loop that fills a mask has
    200, which [parse_spec_well_typed] shows to be enough although its sum can
    wrap around.  Programs over files are finite trees; a caller of the local
    channel's secret takes at most 73 steps.  The walks over the versions of a line
    count down from the code's own bound of 1000, the retries of a log book from
    its 8.

    Goroutines.  A goroutine that reads blocks until more arrives; the model
    runs it as far as it can go at every arrival, so the order of arrivals on
    the channels of a node is an arbitrary sequence of inputs ([inbound]).  A
    session that is taken out of the table is dropped: its stream is closed and
    nothing of it can be observed.

    Parameters.  Ed25519, SHA-256, the Cap'n Proto serialisation, libp2p identities,
    JSON, the contents of the zone database, multiaddresses, the token bucket, and to the
    node the registry's file are not part of this repository's own code (or are
    I/O): they are fields of [Env], [CronEnv], [RegistryEnv], [KvctlEnv] and [RelEnv] or section variables, and hypotheses about them state their documented behaviour.

    Not modelled: the raft library and its transport, sockets, the shared-memory ring library (a
    segment holds a whole message, which its 32 KiB allow), the
    names of local segments and the Android variant of the local transport, the
    generated Cap'n Proto accessors (the sum [Event] stands for them), the
    construction of the libp2p host and the start of the process, the parts of [pkg/kvctl] that start, resume and stop
    node processes, back up and restore, and use channels, command line tools, mobile
    bindings, the genealogy, the rendering and the commands of the log book example
    and the test harness. *)

From Stdlib Require Export ZArith Lia.
From Stdlib Require Strings.Byte Strings.String.
From stdpp Require Export base list gmap countable sorting strings.

#[local] Open Scope Z_scope.

(** * Bytes *)

Abbreviation byte := Byte.byte (only parsing).
Abbreviation bytes := (list Byte.byte) (only parsing).

(** [uint8]/[byte] values as integers, and Go's truncating conversion [byte(z)]. *)
Definition byte_to_Z (b : byte) : Z := Z.of_N (Byte.to_N b).

Definition byte_of_Z (z : Z) : byte :=
  match Byte.of_N (Z.to_N (z mod 256)) with
  | Some b => b
  | None => Byte.x00
  end.

(** A Go string literal as its byte sequence (Go strings are byte sequences). *)
Definition bs (s : String.string) : bytes := String.list_byte_of_string s.
Arguments bs s%_string_scope.

(** [len(x)] *)
Definition blen {A} (l : list A) : Z := Z.of_nat (length l).

Lemma byte_to_Z_range b : 0 <= byte_to_Z b < 256.
Proof.
  unfold byte_to_Z. pose proof (Strings.Byte.to_N_bounded b). lia.
Qed.

Lemma byte_to_of_Z z : byte_to_Z (byte_of_Z z) = z mod 256.
Proof.
  unfold byte_to_Z, byte_of_Z.
  pose proof (Z.mod_pos_bound z 256 ltac:(lia)) as Hz.
  destruct (Byte.of_N _) as [b|] eqn:E.
  - apply Strings.Byte.to_of_N in E. rewrite E. lia.
  - apply Strings.Byte.of_N_None_iff in E. lia.
Qed.

Lemma byte_to_Z_inj a b : byte_to_Z a = byte_to_Z b -> a = b.
Proof.
  unfold byte_to_Z. intros H%N2Z.inj.
  pose proof (Strings.Byte.of_to_N a) as Ha. pose proof (Strings.Byte.of_to_N b) as Hb.
  rewrite H, Hb in Ha. congruence.
Qed.

Lemma byte_of_to_Z b : byte_of_Z (byte_to_Z b) = b.
Proof.
  apply byte_to_Z_inj. rewrite byte_to_of_Z.
  apply Z.mod_small, byte_to_Z_range.
Qed.

#[global] Instance byte_eq_dec : EqDecision Byte.byte := Strings.Byte.byte_eq_dec.

#[global] Program Instance byte_countable : Countable Byte.byte :=
  inj_countable' (fun b => Byte.to_N b) (fun n => default Byte.x00 (Byte.of_N n)) _.
Next Obligation. intros b. simpl. by rewrite Strings.Byte.of_to_N. Qed.

(** * Big-endian integers ([encoding/binary.BigEndian] and the hand-written shifts) *)

(** [be_bytes k n]: the [k] low bytes of [n], most significant first. *)
Fixpoint be_bytes (k : nat) (n : Z) : bytes :=
  match k with
  | O => []
  | S k' => byte_of_Z (Z.shiftr n (8 * Z.of_nat k')) :: be_bytes k' n
  end.

Definition be_step (acc : Z) (b : byte) : Z := Z.lor (Z.shiftl acc 8) (byte_to_Z b).

Definition be_value (l : bytes) : Z := fold_left be_step l 0.

Lemma be_step_arith acc b : be_step acc b = acc * 256 + byte_to_Z b.
Proof.
  unfold be_step. pose proof (byte_to_Z_range b) as Hb.
  rewrite <- Z.add_lor_land, (Z.shiftl_mul_pow2 acc 8) by lia.
  change (2 ^ 8) with 256.
  assert (Z.land (acc * 256) (byte_to_Z b) = 0) as ->; [|lia].
  apply Z.bits_inj'. intros i Hi. rewrite Z.land_spec, Z.bits_0.
  destruct (Z.lt_ge_cases i 8) as [Hlt|Hge].
  - replace (acc * 256) with (Z.shiftl acc 8) by (rewrite Z.shiftl_mul_pow2 by lia; reflexivity).
    by rewrite Z.shiftl_spec_low.
  - rewrite (Z.bits_above_log2 (byte_to_Z b)); [apply andb_false_r | lia |].
    destruct (Z.eq_dec (byte_to_Z b) 0) as [->|]; [simpl; lia|].
    apply Z.log2_lt_pow2; [lia|].
    assert (2 ^ 8 <= 2 ^ i) by (apply Z.pow_le_mono_r; lia).
    change (2 ^ 8) with 256 in *. lia.
Qed.

Lemma be_fold_bytes k n acc :
  fold_left be_step (be_bytes k n) acc =
  acc * 2 ^ (8 * Z.of_nat k) + n mod 2 ^ (8 * Z.of_nat k).
Proof.
  revert acc. induction k as [|k IH]; intros acc.
  - simpl. rewrite Z.mod_1_r. lia.
  - cbn [be_bytes fold_left]. rewrite IH, be_step_arith, byte_to_of_Z.
    rewrite Z.shiftr_div_pow2 by lia.
    replace (8 * Z.of_nat (S k)) with (8 * Z.of_nat k + 8) by lia.
    rewrite Z.pow_add_r by lia. change (2 ^ 8) with 256.
    rewrite (Z.rem_mul_r n (2 ^ (8 * Z.of_nat k)) 256) by lia.
    ring.
Qed.

Lemma be_value_bytes k n : be_value (be_bytes k n) = n mod 2 ^ (8 * Z.of_nat k).
Proof. unfold be_value. rewrite be_fold_bytes. lia. Qed.

Lemma length_be_bytes k n : length (be_bytes k n) = k.
Proof. induction k; simpl; congruence. Qed.

Lemma be_fold_range l acc :
  0 <= acc -> 0 <= fold_left be_step l acc < (acc + 1) * 2 ^ (8 * blen l).
Proof.
  unfold blen. revert acc. induction l as [|b l IH]; intros acc Hacc.
  - simpl. lia.
  - cbn [fold_left length]. pose proof (byte_to_Z_range b).
    specialize (IH (be_step acc b)). rewrite be_step_arith in *.
    replace (8 * Z.of_nat (S (length l))) with (8 + 8 * Z.of_nat (length l)) by lia.
    rewrite Z.pow_add_r by lia. change (2 ^ 8) with 256.
    pose proof (Z.pow_pos_nonneg 2 (8 * Z.of_nat (length l)) ltac:(lia) ltac:(lia)).
    nia.
Qed.

Lemma be_value_range l : 0 <= be_value l < 2 ^ (8 * blen l).
Proof. pose proof (be_fold_range l 0). unfold be_value. lia. Qed.

Lemma be_fold_acc l acc : fold_left be_step l acc = acc * 2 ^ (8 * blen l) + be_value l.
Proof.
  unfold be_value, blen. revert acc. induction l as [|b l IH]; intros acc; [cbn; lia|].
  cbn [fold_left length]. rewrite IH, (IH (be_step 0 b)), !be_step_arith.
  replace (8 * Z.of_nat (S (length l))) with (8 + 8 * Z.of_nat (length l)) by lia.
  rewrite Z.pow_add_r by lia. change (2 ^ 8) with 256. ring.
Qed.

Lemma be_bytes_high k m n : be_bytes k (m * 2 ^ (8 * Z.of_nat k) + n) = be_bytes k n.
Proof.
  assert (forall j, (j <= k)%nat -> be_bytes j (m * 2 ^ (8 * Z.of_nat k) + n) = be_bytes j n) as Hj; [|by apply Hj].
  induction j as [|j IH]; intros Hjk; [done|]. cbn [be_bytes]. rewrite IH by lia. f_equal.
  apply byte_to_Z_inj. rewrite !byte_to_of_Z, !Z.shiftr_div_pow2 by lia.
  replace (8 * Z.of_nat k) with (8 * Z.of_nat (k - S j) + 8 + 8 * Z.of_nat j) by lia.
  rewrite !Z.pow_add_r, !Z.mul_assoc by lia. change (2 ^ 8) with 256.
  rewrite Z.div_add_l, Z.add_comm, Z.mod_add by lia. done.
Qed.

Lemma be_bytes_value l : be_bytes (length l) (be_value l) = l.
Proof.
  induction l as [|b l IH]; [done|].
  assert (be_value (b :: l) = byte_to_Z b * 2 ^ (8 * Z.of_nat (length l)) + be_value l) as ->.
  { unfold be_value at 1. cbn [fold_left]. rewrite be_fold_acc, be_step_arith. unfold blen. lia. }
  cbn [length be_bytes]. rewrite be_bytes_high, IH. f_equal.
  apply byte_to_Z_inj. rewrite byte_to_of_Z, Z.shiftr_div_pow2 by lia.
  pose proof (be_value_range l) as Hr. unfold blen in Hr. pose proof (byte_to_Z_range b).
  rewrite Z.div_add_l, (Z.div_small (be_value l)), Z.add_0_r by lia. by apply Z.mod_small.
Qed.

(** Go's [uint16], [uint32], [uint64] conversions. *)
Definition u16 (z : Z) : Z := z mod 2 ^ 16.
Definition u32 (z : Z) : Z := z mod 2 ^ 32.
Definition u64 (z : Z) : Z := z mod 2 ^ 64.

(** * Lexicographic byte order ([bytes.Compare]; SQLite's BLOB [memcmp]) *)

Fixpoint bytes_le (a b : bytes) : bool :=
  match a, b with
  | [], _ => true
  | _ :: _, [] => false
  | x :: a', y :: b' =>
    if byte_to_Z x <? byte_to_Z y then true
    else if byte_to_Z y <? byte_to_Z x then false
    else bytes_le a' b'
  end.

Definition bytes_lt (a b : bytes) : bool := negb (bytes_le b a).

Ltac byte_cases :=
  repeat match goal with
  | H : context [Z.ltb ?a ?b] |- _ => destruct (Z.ltb_spec a b)
  | |- context [Z.ltb ?a ?b] => destruct (Z.ltb_spec a b)
  end.

Lemma bytes_le_refl a : bytes_le a a = true.
Proof. induction a as [|x a IH]; [done|]. simpl. byte_cases; (lia || done). Qed.

Lemma bytes_le_trans a b c : bytes_le a b = true -> bytes_le b c = true -> bytes_le a c = true.
Proof.
  revert b c. induction a as [|x a IH]; intros [|y b] [|z c]; simpl; try done.
  byte_cases; try lia; try done. apply IH.
Qed.

Lemma bytes_le_antisym a b : bytes_le a b = true -> bytes_le b a = true -> a = b.
Proof.
  revert b. induction a as [|x a IH]; intros [|y b]; simpl; try done.
  byte_cases; try lia; try done. intros.
  f_equal; [apply byte_to_Z_inj; lia | auto].
Qed.

Lemma bytes_le_total a b : bytes_le a b = true \/ bytes_le b a = true.
Proof.
  revert b. induction a as [|x a IH]; intros [|y b]; simpl; auto.
  byte_cases; auto; lia.
Qed.

Lemma bytes_le_app p a b : bytes_le (p ++ a) (p ++ b) = bytes_le a b.
Proof. induction p as [|x p IH]; [done|]. simpl. byte_cases; (lia || done). Qed.

Lemma prefix_bytes_le p k : p `prefix_of` k -> bytes_le p k = true.
Proof. intros [r ->]. rewrite <- (app_nil_r p) at 1. rewrite bytes_le_app. done. Qed.

(** Two bounds that share a prefix enclose only keys with that prefix. *)
Lemma between_prefix p lo hi k :
  p `prefix_of` lo -> p `prefix_of` hi ->
  bytes_le lo k = true -> bytes_le k hi = true -> p `prefix_of` k.
Proof.
  intros [lo' ->] [hi' ->]. revert k. induction p as [|x p IH]; intros [|y k]; simpl; intros Hlo Hhi.
  - done.
  - apply prefix_nil.
  - done.
  - byte_cases; try lia; try done.
    assert (x = y) as -> by (apply byte_to_Z_inj; lia).
    by apply prefix_cons, IH.
Qed.

(** Big-endian encodings sort like the integers they encode. *)
Lemma bytes_le_be k m n a b :
  0 <= m < 2 ^ (8 * Z.of_nat k) -> 0 <= n < 2 ^ (8 * Z.of_nat k) ->
  bytes_le (be_bytes k m ++ a) (be_bytes k n ++ b) =
  (if m <? n then true else if n <? m then false else bytes_le a b).
Proof.
  intros Hm Hn. remember (8 * Z.of_nat k) as e eqn:He.
  assert (forall k m n, 0 <= m -> 0 <= n -> m / 2 ^ (8 * Z.of_nat k) = n / 2 ^ (8 * Z.of_nat k) ->
    bytes_le (be_bytes k m ++ a) (be_bytes k n ++ b) =
    (if m <? n then true else if n <? m then false else bytes_le a b)) as Hgen.
  { clear. induction k as [|k IH]; intros m n Hm Hn Hq.
    - simpl in *. rewrite !Z.div_1_r in Hq. subst. byte_cases; (lia || done).
    - cbn [be_bytes app bytes_le]. rewrite !byte_to_of_Z, !Z.shiftr_div_pow2 by lia.
      replace (8 * Z.of_nat (S k)) with (8 * Z.of_nat k + 8) in Hq by lia.
      rewrite Z.pow_add_r, <- !Z.div_div in Hq by lia. change (2 ^ 8) with 256 in Hq.
      set (P := 2 ^ (8 * Z.of_nat k)) in *.
      assert (0 < P) by (subst P; lia).
      pose proof (Z.div_mod (m / P) 256 ltac:(lia)). pose proof (Z.div_mod (n / P) 256 ltac:(lia)).
      pose proof (Z.div_mod m P ltac:(lia)). pose proof (Z.div_mod n P ltac:(lia)).
      pose proof (Z.mod_pos_bound m P ltac:(lia)). pose proof (Z.mod_pos_bound n P ltac:(lia)).
      destruct (Z.ltb_spec ((m / P) mod 256) ((n / P) mod 256)) as [Hlt|Hge].
      + destruct (Z.ltb_spec m n); [done|]. assert (m / P < n / P) by lia. nia.
      + destruct (Z.ltb_spec ((n / P) mod 256) ((m / P) mod 256)) as [Hlt'|Hge'].
        * assert (n / P < m / P) by lia.
          destruct (Z.ltb_spec m n); [nia|]. destruct (Z.ltb_spec n m); [done|nia].
        * apply IH; [done..|]. fold P. lia. }
  subst e. apply Hgen; try lia. rewrite !Z.div_small; lia.
Qed.

#[global] Instance bytes_le_preorder : PreOrder (fun a b => Is_true (bytes_le a b)).
Proof.
  split.
  - intros a. by rewrite bytes_le_refl.
  - intros a b c Hab%Is_true_eq_true Hbc%Is_true_eq_true.
    apply Is_true_eq_left. by eapply bytes_le_trans.
Qed.

(** * Go results: values, errors and panics *)

(** Error values. The sentinels the code compares with [errors.Is] are
    constructors; [ErrIO] stands for an error of the database driver; [Errorf]
    and [Wrapf] are [fmt.Errorf] without and with a [%w] argument, carrying the
    format string (interpolated operands are not kept). *)
Inductive error : Type :=
| ErrNotFound
| ErrCompareFailed
| ErrIO
| Errorf (fmt : String.string)
| Wrapf (fmt : String.string) (cause : error).
Arguments Errorf fmt%_string_scope.
Arguments Wrapf fmt%_string_scope cause.

(** [errors.Is] *)
Fixpoint errors_is (e target : error) : bool :=
  match e, target with
  | ErrNotFound, ErrNotFound | ErrCompareFailed, ErrCompareFailed | ErrIO, ErrIO => true
  | Errorf a, Errorf b => String.eqb a b
  | Wrapf _ c, _ => errors_is c target
  | _, _ => false
  end.

(** What a Go call with an [error] result does: return a value, return an
    error, or panic (an index or slice bound out of range). *)
Inductive gores (A : Type) : Type :=
| Ret (a : A)
| Fail (e : error)
| Panic.
Arguments Ret {A} a.
Arguments Fail {A} e.
Arguments Panic {A}.

#[global] Instance gores_ret : MRet gores := fun A a => Ret a.
#[global] Instance gores_bind : MBind gores := fun A B f m =>
  match m with
  | Ret a => f a
  | Fail e => Fail e
  | Panic => Panic
  end.
#[global] Instance gores_fmap : FMap gores := fun A B f m =>
  match m with
  | Ret a => Ret (f a)
  | Fail e => Fail e
  | Panic => Panic
  end.

Definition is_ret {A} (r : gores A) : bool := match r with Ret _ => true | _ => false end.
Definition is_fail {A} (r : gores A) : bool := match r with Fail _ => true | _ => false end.
Definition no_panic {A} (r : gores A) : Prop := match r with Panic => False | _ => True end.

(** [fmt.Errorf(..., %w, err)] on the error of a call. *)
Definition wrap_err {A} (fmt : String.string) (r : gores A) : gores A :=
  match r with
  | Fail e => Fail (Wrapf fmt e)
  | r => r
  end.
Arguments wrap_err {A} fmt%_string_scope r.

#[global] Instance Ret_inj {A} : Inj (=) (=) (@Ret A).
Proof. by intros a b [= ->]. Qed.

Lemma no_panic_bind {A B} (m : gores A) (k : A -> gores B) :
  no_panic m -> (forall a, m = Ret a -> no_panic (k a)) -> no_panic (m ≫= k).
Proof. destruct m; simpl; auto. Qed.

Lemma no_panic_fmap {A B} (f : A -> B) (m : gores A) : no_panic m -> no_panic (f <$> m).
Proof. by destruct m. Qed.

Lemma no_panic_wrap {A} fmt (m : gores A) : no_panic m -> no_panic (wrap_err fmt m).
Proof. by destruct m. Qed.

(** * Slices *)

(** [b[i]] *)
Definition idx (b : bytes) (i : Z) : gores byte :=
  if (0 <=? i) && (i <? blen b) then
    match b !! Z.to_nat i with Some x => Ret x | None => Panic end
  else Panic.

(** [b[lo:hi]]. Go bounds [hi] by the capacity; bounding it by the length, as
    here, panics on strictly more inputs. *)
Definition slice (b : bytes) (lo hi : Z) : gores bytes :=
  if (0 <=? lo) && (lo <=? hi) && (hi <=? blen b) then
    Ret (take (Z.to_nat (hi - lo)) (drop (Z.to_nat lo) b))
  else Panic.

(** [b[lo:]] *)
Definition slice_from (b : bytes) (lo : Z) : gores bytes := slice b lo (blen b).

(** [int(b[i])<<8 | int(b[i+1])] *)
Definition read16 (b : bytes) (i : Z) : gores Z :=
  hi ← idx b i; lo ← idx b (i + 1); Ret (Z.lor (Z.shiftl (byte_to_Z hi) 8) (byte_to_Z lo)).

(** [binary.BigEndian.UintN(b[lo:hi])] *)
Definition read_be (b : bytes) (lo hi : Z) : gores Z := be_value <$> slice b lo hi.

Section Slices.
Implicit Types (b p q r : bytes).

Lemma blen_nonneg {A} (l : list A) : 0 <= blen l.
Proof. unfold blen. lia. Qed.

Lemma blen_app {A} (l k : list A) : blen (l ++ k) = blen l + blen k.
Proof. unfold blen. rewrite length_app. lia. Qed.

Lemma blen_cons {A} (x : A) (l : list A) : blen (x :: l) = 1 + blen l.
Proof. unfold blen. simpl. lia. Qed.

Lemma blen_nil {A} : blen (@nil A) = 0.
Proof. done. Qed.

Lemma blen_be_bytes k n : blen (be_bytes k n) = Z.of_nat k.
Proof. unfold blen. by rewrite length_be_bytes. Qed.

Lemma idx_ok b i : 0 <= i < blen b -> exists x, idx b i = Ret x.
Proof.
  intros Hi. unfold idx, blen in *.
  destruct (Z.leb_spec 0 i); [|lia]. destruct (Z.ltb_spec i (Z.of_nat (length b))); [|lia].
  simpl. destruct (lookup_lt_is_Some_2 b (Z.to_nat i)) as [x ->]; [lia|eauto].
Qed.

Lemma slice_ok b lo hi : 0 <= lo <= hi -> hi <= blen b -> exists s, slice b lo hi = Ret s /\ blen s = hi - lo.
Proof.
  intros Hlo Hhi. unfold slice.
  destruct (Z.leb_spec 0 lo); [|lia]. destruct (Z.leb_spec lo hi); [|lia].
  destruct (Z.leb_spec hi (blen b)); [|lia]. simpl. eexists. split; [done|].
  unfold blen in *. rewrite length_take, length_drop. lia.
Qed.

Lemma slice_Ret b lo hi s : slice b lo hi = Ret s -> 0 <= lo <= hi /\ hi <= blen b /\ blen s = hi - lo.
Proof.
  unfold slice. intros H.
  destruct (Z.leb_spec 0 lo), (Z.leb_spec lo hi), (Z.leb_spec hi (blen b)); simpl in H; try done.
  injection H as <-. unfold blen in *. rewrite length_take, length_drop. lia.
Qed.

Lemma slice_mid p q r lo hi :
  lo = blen p -> hi = blen p + blen q -> slice (p ++ q ++ r) lo hi = Ret q.
Proof.
  intros -> ->. unfold slice. rewrite !blen_app.
  pose proof (blen_nonneg p). pose proof (blen_nonneg q). pose proof (blen_nonneg r).
  destruct (Z.leb_spec 0 (blen p)); [|lia].
  destruct (Z.leb_spec (blen p) (blen p + blen q)); [|lia].
  destruct (Z.leb_spec (blen p + blen q) (blen p + (blen q + blen r))); [|lia]. simpl.
  rewrite Z.add_simpl_l. unfold blen. rewrite !Nat2Z.id, drop_app_length, take_app_length. done.
Qed.

Lemma slice_from_end p q lo : lo = blen p -> slice_from (p ++ q) lo = Ret q.
Proof.
  intros ->. unfold slice_from. rewrite <- (app_nil_r q) at 1.
  apply slice_mid; [done|]. apply blen_app.
Qed.

Lemma idx_mid p x r i : i = blen p -> idx (p ++ x :: r) i = Ret x.
Proof.
  intros ->. unfold idx. rewrite blen_app, blen_cons.
  pose proof (blen_nonneg p). pose proof (blen_nonneg r).
  destruct (Z.leb_spec 0 (blen p)); [|lia].
  destruct (Z.ltb_spec (blen p) (blen p + (1 + blen r))); [|lia]. simpl.
  unfold blen. by rewrite Nat2Z.id, list_lookup_middle.
Qed.

Lemma read16_be p n r i :
  i = blen p -> 0 <= n < 2 ^ 16 -> read16 (p ++ be_bytes 2 n ++ r) i = Ret n.
Proof.
  intros -> Hn. unfold read16. cbn [be_bytes app].
  change (8 * Z.of_nat 1) with 8. change (8 * Z.of_nat 0) with 0.
  rewrite (Z.shiftr_0_r n), (idx_mid p _ _ (blen p)) by done. cbn [mbind gores_bind].
  rewrite cons_middle, app_assoc.
  rewrite idx_mid by (rewrite blen_app; done). cbn [mbind gores_bind]. f_equal.
  change (be_step (byte_to_Z (byte_of_Z (Z.shiftr n 8))) (byte_of_Z n) = n).
  rewrite be_step_arith, !byte_to_of_Z, Z.shiftr_div_pow2 by lia. change (2 ^ 8) with 256.
  rewrite (Z.mod_small (n / 256)); [pose proof (Z.div_mod n 256); lia|].
  split; [apply Z.div_pos; lia|]. apply Z.div_lt_upper_bound; lia.
Qed.

Lemma read16_ok b i : 0 <= i -> i + 2 <= blen b -> exists n, read16 b i = Ret n /\ 0 <= n < 2 ^ 16.
Proof.
  intros Hi Hb. unfold read16.
  destruct (idx_ok b i) as [x ->]; [lia|]. destruct (idx_ok b (i + 1)) as [y Hy]; [lia|].
  simpl. rewrite Hy. simpl. eexists. split; [done|].
  change (0 <= be_step (byte_to_Z x) y < 2 ^ 16). rewrite be_step_arith.
  pose proof (byte_to_Z_range x). pose proof (byte_to_Z_range y). lia.
Qed.

Lemma read_be_be p k n r lo hi :
  lo = blen p -> hi = lo + Z.of_nat k -> 0 <= n < 2 ^ (8 * Z.of_nat k) ->
  read_be (p ++ be_bytes k n ++ r) lo hi = Ret n.
Proof.
  intros -> -> Hn. unfold read_be. rewrite slice_mid; [| done | by rewrite blen_be_bytes].
  simpl. f_equal. rewrite be_value_bytes. by apply Z.mod_small.
Qed.

Lemma read_be_ok b lo hi :
  0 <= lo <= hi -> hi <= blen b -> exists n, read_be b lo hi = Ret n /\ 0 <= n < 2 ^ (8 * (hi - lo)).
Proof.
  intros Hlo Hhi. unfold read_be. destruct (slice_ok b lo hi) as (s & -> & Hs); [done..|].
  simpl. eexists. split; [done|]. rewrite <- Hs. apply be_value_range.
Qed.
End Slices.

(** * Framed fields *)

(** [buf[0] = byte(n >> 8); buf[1] = byte(n)] *)
Definition put16 (n : Z) : bytes := [byte_of_Z (Z.shiftr n 8); byte_of_Z n].

(** [n] bytes of padding with the value [0xFF] *)
Definition pad_ff (n : nat) : bytes := replicate n Byte.xff.

Lemma put16_be n : put16 n = be_bytes 2 n.
Proof. unfold put16, be_bytes. by rewrite (Z.shiftr_0_r n : Z.shiftr n (8 * Z.of_nat 0) = n). Qed.

Lemma blen_put16 n : blen (put16 n) = 2.
Proof. done. Qed.

Create Rewrite HintDb lengths.
#[export] Hint Rewrite @blen_app @blen_cons @blen_nil @blen_be_bytes blen_put16 : lengths.

(** Arithmetic on lengths of concatenations. *)
Ltac lens :=
  autorewrite with lengths in *;
  repeat match goal with
  | |- context [@blen ?A ?l] => lazymatch goal with H : 0 <= blen l |- _ => fail | _ => pose proof (@blen_nonneg A l) end
  | _ : context [@blen ?A ?l] |- _ => lazymatch goal with H : 0 <= blen l |- _ => fail | _ => pose proof (@blen_nonneg A l) end
  end;
  lia.

(** Reading past a prefix, and reading the first field. *)
Section Framing.
Implicit Types (b p q r : bytes).

Lemma slice_skip p r lo hi :
  blen p <= lo -> slice (p ++ r) lo hi = slice r (lo - blen p) (hi - blen p).
Proof.
  intros Hlo. unfold slice. rewrite blen_app. pose proof (blen_nonneg p).
  replace (0 <=? lo - blen p) with (0 <=? lo) by lia.
  replace (lo - blen p <=? hi - blen p) with (lo <=? hi) by lia.
  replace (hi - blen p <=? blen r) with (hi <=? blen p + blen r) by lia.
  destruct (_ && _)%bool; [|done]. do 2 f_equal; [lia|].
  rewrite drop_app_ge by (unfold blen in *; lia). f_equal. unfold blen in *. lia.
Qed.

Lemma slice_from_skip p r lo : blen p <= lo -> slice_from (p ++ r) lo = slice_from r (lo - blen p).
Proof.
  intros Hlo. unfold slice_from. rewrite slice_skip by done. f_equal. rewrite blen_app. lia.
Qed.

Lemma idx_skip p r i : blen p <= i -> idx (p ++ r) i = idx r (i - blen p).
Proof.
  intros Hi. unfold idx. rewrite blen_app. pose proof (blen_nonneg p).
  replace (0 <=? i - blen p) with (0 <=? i) by lia.
  replace (i - blen p <? blen r) with (i <? blen p + blen r) by lia.
  destruct (_ && _)%bool; [|done]. rewrite lookup_app_r by (unfold blen in *; lia).
  by replace (Z.to_nat i - length p)%nat with (Z.to_nat (i - blen p)) by (unfold blen in *; lia).
Qed.

Lemma read16_skip p r i : blen p <= i -> read16 (p ++ r) i = read16 r (i - blen p).
Proof.
  intros Hi. unfold read16. rewrite !idx_skip by lia.
  by replace (i + 1 - blen p) with (i - blen p + 1) by lia.
Qed.

Lemma read_be_skip p r lo hi :
  blen p <= lo -> read_be (p ++ r) lo hi = read_be r (lo - blen p) (hi - blen p).
Proof. intros Hlo. unfold read_be. by rewrite slice_skip. Qed.

Lemma slice_hd q r lo hi : lo = 0 -> hi = blen q -> slice (q ++ r) lo hi = Ret q.
Proof. intros -> ->. by apply (slice_mid [] q r). Qed.

Lemma slice_all q lo hi : lo = 0 -> hi = blen q -> slice q lo hi = Ret q.
Proof. intros -> ->. rewrite <- (app_nil_r q) at 1. by apply slice_hd. Qed.

Lemma slice_from_hd q lo : lo = 0 -> slice_from q lo = Ret q.
Proof. intros ->. by apply (slice_from_end [] q). Qed.

Lemma idx_hd x r i : i = 0 -> idx (x :: r) i = Ret x.
Proof. intros ->. by apply (idx_mid [] x r). Qed.

Lemma idx_tl x r i : 1 <= i -> idx (x :: r) i = idx r (i - 1).
Proof. apply (idx_skip [x] r). Qed.

Lemma idx_app_cons x p r i : idx ((x :: p) ++ r) i = idx (x :: (p ++ r)) i.
Proof. done. Qed.

Lemma read16_hd n r i : i = 0 -> 0 <= n < 2 ^ 16 -> read16 (put16 n ++ r) i = Ret n.
Proof. intros -> Hn. rewrite put16_be. by apply (read16_be [] n r). Qed.

Lemma read_be_hd k n r lo hi :
  lo = 0 -> hi = Z.of_nat k -> 0 <= n < 2 ^ (8 * Z.of_nat k) -> read_be (be_bytes k n ++ r) lo hi = Ret n.
Proof. intros -> -> Hn. by apply (read_be_be [] k n r). Qed.

(** What a successful read says about the buffer. *)
Lemma idx_inv b i x : idx b i = Ret x -> exists p r, b = p ++ x :: r /\ blen p = i.
Proof.
  unfold idx. destruct (Z.leb_spec 0 i); [|done]. destruct (Z.ltb_spec i (blen b)); [|done].
  cbn [andb]. destruct (b !! Z.to_nat i) as [y|] eqn:E; [|done]. intros [= <-].
  exists (take (Z.to_nat i) b), (drop (S (Z.to_nat i)) b).
  rewrite take_drop_middle by done. split; [done|]. unfold blen in *. rewrite length_take. lia.
Qed.

Lemma slice_inv b lo hi s : slice b lo hi = Ret s -> exists p r, b = p ++ s ++ r /\ blen p = lo /\ blen s = hi - lo.
Proof.
  intros H. pose proof (slice_Ret _ _ _ _ H) as (Hlo & Hhi & Hs). revert H.
  unfold slice. destruct (_ && _)%bool; [|done]. intros [= <-].
  exists (take (Z.to_nat lo) b), (drop (Z.to_nat (hi - lo)) (drop (Z.to_nat lo) b)).
  rewrite !take_drop. split; [done|]. split; [|done].
  unfold blen in *. rewrite length_take. lia.
Qed.

Lemma slice_from_inv b lo s : slice_from b lo = Ret s -> exists p, b = p ++ s /\ blen p = lo.
Proof.
  unfold slice_from. intros (p & r & E & Hp & Hs)%slice_inv.
  assert (blen r = 0) as Hr by (subst b; lens).
  exists p. destruct r; [|exfalso; revert Hr; lens]. by rewrite app_nil_r in E.
Qed.

Lemma read16_inv b i n :
  read16 b i = Ret n -> exists p r, b = p ++ put16 n ++ r /\ blen p = i /\ 0 <= n < 2 ^ 16.
Proof.
  unfold read16. destruct (idx b i) as [x| |] eqn:Ex; [|done..].
  destruct (idx b (i + 1)) as [y| |] eqn:Ey; [|done..]. cbn [mbind gores_bind]. intros [= <-].
  apply idx_inv in Ex as (p & r & -> & Hp). apply idx_inv in Ey as (p' & r' & E & Hp').
  rewrite cons_middle, app_assoc in E. apply app_inj_1 in E as [<- ->]; [|unfold blen in *; rewrite length_app; simpl; lia].
  exists p, r'. change (Z.lor _ _) with (be_step (byte_to_Z x) y). rewrite be_step_arith.
  pose proof (byte_to_Z_range x). pose proof (byte_to_Z_range y).
  split; [|lia]. unfold put16. cbn [app]. do 2 f_equal; [|f_equal].
  - apply byte_to_Z_inj. rewrite byte_to_of_Z, Z.shiftr_div_pow2 by lia. change (2 ^ 8) with 256.
    rewrite Z.div_add_l, (Z.div_small (byte_to_Z y)), Z.add_0_r, Z.mod_small by lia. done.
  - apply byte_to_Z_inj. rewrite byte_to_of_Z, Z.add_comm, Z.mod_add, Z.mod_small by lia. done.
Qed.
End Framing.

Arguments be_bytes : simpl never.
Arguments idx : simpl never.
Arguments slice : simpl never.
Arguments slice_from : simpl never.
Arguments read16 : simpl never.
Arguments read_be : simpl never.
Arguments put16 : simpl never.
Arguments pad_ff : simpl never.

(** * Automation for codecs *)

(** One step of running a decoder over a concrete concatenation. *)
Ltac codec_step :=
  match goal with
  | |- context [read16 (put16 _ ++ _) _] => rewrite read16_hd by lens
  | |- context [read_be (be_bytes _ _ ++ _) _ _] => rewrite read_be_hd by lens
  | |- context [idx ((_ :: _) ++ _) _] => rewrite idx_app_cons
  | |- context [idx (_ :: _) _] => first [rewrite idx_hd by lens | rewrite idx_tl by lens]
  | |- context [slice_from ?q _] => rewrite (slice_from_hd q) by lens
  | |- context [slice (?q ++ ?r) _ _] => rewrite (slice_hd q r) by lens
  | |- context [slice ?q _ _] => rewrite (slice_all q) by lens
  | |- context [read16 (_ ++ _) _] => rewrite read16_skip by lens
  | |- context [read_be (_ ++ _) _ _] => rewrite read_be_skip by lens
  | |- context [idx (_ ++ _) _] => rewrite idx_skip by lens
  | |- context [slice_from (_ ++ _) _] => rewrite slice_from_skip by lens
  | |- context [slice (_ ++ _) _ _] => rewrite slice_skip by lens
  | |- context [?a <? ?b] => first [rewrite (proj2 (Z.ltb_ge a b)) by lens | rewrite (proj2 (Z.ltb_lt a b)) by lens]
  | |- context [?a <=? ?b] => first [rewrite (proj2 (Z.leb_gt a b)) by lens | rewrite (proj2 (Z.leb_le a b)) by lens]
  | |- context [?a =? ?b] => first [rewrite (proj2 (Z.eqb_neq a b)) by lens | rewrite (proj2 (Z.eqb_eq a b)) by lens]
  end; cbn [mbind gores_bind negb].

Ltac codec := repeat codec_step.

(** One step of showing that a decoder never indexes out of range. *)
Ltac safe_step :=
  match goal with
  | |- no_panic (Ret _) => exact I
  | |- no_panic (Fail _) => exact I
  | |- no_panic (mbind _ (idx ?b ?i)) => destruct (idx_ok b i) as [? ->]; [lens|]; cbn [mbind gores_bind]
  | |- no_panic (mbind _ (read16 ?b ?i)) =>
      let n := fresh "n" in let Hn := fresh "Hn" in
      destruct (read16_ok b i) as (n & -> & Hn); [lens..|]; cbn [mbind gores_bind]
  | |- no_panic (mbind _ (read_be ?b ?i ?j)) =>
      let n := fresh "n" in let Hn := fresh "Hn" in
      destruct (read_be_ok b i j) as (n & -> & Hn); [lens..|]; cbn [mbind gores_bind]
  | |- no_panic (mbind _ (slice ?b ?i ?j)) =>
      let s := fresh "s" in let Hs := fresh "Hs" in
      destruct (slice_ok b i j) as (s & -> & Hs); [lens..|]; cbn [mbind gores_bind]
  | |- no_panic (mbind _ (slice_from ?b ?i)) =>
      let s := fresh "s" in let Hs := fresh "Hs" in
      destruct (slice_ok b i (blen b)) as (s & Hs & ?); [lens..|]; unfold slice_from; rewrite Hs; cbn [mbind gores_bind]
  | |- no_panic (if ?a <? ?b then _ else _) => destruct (Z.ltb_spec a b)
  | |- no_panic (if ?a =? ?b then _ else _) => destruct (Z.eqb_spec a b)
  | |- no_panic (if ?b then _ else _) => destruct b
  end.

Ltac safe := repeat safe_step.

(** Follow the successful path of a computation that returned. *)
Ltac unbind H :=
  repeat match type of H with
  | mbind _ ?m = Ret _ => destruct m eqn:?; cbn [mbind gores_bind] in H; try discriminate H
  | (if ?b then _ else _) = Ret _ => destruct b eqn:?; try discriminate H
  end.
