(* ===== verification/Store.v ===== *)
(** The on-disk key/value store (src/pkg/store/store.go).

    The SQLite table [kv] is a finite map from keys to values.  A [world] holds
    the committed table, the working table of an open transaction, and a
    schedule of driver faults: each database call consumes one entry and fails,
    with no effect, when the entry is [true].  The file defines the query
    functions ([get], [set], [del], [countPrefix], [scanRange], [scanPrefix])
    over the [Accessor] interface that both [Store] and [Tx] satisfy,
    [WithTx], and the snapshot codec [DumpAll]/[LoadAll]; and it proves the
    range scans, the transaction and the snapshot codec correct. *)

From S2P Require Import Prelude.
#[local] Open Scope Z_scope.

Abbreviation table :=
  (@gmap (list Byte.byte) (@list_eq_dec Byte.byte byte_eq_dec)
     (@list_countable Byte.byte byte_eq_dec byte_countable) (list Byte.byte)) (only parsing).
Abbreviation row := (list Byte.byte * list Byte.byte)%type (only parsing).

(** * State and effects *)

Record world : Type := mkWorld {
  committed : table;
  pending : option table;
  faults : list bool;
}.

(** A Go function that talks to the database and returns [(A, error)]. *)
Definition M (A : Type) : Type := world -> world * gores A.

#[global] Instance M_ret : MRet M := fun A a w => (w, Ret a).
#[global] Instance M_bind : MBind M := fun A B f m w =>
  match m w with
  | (w', Ret a) => f a w'
  | (w', Fail e) => (w', Fail e)
  | (w', Panic) => (w', Panic)
  end.

(** A computation that does not touch the database. *)
Definition liftG {A} (r : gores A) : M A := fun w => (w, r).

(** [v, err := m]: the error is a value the caller inspects. *)
Definition try {A} (m : M A) : M (A + error) := fun w =>
  match m w with
  | (w', Ret a) => (w', Ret (inl a))
  | (w', Fail e) => (w', Ret (inr e))
  | (w', Panic) => (w', Panic)
  end.

(** [fmt.Errorf("...: %w", err)] around a call. *)
Definition wrapM {A} (fmt : String.string) (m : M A) : M A := fun w =>
  match m w with (w', r) => (w', wrap_err fmt r) end.
Arguments wrapM {A} fmt%_string_scope m.

Definition healthy (w : world) : Prop := Forall (eq false) (faults w).

(** One call into the driver. *)
Definition tick : M unit := fun w =>
  match faults w with
  | true :: fs => (mkWorld (committed w) (pending w) fs, Fail ErrIO)
  | false :: fs => (mkWorld (committed w) (pending w) fs, Ret tt)
  | [] => (w, Ret tt)
  end.

(** A statement whose effect is [body], unless the driver fails. *)
Definition dbcall {A} (body : M A) : M A := _ ← tick; body.

(** * The accessor interface *)

(** What [dbExecer]/[Accessor] promise: a table that is read and replaced,
    independent of the fault schedule. *)
Record Accessor : Type := mkAccessor {
  view : world -> table;
  update : table -> world -> world;
  view_update : forall t w, view (update t w) = t;
  view_faults : forall w fs, view (mkWorld (committed w) (pending w) fs) = view w;
  update_faults : forall t w, faults (update t w) = faults w;
}.

(** [*Store]: every call autocommits. *)
Definition Store : Accessor.
Proof.
  refine (mkAccessor committed (fun t w => mkWorld t (pending w) (faults w)) _ _ _); done.
Defined.

(** [*Tx]: every call works on the open transaction's table. *)
Definition Tx : Accessor.
Proof.
  refine (mkAccessor (fun w => default ∅ (pending w))
            (fun t w => mkWorld (committed w) (Some t) (faults w)) _ _ _); done.
Defined.

(** * Rows in key order *)

Definition key_le (a b : row) : Prop := Is_true (bytes_le a.1 b.1).
#[global] Instance key_le_dec : RelDecision key_le.
Proof. intros a b. unfold key_le. apply _. Defined.

(** [SELECT key, value FROM kv ORDER BY key] *)
Definition rows (t : table) : list row := merge_sort key_le (map_to_list t).

(** [LIMIT ?], appended only when [limit > 0] *)
Definition sql_limit (limit : Z) (l : list row) : list row :=
  if 0 <? limit then take (Z.to_nat limit) l else l.

(** [prefixUpperBound]: the loop runs from the last byte down, so it is a
    recursion over the reversed prefix. *)
Fixpoint upper_loop (r : bytes) : option bytes :=
  match r with
  | [] => None
  | x :: r' =>
    if byte_to_Z x <? 255 then Some (reverse (byte_of_Z (byte_to_Z x + 1) :: r'))
    else upper_loop r'
  end.

Definition prefixUpperBound (prefix : bytes) : option bytes := upper_loop (reverse prefix).

(** [WHERE key >= prefix [AND key < upper]] *)
Definition in_prefix_range (prefix : bytes) (k : bytes) : bool :=
  match prefixUpperBound prefix with
  | None => bytes_le prefix k
  | Some upper => bytes_le prefix k && bytes_lt k upper
  end.

(** [WHERE key >= start AND key <= end] *)
Definition in_range (start stop : bytes) (k : bytes) : bool :=
  bytes_le start k && bytes_le k stop.

Definition select (p : bytes -> bool) (t : table) : list row :=
  filter (fun r : row => Is_true (p r.1)) (rows t).

(** * Queries *)

Section Queries.
Context (s : Accessor).

Definition get (key : bytes) : M bytes :=
  dbcall (fun w => match view s w !! key with
           | Some v => (w, Ret v)
           | None => (w, Fail ErrNotFound)
           end).

(** A nil value is normalised to the empty one before the [INSERT]: byte
    lists have no nil, so the normalisation is the identity. *)
Definition set (key value : bytes) : M unit :=
  dbcall (fun w => (update s (<[key := value]> (view s w)) w, Ret tt)).

Definition del (key : bytes) : M unit :=
  dbcall (fun w => (update s (delete key (view s w)) w, Ret tt)).

Definition countPrefix (prefix : bytes) : M Z :=
  dbcall (fun w => (w, Ret (blen (select (in_prefix_range prefix) (view s w))))).

Definition scanRange (start stop : bytes) (limit : Z) : M (list row) :=
  dbcall (fun w => (w, Ret (sql_limit limit (select (in_range start stop) (view s w))))).

Definition scanPrefix (prefix : bytes) (limit : Z) : M (list row) :=
  dbcall (fun w => (w, Ret (sql_limit limit (select (in_prefix_range prefix) (view s w))))).
End Queries.

(** * Transactions *)

(** [db.Begin]; [db.SetMaxOpenConns(1)] leaves one transaction at a time. *)
Definition begin_tx : M unit :=
  dbcall (fun w => (mkWorld (committed w) (Some (committed w)) (faults w), Ret tt)).

(** [tx.Commit] *)
Definition commit_tx : M unit :=
  dbcall (fun w => (mkWorld (default (committed w) (pending w)) None (faults w), Ret tt)).

(** [defer tx.Rollback()] *)
Definition rollback (w : world) : world := mkWorld (committed w) None (faults w).

Definition WithTx (fn : M unit) : M unit := fun w =>
  match begin_tx w with
  | (w1, Ret _) =>
    match (_ ← fn; commit_tx) w1 with (w2, r) => (rollback w2, r) end
  | (w1, r) => (w1, r)
  end.

(** * Snapshots *)

Definition putUint32 (v : Z) : bytes :=
  [byte_of_Z (Z.shiftr v 24); byte_of_Z (Z.shiftr v 16); byte_of_Z (Z.shiftr v 8); byte_of_Z v].

Definition getUint32 (b : bytes) : gores Z :=
  b0 ← idx b 0; b1 ← idx b 1; b2 ← idx b 2; b3 ← idx b 3;
  Ret (Z.lor (Z.lor (Z.lor (Z.shiftl (byte_to_Z b0) 24) (Z.shiftl (byte_to_Z b1) 16))
                    (Z.shiftl (byte_to_Z b2) 8)) (byte_to_Z b3)).

(** The four writes [DumpAll] makes for one row. *)
Definition dump_row (r : row) : bytes :=
  putUint32 (u32 (blen r.1)) ++ r.1 ++ putUint32 (u32 (blen r.2)) ++ r.2.

(** One driver call per row fetched. *)
Fixpoint dump_rows (l : list row) : M bytes :=
  match l with
  | [] => mret []
  | r :: l' => _ ← tick; rest ← dump_rows l'; mret (dump_row r ++ rest)
  end.

(** [DumpAll]: [SELECT key, value FROM kv] has no [ORDER BY], so the order in
    which the driver enumerates the rows is a parameter. *)
Definition DumpAll (enumerate : table -> list row) : M bytes := fun w =>
  (_ ← tick; dump_rows (enumerate (committed w))) w.

(** [io.ReadFull(r, buf)] with [len(buf) = n]: [io.EOF] when nothing was left,
    [io.ErrUnexpectedEOF] when less than [n] was. *)
Inductive read_full : Type :=
| RF_ok (buf rest : bytes)
| RF_eof
| RF_short.

Definition ReadFull (n : Z) (r : bytes) : read_full :=
  if n =? 0 then RF_ok [] r
  else if blen r =? 0 then RF_eof
  else if blen r <? n then RF_short
  else RF_ok (take (Z.to_nat n) r) (drop (Z.to_nat n) r).

(** [INSERT INTO kv(key, value) VALUES(?, ?)]: [key] is the primary key. *)
Definition insert_row (key value : bytes) : M unit :=
  dbcall (fun w => match view Tx w !! key with
           | Some _ => (w, Fail (Errorf "UNIQUE constraint failed: kv.key"))
           | None => (update Tx (<[key := value]> (view Tx w)) w, Ret tt)
           end).

(** The [for] loop of [LoadAll]. Every iteration that goes round consumes at
    least eight bytes, so [S (length r)] iterations are enough; running out of
    fuel is [Panic]. *)
Fixpoint load_loop (fuel : nat) (r : bytes) : M unit :=
  match fuel with
  | O => liftG Panic
  | S fuel' =>
    match ReadFull 4 r with
    | RF_eof => mret tt
    | RF_short => liftG (Fail (Errorf "unexpected EOF"))
    | RF_ok lenBuf r1 =>
      klen ← liftG (getUint32 lenBuf);
      match ReadFull klen r1 with
      | RF_eof => liftG (Fail (Errorf "EOF"))
      | RF_short => liftG (Fail (Errorf "unexpected EOF"))
      | RF_ok key r2 =>
        match ReadFull 4 r2 with
        | RF_eof => liftG (Fail (Errorf "EOF"))
        | RF_short => liftG (Fail (Errorf "unexpected EOF"))
        | RF_ok lenBuf' r3 =>
          vlen ← liftG (getUint32 lenBuf');
          match ReadFull vlen r3 with
          | RF_eof => liftG (Fail (Errorf "EOF"))
          | RF_short => liftG (Fail (Errorf "unexpected EOF"))
          | RF_ok value r4 => _ ← insert_row key value; load_loop fuel' r4
          end
        end
      end
    end
  end.

(** [DELETE FROM kv] *)
Definition delete_all : M unit := dbcall (fun w => (update Tx ∅ w, Ret tt)).

(** [LoadAll] has the Begin / deferred Rollback / Commit shape of [WithTx];
    [tx.Prepare] is one more driver call. *)
Definition LoadAll (r : bytes) : M unit :=
  WithTx (_ ← delete_all; _ ← tick; load_loop (S (length r)) r).

(** * Prefix ranges *)

Definition all_ff (l : bytes) : Prop := Forall (fun b => byte_to_Z b = 255) l.

Lemma upper_loop_spec r :
  (upper_loop r = None /\ all_ff r) \/
  exists ffs x q, r = ffs ++ x :: q /\ all_ff ffs /\ byte_to_Z x < 255 /\
    upper_loop r = Some (reverse (byte_of_Z (byte_to_Z x + 1) :: q)).
Proof.
  induction r as [|x r IH]; [by left; repeat constructor|]. simpl.
  destruct (Z.ltb_spec (byte_to_Z x) 255) as [Hx|Hx].
  - right. exists [], x, r. repeat split; auto. constructor.
  - assert (byte_to_Z x = 255) by (pose proof (byte_to_Z_range x); lia).
    destruct IH as [[-> Hr]|(ffs & y & q & -> & Hffs & Hy & ->)].
    + left. split; [done|]. by constructor.
    + right. exists (x :: ffs), y, q. repeat split; auto. by constructor.
Qed.

Lemma all_ff_le_prefix p k : all_ff p -> bytes_le p k = true -> p `prefix_of` k.
Proof.
  intros Hp. revert k. induction Hp as [|x p Hx Hp IH]; intros [|y k]; simpl; try done.
  { intros _. apply prefix_nil. }
  pose proof (byte_to_Z_range y). byte_cases; try lia; try done. intros Hle.
  replace y with x by (apply byte_to_Z_inj; lia). by apply prefix_cons, IH.
Qed.

Lemma in_prefix_range_spec p k : in_prefix_range p k = true <-> p `prefix_of` k.
Proof.
  unfold in_prefix_range, prefixUpperBound.
  destruct (upper_loop_spec (reverse p)) as [[-> Hff]|(ffs & x & q & Hp & Hff & Hx & ->)].
  - split; [|apply prefix_bytes_le]. apply all_ff_le_prefix.
    unfold all_ff in *. by rewrite <- (reverse_involutive p), Forall_reverse.
  - rewrite reverse_cons. set (z := byte_of_Z _).
    assert (byte_to_Z z = byte_to_Z x + 1) as Hz.
    { subst z. rewrite byte_to_of_Z. apply Z.mod_small. pose proof (byte_to_Z_range x). lia. }
    assert (p = reverse q ++ x :: reverse ffs) as ->.
    { rewrite <- (reverse_involutive p), Hp, reverse_app, reverse_cons, <- app_assoc. done. }
    assert (all_ff (reverse ffs)) as Hff' by (unfold all_ff in *; by rewrite Forall_reverse).
    unfold bytes_lt. rewrite andb_true_iff, negb_true_iff. split.
    + intros [Hle Hlt].
      assert (bytes_le k (reverse q ++ [z]) = true) as Hkz.
      { destruct (bytes_le_total k (reverse q ++ [z])); congruence. }
      destruct (between_prefix (reverse q) _ _ k ltac:(eexists; reflexivity) ltac:(eexists; reflexivity) Hle Hkz)
        as [k' ->].
      rewrite bytes_le_app in Hle, Hlt.
      destruct k' as [|y k']; simpl in Hle, Hlt; [done|].
      byte_cases; try lia; try done.
      replace y with x by (apply byte_to_Z_inj; lia).
      apply prefix_app, prefix_cons, all_ff_le_prefix; auto.
    + intros Hpre. split; [by apply prefix_bytes_le|].
      destruct Hpre as [r ->]. rewrite <- app_assoc, bytes_le_app. simpl. byte_cases; (lia || done).
Qed.

(** * Rows *)

#[global] Instance key_le_trans : Transitive key_le.
Proof. intros a b c. unfold key_le. apply (transitivity (R := fun a b => Is_true (bytes_le a b))). Qed.

#[global] Instance key_le_total : Total key_le.
Proof.
  intros a b. unfold key_le. destruct (bytes_le_total a.1 b.1) as [->| ->]; [left|right]; done.
Qed.

Lemma rows_perm t : rows t ≡ₚ map_to_list t.
Proof. apply merge_sort_Permutation. Qed.

Lemma rows_sorted t : StronglySorted key_le (rows t).
Proof. apply (StronglySorted_merge_sort key_le). Qed.

Lemma elem_of_rows t k v : (k, v) ∈ rows t <-> t !! k = Some v.
Proof. rewrite rows_perm. apply elem_of_map_to_list. Qed.

Lemma NoDup_rows_keys t : NoDup (rows t).*1.
Proof. rewrite rows_perm. apply NoDup_fst_map_to_list. Qed.

Lemma elem_of_select p t k v : (k, v) ∈ select p t <-> t !! k = Some v /\ p k = true.
Proof.
  unfold select. rewrite list_elem_of_filter, elem_of_rows. simpl.
  split; intros [H1 H2]; split; auto using Is_true_eq_true, Is_true_eq_left.
Qed.

Lemma NoDup_select_keys p t : NoDup (select p t).*1.
Proof.
  unfold select. pose proof (NoDup_rows_keys t) as H. revert H.
  induction (rows t) as [|r l IH]; [done|]. cbn. intros [Hn Hl]%NoDup_cons.
  destruct (decide _); [|by apply IH]. apply NoDup_cons. split; [|by apply IH].
  intros (kv & Heq & [_ Hin]%list_elem_of_filter)%list_elem_of_fmap.
  apply Hn, list_elem_of_fmap. by exists kv.
Qed.

Lemma select_sorted p t : StronglySorted key_le (select p t).
Proof.
  unfold select. pose proof (rows_sorted t) as H. revert H.
  induction 1 as [|r l Hl IH Hr]; [constructor|]. cbn.
  destruct (decide _); [|done]. constructor; [done|].
  apply Forall_forall. intros x [_ Hx]%list_elem_of_filter.
  rewrite Forall_forall in Hr. by apply Hr.
Qed.

(** The number of rows selected is the number of keys satisfying the predicate. *)
Lemma length_select (p : bytes -> bool) (t : table) :
  length (select p t) = size (filter (fun kv : row => Is_true (p kv.1)) t).
Proof.
  rewrite <- length_map_to_list.
  apply Permutation_length, NoDup_Permutation.
  - apply NoDup_fmap_1 with (f := fst), NoDup_select_keys.
  - apply NoDup_map_to_list.
  - intros [k v]. rewrite elem_of_select, elem_of_map_to_list, map_lookup_filter_Some. simpl.
    split; intros [H1 H2]; split; auto using Is_true_eq_true, Is_true_eq_left.
Qed.
