(* ===== verification/StoreLogic.v ===== *)
(** Specifications of database code.

    Three judgements say what an effectful computation does from a given table,
    for every fault schedule:
    - [ReadsAt s t m r]: [m] changes no table and, when accessor [s] shows [t],
      returns [r] -- or, if a fault is scheduled, an error;
    - [StepsAt t m (t', r)]: inside a transaction whose working table is [t],
      [m] moves it to [t'] and returns [r], or fails because of a fault;
    - [RefinesAt t m (t', r)]: outside a transaction, [m] moves the committed
      table from [t] to [t'] and returns [r], or fails because of a fault and
      leaves the committed table as it was.
    [Reads], [TxSteps] and [Refines] are the same for a function of the table.
    The rules execute a program symbolically; [WithTx] turns a [StepsAt] body
    into an all-or-nothing [RefinesAt] step. *)

From S2P Require Import Prelude Store.
#[local] Open Scope Z_scope.

(** * Pure specifications *)

Definition spec (A : Type) : Type :=
  table -> table * gores A.

Definition spec_ret {A : Type} (r : gores A) : spec A := fun t => (t, r).

Definition spec_bind {A B : Type} (f : spec A) (g : A -> spec B) : spec B := fun t =>
  match f t with
  | (t', Ret a) => g a t'
  | (t', Fail e) => (t', Fail e)
  | (t', Panic) => (t', Panic)
  end.

Definition spec_reads {A : Type} (f : table -> gores A) : spec A := fun t => (t, f t).

Definition spec_set (k v : bytes) : spec unit := fun t => (<[k := v]> t, Ret tt).
Definition spec_del (k : bytes) : spec unit := fun t => (delete k t, Ret tt).

Fixpoint spec_foreach {A : Type} (l : list A) (g : A -> spec unit) : spec unit :=
  match l with
  | [] => spec_ret (Ret tt)
  | x :: l' => spec_bind (g x) (fun _ => spec_foreach l' g)
  end.

(** All-or-nothing: keep the new table only on success. *)
Definition spec_atomic (f : spec unit) : spec unit := fun t =>
  match f t with
  | (t', Ret a) => (t', Ret a)
  | (_, r) => (t, r)
  end.

(** Stop with the error of a check, or continue. *)
Definition guard {A B : Type} (r : gores A) (t : table) (q : A -> table * gores B) : table * gores B :=
  match r with Ret a => q a | Fail e => (t, Fail e) | Panic => (t, Panic) end.

(** [for _, x := range l { if err := body(x); err != nil { return err } }] *)
Fixpoint foreach {A : Type} (l : list A) (body : A -> M unit) : M unit :=
  match l with
  | [] => mret tt
  | x :: l' => _ ← body x; foreach l' body
  end.

(** [v, err := s.Get(key)] followed by an [errors.Is(err, ErrNotFound)] test. *)
Definition lookup_key (s : Accessor) (key : bytes) : M (option bytes) :=
  r ← try (get s key);
  match r with
  | inl v => mret (Some v)
  | inr e => if errors_is e ErrNotFound then mret None else liftG (Fail e)
  end.

(** [if _, err := s.Get(key); err == nil] *)
Definition hasKey (s : Accessor) (key : bytes) : M bool :=
  r ← try (get s key);
  mret (match r with inl _ => true | inr _ => false end).

(** * Judgements *)

Definition ReadsAt {A : Type} (s : Accessor) (t : table) (m : M A) (r : gores A) : Prop :=
  forall w, view s w = t -> exists w' r', m w = (w', r') /\
    committed w' = committed w /\ pending w' = pending w /\ (healthy w -> healthy w') /\
    (r' = r \/ (~ healthy w /\ is_fail r' = true)).

Definition StepsAt {A : Type} (t : table) (m : M A) (q : table * gores A) : Prop :=
  forall w, pending w = Some t -> exists w' r', m w = (w', r') /\
    committed w' = committed w /\ (healthy w -> healthy w') /\
    ((exists t', pending w' = Some t' /\ (t', r') = q) \/ (~ healthy w /\ is_fail r' = true)).

Definition RefinesAt {A : Type} (t : table) (m : M A) (q : table * gores A) : Prop :=
  forall w, pending w = None -> committed w = t -> exists w' r', m w = (w', r') /\
    pending w' = None /\ (healthy w -> healthy w') /\
    ((committed w', r') = q \/ (~ healthy w /\ is_fail r' = true /\ committed w' = t)).

Definition Reads {A : Type} (s : Accessor) (m : M A) (f : table -> gores A) : Prop :=
  forall t, ReadsAt s t m (f t).

Definition TxSteps {A : Type} (m : M A) (f : spec A) : Prop := forall t, StepsAt t m (f t).

Definition Refines {A : Type} (m : M A) (f : spec A) : Prop := forall t, RefinesAt t m (f t).

(** * One database call *)

Lemma view_ext s w w' : committed w' = committed w -> pending w' = pending w -> view s w' = view s w.
Proof.
  intros Hc Hp. rewrite <- (view_faults s w (faults w')). f_equal. destruct w'; simpl in *; congruence.
Qed.

Lemma tick_spec w : exists w' r, tick w = (w', r) /\
  committed w' = committed w /\ pending w' = pending w /\ (healthy w -> healthy w') /\
  (r = Ret tt \/ (~ healthy w /\ r = Fail ErrIO)).
Proof.
  unfold tick, healthy. destruct (faults w) as [|[|] fs] eqn:E.
  - exists w, (Ret tt). repeat split; auto. by rewrite E.
  - eexists _, _. split; [done|]. simpl. repeat split; auto.
    + by intros [? ?]%Forall_cons.
    + right. split; [|done]. intros [? ?]%Forall_cons. done.
  - eexists _, _. split; [done|]. simpl. repeat split; auto. by intros [_ ?]%Forall_cons.
Qed.

Lemma reads_call {A : Type} s (f : table -> gores A) :
  Reads s (dbcall (fun w => (w, f (view s w)))) f.
Proof.
  intros t w <-. unfold dbcall, mbind, M_bind.
  destruct (tick_spec w) as (w' & r & -> & Hc & Hp & Hh & [-> | [Hf ->]]).
  - exists w', (f (view s w')). repeat split; auto. left. by rewrite (view_ext s w w' Hc Hp).
  - exists w', (Fail ErrIO). repeat split; auto.
Qed.

Lemma reads_get s k :
  Reads s (get s k) (fun t => match t !! k with Some v => Ret v | None => Fail ErrNotFound end).
Proof.
  intros t w <-.
  destruct (reads_call s (fun t => match t !! k with Some v => Ret v | None => Fail ErrNotFound end) _ w eq_refl)
    as (w' & r & Hm & H). exists w', r. split; [|done]. rewrite <- Hm.
  unfold get, dbcall, mbind, M_bind. destruct (tick w) as [w1 [[]| |]]; try done.
  by destruct (view s w1 !! k).
Qed.

Lemma reads_lookup_key s k : Reads s (lookup_key s k) (fun t => Ret (t !! k)).
Proof.
  intros t w <-. unfold lookup_key, mbind, M_bind, try.
  unfold get, dbcall, mbind, M_bind.
  destruct (tick_spec w) as (w' & r & -> & Hc & Hp & Hh & [-> | [Hf ->]]).
  - rewrite <- (view_ext s w w' Hc Hp). destruct (view s w' !! k); simpl; eauto 10.
  - simpl. exists w', (Fail ErrIO). repeat split; auto.
Qed.

Lemma reads_countPrefix s p :
  Reads s (countPrefix s p) (fun t => Ret (blen (select (in_prefix_range p) t))).
Proof. exact (reads_call s (fun t => Ret (blen (select (in_prefix_range p) t)))). Qed.

Lemma reads_scanRange s lo hi n :
  Reads s (scanRange s lo hi n) (fun t => Ret (sql_limit n (select (in_range lo hi) t))).
Proof. exact (reads_call s (fun t => Ret (sql_limit n (select (in_range lo hi) t)))). Qed.

Lemma reads_scanPrefix s p n :
  Reads s (scanPrefix s p n) (fun t => Ret (sql_limit n (select (in_prefix_range p) t))).
Proof. exact (reads_call s (fun t => Ret (sql_limit n (select (in_prefix_range p) t)))). Qed.

Lemma steps_call {A : Type} (f : spec A) :
  TxSteps (dbcall (fun w => (update Tx (f (view Tx w)).1 w, (f (view Tx w)).2))) f.
Proof.
  intros t w Ht. unfold dbcall, mbind, M_bind.
  destruct (tick_spec w) as (w' & r & -> & Hc & Hp & Hh & [-> | [Hf ->]]).
  - eexists _, _. split; [done|]. simpl. rewrite Hp, Ht. simpl. repeat split; auto.
    left. eexists. split; [done|]. by destruct (f t).
  - exists w', (Fail ErrIO). repeat split; auto.
Qed.

Lemma steps_set k v : TxSteps (set Tx k v) (spec_set k v).
Proof. apply (steps_call (spec_set k v)). Qed.

Lemma steps_del k : TxSteps (del Tx k) (spec_del k).
Proof. apply (steps_call (spec_del k)). Qed.

Lemma refines_call {A : Type} (f : spec A) :
  Refines (dbcall (fun w => (update Store (f (view Store w)).1 w, (f (view Store w)).2))) f.
Proof.
  intros t w Hw <-. unfold dbcall, mbind, M_bind.
  destruct (tick_spec w) as (w' & r & -> & Hc & Hp & Hh & [-> | [Hf ->]]).
  - eexists _, _. split; [done|]. simpl. rewrite Hp. repeat split; auto.
    left. rewrite Hc. by destruct (f (committed w)).
  - exists w', (Fail ErrIO). repeat split; auto; congruence.
Qed.

Lemma refines_set k v : Refines (set Store k v) (spec_set k v).
Proof. apply (refines_call (spec_set k v)). Qed.

Lemma refines_del k : Refines (del Store k) (spec_del k).
Proof. apply (refines_call (spec_del k)). Qed.

(** * Symbolic execution *)

Section At.
Context {A B : Type}.
Implicit Types (t : table) (m : M A) (k : A -> M B).

Lemma reads_at_lift s t (r : gores A) : ReadsAt s t (liftG r) r.
Proof. intros w _. exists w, r. auto 10. Qed.

Lemma reads_at_bind s t m k (r : gores A) (g : A -> gores B) :
  ReadsAt s t m r -> (forall a, r = Ret a -> ReadsAt s t (k a) (g a)) ->
  ReadsAt s t (m ≫= k) (r ≫= g).
Proof.
  intros Hm Hk w Hw. unfold mbind at 1, M_bind.
  destruct (Hm w Hw) as (w1 & r1 & -> & Hc & Hp & Hh & H).
  destruct H as [->|[Hn Hf]].
  - destruct r as [a|e|]; [|eexists _, _; split; [done|]; auto 10..].
    destruct (Hk a eq_refl w1) as (w2 & r2 & -> & Hc2 & Hp2 & Hh2 & H2).
    { by rewrite (view_ext s w w1 Hc Hp). }
    eexists _, _. split; [done|]. repeat split; [congruence..|tauto|].
    destruct H2 as [?|[? ?]]; [by left|right; tauto].
  - destruct r1 as [a|e|]; simpl in Hf; try done. eexists _, _. split; [done|]. repeat split; auto.
Qed.

Lemma reads_at_wrap s t fmt m r : ReadsAt s t m r -> ReadsAt s t (wrapM fmt m) (wrap_err fmt r).
Proof.
  intros Hm w Hw. unfold wrapM. destruct (Hm w Hw) as (w1 & r1 & -> & Hc & Hp & Hh & H).
  eexists _, _. split; [done|]. repeat split; auto.
  destruct H as [->|[Hn Hf]]; [by left|right]. split; [done|]. by destruct r1.
Qed.

(** An access check: a fault may turn a permission into a refusal, never the
    other way round. *)
Definition GatesAt (s : Accessor) t (m : M bool) (r : gores bool) : Prop :=
  forall w, view s w = t -> exists w' r', m w = (w', r') /\
    committed w' = committed w /\ pending w' = pending w /\ (healthy w -> healthy w') /\
    (r' = r \/ (~ healthy w /\ (is_fail r' = true \/ r' = Ret false))).

Lemma reads_gates s t (m : M bool) r : ReadsAt s t m r -> GatesAt s t m r.
Proof.
  intros Hm w Hw. destruct (Hm w Hw) as (w' & r' & E & Hc & Hp & Hh & H).
  exists w', r'. repeat split; auto. tauto.
Qed.

Lemma gates_at_bind s t m (k : A -> M bool) (r : gores A) (g : A -> gores bool) :
  ReadsAt s t m r -> (forall a, r = Ret a -> GatesAt s t (k a) (g a)) ->
  GatesAt s t (m ≫= k) (r ≫= g).
Proof.
  intros Hm Hk w Hw. unfold mbind at 1, M_bind.
  destruct (Hm w Hw) as (w1 & r1 & -> & Hc & Hp & Hh & H).
  destruct H as [->|[Hn Hf]].
  - destruct r as [a|e|]; [|eexists _, _; split; [done|]; auto 10..].
    destruct (Hk a eq_refl w1) as (w2 & r2 & -> & Hc2 & Hp2 & Hh2 & H2).
    { by rewrite (view_ext s w w1 Hc Hp). }
    eexists _, _. split; [done|]. repeat split; [congruence..|tauto|].
    destruct H2 as [?|[? ?]]; [by left|right; tauto].
  - destruct r1 as [a|e|]; simpl in Hf; try done. eexists _, _. split; [done|]. repeat split; auto.
Qed.

Lemma gates_at_wrap s t fmt (m : M bool) r : GatesAt s t m r -> GatesAt s t (wrapM fmt m) (wrap_err fmt r).
Proof.
  intros Hm w Hw. unfold wrapM. destruct (Hm w Hw) as (w1 & r1 & -> & Hc & Hp & Hh & H).
  eexists _, _. split; [done|]. repeat split; auto.
  destruct H as [->|[Hn [Hf| ->]]]; [by left|right|right; auto]. split; [done|left]. by destruct r1.
Qed.

(** A step behind an access check that refuses with an error. *)
Lemma refines_at_gate t (m : M bool) (k : M B) e r q :
  GatesAt Store t m r -> (r = Ret true -> RefinesAt t k q) ->
  RefinesAt t (m ≫= fun ok => if negb ok then liftG (Fail e) else k)
    (guard r t (fun ok => if negb ok then (t, Fail e) else q)).
Proof.
  intros Hm Hk w Hw Ht. unfold mbind at 1, M_bind.
  destruct (Hm w Ht) as (w1 & r1 & -> & Hc & Hp & Hh & H). simpl in *.
  destruct H as [->|[Hn Hf]].
  - destruct r as [[|]|e'|]; cbn [guard negb];
      [|unfold liftG; eexists _, _; split; [done|]; repeat split; [congruence|auto|left; congruence]..].
    destruct (Hk eq_refl w1) as (w2 & r2 & -> & Hp2 & Hh2 & H2); [congruence..|].
    eexists _, _. split; [done|]. repeat split; [done|tauto|].
    destruct H2 as [?|(? & ? & ?)]; [by left|right; tauto].
  - assert (exists e', match r1 with Ret a => (if negb a then liftG (Fail e) else k) w1 | Fail e0 => (w1, Fail e0)
              | Panic => (w1, Panic) end = (w1, Fail e')) as [e' ->].
    { destruct r1 as [a|e'|]; simpl in Hf; [|eauto|by destruct Hf].
      destruct Hf as [?|[= ->]]; [done|]. simpl. eauto. }
    eexists _, _. split; [done|]. repeat split; [congruence|auto|right]. repeat split; auto; congruence.
Qed.

Lemma refines_at_lift t (r : gores A) : RefinesAt t (liftG r) (t, r).
Proof. intros w Hw <-. exists w, r. repeat split; auto. Qed.

(** A read before a step: continue, or stop with its error. *)
Lemma refines_at_read t m k (r : gores A) (q : A -> table * gores B) :
  ReadsAt Store t m r -> (forall a, r = Ret a -> RefinesAt t (k a) (q a)) ->
  RefinesAt t (m ≫= k)
    (guard r t q).
Proof.
  intros Hm Hk w Hw Ht. unfold guard, mbind at 1, M_bind.
  destruct (Hm w Ht) as (w1 & r1 & -> & Hc & Hp & Hh & H). simpl in *.
  destruct H as [->|[Hn Hf]].
  - destruct r as [a|e|]; [|eexists _, _; split; [done|]; repeat split; [congruence|auto|left; congruence]..].
    destruct (Hk a eq_refl w1) as (w2 & r2 & -> & Hp2 & Hh2 & H2); [congruence..|].
    eexists _, _. split; [done|]. repeat split; [done|tauto|].
    destruct H2 as [?|(? & ? & ?)]; [by left|right; tauto].
  - destruct r1 as [a|e|]; simpl in Hf; try done.
    eexists _, _. split; [done|]. repeat split; [congruence|auto|right]. repeat split; auto; congruence.
Qed.

(** A step followed by a computation that no longer touches the database. *)
Lemma refines_at_then t m (g : A -> gores B) q :
  RefinesAt t m q -> RefinesAt t (m ≫= fun a => liftG (g a)) (q.1, q.2 ≫= g).
Proof.
  intros Hm w Hw Ht. unfold mbind at 1, M_bind, liftG.
  destruct (Hm w Hw Ht) as (w1 & r1 & -> & Hp & Hh & H).
  assert (match r1 with Ret a => (w1, g a) | Fail e => (w1, Fail e) | Panic => (w1, Panic) end
          = (w1, r1 ≫= g)) as -> by (by destruct r1).
  eexists _, _. split; [done|]. repeat split; auto.
  destruct H as [<-|(? & ? & ?)]; [by left|right]. repeat split; auto. by destruct r1.
Qed.

Lemma steps_at_lift t (r : gores A) : StepsAt t (liftG r) (t, r).
Proof. intros w Hw. exists w, r. repeat split; auto. left. eauto. Qed.

Lemma steps_at_bind t m k q (q' : A -> table * gores B) :
  StepsAt t m q -> (forall a, q.2 = Ret a -> StepsAt q.1 (k a) (q' a)) ->
  StepsAt t (m ≫= k)
    (guard q.2 q.1 q').
Proof.
  intros Hm Hk w Hw. unfold guard, mbind at 1, M_bind.
  destruct (Hm w Hw) as (w1 & r1 & -> & Hc & Hh & [(t1 & Ht1 & <-)|[Hn Hf]]); simpl in *.
  - destruct r1 as [a|e|]; [|eexists _, _; split; [done|]; repeat split; [done|auto|left; eauto]..].
    destruct (Hk a eq_refl w1 Ht1) as (w2 & r2 & -> & Hc2 & Hh2 & H2).
    eexists _, _. split; [done|]. repeat split; [congruence|tauto|].
    destruct H2 as [?|(? & ?)]; [by left|right; tauto].
  - destruct r1 as [a|e|]; simpl in Hf; try done. eexists _, _. split; [done|]. repeat split; auto.
Qed.

Lemma steps_at_read t m k (r : gores A) (q : A -> table * gores B) :
  ReadsAt Tx t m r -> (forall a, r = Ret a -> StepsAt t (k a) (q a)) ->
  StepsAt t (m ≫= k)
    (guard r t q).
Proof.
  intros Hm Hk. apply (steps_at_bind t m k (t, r) q); [|done].
  intros w Hw. destruct (Hm w) as (w1 & r1 & E & Hc & Hp & Hh & H); [simpl; by rewrite Hw|].
  exists w1, r1. repeat split; auto. destruct H as [->|?]; [left|by right]. exists t. split; [congruence|done].
Qed.
End At.

(** A transaction keeps what its body did only if the body succeeded. *)
Definition keep_on_success (t : table) (q : table * gores unit) : table * gores unit :=
  match q.2 with Ret a => (q.1, Ret a) | r => (t, r) end.

Lemma refines_at_WithTx t fn q : StepsAt t fn q -> RefinesAt t (WithTx fn) (keep_on_success t q).
Proof.
  intros Hfn w Hw Ht. unfold WithTx, begin_tx, dbcall, mbind, M_bind.
  destruct (tick_spec w) as (w0 & r0 & -> & Hc0 & Hp0 & Hh0 & [-> | [Hf0 ->]]); cycle 1.
  { exists w0, (Fail ErrIO). repeat split; auto; [congruence|right]. repeat split; auto; congruence. }
  rewrite <- Hc0 in Ht. subst t.
  destruct (Hfn (mkWorld (committed w0) (Some (committed w0)) (faults w0)) eq_refl)
    as (w1 & r1 & -> & Hc1 & Hh1 & H1). simpl in Hc1.
  change (healthy (mkWorld (committed w0) (Some (committed w0)) (faults w0))) with (healthy w0) in *.
  destruct r1 as [[]|e|].
  - destruct H1 as [(t1 & Hp1 & <-)|[_ ?]]; [|done].
    unfold commit_tx, dbcall, mbind, M_bind.
    destruct (tick_spec w1) as (w2 & r2 & -> & Hc2 & Hp2 & Hh2 & [-> | [Hf2 ->]]);
      (eexists _, _; split; [done|]; simpl; repeat split; [tauto|]).
    + left. by rewrite Hp2, Hp1.
    + right. repeat split; [tauto|]. congruence.
  - eexists _, _. split; [done|]. simpl. repeat split; [tauto|].
    destruct H1 as [(t1 & Hp1 & <-)|[Hn _]]; [left|right].
    + unfold keep_on_success. simpl. congruence.
    + repeat split; [tauto|congruence].
  - eexists _, _. split; [done|]. simpl. repeat split; [tauto|].
    destruct H1 as [(t1 & Hp1 & <-)|[Hn ?]]; [left|done].
    unfold keep_on_success. simpl. congruence.
Qed.

(** * Rules for functions of the table *)

Lemma steps_lift {A : Type} (r : gores A) : TxSteps (liftG r) (spec_ret r).
Proof. intros t. apply steps_at_lift. Qed.

Lemma steps_bind {A B : Type} (m : M A) (k : A -> M B) f g :
  TxSteps m f -> (forall a, TxSteps (k a) (g a)) -> TxSteps (m ≫= k) (spec_bind f g).
Proof.
  intros Hm Hk t. unfold spec_bind.
  pose proof (steps_at_bind t m k (f t) (fun a => g a (f t).1) (Hm t) (fun a _ => Hk a (f t).1)) as H.
  destruct (f t) as [t' [a|e|]]; exact H.
Qed.

Lemma steps_foreach {A : Type} (l : list A) body g :
  (forall x, TxSteps (body x) (g x)) -> TxSteps (foreach l body) (spec_foreach l g).
Proof.
  intros Hb. induction l as [|x l IH]; cbn [foreach spec_foreach]; [apply steps_lift|].
  by apply steps_bind.
Qed.

Lemma steps_ext {A : Type} (m : M A) f g : (forall t, f t = g t) -> TxSteps m f -> TxSteps m g.
Proof. intros Hfg Hm t. rewrite <- Hfg. apply Hm. Qed.

Lemma refines_WithTx fn f : TxSteps fn f -> Refines (WithTx fn) (spec_atomic f).
Proof.
  intros Hfn t. pose proof (refines_at_WithTx t fn (f t) (Hfn t)) as H.
  unfold spec_atomic. unfold keep_on_success in H. destruct (f t) as [t' [a|e|]]; exact H.
Qed.

(** Faults absent, a refinement is an equation. *)
Lemma refines_healthy {A : Type} (m : M A) f w :
  Refines m f -> pending w = None -> healthy w ->
  committed (m w).1 = (f (committed w)).1 /\ (m w).2 = (f (committed w)).2.
Proof.
  intros Hm Hw Hh. destruct (Hm _ w Hw eq_refl) as (w' & r & -> & _ & _ & [H|[Hn _]]); [|done].
  by rewrite <- H.
Qed.

Create HintDb effects.
#[export] Hint Resolve reads_get reads_lookup_key reads_countPrefix reads_scanRange reads_scanPrefix
  steps_set steps_del steps_lift refines_set refines_del : effects.
