(* ===== verification/Snapshot.v ===== *)
(** Snapshots: [DumpAll] and [LoadAll] of src/pkg/store/store.go, and the FSM's
    [Snapshot]/[Restore] built on them (src/pkg/kvfsm/fsm.go).

    A pure reader of the snapshot format, [parse_rows], describes what the loop
    of [LoadAll] accepts; the loop is shown to insert exactly those rows, the
    load to be all-or-nothing under every fault schedule and to terminate on
    every byte stream, and a dump to load back to the same table. *)

From S2P Require Import Prelude Store StoreLogic.
#[local] Open Scope Z_scope.

(** * The FSM's snapshot interface *)

(** [fsmSnapshot.Persist]: dump to the sink, cancelling it on error. The sink is
    the byte stream it received when it is closed, and nothing when cancelled. *)
Definition Persist (enumerate : table -> list row) : M bytes := DumpAll enumerate.

(** [FSM.Restore] *)
Definition Restore (rc : bytes) : M unit := LoadAll rc.

(** * The 32-bit length fields *)

Lemma putUint32_be v : putUint32 v = be_bytes 4 v.
Proof. unfold putUint32, be_bytes. by rewrite (Z.shiftr_0_r v : Z.shiftr v (8 * Z.of_nat 0) = v). Qed.

Lemma getUint32_be b : blen b = 4 -> getUint32 b = Ret (be_value b).
Proof.
  unfold blen. intros Hb. destruct b as [|b0 [|b1 [|b2 [|b3 [|b4 b]]]]]; simpl in Hb; try lia.
  unfold getUint32, idx. simpl. f_equal.
  unfold be_value, be_step. simpl. rewrite !Z.shiftl_lor, !Z.shiftl_shiftl by lia. done.
Qed.

Lemma ReadFull_full n r buf rest :
  0 <= n -> ReadFull n r = RF_ok buf rest -> r = buf ++ rest /\ blen buf = n.
Proof.
  unfold ReadFull. intros Hn.
  destruct (Z.eqb_spec n 0) as [->|]; [by intros [= <- <-]|].
  destruct (Z.eqb_spec (blen r) 0); [done|]. destruct (Z.ltb_spec (blen r) n); [done|].
  intros [= <- <-]. rewrite take_drop. split; [done|].
  unfold blen in *. rewrite length_take. lia.
Qed.

Lemma ReadFull4_eof r : ReadFull 4 r = RF_eof <-> blen r = 0.
Proof.
  unfold ReadFull. change (4 =? 0) with false. cbv iota.
  destruct (Z.eqb_spec (blen r) 0); [done|]. by destruct (blen r <? 4).
Qed.

Lemma ReadFull_app buf rest n : n = blen buf -> ReadFull n (buf ++ rest) = RF_ok buf rest.
Proof.
  intros ->. unfold ReadFull. rewrite blen_app.
  pose proof (blen_nonneg buf). pose proof (blen_nonneg rest).
  destruct (Z.eqb_spec (blen buf) 0) as [E|].
  { unfold blen in E. destruct buf; [done|simpl in E; lia]. }
  destruct (Z.eqb_spec (blen buf + blen rest) 0); [lia|].
  destruct (Z.ltb_spec (blen buf + blen rest) (blen buf)); [lia|].
  unfold blen. by rewrite Nat2Z.id, take_app_length, drop_app_length.
Qed.

(** * What the loop reads *)

Definition read_field (r : bytes) : gores (bytes * bytes) :=
  match ReadFull 4 r with
  | RF_eof => Fail (Errorf "EOF")
  | RF_short => Fail (Errorf "unexpected EOF")
  | RF_ok lenBuf r1 =>
    n ← getUint32 lenBuf;
    match ReadFull n r1 with
    | RF_eof => Fail (Errorf "EOF")
    | RF_short => Fail (Errorf "unexpected EOF")
    | RF_ok field r2 => Ret (field, r2)
    end
  end.

Fixpoint parse_rows (fuel : nat) (r : bytes) : list row * gores unit :=
  match fuel with
  | O => ([], Panic)
  | S fuel' =>
    if blen r =? 0 then ([], Ret tt)
    else
      match ('(k, r2) ← read_field r; '(v, r4) ← read_field r2; Ret (k, v, r4)) with
      | Ret (k, v, r4) => let '(l, res) := parse_rows fuel' r4 in ((k, v) :: l, res)
      | Fail e => ([], Fail e)
      | Panic => ([], Panic)
      end
  end.

Lemma read_field_spec r :
  (exists k r2, read_field r = Ret (k, r2) /\ (length r2 + 4 <= length r)%nat) \/
  (exists e, read_field r = Fail e).
Proof.
  unfold read_field. destruct (ReadFull 4 r) as [b r1| |] eqn:E; [|eauto..].
  apply ReadFull_full in E as [-> Hb]; [|lia]. rewrite (getUint32_be b Hb). cbn [mbind gores_bind].
  destruct (ReadFull (be_value b) r1) as [f r2| |] eqn:E2; [|eauto..].
  apply ReadFull_full in E2 as [-> _]; [|apply be_value_range].
  left. exists f, r2. split; [done|]. rewrite !length_app. unfold blen in Hb. lia.
Qed.

Lemma read_field_app x rest :
  blen x < 2 ^ 32 -> read_field (putUint32 (u32 (blen x)) ++ x ++ rest) = Ret (x, rest).
Proof.
  intros Hx. pose proof (blen_nonneg x). unfold read_field, u32. rewrite Z.mod_small by lia.
  rewrite putUint32_be, ReadFull_app by (by rewrite blen_be_bytes).
  rewrite getUint32_be by (by rewrite blen_be_bytes). cbn [mbind gores_bind].
  rewrite be_value_bytes, Z.mod_small by (change (8 * Z.of_nat 4) with 32; lia).
  by rewrite ReadFull_app.
Qed.

Lemma parse_rows_total fuel r : (length r < fuel)%nat -> no_panic (parse_rows fuel r).2.
Proof.
  revert r. induction fuel as [|fuel IH]; intros r Hr; [lia|]. cbn [parse_rows].
  destruct (blen r =? 0); [done|].
  destruct (read_field_spec r) as [(k & r2 & -> & H2)|[e ->]]; [|done]. cbn [mbind gores_bind].
  destruct (read_field_spec r2) as [(v & r4 & -> & H4)|[e ->]]; [|done]. cbn [mbind gores_bind].
  specialize (IH r4 ltac:(lia)). by destruct (parse_rows fuel r4).
Qed.

Definition fits32 (r : row) : Prop := blen r.1 < 2 ^ 32 /\ blen r.2 < 2 ^ 32.

Lemma length_dump_row r : (4 <= length (dump_row r))%nat.
Proof. unfold dump_row. rewrite length_app, putUint32_be, length_be_bytes. lia. Qed.

Lemma parse_dump l fuel :
  Forall fits32 l -> (length (concat (map dump_row l)) < fuel)%nat ->
  parse_rows fuel (concat (map dump_row l)) = (l, Ret tt).
Proof.
  intros Hl. revert fuel. induction Hl as [|[k v] l [Hk Hv] Hl IH]; intros [|fuel] Hf; try lia; [done|].
  cbn [map concat parse_rows] in *.
  destruct (Z.eqb_spec (blen (dump_row (k, v) ++ concat (map dump_row l))) 0) as [E|_].
  { pose proof (length_dump_row (k, v)). unfold blen in E. rewrite length_app in E. lia. }
  assert (length (concat (map dump_row l)) < fuel)%nat as Hf'.
  { pose proof (length_dump_row (k, v)). rewrite length_app in Hf. lia. }
  unfold dump_row at 1. cbn [fst snd] in *. rewrite <- !app_assoc.
  rewrite read_field_app by done. cbn [mbind gores_bind].
  rewrite read_field_app by done. cbn [mbind gores_bind].
  by rewrite IH.
Qed.

(** * The loop inserts what it reads *)

Definition spec_insert (r : row) : spec unit := fun t =>
  match t !! r.1 with
  | Some _ => (t, Fail (Errorf "UNIQUE constraint failed: kv.key"))
  | None => (<[r.1 := r.2]> t, Ret tt)
  end.

Lemma steps_insert_row k v : TxSteps (insert_row k v) (spec_insert (k, v)).
Proof.
  intros t w Ht. unfold insert_row, dbcall, mbind, M_bind.
  destruct (tick_spec w) as (w' & r & -> & Hc & Hp & Hh & [-> | [Hf ->]]).
  - simpl. rewrite Hp, Ht. unfold spec_insert. cbn [default id fst snd].
    destruct (t !! k); eexists _, _; (split; [done|]); simpl; repeat split; auto; left; eauto.
    exists t. split; [congruence|done].
  - exists w', (Fail ErrIO). repeat split; auto.
Qed.

Definition spec_load (fuel : nat) (r : bytes) : spec unit :=
  spec_bind (spec_foreach (parse_rows fuel r).1 spec_insert) (fun _ => spec_ret (parse_rows fuel r).2).

(** One iteration of the loop, as a read of two fields. *)
Lemma load_loop_unfold fuel r :
  load_loop (S fuel) r =
  (if blen r =? 0 then mret tt
   else match ('(k, r2) ← read_field r; '(v, r4) ← read_field r2; Ret (k, v, r4)) with
        | Ret (k, v, r4) => _ ← insert_row k v; load_loop fuel r4
        | Fail e => liftG (Fail e)
        | Panic => liftG Panic
        end).
Proof.
  cbn [load_loop].
  destruct (Z.eqb_spec (blen r) 0) as [E|E].
  { apply ReadFull4_eof in E. by rewrite E. }
  assert (forall x, read_field x =
    match ReadFull 4 x with
    | RF_eof => Fail (Errorf "EOF")
    | RF_short => Fail (Errorf "unexpected EOF")
    | RF_ok lenBuf r1 =>
      match ReadFull (be_value lenBuf) r1 with
      | RF_eof => Fail (Errorf "EOF")
      | RF_short => Fail (Errorf "unexpected EOF")
      | RF_ok field r2 => Ret (field, r2)
      end
    end) as Hrf.
  { intros x. unfold read_field. destruct (ReadFull 4 x) as [b r1| |] eqn:E1; [|done..].
    apply ReadFull_full in E1 as [_ Hb]; [|lia]. by rewrite (getUint32_be _ Hb). }
  rewrite (Hrf r). destruct (ReadFull 4 r) as [b r1| |] eqn:E1; [|by apply ReadFull4_eof in E1|done].
  apply ReadFull_full in E1 as [_ Hb]; [|lia]. rewrite (getUint32_be _ Hb).
  change (liftG (Ret ?x) ≫= ?k) with (k x). cbn beta.
  destruct (ReadFull (be_value b) r1) as [k r2| |]; [|done..]. cbn [mbind gores_bind].
  rewrite (Hrf r2). destruct (ReadFull 4 r2) as [lb r3| |] eqn:E4; [|done..].
  apply ReadFull_full in E4 as [_ Hlb]; [|lia]. rewrite (getUint32_be _ Hlb).
  change (liftG (Ret ?x) ≫= ?k) with (k x). cbn beta.
  destruct (ReadFull (be_value lb) r3) as [v r4| |]; reflexivity.
Qed.

Lemma steps_load fuel r : TxSteps (load_loop fuel r) (spec_load fuel r).
Proof.
  revert r. induction fuel as [|fuel IH]; intros r.
  { apply (steps_ext _ (spec_ret Panic)); [done|]. apply steps_lift. }
  rewrite load_loop_unfold. unfold spec_load. cbn [parse_rows].
  destruct (blen r =? 0); [apply steps_lift|].
  destruct (read_field r ≫= _) as [[[k v] r4]|e|].
  - eapply (steps_ext _ (spec_bind (spec_insert (k, v)) (fun _ => spec_load fuel r4))).
    + intros t. unfold spec_load, spec_bind. destruct (parse_rows fuel r4) as [l res].
      cbn [spec_foreach fst snd]. unfold spec_bind.
      by destruct (spec_insert (k, v) t) as [t' [[]| |]].
    + apply steps_bind; [apply steps_insert_row | intros _; apply IH].
  - apply steps_lift.
  - apply steps_lift.
Qed.

Lemma steps_tick : TxSteps tick (spec_ret (Ret tt)).
Proof.
  intros t w Ht. destruct (tick_spec w) as (w' & res & -> & Hc & Hp & Hh & H).
  exists w', res. repeat split; auto.
  destruct H as [->|[? ->]]; [left|by right]. exists t. split; [congruence|done].
Qed.

(** [LoadAll] replaces the table by the rows of the stream, or changes nothing. *)
Definition spec_LoadAll (r : bytes) : spec unit :=
  spec_atomic (fun _ => spec_load (S (length r)) r ∅).

Lemma refines_LoadAll r : Refines (LoadAll r) (spec_LoadAll r).
Proof.
  unfold LoadAll, spec_LoadAll. apply refines_WithTx.
  apply (steps_ext _ (spec_bind (fun _ => (∅, Ret tt))
    (fun _ => spec_bind (spec_ret (Ret tt)) (fun _ => spec_load (S (length r)) r)))); [done|].
  apply steps_bind; [apply (steps_call (fun _ => (∅, Ret tt)))|intros _].
  apply steps_bind; [apply steps_tick|intros _; apply steps_load].
Qed.

Lemma foreach_insert_map l (t : table) :
  NoDup l.*1 -> (forall k, k ∈ l.*1 -> t !! k = None) ->
  spec_foreach l spec_insert t = (list_to_map l ∪ t, Ret tt).
Proof.
  revert t. induction l as [|[k v] l IH]; intros t Hnd Hfresh.
  - cbn. by rewrite (left_id_L ∅ (∪)).
  - cbn in Hnd. apply NoDup_cons in Hnd as [Hk Hnd].
    cbn [spec_foreach]. unfold spec_bind, spec_insert at 1. cbn [fst snd].
    rewrite Hfresh by (cbn; set_solver). rewrite IH; [|done|].
    + cbn. rewrite <- insert_union_r by (apply not_elem_of_list_to_map_1; exact Hk).
      by rewrite insert_union_l.
    + intros k' Hk'. rewrite lookup_insert_ne by (intros ->; done). apply Hfresh. cbn. set_solver.
Qed.

(** Inserting rows one by one fails on the first duplicate key, or loads all of them. *)
Lemma foreach_insert_dichotomy l :
  (exists t e, spec_foreach l spec_insert ∅ = (t, Fail e)) \/
  spec_foreach l spec_insert ∅ = (list_to_map l, Ret tt).
Proof.
  assert (forall t : table,
    (exists t' e, spec_foreach l spec_insert t = (t', Fail e)) \/
    (NoDup l.*1 /\ forall k, k ∈ l.*1 -> t !! k = None)) as Hgen.
  { induction l as [|[k v] l IH]; intros t; [right; cbn; split; [constructor|set_solver]|].
    cbn [spec_foreach]. unfold spec_bind, spec_insert at 1. cbn [fst snd].
    destruct (t !! k) eqn:Hk; [left; eauto|].
    destruct (IH (<[k:=v]> t)) as [?|[Hnd Hfr]]; [by left|right].
    cbn. split.
    - apply NoDup_cons. split; [|done]. intros Hin. specialize (Hfr k Hin).
      by rewrite lookup_insert_eq in Hfr.
    - intros k' [->|Hin]%elem_of_cons; [done|]. specialize (Hfr k' Hin).
      apply lookup_insert_None in Hfr. naive_solver. }
  destruct (Hgen ∅) as [?|[Hnd Hfr]]; [by left|right].
  rewrite foreach_insert_map by done. by rewrite (right_id_L ∅ (∪)).
Qed.

(** * Dumps *)

Lemma dump_rows_spec l w : exists w' r, dump_rows l w = (w', r) /\
  committed w' = committed w /\ pending w' = pending w /\
  (r = Ret (concat (map dump_row l)) \/ (~ healthy w /\ is_fail r = true)).
Proof.
  revert w. induction l as [|x l IH]; intros w; cbn [dump_rows map concat].
  { exists w, (Ret []). auto. }
  unfold mbind, M_bind.
  destruct (tick_spec w) as (w1 & r1 & -> & Hc & Hp & Hh & [->|[Hn ->]]); [|eauto 10].
  destruct (IH w1) as (w2 & r2 & -> & Hc2 & Hp2 & [->|[Hn Hf]]).
  - eexists _, _. repeat split; [congruence..|by left].
  - destruct r2; simpl in Hf; try done. eexists _, _. repeat split; [congruence..|right]. tauto.
Qed.

Lemma DumpAll_spec enumerate w : exists w' r, DumpAll enumerate w = (w', r) /\
  committed w' = committed w /\ pending w' = pending w /\
  (r = Ret (concat (map dump_row (enumerate (committed w)))) \/ (~ healthy w /\ is_fail r = true)).
Proof.
  unfold DumpAll, mbind, M_bind.
  destruct (tick_spec w) as (w1 & r1 & -> & Hc & Hp & Hh & [->|[Hn ->]]); [|eauto 10].
  destruct (dump_rows_spec (enumerate (committed w)) w1) as (w2 & r2 & -> & Hc2 & Hp2 & H).
  exists w2, r2. repeat split; [congruence..|]. destruct H as [?|[? ?]]; [by left|right; tauto].
Qed.

(** * Theorems *)

Section Roundtrip.
(** The order in which the driver enumerates the rows of an unordered
    [SELECT]: every row exactly once. *)
Context (enumerate : table -> list row).
Context (enumerate_perm : forall t : table, enumerate t ≡ₚ map_to_list t).

Lemma snapshot_restores (src dst : world) (dump : bytes) :
  map_Forall (fun k v => fits32 (k, v)) (committed src) ->
  (Persist enumerate src).2 = Ret dump ->
  pending dst = None -> healthy dst ->
  (Restore dump dst).2 = Ret tt /\ committed (Restore dump dst).1 = committed src.
Proof using enumerate_perm.
  intros Hfit Hdump Hdst Hh.
  destruct (DumpAll_spec enumerate src) as (w' & r & HD & _ & _ & H).
  unfold Persist in Hdump. rewrite HD in Hdump. cbn in Hdump. subst r.
  destruct H as [[= ->]|[_ ?]]; [|done].
  destruct (refines_healthy _ _ dst (refines_LoadAll (concat (map dump_row (enumerate (committed src))))) Hdst Hh)
    as [Hc Hr].
  set (l := enumerate (committed src)) in *.
  assert (parse_rows (S (length (concat (map dump_row l)))) (concat (map dump_row l)) = (l, Ret tt)) as Hparse.
  { apply parse_dump; [|lia]. apply Forall_forall. intros [k v] Hkv. subst l.
    rewrite enumerate_perm in Hkv. apply elem_of_map_to_list in Hkv. by apply Hfit in Hkv. }
  assert (spec_LoadAll (concat (map dump_row l)) (committed dst) = (committed src, Ret tt)) as Hspec.
  { unfold spec_LoadAll, spec_atomic, spec_load, spec_bind. rewrite Hparse. cbn [fst snd].
    rewrite foreach_insert_map.
    - unfold spec_ret. rewrite (right_id_L ∅ (∪)).
      rewrite (list_to_map_proper l (map_to_list (committed src))); [|..].
      + by rewrite list_to_map_to_list.
      + subst l. rewrite enumerate_perm. apply NoDup_fst_map_to_list.
      + apply enumerate_perm.
    - subst l. rewrite enumerate_perm. apply NoDup_fst_map_to_list.
    - intros k _. apply lookup_empty. }
  unfold Restore. rewrite Hc, Hr, Hspec. done.
Qed.

(** C37 A snapshot restores the table it was taken from.  Whatever order the
    driver enumerates the rows in, if the dump succeeds on a store whose keys
    and values are shorter than 2^32 bytes, then restoring the dumped bytes
    into any other store, on a fault-free run, succeeds and leaves exactly
    the dumped table. *)
Theorem snapshot_roundtrip (src dst : world) (dump : bytes) :
  map_Forall (fun k v => fits32 (k, v)) (committed src) ->
  (Persist enumerate src).2 = Ret dump ->
  pending dst = None -> healthy dst ->
  (Restore dump dst).2 = Ret tt /\ committed (Restore dump dst).1 = committed src.
Proof using enumerate_perm. apply snapshot_restores. Qed.
End Roundtrip.

(** C38 Restoring any byte stream, under any schedule of database faults,
    terminates without panicking, closes its transaction, and either replaces
    the table completely (success) or leaves it exactly as it was (error). *)
Theorem restore_atomic (rc : bytes) (w : world) :
  pending w = None ->
  pending (Restore rc w).1 = None /\
  (((Restore rc w).2 = Ret tt /\ committed (Restore rc w).1 = list_to_map (parse_rows (S (length rc)) rc).1) \/
   (is_fail (Restore rc w).2 = true /\ committed (Restore rc w).1 = committed w)).
Proof.
  intros Hw. unfold Restore.
  destruct (refines_LoadAll rc _ w Hw eq_refl) as (w' & r & -> & Hp & _ & H). cbn [fst snd]. split; [done|].
  destruct H as [H|(_ & Hf & Hc)]; [|by right].
  unfold spec_LoadAll, spec_atomic, spec_load, spec_bind, spec_ret in H.
  pose proof (parse_rows_total (S (length rc)) rc ltac:(lia)) as Hnp.
  destruct (parse_rows (S (length rc)) rc) as [l res]. cbn [fst snd] in *.
  destruct (foreach_insert_dichotomy l) as [(t & e & Hl)|Hl].
  - rewrite Hl in H. injection H as -> ->. by right.
  - rewrite Hl in H. destruct res as [[]|e|]; [left|right|done]; injection H as -> ->; done.
Qed.
