(* ===== verification/Payloads.v ===== *)
(** The values of the system records (src/pkg/shmevent/catalog.go, system.go,
    execinvite.go, joininvite.go, commandrequest.go, channelframe.go).

    Every codec is hand-framed with two-byte lengths.  The theorems: each
    decoder inverts its encoder on the inputs the encoder accepts, no byte
    string makes a decoder index out of range, the two layouts of a command
    record cannot be confused, and a channel frame that was signed verifies. *)

From S2P Require Import Prelude SystemKeys.
#[local] Open Scope Z_scope.

(** * Stations *)

Definition EncodeStationPayload (name attrs : bytes) : gores bytes :=
  if 0xFFFF <? blen name then Fail (Errorf "shmevent: station name too long: %d bytes")
  else Ret (put16 (blen name) ++ name ++ attrs).

Definition DecodeStationPayload (payload : bytes) : gores (bytes * bytes) :=
  if blen payload <? 2 then Fail (Errorf "shmevent: station payload too short: %d bytes") else
  nameLen ← read16 payload 0;
  if blen payload <? 2 + nameLen
  then Fail (Errorf "shmevent: station name length %d exceeds payload size %d") else
  name ← slice payload 2 (2 + nameLen);
  attrs ← slice_from payload (2 + nameLen);
  Ret (name, attrs).

(** * Groups *)

Definition groupPrivateByte : byte := Byte.x00.
Definition groupPublicByte : byte := Byte.x01.

Definition EncodeGroupPayload (name : bytes) (public : bool) : bytes :=
  (if public then groupPublicByte else groupPrivateByte) :: name.

Definition DecodeGroupPayload (payload : bytes) : gores (bytes * bool) :=
  if blen payload <? 1 then Fail (Errorf "shmevent: group payload must be at least 1 byte, got %d") else
  name ← slice_from payload 1;
  flag ← idx payload 0;
  Ret (name, byte_eqb flag groupPublicByte).

(** * Commands *)

Definition commandPayloadV2Sentinel : Z := 0xFFFF.

Definition checkCommandNameLen (name : bytes) : gores unit :=
  if commandPayloadV2Sentinel <=? blen name
  then Fail (Errorf "shmevent: command name too long: %d bytes (max %d)") else Ret tt.

Definition EncodeCommandPayload (name peerID : bytes) : gores bytes :=
  _ ← checkCommandNameLen name;
  Ret (put16 (blen name) ++ name ++ peerID).

(** v2: [0xFF 0xFF][name len][name][peerID len][peerID][spec] *)
Definition EncodeCommandPayloadWithSpec (name peerID spec : bytes) : gores bytes :=
  if blen spec =? 0 then EncodeCommandPayload name peerID else
  _ ← checkCommandNameLen name;
  if 0xFFFF <? blen peerID then Fail (Errorf "shmevent: command peer id too long: %d bytes") else
  Ret (put16 commandPayloadV2Sentinel ++ put16 (blen name) ++ name ++ put16 (blen peerID) ++ peerID ++ spec).

Definition DecodeCommandPayloadFull (payload : bytes) : gores (bytes * bytes * bytes) :=
  if blen payload <? 2 then Fail (Errorf "shmevent: command payload too short: %d bytes") else
  head ← read16 payload 0;
  if negb (head =? commandPayloadV2Sentinel) then
    let nameLen := head in
    if blen payload <? 2 + nameLen
    then Fail (Errorf "shmevent: command name length %d exceeds payload size %d") else
    name ← slice payload 2 (2 + nameLen);
    peerID ← slice_from payload (2 + nameLen);
    Ret (name, peerID, [])
  else
    if blen payload <? 4 then Fail (Errorf "shmevent: command payload truncated reading name length") else
    nameLen ← read16 payload 2;
    if blen payload <? 4 + nameLen + 2
    then Fail (Errorf "shmevent: command name length %d exceeds payload size %d") else
    name ← slice payload 4 (4 + nameLen);
    peerLen ← read16 payload (4 + nameLen);
    let off := 4 + nameLen + 2 in
    if blen payload <? off + peerLen
    then Fail (Errorf "shmevent: command peer id length %d exceeds payload size %d") else
    peerID ← slice payload off (off + peerLen);
    spec ← slice_from payload (off + peerLen);
    Ret (name, peerID, spec).

Definition DecodeCommandPayload (payload : bytes) : gores (bytes * bytes) :=
  '(name, peerID, _) ← DecodeCommandPayloadFull payload; Ret (name, peerID).

Definition EncodeCommandPayloadClearingSpec (name peerID : bytes) : gores bytes :=
  payload ← EncodeCommandPayloadWithSpec name peerID [Byte.x00];
  slice payload 0 (blen payload - 1).

Definition CommandPutPayloadHasSpec (payload : bytes) : gores bool :=
  if blen payload <? 2 then Ret false else
  head ← read16 payload 0; Ret (head =? commandPayloadV2Sentinel).

(** [None]: the payload has no spec field. *)
Definition DecodeCommandPayloadSpec (payload : bytes) : gores (option bytes) :=
  if blen payload <? 2 then Fail (Errorf "shmevent: command payload too short: %d bytes") else
  head ← read16 payload 0;
  if negb (head =? commandPayloadV2Sentinel) then Ret None else
  '(_, _, spec) ← DecodeCommandPayloadFull payload;
  Ret (Some spec).

(** * Invites *)

Definition JoinInviteTokenSize : Z := 16.
Definition ExecInviteTokenSize : Z := 16.

Definition EncodeJoinInviteRecord (suffrage : byte) : bytes := [suffrage].

Definition DecodeJoinInviteRecord (payload : bytes) : gores byte :=
  if negb (blen payload =? 1) then Fail (Errorf "shmevent: join invite record must be 1 byte, got %d") else
  idx payload 0.

Definition execInviteRecordV2Marker : Z := 0xFFFF.

Definition EncodeExecInviteRecord (commandID inputsJSON : bytes) (expiresAtUnix : Z) : bytes :=
  if expiresAtUnix =? 0 then put16 (blen commandID) ++ commandID ++ inputsJSON
  else put16 execInviteRecordV2Marker ++ be_bytes 8 expiresAtUnix ++ put16 (blen commandID)
         ++ commandID ++ inputsJSON.

Definition DecodeExecInviteRecord (payload : bytes) : gores (bytes * bytes * Z) :=
  if blen payload <? 2 then Fail (Errorf "shmevent: exec invite record too short: %d bytes") else
  cmdLen ← read16 payload 0;
  if cmdLen =? execInviteRecordV2Marker then
    if blen payload <? 12
    then Fail (Errorf "shmevent: exec invite record too short for v2 header: %d bytes") else
    expiresAtUnix ← read_be payload 2 10;
    realCmdLen ← read16 payload 10;
    if blen payload <? 12 + realCmdLen
    then Fail (Errorf "shmevent: exec invite record commandID length %d exceeds payload size %d") else
    commandID ← slice payload 12 (12 + realCmdLen);
    inputsJSON ← slice_from payload (12 + realCmdLen);
    Ret (commandID, inputsJSON, expiresAtUnix)
  else
    if blen payload <? 2 + cmdLen
    then Fail (Errorf "shmevent: exec invite record commandID length %d exceeds payload size %d") else
    commandID ← slice payload 2 (2 + cmdLen);
    inputsJSON ← slice_from payload (2 + cmdLen);
    Ret (commandID, inputsJSON, 0).

(** * Cluster members *)

Definition PublicKeySize : Z := 32.

Definition EncodeClusterMemberPayload (pub : bytes) (role : byte) : bytes := pub ++ [role].

Definition DecodeClusterMemberPayload (payload : bytes) : gores (bytes * byte) :=
  if negb (blen payload =? PublicKeySize + 1)
  then Fail (Errorf "shmevent: cluster member payload must be %d bytes, got %d") else
  pub ← slice payload 0 PublicKeySize;
  role ← idx payload PublicKeySize;
  Ret (pub, role).

(** * Command requests *)

Definition CommandRequestLogKindPrefix : bytes := bs "cmdreq:".
Definition CommandExecIndexKindPrefix : bytes := bs "cmdexec:".
Definition CommandExecLogKind : bytes := bs "cmdlog".

(** [strings.HasPrefix] with [strings.TrimPrefix] *)
Fixpoint cut_prefix (prefix s : bytes) : option bytes :=
  match prefix, s with
  | [], _ => Some s
  | x :: prefix', y :: s' => if byte_eqb x y then cut_prefix prefix' s' else None
  | _ :: _, [] => None
  end.

(** Multiaddresses start with a slash, and peer ids do not. *)
Definition IsMultiaddr (s : bytes) : bool := bool_decide (is_Some (cut_prefix (bs "/") s)).

Definition CommandRequestLogKind (commandID : bytes) : bytes := CommandRequestLogKindPrefix ++ commandID.
Definition ParseCommandRequestLogKind (kind : bytes) : option bytes :=
  cut_prefix CommandRequestLogKindPrefix kind.

Definition CommandExecIndexKind (peerID : bytes) : bytes := CommandExecIndexKindPrefix ++ peerID.
Definition ParseCommandExecIndexKind (kind : bytes) : option bytes :=
  cut_prefix CommandExecIndexKindPrefix kind.

Definition EncodeCommandRequestApplyPayload (authorPeerID recordValue : bytes) : gores bytes :=
  if 0xFFFF <? blen authorPeerID
  then Fail (Errorf "shmevent: command request author peer id too long: %d bytes")
  else Ret (put16 (blen authorPeerID) ++ authorPeerID ++ recordValue).

Definition DecodeCommandRequestApplyPayload (payload : bytes) : gores (bytes * bytes) :=
  if blen payload <? 2 then Fail (Errorf "shmevent: command request apply payload too short: %d bytes") else
  idLen ← read16 payload 0;
  if blen payload <? 2 + idLen
  then Fail (Errorf "shmevent: command request author peer id length %d exceeds payload size %d") else
  authorPeerID ← slice payload 2 (2 + idLen);
  recordValue ← slice_from payload (2 + idLen);
  Ret (authorPeerID, recordValue).

(** * Channel frames *)

(** [crc32.ChecksumIEEE]: the reflected polynomial 0xEDB88320, bit by bit. *)
Fixpoint crc_bits (n : nat) (c : Z) : Z :=
  match n with
  | O => c
  | S n' =>
    crc_bits n' (if Z.testbit c 0 then Z.lxor (Z.shiftr c 1) 0xEDB88320 else Z.shiftr c 1)
  end.

Definition crc_byte (c : Z) (b : byte) : Z := crc_bits 8 (Z.lxor c (byte_to_Z b)).

Definition crc32_ieee (data : bytes) : Z := Z.lxor (fold_left crc_byte data 0xFFFFFFFF) 0xFFFFFFFF.

Definition SignatureSize : Z := 64.
Definition PrivateKeySize : Z := 64.
Definition channelFrameHeaderSize : Z := 1 + 4 + SignatureSize.

Definition channelFrameSignedPayload (purpose : byte) (chunk : bytes) (crc : Z) : bytes :=
  [purpose] ++ chunk ++ be_bytes 4 crc.

Definition channelFrameCRC (purpose : byte) (chunk : bytes) : Z := crc32_ieee ([purpose] ++ chunk).

(** [copy(buf[5:69], sig)] writes at most 64 bytes of a zeroed buffer. *)
Definition copy_sig (sig : bytes) : bytes := take 64 (sig ++ replicate 64 Byte.x00).

Definition EncodeChannelFrame (purpose : byte) (crc : Z) (sig chunk : bytes) : bytes :=
  [purpose] ++ be_bytes 4 crc ++ copy_sig sig ++ chunk.

Definition DecodeChannelFrame (buf : bytes) : gores (byte * Z * bytes * bytes) :=
  if blen buf <? channelFrameHeaderSize
  then Fail (Errorf "shmevent: channel frame too short: %d bytes (need at least %d)") else
  purpose ← idx buf 0;
  crc ← read_be buf 1 5;
  sig ← slice buf 5 channelFrameHeaderSize;
  chunk ← slice_from buf channelFrameHeaderSize;
  Ret (purpose, crc, sig, chunk).

Section Signing.
(** [ed25519.Sign] and [ed25519.Verify]. *)
Context (ed25519_sign : bytes -> bytes -> bytes).
Context (ed25519_verify : bytes -> bytes -> bytes -> bool).

Definition SignChannelChunk (priv : bytes) (purpose : byte) (chunk : bytes) : gores (Z * bytes) :=
  if negb (blen priv =? PrivateKeySize)
  then Fail (Errorf "shmevent: private key must be %d bytes, got %d") else
  let crc := channelFrameCRC purpose chunk in
  Ret (crc, ed25519_sign priv (channelFrameSignedPayload purpose chunk crc)).

Definition VerifyChannelChunk (pub : bytes) (purpose : byte) (chunk : bytes) (crc : Z) (sig : bytes) : gores unit :=
  if negb (blen pub =? PublicKeySize)
  then Fail (Errorf "shmevent: public key must be %d bytes, got %d") else
  if negb (blen sig =? SignatureSize)
  then Fail (Errorf "shmevent: signature must be %d bytes, got %d") else
  if negb (channelFrameCRC purpose chunk =? crc)
  then Fail (Errorf "shmevent: channel frame crc mismatch") else
  if negb (ed25519_verify pub (channelFrameSignedPayload purpose chunk crc) sig)
  then Fail (Errorf "shmevent: channel frame signature verification failed") else
  Ret tt.
End Signing.

(** * Lemmas *)

Lemma cut_prefix_app p s : cut_prefix p (p ++ s) = Some s.
Proof. induction p as [|x p IH]; [done|]. cbn [cut_prefix app]. by rewrite byte_eqb_refl. Qed.

Lemma cut_prefix_Some p s r : cut_prefix p s = Some r <-> s = p ++ r.
Proof.
  split; [|intros ->; apply cut_prefix_app]. revert s. induction p as [|x p IH]; intros s; cbn [cut_prefix].
  - by intros [= ->].
  - destruct s as [|y s]; [done|]. destruct (byte_eqb x y) eqn:E; [|done].
    apply byte_eqb_true in E as <-. intros H. cbn. by rewrite <- (IH s).
Qed.

Lemma checkCommandNameLen_ok name : blen name < 0xFFFF -> checkCommandNameLen name = Ret tt.
Proof. intros H. unfold checkCommandNameLen, commandPayloadV2Sentinel. codec. done. Qed.

Lemma EncodeCommandPayload_Ret name peerID payload :
  EncodeCommandPayload name peerID = Ret payload <->
  blen name < 0xFFFF /\ payload = put16 (blen name) ++ name ++ peerID.
Proof.
  unfold EncodeCommandPayload, checkCommandNameLen, commandPayloadV2Sentinel.
  destruct (Z.leb_spec 0xFFFF (blen name)); cbn; split; try done; try lia.
  - by intros [= <-].
  - by intros [_ ->].
Qed.

Lemma EncodeCommandPayloadWithSpec_Ret name peerID spec payload :
  spec <> [] ->
  EncodeCommandPayloadWithSpec name peerID spec = Ret payload <->
  blen name < 0xFFFF /\ blen peerID <= 0xFFFF /\
  payload = put16 commandPayloadV2Sentinel ++ put16 (blen name) ++ name ++ put16 (blen peerID) ++ peerID ++ spec.
Proof.
  intros Hspec. unfold EncodeCommandPayloadWithSpec.
  destruct (Z.eqb_spec (blen spec) 0) as [E|_].
  { destruct spec; [done|]. exfalso. revert E. lens. }
  unfold checkCommandNameLen, commandPayloadV2Sentinel.
  destruct (Z.leb_spec 0xFFFF (blen name)); cbn; [split; [done|lia]|].
  destruct (Z.ltb_spec 0xFFFF (blen peerID)); split; try done; try lia.
  - by intros [= <-].
  - by intros (_ & _ & ->).
Qed.

Lemma DecodeCommandPayloadFull_v1 name peerID :
  blen name < 0xFFFF ->
  DecodeCommandPayloadFull (put16 (blen name) ++ name ++ peerID) = Ret (name, peerID, []) /\
  DecodeCommandPayloadSpec (put16 (blen name) ++ name ++ peerID) = Ret None.
Proof.
  intros Hn. unfold DecodeCommandPayloadFull, DecodeCommandPayloadSpec, commandPayloadV2Sentinel.
  split; by codec.
Qed.

Lemma DecodeCommandPayloadFull_v2 name peerID spec payload :
  blen name < 0xFFFF -> blen peerID <= 0xFFFF ->
  payload = put16 commandPayloadV2Sentinel ++ put16 (blen name) ++ name ++ put16 (blen peerID) ++ peerID ++ spec ->
  DecodeCommandPayloadFull payload = Ret (name, peerID, spec) /\
  DecodeCommandPayloadSpec payload = Ret (Some spec).
Proof.
  intros Hn Hp ->. unfold commandPayloadV2Sentinel.
  assert (DecodeCommandPayloadFull (put16 0xFFFF ++ put16 (blen name) ++ name ++ put16 (blen peerID) ++ peerID ++ spec)
          = Ret (name, peerID, spec)) as Hfull.
  { unfold DecodeCommandPayloadFull, commandPayloadV2Sentinel. by codec. }
  split; [done|]. unfold DecodeCommandPayloadSpec. rewrite Hfull. unfold commandPayloadV2Sentinel. by codec.
Qed.

Lemma DecodeCommandPayloadFull_safe payload : no_panic (DecodeCommandPayloadFull payload).
Proof. unfold DecodeCommandPayloadFull. safe. Qed.

Lemma DecodeCommandPayloadSpec_safe payload : no_panic (DecodeCommandPayloadSpec payload).
Proof.
  unfold DecodeCommandPayloadSpec. safe. apply no_panic_bind; [apply DecodeCommandPayloadFull_safe|].
  by intros [[? ?] ?] _.
Qed.

Lemma DecodeCommandPayload_safe payload : no_panic (DecodeCommandPayload payload).
Proof.
  apply no_panic_bind; [apply DecodeCommandPayloadFull_safe|]. by intros [[? ?] ?] _.
Qed.

Lemma DecodeGroupPayload_cons b name :
  DecodeGroupPayload (b :: name) = Ret (name, byte_eqb b groupPublicByte).
Proof.
  unfold DecodeGroupPayload. codec.
  change (b :: name) with ([b] ++ name). by rewrite slice_from_end.
Qed.

Lemma DecodeGroupPayload_safe payload : no_panic (DecodeGroupPayload payload).
Proof. destruct payload as [|b name]; [done|]. by rewrite DecodeGroupPayload_cons. Qed.

Lemma DecodeExecInviteRecord_safe payload : no_panic (DecodeExecInviteRecord payload).
Proof. unfold DecodeExecInviteRecord. safe. Qed.

Lemma DecodeCommandRequestApplyPayload_safe payload : no_panic (DecodeCommandRequestApplyPayload payload).
Proof. unfold DecodeCommandRequestApplyPayload. safe. Qed.

(** Checksums fit in 32 bits. *)
Lemma bits32 z : 0 <= z -> (forall i, 32 <= i -> Z.testbit z i = false) -> 0 <= z < 2 ^ 32.
Proof.
  intros Hz Hb. split; [done|]. destruct (Z.lt_ge_cases z (2 ^ 32)) as [|Hge]; [done|].
  assert (32 <= Z.log2 z) by (apply Z.log2_le_pow2; lia).
  specialize (Hb (Z.log2 z) ltac:(done)). rewrite Z.bit_log2 in Hb by lia. done.
Qed.

Lemma lxor32 a b : 0 <= a < 2 ^ 32 -> 0 <= b < 2 ^ 32 -> 0 <= Z.lxor a b < 2 ^ 32.
Proof.
  intros Ha Hb. apply bits32; [apply Z.lxor_nonneg; lia|]. intros i Hi. rewrite Z.lxor_spec.
  assert (forall z, 0 <= z < 2 ^ 32 -> Z.testbit z i = false) as Hz.
  { intros z Hz. destruct (Z.eq_dec z 0) as [->|]; [apply Z.bits_0|].
    apply Z.bits_above_log2; [lia|]. assert (Z.log2 z < 32) by (apply Z.log2_lt_pow2; lia). lia. }
  by rewrite !Hz.
Qed.

Lemma crc_bits_range n c : 0 <= c < 2 ^ 32 -> 0 <= crc_bits n c < 2 ^ 32.
Proof.
  revert c. induction n as [|n IH]; intros c Hc; [done|]. cbn [crc_bits]. apply IH.
  assert (0 <= Z.shiftr c 1 < 2 ^ 32).
  { rewrite Z.shiftr_div_pow2 by lia. split; [apply Z.div_pos; lia|].
    apply Z.div_lt_upper_bound; lia. }
  destruct (Z.testbit c 0); [|done]. apply lxor32; [done|lia].
Qed.

Lemma crc32_range data : 0 <= crc32_ieee data < 2 ^ 32.
Proof.
  unfold crc32_ieee. apply lxor32; [|lia].
  assert (0 <= 0xFFFFFFFF < 2 ^ 32) as H by lia. revert H. generalize 0xFFFFFFFF.
  induction data as [|b data IH]; intros c Hc; [done|]. cbn [fold_left]. apply IH, crc_bits_range, lxor32; [done|].
  pose proof (byte_to_Z_range b). lia.
Qed.

(** * Theorems *)

(** Command records round-trip in both layouts: what the encoder with a spec
    writes decodes to the same name, target and spec; a record without a spec
    decodes as having no spec field, one with a spec as having exactly it, and
    the clearing encoder as having an empty one -- so the two layouts are never
    confused. *)
Theorem command_payload_roundtrip (name peerID spec payload : bytes) :
  (EncodeCommandPayloadWithSpec name peerID spec = Ret payload ->
   DecodeCommandPayloadFull payload = Ret (name, peerID, spec) /\
   DecodeCommandPayloadSpec payload = Ret (if bool_decide (spec = []) then None else Some spec)) /\
  (EncodeCommandPayloadClearingSpec name peerID = Ret payload ->
   DecodeCommandPayloadFull payload = Ret (name, peerID, []) /\
   DecodeCommandPayloadSpec payload = Ret (Some [])).
Proof.
  split.
  - destruct (bool_decide_reflect (spec = [])) as [->|Hs].
    + intros [Hn ->]%EncodeCommandPayload_Ret. by apply DecodeCommandPayloadFull_v1.
    + intros (Hn & Hp & E)%EncodeCommandPayloadWithSpec_Ret; [|done].
      by apply (DecodeCommandPayloadFull_v2 _ _ _ _ Hn Hp E).
  - unfold EncodeCommandPayloadClearingSpec. intros H.
    destruct (EncodeCommandPayloadWithSpec _ _ _) as [p| |] eqn:E; [|done..].
    apply EncodeCommandPayloadWithSpec_Ret in E as (Hn & Hp & ->); [|done]. cbn [mbind gores_bind] in H.
    apply (DecodeCommandPayloadFull_v2 name peerID [] payload Hn Hp). rewrite app_nil_r.
    rewrite !(app_assoc _ _ [Byte.x00]), <- (app_nil_r [Byte.x00]) in H.
    rewrite slice_hd in H by lens. by injection H as <-.
Qed.

(** An execution-invite record round-trips for every command id shorter than
    65535 bytes and every 64-bit expiry, with and without a time limit. *)
Theorem exec_invite_record_roundtrip (commandID inputsJSON : bytes) (expiresAtUnix : Z) :
  blen commandID < 0xFFFF -> 0 <= expiresAtUnix < 2 ^ 64 ->
  DecodeExecInviteRecord (EncodeExecInviteRecord commandID inputsJSON expiresAtUnix)
  = Ret (commandID, inputsJSON, expiresAtUnix).
Proof.
  intros Hc He. unfold EncodeExecInviteRecord, DecodeExecInviteRecord, execInviteRecordV2Marker.
  destruct (Z.eqb_spec expiresAtUnix 0) as [->|]; by codec.
Qed.

(** The bound on the command id is sharp: an invite for a 65535-byte command
    id without expiry is read back as a different record. *)
Theorem exec_invite_record_collision :
  exists commandID, blen commandID = 0xFFFF /\
  DecodeExecInviteRecord (EncodeExecInviteRecord commandID [] 0) <> Ret (commandID, [], 0).
Proof.
  exists (replicate (Z.to_nat 0xFFFF) Byte.x00). split; [vm_compute; reflexivity|].
  intros H. apply (f_equal (fun r => match r with Ret (c, _, _) => blen c | _ => 0 end)) in H.
  revert H. vm_compute. discriminate.
Qed.

(** The remaining record codecs -- stations, groups, cluster members, join
    invites and command requests -- decode what they encode. *)
Theorem record_codecs_roundtrip (name attrs pub author value : bytes) (public : bool) (role suffrage : byte) :
  blen name <= 0xFFFF -> blen author <= 0xFFFF -> blen pub = PublicKeySize ->
  (EncodeStationPayload name attrs ≫= DecodeStationPayload) = Ret (name, attrs) /\
  DecodeGroupPayload (EncodeGroupPayload name public) = Ret (name, public) /\
  DecodeClusterMemberPayload (EncodeClusterMemberPayload pub role) = Ret (pub, role) /\
  DecodeJoinInviteRecord (EncodeJoinInviteRecord suffrage) = Ret suffrage /\
  (EncodeCommandRequestApplyPayload author value ≫= DecodeCommandRequestApplyPayload) = Ret (author, value).
Proof.
  unfold PublicKeySize. intros Hn Ha Hp. split_and!.
  - unfold EncodeStationPayload. codec. unfold DecodeStationPayload. by codec.
  - unfold EncodeGroupPayload. rewrite DecodeGroupPayload_cons. by destruct public.
  - unfold DecodeClusterMemberPayload, EncodeClusterMemberPayload, PublicKeySize. by codec.
  - unfold DecodeJoinInviteRecord, EncodeJoinInviteRecord. by codec.
  - unfold EncodeCommandRequestApplyPayload. codec. unfold DecodeCommandRequestApplyPayload. by codec.
Qed.

(** No byte string, however malformed, makes a record decoder panic. *)
Theorem decoders_total (payload : bytes) :
  no_panic (DecodeStationPayload payload) /\ no_panic (DecodeGroupPayload payload) /\
  no_panic (DecodeCommandPayloadFull payload) /\ no_panic (DecodeCommandPayloadSpec payload) /\
  no_panic (DecodeJoinInviteRecord payload) /\ no_panic (DecodeExecInviteRecord payload) /\
  no_panic (DecodeClusterMemberPayload payload) /\ no_panic (DecodeCommandRequestApplyPayload payload) /\
  no_panic (DecodeChannelFrame payload).
Proof.
  split_and!; auto using DecodeGroupPayload_safe, DecodeCommandPayloadFull_safe, DecodeCommandPayloadSpec_safe,
    DecodeExecInviteRecord_safe, DecodeCommandRequestApplyPayload_safe.
  - unfold DecodeStationPayload. safe.
  - unfold DecodeJoinInviteRecord. destruct (Z.eqb_spec (blen payload) 1) as [E|]; [|done]. cbn [negb].
    destruct (idx_ok payload 0) as [x ->]; [lia|done].
  - unfold DecodeClusterMemberPayload, PublicKeySize. destruct (Z.eqb_spec (blen payload) (32 + 1)); cbn [negb]; safe.
  - unfold DecodeChannelFrame, channelFrameHeaderSize, SignatureSize. safe.
Qed.

Lemma DecodeChannelFrame_Encode purpose crc sig chunk :
  blen sig = SignatureSize -> 0 <= crc < 2 ^ 32 ->
  DecodeChannelFrame (EncodeChannelFrame purpose crc sig chunk) = Ret (purpose, crc, sig, chunk).
Proof.
  intros Hs Hcrc. unfold DecodeChannelFrame, EncodeChannelFrame, copy_sig, channelFrameHeaderSize, SignatureSize in *.
  rewrite take_app_length' by (unfold blen in Hs; lia). by codec.
Qed.

Section SigningTheorems.
(** The documented contract of [crypto/ed25519]: a signature is 64 bytes and
    verifies under the public half of the key that made it. *)
Context (ed25519_sign : bytes -> bytes -> bytes).
Context (ed25519_verify : bytes -> bytes -> bytes -> bool).
Context (public_half : bytes -> bytes).
Context (sign_size : forall priv m, blen (ed25519_sign priv m) = 64).
Context (sign_verifies : forall priv m, ed25519_verify (public_half priv) m (ed25519_sign priv m) = true).

(** A chunk that is signed, framed, sent and unframed verifies under the
    sender's public key and is delivered unchanged, purpose byte included. *)
Theorem channel_frame_roundtrip (priv chunk sig : bytes) (purpose : byte) (crc : Z) :
  blen (public_half priv) = PublicKeySize ->
  SignChannelChunk ed25519_sign priv purpose chunk = Ret (crc, sig) ->
  DecodeChannelFrame (EncodeChannelFrame purpose crc sig chunk) = Ret (purpose, crc, sig, chunk) /\
  VerifyChannelChunk ed25519_verify (public_half priv) purpose chunk crc sig = Ret tt.
Proof using sign_size sign_verifies.
  intros Hpub H. unfold SignChannelChunk in H. destruct (negb _); [done|]. injection H as <- <-.
  split.
  - apply DecodeChannelFrame_Encode; [apply sign_size|]. apply (crc32_range ([purpose] ++ chunk)).
  - unfold VerifyChannelChunk. rewrite Hpub, sign_size, sign_verifies.
    by rewrite !Z.eqb_refl.
Qed.
End SigningTheorems.
