(* ===== verification/LogRecord.v ===== *)
(** Log-record keys (src/pkg/logrecord/key.go).

    A timestamp is its [UnixNano] value, a signed 64-bit integer.  The theorems:
    keys parse back, keys of one kind and unit sort chronologically, the range
    [ScanBounds] builds selects exactly the records of that kind and unit in
    the window, and [KindPrefix] exactly those of the kind. *)

From S2P Require Import Prelude Store SystemKeys.
#[local] Open Scope Z_scope.

Definition LogKeyPrefix : byte := Byte.x01.
Definition maxFieldLen : Z := 0xFFFF.
Definition RandSize : nat := 8.

(** [int64(u)] for a 64-bit [u] *)
Definition s64 (u : Z) : Z := if u <? 2 ^ 63 then u else u - 2 ^ 64.

(** [binary.BigEndian.PutUint64(buf, uint64(ts.UnixNano()))] *)
Definition putTs (tsNano : Z) : bytes := be_bytes 8 (u64 tsNano).

Definition BuildKey (kind unitID : bytes) (tsNano : Z) (rnd : bytes) : gores bytes :=
  if maxFieldLen <? blen kind then Fail (Errorf "logrecord: kind too long: %d bytes") else
  if maxFieldLen <? blen unitID then Fail (Errorf "logrecord: unitID too long: %d bytes") else
  Ret ([LogKeyPrefix] ++ put16 (blen kind) ++ kind ++ put16 (blen unitID) ++ unitID ++ putTs tsNano ++ rnd).

Definition ParseKey (key : bytes) : gores (bytes * bytes * Z) :=
  let missing := Fail (Errorf "logrecord: key missing LogKeyPrefix") in
  if blen key <? 1 then missing else
  k0 ← idx key 0;
  if negb (byte_eqb k0 LogKeyPrefix) then missing else
  if blen key <? 1 + 2 then Fail (Errorf "logrecord: key truncated before kind length") else
  kindLen ← read16 key 1;
  if blen key <? 3 + kindLen then Fail (Errorf "logrecord: key truncated in kind") else
  kind ← slice key 3 (3 + kindLen);
  let off := 3 + kindLen in
  if blen key <? off + 2 then Fail (Errorf "logrecord: key truncated before unitID length") else
  unitIDLen ← read16 key off;
  let off := off + 2 in
  if blen key <? off + unitIDLen then Fail (Errorf "logrecord: key truncated in unitID") else
  unitID ← slice key off (off + unitIDLen);
  let off := off + unitIDLen in
  if blen key <? off + 8 then Fail (Errorf "logrecord: key truncated before timestamp") else
  ts ← read_be key off (off + 8);
  Ret (kind, unitID, s64 ts).

(** [uint16(len)] truncates: these two functions do not bound their fields. *)
Definition kindUnitPrefix (kind unitID : bytes) : bytes :=
  [LogKeyPrefix] ++ put16 (u16 (blen kind)) ++ kind ++ put16 (u16 (blen unitID)) ++ unitID.

Definition nonNegativeUnixNano (tsNano : Z) : Z := if 0 <? tsNano then tsNano else 0.

Definition ScanBounds (kind unitID : bytes) (start stop : Z) : bytes * bytes :=
  let prefix := kindUnitPrefix kind unitID in
  (prefix ++ putTs (nonNegativeUnixNano start),
   prefix ++ putTs (nonNegativeUnixNano stop) ++ pad_ff RandSize).

Definition KindPrefix (kind : bytes) : bytes := [LogKeyPrefix] ++ put16 (u16 (blen kind)) ++ kind.

Definition AllPrefix : bytes := [LogKeyPrefix].

(** * Lemmas *)

Definition int64 (z : Z) : Prop := - 2 ^ 63 <= z < 2 ^ 63.

Lemma s64_u64 z : int64 z -> s64 (u64 z) = z.
Proof.
  unfold int64, s64, u64. intros Hz. destruct (Z.lt_ge_cases z 0).
  - rewrite <- (Z.mod_add z 1), Z.mul_1_l, Z.mod_small by lia.
    destruct (Z.ltb_spec (z + 2 ^ 64) (2 ^ 63)); lia.
  - rewrite Z.mod_small by lia. destruct (Z.ltb_spec z (2 ^ 63)); lia.
Qed.

Lemma u64_range z : 0 <= u64 z < 2 ^ 64.
Proof. apply Z.mod_pos_bound. lia. Qed.

Lemma u64_nonneg z : int64 z -> 0 <= z -> u64 z = z.
Proof. unfold int64, u64. intros. apply Z.mod_small. lia. Qed.

Lemma blen_putTs z : blen (putTs z) = 8.
Proof. unfold putTs. by rewrite blen_be_bytes. Qed.
#[local] Hint Rewrite blen_putTs : lengths.

Lemma BuildKey_Ret kind unitID ts rnd key :
  BuildKey kind unitID ts rnd = Ret key <->
  blen kind <= 0xFFFF /\ blen unitID <= 0xFFFF /\
  key = kindUnitPrefix kind unitID ++ putTs ts ++ rnd.
Proof.
  unfold BuildKey, maxFieldLen, kindUnitPrefix. pose proof (blen_nonneg kind). pose proof (blen_nonneg unitID).
  destruct (Z.ltb_spec 0xFFFF (blen kind)); [split; [done|lia]|].
  destruct (Z.ltb_spec 0xFFFF (blen unitID)); [split; [done|lia]|].
  unfold u16. rewrite !Z.mod_small, <- !app_assoc by lia. split; [by intros [= <-]|by intros (_ & _ & ->)].
Qed.

Lemma kindUnitPrefix_inj k u k' u' x y :
  blen k <= 0xFFFF -> blen u <= 0xFFFF -> blen k' <= 0xFFFF -> blen u' <= 0xFFFF ->
  kindUnitPrefix k u ++ x = kindUnitPrefix k' u' ++ y -> k = k' /\ u = u' /\ x = y.
Proof.
  intros Hk Hu Hk' Hu' E. unfold kindUnitPrefix, u16 in E.
  pose proof (blen_nonneg k). pose proof (blen_nonneg u).
  pose proof (blen_nonneg k'). pose proof (blen_nonneg u').
  rewrite !Z.mod_small, <- !app_assoc in E by lia. apply app_inv_head in E.
  apply field16_prefix in E as [-> E]; [|done..]. by apply field16_prefix in E as [-> ->].
Qed.

Lemma ParseKey_BuildKey kind unitID ts rnd :
  blen kind <= 0xFFFF -> blen unitID <= 0xFFFF -> int64 ts ->
  ParseKey (kindUnitPrefix kind unitID ++ putTs ts ++ rnd) = Ret (kind, unitID, ts).
Proof.
  intros Hk Hu Hts. unfold ParseKey, kindUnitPrefix, u16. pose proof (u64_range ts).
  pose proof (blen_nonneg kind). pose proof (blen_nonneg unitID).
  rewrite !Z.mod_small, <- !app_assoc by lia. unfold putTs. codec. byte_tests. by rewrite s64_u64.
Qed.

Lemma ParseKey_safe key : no_panic (ParseKey key).
Proof. unfold ParseKey. safe. Qed.

(** * Theorems *)

(** A log key parses back to the kind, unit and timestamp it was built from,
    for every 64-bit timestamp; and parsing never panics, on any byte string. *)
Theorem log_key_roundtrip (kind unitID rnd key : bytes) (ts : Z) :
  (int64 ts -> BuildKey kind unitID ts rnd = Ret key -> ParseKey key = Ret (kind, unitID, ts)) /\
  no_panic (ParseKey key).
Proof.
  split; [|apply ParseKey_safe].
  intros Hts (Hk & Hu & ->)%BuildKey_Ret. by apply ParseKey_BuildKey.
Qed.

(** C24 The range of a scan selects exactly the records it should, for kinds and units of
    at most 65535 bytes, times of 64 bits and records dated from 1970 on (where a window
    that ends earlier is taken to end): a stored key is
    inside [ScanBounds kind unitID start stop] if and only if it is of that
    kind and unit and its timestamp lies in the window, bounds included --
    whatever the kinds and units involved (one may be a prefix of another). *)
Theorem scan_bounds_exact (kind unitID kind' unitID' rnd key : bytes) (start stop ts : Z) :
  blen kind <= 0xFFFF -> blen unitID <= 0xFFFF -> int64 start -> int64 stop ->
  int64 ts -> 0 <= ts -> length rnd = RandSize -> BuildKey kind' unitID' ts rnd = Ret key ->
  in_range (ScanBounds kind unitID start stop).1 (ScanBounds kind unitID start stop).2 key = true <->
  kind' = kind /\ unitID' = unitID /\ start <= ts <= Z.max 0 stop.
Proof.
  intros Hk Hu Hst Hsp Hts Hts0 Hr (Hk' & Hu' & ->)%BuildKey_Ret.
  assert (forall z, int64 z -> int64 (nonNegativeUnixNano z) /\ nonNegativeUnixNano z = Z.max 0 z) as Hnn.
  { intros z Hz. unfold nonNegativeUnixNano, int64 in *. destruct (Z.ltb_spec 0 z); lia. }
  destruct (Hnn start Hst) as [Hs64 Hs], (Hnn stop Hsp) as [Hp64 Hp].
  unfold ScanBounds. cbn [fst snd].
  assert (kind' = kind /\ unitID' = unitID ->
    in_range (kindUnitPrefix kind unitID ++ putTs (nonNegativeUnixNano start))
      (kindUnitPrefix kind unitID ++ putTs (nonNegativeUnixNano stop) ++ pad_ff RandSize)
      (kindUnitPrefix kind' unitID' ++ putTs ts ++ rnd) = true <-> start <= ts <= Z.max 0 stop) as Hsame.
  { intros [-> ->]. unfold in_range, putTs. rewrite !bytes_le_app.
    rewrite !u64_nonneg by (unfold int64 in *; lia).
    rewrite <- (app_nil_r (be_bytes 8 (nonNegativeUnixNano start))).
    rewrite !bytes_le_be by (unfold int64 in *; change (8 * Z.of_nat 8) with 64; lia).
    rewrite bytes_le_ff by lia. rewrite Hs, Hp.
    rewrite andb_true_iff. byte_cases; cbn; lia. }
  split.
  - intros Hin. assert (kind' = kind /\ unitID' = unitID) as [-> ->]; [|tauto].
    unfold in_range in Hin. apply andb_true_iff in Hin as [H1 H2].
    destruct (between_prefix (kindUnitPrefix kind unitID) _ _ _ ltac:(by eexists) ltac:(by eexists) H1 H2) as [r E].
    apply kindUnitPrefix_inj in E; tauto.
  - intros (-> & -> & H). by apply Hsame.
Qed.

(** Keys of one kind and unit sort by timestamp, ties by their random suffix. *)
Theorem log_keys_chronological (kind unitID r1 r2 k1 k2 : bytes) (t1 t2 : Z) :
  int64 t1 -> int64 t2 -> 0 <= t1 -> 0 <= t2 ->
  BuildKey kind unitID t1 r1 = Ret k1 -> BuildKey kind unitID t2 r2 = Ret k2 ->
  bytes_le k1 k2 = true <-> t1 < t2 \/ t1 = t2 /\ bytes_le r1 r2 = true.
Proof.
  intros H1 H2 P1 P2 (_ & _ & ->)%BuildKey_Ret (_ & _ & ->)%BuildKey_Ret.
  unfold putTs. rewrite bytes_le_app, !u64_nonneg by done.
  rewrite bytes_le_be by (unfold int64 in *; change (8 * Z.of_nat 8) with 64; lia).
  byte_cases; intuition (try lia; try done).
Qed.

(** The prefix of a kind selects the records of that kind and no other. *)
Theorem kind_prefix_exact (kind kind' unitID rnd key : bytes) (ts : Z) :
  blen kind <= 0xFFFF -> BuildKey kind' unitID ts rnd = Ret key ->
  in_prefix_range (KindPrefix kind) key = true <-> kind' = kind.
Proof.
  intros Hk (Hk' & Hu & ->)%BuildKey_Ret. rewrite in_prefix_range_spec.
  unfold KindPrefix, kindUnitPrefix, u16. pose proof (blen_nonneg kind). pose proof (blen_nonneg kind').
  rewrite !(Z.mod_small (blen kind)), !(Z.mod_small (blen kind')), <- !app_assoc by lia. split.
  - intros [r E]. rewrite <- !app_assoc in E. apply app_inv_head in E.
    by apply field16_prefix in E as [-> _].
  - intros ->. by apply prefix_app, prefix_app, prefix_app_r.
Qed.
