(* ===== verification/Txn.v ===== *)
(** Transactions on the wire (src/pkg/shmevent/txn.go): the operation list, its
    raft-log encoding, and the one-line textual form.

    The theorems: the encoding is a bijection between the operation lists the
    encoder accepts and the byte strings the decoder accepts with valid
    operations; decoding never panics; and the textual form of a transaction
    parses back to it. *)

From S2P Require Import Prelude SystemKeys Payloads.
#[local] Open Scope Z_scope.

Definition TxnOpSet : byte := Byte.x01.
Definition TxnOpDelete : byte := Byte.x02.
Definition TxnOpCompare : byte := Byte.x03.
Definition TxnOpCompareAbsent : byte := Byte.x04.

Record TxnOpSpec : Type := mkTxnOp {
  Op : byte;
  Key : bytes;
  Value : bytes;
}.

#[global] Instance TxnOpSpec_eq_dec : EqDecision TxnOpSpec.
Proof. solve_decision. Defined.

Definition IsCompare (op : TxnOpSpec) : bool :=
  byte_eqb (Op op) TxnOpCompare || byte_eqb (Op op) TxnOpCompareAbsent.

Definition ValidTxnOp (op : byte) : bool :=
  bool_decide (op ∈ [TxnOpSet; TxnOpDelete; TxnOpCompare; TxnOpCompareAbsent]).

(** * The raft-log encoding *)

(** The checks of the first loop of [EncodeTxnPayload], in order. *)
Definition checkTxnOp (op : TxnOpSpec) : gores unit :=
  if blen (Key op) =? 0 then Fail (Errorf "shmevent: txn op has an empty key") else
  if 0xFFFF <? blen (Key op) then Fail (Errorf "shmevent: txn op key too long: %d bytes") else
  if 0xFFFF <? blen (Value op) then Fail (Errorf "shmevent: txn op value too long: %d bytes") else
  if negb (ValidTxnOp (Op op)) then Fail (Errorf "shmevent: txn op has unknown kind %d") else
  Ret tt.

Fixpoint checkTxnOps (ops : list TxnOpSpec) : gores unit :=
  match ops with
  | [] => Ret tt
  | op :: ops' => _ ← checkTxnOp op; checkTxnOps ops'
  end.

(** The bytes the second loop writes for one operation. *)
Definition putTxnOp (op : TxnOpSpec) : bytes :=
  [Op op] ++ put16 (blen (Key op)) ++ Key op ++ put16 (blen (Value op)) ++ Value op.

Definition EncodeTxnPayload (ops : list TxnOpSpec) : gores bytes :=
  if 0xFFFF <? blen ops then Fail (Errorf "shmevent: txn payload has too many ops: %d") else
  _ ← checkTxnOps ops;
  Ret (put16 (blen ops) ++ concat (map putTxnOp ops)).

(** The [for i := range count] loop: [off] is the read position. *)
Fixpoint decodeTxnOps (payload : bytes) (count : nat) (off : Z) : gores (list TxnOpSpec * Z) :=
  match count with
  | O => Ret ([], off)
  | S count' =>
    if blen payload <? off + 1 + 2 then Fail (Errorf "shmevent: txn payload truncated at op %d") else
    op ← idx payload off;
    let off := off + 1 in
    keyLen ← read16 payload off;
    let off := off + 2 in
    if blen payload <? off + keyLen + 2
    then Fail (Errorf "shmevent: txn payload truncated reading op %d key") else
    key ← slice payload off (off + keyLen);
    let off := off + keyLen in
    valueLen ← read16 payload off;
    let off := off + 2 in
    if blen payload <? off + valueLen
    then Fail (Errorf "shmevent: txn payload truncated reading op %d value") else
    value ← slice payload off (off + valueLen);
    '(rest, off') ← decodeTxnOps payload count' (off + valueLen);
    Ret (mkTxnOp op key value :: rest, off')
  end.

Definition DecodeTxnPayload (payload : bytes) : gores (list TxnOpSpec) :=
  if blen payload <? 2 then Fail (Errorf "shmevent: txn payload too short: %d bytes") else
  count ← read16 payload 0;
  '(ops, off) ← decodeTxnOps payload (Z.to_nat count) 2;
  if negb (off =? blen payload) then Fail (Errorf "shmevent: txn payload has %d trailing bytes") else
  Ret ops.

(** * The textual form *)

(** The number of bytes of the white-space rune (as [unicode.IsSpace]) at the
    head of a UTF-8 string, 0 if there is none.  Continuation bytes are never
    lead bytes, so testing every position finds the runes the decoder sees. *)
Definition spaceLen (s : bytes) : nat :=
  let z := byte_to_Z in
  match s with
  | a :: s' =>
    if bool_decide (z a ∈ [9; 10; 11; 12; 13; 32]) then 1%nat else
    match s' with
    | b :: s'' =>
      if (z a =? 0xC2) && bool_decide (z b ∈ [0x85; 0xA0]) then 2%nat else
      match s'' with
      | c :: _ =>
        if (z a =? 0xE1) && (z b =? 0x9A) && (z c =? 0x80) then 3%nat else
        if (z a =? 0xE2) && (z b =? 0x80) &&
           ((0x80 <=? z c) && (z c <=? 0x8A) || bool_decide (z c ∈ [0xA8; 0xA9; 0xAF])) then 3%nat else
        if (z a =? 0xE2) && (z b =? 0x81) && (z c =? 0x9F) then 3%nat else
        if (z a =? 0xE3) && (z b =? 0x80) && (z c =? 0x80) then 3%nat else 0%nat
      | [] => 0%nat
      end
    | [] => 0%nat
    end
  | [] => 0%nat
  end.

Definition flush (cur : bytes) : list bytes := if blen cur =? 0 then [] else [cur].

(** [strings.Fields]: [skip] bytes of the current space are still to pass. *)
Fixpoint fields_from (skip : nat) (cur s : bytes) : list bytes :=
  match s with
  | [] => flush cur
  | x :: s' =>
    match skip with
    | S skip' => fields_from skip' cur s'
    | O =>
      match spaceLen s with
      | O => fields_from O (cur ++ [x]) s'
      | S n => flush cur ++ fields_from n [] s'
      end
    end
  end.

Definition Fields (s : bytes) : list bytes := fields_from O [] s.

(** [strings.Cut(s, "=")] *)
Fixpoint cut_eq (s : bytes) : option (bytes * bytes) :=
  match s with
  | [] => None
  | x :: s' =>
    if byte_eqb x Byte.x3d then Some ([], s')
    else '(k, v) ← cut_eq s'; Some (x :: k, v)
  end.

(** The body of the loop of [ParseTxnOpsString] on one field. *)
Definition parseTxnOp (field : bytes) : gores TxnOpSpec :=
  match cut_prefix (bs "del:") field with
  | Some key =>
    if blen key =? 0 then Fail (Errorf "shmevent: txn: %q has an empty key")
    else Ret (mkTxnOp TxnOpDelete key [])
  | None =>
  match cut_prefix (bs "ifabsent:") field with
  | Some key =>
    if blen key =? 0 then Fail (Errorf "shmevent: txn: %q has an empty key")
    else Ret (mkTxnOp TxnOpCompareAbsent key [])
  | None =>
  match cut_prefix (bs "if:") field with
  | Some rest =>
    match cut_eq rest with
    | Some (key, value) =>
      if blen key =? 0 then Fail (Errorf "shmevent: txn: %q is not if:<key>=<value>")
      else Ret (mkTxnOp TxnOpCompare key value)
    | None => Fail (Errorf "shmevent: txn: %q is not if:<key>=<value>")
    end
  | None =>
    match cut_eq field with
    | Some (key, value) =>
      if blen key =? 0 then Fail (Errorf "shmevent: txn: %q is neither <key>=<value> nor del:<key> (values can't contain spaces; ops are whitespace-separated)")
      else Ret (mkTxnOp TxnOpSet key value)
    | None => Fail (Errorf "shmevent: txn: %q is neither <key>=<value> nor del:<key> (values can't contain spaces; ops are whitespace-separated)")
    end
  end end end.

Fixpoint parseTxnOps (fields : list bytes) : gores (list TxnOpSpec) :=
  match fields with
  | [] => Ret []
  | f :: fields' => op ← parseTxnOp f; rest ← parseTxnOps fields'; Ret (op :: rest)
  end.

Definition ParseTxnOpsString (ops : bytes) : gores (list TxnOpSpec) :=
  let fields := Fields ops in
  if blen fields =? 0 then Fail (Errorf "shmevent: txn: no ops given") else
  parseTxnOps fields.

(** * Lemmas on the encoding *)

(** The lengths an operation's frame can express. *)
Definition op_fits (op : TxnOpSpec) : Prop := blen (Key op) <= 0xFFFF /\ blen (Value op) <= 0xFFFF.

Definition op_valid (op : TxnOpSpec) : Prop := Key op <> [] /\ ValidTxnOp (Op op) = true.

Lemma blen_zero {A} (l : list A) : blen l = 0 <-> l = [].
Proof. destruct l; [done|]. split; [lens|done]. Qed.

Lemma checkTxnOps_Ret ops :
  checkTxnOps ops = Ret tt <-> Forall op_fits ops /\ Forall op_valid ops.
Proof.
  induction ops as [|op ops IH]; [done|]. rewrite !Forall_cons. cbn [checkTxnOps].
  assert (checkTxnOp op = Ret tt <-> op_fits op /\ op_valid op) as Hop.
  { unfold checkTxnOp, op_fits, op_valid.
    destruct (Z.eqb_spec (blen (Key op)) 0) as [E|E]; rewrite blen_zero in E; [naive_solver|].
    destruct (Z.ltb_spec 0xFFFF (blen (Key op))); [split; [done|lia]|].
    destruct (Z.ltb_spec 0xFFFF (blen (Value op))); [split; [done|lia]|].
    destruct (ValidTxnOp (Op op)); naive_solver. }
  destruct (checkTxnOp op) as [[]|e|]; cbn [mbind gores_bind]; [|naive_solver..].
  rewrite IH. tauto.
Qed.

Lemma decodeTxnOps_put ops p r :
  Forall op_fits ops ->
  decodeTxnOps (p ++ concat (map putTxnOp ops) ++ r) (length ops) (blen p)
  = Ret (ops, blen p + blen (concat (map putTxnOp ops))).
Proof.
  intros Hops. revert p. induction Hops as [|[op key value] ops [Hk Hv] Hops IH]; intros p.
  { cbn. by rewrite Z.add_0_r. }
  cbn [length decodeTxnOps map concat Key Value] in *.
  specialize (IH (p ++ putTxnOp (mkTxnOp op key value))).
  assert (blen (putTxnOp (mkTxnOp op key value)) = 5 + blen key + blen value) as Hlen
    by (unfold putTxnOp; cbn [Op Key Value]; lens).
  rewrite blen_app, Hlen in IH. rewrite <- !app_assoc in *.
  remember (decodeTxnOps (p ++ putTxnOp (mkTxnOp op key value) ++ concat (map putTxnOp ops) ++ r) (length ops)) as rec eqn:E.
  rewrite (blen_app (putTxnOp _) (concat _)), Hlen. clear E Hlen.
  change (putTxnOp (mkTxnOp op key value)) with ([op] ++ put16 (blen key) ++ key ++ put16 (blen value) ++ value).
  rewrite <- !app_assoc. codec.
  replace (blen p + 1 + 2 + blen key + 2 + blen value) with (blen p + (5 + blen key + blen value)) by lia.
  rewrite IH. cbn [mbind gores_bind]. do 2 f_equal. lia.
Qed.

(** Two adjacent reads of one buffer. *)
Lemma join_reads (b p s r p' s' r' : bytes) :
  b = p ++ s ++ r -> b = p' ++ s' ++ r' -> blen p' = blen p + blen s -> b = p ++ (s ++ s') ++ r'.
Proof.
  intros E E' Hl. assert (p' = p ++ s /\ s' ++ r' = r) as [-> <-].
  { apply app_inj_1; [unfold blen in Hl; rewrite length_app; lia|]. by rewrite <- E', E, <- app_assoc. }
  by rewrite E, <- !app_assoc.
Qed.

Lemma op_frame_inv payload off op n key m value :
  idx payload off = Ret op -> read16 payload (off + 1) = Ret n ->
  slice payload (off + 1 + 2) (off + 1 + 2 + n) = Ret key -> read16 payload (off + 1 + 2 + n) = Ret m ->
  slice payload (off + 1 + 2 + n + 2) (off + 1 + 2 + n + 2 + m) = Ret value ->
  op_fits (mkTxnOp op key value) /\ n = blen key /\ m = blen value /\
  exists p r, payload = p ++ putTxnOp (mkTxnOp op key value) ++ r /\ blen p = off.
Proof.
  intros (p & r & E1 & Hp)%idx_inv (p2 & r2 & E2 & Hp2 & Hn)%read16_inv (p3 & r3 & E3 & Hp3 & Hk)%slice_inv
    (p4 & r4 & E4 & Hp4 & Hm)%read16_inv (p5 & r5 & E5 & Hp5 & Hv)%slice_inv.
  assert (n = blen key) as -> by lia. assert (m = blen value) as -> by lia.
  split; [unfold op_fits; cbn; lia|]. do 2 (split; [done|]). exists p, r5. split; [|done].
  change (op :: r) with ([op] ++ r) in E1.
  pose proof (join_reads _ _ _ _ _ _ _ E1 E2 ltac:(lens)) as J.
  pose proof (join_reads _ _ _ _ _ _ _ J E3 ltac:(lens)) as J2.
  pose proof (join_reads _ _ _ _ _ _ _ J2 E4 ltac:(lens)) as J3.
  pose proof (join_reads _ _ _ _ _ _ _ J3 E5 ltac:(lens)) as J4.
  unfold putTxnOp. cbn [Op Key Value]. by rewrite <- !app_assoc in *.
Qed.

Lemma decodeTxnOps_inv payload n off ops off' :
  0 <= off <= blen payload -> decodeTxnOps payload n off = Ret (ops, off') ->
  length ops = n /\ Forall op_fits ops /\
  exists p r, payload = p ++ concat (map putTxnOp ops) ++ r /\ blen p = off /\
    off' = off + blen (concat (map putTxnOp ops)).
Proof.
  revert off ops off'. induction n as [|n IH]; intros off ops off' Hoff H; cbn [decodeTxnOps] in H.
  { injection H as <- <-. repeat split; [constructor|].
    exists (take (Z.to_nat off) payload), (drop (Z.to_nat off) payload).
    cbn. rewrite take_drop. unfold blen in *. rewrite length_take. cbn. split_and!; [done|lia..]. }
  unbind H. match type of H with context [let '(_, _) := ?x in _] => destruct x as [rest off''] end.
  injection H as <- <-.
  match goal with
  | E1 : idx payload _ = Ret _, E2 : read16 payload (off + 1) = Ret _,
    E3 : slice payload (off + 1 + 2) _ = Ret _, E4 : read16 payload (off + 1 + 2 + _) = Ret _,
    E5 : slice payload (off + 1 + 2 + _ + 2) _ = Ret _ |- _ =>
      destruct (op_frame_inv _ _ _ _ _ _ _ E1 E2 E3 E4 E5) as (Hop & -> & -> & p & r & Hpay & Hp)
  end.
  match goal with E : decodeTxnOps _ _ _ = _ |- _ => apply IH in E as (Hlen & Hfit & q & r' & E5 & Hq & ->) end.
  2: { repeat match goal with E : (_ <? _) = false |- _ => apply Z.ltb_ge in E end. lens. }
  split_and!; [by cbn; rewrite Hlen|by constructor|].
  exists p, r'. cbn [map concat]. split_and!; [|done|unfold putTxnOp; cbn [Op Key Value]; lens].
  eapply join_reads; [exact Hpay|exact E5|]. unfold putTxnOp; cbn [Op Key Value]; lens.
Qed.

Lemma decodeTxnOps_safe payload n off : 0 <= off -> no_panic (decodeTxnOps payload n off).
Proof.
  revert off. induction n as [|n IH]; intros off Hoff; cbn [decodeTxnOps]; safe.
  apply no_panic_bind; [apply IH; lia|]. by intros [rest off'] _.
Qed.

Lemma DecodeTxnPayload_safe payload : no_panic (DecodeTxnPayload payload).
Proof.
  unfold DecodeTxnPayload. safe. apply no_panic_bind; [apply decodeTxnOps_safe; lia|].
  intros [ops off] _. by destruct (negb _).
Qed.

Lemma DecodeTxnPayload_Encode ops payload : EncodeTxnPayload ops = Ret payload -> DecodeTxnPayload payload = Ret ops.
Proof.
  unfold EncodeTxnPayload. destruct (Z.ltb_spec 0xFFFF (blen ops)); [done|].
  destruct (checkTxnOps ops) as [[]| |] eqn:E; [|done..]. cbn [mbind gores_bind]. intros <-%(inj Ret).
  apply checkTxnOps_Ret in E as [Hfit _]. unfold DecodeTxnPayload.
  pose proof (decodeTxnOps_put ops (put16 (blen ops)) [] Hfit) as Hdec.
  rewrite app_nil_r, blen_put16 in Hdec. codec.
  replace (Z.to_nat (blen ops)) with (length ops) by (unfold blen; lia). rewrite Hdec. cbn [mbind gores_bind].
  by codec.
Qed.

(** The raft-log encoding of a transaction is exact: what the encoder produces
    decodes to the same operations; every byte string that decodes to operations
    with a known kind and a non-empty key is the encoding of those operations
    (so a transaction has one encoding, with no trailing or hidden bytes); and
    decoding never panics. *)
Theorem txn_payload_roundtrip (ops : list TxnOpSpec) (payload : bytes) :
  (EncodeTxnPayload ops = Ret payload -> DecodeTxnPayload payload = Ret ops) /\
  (DecodeTxnPayload payload = Ret ops -> Forall op_valid ops -> EncodeTxnPayload ops = Ret payload) /\
  no_panic (DecodeTxnPayload payload).
Proof.
  split_and!; [apply DecodeTxnPayload_Encode| |apply DecodeTxnPayload_safe].
  intros H Hval. unfold DecodeTxnPayload in H. unbind H.
    match type of H with context [let '(_, _) := ?x in _] => destruct x as [ops' off'] end. unbind H. injection H as <-.
    match goal with E : decodeTxnOps _ _ _ = _ |- _ => apply decodeTxnOps_inv in E as (Hlen & Hfit & p & r & E5 & Hp & ->) end;
      [|match goal with E : (_ <? _) = false |- _ => apply Z.ltb_ge in E end; lia].
    match goal with E : negb (?x =? ?y) = false |- _ => destruct (Z.eqb_spec x y) as [Hend|]; [clear E|done] end.
    match goal with E : read16 _ _ = _ |- _ => apply read16_inv in E as (p0 & r0 & E0 & Hp0 & Hn) end.
    apply blen_zero in Hp0 as ->. rewrite E5 in Hend. rewrite !blen_app in Hend.
    assert (r = []) as -> by (apply blen_zero; pose proof (blen_nonneg r); lia). rewrite app_nil_r in E5.
    unfold EncodeTxnPayload. assert (blen ops' = a) as Hops by (unfold blen; lia).
    destruct (Z.ltb_spec 0xFFFF (blen ops')); [lia|].
    rewrite (proj2 (checkTxnOps_Ret ops')) by done. cbn [mbind gores_bind]. f_equal.
    rewrite E5 in E0 |- *. cbn [app] in E0. apply app_inj_1 in E0 as [-> _]; [by rewrite Hops|].
    unfold blen in Hp. rewrite put16_be, length_be_bytes. lia.
Qed.

(** * Lemmas on the textual form *)

Definition plain (s : bytes) : Prop := Forall (fun b => 0x21 <= byte_to_Z b <= 0x7E) s.

(** The grammar the parser documents, as a printer. *)
Definition showTxnOp (op : TxnOpSpec) : bytes :=
  if byte_eqb (Op op) TxnOpDelete then bs "del:" ++ Key op
  else if byte_eqb (Op op) TxnOpCompareAbsent then bs "ifabsent:" ++ Key op
  else if byte_eqb (Op op) TxnOpCompare then bs "if:" ++ Key op ++ Byte.x3d :: Value op
  else Key op ++ Byte.x3d :: Value op.

Fixpoint showTxnOps (ops : list TxnOpSpec) : bytes :=
  match ops with
  | [] => []
  | op :: ops' => showTxnOp op ++ Byte.x20 :: showTxnOps ops'
  end.

(** An operation the grammar can express: printable key and value, no [=] in the
    key; a set's key does not start with one of the reserved words; the
    operations without a value have an empty one. *)
Definition showable (op : TxnOpSpec) : Prop :=
  op_valid op /\ plain (Key op) /\ plain (Value op) /\ (Byte.x3d ∉ Key op) /\
  (Op op = TxnOpDelete \/ Op op = TxnOpCompareAbsent -> Value op = []) /\
  (Op op = TxnOpSet -> cut_prefix (bs "del:") (Key op) = None /\ cut_prefix (bs "ifabsent:") (Key op) = None /\
     cut_prefix (bs "if:") (Key op) = None).

Lemma spaceLen_plain x s : 0x21 <= byte_to_Z x <= 0x7E -> spaceLen (x :: s) = 0%nat.
Proof.
  intros Hx. unfold spaceLen.
  rewrite bool_decide_eq_false_2 by (rewrite !elem_of_cons, elem_of_nil; lia).
  destruct s as [|y s]; [done|].
  rewrite (proj2 (Z.eqb_neq (byte_to_Z x) 0xC2)) by lia. cbn [andb].
  destruct s as [|c s]; [done|].
  rewrite (proj2 (Z.eqb_neq (byte_to_Z x) 0xE1)), (proj2 (Z.eqb_neq (byte_to_Z x) 0xE2)),
    (proj2 (Z.eqb_neq (byte_to_Z x) 0xE3)) by lia. done.
Qed.

Lemma fields_from_plain f cur s :
  plain f -> fields_from 0 cur (f ++ s) = fields_from 0 (cur ++ f) s.
Proof.
  intros Hf. revert cur. induction Hf as [|x f Hx Hf IH]; intros cur; [by rewrite app_nil_r|].
  cbn [app]. cbn [fields_from]. rewrite spaceLen_plain by done. rewrite IH, <- app_assoc. done.
Qed.

Lemma fields_word f s : plain f -> f <> [] -> fields_from 0 [] (f ++ Byte.x20 :: s) = f :: fields_from 0 [] s.
Proof.
  intros Hf Hne. rewrite fields_from_plain by done. cbn [app].
  change (fields_from 0 f (Byte.x20 :: s)) with (flush f ++ fields_from 0 [] s).
  unfold flush. destruct (Z.eqb_spec (blen f) 0) as [E|]; [by apply blen_zero in E|done].
Qed.

Lemma fields_last f : plain f -> f <> [] -> fields_from 0 [] f = [f].
Proof.
  intros Hf Hne. rewrite <- (app_nil_r f) at 1. rewrite fields_from_plain by done. cbn. unfold flush.
  destruct (Z.eqb_spec (blen f) 0) as [E|]; [by apply blen_zero in E|done].
Qed.

Lemma Fields_show ops :
  Forall (fun op => plain (showTxnOp op) /\ showTxnOp op <> []) ops ->
  Fields (showTxnOps ops) = map showTxnOp ops.
Proof.
  unfold Fields. induction 1 as [|op ops [Hp Hn] _ IH]; [done|]. cbn [showTxnOps map]. by rewrite fields_word, IH.
Qed.

Lemma cut_eq_app k v : Byte.x3d ∉ k -> cut_eq (k ++ Byte.x3d :: v) = Some (k, v).
Proof.
  induction k as [|x k IH]; intros Hk; [done|]. rewrite not_elem_of_cons in Hk. destruct Hk as [Hx Hk].
  cbn [app cut_eq]. destruct (byte_eqb x Byte.x3d) eqn:E; [by apply byte_eqb_true in E|]. by rewrite IH.
Qed.

Lemma cut_prefix_eq p k v :
  Byte.x3d ∉ p -> cut_prefix p k = None -> cut_prefix p (k ++ Byte.x3d :: v) = None.
Proof.
  revert p. induction k as [|y k IH]; intros [|x p] Hp; cbn [cut_prefix app]; try done.
  - intros _. destruct (byte_eqb x Byte.x3d) eqn:E; [|done]. apply byte_eqb_true in E as ->.
    by apply not_elem_of_cons in Hp as [? _].
  - apply not_elem_of_cons in Hp as [_ Hp]. destruct (byte_eqb x y); [|done]. by apply IH.
Qed.

Lemma plain_app x y : plain (x ++ y) <-> plain x /\ plain y.
Proof. apply Forall_app. Qed.

Lemma plain_cons x y : 0x21 <= byte_to_Z x <= 0x7E -> plain (x :: y) <-> plain y.
Proof. intros Hx. unfold plain. rewrite Forall_cons. tauto. Qed.

Lemma op_kinds op : ValidTxnOp op = true ->
  op = TxnOpSet \/ op = TxnOpDelete \/ op = TxnOpCompare \/ op = TxnOpCompareAbsent.
Proof. unfold ValidTxnOp. rewrite bool_decide_eq_true. set_solver. Qed.

Lemma showTxnOp_plain op : showable op -> plain (showTxnOp op) /\ showTxnOp op <> [].
Proof.
  intros ((Hne & Hv) & Hk & Hval & Hrest). unfold showTxnOp.
  assert (plain (bs "del:") /\ plain (bs "ifabsent:") /\ plain (bs "if:")) as (H1 & H2 & H3).
  { split_and!; repeat constructor; vm_compute; congruence. }
  assert (0x21 <= byte_to_Z Byte.x3d <= 0x7E) as Heq by (vm_compute; split; congruence).
  byte_tests; rewrite ?plain_app, ?(plain_cons Byte.x3d) by done; (split; [tauto|]).
  all: try (destruct (Key op); done).
Qed.

Lemma parse_showTxnOp op : showable op -> parseTxnOp (showTxnOp op) = Ret op.
Proof.
  destruct op as [o key value]. intros ((Hne & Hv) & Hk & Hval & Heq & Hnil & Hset). cbn [Op Key Value] in *.
  assert ((blen key =? 0) = false) as Hlen by (apply Z.eqb_neq; by rewrite blen_zero).
  unfold parseTxnOp, showTxnOp. cbn [Op Key Value].
  destruct (op_kinds o Hv) as [-> | [-> | [-> | ->]]].
  - destruct (Hset eq_refl) as (H1 & H2 & H3). cbn [app].
    change (byte_eqb TxnOpSet _) with false. cbv iota.
    rewrite !cut_prefix_eq by (done || (apply (bool_decide_eq_false_1 (_ ∈ _)); reflexivity)).
    by rewrite cut_eq_app, Hlen.
  - change (byte_eqb TxnOpDelete TxnOpDelete) with true. cbv iota.
    by rewrite cut_prefix_app, Hlen, Hnil by auto.
  - change (byte_eqb TxnOpCompare TxnOpCompare) with true. change (byte_eqb TxnOpCompare _) with false. cbv iota.
    rewrite cut_prefix_app. cbn. by rewrite cut_eq_app, Hlen.
  - change (byte_eqb TxnOpCompareAbsent TxnOpCompareAbsent) with true.
    change (byte_eqb TxnOpCompareAbsent _) with false. cbv iota.
    rewrite cut_prefix_app. cbn. by rewrite Hlen, Hnil by auto.
Qed.

Lemma parseTxnOp_valid f op : parseTxnOp f = Ret op -> op_valid op.
Proof.
  unfold parseTxnOp, op_valid. intros H.
  repeat match type of H with
  | match ?x with Some _ => _ | None => _ end = _ => destruct x as [?|]; try discriminate H
  | (let '(_, _) := ?x in _) = _ => destruct x
  | (if blen ?k =? 0 then _ else _) = _ => destruct (Z.eqb_spec (blen k) 0); try discriminate H
  end; injection H as <-; cbn [Key Op]; by rewrite blen_zero in *.
Qed.

(** The one-line form of a transaction is faithful: printing a non-empty list
    of operations in the documented grammar and parsing it gives the same
    operations in the same order; and whatever text parses yields at least one
    operation, each with a known kind and a non-empty key. *)
Theorem txn_string_roundtrip (ops : list TxnOpSpec) (text : bytes) :
  (ops <> [] -> Forall showable ops -> ParseTxnOpsString (showTxnOps ops) = Ret ops) /\
  (ParseTxnOpsString text = Ret ops -> ops <> [] /\ Forall op_valid ops).
Proof.
  split.
  - intros Hne Hops. unfold ParseTxnOpsString. rewrite Fields_show.
    + assert (parseTxnOps (map showTxnOp ops) = Ret ops) as Hparse.
      { clear Hne. induction Hops as [|op ops Hop _ IH]; [done|]. cbn [map parseTxnOps].
        by rewrite parse_showTxnOp, IH. }
      rewrite Hparse. destruct ops; [done|]. cbn [map]. by codec.
    + eapply Forall_impl; [exact Hops|]. intros op. apply showTxnOp_plain.
  - unfold ParseTxnOpsString. destruct (Z.eqb_spec (blen (Fields text)) 0) as [|E]; [done|].
    rewrite blen_zero in E. intros H. revert ops H E. induction (Fields text) as [|f fs IH]; intros ops H E; [done|].
    cbn [parseTxnOps] in H. unbind H. apply (inj Ret) in H as <-. split; [done|]. constructor.
    + by eapply parseTxnOp_valid.
    + destruct fs as [|f' fs]; [|by apply IH].
      match goal with E : parseTxnOps [] = Ret _ |- _ => by apply (inj Ret) in E as <- end.
Qed.
