(* ===== verification/Hex.v ===== *)
(** Package [encoding/hex], as the invite tokens and the secrets on disk use it. *)

From S2P Require Import Prelude SystemKeys Payloads LogRecord Txn.
#[local] Open Scope Z_scope.

Definition hex_digit (d : Z) : byte := if d <? 10 then byte_of_Z (0x30 + d) else byte_of_Z (0x61 + (d - 10)).

Fixpoint hex_encode (b : bytes) : bytes :=
  match b with
  | [] => []
  | x :: b' => hex_digit (Z.shiftr (byte_to_Z x) 4) :: hex_digit (Z.land (byte_to_Z x) 0xF) :: hex_encode b'
  end.

Definition hex_value (c : byte) : option Z :=
  let z := byte_to_Z c in
  if (0x30 <=? z) && (z <=? 0x39) then Some (z - 0x30)
  else if (0x61 <=? z) && (z <=? 0x66) then Some (z - 0x61 + 10)
  else if (0x41 <=? z) && (z <=? 0x46) then Some (z - 0x41 + 10)
  else None.

Fixpoint hex_decode (s : bytes) : gores bytes :=
  match s with
  | [] => Ret []
  | [c] =>
    match hex_value c with
    | Some _ => Fail (Errorf "encoding/hex: odd length hex string")
    | None => Fail (Errorf "encoding/hex: invalid byte: %#U")
    end
  | a :: b :: s' =>
    match hex_value a, hex_value b with
    | Some hi, Some lo => rest ← hex_decode s'; Ret (byte_of_Z (Z.lor (Z.shiftl hi 4) lo) :: rest)
    | _, _ => Fail (Errorf "encoding/hex: invalid byte: %#U")
    end
  end.

Lemma hex_roundtrip b : hex_decode (hex_encode b) = Ret b.
Proof.
  induction b as [|x b IH]; [done|]. cbn [hex_encode hex_decode].
  assert (hex_value (hex_digit (Z.shiftr (byte_to_Z x) 4)) = Some (Z.shiftr (byte_to_Z x) 4) /\
          hex_value (hex_digit (Z.land (byte_to_Z x) 0xF)) = Some (Z.land (byte_to_Z x) 0xF) /\
          byte_of_Z (Z.lor (Z.shiftl (Z.shiftr (byte_to_Z x) 4) 4) (Z.land (byte_to_Z x) 0xF)) = x) as (-> & -> & ->)
    by (destruct x; by vm_compute).
  by rewrite IH.
Qed.

Lemma hex_plain b : plain (hex_encode b).
Proof.
  induction b as [|x b IH]; [constructor|]. cbn [hex_encode]. unfold plain.
  do 2 (apply Forall_cons; split; [destruct x; vm_compute; split; discriminate|]). exact IH.
Qed.

Lemma hex_nonempty b : 0 < blen b -> hex_encode b <> [].
Proof. by destruct b. Qed.

Lemma hex_length b : length (hex_encode b) = (2 * length b)%nat.
Proof. induction b as [|x b IH]; [done|]. cbn [hex_encode length]. rewrite IH. lia. Qed.
