(* ===== verification/Base64.v ===== *)
(** Package [encoding/base64], its [StdEncoding], as the tickets use it. *)

From S2P Require Import Prelude SystemKeys.
#[local] Open Scope Z_scope.

Definition b64_digit (n : Z) : byte :=
  byte_of_Z (if n <? 26 then 0x41 + n else if n <? 52 then 0x61 + (n - 26) else if n <? 62 then 0x30 + (n - 52) else if n =? 62 then 0x2B else 0x2F).

Definition b64_value (c : byte) : option Z :=
  let z := byte_to_Z c in
  if (0x41 <=? z) && (z <=? 0x5A) then Some (z - 0x41)
  else if (0x61 <=? z) && (z <=? 0x7A) then Some (z - 0x61 + 26)
  else if (0x30 <=? z) && (z <=? 0x39) then Some (z - 0x30 + 52)
  else if z =? 0x2B then Some 62
  else if z =? 0x2F then Some 63
  else None.

Definition b64_pad : byte := Byte.x3d.

(** Six bits of a number, from bit [k] on *)
Definition sextet (v k : Z) : byte := b64_digit (Z.land (Z.shiftr v k) 0x3F).

Fixpoint b64_encode (b : bytes) : bytes :=
  match b with
  | [] => []
  | [x] => let v := be_value [x; Byte.x00; Byte.x00] in [sextet v 18; sextet v 12; b64_pad; b64_pad]
  | [x; y] => let v := be_value [x; y; Byte.x00] in [sextet v 18; sextet v 12; sextet v 6; b64_pad]
  | x :: y :: z :: b' => let v := be_value [x; y; z] in sextet v 18 :: sextet v 12 :: sextet v 6 :: sextet v 0 :: b64_encode b'
  end.

(** The number of up to four digits, and a byte of it *)
Definition quantum (l : list Z) : Z := fold_left (fun acc d => Z.lor (Z.shiftl acc 6) d) l 0.
Definition octet (v k : Z) : byte := byte_of_Z (Z.shiftr v k).

Fixpoint b64_quads (s : bytes) : gores bytes :=
  let bad := Fail (Errorf "illegal base64 data at input byte %d") in
  match s with
  | [] => Ret []
  | a :: b :: c :: d :: s' =>
    match b64_value a, b64_value b with
    | Some x, Some y =>
      match b64_value c with
      | Some z =>
        match b64_value d with
        | Some w => let v := quantum [x; y; z; w] in rest ← b64_quads s'; Ret (octet v 16 :: octet v 8 :: octet v 0 :: rest)
        | None => if byte_eqb d b64_pad && bytes_eqb s' [] then let v := quantum [x; y; z; 0] in Ret [octet v 16; octet v 8] else bad
        end
      | None => if byte_eqb c b64_pad && byte_eqb d b64_pad && bytes_eqb s' [] then let v := quantum [x; y; 0; 0] in Ret [octet v 16] else bad
      end
    | _, _ => bad
    end
  | _ => bad
  end.

(** Line breaks are passed over. *)
Definition b64_decode (s : bytes) : gores bytes := b64_quads (filter (fun c => c <> Byte.x0a /\ c <> Byte.x0d) s).

(** * Round trip *)

Lemma b64_value_digit n : 0 <= n < 64 -> b64_value (b64_digit n) = Some n.
Proof.
  intros Hn. assert (n ∈ Z.of_nat <$> seq 0 64) as Hin.
  { apply list_elem_of_fmap. exists (Z.to_nat n). split; [lia|]. apply elem_of_seq. lia. }
  clear Hn. revert n Hin. apply Forall_forall. repeat (apply Forall_cons; split; [reflexivity|]). constructor.
Qed.

Lemma b64_digit_text n : 0 <= n < 64 -> b64_digit n <> Byte.x0a /\ b64_digit n <> Byte.x0d.
Proof. intros Hn. pose proof (b64_value_digit n Hn) as Hv. split; intros E; rewrite E in Hv; discriminate Hv. Qed.

Lemma sextet_range v k : 0 <= Z.land (Z.shiftr v k) 0x3F < 64.
Proof. change 0x3F with (Z.ones 6). rewrite Z.land_ones by lia. by apply Z.mod_pos_bound. Qed.

Lemma quantum_step acc d : 0 <= d < 64 -> Z.lor (Z.shiftl acc 6) d = acc * 64 + d.
Proof.
  intros Hd. rewrite <- Z.add_lor_land, (Z.shiftl_mul_pow2 acc 6) by lia. change (2 ^ 6) with 64.
  assert (Z.land (acc * 64) d = 0) as ->; [|lia]. apply Z.bits_inj'. intros i Hi. rewrite Z.land_spec, Z.bits_0. destruct (Z.lt_ge_cases i 6) as [Hlt|Hge].
  - change 64 with (2 ^ 6). by rewrite Z.mul_pow2_bits_low.
  - rewrite (Z.bits_above_log2 d i), andb_false_r; [done|lia|]. destruct (Z.eq_dec d 0) as [->|]; [by cbn; lia|]. apply Z.log2_lt_pow2; [lia|].
    pose proof (Z.pow_le_mono_r 2 6 i). lia.
Qed.

Lemma be_value3 x y z : be_value [x; y; z] = byte_to_Z x * 65536 + byte_to_Z y * 256 + byte_to_Z z.
Proof. unfold be_value. cbn [fold_left]. rewrite !be_step_arith. lia. Qed.

(** The digits of a number below 2^24 make it again. *)
Lemma quantum_sextets v : 0 <= v < 2 ^ 24 ->
  quantum [Z.land (Z.shiftr v 18) 0x3F; Z.land (Z.shiftr v 12) 0x3F; Z.land (Z.shiftr v 6) 0x3F; Z.land (Z.shiftr v 0) 0x3F] = v.
Proof.
  intros Hv. unfold quantum. cbn [fold_left]. rewrite !quantum_step by apply sextet_range.
  change 0x3F with (Z.ones 6). rewrite !Z.land_ones, !Z.shiftr_div_pow2 by lia.
  change (2 ^ 18) with 262144. change (2 ^ 12) with 4096. change (2 ^ 6) with 64. change (2 ^ 0) with 1. change (2 ^ 24) with 16777216 in Hv.
  Z.div_mod_to_equations. lia.
Qed.

Lemma octets x y z : let v := be_value [x; y; z] in octet v 16 = x /\ octet v 8 = y /\ octet v 0 = z.
Proof.
  cbv zeta. rewrite be_value3. pose proof (byte_to_Z_range x). pose proof (byte_to_Z_range y). pose proof (byte_to_Z_range z).
  unfold octet. rewrite !Z.shiftr_div_pow2 by lia. change (2 ^ 16) with 65536. change (2 ^ 8) with 256. change (2 ^ 0) with 1.
  split_and!; apply byte_to_Z_inj; rewrite byte_to_of_Z; Z.div_mod_to_equations; lia.
Qed.

Lemma be_value3_range x y z : 0 <= be_value [x; y; z] < 2 ^ 24.
Proof. apply (be_value_range [x; y; z]). Qed.

Lemma low_sextets x y : Z.land (Z.shiftr (be_value [x; y; Byte.x00]) 0) 0x3F = 0 /\ Z.land (Z.shiftr (be_value [x; Byte.x00; Byte.x00]) 6) 0x3F = 0.
Proof.
  rewrite !be_value3. change (byte_to_Z Byte.x00) with 0. change 0x3F with (Z.ones 6). rewrite !Z.land_ones, !Z.shiftr_div_pow2 by lia.
  change (2 ^ 6) with 64. change (2 ^ 0) with 1. pose proof (byte_to_Z_range x). pose proof (byte_to_Z_range y). split; Z.div_mod_to_equations; lia.
Qed.

Lemma b64_quads_encode : forall b, b64_quads (b64_encode b) = Ret b.
Proof.
  fix IH 1. intros [|x [|y [|z b]]]; [done| | |]; cbn [b64_encode b64_quads]; unfold sextet; rewrite !b64_value_digit by apply sextet_range.
  - change (b64_value b64_pad) with (@None Z). rewrite byte_eqb_refl, bytes_eqb_refl. cbn [andb].
    pose proof (quantum_sextets _ (be_value3_range x Byte.x00 Byte.x00)) as E. destruct (low_sextets x Byte.x00) as [E0 E6]. rewrite E0, E6 in E.
    cbv zeta. rewrite E. by destruct (octets x Byte.x00 Byte.x00) as (-> & _).
  - change (b64_value b64_pad) with (@None Z). rewrite byte_eqb_refl, bytes_eqb_refl. cbn [andb].
    pose proof (quantum_sextets _ (be_value3_range x y Byte.x00)) as E. destruct (low_sextets x y) as [E0 _]. rewrite E0 in E.
    cbv zeta. rewrite E. by destruct (octets x y Byte.x00) as (-> & -> & _).
  - cbv zeta. rewrite quantum_sextets by apply be_value3_range. destruct (octets x y z) as (-> & -> & ->). by rewrite IH.
Qed.

Lemma b64_encode_text : forall b, Forall (fun c => c <> Byte.x0a /\ c <> Byte.x0d) (b64_encode b).
Proof.
  fix IH 1. intros [|x [|y [|z b]]]; [constructor| | |]; cbn [b64_encode]; cbv zeta;
    repeat (apply Forall_cons; split; [first [apply b64_digit_text, sextet_range|split; discriminate]|]); [constructor..|apply IH].
Qed.

Lemma b64_roundtrip b : b64_decode (b64_encode b) = Ret b.
Proof.
  unfold b64_decode. rewrite <- (b64_quads_encode b) at 1. f_equal. pose proof (b64_encode_text b) as Ht.
  induction Ht as [|c l Hc _ IH]; [done|]. rewrite filter_cons_True by done. by rewrite IH.
Qed.
