(* ===== verification/Fsm.v ===== *)
(** The replicated state machine (src/pkg/kvfsm): log-entry framing
    (fsm_encoding.go), list caps, group names, command specs and the command
    ACL (fsm_acl.go), cascading deletes (fsm_cascade.go) and [Apply] (fsm.go).

    [Apply] returns an [ApplyResult]; [Ret v] stands for
    [ApplyResult{Value: v}] and [Fail e] for [ApplyResult{Err: e}]. *)

From S2P Require Import Prelude Store StoreLogic SystemKeys Payloads LogRecord Txn.
#[local] Open Scope Z_scope.

(** * Log-entry framing *)

Definition OpSet : byte := Byte.x01.
Definition OpDel : byte := Byte.x02.
Definition OpConfirm : byte := Byte.x03.
Definition OpCascadeDelete : byte := Byte.x04.
Definition OpConsumeInvite : byte := Byte.x05.
Definition OpConsumeExecInvite : byte := Byte.x06.
Definition OpAppendCommandRequest : byte := Byte.x07.
Definition OpTxn : byte := Byte.x08.

(** [PutUint32(buf, uint32(n))] keeps the low 32 bits. *)
Definition EncodeCommand (op : byte) (key value : bytes) : bytes :=
  [op] ++ be_bytes 4 (u32 (blen key)) ++ key ++ be_bytes 4 (u32 (blen value)) ++ value.

Definition decodeCommand (data : bytes) : gores (byte * bytes * bytes) :=
  if blen data <? 5 then Fail (Errorf "kvfsm: command too short") else
  op ← idx data 0;
  klen ← read_be data 1 5;
  rest ← slice_from data 5;
  if u32 (blen rest) <? klen then Fail (Errorf "kvfsm: truncated key") else
  key ← slice data 5 (5 + klen);
  let off := 5 + klen in
  rest ← slice_from data off;
  if blen rest <? 4 then Fail (Errorf "kvfsm: missing value length") else
  vlen ← read_be data off (off + 4);
  let off := off + 4 in
  rest ← slice_from data off;
  if u32 (blen rest) <? vlen then Fail (Errorf "kvfsm: truncated value") else
  value ← slice data off (off + vlen);
  Ret (op, key, value).

(** * Validation and access control *)

Definition maxSystemListEntries : Z := 65000.

Definition systemListLimits (kind : byte) : option Z :=
  if byte_eqb kind KindGroup then Some 200
  else if byte_eqb kind KindCommand then Some 2000
  else if byte_eqb kind KindBootstrapNode then Some 50
  else None.

Definition systemKeyPrefixLen : Z := 3.

(** The guards [len(key) < systemKeyPrefixLen || key[0] != SystemKeyPrefix], negated, ... *)
Definition isSystemKey (key : bytes) : gores bool :=
  if blen key <? systemKeyPrefixLen then Ret false else
  k0 ← idx key 0; Ret (byte_eqb k0 SystemKeyPrefix).

(** ... and with [|| key[1] != kind]. *)
Definition isSystemKeyOf (kind : byte) (key : bytes) : gores bool :=
  sys ← isSystemKey key;
  if (sys : bool) then k1 ← idx key 1; Ret (byte_eqb k1 kind) else Ret false.

Section Validation.
Context (s : Accessor).

Definition checkSystemListCap (key : bytes) : M unit :=
  sys ← liftG (isSystemKey key);
  if negb sys then mret tt else
  existing ← lookup_key s key;
  match existing with
  | Some _ => mret tt
  | None =>
    prefix ← liftG (slice key 0 systemKeyPrefixLen);
    kind ← liftG (idx key 1);
    let limit := default maxSystemListEntries (systemListLimits kind) in
    count ← countPrefix s prefix;
    if limit <=? count then liftG (Fail (Errorf "kvfsm: system list %x is at capacity (%d entries)"))
    else mret tt
  end.

(** The loop of [checkGroupNameUnique] over the listed groups. *)
Fixpoint noOtherGroupNamed (key name : bytes) (matches : list row) : gores unit :=
  match matches with
  | [] => Ret tt
  | (k, v) :: matches' =>
    if bytes_eqb k key then noOtherGroupNamed key name matches' else
    '(existingName, _) ← DecodeGroupPayload v;
    if bytes_eqb existingName name then Fail (Errorf "kvfsm: group name %q already used by another group")
    else noOtherGroupNamed key name matches'
  end.

Definition checkGroupNameUnique (key value : bytes) : M unit :=
  isGroup ← liftG (isSystemKeyOf KindGroup key);
  if negb isGroup then mret tt else
  '(name, _) ← liftG (DecodeGroupPayload value);
  let '(lo, hi) := GroupKeyBounds in
  matches ← scanRange s lo hi 0;
  liftG (noOtherGroupNamed key name matches).

(** What to store once the previous record is known. *)
Definition mergeSpec (value existing : bytes) : gores bytes :=
  match DecodeCommandPayloadSpec existing with
  | Panic => Panic
  | Fail _ => Ret value
  | Ret oldSpec =>
    let oldSpec := default [] oldSpec in
    if blen oldSpec =? 0 then Ret value else
    '(name, peerID) ← wrap_err "kvfsm: command spec: decode incoming: %w" (DecodeCommandPayload value);
    wrap_err "kvfsm: command spec: re-encode: %w" (EncodeCommandPayloadWithSpec name peerID oldSpec)
  end.

Definition preserveCommandSpec (key value : bytes) : M bytes :=
  isCommand ← liftG (isSystemKeyOf KindCommand key);
  if negb isCommand then mret value else
  spec ← liftG (wrap_err "kvfsm: command spec: %w" (DecodeCommandPayloadSpec value));
  match spec with
  | Some _ => mret value
  | None =>
    existing ← wrapM "kvfsm: command spec: read existing: %w" (lookup_key s key);
    match existing with
    | None => mret value
    | Some existing => liftG (mergeSpec value existing)
    end
  end.

(** [if v, err := s.Get(GroupKey(id)); err == nil { if _, public, err := Decode(v); err == nil && public ...] *)
Definition isPublicGroup (groupID : bytes) : M bool :=
  r ← try (get s (GroupKey groupID));
  match r with
  | inr _ => mret false
  | inl groupValue =>
    match DecodeGroupPayload groupValue with
    | Ret (_, public) => mret public
    | Fail _ => mret false
    | Panic => liftG Panic
    end
  end.

Fixpoint anyGroupPermits (peerID : bytes) (matches : list row) : M bool :=
  match matches with
  | [] => mret false
  | (k, _) :: matches' =>
    '(_, groupID) ← liftG (ParseGroupCommandKey k);
    public ← isPublicGroup groupID;
    if (public : bool) then mret true else
    peerGroupKey ← liftG (PeerGroupKey peerID groupID);
    member ← hasKey s peerGroupKey;
    if (member : bool) then mret true else anyGroupPermits peerID matches'
  end.

Definition IsPermittedForCommand (commandID peerID : bytes) : M bool :=
  prefix ← liftG (GroupCommandKey commandID []);
  matches ← scanPrefix s prefix 0;
  anyGroupPermits peerID matches.

Definition grantChannelRelayAccess (peerID : bytes) : M unit :=
  foreach [ReservedGroupChannel; ReservedGroupRelay] (fun groupID =>
    key ← liftG (PeerGroupKey peerID groupID);
    set s key []).

(** * Cascading deletes *)

Definition deleteRelationsByGroupID (prefix groupID : bytes) (parse : bytes -> gores (bytes * bytes)) : M unit :=
  matches ← scanPrefix s prefix 0;
  foreach matches (fun m : row =>
    '(_, matchGroupID) ← liftG (parse m.1);
    if negb (bytes_eqb matchGroupID groupID) then mret tt else del s m.1).

Definition applyCascadeDelete (key : bytes) : M unit :=
  sys ← liftG (isSystemKey key);
  if negb sys then liftG (Fail (Errorf "kvfsm: cascade delete: not a system key")) else
  kind ← liftG (idx key 1);
  if byte_eqb kind KindCommand then
    commandID ← liftG (slice_from key systemKeyPrefixLen);
    prefix ← liftG (GroupCommandKey commandID []);
    matches ← scanPrefix s prefix 0;
    _ ← foreach matches (fun m : row => del s m.1);
    del s key
  else if byte_eqb kind KindGroup then
    groupID ← liftG (slice_from key systemKeyPrefixLen);
    _ ← deleteRelationsByGroupID AllGroupCommandsPrefix groupID ParseGroupCommandKey;
    _ ← deleteRelationsByGroupID AllPeerGroupsPrefix groupID ParsePeerGroupKey;
    del s key
  else liftG (Fail (Errorf "kvfsm: cascade delete: unsupported kind %d")).
End Validation.

(** * Apply *)

(** The fields of [raft.Log] that [Apply] reads; [AppendedAt] in Unix seconds. *)
Record Log : Type := mkLog {
  Data : bytes;
  AppendedAt : Z;
}.

(** Calls whose [ApplyResult] carries only an error. *)
Definition noValue (m : M unit) : M bytes := _ ← m; mret [].

Definition applySet (key value : bytes) : M bytes :=
  _ ← checkSystemListCap Store key;
  _ ← checkGroupNameUnique Store key value;
  value' ← preserveCommandSpec Store key value;
  noValue (set Store key value').

Definition applyDel (key : bytes) : M bytes := noValue (del Store key).

Definition applyConfirm (key value : bytes) : M bytes :=
  v ← wrapM "kvfsm: confirm: no pending record at key: %w" (get Store key);
  _ ← checkSystemListCap Store value;
  noValue (WithTx (_ ← set Tx value v; del Tx key)).

Definition applyCascade (key : bytes) : M bytes := noValue (WithTx (applyCascadeDelete Tx key)).

Definition applyConsumeInvite (key : bytes) : M bytes :=
  v ← wrapM "kvfsm: consume invite: no such invite: %w" (get Store key);
  _ ← del Store key;
  mret v.

(** [expiresAtUnix != 0 && uint64(l.AppendedAt.Unix()) >= expiresAtUnix] *)
Definition expired (expiresAtUnix appendedAt : Z) : bool :=
  negb (expiresAtUnix =? 0) && (expiresAtUnix <=? u64 appendedAt).

Definition applyConsumeExecInvite (appendedAt : Z) (key value : bytes) : M bytes :=
  v ← wrapM "kvfsm: consume exec invite: no such invite: %w" (get Store key);
  '(commandID, _, expiresAtUnix) ←
    liftG (wrap_err "kvfsm: consume exec invite: decode record: %w" (DecodeExecInviteRecord v));
  if expired expiresAtUnix appendedAt then
    _ ← del Store key;
    liftG (Fail (Errorf "kvfsm: consume exec invite: token expired"))
  else
  permitted ← wrapM "kvfsm: consume exec invite: acl check: %w" (IsPermittedForCommand Store commandID value);
  if negb (permitted : bool)
  then liftG (Fail (Errorf "kvfsm: consume exec invite: %s is not permitted for command %s")) else
  _ ← del Store key;
  mret v.

Definition writeCommandRequest (key recordValue commandID authorPeerID : bytes) : M unit :=
  _ ← set Tx key recordValue;
  if bytes_eqb commandID DefaultPublicCommandID
  then wrapM "kvfsm: grant channel/relay access to %s: %w" (grantChannelRelayAccess Tx authorPeerID)
  else mret tt.

Definition applyAppendCommandRequest (key value : bytes) : M bytes :=
  '(authorPeerID, recordValue) ←
    liftG (wrap_err "kvfsm: append command request: decode payload: %w" (DecodeCommandRequestApplyPayload value));
  '(kind, _, _) ← liftG (wrap_err "kvfsm: append command request: parse key: %w" (ParseKey key));
  match ParseCommandRequestLogKind kind with
  | None => liftG (Fail (Errorf "kvfsm: append command request: kind %q is not a command-request kind"))
  | Some commandID =>
    permitted ← wrapM "kvfsm: append command request: acl check: %w"
                  (IsPermittedForCommand Store commandID authorPeerID);
    if negb (permitted : bool)
    then liftG (Fail (Errorf "kvfsm: %s is not permitted to submit command %s")) else
    _ ← checkSystemListCap Store key;
    noValue (WithTx (writeCommandRequest key recordValue commandID authorPeerID))
  end.

(** The first loop of the transaction case. *)
Fixpoint validOps (ops : list TxnOpSpec) : gores unit :=
  match ops with
  | [] => Ret tt
  | op :: ops' =>
    if negb (ValidTxnOp (Op op)) then Fail (Errorf "kvfsm: txn: op %d has unknown kind %d") else validOps ops'
  end.

(** One precondition, against the committed table. *)
Definition checkCompare (op : TxnOpSpec) : M unit :=
  if negb (IsCompare op) then mret tt else
  current ← wrapM "kvfsm: txn: op %d: read key %q: %w" (lookup_key Store (Key op));
  if byte_eqb (Op op) TxnOpCompareAbsent then
    match current with
    | Some _ => liftG (Fail (Wrapf "%w: op %d: key %q exists" ErrCompareFailed))
    | None => mret tt
    end
  else
    match current with
    | None => liftG (Fail (Wrapf "%w: op %d: key %q does not exist" ErrCompareFailed))
    | Some v =>
      if bytes_eqb v (Value op) then mret tt
      else liftG (Fail (Wrapf "%w: op %d: key %q holds a different value" ErrCompareFailed))
    end.

(** One write, inside the transaction. *)
Definition writeOp (op : TxnOpSpec) : M unit :=
  if IsCompare op then mret tt else
  wrapM "kvfsm: txn: op on key %x: %w"
    (if byte_eqb (Op op) TxnOpSet then set Tx (Key op) (Value op) else del Tx (Key op)).

Definition applyTxn (value : bytes) : M bytes :=
  ops ← liftG (wrap_err "kvfsm: txn: decode payload: %w" (DecodeTxnPayload value));
  _ ← liftG (validOps ops);
  _ ← foreach ops checkCompare;
  noValue (WithTx (foreach ops writeOp)).

Definition Apply (l : Log) : M bytes :=
  '(op, key, value) ← liftG (decodeCommand (Data l));
  if byte_eqb op OpSet then applySet key value
  else if byte_eqb op OpDel then applyDel key
  else if byte_eqb op OpConfirm then applyConfirm key value
  else if byte_eqb op OpCascadeDelete then applyCascade key
  else if byte_eqb op OpConsumeInvite then applyConsumeInvite key
  else if byte_eqb op OpConsumeExecInvite then applyConsumeExecInvite (AppendedAt l) key value
  else if byte_eqb op OpAppendCommandRequest then applyAppendCommandRequest key value
  else if byte_eqb op OpTxn then applyTxn value
  else liftG (Fail (Errorf "kvfsm: unknown op %d")).
