(* ===== verification/FsmSpec.v ===== *)
(** The specification of the state machine: one pure function from tables to
    tables and results per operation, and the proof that [Apply] refines it
    under every schedule of database faults.

    Interrupted or not, an entry either does exactly what the specification
    says or returns an error and leaves the committed table as it was. *)

From S2P Require Import Prelude Store StoreLogic SystemKeys Payloads LogRecord Txn Fsm.
#[local] Open Scope Z_scope.

(** * Pure reads *)

Definition list_limit (kind : byte) : Z := default maxSystemListEntries (systemListLimits kind).

Definition listCap (key : bytes) (t : table) : gores unit :=
  sys ← isSystemKey key;
  if negb sys then Ret tt else
  match t !! key with
  | Some _ => Ret tt
  | None =>
    prefix ← slice key 0 systemKeyPrefixLen;
    kind ← idx key 1;
    if list_limit kind <=? blen (select (in_prefix_range prefix) t)
    then Fail (Errorf "kvfsm: system list %x is at capacity (%d entries)") else Ret tt
  end.

Definition groupNameFree (key value : bytes) (t : table) : gores unit :=
  isGroup ← isSystemKeyOf KindGroup key;
  if negb isGroup then Ret tt else
  '(name, _) ← DecodeGroupPayload value;
  noOtherGroupNamed key name (select (in_range GroupKeyBounds.1 GroupKeyBounds.2) t).

Definition storedValue (key value : bytes) (t : table) : gores bytes :=
  isCommand ← isSystemKeyOf KindCommand key;
  if negb isCommand then Ret value else
  spec ← wrap_err "kvfsm: command spec: %w" (DecodeCommandPayloadSpec value);
  match spec with
  | Some _ => Ret value
  | None => match t !! key with None => Ret value | Some existing => mergeSpec value existing end
  end.

Definition publicGroup (t : table) (groupID : bytes) : bool :=
  match t !! GroupKey groupID with
  | Some v => match DecodeGroupPayload v with Ret (_, public) => public | _ => false end
  | None => false
  end.

Fixpoint anyPermits (t : table) (peerID : bytes) (matches : list row) : gores bool :=
  match matches with
  | [] => Ret false
  | (k, _) :: matches' =>
    '(_, groupID) ← ParseGroupCommandKey k;
    if publicGroup t groupID then Ret true else
    peerGroupKey ← PeerGroupKey peerID groupID;
    if bool_decide (is_Some (t !! peerGroupKey)) then Ret true else anyPermits t peerID matches'
  end.

Definition permitted (commandID peerID : bytes) (t : table) : gores bool :=
  prefix ← GroupCommandKey commandID [];
  anyPermits t peerID (select (in_prefix_range prefix) t).

(** A compare of a transaction holds in a table. *)
Definition compareHolds (t : table) (op : TxnOpSpec) : bool :=
  if byte_eqb (Op op) TxnOpCompareAbsent then bool_decide (t !! Key op = None)
  else if byte_eqb (Op op) TxnOpCompare then bool_decide (t !! Key op = Some (Value op))
  else true.

(** * Pure steps *)

Definition specApplySet (key value : bytes) : spec bytes := fun t =>
  guard (listCap key t) t (fun _ =>
  guard (groupNameFree key value t) t (fun _ =>
  guard (storedValue key value t) t (fun v =>
  (<[key := v]> t, Ret [])))).

Definition specConfirm (key value : bytes) : spec bytes := fun t =>
  match t !! key with
  | None => (t, Fail (Wrapf "kvfsm: confirm: no pending record at key: %w" ErrNotFound))
  | Some v => guard (listCap value t) t (fun _ => (delete key (<[value := v]> t), Ret []))
  end.

(** The relations a cascade removes. *)
Fixpoint deleteKeys (l : list row) (t : table) : table :=
  match l with
  | [] => t
  | r :: l' => deleteKeys l' (delete r.1 t)
  end.

Fixpoint deleteMatching (parse : bytes -> gores (bytes * bytes)) (groupID : bytes) (l : list row) (t : table)
  : table * gores unit :=
  match l with
  | [] => (t, Ret tt)
  | r :: l' =>
    guard (parse r.1) t (fun p =>
      deleteMatching parse groupID l' (if bytes_eqb p.2 groupID then delete r.1 t else t))
  end.

Definition specCascade (key : bytes) : spec unit := fun t =>
  guard (isSystemKey key) t (fun sys =>
  if negb sys then (t, Fail (Errorf "kvfsm: cascade delete: not a system key")) else
  guard (idx key 1) t (fun kind =>
  if byte_eqb kind KindCommand then
    guard (slice_from key systemKeyPrefixLen) t (fun commandID =>
    guard (GroupCommandKey commandID []) t (fun prefix =>
    (delete key (deleteKeys (select (in_prefix_range prefix) t) t), Ret tt)))
  else if byte_eqb kind KindGroup then
    guard (slice_from key systemKeyPrefixLen) t (fun groupID =>
    let '(t1, r1) := deleteMatching ParseGroupCommandKey groupID (select (in_prefix_range AllGroupCommandsPrefix) t) t in
    guard r1 t1 (fun _ =>
    let '(t2, r2) := deleteMatching ParsePeerGroupKey groupID (select (in_prefix_range AllPeerGroupsPrefix) t1) t1 in
    guard r2 t2 (fun _ => (delete key t2, Ret tt))))
  else (t, Fail (Errorf "kvfsm: cascade delete: unsupported kind %d")))).

Definition specConsumeInvite (key : bytes) : spec bytes := fun t =>
  match t !! key with
  | None => (t, Fail (Wrapf "kvfsm: consume invite: no such invite: %w" ErrNotFound))
  | Some v => (delete key t, Ret v)
  end.

Definition specConsumeExecInvite (appendedAt : Z) (key value : bytes) : spec bytes := fun t =>
  match t !! key with
  | None => (t, Fail (Wrapf "kvfsm: consume exec invite: no such invite: %w" ErrNotFound))
  | Some v =>
    guard (wrap_err "kvfsm: consume exec invite: decode record: %w" (DecodeExecInviteRecord v)) t
      (fun '(commandID, _, expiresAtUnix) =>
    if expired expiresAtUnix appendedAt
    then (delete key t, Fail (Errorf "kvfsm: consume exec invite: token expired")) else
    guard (wrap_err "kvfsm: consume exec invite: acl check: %w" (permitted commandID value t)) t (fun ok =>
    if negb ok then (t, Fail (Errorf "kvfsm: consume exec invite: %s is not permitted for command %s"))
    else (delete key t, Ret v)))
  end.

(** The grants that come with the default public command. *)
Definition grantChannelRelay (peerID : bytes) (t : table) : gores table :=
  k1 ← PeerGroupKey peerID ReservedGroupChannel;
  k2 ← PeerGroupKey peerID ReservedGroupRelay;
  Ret (<[k2 := []]> (<[k1 := []]> t)).

Definition specAppendCommandRequest (key value : bytes) : spec bytes := fun t =>
  guard (wrap_err "kvfsm: append command request: decode payload: %w" (DecodeCommandRequestApplyPayload value)) t
    (fun '(authorPeerID, recordValue) =>
  guard (wrap_err "kvfsm: append command request: parse key: %w" (ParseKey key)) t (fun '(kind, _, _) =>
  match ParseCommandRequestLogKind kind with
  | None => (t, Fail (Errorf "kvfsm: append command request: kind %q is not a command-request kind"))
  | Some commandID =>
    guard (wrap_err "kvfsm: append command request: acl check: %w" (permitted commandID authorPeerID t)) t (fun ok =>
    if negb ok then (t, Fail (Errorf "kvfsm: %s is not permitted to submit command %s")) else
    guard (listCap key t) t (fun _ =>
    if bytes_eqb commandID DefaultPublicCommandID
    then guard (wrap_err "kvfsm: grant channel/relay access to %s: %w"
                  (grantChannelRelay authorPeerID (<[key := recordValue]> t))) t (fun t' => (t', Ret []))
    else (<[key := recordValue]> t, Ret [])))
  end)).

(** The error of the first compare that does not hold. *)
Definition compareError (t : table) (op : TxnOpSpec) : gores unit :=
  if negb (IsCompare op) then Ret tt else
  if byte_eqb (Op op) TxnOpCompareAbsent then
    match t !! Key op with
    | Some _ => Fail (Wrapf "%w: op %d: key %q exists" ErrCompareFailed)
    | None => Ret tt
    end
  else
    match t !! Key op with
    | None => Fail (Wrapf "%w: op %d: key %q does not exist" ErrCompareFailed)
    | Some v =>
      if bytes_eqb v (Value op) then Ret tt
      else Fail (Wrapf "%w: op %d: key %q holds a different value" ErrCompareFailed)
    end.

Fixpoint compareErrors (t : table) (ops : list TxnOpSpec) : gores unit :=
  match ops with
  | [] => Ret tt
  | op :: ops' => _ ← compareError t op; compareErrors t ops'
  end.

Definition execOp (t : table) (op : TxnOpSpec) : table :=
  if IsCompare op then t
  else if byte_eqb (Op op) TxnOpSet then <[Key op := Value op]> t
  else delete (Key op) t.

Definition specTxn (value : bytes) : spec bytes := fun t =>
  guard (wrap_err "kvfsm: txn: decode payload: %w" (DecodeTxnPayload value)) t (fun ops =>
  guard (validOps ops) t (fun _ =>
  guard (compareErrors t ops) t (fun _ =>
  (fold_left execOp ops t, Ret [])))).

Definition applySpec (l : Log) : spec bytes := fun t =>
  guard (decodeCommand (Data l)) t (fun '(op, key, value) =>
  if byte_eqb op OpSet then specApplySet key value t
  else if byte_eqb op OpDel then (delete key t, Ret [])
  else if byte_eqb op OpConfirm then specConfirm key value t
  else if byte_eqb op OpCascadeDelete then
    let '(t', r) := keep_on_success t (specCascade key t) in (t', r ≫= fun _ => Ret [])
  else if byte_eqb op OpConsumeInvite then specConsumeInvite key t
  else if byte_eqb op OpConsumeExecInvite then specConsumeExecInvite (AppendedAt l) key value t
  else if byte_eqb op OpAppendCommandRequest then specAppendCommandRequest key value t
  else if byte_eqb op OpTxn then specTxn value t
  else (t, Fail (Errorf "kvfsm: unknown op %d"))).

(** * Refinement: reads *)

Section Refinement.
Implicit Types (t : table) (key value : bytes).

Lemma checkSystemListCap_reads s key : Reads s (checkSystemListCap s key) (listCap key).
Proof.
  intros t. unfold checkSystemListCap, listCap. apply reads_at_bind; [apply reads_at_lift|intros sys _].
  destruct (negb sys); [apply reads_at_lift|].
  refine (reads_at_bind s t _ _ (Ret (t !! key)) (fun o : option bytes => match o with Some _ => Ret tt | None => _ end) _ _);
    [apply reads_lookup_key|intros [v|] _]; [apply reads_at_lift|].
  apply reads_at_bind; [apply reads_at_lift|intros prefix _].
  apply reads_at_bind; [apply reads_at_lift|intros kind _].
  refine (reads_at_bind s t _ _ (Ret _) (fun c => if list_limit kind <=? c then _ else _) _ _);
    [apply reads_countPrefix|intros count _].
  unfold list_limit. destruct (_ <=? count); apply reads_at_lift.
Qed.

Lemma checkGroupNameUnique_reads s key value :
  Reads s (checkGroupNameUnique s key value) (groupNameFree key value).
Proof.
  intros t. unfold checkGroupNameUnique, groupNameFree.
  apply reads_at_bind; [apply reads_at_lift|intros isGroup _].
  destruct (negb isGroup); [apply reads_at_lift|].
  apply reads_at_bind; [apply reads_at_lift|intros [name public] _].
  unfold GroupKeyBounds, keyListBounds. cbn [fst snd].
  refine (reads_at_bind s t _ _ (Ret _) (noOtherGroupNamed key name) _ _); [apply reads_scanRange|intros matches _; apply reads_at_lift].
Qed.

Lemma preserveCommandSpec_reads s key value :
  Reads s (preserveCommandSpec s key value) (storedValue key value).
Proof.
  intros t. unfold preserveCommandSpec, storedValue.
  apply reads_at_bind; [apply reads_at_lift|intros isCommand _].
  destruct (negb isCommand); [apply reads_at_lift|].
  apply reads_at_bind; [apply reads_at_lift|intros [sp|] _]; [apply reads_at_lift|].
  refine (reads_at_bind s t _ _ (wrap_err "kvfsm: command spec: read existing: %w" (Ret (t !! key)))
    (fun o : option bytes => match o with Some e => mergeSpec value e | None => Ret value end) _ _);
    [apply reads_at_wrap, reads_lookup_key|intros [e|] _]; apply reads_at_lift.
Qed.

(** Reading a key whose error the caller ignores. *)
Lemma try_get_at s t k : forall w, view s w = t -> exists w' r, try (get s k) w = (w', Ret r) /\
  committed w' = committed w /\ pending w' = pending w /\ (healthy w -> healthy w') /\
  ((exists v, t !! k = Some v /\ r = inl v) \/ (exists e, r = inr e /\ (t !! k = None \/ ~ healthy w))).
Proof.
  intros w Hw. destruct (reads_get s k t w Hw) as (w' & r & E & Hc & Hp & Hh & H).
  unfold try. rewrite E. destruct H as [->|[Hn Hf]].
  - destruct (t !! k) as [v|]; eexists _, _; (split; [done|]); repeat split; auto; [left|right]; eauto.
  - destruct r as [a|e|]; try done. eexists _, _. split; [done|]. repeat split; auto. right. eauto.
Qed.

Lemma isPublicGroup_gates s t groupID : GatesAt s t (isPublicGroup s groupID) (Ret (publicGroup t groupID)).
Proof.
  intros w Hw. unfold isPublicGroup, mbind, M_bind, publicGroup.
  destruct (try_get_at s t (GroupKey groupID) w Hw) as (w' & r & -> & Hc & Hp & Hh & H).
  destruct H as [(v & -> & ->)|(e & -> & H)].
  - pose proof (DecodeGroupPayload_safe v). destruct (DecodeGroupPayload v) as [[name p]|e|];
      [| |done]; eexists _, _; (split; [done|]); auto 10.
  - eexists _, _. split; [done|]. repeat split; auto. destruct H as [->|Hn]; auto.
Qed.

Lemma hasKey_gates s t k : GatesAt s t (hasKey s k) (Ret (bool_decide (is_Some (t !! k)))).
Proof.
  intros w Hw. unfold hasKey, mbind, M_bind.
  destruct (try_get_at s t k w Hw) as (w' & r & -> & Hc & Hp & Hh & H).
  eexists _, _. split; [done|]. repeat split; auto.
  destruct H as [(v & -> & ->)|(e & -> & [->|Hn])]; [left|left|right; auto]; done.
Qed.

(** One sufficient condition, then the rest. *)
Lemma gates_at_or s t (m k : M bool) (b : bool) (r : gores bool) :
  no_panic r -> GatesAt s t m (Ret b) -> GatesAt s t k r ->
  GatesAt s t (m ≫= fun b : bool => if b then mret true else k) (if b then Ret true else r).
Proof.
  intros Hr Hm Hk w Hw. unfold mbind, M_bind.
  destruct (Hm w Hw) as (w1 & r1 & -> & Hc & Hp & Hh & H).
  destruct (Hk w1) as (w2 & r2 & Ek & Hc2 & Hp2 & Hh2 & H2); [by rewrite (view_ext s w w1 Hc Hp)|].
  destruct H as [->|[Hn [Hf| ->]]].
  - destruct b; [eexists _, _; split; [done|]; auto 10|]. rewrite Ek.
    eexists _, _. split; [done|]. repeat split; [congruence..|tauto|]. tauto.
  - destruct r1; try done. eexists _, _. split; [done|]. auto 10.
  - rewrite Ek. eexists _, _. split; [done|]. repeat split; [congruence..|tauto|].
    destruct H2 as [->|[_ H2]]; [|tauto]. destruct b; [|tauto].
    destruct r as [[|]|e|]; [tauto|right; tauto|right; simpl; tauto|done].
Qed.

Lemma anyPermits_safe t peerID matches : no_panic (anyPermits t peerID matches).
Proof.
  induction matches as [|[k v] matches IH]; cbn [anyPermits]; [done|].
  apply no_panic_bind; [apply parse_relation_safe|intros [c g] _]. destruct (publicGroup t g); [done|].
  apply no_panic_bind; [unfold PeerGroupKey; by destruct (_ <? _)|intros pk _]. by destruct (bool_decide _).
Qed.

Lemma anyGroupPermits_gates s t peerID matches :
  GatesAt s t (anyGroupPermits s peerID matches) (anyPermits t peerID matches).
Proof.
  induction matches as [|[k v] matches IH]; cbn [anyGroupPermits anyPermits]; [apply reads_gates, reads_at_lift|].
  apply gates_at_bind; [apply reads_at_lift|intros [c groupID] _].
  apply gates_at_or; [|apply isPublicGroup_gates|].
  - apply no_panic_bind; [unfold PeerGroupKey; by destruct (_ <? _)|intros pk _].
    destruct (bool_decide _); [done|apply anyPermits_safe].
  - apply gates_at_bind; [apply reads_at_lift|intros pk _].
    apply gates_at_or; [apply anyPermits_safe|apply hasKey_gates|apply IH].
Qed.

Lemma IsPermittedForCommand_gates s t commandID peerID :
  GatesAt s t (IsPermittedForCommand s commandID peerID) (permitted commandID peerID t).
Proof.
  unfold IsPermittedForCommand, permitted. apply gates_at_bind; [apply reads_at_lift|intros prefix _].
  refine (gates_at_bind s t _ _ (Ret _) (anyPermits t peerID) _ _); [apply reads_scanPrefix|].
  intros matches _. apply anyGroupPermits_gates.
Qed.

(** * Refinement: steps *)

Lemma then_refines t (m : M unit) (r : gores bytes) t' :
  RefinesAt t m (t', Ret tt) -> RefinesAt t (m ≫= fun _ => liftG r) (t', r).
Proof. intros H. exact (refines_at_then t m (fun _ => r) _ H). Qed.

Lemma noValue_refines t (m : M unit) t' : RefinesAt t m (t', Ret tt) -> RefinesAt t (noValue m) (t', Ret []).
Proof. apply then_refines. Qed.

Lemma WithTx_refines t fn t' : StepsAt t fn (t', Ret tt) -> RefinesAt t (WithTx fn) (t', Ret tt).
Proof. intros H. exact (refines_at_WithTx t fn _ H). Qed.

Lemma applySet_refines key value : Refines (applySet key value) (specApplySet key value).
Proof.
  intros t. unfold applySet, specApplySet.
  apply refines_at_read; [apply checkSystemListCap_reads|intros [] _].
  apply refines_at_read; [apply checkGroupNameUnique_reads|intros [] _].
  apply refines_at_read; [apply preserveCommandSpec_reads|intros v _].
  apply noValue_refines, refines_set.
Qed.

Lemma applyDel_refines key : Refines (applyDel key) (fun t => (delete key t, Ret [])).
Proof. intros t. apply noValue_refines, refines_del. Qed.

Lemma applyConfirm_refines key value : Refines (applyConfirm key value) (specConfirm key value).
Proof.
  intros t. unfold applyConfirm, specConfirm.
  assert (forall r, ReadsAt Store t (get Store key) r ->
    RefinesAt t (applyConfirm key value)
      (guard (wrap_err "kvfsm: confirm: no pending record at key: %w" r) t (fun v =>
         guard (listCap value t) t (fun _ => (delete key (<[value := v]> t), Ret []))))) as H.
  { intros r Hr. apply refines_at_read; [by apply reads_at_wrap|intros v _].
    apply refines_at_read; [apply checkSystemListCap_reads|intros [] _].
    apply noValue_refines, WithTx_refines.
    apply (steps_at_bind t _ _ (spec_set value v t) (fun _ => spec_del key (<[value := v]> t)));
      [apply steps_set|intros _ _; apply steps_del]. }
  specialize (H _ (reads_get Store key t)). by destruct (t !! key).
Qed.

Lemma deleteKeys_steps l t :
  StepsAt t (foreach l (fun m : row => del Tx m.1)) (deleteKeys l t, Ret tt).
Proof.
  revert t. induction l as [|r l IH]; intros t; cbn [foreach deleteKeys]; [apply steps_at_lift|].
  apply (steps_at_bind t _ _ (spec_del r.1 t) (fun _ => (deleteKeys l (delete r.1 t), Ret tt)));
    [apply steps_del|intros _ _; apply IH].
Qed.

Lemma deleteMatching_steps parse groupID l t :
  StepsAt t (foreach l (fun m : row =>
    '(_, g) ← liftG (parse m.1); if negb (bytes_eqb g groupID) then mret tt else del Tx m.1))
    (deleteMatching parse groupID l t).
Proof.
  revert t. induction l as [|r l IH]; intros t; cbn [foreach deleteMatching]; [apply steps_at_lift|].
  pose (q := guard (parse r.1) t (fun p => (if bytes_eqb p.2 groupID then delete r.1 t else t, Ret tt : gores unit))).
  assert (StepsAt t ('(_, g) ← liftG (parse r.1); if negb (bytes_eqb g groupID) then mret tt else del Tx r.1) q) as Hone.
  { apply (steps_at_bind t _ _ (t, parse r.1)); [apply steps_at_lift|intros [c g] _]. cbn [fst snd].
    destruct (bytes_eqb g groupID); [apply steps_del|apply steps_at_lift]. }
  pose proof (steps_at_bind t _ (fun _ => foreach l _) q
    (fun _ => deleteMatching parse groupID l q.1) Hone (fun _ _ => IH q.1)) as H.
  unfold q, guard in H |- *. destruct (parse r.1) as [p|e|]; exact H.
Qed.

Lemma deleteRelations_steps prefix groupID parse t :
  StepsAt t (deleteRelationsByGroupID Tx prefix groupID parse)
    (deleteMatching parse groupID (select (in_prefix_range prefix) t) t).
Proof.
  apply (steps_at_read t _ _ (Ret (select (in_prefix_range prefix) t))
    (fun matches => deleteMatching parse groupID matches t));
    [apply reads_scanPrefix|intros matches _; apply deleteMatching_steps].
Qed.

Lemma applyCascadeDelete_steps key : TxSteps (applyCascadeDelete Tx key) (specCascade key).
Proof.
  intros t. unfold applyCascadeDelete, specCascade.
  apply steps_at_read; [apply reads_at_lift|intros sys _]. destruct (negb sys); [apply steps_at_lift|].
  apply steps_at_read; [apply reads_at_lift|intros kind _].
  destruct (byte_eqb kind KindCommand); [|destruct (byte_eqb kind KindGroup); [|apply steps_at_lift]].
  - apply steps_at_read; [apply reads_at_lift|intros commandID _].
    apply steps_at_read; [apply reads_at_lift|intros prefix _].
    apply (steps_at_read t _ _ (Ret (select (in_prefix_range prefix) t))
      (fun l => (delete key (deleteKeys l t), Ret tt))); [apply reads_scanPrefix|intros l _].
    apply (steps_at_bind t _ _ (deleteKeys l t, Ret tt) (fun _ => spec_del key (deleteKeys l t)));
      [apply deleteKeys_steps|intros _ _; apply steps_del].
  - apply steps_at_read; [apply reads_at_lift|intros groupID _].
    pose proof (deleteRelations_steps AllGroupCommandsPrefix groupID ParseGroupCommandKey t) as H1.
    destruct (deleteMatching ParseGroupCommandKey groupID _ t) as [t1 r1].
    apply (steps_at_bind t _ _ (t1, r1)); [exact H1|intros [] _]. cbn [fst snd].
    pose proof (deleteRelations_steps AllPeerGroupsPrefix groupID ParsePeerGroupKey t1) as H2.
    destruct (deleteMatching ParsePeerGroupKey groupID _ t1) as [t2 r2].
    apply (steps_at_bind t1 _ _ (t2, r2)); [exact H2|intros [] _]. apply steps_del.
Qed.

Lemma applyConsumeInvite_refines key : Refines (applyConsumeInvite key) (specConsumeInvite key).
Proof.
  intros t. unfold specConsumeInvite.
  assert (forall r, ReadsAt Store t (get Store key) r ->
    RefinesAt t (applyConsumeInvite key)
      (guard (wrap_err "kvfsm: consume invite: no such invite: %w" r) t (fun v => (delete key t, Ret v)))) as H.
  { intros r Hr. apply refines_at_read; [by apply reads_at_wrap|intros v _].
    apply then_refines, refines_del. }
  specialize (H _ (reads_get Store key t)). by destruct (t !! key).
Qed.

Lemma applyConsumeExecInvite_refines appendedAt key value :
  Refines (applyConsumeExecInvite appendedAt key value) (specConsumeExecInvite appendedAt key value).
Proof.
  intros t. unfold specConsumeExecInvite.
  assert (forall r, ReadsAt Store t (get Store key) r ->
    RefinesAt t (applyConsumeExecInvite appendedAt key value)
      (guard (wrap_err "kvfsm: consume exec invite: no such invite: %w" r) t (fun v =>
       guard (wrap_err "kvfsm: consume exec invite: decode record: %w" (DecodeExecInviteRecord v)) t
        (fun '(commandID, _, expiresAtUnix) =>
       if expired expiresAtUnix appendedAt
       then (delete key t, Fail (Errorf "kvfsm: consume exec invite: token expired")) else
       guard (wrap_err "kvfsm: consume exec invite: acl check: %w" (permitted commandID value t)) t (fun ok =>
       if negb ok then (t, Fail (Errorf "kvfsm: consume exec invite: %s is not permitted for command %s"))
       else (delete key t, Ret v)))))) as H.
  { intros r Hr. apply refines_at_read; [by apply reads_at_wrap|intros v _].
    apply refines_at_read; [apply reads_at_lift|intros [[commandID inputs] expiresAtUnix] _].
    destruct (expired expiresAtUnix appendedAt).
    - apply then_refines, refines_del.
    - apply refines_at_gate; [apply gates_at_wrap, IsPermittedForCommand_gates|intros _].
      apply then_refines, refines_del. }
  specialize (H _ (reads_get Store key t)). by destruct (t !! key).
Qed.

Lemma steps_at_wrap t fmt (m : M unit) q : StepsAt t m q -> StepsAt t (wrapM fmt m) (q.1, wrap_err fmt q.2).
Proof.
  intros Hm w Hw. unfold wrapM. destruct (Hm w Hw) as (w1 & r1 & -> & Hc & Hh & H).
  eexists _, _. split; [done|]. repeat split; auto.
  destruct H as [(t' & Ht' & <-)|[Hn Hf]]; [left; eauto|right]. split; [done|]. by destruct r1.
Qed.

Lemma grantChannelRelayAccess_steps peerID t :
  exists q, StepsAt t (grantChannelRelayAccess Tx peerID) q /\
    match grantChannelRelay peerID t with Ret t' => q = (t', Ret tt) | r => q.2 = (r ≫= fun _ => Ret tt) end.
Proof.
  unfold grantChannelRelayAccess, grantChannelRelay. cbn [foreach].
  destruct (decide (blen peerID <= 0xFFFF)) as [Hp|Hp].
  - rewrite !(PeerGroupKey_ok peerID) by done. cbn [mbind gores_bind]. eexists. split; [|done].
    set (k1 := relation_key _ _ ReservedGroupChannel). set (k2 := relation_key _ _ ReservedGroupRelay).
    refine (steps_at_bind t _ _ (spec_set k1 [] t) (fun _ => (<[k2:=[]]> (<[k1:=[]]> t), Ret tt)) _ _);
      [|intros _ _].
    { exact (steps_at_read t _ _ (Ret k1) (fun k => spec_set k [] t) (reads_at_lift _ _ _) (fun _ _ => steps_set _ _ _)). }
    refine (steps_at_bind _ _ _ (spec_set k2 [] (<[k1:=[]]> t)) (fun _ => (<[k2:=[]]> (<[k1:=[]]> t), Ret tt)) _ _);
      [|intros _ _; apply steps_at_lift].
    exact (steps_at_read _ _ _ (Ret k2) (fun k => spec_set k [] _) (reads_at_lift _ _ _) (fun _ _ => steps_set _ _ _)).
  - assert (forall g, PeerGroupKey peerID g = Fail (Errorf "shmevent: peer-group peerID too long: %d bytes")) as HF.
    { intros g. unfold PeerGroupKey. destruct (Z.ltb_spec 0xFFFF (blen peerID)); [done|lia]. }
    rewrite !HF. cbn [mbind gores_bind]. eexists (t, Fail _). split; [|reflexivity].
    refine (steps_at_bind t _ _ (t, Fail _) (fun _ => (t, Panic)) _ _); [|done].
    exact (steps_at_read t _ _ (Fail _) (fun k => spec_set k [] t) (reads_at_lift _ _ _) (fun _ _ => steps_set _ _ _)).
Qed.

Lemma writeCommandRequest_refines key recordValue commandID author t :
  RefinesAt t (noValue (WithTx (writeCommandRequest key recordValue commandID author)))
    (if bytes_eqb commandID DefaultPublicCommandID
     then guard (wrap_err "kvfsm: grant channel/relay access to %s: %w"
                   (grantChannelRelay author (<[key := recordValue]> t))) t (fun t' => (t', Ret []))
     else (<[key := recordValue]> t, Ret [])).
Proof.
  unfold writeCommandRequest. destruct (bytes_eqb commandID _).
  - destruct (grantChannelRelayAccess_steps author (<[key:=recordValue]> t)) as (q & Hq & Hspec).
    pose proof (steps_at_bind t _ _ (spec_set key recordValue t) _ (steps_set key recordValue t)
      (fun _ _ => steps_at_wrap _ "kvfsm: grant channel/relay access to %s: %w" _ _ Hq)) as Hbody.
    apply refines_at_WithTx in Hbody. cbn [guard fst snd spec_set] in Hbody.
    pose proof (refines_at_then t _ (fun _ => Ret [] : gores bytes) _ Hbody) as H. unfold keep_on_success in H. cbn [fst snd] in H.
    destruct (grantChannelRelay author _) as [t'|e|]; [rewrite Hspec in H| |]; try exact H;
      (destruct q as [tq rq]; cbn [snd] in *; subst rq; exact H).
  - apply noValue_refines, WithTx_refines.
    exact (steps_at_bind t _ _ (spec_set key recordValue t) (fun _ => (_, Ret tt)) (steps_set key recordValue t)
      (fun _ _ => steps_at_lift _ _)).
Qed.

Lemma applyAppendCommandRequest_refines key value :
  Refines (applyAppendCommandRequest key value) (specAppendCommandRequest key value).
Proof.
  intros t. unfold applyAppendCommandRequest, specAppendCommandRequest.
  apply refines_at_read; [apply reads_at_lift|intros [author recordValue] _].
  apply refines_at_read; [apply reads_at_lift|intros [[kind unitID] ts] _].
  destruct (ParseCommandRequestLogKind kind) as [commandID|]; [|apply refines_at_lift].
  apply refines_at_gate; [apply gates_at_wrap, IsPermittedForCommand_gates|intros _].
  apply refines_at_read; [apply checkSystemListCap_reads|intros [] _].
  apply writeCommandRequest_refines.
Qed.

Lemma checkCompare_reads op : Reads Store (checkCompare op) (fun t => compareError t op).
Proof.
  intros t. unfold checkCompare, compareError. destruct (negb (IsCompare op)); [apply reads_at_lift|].
  pose proof (reads_at_wrap Store t "kvfsm: txn: op %d: read key %q: %w" _ _ (reads_lookup_key Store (Key op) t)) as Hget.
  destruct (byte_eqb (Op op) TxnOpCompareAbsent).
  - refine (reads_at_bind Store t _ _ _ (fun o : option bytes => match o with Some _ => _ | None => _ end) Hget _).
    intros [v|] _; apply reads_at_lift.
  - refine (reads_at_bind Store t _ _ _ (fun o : option bytes => match o with None => _ | Some v => if bytes_eqb v (Value op) then _ else _ end) Hget _).
    intros [v|] _; [destruct (bytes_eqb v (Value op))|]; apply reads_at_lift.
Qed.

Lemma checkCompares_reads ops : Reads Store (foreach ops checkCompare) (fun t => compareErrors t ops).
Proof.
  intros t. induction ops as [|op ops IH]; cbn [foreach compareErrors]; [apply reads_at_lift|].
  apply reads_at_bind; [apply checkCompare_reads|intros [] _; apply IH].
Qed.

Lemma writeOps_steps ops t : StepsAt t (foreach ops writeOp) (fold_left execOp ops t, Ret tt).
Proof.
  revert t. induction ops as [|op ops IH]; intros t; cbn [foreach fold_left]; [apply steps_at_lift|].
  assert (StepsAt t (writeOp op) (execOp t op, Ret tt)) as Hop.
  { unfold writeOp, execOp. destruct (IsCompare op); [apply steps_at_lift|].
    destruct (byte_eqb (Op op) TxnOpSet);
      [exact (steps_at_wrap t _ _ _ (steps_set _ _ t))|exact (steps_at_wrap t _ _ _ (steps_del _ t))]. }
  exact (steps_at_bind t _ _ _ (fun _ => (fold_left execOp ops (execOp t op), Ret tt)) Hop (fun _ _ => IH _)).
Qed.

Lemma applyTxn_refines value : Refines (applyTxn value) (specTxn value).
Proof.
  intros t. unfold applyTxn, specTxn.
  apply refines_at_read; [apply reads_at_lift|intros ops _].
  apply refines_at_read; [apply reads_at_lift|intros [] _].
  apply refines_at_read; [apply checkCompares_reads|intros [] _].
  apply noValue_refines, WithTx_refines, writeOps_steps.
Qed.

Lemma Apply_refines l : Refines (Apply l) (applySpec l).
Proof.
  intros t. unfold Apply, applySpec.
  apply refines_at_read; [apply reads_at_lift|intros [[op key] value] _].
  destruct (byte_eqb op OpSet); [apply applySet_refines|].
  destruct (byte_eqb op OpDel); [apply applyDel_refines|].
  destruct (byte_eqb op OpConfirm); [apply applyConfirm_refines|].
  destruct (byte_eqb op OpCascadeDelete).
  { pose proof (refines_at_WithTx t _ _ (applyCascadeDelete_steps key t)) as H.
    destruct (keep_on_success t (specCascade key t)) as [t' r].
    exact (refines_at_then t _ (fun _ => Ret []) _ H). }
  destruct (byte_eqb op OpConsumeInvite); [apply applyConsumeInvite_refines|].
  destruct (byte_eqb op OpConsumeExecInvite); [apply applyConsumeExecInvite_refines|].
  destruct (byte_eqb op OpAppendCommandRequest); [apply applyAppendCommandRequest_refines|].
  destruct (byte_eqb op OpTxn); [apply applyTxn_refines|apply refines_at_lift].
Qed.
End Refinement.
