(* ===== verification/FsmProps.v ===== *)
(** Properties of the state machine: totality and fault atomicity of [Apply],
    agreement of replicas, the list caps and the uniqueness of group names as
    invariants, what each operation does to the table, and the access rules. *)

From S2P Require Import Prelude Store StoreLogic SystemKeys Payloads LogRecord Txn Fsm FsmSpec.
#[local] Open Scope Z_scope.

(** * Entry framing *)

Lemma decodeCommand_safe data : no_panic (decodeCommand data).
Proof.
  unfold decodeCommand. safe_step; [done|]. do 2 safe_step.
  assert (forall off, 0 <= off <= blen data ->
    exists rest, slice_from data off = Ret rest /\ blen rest = blen data - off) as Hrest.
  { intros off Hoff. destruct (slice_ok data off (blen data)) as (r & E & Hr); [lia..|]. by exists r. }
  destruct (Hrest 5) as (r1 & -> & Hr1); [lia|]. cbn [mbind gores_bind].
  destruct (Z.ltb_spec (u32 (blen r1)) n) as [|Hge1]; [done|].
  assert (forall z, 0 <= z -> u32 z <= z) as Hu32 by (intros z Hz; unfold u32; apply Z.mod_le; lia).
  pose proof (Hu32 (blen r1) (blen_nonneg r1)).
  safe_step. destruct (Hrest (5 + n)) as (r2 & -> & Hr2); [lia|]. cbn [mbind gores_bind].
  safe_step; [done|]. safe_step.
  destruct (Hrest (5 + n + 4)) as (r3 & -> & Hr3); [lia|]. cbn [mbind gores_bind].
  destruct (Z.ltb_spec (u32 (blen r3)) n0) as [|Hge2]; [done|].
  pose proof (Hu32 (blen r3) (blen_nonneg r3)). safe.
Qed.

Lemma decode_EncodeCommand op key value :
  blen key + 4 + blen value < 2 ^ 32 -> decodeCommand (EncodeCommand op key value) = Ret (op, key, value).
Proof.
  intros Hsize. pose proof (blen_nonneg key). pose proof (blen_nonneg value).
  assert (forall z, 0 <= z < 2 ^ 32 -> u32 z = z) as Hu by (intros; unfold u32; by apply Z.mod_small).
  unfold decodeCommand, EncodeCommand. rewrite !(Hu (blen key)), !(Hu (blen value)) by lia.
  repeat first [codec_step | rewrite Hu by lens]. done.
Qed.

(** * Totality *)

Lemma isSystemKey_safe key : no_panic (isSystemKey key).
Proof. unfold isSystemKey, systemKeyPrefixLen. safe. Qed.

Lemma isSystemKey_true key : isSystemKey key = Ret true <-> exists kind status id, key = SystemKey kind status id.
Proof.
  unfold isSystemKey, systemKeyPrefixLen. split.
  - destruct (Z.ltb_spec (blen key) 3); [done|]. intros H'.
    destruct key as [|a [|b [|c r]]]; [exfalso; revert H; unfold blen; cbn; lia..|].
    rewrite idx_hd in H' by done. cbn [mbind gores_bind] in H'. apply (inj Ret) in H'.
    apply byte_eqb_true in H' as ->. by exists b, c, r.
  - intros (kind & status & id & ->). unfold SystemKey. codec. by rewrite byte_eqb_refl.
Qed.

Lemma SystemKey_kind kind status id : idx (SystemKey kind status id) 1 = Ret kind.
Proof. unfold SystemKey. by codec. Qed.

Lemma SystemKey_id kind status id : slice_from (SystemKey kind status id) systemKeyPrefixLen = Ret id.
Proof. unfold SystemKey. by apply slice_from_end. Qed.

Lemma isSystemKeyOf_safe kind key : no_panic (isSystemKeyOf kind key).
Proof.
  unfold isSystemKeyOf. pose proof (isSystemKey_safe key) as Hs.
  destruct (isSystemKey key) as [[|]|e|] eqn:E; cbn [mbind gores_bind]; try done.
  apply isSystemKey_true in E as (k & st & id & ->). unfold SystemKey. codec. done.
Qed.

Lemma isSystemKeyOf_true kind key :
  isSystemKeyOf kind key = Ret true <-> exists status id, key = SystemKey kind status id.
Proof.
  unfold isSystemKeyOf. split.
  - destruct (isSystemKey key) as [[|]|e|] eqn:E; cbn [mbind gores_bind]; try done.
    apply isSystemKey_true in E as (k & st & id & ->). unfold SystemKey. codec.
    intros H%(inj Ret). apply byte_eqb_true in H as ->. by exists st, id.
  - intros (st & id & ->). rewrite (proj2 (isSystemKey_true _)) by (by exists kind, st, id).
    cbn [mbind gores_bind]. unfold SystemKey. codec. by rewrite byte_eqb_refl.
Qed.

Lemma listCap_safe key t : no_panic (listCap key t).
Proof.
  unfold listCap. pose proof (isSystemKey_safe key) as Hs.
  destruct (isSystemKey key) as [[|]|e|] eqn:E; cbn [mbind gores_bind negb]; try done.
  apply isSystemKey_true in E as (k & st & id & ->).
  destruct (t !! _); [done|]. unfold SystemKey, systemKeyPrefixLen. codec. by destruct (_ <=? _).
Qed.

Lemma noOtherGroupNamed_safe key name matches : no_panic (noOtherGroupNamed key name matches).
Proof.
  induction matches as [|[k v] matches IH]; cbn [noOtherGroupNamed]; [done|].
  destruct (bytes_eqb k key); [done|].
  apply no_panic_bind; [apply DecodeGroupPayload_safe|intros [n p] _]. by destruct (bytes_eqb n name).
Qed.

Lemma groupNameFree_safe key value t : no_panic (groupNameFree key value t).
Proof.
  apply no_panic_bind; [apply isSystemKeyOf_safe|intros isGroup _]. destruct (negb isGroup); [done|].
  apply no_panic_bind; [apply DecodeGroupPayload_safe|intros [n p] _]. apply noOtherGroupNamed_safe.
Qed.

Lemma EncodeCommandPayloadWithSpec_safe name peerID spec : no_panic (EncodeCommandPayloadWithSpec name peerID spec).
Proof.
  unfold EncodeCommandPayloadWithSpec, EncodeCommandPayload, checkCommandNameLen.
  destruct (_ =? _), (_ <=? _); cbn; try done. by destruct (_ <? _).
Qed.

Lemma storedValue_safe key value t : no_panic (storedValue key value t).
Proof.
  apply no_panic_bind; [apply isSystemKeyOf_safe|intros isCommand _]. destruct (negb isCommand); [done|].
  apply no_panic_bind; [apply no_panic_wrap, DecodeCommandPayloadSpec_safe|intros [sp|] _]; [done|].
  destruct (t !! key) as [existing|]; [|done]. unfold mergeSpec.
  pose proof (DecodeCommandPayloadSpec_safe existing) as Hs.
  destruct (DecodeCommandPayloadSpec existing) as [old|e|]; try done. destruct (_ =? 0); [done|].
  apply no_panic_bind; [apply no_panic_wrap, DecodeCommandPayload_safe|intros [n p] _].
  apply no_panic_wrap, EncodeCommandPayloadWithSpec_safe.
Qed.

Lemma permitted_safe commandID peerID t : no_panic (permitted commandID peerID t).
Proof.
  apply no_panic_bind; [unfold GroupCommandKey; by destruct (_ <? _)|intros prefix _]. apply anyPermits_safe.
Qed.

Lemma guard_safe {A B : Type} (r : gores A) (t : table) (q : A -> table * gores B) :
  no_panic r -> (forall a, r = Ret a -> no_panic (q a).2) -> no_panic (guard r t q).2.
Proof. destruct r; simpl; auto. Qed.

Lemma deleteMatching_safe parse groupID l t :
  (forall k, no_panic (parse k)) -> no_panic (deleteMatching parse groupID l t).2.
Proof.
  intros Hp. revert t. induction l as [|r l IH]; intros t; cbn [deleteMatching]; [done|].
  apply guard_safe; [done|]. intros p _. apply IH.
Qed.

Lemma specCascade_safe key t : no_panic (specCascade key t).2.
Proof.
  unfold specCascade. apply guard_safe; [apply isSystemKey_safe|intros [|] E]; [|done]. cbn [negb].
  apply isSystemKey_true in E as (k & st & id & ->).
  change (SystemKey k st id) with ([SystemKeyPrefix; k; st] ++ id). unfold systemKeyPrefixLen. codec. cbn [guard].
  destruct (byte_eqb k KindCommand); [|destruct (byte_eqb k KindGroup); [|done]].
  - apply guard_safe; [unfold GroupCommandKey; by destruct (_ <? _)|done].
  - destruct (deleteMatching ParseGroupCommandKey _ _ _) as [t1 r1] eqn:E1.
    apply guard_safe.
    { pose proof (deleteMatching_safe ParseGroupCommandKey id (select (in_prefix_range AllGroupCommandsPrefix) t) t
        (fun k => proj1 (parse_relation_safe k))) as H. by rewrite E1 in H. }
    intros _ _. destruct (deleteMatching ParsePeerGroupKey _ _ _) as [t2 r2] eqn:E2.
    apply guard_safe; [|done].
    pose proof (deleteMatching_safe ParsePeerGroupKey id (select (in_prefix_range AllPeerGroupsPrefix) t1) t1
      (fun k => proj2 (parse_relation_safe k))) as H. by rewrite E2 in H.
Qed.

Lemma validOps_safe ops : no_panic (validOps ops).
Proof. induction ops as [|op ops IH]; cbn [validOps]; [done|]. by destruct (negb _). Qed.

Lemma compareErrors_safe t ops : no_panic (compareErrors t ops).
Proof.
  induction ops as [|op ops IH]; cbn [compareErrors]; [done|].
  apply no_panic_bind; [|done]. unfold compareError. destruct (negb _); [done|].
  destruct (byte_eqb _ _), (t !! Key op) as [v|]; try done. by destruct (bytes_eqb v _).
Qed.

Lemma applySpec_safe l t : no_panic (applySpec l t).2.
Proof.
  unfold applySpec. apply guard_safe; [apply decodeCommand_safe|intros [[op key] value] _].
  destruct (byte_eqb op OpSet).
  { unfold specApplySet. apply guard_safe; [apply listCap_safe|intros _ _].
    apply guard_safe; [apply groupNameFree_safe|intros _ _]. by apply guard_safe; [apply storedValue_safe|]. }
  destruct (byte_eqb op OpDel); [done|].
  destruct (byte_eqb op OpConfirm).
  { unfold specConfirm. destruct (t !! key); [|done]. by apply guard_safe; [apply listCap_safe|]. }
  destruct (byte_eqb op OpCascadeDelete).
  { pose proof (specCascade_safe key t) as H. unfold keep_on_success. by destruct (specCascade key t) as [t' [[]| |]]. }
  destruct (byte_eqb op OpConsumeInvite); [unfold specConsumeInvite; by destruct (t !! key)|].
  destruct (byte_eqb op OpConsumeExecInvite).
  { unfold specConsumeExecInvite. destruct (t !! key) as [v|]; [|done].
    apply guard_safe; [apply no_panic_wrap, DecodeExecInviteRecord_safe|intros [[c i] ex] _].
    destruct (expired ex (AppendedAt l)); [done|].
    apply guard_safe; [apply no_panic_wrap, permitted_safe|]. by intros [|] _. }
  destruct (byte_eqb op OpAppendCommandRequest).
  { unfold specAppendCommandRequest.
    apply guard_safe; [apply no_panic_wrap, DecodeCommandRequestApplyPayload_safe|intros [author rv] _].
    apply guard_safe; [apply no_panic_wrap, ParseKey_safe|intros [[kind u] ts] _].
    destruct (ParseCommandRequestLogKind kind) as [c|]; [|done].
    apply guard_safe; [apply no_panic_wrap, permitted_safe|intros [|] _]; [|done]. cbn [negb].
    apply guard_safe; [apply listCap_safe|intros _ _]. destruct (bytes_eqb c _); [|done].
    apply guard_safe; [apply no_panic_wrap|done]. unfold grantChannelRelay, PeerGroupKey. by destruct (_ <? _). }
  destruct (byte_eqb op OpTxn); [|done].
  unfold specTxn. apply guard_safe; [apply no_panic_wrap, DecodeTxnPayload_safe|intros ops _].
  apply guard_safe; [apply validOps_safe|intros _ _]. by apply guard_safe; [apply compareErrors_safe|].
Qed.

(** * The state machine as a step relation *)

(** How one decoded entry may move the table. *)
Inductive fsm_step : byte -> bytes -> bytes -> table -> table -> Prop :=
| step_refused op key value t : fsm_step op key value t t
| step_put key value v t :
    listCap key t = Ret tt -> groupNameFree key value t = Ret tt -> storedValue key value t = Ret v ->
    fsm_step OpSet key value t (<[key := v]> t)
| step_remove op key value t t' :
    op ∈ [OpDel; OpCascadeDelete; OpConsumeInvite; OpConsumeExecInvite] -> t' ⊆ t ->
    fsm_step op key value t t'
| step_confirm key value v t :
    t !! key = Some v -> listCap value t = Ret tt ->
    fsm_step OpConfirm key value t (delete key (<[value := v]> t))
| step_request key value commandID author rv t :
    DecodeCommandRequestApplyPayload value = Ret (author, rv) ->
    [LogKeyPrefix] `prefix_of` key -> permitted commandID author t = Ret true ->
    fsm_step OpAppendCommandRequest key value t (<[key := rv]> t)
| step_grant key value author rv t t' :
    DecodeCommandRequestApplyPayload value = Ret (author, rv) ->
    [LogKeyPrefix] `prefix_of` key -> permitted DefaultPublicCommandID author t = Ret true ->
    grantChannelRelay author (<[key := rv]> t) = Ret t' ->
    fsm_step OpAppendCommandRequest key value t t'
| step_txn key value ops t :
    DecodeTxnPayload value = Ret ops -> validOps ops = Ret tt -> Forall (fun op => compareHolds t op = true) ops ->
    fsm_step OpTxn key value t (fold_left execOp ops t).

Lemma deleteKeys_subseteq l t : deleteKeys l t ⊆ t.
Proof.
  revert t. induction l as [|r l IH]; intros t; cbn [deleteKeys]; [done|].
  etrans; [apply IH|apply delete_subseteq].
Qed.

Lemma deleteMatching_subseteq parse groupID l t : (deleteMatching parse groupID l t).1 ⊆ t.
Proof.
  revert t. induction l as [|r l IH]; intros t; cbn [deleteMatching]; [done|].
  destruct (parse r.1) as [p|e|]; cbn [guard fst]; [|done..].
  etrans; [apply IH|]. destruct (bytes_eqb p.2 groupID); [apply delete_subseteq|done].
Qed.

Lemma specCascade_subseteq key t : (specCascade key t).1 ⊆ t.
Proof.
  unfold specCascade. destruct (isSystemKey key) as [[|]|e|]; cbn [guard negb fst]; try done.
  destruct (idx key 1) as [kind|e|]; cbn [guard fst]; try done.
  destruct (byte_eqb kind KindCommand); [|destruct (byte_eqb kind KindGroup); [|done]].
  - destruct (slice_from key _) as [c|e|]; cbn [guard fst]; try done.
    destruct (GroupCommandKey c []) as [p|e|]; cbn [guard fst]; try done.
    etrans; [apply delete_subseteq|apply deleteKeys_subseteq].
  - destruct (slice_from key _) as [g|e|]; cbn [guard fst]; try done.
    pose proof (deleteMatching_subseteq ParseGroupCommandKey g (select (in_prefix_range AllGroupCommandsPrefix) t) t) as H1.
    destruct (deleteMatching ParseGroupCommandKey _ _ _) as [t1 [[]|e|]]; cbn [guard fst] in *; try done.
    pose proof (deleteMatching_subseteq ParsePeerGroupKey g (select (in_prefix_range AllPeerGroupsPrefix) t1) t1) as H2.
    destruct (deleteMatching ParsePeerGroupKey _ _ _) as [t2 [[]|e|]]; cbn [guard fst] in *; try (by etrans).
    etrans; [apply delete_subseteq|by etrans].
Qed.

Lemma ParseKey_prefix key x : ParseKey key = Ret x -> [LogKeyPrefix] `prefix_of` key.
Proof.
  unfold ParseKey. intros H. destruct (Z.ltb_spec (blen key) 1); [done|].
  destruct key as [|b key]; [exfalso; revert H0; lens|]. rewrite idx_hd in H by done. cbn [mbind gores_bind] in H.
  destruct (byte_eqb b LogKeyPrefix) eqn:E; [|done]. apply byte_eqb_true in E as ->. by exists key.
Qed.

Lemma compareErrors_Ret t ops :
  validOps ops = Ret tt ->
  compareErrors t ops = Ret tt <-> Forall (fun op => compareHolds t op = true) ops.
Proof.
  induction ops as [|op ops IH]; intros Hv; cbn [compareErrors validOps] in *; [done|].
  destruct (ValidTxnOp (Op op)) eqn:Hop; [|done]. cbn [negb] in Hv. rewrite Forall_cons, <- (IH Hv).
  assert (compareError t op = Ret tt <-> compareHolds t op = true) as Hone.
  { unfold compareError, compareHolds, IsCompare.
    destruct (byte_eqb (Op op) TxnOpCompareAbsent) eqn:Ea, (byte_eqb (Op op) TxnOpCompare) eqn:Ec; cbn [orb negb].
    - byte_tests. by rewrite Ea in Ec.
    - rewrite bool_decide_eq_true. by destruct (t !! Key op).
    - rewrite bool_decide_eq_true. destruct (t !! Key op) as [v|]; [|done].
      destruct (bytes_eqb v (Value op)) eqn:E.
      + apply bytes_eqb_true in E as ->. done.
      + split; [done|]. intros [= ->]. by rewrite bytes_eqb_refl in E.
    - done. }
  destruct (compareError t op) as [[]|e|]; cbn [mbind gores_bind]; naive_solver.
Qed.

Lemma applySpec_step l t op key value :
  decodeCommand (Data l) = Ret (op, key, value) -> fsm_step op key value t (applySpec l t).1.
Proof.
  intros Hd. unfold applySpec. rewrite Hd. cbn [guard].
  destruct (byte_eqb op OpSet) eqn:E1.
  { apply byte_eqb_true in E1 as ->. unfold specApplySet.
    destruct (listCap key t) as [[]|e|] eqn:Ec; cbn [guard fst]; [|constructor..].
    destruct (groupNameFree key value t) as [[]|e|] eqn:Eg; cbn [guard fst]; [|constructor..].
    destruct (storedValue key value t) as [v|e|] eqn:Es; cbn [guard fst]; [by apply step_put|constructor..]. }
  destruct (byte_eqb op OpDel) eqn:E2.
  { apply byte_eqb_true in E2 as ->. cbn [fst]. apply step_remove; [set_solver|apply delete_subseteq]. }
  destruct (byte_eqb op OpConfirm) eqn:E3.
  { apply byte_eqb_true in E3 as ->. unfold specConfirm. destruct (t !! key) as [v|] eqn:Ek; cbn [fst]; [|constructor].
    destruct (listCap value t) as [[]|e|] eqn:Ec; cbn [guard fst]; [by apply step_confirm|constructor..]. }
  destruct (byte_eqb op OpCascadeDelete) eqn:E4.
  { apply byte_eqb_true in E4 as ->. pose proof (specCascade_subseteq key t). unfold keep_on_success.
    destruct (specCascade key t) as [t' [[]|e|]]; cbn [fst snd] in *; [|constructor..].
    apply step_remove; [set_solver|done]. }
  destruct (byte_eqb op OpConsumeInvite) eqn:E5.
  { apply byte_eqb_true in E5 as ->. unfold specConsumeInvite. destruct (t !! key); cbn [fst]; [|constructor].
    apply step_remove; [set_solver|apply delete_subseteq]. }
  destruct (byte_eqb op OpConsumeExecInvite) eqn:E6.
  { apply byte_eqb_true in E6 as ->. apply step_remove; [set_solver|]. unfold specConsumeExecInvite.
    destruct (t !! key) as [v|]; [|done]. destruct (wrap_err _ (DecodeExecInviteRecord v)) as [[[c i] ex]|e|]; try done.
    cbn [guard]. destruct (expired ex (AppendedAt l)); [apply delete_subseteq|].
    destruct (wrap_err _ (permitted c value t)) as [[|]|e|]; try done. apply delete_subseteq. }
  destruct (byte_eqb op OpAppendCommandRequest) eqn:E7.
  { apply byte_eqb_true in E7 as ->. unfold specAppendCommandRequest.
    destruct (DecodeCommandRequestApplyPayload value) as [[author rv]|e|] eqn:Ed; cbn [wrap_err guard fst]; [|constructor..].
    destruct (ParseKey key) as [[[kind u] ts]|e|] eqn:Ek; cbn [wrap_err guard fst]; [|constructor..].
    apply ParseKey_prefix in Ek.
    destruct (ParseCommandRequestLogKind kind) as [c|]; cbn [fst]; [|constructor].
    destruct (permitted c author t) as [[|]|e|] eqn:Ep; cbn [wrap_err guard negb fst]; [|constructor..].
    destruct (listCap key t) as [[]|e|]; cbn [guard fst]; [|constructor..].
    destruct (bytes_eqb c DefaultPublicCommandID) eqn:Ec; [|by eapply step_request].
    apply bytes_eqb_true in Ec as ->.
    destruct (grantChannelRelay author _) as [t'|e|] eqn:Eg; cbn [wrap_err guard fst]; [|constructor..].
    by eapply step_grant. }
  destruct (byte_eqb op OpTxn) eqn:E8; [|constructor].
  apply byte_eqb_true in E8 as ->. unfold specTxn.
  destruct (DecodeTxnPayload value) as [ops|e|] eqn:Ed; cbn [wrap_err guard fst]; [|constructor..].
  destruct (validOps ops) as [[]|e|] eqn:Ev; cbn [guard fst]; [|constructor..].
  destruct (compareErrors t ops) as [[]|e|] eqn:Ec; cbn [guard fst]; [|constructor..].
  apply step_txn; [done..|]. by apply compareErrors_Ret.
Qed.
