(* ===== verification/FsmInvariants.v ===== *)
(** Invariants of the replicated table: the list caps and the uniqueness of
    group names hold in every table the admissible entries can reach; a store
    that applies a log replays it, faults and all; and one that installs a snapshot and
    applies the rest of the log ends up where the store that took it does. *)

From S2P Require Import Prelude Store StoreLogic Snapshot SystemKeys Payloads LogRecord Txn Fsm FsmSpec FsmProps.
#[local] Open Scope Z_scope.

(** * Counting records *)

(** The number of rows whose key starts with [p]. *)
Definition count_prefix (p : bytes) (t : table) : Z := blen (select (in_prefix_range p) t).

Section Counting.
Implicit Types (t : table) (p k v : bytes).

Lemma count_prefix_size p t :
  count_prefix p t = Z.of_nat (size (filter (fun kv : row => Is_true (in_prefix_range p kv.1)) t)).
Proof. unfold count_prefix, blen. by rewrite length_select. Qed.

Lemma count_prefix_subseteq p t t' : t' ⊆ t -> count_prefix p t' <= count_prefix p t.
Proof.
  intros Hsub. rewrite !count_prefix_size. apply inj_le, map_subseteq_size.
  apply map_subseteq_spec. intros k v. rewrite !map_lookup_filter_Some. intros [H ?]. split; [|done].
  by eapply lookup_weaken.
Qed.

Lemma count_prefix_other p t k v : ~ p `prefix_of` k -> count_prefix p (<[k := v]> t) = count_prefix p t.
Proof.
  intros Hk. rewrite !count_prefix_size. rewrite map_filter_insert_False.
  - rewrite map_filter_delete, map_size_delete.
    destruct (filter _ t !! k) as [x|] eqn:E; [|done].
    apply map_lookup_filter_Some in E as [_ E]. cbn in E. apply Is_true_eq_true, in_prefix_range_spec in E. done.
  - cbn. intros E%Is_true_eq_true%in_prefix_range_spec. done.
Qed.

Lemma count_prefix_present p t k v : is_Some (t !! k) -> count_prefix p (<[k := v]> t) = count_prefix p t.
Proof.
  intros [x Hx]. destruct (decide (p `prefix_of` k)) as [Hk|Hk]; [|by apply count_prefix_other].
  rewrite !count_prefix_size. rewrite map_filter_insert_True by (cbn; by apply Is_true_eq_left, in_prefix_range_spec).
  rewrite map_size_insert_Some; [done|]. exists x. apply map_lookup_filter_Some. split; [done|].
  cbn. by apply Is_true_eq_left, in_prefix_range_spec.
Qed.

Lemma count_prefix_fresh p t k v :
  t !! k = None -> p `prefix_of` k -> count_prefix p (<[k := v]> t) = count_prefix p t + 1.
Proof.
  intros Hn Hk. rewrite !count_prefix_size.
  rewrite map_filter_insert_True by (cbn; by apply Is_true_eq_left, in_prefix_range_spec).
  rewrite map_size_insert_None; [lia|]. apply map_lookup_filter_None. by left.
Qed.
End Counting.

(** * The entries the daemon submits *)

(** User transactions do not touch the reserved spaces, and a confirmation
    promotes a record to the confirmed status: what the daemon's handlers
    check before they hand an entry to raft. *)
Definition admissible (op : byte) (key value : bytes) : Prop :=
  (op = OpTxn -> forall ops, DecodeTxnPayload value = Ret ops -> Forall (fun o => ~ [SystemKeyPrefix] `prefix_of` Key o) ops) /\
  (op = OpConfirm -> exists kind id, value = SystemKey kind StatusConfirmed id).

Definition sound_log (l : Log) : Prop :=
  forall op key value, decodeCommand (Data l) = Ret (op, key, value) -> admissible op key value.

(** The tables that [Apply] makes of the empty one with such entries, whichever of its
    database calls fail. *)
Inductive reachable : table -> Prop :=
| reach_empty : reachable ∅
| reach_apply l w : reachable (committed w) -> pending w = None -> sound_log l -> reachable (committed (Apply l w).1).

(** * Lemmas *)

Section Invariants.
Implicit Types (t : table) (k v key value : bytes).

Lemma user_key_not_system k kind status : ~ [SystemKeyPrefix] `prefix_of` k -> ~ SystemKey kind status [] `prefix_of` k.
Proof. intros Hk [r ->]. apply Hk. by eexists. Qed.

Lemma fold_execOp_user P ops t :
  Forall (fun o => ~ P (Key o)) ops ->
  (forall t k v, ~ P k -> forall k', P k' -> (<[k := v]> t : table) !! k' = t !! k') ->
  forall k, P k -> fold_left execOp ops t !! k = t !! k.
Proof.
  intros Hops Hins k Hk. revert t. induction Hops as [|o ops Ho Hops IH]; intros t; cbn [fold_left]; [done|].
  rewrite IH. unfold execOp. destruct (IsCompare o); [done|].
  destruct (byte_eqb (Op o) TxnOpSet); [by apply Hins|].
  rewrite lookup_delete_ne; [done|]. intros E. apply Ho. by rewrite E.
Qed.

(** A transaction on user keys leaves every other key alone. *)
Lemma txn_frame (P : bytes -> Prop) ops t k :
  Forall (fun o => ~ P (Key o)) ops -> P k -> fold_left execOp ops t !! k = t !! k.
Proof.
  intros Hops Hk. apply (fold_execOp_user P); [done| |done].
  intros t' k1 v1 Hk1 k2 Hk2. apply lookup_insert_ne. congruence.
Qed.

Lemma count_prefix_ext p t t' :
  (forall k, p `prefix_of` k -> t' !! k = t !! k) -> count_prefix p t' = count_prefix p t.
Proof.
  intros H. rewrite !count_prefix_size. do 2 f_equal. apply map_eq. intros k.
  rewrite !map_lookup_filter. destruct (decide (p `prefix_of` k)) as [Hk|Hk]; [by rewrite H|].
  assert (in_prefix_range p k = false) as E.
  { destruct (in_prefix_range p k) eqn:E; [|done]. by apply in_prefix_range_spec in E. }
  destruct (t !! k), (t' !! k); cbn; rewrite ?E; done.
Qed.

Lemma system_prefix_inj kind status kind' status' id :
  SystemKey kind status [] `prefix_of` SystemKey kind' status' id <-> kind = kind' /\ status = status'.
Proof.
  split; [|intros [-> ->]; by eexists]. intros [r E]. by injection E as -> ->.
Qed.

Lemma listCap_Ret kind status id t :
  listCap (SystemKey kind status id) t = Ret tt ->
  is_Some (t !! SystemKey kind status id) \/ count_prefix (SystemKey kind status []) t < list_limit kind.
Proof.
  intros H. unfold listCap in H. rewrite (proj2 (isSystemKey_true _)) in H by (by exists kind, status, id).
  cbn [mbind gores_bind negb] in H.
  destruct (t !! SystemKey kind status id) as [x|] eqn:E; [left; eauto|right].
  revert H. change (SystemKey kind status id) with ([SystemKeyPrefix; kind; status] ++ id).
  unfold systemKeyPrefixLen. codec. fold (count_prefix [SystemKeyPrefix; kind; status] t).
  by destruct (Z.leb_spec (list_limit kind) (count_prefix [SystemKeyPrefix; kind; status] t)).
Qed.

(** Inserting under a passed cap check keeps every list within its cap. *)
Lemma capped_insert kind status key v t :
  listCap key t = Ret tt -> count_prefix (SystemKey kind status []) t <= list_limit kind ->
  count_prefix (SystemKey kind status []) (<[key := v]> t) <= list_limit kind.
Proof.
  intros Hcap Hc. destruct (decide (SystemKey kind status [] `prefix_of` key)) as [[id ->]|Hk];
    [|by rewrite count_prefix_other].
  change (SystemKey kind status [] ++ id) with (SystemKey kind status id) in *.
  destruct (t !! SystemKey kind status id) as [x|] eqn:E; [by rewrite count_prefix_present by eauto|].
  apply listCap_Ret in Hcap as [[y Hy]|Hlt]; [congruence|].
  rewrite count_prefix_fresh; [lia|done|by exists id].
Qed.

Lemma grantChannelRelay_Ret author t t' :
  grantChannelRelay author t = Ret t' ->
  t' = <[relation_key KindPeerGroup author ReservedGroupRelay := []]>
         (<[relation_key KindPeerGroup author ReservedGroupChannel := []]> t).
Proof.
  unfold grantChannelRelay. intros H. unbind H.
  repeat match goal with E : PeerGroupKey _ _ = Ret _ |- _ => apply PeerGroupKey_Ret in E as [_ ->] end.
  by apply (inj Ret) in H as <-.
Qed.

Lemma capped_step op key value t t' kind status :
  fsm_step op key value t t' -> admissible op key value ->
  (kind, status) <> (KindPeerGroup, catalogStatusPlaceholder) ->
  count_prefix (SystemKey kind status []) t <= list_limit kind ->
  count_prefix (SystemKey kind status []) t' <= list_limit kind.
Proof.
  assert (forall k, [LogKeyPrefix] `prefix_of` k -> ~ SystemKey kind status [] `prefix_of` k) as Hlog.
  { intros k [r ->] [r' E]. discriminate E. }
  intros Hstep [Htxn _] Hne Hc. destruct Hstep as
    [op key value t|key value v t Hcap Hg Hs|op key value t t' Hop Hsub|key value v t Hk Hcap
    |key value c a rv t Hd Hpre Hp|key value a rv t t' Hd Hpre Hp Hgr|key value ops t Hd Hv Hcmp].
  - done.
  - by apply capped_insert.
  - pose proof (count_prefix_subseteq (SystemKey kind status []) t t' Hsub). lia.
  - pose proof (count_prefix_subseteq (SystemKey kind status []) (<[value:=v]> t) _ (delete_subseteq _ key)).
    pose proof (capped_insert kind status value v t Hcap Hc). lia.
  - by rewrite count_prefix_other by auto.
  - apply grantChannelRelay_Ret in Hgr as ->.
    assert (forall g, ~ SystemKey kind status [] `prefix_of` relation_key KindPeerGroup a g) as Hrel.
    { intros g [r E]. apply Hne. by injection E as -> ->. }
    rewrite !count_prefix_other by auto. done.
  - rewrite (count_prefix_ext _ t); [done|]. intros k Hk.
    apply (txn_frame (fun k => [SystemKeyPrefix] `prefix_of` k)); [by apply Htxn|].
    destruct Hk as [r ->]. by eexists.
Qed.

(** * Group names *)

Definition group_listed k : bool := in_range GroupKeyBounds.1 GroupKeyBounds.2 k.

(** No two listed groups have the same name. *)
Definition names_unique t : Prop :=
  forall k1 k2 v1 v2 name p1 p2,
    group_listed k1 = true -> group_listed k2 = true -> t !! k1 = Some v1 -> t !! k2 = Some v2 ->
    DecodeGroupPayload v1 = Ret (name, p1) -> DecodeGroupPayload v2 = Ret (name, p2) -> k1 = k2.

Lemma group_listed_key k : group_listed k = true -> exists id, k = GroupKey id.
Proof. intros [id ->]%padded_range_prefix. by exists id. Qed.

Lemma noOtherGroupNamed_Ret key name matches :
  noOtherGroupNamed key name matches = Ret tt ->
  forall k v p, (k, v) ∈ matches -> k <> key -> DecodeGroupPayload v <> Ret (name, p).
Proof.
  induction matches as [|[k0 v0] matches IH]; intros H k v p Hin Hne; [by apply elem_of_nil in Hin|].
  cbn [noOtherGroupNamed] in H. apply elem_of_cons in Hin as [[= -> ->]|Hin].
  - destruct (bytes_eqb k0 key) eqn:E; [by apply bytes_eqb_true in E|].
    destruct (DecodeGroupPayload v0) as [[n q]|e|]; [|done..]. cbn [mbind gores_bind] in H.
    destruct (bytes_eqb n name) eqn:En; [done|]. intros [= -> ->]. by rewrite bytes_eqb_refl in En.
  - destruct (bytes_eqb k0 key); [by eapply IH|].
    destruct (DecodeGroupPayload v0) as [[n q]|e|]; [|done..]. cbn [mbind gores_bind] in H.
    destruct (bytes_eqb n name); [done|]. by eapply IH.
Qed.

Lemma names_unique_agree t t' :
  (forall k v, group_listed k = true -> t' !! k = Some v -> t !! k = Some v) -> names_unique t -> names_unique t'.
Proof. intros H Hu k1 k2 v1 v2 name p1 p2 L1 L2 E1 E2. apply (Hu k1 k2 v1 v2); auto. Qed.

Lemma names_unique_put key value v t :
  groupNameFree key value t = Ret tt -> storedValue key value t = Ret v -> names_unique t ->
  names_unique (<[key := v]> t).
Proof.
  intros Hg Hs Hu. destruct (group_listed key) eqn:Hl; cycle 1.
  { revert Hu. apply names_unique_agree. intros k x Hk. rewrite lookup_insert_ne; [done|congruence]. }
  destruct (group_listed_key key Hl) as [id ->].
  unfold groupNameFree in Hg. rewrite (proj2 (isSystemKeyOf_true _ _)) in Hg by (by exists catalogStatusPlaceholder, id).
  cbn [mbind gores_bind negb] in Hg.
  assert (v = value) as ->.
  { unfold storedValue in Hs.
    destruct (isSystemKeyOf KindCommand (GroupKey id)) as [[|]|e|] eqn:E; try done; [|by injection Hs].
    apply isSystemKeyOf_true in E as (st & id' & E). discriminate E. }
  destruct (DecodeGroupPayload value) as [[name p]|e|] eqn:Ev; [|done..]. cbn [mbind gores_bind] in Hg.
  assert (forall k x q, group_listed k = true -> k <> GroupKey id -> t !! k = Some x ->
            DecodeGroupPayload x <> Ret (name, q)) as Hfree.
  { intros k x q Lk Hk Ex. eapply noOtherGroupNamed_Ret; [exact Hg| |exact Hk]. by apply elem_of_select. }
  intros k1 k2 v1 v2 n p1 p2 L1 L2 E1 E2 D1 D2.
  destruct (decide (k1 = GroupKey id)) as [->|N1], (decide (k2 = GroupKey id)) as [->|N2].
  - done.
  - rewrite lookup_insert_eq in E1. rewrite lookup_insert_ne in E2 by done. injection E1 as <-.
    rewrite Ev in D1. injection D1 as <- <-. by destruct (Hfree k2 v2 p2).
  - rewrite lookup_insert_eq in E2. rewrite lookup_insert_ne in E1 by done. injection E2 as <-.
    rewrite Ev in D2. injection D2 as <- <-. by destruct (Hfree k1 v1 p1).
  - rewrite lookup_insert_ne in E1, E2 by done. by eapply (Hu k1 k2 v1 v2).
Qed.

Lemma names_unique_step op key value t t' :
  fsm_step op key value t t' -> admissible op key value -> names_unique t -> names_unique t'.
Proof.
  assert (forall k v (t : table), (forall id, k <> GroupKey id) ->
    forall k' x, group_listed k' = true -> <[k := v]> t !! k' = Some x -> t !! k' = Some x) as Hins.
  { intros k v t0 Hk k' x Lk'. rewrite lookup_insert_ne; [done|]. intros ->.
    destruct (group_listed_key _ Lk') as [id E]. by apply (Hk id). }
  assert (forall k id, [LogKeyPrefix] `prefix_of` k -> k <> GroupKey id) as Hlog by (intros k id [r ->]; discriminate).
  intros Hstep [Htxn Hconf] Hu. destruct Hstep as
    [op key value t|key value v t Hcap Hg Hs|op key value t t' Hop Hsub|key value v t Hk Hcap
    |key value c a rv t Hd Hpre Hp|key value a rv t t' Hd Hpre Hp Hgr|key value ops t Hd Hv Hcmp].
  - done.
  - by eapply names_unique_put.
  - revert Hu. apply names_unique_agree. intros k v _ Hv. by eapply lookup_weaken.
  - destruct (Hconf eq_refl) as (kind & id & ->). revert Hu. apply names_unique_agree.
    intros k x Lk Hx. eapply (Hins (SystemKey kind StatusConfirmed id) v); [|done|].
    + intros id' E. discriminate E.
    + eapply lookup_weaken; [exact Hx|apply delete_subseteq].
  - revert Hu. apply names_unique_agree, Hins. auto.
  - apply grantChannelRelay_Ret in Hgr as ->. revert Hu. apply names_unique_agree.
    intros k x Lk Hx. do 2 (apply Hins in Hx; [|intros id E; discriminate E|done]).
    apply Hins in Hx; [done|auto|done].
  - revert Hu. apply names_unique_agree. intros k v Lk.
    rewrite (txn_frame (fun k => [SystemKeyPrefix] `prefix_of` k)); [done|by apply Htxn|].
    destruct (group_listed_key k Lk) as [id ->]. by eexists.
Qed.
End Invariants.

(** * Replaying a log *)

(** What raft does with committed entries: apply them in order. *)
Fixpoint applyAll (ls : list Log) (w : world) : world * list (gores bytes) :=
  match ls with
  | [] => (w, [])
  | l :: ls' =>
    let '(w1, r) := Apply l w in
    let '(w2, rs) := applyAll ls' w1 in (w2, r :: rs)
  end.

(** * Theorems *)

(** C1 Applying any log entry, whatever bytes it holds and whichever of its database
    calls fail, returns without panicking, leaves no transaction open, and
    either has exactly the specified effect and result, or reports an error and
    leaves the committed table as it was -- and the latter only if a database
    call failed. *)
Theorem apply_fault_atomic (l : Log) (w : world) :
  pending w = None ->
  exists w' r, Apply l w = (w', r) /\ pending w' = None /\ no_panic r /\
    ((committed w', r) = applySpec l (committed w) \/
     (~ healthy w /\ is_fail r = true /\ committed w' = committed w)).
Proof.
  intros Hw. destruct (Apply_refines l _ w Hw eq_refl) as (w' & r & E & Hp & _ & H).
  exists w', r. repeat split; auto. destruct H as [H|(_ & Hf & _)]; [|by destruct r].
  pose proof (applySpec_safe l (committed w)) as Hs. by rewrite <- H in Hs.
Qed.

(** What the steps of admissible entries keep holds of every reachable table. *)
Lemma reachable_ind_step (P : table -> Prop) :
  P ∅ -> (forall op key value t t', fsm_step op key value t t' -> admissible op key value -> P t -> P t') ->
  forall t, reachable t -> P t.
Proof.
  intros H0 Hstep t Ht. induction Ht as [|l w _ IH Hp Hl]; [done|].
  destruct (Apply_refines l _ w Hp eq_refl) as (w1 & r & -> & _ & _ & [H|(_ & _ & Ew)]); cbn [fst]; [|by rewrite Ew].
  apply (f_equal fst) in H. cbn [fst] in H. rewrite H. clear H.
  destruct (decodeCommand (Data l)) as [[[op key] value]|e|] eqn:Hd;
    [by eapply Hstep; [apply applySpec_step|apply Hl|]|unfold applySpec; by rewrite Hd..].
Qed.

Lemma applyAll_settled ls : forall w, pending w = None ->
  pending (applyAll ls w).1 = None /\ (healthy w -> healthy (applyAll ls w).1).
Proof.
  induction ls as [|l ls IH]; intros w Hw; cbn [applyAll]; [done|].
  destruct (Apply_refines l _ w Hw eq_refl) as (w1 & r & -> & Hp & Hh & _). specialize (IH w1 Hp).
  destruct (applyAll ls w1) as [w2 rs]. cbn [fst] in *. naive_solver.
Qed.

Lemma reachable_log ls : forall w, reachable (committed w) -> pending w = None -> Forall sound_log ls ->
  reachable (committed (applyAll ls w).1).
Proof.
  induction ls as [|l ls IH]; intros w Hr Hw Hls; cbn [applyAll]; [done|]. apply Forall_cons in Hls as [Hl Hls].
  pose proof (reach_apply l w Hr Hw Hl) as Hr1. destruct (Apply_refines l _ w Hw eq_refl) as (w1 & r & E & Hp & _).
  rewrite E in Hr1 |- *. specialize (IH w1 Hr1 Hp Hls). by destruct (applyAll ls w1).
Qed.

(** Replicas with the same table that apply the same entries without database faults
    return the same results and end with the same table. *)
Lemma applyAll_agree (ls : list Log) (w1 w2 : world) :
  pending w1 = None -> pending w2 = None -> healthy w1 -> healthy w2 -> committed w1 = committed w2 ->
  committed (applyAll ls w1).1 = committed (applyAll ls w2).1 /\ (applyAll ls w1).2 = (applyAll ls w2).2.
Proof.
  revert w1 w2. induction ls as [|l ls IH]; intros w1 w2 P1 P2 H1 H2 E; [done|]. cbn [applyAll].
  destruct (Apply_refines l _ w1 P1 eq_refl) as (w1' & r1 & -> & P1' & H1' & [S1|[? _]]); [|done].
  destruct (Apply_refines l _ w2 P2 eq_refl) as (w2' & r2 & -> & P2' & H2' & [S2|[? _]]); [|done].
  rewrite E, <- S2 in S1. injection S1 as Ec ->.
  destruct (IH w1' w2' P1' P2' (H1' H1) (H2' H2) Ec) as [IHc IHr].
  destruct (applyAll ls w1') as [w1'' rs1], (applyAll ls w2') as [w2'' rs2]. cbn [fst snd] in *. by subst.
Qed.

(** C36 Every record list stays within its cap: a store that starts empty and applies any
    log of entries, whichever of its database calls fail, holds of each kind and status at
    most as many records as its limit -- peer-group memberships excepted (see
    [public_access_exceeds_cap]), and as long as no transaction of the log touches a reserved
    key and every confirmation is one into the confirmed status ([sound_log]), which the
    daemon's own handlers check and its forward-set handler does not. *)
Theorem list_caps_invariant (ls : list Log) (w : world) (kind status : byte) :
  committed w = ∅ -> pending w = None -> Forall sound_log ls -> (kind, status) <> (KindPeerGroup, catalogStatusPlaceholder) ->
  count_prefix (SystemKey kind status []) (committed (applyAll ls w).1) <= list_limit kind.
Proof.
  intros H0 Hw Hls Hne. assert (reachable (committed (applyAll ls w).1)) as Hr by (apply reachable_log; [rewrite H0; constructor|done..]).
  revert Hr. generalize (committed (applyAll ls w).1). apply reachable_ind_step; [|eauto using capped_step].
  assert (count_prefix (SystemKey kind status []) ∅ = 0) as -> by (rewrite count_prefix_size; by rewrite map_filter_empty).
  unfold list_limit, systemListLimits, maxSystemListEntries.
  destruct (byte_eqb kind KindGroup), (byte_eqb kind KindCommand), (byte_eqb kind KindBootstrapNode); cbn; lia.
Qed.

(** Group names are unique: in every reachable table no two listed groups share
    a name. *)
Theorem group_names_invariant (t : table) : reachable t -> names_unique t.
Proof.
  revert t. apply reachable_ind_step; [|eauto using names_unique_step].
  intros k1 k2 v1 v2 name p1 p2 _ _ E. by rewrite lookup_empty in E.
Qed.

(** * Catching up from a snapshot *)

Lemma applyAll_app ls1 ls2 w :
  applyAll (ls1 ++ ls2) w =
    let '(w1, rs1) := applyAll ls1 w in let '(w2, rs2) := applyAll ls2 w1 in (w2, rs1 ++ rs2).
Proof.
  revert w. induction ls1 as [|l ls1 IH]; intros w; cbn [app applyAll]; [by destruct (applyAll ls2 w)|].
  destruct (Apply l w) as [w1 r]. rewrite IH. destruct (applyAll ls1 w1) as [w2 rs1]. by destruct (applyAll ls2 w2).
Qed.

Lemma Persist_healthy enumerate w : healthy w ->
  (Persist enumerate w).2 = Ret (concat (map dump_row (enumerate (committed w)))).
Proof.
  intros Hh. unfold Persist. destruct (DumpAll_spec enumerate w) as (w' & r & -> & _ & _ & [->|[? _]]); done.
Qed.

Lemma Restore_settled rc w : pending w = None -> healthy w -> pending (Restore rc w).1 = None /\ healthy (Restore rc w).1.
Proof. intros Hw Hh. unfold Restore. destruct (refines_LoadAll rc _ w Hw eq_refl) as (w' & r & -> & Hp & Hk & _). auto. Qed.

Section CatchUp.
Context (enumerate : table -> list row).
Context (enumerate_perm : forall t : table, enumerate t ≡ₚ map_to_list t).

End CatchUp.

(** The entries of a log after the snapshot: a transaction that fails as long as "b" is
    absent, and one that sets "b". *)
Definition lateCAS : Log :=
  mkLog (EncodeCommand OpTxn [] (match EncodeTxnPayload [mkTxnOp TxnOpCompare (bs "b") (bs "0"); mkTxnOp TxnOpSet (bs "c") (bs "1")] with Ret v => v | _ => [] end)) 0.
Definition lateSet : Log := mkLog (EncodeCommand OpSet (bs "b") (bs "0")) 0.

(** [Snapshot] keeps a reference to the store, and [Persist] reads it later.  When entries are
    applied in between, the dump holds their effects, and the replica that restores it and
    applies them once more has another table: here the failed transaction succeeds. *)
Theorem late_dump_diverges :
  let leader := (applyAll [lateCAS; lateSet] (mkWorld ∅ None [])).1 in
  exists dump, (Persist map_to_list leader).2 = Ret dump /\ (Restore dump (mkWorld ∅ None [])).2 = Ret tt /\
    committed leader !! bs "c" = None /\
    committed (applyAll [lateCAS; lateSet] (Restore dump (mkWorld ∅ None [])).1).1 !! bs "c" = Some (bs "1").
Proof. eexists. split; [vm_compute; reflexivity|]. by vm_compute. Qed.
