(* ===== verification/FsmOps.v ===== *)
(** What each operation of the state machine does to the table, and who may
    make it do so: transactions, cascading deletes, confirmations, one-time
    invites, command requests, command specs, and the command ACL. *)

From S2P Require Import Prelude Store StoreLogic SystemKeys Payloads LogRecord Txn Fsm FsmSpec FsmProps FsmInvariants.
#[local] Open Scope Z_scope.

(** The entry [l] carries this operation. *)
Definition carries (l : Log) (op : byte) (key value : bytes) : Prop :=
  decodeCommand (Data l) = Ret (op, key, value).

(** What the outcome of an entry can be, faults or not. *)
Lemma apply_outcome l w :
  pending w = None ->
  ((committed (Apply l w).1, (Apply l w).2) = applySpec l (committed w)) \/
  (~ healthy w /\ is_fail (Apply l w).2 = true /\ committed (Apply l w).1 = committed w).
Proof.
  intros Hw. by destruct (Apply_refines l _ w Hw eq_refl) as (w' & r & -> & _ & _ & H).
Qed.

(** A success is always the specified one. *)
Lemma apply_success l w v :
  pending w = None -> (Apply l w).2 = Ret v ->
  applySpec l (committed w) = (committed (Apply l w).1, Ret v).
Proof.
  intros Hw Hr. destruct (apply_outcome l w Hw) as [<-|(_ & Hf & _)]; [by rewrite Hr|by rewrite Hr in Hf].
Qed.

Lemma apply_healthy l w :
  pending w = None -> healthy w -> (committed (Apply l w).1, (Apply l w).2) = applySpec l (committed w).
Proof. intros Hw Hh. by destruct (apply_outcome l w Hw) as [?|[? _]]. Qed.

(** [applySpec] on an entry of known operation. *)
Ltac spec_of H :=
  unfold carries in H; unfold applySpec; rewrite H; cbn [guard];
  repeat match goal with |- context [byte_eqb ?a ?b] => change (byte_eqb a b) with true || change (byte_eqb a b) with false end;
  cbv iota.

(** * The command ACL *)

Section Acl.
Implicit Types (t : table) (commandID peerID groupID : bytes).

Definition linked t commandID groupID : Prop := is_Some (t !! relation_key KindGroupCommand commandID groupID).
Definition member t peerID groupID : Prop := is_Some (t !! relation_key KindPeerGroup peerID groupID).
Definition public t groupID : Prop :=
  exists v name, t !! GroupKey groupID = Some v /\ DecodeGroupPayload v = Ret (name, true).

Lemma publicGroup_true t groupID : publicGroup t groupID = true <-> public t groupID.
Proof.
  unfold publicGroup, public. split.
  - destruct (t !! GroupKey groupID) as [v|]; [|done].
    destruct (DecodeGroupPayload v) as [[name [|]]|e|] eqn:E; try done. intros _. by exists v, name.
  - intros (v & name & -> & ->). done.
Qed.

(** The rows of a command's scan are its links. *)
Lemma command_rows t commandID k v :
  blen commandID <= 0xFFFF ->
  (k, v) ∈ select (in_prefix_range (relation_key KindGroupCommand commandID [])) t <->
  exists groupID, k = relation_key KindGroupCommand commandID groupID /\ t !! k = Some v.
Proof.
  intros Hc. rewrite elem_of_select, in_prefix_range_spec. split.
  - intros [Hk [g ->]]. exists g. split; [|done]. unfold relation_key. by rewrite app_nil_r, <- !app_assoc.
  - intros (g & -> & Hk). split; [done|]. by apply relation_key_prefix.
Qed.

Lemma anyPermits_spec t peerID commandID matches :
  blen commandID <= 0xFFFF -> blen peerID <= 0xFFFF ->
  Forall (fun r : row => exists g, r.1 = relation_key KindGroupCommand commandID g) matches ->
  exists b, anyPermits t peerID matches = Ret b /\
  (b = true <-> exists g, relation_key KindGroupCommand commandID g ∈ matches.*1 /\ (public t g \/ member t peerID g)).
Proof.
  intros Hc Hp. induction 1 as [|[k v] matches [g Hk] _ IH]; cbn [anyPermits].
  { exists false. split; [done|]. split; [done|]. intros (g & H & _). by apply elem_of_nil in H. }
  cbn [fst] in Hk. subst k. destruct IH as (b & Hb & Hspec).
  rewrite ParseGroupCommandKey_key by done. cbn [mbind gores_bind].
  destruct (publicGroup t g) eqn:Epub.
  { apply publicGroup_true in Epub. exists true. split; [done|]. split; [|done]. intros _. exists g.
    split; [apply elem_of_cons; by left|by left]. }
  rewrite PeerGroupKey_ok by done. cbn [mbind gores_bind].
  destruct (bool_decide_reflect (is_Some (t !! relation_key KindPeerGroup peerID g))) as [Hm|Hm].
  { exists true. split; [done|]. split; [|done]. intros _. exists g. split; [apply elem_of_cons; by left|by right]. }
  exists b. split; [done|]. rewrite Hspec. cbn [fmap list_fmap fst]. split.
  - intros (g' & Hin & H). exists g'. split; [apply elem_of_cons; by right|done].
  - intros (g' & [E|Hin]%elem_of_cons & H); [|by exists g'].
    apply relation_key_inj in E as (_ & _ & ->); [|done..]. destruct H as [H|H]; [|done].
    apply publicGroup_true in H. congruence.
Qed.

Lemma permitted_spec t commandID peerID :
  blen commandID <= 0xFFFF -> blen peerID <= 0xFFFF ->
  exists b, permitted commandID peerID t = Ret b /\
  (b = true <-> exists g, linked t commandID g /\ (public t g \/ member t peerID g)).
Proof.
  intros Hc Hp. unfold permitted. rewrite GroupCommandKey_ok by done. cbn [mbind gores_bind].
  set (rows := select _ t).
  destruct (anyPermits_spec t peerID commandID rows Hc Hp) as (b & -> & Hb).
  { apply Forall_forall. intros [k v] (g & -> & _)%(command_rows t commandID k v Hc). by exists g. }
  exists b. split; [done|]. rewrite Hb. apply exist_proper. intros g. apply and_iff_compat_r. unfold linked.
  rewrite list_elem_of_fmap. split.
  - intros ([k v] & -> & (g' & _ & Hk)%(command_rows t commandID _ v Hc)). by exists v.
  - intros [v Hv]. exists (relation_key KindGroupCommand commandID g, v). split; [done|].
    apply command_rows; [done|]. by exists g.
Qed.

Lemma permitted_true t commandID peerID :
  permitted commandID peerID t = Ret true -> exists g, linked t commandID g /\ (public t g \/ member t peerID g).
Proof.
  intros H.
  assert (blen commandID <= 0xFFFF) as Hc.
  { unfold permitted, GroupCommandKey in H. destruct (Z.ltb_spec 0xFFFF (blen commandID)); [done|lia]. }
  destruct (decide (blen peerID <= 0xFFFF)) as [Hp|Hp].
  - destruct (permitted_spec t commandID peerID Hc Hp) as (b & E & Hb). rewrite H in E. injection E as <-.
    by apply Hb.
  - (* with an over-long peer id only a public group can have said yes *)
    unfold permitted in H. rewrite GroupCommandKey_ok in H by done. cbn [mbind gores_bind] in H.
    assert (Forall (fun r : row => exists g, r.1 = relation_key KindGroupCommand commandID g /\ linked t commandID g)
      (select (in_prefix_range (relation_key KindGroupCommand commandID [])) t)) as Hrows.
    { apply Forall_forall. intros [k v] (g & -> & Hk)%(command_rows t commandID k v Hc). exists g. split; [done|by exists v]. }
    revert H. induction Hrows as [|[k v] matches [g [Hk Hl]] _ IH]; cbn [anyPermits]; [done|].
    cbn [fst] in Hk. subst k. rewrite ParseGroupCommandKey_key by done. cbn [mbind gores_bind].
    destruct (publicGroup t g) eqn:Epub; [apply publicGroup_true in Epub; eauto|].
    unfold PeerGroupKey. destruct (Z.ltb_spec 0xFFFF (blen peerID)); [done|lia].
Qed.
End Acl.

(** C11 The command ACL, as documented: for ids of at most 65535 bytes, the longest a key
    can hold, on a fault-free run the check says yes exactly when some group is linked to the command and is public or has the peer as a
    member; and with faults it can only err on the side of refusing. *)
Theorem command_acl_spec (commandID peerID : bytes) (w : world) :
  blen commandID <= 0xFFFF -> blen peerID <= 0xFFFF ->
  ((IsPermittedForCommand Store commandID peerID w).2 = Ret true ->
     exists g, linked (committed w) commandID g /\ (public (committed w) g \/ member (committed w) peerID g)) /\
  (healthy w -> (exists g, linked (committed w) commandID g /\ (public (committed w) g \/ member (committed w) peerID g)) ->
     (IsPermittedForCommand Store commandID peerID w).2 = Ret true).
Proof.
  intros Hc Hp. destruct (permitted_spec (committed w) commandID peerID Hc Hp) as (b & E & Hb).
  destruct (IsPermittedForCommand_gates Store _ commandID peerID w eq_refl) as (w' & r & -> & _ & _ & _ & H).
  cbn [snd view Store] in *. rewrite E in H. split.
  - intros ->. destruct H as [[= <-]|[_ [?|?]]]; [by apply Hb|done..].
  - intros Hh Hex. destruct H as [->|[? _]]; [|done]. f_equal. by apply Hb.
Qed.

(** * Transactions *)

Lemma compareErrors_Fail t ops e :
  compareErrors t ops = Fail e -> errors_is e ErrCompareFailed = true.
Proof.
  induction ops as [|op ops IH]; cbn [compareErrors]; [done|]. unfold compareError.
  destruct (negb (IsCompare op)); [done|].
  destruct (byte_eqb (Op op) TxnOpCompareAbsent), (t !! Key op) as [v|]; cbn [mbind gores_bind]; try done; try (by intros [= <-]).
  destruct (bytes_eqb v (Value op)); cbn [mbind gores_bind]; [done|]. by intros [= <-].
Qed.

(** What a transaction does: see [txn_compare_and_swap]. *)
Lemma txn_outcome (l : Log) (w : world) (key value : bytes) (ops : list TxnOpSpec) :
  pending w = None -> carries l OpTxn key value -> DecodeTxnPayload value = Ret ops -> validOps ops = Ret tt ->
  ((Apply l w).2 = Ret [] -> Forall (fun op => compareHolds (committed w) op = true) ops /\
     committed (Apply l w).1 = fold_left execOp ops (committed w)) /\
  ((Apply l w).2 <> Ret [] -> committed (Apply l w).1 = committed w) /\
  (healthy w -> Forall (fun op => compareHolds (committed w) op = true) ops -> (Apply l w).2 = Ret []) /\
  (healthy w -> ~ Forall (fun op => compareHolds (committed w) op = true) ops ->
     exists e, (Apply l w).2 = Fail e /\ errors_is e ErrCompareFailed = true).
Proof.
  intros Hw Hl Hd Hv.
  assert (applySpec l (committed w) = specTxn value (committed w)) as Hspec by (spec_of Hl; done).
  unfold specTxn in Hspec. rewrite Hd in Hspec. cbn [wrap_err guard] in Hspec. rewrite Hv in Hspec. cbn [guard] in Hspec.
  pose proof (compareErrors_Ret (committed w) ops Hv) as Hcmp.
  pose proof (compareErrors_safe (committed w) ops) as Hsafe.
  pose proof (compareErrors_Fail (committed w) ops) as Herr.
  destruct (apply_outcome l w Hw) as [H|(Hn & Hf & Hc)].
  - rewrite Hspec in H. destruct (compareErrors (committed w) ops) as [[]|e|]; cbn [guard] in H; [| |done];
      injection H as Hc Hr; rewrite Hc, Hr; repeat split; try done; naive_solver.
  - split_and!; [intros Hr; by rewrite Hr in Hf|done|by intros ?..].
Qed.

(** C12 A transaction is a compare-and-swap and all-or-nothing.  Whatever faults occur,
    success means every precondition held in the table the entry found, and the
    new table is that one with all the writes applied in order; any error means
    the table is unchanged.  Without faults, a well-formed transaction succeeds
    exactly when its preconditions hold, and otherwise fails with
    [ErrCompareFailed]. *)
Theorem txn_compare_and_swap (l : Log) (w : world) (key value : bytes) (ops : list TxnOpSpec) :
  pending w = None -> carries l OpTxn key value -> DecodeTxnPayload value = Ret ops -> validOps ops = Ret tt ->
  ((Apply l w).2 = Ret [] -> Forall (fun op => compareHolds (committed w) op = true) ops /\
     committed (Apply l w).1 = fold_left execOp ops (committed w)) /\
  ((Apply l w).2 <> Ret [] -> committed (Apply l w).1 = committed w) /\
  (healthy w -> Forall (fun op => compareHolds (committed w) op = true) ops -> (Apply l w).2 = Ret []) /\
  (healthy w -> ~ Forall (fun op => compareHolds (committed w) op = true) ops ->
     exists e, (Apply l w).2 = Fail e /\ errors_is e ErrCompareFailed = true).
Proof. intros Hw Hl Hd Hv. by apply (txn_outcome l w key value ops). Qed.

(** * Cascading deletes *)

(** The groups a relation key names. *)
Definition relates_to (groupID k : bytes) : Prop :=
  exists a, blen a <= 0xFFFF /\ (k = relation_key KindGroupCommand a groupID \/ k = relation_key KindPeerGroup a groupID).

Section Cascade.
Implicit Types (t : table) (groupID k : bytes).

Lemma deleteMatching_lookup parse groupID rows t t' :
  deleteMatching parse groupID rows t = (t', Ret tt) ->
  forall k, (k ∈ rows.*1 -> exists a g, parse k = Ret (a, g) /\ t' !! k = if bytes_eqb g groupID then None else t !! k) /\
            (k ∉ rows.*1 -> t' !! k = t !! k).
Proof.
  revert t. induction rows as [|r rows IH]; intros t H k; cbn [deleteMatching] in H.
  { injection H as ->. split; [by intros ?%elem_of_nil|done]. }
  destruct (parse r.1) as [[a g]|e|] eqn:Ep; cbn [guard snd] in H; [|done..].
  destruct (IH _ H k) as [IH1 IH2]. cbn [fmap list_fmap]. split.
  - intros Hk. destruct (decide (k ∈ rows.*1)) as [Hin|Hin].
    + destruct (IH1 Hin) as (a' & g' & Ek & Hl). exists a', g'. split; [done|]. rewrite Hl.
      destruct (bytes_eqb g' groupID) eqn:Eg'; [done|].
      destruct (bytes_eqb g groupID) eqn:Eg; [|done]. apply lookup_delete_ne. intros <-. congruence.
    + apply elem_of_cons in Hk as [->|?]; [|done]. exists a, g. split; [done|]. rewrite (IH2 Hin).
      destruct (bytes_eqb g groupID); [apply lookup_delete_eq|done].
  - intros [Hne Hin]%not_elem_of_cons. rewrite (IH2 Hin). destruct (bytes_eqb g groupID); [|done].
    by apply lookup_delete_ne.
Qed.

Lemma deleteKeys_lookup rows t k :
  deleteKeys rows t !! k = if bool_decide (k ∈ rows.*1) then None else t !! k.
Proof.
  revert t. induction rows as [|r rows IH]; intros t; cbn [deleteKeys]; [done|]. rewrite IH.
  cbn [fmap list_fmap]. destruct (bool_decide_reflect (k ∈ rows.*1)) as [Hin|Hin].
  - by rewrite bool_decide_eq_true_2 by (apply elem_of_cons; by right).
  - destruct (decide (k = r.1)) as [->|Hne].
    + rewrite bool_decide_eq_true_2 by (apply elem_of_cons; by left). apply lookup_delete_eq.
    + rewrite bool_decide_eq_false_2 by (rewrite elem_of_cons; naive_solver). by apply lookup_delete_ne.
Qed.

Lemma select_keys p t k : k ∈ (select p t).*1 <-> is_Some (t !! k) /\ p k = true.
Proof.
  rewrite list_elem_of_fmap. split.
  - intros ([k' v] & -> & H%elem_of_select). naive_solver.
  - intros [[v Hv] Hp]. exists (k, v). split; [done|]. by apply elem_of_select.
Qed.

(** One pass of a group cascade removes the relations of the group, no others. *)
Lemma group_pass_lookup kind prefix parse groupID t t' :
  prefix = SystemKey kind catalogStatusPlaceholder [] ->
  (forall a g, blen a <= 0xFFFF -> parse (relation_key kind a g) = Ret (a, g)) ->
  (forall k a g, prefix `prefix_of` k -> parse k = Ret (a, g) -> blen a <= 0xFFFF /\ k = relation_key kind a g) ->
  deleteMatching parse groupID (select (in_prefix_range prefix) t) t = (t', Ret tt) ->
  forall k, ((exists a, blen a <= 0xFFFF /\ k = relation_key kind a groupID) -> t' !! k = None) /\
            (~ (exists a, blen a <= 0xFFFF /\ k = relation_key kind a groupID) -> t' !! k = t !! k).
Proof.
  intros -> Hkey Hinv H k. destruct (deleteMatching_lookup _ _ _ _ _ H k) as [H1 H2]. split.
  - intros (a & Ha & ->). destruct (t !! relation_key kind a groupID) as [v|] eqn:E.
    + destruct H1 as (a' & g & Ep & ->).
      { apply select_keys. split; [by rewrite E|]. apply in_prefix_range_spec. unfold relation_key. by eexists. }
      rewrite Hkey in Ep by done. injection Ep as <- <-. by rewrite bytes_eqb_refl.
    + destruct (decide (relation_key kind a groupID ∈ (select (in_prefix_range (SystemKey kind catalogStatusPlaceholder [])) t).*1))
        as [[[x Hx] _]%select_keys|Hin]; [congruence|]. by rewrite H2.
  - intros Hno. destruct (decide (k ∈ (select (in_prefix_range (SystemKey kind catalogStatusPlaceholder [])) t).*1)) as [Hin|Hin];
      [|by apply H2].
    destruct (H1 Hin) as (a & g & Ep & ->). apply select_keys in Hin as [_ Hp].
    apply in_prefix_range_spec in Hp. destruct (Hinv _ _ _ Hp Ep) as [Ha ->].
    destruct (bytes_eqb g groupID) eqn:Eg; [|done]. apply bytes_eqb_true in Eg as ->. destruct Hno. eauto.
Qed.
End Cascade.

(** Deleting a group leaves nothing dangling and touches nothing else: if the
    entry succeeds, the group's record and every relation that names it are
    gone, and every other key is exactly as it was. *)
Theorem cascade_group_exact (l : Log) (w : world) (groupID value k : bytes) :
  pending w = None -> carries l OpCascadeDelete (GroupKey groupID) value -> (Apply l w).2 = Ret [] ->
  (k = GroupKey groupID \/ relates_to groupID k -> committed (Apply l w).1 !! k = None) /\
  (k <> GroupKey groupID -> ~ relates_to groupID k -> committed (Apply l w).1 !! k = committed w !! k).
Proof.
  intros Hw Hl Hr. pose proof (apply_success l w [] Hw Hr) as H.
  assert (applySpec l (committed w) =
    let '(t', r) := keep_on_success (committed w) (specCascade (GroupKey groupID) (committed w)) in
    (t', r ≫= fun _ => Ret [])) as Hspec by (spec_of Hl; done).
  rewrite Hspec in H. clear Hspec. unfold specCascade in H.
  rewrite (proj2 (isSystemKey_true _)) in H by (by exists KindGroup, catalogStatusPlaceholder, groupID). cbn [guard negb] in H.
  unfold GroupKey in H. rewrite SystemKey_kind in H. cbn [guard] in H.
  change (byte_eqb KindGroup KindCommand) with false in H. change (byte_eqb KindGroup KindGroup) with true in H.
  rewrite SystemKey_id in H. cbn [guard] in H.
  destruct (deleteMatching ParseGroupCommandKey groupID _ (committed w)) as [t1 [[]|e|]] eqn:E1; cbn [guard] in H; [|done..].
  destruct (deleteMatching ParsePeerGroupKey groupID _ t1) as [t2 [[]|e|]] eqn:E2; cbn [guard] in H; [|done..].
  unfold keep_on_success in H. cbn [fst snd mbind gores_bind] in H. injection H as <-.
  destruct (group_pass_lookup KindGroupCommand _ _ _ _ _ eq_refl (fun a g => ParseGroupCommandKey_key a g)
    (fun k a g => ParseGroupCommandKey_inv k a g) E1 k) as [P1 P2].
  destruct (group_pass_lookup KindPeerGroup _ _ _ _ _ eq_refl (fun a g => ParsePeerGroupKey_key a g)
    (fun k a g => ParsePeerGroupKey_inv k a g) E2 k) as [Q1 Q2].
  split.
  - intros [->|(a & Ha & Hk)]; [apply lookup_delete_eq|].
    rewrite lookup_delete_ne by (destruct Hk as [->| ->]; discriminate).
    destruct Hk as [Hk|Hk]; [|by apply Q1; eauto].
    rewrite Q2; [apply P1; eauto|]. intros (a' & _ & E). rewrite Hk in E. discriminate E.
  - intros Hne Hno. rewrite lookup_delete_ne by done.
    rewrite Q2, P2; [done|..]; intros (a & Ha & ->); apply Hno; exists a; auto.
Qed.

(** Deleting a command removes its record and all its group links and nothing
    else, and without faults always succeeds. *)
Theorem cascade_command_exact (l : Log) (w : world) (commandID value k : bytes) :
  pending w = None -> carries l OpCascadeDelete (CommandKey commandID) value -> blen commandID <= 0xFFFF ->
  ((Apply l w).2 = Ret [] ->
   ((k = CommandKey commandID \/ exists g, k = relation_key KindGroupCommand commandID g) ->
      committed (Apply l w).1 !! k = None) /\
   (k <> CommandKey commandID -> ~ (exists g, k = relation_key KindGroupCommand commandID g) ->
      committed (Apply l w).1 !! k = committed w !! k)) /\
  (healthy w -> (Apply l w).2 = Ret []).
Proof.
  intros Hw Hl Hc.
  assert (applySpec l (committed w) =
    (delete (CommandKey commandID) (deleteKeys (select (in_prefix_range (relation_key KindGroupCommand commandID [])) (committed w)) (committed w)),
     Ret [])) as Hspec.
  { spec_of Hl. unfold specCascade.
    rewrite (proj2 (isSystemKey_true _)) by (by exists KindCommand, catalogStatusPlaceholder, commandID). cbn [guard negb].
    unfold CommandKey. rewrite SystemKey_kind. cbn [guard].
    change (byte_eqb KindCommand KindCommand) with true. cbv iota.
    rewrite SystemKey_id. cbn [guard]. rewrite GroupCommandKey_ok by done. done. }
  split.
  - intros Hr. pose proof (apply_success l w [] Hw Hr) as H. rewrite Hspec in H. injection H as <-.
    assert (forall k, k ∈ (select (in_prefix_range (relation_key KindGroupCommand commandID [])) (committed w)).*1 <->
      is_Some (committed w !! k) /\ exists g, k = relation_key KindGroupCommand commandID g) as Hin.
    { intros k'. rewrite select_keys, in_prefix_range_spec. apply and_iff_compat_l. unfold relation_key. split.
      - intros [g ->]. exists g. by rewrite app_nil_r, <- !app_assoc.
      - intros [g ->]. exists g. by rewrite app_nil_r, <- !app_assoc. }
    split.
    + intros [->|[g ->]]; [apply lookup_delete_eq|]. rewrite lookup_delete_ne by discriminate.
      rewrite deleteKeys_lookup. destruct (bool_decide_reflect (relation_key KindGroupCommand commandID g ∈ (select (in_prefix_range (relation_key KindGroupCommand commandID [])) (committed w)).*1)) as [|Hno]; [done|].
      destruct (committed w !! relation_key KindGroupCommand commandID g) eqn:E; [|done].
      destruct Hno. apply Hin. rewrite E. eauto.
    + intros Hne Hno. rewrite lookup_delete_ne by done. rewrite deleteKeys_lookup.
      rewrite bool_decide_eq_false_2; [done|]. rewrite Hin. naive_solver.
  - intros Hh. pose proof (apply_healthy l w Hw Hh) as H. rewrite Hspec in H. by injection H.
Qed.

(** * Confirmations *)

(** Confirming moves a record, atomically: on success the pending key is gone,
    the confirmed key holds the pending record's own value, and no other key
    changed; on any error nothing moved; and there is no success without a
    pending record. *)
Theorem confirm_moves_record (l : Log) (w : world) (key value k : bytes) :
  pending w = None -> carries l OpConfirm key value -> key <> value ->
  ((Apply l w).2 = Ret [] ->
     committed (Apply l w).1 !! key = None /\
     (exists v, committed w !! key = Some v /\ committed (Apply l w).1 !! value = Some v) /\
     (k <> key -> k <> value -> committed (Apply l w).1 !! k = committed w !! k)) /\
  ((Apply l w).2 <> Ret [] -> committed (Apply l w).1 = committed w).
Proof.
  intros Hw Hl Hne. assert (applySpec l (committed w) = specConfirm key value (committed w)) as Hspec by (spec_of Hl; done).
  unfold specConfirm in Hspec. split.
  - intros Hr. pose proof (apply_success l w [] Hw Hr) as H. rewrite Hspec in H.
    destruct (committed w !! key) as [v|] eqn:E; [|done].
    destruct (listCap value (committed w)) as [[]|e|]; cbn [guard] in H; [|done..]. injection H as <-.
    rewrite lookup_delete_eq, (lookup_delete_ne _ key value), lookup_insert_eq by done. split_and!; [done|by exists v|].
    intros Hk Hk'. by rewrite lookup_delete_ne, lookup_insert_ne.
  - intros Hr. destruct (apply_outcome l w Hw) as [H|(_ & _ & Hc)]; [|done]. rewrite Hspec in H.
    destruct (committed w !! key) as [v|]; [|by injection H].
    destruct (listCap value (committed w)) as [[]|e|]; cbn [guard] in H; [|by injection H..].
    injection H as _ H. done.
Qed.

(** * One-time invites *)

(** The keys an entry may create. *)
Definition may_create (l : Log) (k : bytes) : Prop :=
  exists op key value, carries l op key value /\
  ((op = OpSet /\ k = key) \/ (op = OpConfirm /\ k = value) \/ (op = OpAppendCommandRequest /\ ([LogKeyPrefix] `prefix_of` k
      \/ exists a g, k = relation_key KindPeerGroup a g)) \/
   (op = OpTxn /\ exists ops, DecodeTxnPayload value = Ret ops /\ k ∈ Key <$> ops)).

Lemma step_creates op key value t t' k :
  fsm_step op key value t t' -> t !! k = None -> is_Some (t' !! k) ->
  (op = OpSet /\ k = key) \/ (op = OpConfirm /\ k = value) \/ (op = OpAppendCommandRequest /\ ([LogKeyPrefix] `prefix_of` k
      \/ exists a g, k = relation_key KindPeerGroup a g)) \/
  (op = OpTxn /\ exists ops, DecodeTxnPayload value = Ret ops /\ k ∈ Key <$> ops).
Proof.
  assert (forall (t : table) k0 v, t !! k = None -> is_Some (<[k0 := v]> t !! k) -> k = k0) as Hins.
  { intros t0 k0 v Hn [x Hx]. destruct (decide (k0 = k)) as [->|]; [done|]. rewrite lookup_insert_ne in Hx by done. congruence. }
  intros Hstep Hn Hs. destruct Hstep as
    [op key value t|key value v t Hcap Hg Hst|op key value t t' Hop Hsub|key value v t Hk Hcap
    |key value c a rv t Hd Hpre Hp|key value a rv t t' Hd Hpre Hp Hgr|key value ops t Hd Hv Hcmp].
  - rewrite Hn in Hs. by destruct Hs.
  - left. split; [done|by eapply Hins].
  - destruct Hs as [x Hx]. eapply lookup_weaken in Hx; [|exact Hsub]. congruence.
  - right; left. split; [done|]. eapply Hins; [done|]. destruct Hs as [x Hx]. exists x.
    eapply lookup_weaken; [exact Hx|apply delete_subseteq].
  - right; right; left. split; [done|left]. by rewrite (Hins _ _ _ Hn Hs).
  - right; right; left. split; [done|]. apply grantChannelRelay_Ret in Hgr as ->.
    destruct (decide (k = relation_key KindPeerGroup a ReservedGroupRelay)) as [->|N1]; [right; eauto|].
    rewrite lookup_insert_ne in Hs by done.
    destruct (decide (k = relation_key KindPeerGroup a ReservedGroupChannel)) as [->|N2]; [right; eauto|].
    rewrite lookup_insert_ne in Hs by done. left. by rewrite (Hins _ _ _ Hn Hs).
  - right; right; right. split; [done|]. exists ops. split; [done|].
    destruct (decide (k ∈ Key <$> ops)) as [|Hno]; [done|]. exfalso.
    rewrite (txn_frame (fun k' => k' = k)) in Hs; [rewrite Hn in Hs; by destruct Hs| |done].
    apply Forall_forall. intros o Ho E. apply Hno. rewrite <- E. by apply list_elem_of_fmap_2.
Qed.

Lemma absent_stays l w k :
  pending w = None -> committed w !! k = None -> ~ may_create l k -> committed (Apply l w).1 !! k = None.
Proof.
  intros Hw Hn Hno. destruct (apply_outcome l w Hw) as [H|(_ & _ & ->)]; [|done].
  apply (f_equal fst) in H. cbn [fst] in H. rewrite H.
  destruct (decodeCommand (Data l)) as [[[op key] value]|e|] eqn:Ed;
    [|unfold applySpec; by rewrite Ed..].
  destruct ((applySpec l (committed w)).1 !! k) as [x|] eqn:E; [|done]. destruct Hno.
  exists op, key, value. split; [done|]. eapply step_creates; [by apply applySpec_step|done|by rewrite E].
Qed.

(** A join invite is redeemed at most once: after a successful redemption, and
    any number of further entries none of which creates the invite again, a
    second redemption fails, whatever faults occur; and a redemption returns
    the value the invite held. *)
Theorem join_invite_one_shot (l l' : Log) (ls : list Log) (w : world) (token value value' v : bytes) :
  pending w = None ->
  carries l OpConsumeInvite (JoinInviteKey token) value -> carries l' OpConsumeInvite (JoinInviteKey token) value' ->
  (Apply l w).2 = Ret v -> Forall (fun x => ~ may_create x (JoinInviteKey token)) ls ->
  committed w !! JoinInviteKey token = Some v /\
  is_fail (Apply l' (applyAll ls (Apply l w).1).1).2 = true.
Proof.
  intros Hw Hl Hl' Hr Hls.
  assert (forall x (t : table) val, carries x OpConsumeInvite (JoinInviteKey token) val ->
    applySpec x t = specConsumeInvite (JoinInviteKey token) t) as Hspec by (intros x t val Hx; spec_of Hx; done).
  pose proof (apply_success l w v Hw Hr) as H. rewrite (Hspec _ _ _ Hl) in H. unfold specConsumeInvite in H.
  destruct (committed w !! JoinInviteKey token) as [v0|] eqn:E; [|done]. injection H as H ->. split; [done|].
  assert (pending (Apply l w).1 = None) as Hp.
  { by destruct (Apply_refines l _ w Hw eq_refl) as (w' & r & -> & ? & _). }
  assert (committed (Apply l w).1 !! JoinInviteKey token = None) as Hn by (rewrite <- H; apply lookup_delete_eq).
  revert Hp Hn. generalize (Apply l w).1. clear - Hls Hspec Hl'. induction Hls as [|x ls Hx Hls IH]; intros w Hp Hn; cbn [applyAll].
  - cbn [fst]. destruct (apply_outcome l' w Hp) as [Ho|(_ & ? & _)]; [|done].
    rewrite (Hspec _ _ _ Hl') in Ho. unfold specConsumeInvite in Ho. rewrite Hn in Ho. injection Ho as _ ->. done.
  - pose proof (absent_stays x w _ Hp Hn Hx) as Hn'.
    destruct (Apply_refines x _ w Hp eq_refl) as (w' & r & E & Hp' & _). rewrite E in Hn' |- *.
    specialize (IH w' Hp' Hn'). by destruct (applyAll ls w').
Qed.

(** C35 An execution invite is honoured for the right peer, in time, and once.  A
    successful redemption returns the stored record, which had not expired, names
    a command the redeeming peer is permitted for, and is deleted with nothing
    else touched.  Without faults: an expired invite is deleted and refused; a
    peer without permission is refused and the invite stays redeemable. *)
Theorem exec_invite_redemption (l : Log) (w : world) (token peerID v commandID inputs : bytes) (expiry : Z) :
  pending w = None -> carries l OpConsumeExecInvite (ExecInviteKey token) peerID ->
  committed w !! ExecInviteKey token = Some v -> DecodeExecInviteRecord v = Ret (commandID, inputs, expiry) ->
  (forall r, (Apply l w).2 = Ret r -> r = v /\ expired expiry (AppendedAt l) = false /\
     (exists g, linked (committed w) commandID g /\ (public (committed w) g \/ member (committed w) peerID g)) /\
     committed (Apply l w).1 = delete (ExecInviteKey token) (committed w)) /\
  (healthy w -> expired expiry (AppendedAt l) = true ->
     is_fail (Apply l w).2 = true /\ committed (Apply l w).1 = delete (ExecInviteKey token) (committed w)) /\
  (expired expiry (AppendedAt l) = false ->
   ~ (exists g, linked (committed w) commandID g /\ (public (committed w) g \/ member (committed w) peerID g)) ->
     is_fail (Apply l w).2 = true /\ committed (Apply l w).1 = committed w).
Proof.
  intros Hw Hl Hv Hd.
  assert (applySpec l (committed w) =
    (if expired expiry (AppendedAt l)
     then (delete (ExecInviteKey token) (committed w), Fail (Errorf "kvfsm: consume exec invite: token expired")) else
     guard (wrap_err "kvfsm: consume exec invite: acl check: %w" (permitted commandID peerID (committed w))) (committed w) (fun ok =>
     if negb ok then (committed w, Fail (Errorf "kvfsm: consume exec invite: %s is not permitted for command %s"))
     else (delete (ExecInviteKey token) (committed w), Ret v)))) as Hspec.
  { spec_of Hl. unfold specConsumeExecInvite. rewrite Hv, Hd. done. }
  split_and!.
  - intros r Hr. pose proof (apply_success l w r Hw Hr) as H. rewrite Hspec in H.
    destruct (expired expiry (AppendedAt l)); [done|].
    destruct (permitted commandID peerID (committed w)) as [[|]|e|] eqn:Ep; cbn [wrap_err guard negb] in H; try done.
    injection H as <- <-. split_and!; [done..|by apply permitted_true|done].
  - intros Hh He. pose proof (apply_healthy l w Hw Hh) as H. rewrite Hspec, He in H. by injection H as -> ->.
  - intros He Hno. destruct (apply_outcome l w Hw) as [H|(_ & ? & ?)]; [|done]. rewrite Hspec, He in H.
    pose proof (permitted_safe commandID peerID (committed w)).
    destruct (permitted commandID peerID (committed w)) as [[|]|e|] eqn:Ep; cbn [wrap_err guard negb] in H; try done.
    + by apply permitted_true in Ep.
    + by injection H as -> ->.
    + by injection H as -> ->.
Qed.

(** * Command specs *)

(** Renaming or re-targeting a command never loses its form definition.  When a
    put of a command record succeeds: a value that carries a spec field, empty
    or not, is stored as it is; a value without one keeps the spec the previous
    record had, with the new name and target; with no previous spec the value
    is stored as it is. *)
Theorem command_spec_preserved (l : Log) (w : world) (id value : bytes) :
  pending w = None -> carries l OpSet (CommandKey id) value -> (Apply l w).2 = Ret [] ->
  exists stored, committed (Apply l w).1 = <[CommandKey id := stored]> (committed w) /\
  (forall s, DecodeCommandPayloadSpec value = Ret (Some s) -> stored = value) /\
  (committed w !! CommandKey id = None -> stored = value) /\
  (forall old s name peerID, DecodeCommandPayloadSpec value = Ret None -> DecodeCommandPayload value = Ret (name, peerID) ->
     committed w !! CommandKey id = Some old -> DecodeCommandPayloadSpec old = Ret s ->
     if bool_decide (default [] s = []) then stored = value
     else DecodeCommandPayloadFull stored = Ret (name, peerID, default [] s)).
Proof.
  intros Hw Hl Hr. pose proof (apply_success l w [] Hw Hr) as H.
  assert (applySpec l (committed w) = specApplySet (CommandKey id) value (committed w)) as Hspec by (spec_of Hl; done).
  rewrite Hspec in H. unfold specApplySet in H.
  destruct (listCap _ _) as [[]|e|]; cbn [guard] in H; [|done..].
  destruct (groupNameFree _ _ _) as [[]|e|]; cbn [guard] in H; [|done..].
  destruct (storedValue _ _ _) as [stored|e|] eqn:Es; cbn [guard] in H; [|done..]. injection H as <-.
  exists stored. split; [done|].
  unfold storedValue in Es. rewrite (proj2 (isSystemKeyOf_true _ _)) in Es by (by exists catalogStatusPlaceholder, id).
  cbn [mbind gores_bind negb] in Es.
  destruct (DecodeCommandPayloadSpec value) as [[s0|]|e|] eqn:Ev; cbn [wrap_err mbind gores_bind] in Es; [| |done..].
  { apply (inj Ret) in Es as <-. split_and!; [done..|]. intros ? ? ? ? [=]. }
  destruct (committed w !! CommandKey id) as [old|] eqn:Eold.
  2: { apply (inj Ret) in Es as <-. split_and!; [by intros ? [=]|done|]. intros ? ? ? ? _ _ [=]. }
  split_and!; [by intros ? [=]|done|]. intros old' s name peerID _ Hdec [= <-] Hold.
  unfold mergeSpec in Es. rewrite Hold in Es. 
  destruct (Z.eqb_spec (blen (default [] s)) 0) as [E0|E0]; rewrite blen_zero in E0.
  - rewrite bool_decide_eq_true_2 by done. by apply (inj Ret) in Es as <-.
  - rewrite bool_decide_eq_false_2 by done. rewrite Hdec in Es. cbn [wrap_err mbind gores_bind] in Es.
    destruct (EncodeCommandPayloadWithSpec name peerID (default [] s)) as [p|e|] eqn:Ee; cbn [wrap_err] in Es; [|done..].
    apply (inj Ret) in Es as <-. apply EncodeCommandPayloadWithSpec_Ret in Ee as (Hn & Hp & ->); [|done].
    by apply (DecodeCommandPayloadFull_v2 name peerID (default [] s) _ Hn Hp).
Qed.

(** * Command requests *)

(** A command request is recorded only for a permitted author.  On success the
    payload names an author and a record, the key is a request key of some
    command the author is permitted for, and the record is stored under it; the
    default public command also makes the author a member of the channel and
    relay groups, any other command changes no other key. *)
Theorem command_request_authorised (l : Log) (w : world) (key value : bytes) :
  pending w = None -> carries l OpAppendCommandRequest key value -> (Apply l w).2 = Ret [] ->
  exists author record commandID,
    DecodeCommandRequestApplyPayload value = Ret (author, record) /\
    (exists unitID ts, ParseKey key = Ret (CommandRequestLogKind commandID, unitID, ts)) /\
    (exists g, linked (committed w) commandID g /\ (public (committed w) g \/ member (committed w) author g)) /\
    committed (Apply l w).1 !! key = Some record /\
    (commandID <> DefaultPublicCommandID -> committed (Apply l w).1 = <[key := record]> (committed w)) /\
    (commandID = DefaultPublicCommandID ->
       member (committed (Apply l w).1) author ReservedGroupChannel /\
       member (committed (Apply l w).1) author ReservedGroupRelay).
Proof.
  intros Hw Hl Hr. pose proof (apply_success l w [] Hw Hr) as H.
  assert (applySpec l (committed w) = specAppendCommandRequest key value (committed w)) as Hspec by (spec_of Hl; done).
  rewrite Hspec in H. unfold specAppendCommandRequest in H.
  destruct (DecodeCommandRequestApplyPayload value) as [[author record]|e|]; cbn [wrap_err guard] in H; [|done..].
  destruct (ParseKey key) as [[[kind u] ts]|e|] eqn:Ek; cbn [wrap_err guard] in H; [|done..].
  destruct (ParseCommandRequestLogKind kind) as [commandID|] eqn:Ec; [|done]. apply cut_prefix_Some in Ec as ->.
  destruct (permitted commandID author (committed w)) as [[|]|e|] eqn:Ep; cbn [wrap_err guard negb] in H; try done.
  destruct (listCap key (committed w)) as [[]|e|]; cbn [guard] in H; [|done..].
  exists author, record, commandID. split; [done|]. split; [by exists u, ts|]. split; [by apply permitted_true|].
  destruct (ParseKey_prefix _ _ Ek) as [rest ->].
  destruct (bytes_eqb commandID DefaultPublicCommandID) eqn:Epub.
  - destruct (grantChannelRelay author _) as [t'|e|] eqn:Eg; cbn [wrap_err guard] in H; [|done..]. injection H as <-.
    apply grantChannelRelay_Ret in Eg as ->. apply bytes_eqb_true in Epub as ->. split_and!; [|done|].
    + by rewrite !lookup_insert_ne, lookup_insert_eq by discriminate.
    + intros _. unfold member. rewrite lookup_insert_eq, lookup_insert_ne, lookup_insert_eq; [by split; eexists|].
      intros E. unfold relation_key in E. apply app_inv_head, app_inv_head, app_inv_head in E. discriminate E.
  - injection H as <-. split_and!; [apply lookup_insert_eq|done|].
    intros ->. by rewrite bytes_eqb_refl in Epub.
Qed.

(** The grants of the default public command are not subject to the cap on the
    peer-group list: a permitted author without memberships who submits it ends
    up with two more peer-group records, however many there already are. *)
Theorem public_access_exceeds_cap (l : Log) (w : world) (key value author record : bytes) :
  pending w = None -> carries l OpAppendCommandRequest key value -> (Apply l w).2 = Ret [] ->
  DecodeCommandRequestApplyPayload value = Ret (author, record) ->
  (exists unitID ts, ParseKey key = Ret (CommandRequestLogKind DefaultPublicCommandID, unitID, ts)) ->
  ~ member (committed w) author ReservedGroupChannel -> ~ member (committed w) author ReservedGroupRelay ->
  count_prefix AllPeerGroupsPrefix (committed (Apply l w).1) = count_prefix AllPeerGroupsPrefix (committed w) + 2.
Proof.
  intros Hw Hl Hr Hd (u & ts & Hk) Hm1 Hm2. pose proof (apply_success l w [] Hw Hr) as H.
  assert (applySpec l (committed w) = specAppendCommandRequest key value (committed w)) as Hspec by (spec_of Hl; done).
  rewrite Hspec in H. unfold specAppendCommandRequest in H. rewrite Hd in H. cbn [wrap_err guard] in H.
  rewrite Hk in H. cbn [wrap_err guard] in H. unfold ParseCommandRequestLogKind, CommandRequestLogKind in H.
  rewrite cut_prefix_app in H.
  destruct (permitted _ author (committed w)) as [[|]|e|]; cbn [wrap_err guard negb] in H; try done.
  destruct (listCap key (committed w)) as [[]|e|]; cbn [guard] in H; [|done..].
  rewrite bytes_eqb_refl in H. destruct (grantChannelRelay author _) as [t'|e|] eqn:Eg; cbn [wrap_err guard] in H; [|done..].
  injection H as <-. apply grantChannelRelay_Ret in Eg as ->. destruct (ParseKey_prefix _ _ Hk) as [rest ->].
  unfold member in Hm1, Hm2. rewrite <- eq_None_not_Some in Hm1, Hm2.
  assert (forall g, AllPeerGroupsPrefix `prefix_of` relation_key KindPeerGroup author g) as Hpre by (intros; by eexists).
  assert (relation_key KindPeerGroup author ReservedGroupChannel <> relation_key KindPeerGroup author ReservedGroupRelay) as Hne.
  { intros E. unfold relation_key in E. apply app_inv_head, app_inv_head, app_inv_head in E. discriminate E. }
  rewrite count_prefix_fresh; [|by rewrite !lookup_insert_ne by (done || discriminate)|done].
  rewrite count_prefix_fresh; [|by rewrite lookup_insert_ne by discriminate|done].
  rewrite count_prefix_other; [lia|]. intros [r E]. discriminate E.
Qed.
