(* ===== verification/Events.v ===== *)
(** Requests and responses (src/pkg/shmevent): the event union of
    api/shmevent.capnp, event names (event.go), constructors (event.go,
    catalog.go, system.go, txn.go, joininvite.go, execinvite.go, joinrequest.go,
    channel.go, dialcommand.go, version.go), signatures (sign.go) and the
    register (registry.go).

    A message is modelled by its decoded content.  Reading a pointer field
    yields [Ok v], or [Malformed] when the pointer is invalid; writing one into a
    message under construction yields [Ok v] (the in-memory arena grows on
    demand).  Canonicalization and marshalling are parameters, as are the
    signature primitives. *)

From stdpp Require Import pretty.
From S2P Require Import Prelude SystemKeys Payloads Txn.
#[local] Open Scope Z_scope.

(** * Messages *)

(** A pointer field, as its accessor sees it. *)
Inductive ptr (A : Type) : Type :=
| Ok (a : A)
| Malformed.
Arguments Ok {A} a.
Arguments Malformed {A}.

Abbreviation field := (ptr (list Byte.byte)) (only parsing).

(** [v, err := grp.X()] *)
Definition rd {A} (p : ptr A) : gores A :=
  match p with
  | Ok a => Ret a
  | Malformed => Fail (Errorf "capnp: invalid pointer")
  end.

(** An element of the transaction list. *)
Record TxnOp : Type := mkTxnOpMsg {
  txnOp_op : byte;
  txnOp_key : field;
  txnOp_value : field;
}.

(** The discriminant of the event union, and any other 16-bit value a peer may send. *)
Inductive Event_Which : Type :=
| Event_Which_setKey
| Event_Which_setField
| Event_Which_getKey
| Event_Which_getFieldByRegistry
| Event_Which_getFieldByKey
| Event_Which_getPublicKey
| Event_Which_getPrivateKey
| Event_Which_bootstrapOrJoinCluster
| Event_Which_addLearner
| Event_Which_set
| Event_Which_execute
| Event_Which_pollExecute
| Event_Which_listRange
| Event_Which_logAppend
| Event_Which_leave
| Event_Which_execInviteRedeem
| Event_Which_joinRequestCreate
| Event_Which_joinRequestCancel
| Event_Which_recruit
| Event_Which_getOwnAddr
| Event_Which_channelOpen
| Event_Which_channelSend
| Event_Which_channelPoll
| Event_Which_channelListen
| Event_Which_channelClose
| Event_Which_channelCloseWrite
| Event_Which_channelDataReady
| Event_Which_kick
| Event_Which_txn
| Event_Which_getVersion
| Event_Which_publicAccess
| Event_Which_execTicket
| Event_Which_joinTicket
| Event_Which_joinRequestTicket
| Event_Which_dialSubmitCommand
| Event_Which_dialQueryCommandLog
| Event_Which_error
| Event_Which_groupPut
| Event_Which_groupDelete
| Event_Which_commandPut
| Event_Which_commandDelete
| Event_Which_stationPut
| Event_Which_stationDelete
| Event_Which_groupCommandPut
| Event_Which_groupCommandDelete
| Event_Which_peerGroupPut
| Event_Which_peerGroupDelete
| Event_Which_permitRequest
| Event_Which_permitConfirm
| Event_Which_permitRevoke
| Event_Which_joinInviteCreate
| Event_Which_joinInviteRevoke
| Event_Which_execInviteCreate
| Event_Which_execInviteRevoke
| Event_Which_unknown (discriminant : Z).

#[global] Instance Event_Which_eq_dec : EqDecision Event_Which.
Proof. solve_decision. Defined.

(** The event union, one constructor per group of the schema.  [spec] of a
    command put is [None] when the pointer is null ([HasSpec()] is false). *)
Inductive Event : Type :=
| E_setKey (value : field)
| E_setField (sourceId : Z) (value : field)
| E_getKey (sourceId : Z) (key : field)
| E_getFieldByRegistry (sourceId : Z) (value : field)
| E_getFieldByKey (key : field) (value : field)
| E_getPublicKey (pubKey : field)
| E_getPrivateKey (privKey : field)
| E_bootstrapOrJoinCluster (leaderAddr : field)
| E_addLearner (claimedPeerId : Z) (addr : field)
| E_set (key : field) (value : field)
| E_execute (sourceId : Z) (destinationId : Z) (senderPeerId : field) (value : field)
| E_pollExecute (senderPeerId : field) (value : field)
| E_listRange (start : field) (end_ : field) (key : field) (value : field)
| E_logAppend (key : field) (value : field)
| E_leave
| E_execInviteRedeem (sourceAddr : field) (token : field) (instanceId : field) (redeemerPeerId : field)
| E_joinRequestCreate (token : field)
| E_joinRequestCancel (token : field)
| E_recruit (ticket : field) (suffrage : byte)
| E_getOwnAddr (addr : field)
| E_channelOpen (peerId : field) (senderPeerId : field)
| E_channelSend (channelId : field) (purpose : byte) (chunk : field)
| E_channelPoll (channelId : field) (status : byte) (purpose : byte) (chunk : field)
| E_channelListen (channelId : field) (remotePeerId : field)
| E_channelClose (channelId : field)
| E_channelCloseWrite (channelId : field)
| E_channelDataReady (channelId : field)
| E_kick (peerId : field)
| E_txn (ops : ptr (list TxnOp))
| E_getVersion (commit : field) (dirty : bool) (buildTime : field) (goVersion : field) (libp2pVersion : field)
| E_publicAccess (targetPeer : field) (note : field) (instanceId : field)
| E_execTicket (sourceAddr : field) (token : field)
| E_joinTicket (sourceAddr : field) (token : field)
| E_joinRequestTicket (sourceAddr : field) (token : field)
| E_dialSubmitCommand (targetPeer : field) (commandId : field) (inputsJson : field) (note : field) (instanceId : field)
| E_dialQueryCommandLog (targetPeer : field) (instanceId : field) (since : Z) (until : Z) (limit : Z) (records : ptr (list field))
| E_error (message : field)
| E_groupPut (id : field) (name : field) (public_ : bool)
| E_groupDelete (id : field)
| E_commandPut (id : field) (name : field) (peerId : field) (spec : option field)
| E_commandDelete (id : field)
| E_stationPut (peerId : field) (name : field) (attrs : field)
| E_stationDelete (peerId : field)
| E_groupCommandPut (commandId : field) (groupId : field)
| E_groupCommandDelete (commandId : field) (groupId : field)
| E_peerGroupPut (peerId : field) (groupId : field)
| E_peerGroupDelete (peerId : field) (groupId : field)
| E_permitRequest (kind : byte) (peerId : field) (metadata : field)
| E_permitConfirm (kind : byte) (peerId : field)
| E_permitRevoke (kind : byte) (peerId : field)
| E_joinInviteCreate (token : field) (suffrage : byte)
| E_joinInviteRevoke (token : field)
| E_execInviteCreate (token : field) (commandId : field) (inputsJson : field) (ttlSeconds : Z)
| E_execInviteRevoke (token : field)
| E_unknown (discriminant : Z).

(** A message: envelope fields and the union. *)
Record Msg : Type := mkMsg {
  Id : Z;
  Crc32 : Z;
  Signature : field;
  Body : Event;
}.

Definition Which (m : Msg) : Event_Which :=
  match Body m with
  | E_setKey _ => Event_Which_setKey
  | E_setField _ _ => Event_Which_setField
  | E_getKey _ _ => Event_Which_getKey
  | E_getFieldByRegistry _ _ => Event_Which_getFieldByRegistry
  | E_getFieldByKey _ _ => Event_Which_getFieldByKey
  | E_getPublicKey _ => Event_Which_getPublicKey
  | E_getPrivateKey _ => Event_Which_getPrivateKey
  | E_bootstrapOrJoinCluster _ => Event_Which_bootstrapOrJoinCluster
  | E_addLearner _ _ => Event_Which_addLearner
  | E_set _ _ => Event_Which_set
  | E_execute _ _ _ _ => Event_Which_execute
  | E_pollExecute _ _ => Event_Which_pollExecute
  | E_listRange _ _ _ _ => Event_Which_listRange
  | E_logAppend _ _ => Event_Which_logAppend
  | E_leave => Event_Which_leave
  | E_execInviteRedeem _ _ _ _ => Event_Which_execInviteRedeem
  | E_joinRequestCreate _ => Event_Which_joinRequestCreate
  | E_joinRequestCancel _ => Event_Which_joinRequestCancel
  | E_recruit _ _ => Event_Which_recruit
  | E_getOwnAddr _ => Event_Which_getOwnAddr
  | E_channelOpen _ _ => Event_Which_channelOpen
  | E_channelSend _ _ _ => Event_Which_channelSend
  | E_channelPoll _ _ _ _ => Event_Which_channelPoll
  | E_channelListen _ _ => Event_Which_channelListen
  | E_channelClose _ => Event_Which_channelClose
  | E_channelCloseWrite _ => Event_Which_channelCloseWrite
  | E_channelDataReady _ => Event_Which_channelDataReady
  | E_kick _ => Event_Which_kick
  | E_txn _ => Event_Which_txn
  | E_getVersion _ _ _ _ _ => Event_Which_getVersion
  | E_publicAccess _ _ _ => Event_Which_publicAccess
  | E_execTicket _ _ => Event_Which_execTicket
  | E_joinTicket _ _ => Event_Which_joinTicket
  | E_joinRequestTicket _ _ => Event_Which_joinRequestTicket
  | E_dialSubmitCommand _ _ _ _ _ => Event_Which_dialSubmitCommand
  | E_dialQueryCommandLog _ _ _ _ _ _ => Event_Which_dialQueryCommandLog
  | E_error _ => Event_Which_error
  | E_groupPut _ _ _ => Event_Which_groupPut
  | E_groupDelete _ => Event_Which_groupDelete
  | E_commandPut _ _ _ _ => Event_Which_commandPut
  | E_commandDelete _ => Event_Which_commandDelete
  | E_stationPut _ _ _ => Event_Which_stationPut
  | E_stationDelete _ => Event_Which_stationDelete
  | E_groupCommandPut _ _ => Event_Which_groupCommandPut
  | E_groupCommandDelete _ _ => Event_Which_groupCommandDelete
  | E_peerGroupPut _ _ => Event_Which_peerGroupPut
  | E_peerGroupDelete _ _ => Event_Which_peerGroupDelete
  | E_permitRequest _ _ _ => Event_Which_permitRequest
  | E_permitConfirm _ _ => Event_Which_permitConfirm
  | E_permitRevoke _ _ => Event_Which_permitRevoke
  | E_joinInviteCreate _ _ => Event_Which_joinInviteCreate
  | E_joinInviteRevoke _ => Event_Which_joinInviteRevoke
  | E_execInviteCreate _ _ _ _ => Event_Which_execInviteCreate
  | E_execInviteRevoke _ => Event_Which_execInviteRevoke
  | E_unknown d => Event_Which_unknown d
  end.

Definition EventName (w : Event_Which) : bytes :=
  match w with
  | Event_Which_setKey => bs "set_key"
  | Event_Which_setField => bs "set_field"
  | Event_Which_getKey => bs "get_key"
  | Event_Which_getFieldByRegistry => bs "get_field_by_registry"
  | Event_Which_getFieldByKey => bs "get_field_by_key"
  | Event_Which_getPublicKey => bs "get_public_key"
  | Event_Which_getPrivateKey => bs "get_private_key"
  | Event_Which_bootstrapOrJoinCluster => bs "bootstrap_or_join_cluster"
  | Event_Which_addLearner => bs "add_learner"
  | Event_Which_set => bs "set"
  | Event_Which_execute => bs "execute"
  | Event_Which_pollExecute => bs "poll_execute"
  | Event_Which_listRange => bs "list_range"
  | Event_Which_logAppend => bs "log_append"
  | Event_Which_leave => bs "leave"
  | Event_Which_execInviteRedeem => bs "exec_invite_redeem"
  | Event_Which_joinRequestCreate => bs "join_request_create"
  | Event_Which_joinRequestCancel => bs "join_request_cancel"
  | Event_Which_recruit => bs "recruit"
  | Event_Which_getOwnAddr => bs "get_own_addr"
  | Event_Which_channelOpen => bs "channel_open"
  | Event_Which_channelSend => bs "channel_send"
  | Event_Which_channelPoll => bs "channel_poll"
  | Event_Which_channelListen => bs "channel_listen"
  | Event_Which_channelClose => bs "channel_close"
  | Event_Which_channelCloseWrite => bs "channel_close_write"
  | Event_Which_channelDataReady => bs "channel_data_ready"
  | Event_Which_kick => bs "kick"
  | Event_Which_txn => bs "txn"
  | Event_Which_getVersion => bs "get_version"
  | Event_Which_publicAccess => bs "public_access"
  | Event_Which_execTicket => bs "exec_ticket"
  | Event_Which_joinTicket => bs "join_ticket"
  | Event_Which_joinRequestTicket => bs "join_request_ticket"
  | Event_Which_dialSubmitCommand => bs "dial_submit_command"
  | Event_Which_dialQueryCommandLog => bs "dial_query_command_log"
  | Event_Which_error => bs "error"
  | Event_Which_groupPut => bs "group_put"
  | Event_Which_groupDelete => bs "group_delete"
  | Event_Which_commandPut => bs "command_put"
  | Event_Which_commandDelete => bs "command_delete"
  | Event_Which_stationPut => bs "station_put"
  | Event_Which_stationDelete => bs "station_delete"
  | Event_Which_groupCommandPut => bs "group_command_put"
  | Event_Which_groupCommandDelete => bs "group_command_delete"
  | Event_Which_peerGroupPut => bs "peer_group_put"
  | Event_Which_peerGroupDelete => bs "peer_group_delete"
  | Event_Which_permitRequest => bs "permit_request"
  | Event_Which_permitConfirm => bs "permit_confirm"
  | Event_Which_permitRevoke => bs "permit_revoke"
  | Event_Which_joinInviteCreate => bs "join_invite_create"
  | Event_Which_joinInviteRevoke => bs "join_invite_revoke"
  | Event_Which_execInviteCreate => bs "exec_invite_create"
  | Event_Which_execInviteRevoke => bs "exec_invite_revoke"
  | Event_Which_unknown d => bs "unknown(" ++ bs (pretty d) ++ bs ")"
  end.

Definition EventFromName (name : bytes) : option Event_Which :=
  if bytes_eqb name (bs "set_key") then Some Event_Which_setKey
  else if bytes_eqb name (bs "set_field") then Some Event_Which_setField
  else if bytes_eqb name (bs "get_key") then Some Event_Which_getKey
  else if bytes_eqb name (bs "get_field_by_registry") then Some Event_Which_getFieldByRegistry
  else if bytes_eqb name (bs "get_field_by_key") then Some Event_Which_getFieldByKey
  else if bytes_eqb name (bs "get_public_key") then Some Event_Which_getPublicKey
  else if bytes_eqb name (bs "get_private_key") then Some Event_Which_getPrivateKey
  else if bytes_eqb name (bs "bootstrap_or_join_cluster") then Some Event_Which_bootstrapOrJoinCluster
  else if bytes_eqb name (bs "add_learner") then Some Event_Which_addLearner
  else if bytes_eqb name (bs "set") then Some Event_Which_set
  else if bytes_eqb name (bs "execute") then Some Event_Which_execute
  else if bytes_eqb name (bs "poll_execute") then Some Event_Which_pollExecute
  else if bytes_eqb name (bs "list_range") then Some Event_Which_listRange
  else if bytes_eqb name (bs "log_append") then Some Event_Which_logAppend
  else if bytes_eqb name (bs "leave") then Some Event_Which_leave
  else if bytes_eqb name (bs "exec_invite_redeem") then Some Event_Which_execInviteRedeem
  else if bytes_eqb name (bs "join_request_create") then Some Event_Which_joinRequestCreate
  else if bytes_eqb name (bs "join_request_cancel") then Some Event_Which_joinRequestCancel
  else if bytes_eqb name (bs "recruit") then Some Event_Which_recruit
  else if bytes_eqb name (bs "get_own_addr") then Some Event_Which_getOwnAddr
  else if bytes_eqb name (bs "channel_open") then Some Event_Which_channelOpen
  else if bytes_eqb name (bs "channel_send") then Some Event_Which_channelSend
  else if bytes_eqb name (bs "channel_poll") then Some Event_Which_channelPoll
  else if bytes_eqb name (bs "channel_listen") then Some Event_Which_channelListen
  else if bytes_eqb name (bs "channel_close") then Some Event_Which_channelClose
  else if bytes_eqb name (bs "channel_close_write") then Some Event_Which_channelCloseWrite
  else if bytes_eqb name (bs "channel_data_ready") then Some Event_Which_channelDataReady
  else if bytes_eqb name (bs "kick") then Some Event_Which_kick
  else if bytes_eqb name (bs "txn") then Some Event_Which_txn
  else if bytes_eqb name (bs "get_version") then Some Event_Which_getVersion
  else if bytes_eqb name (bs "public_access") then Some Event_Which_publicAccess
  else if bytes_eqb name (bs "exec_ticket") then Some Event_Which_execTicket
  else if bytes_eqb name (bs "join_ticket") then Some Event_Which_joinTicket
  else if bytes_eqb name (bs "join_request_ticket") then Some Event_Which_joinRequestTicket
  else if bytes_eqb name (bs "dial_submit_command") then Some Event_Which_dialSubmitCommand
  else if bytes_eqb name (bs "dial_query_command_log") then Some Event_Which_dialQueryCommandLog
  else if bytes_eqb name (bs "error") then Some Event_Which_error
  else if bytes_eqb name (bs "group_put") then Some Event_Which_groupPut
  else if bytes_eqb name (bs "group_delete") then Some Event_Which_groupDelete
  else if bytes_eqb name (bs "command_put") then Some Event_Which_commandPut
  else if bytes_eqb name (bs "command_delete") then Some Event_Which_commandDelete
  else if bytes_eqb name (bs "station_put") then Some Event_Which_stationPut
  else if bytes_eqb name (bs "station_delete") then Some Event_Which_stationDelete
  else if bytes_eqb name (bs "group_command_put") then Some Event_Which_groupCommandPut
  else if bytes_eqb name (bs "group_command_delete") then Some Event_Which_groupCommandDelete
  else if bytes_eqb name (bs "peer_group_put") then Some Event_Which_peerGroupPut
  else if bytes_eqb name (bs "peer_group_delete") then Some Event_Which_peerGroupDelete
  else if bytes_eqb name (bs "permit_request") then Some Event_Which_permitRequest
  else if bytes_eqb name (bs "permit_confirm") then Some Event_Which_permitConfirm
  else if bytes_eqb name (bs "permit_revoke") then Some Event_Which_permitRevoke
  else if bytes_eqb name (bs "join_invite_create") then Some Event_Which_joinInviteCreate
  else if bytes_eqb name (bs "join_invite_revoke") then Some Event_Which_joinInviteRevoke
  else if bytes_eqb name (bs "exec_invite_create") then Some Event_Which_execInviteCreate
  else if bytes_eqb name (bs "exec_invite_revoke") then Some Event_Which_execInviteRevoke
  else None.

(** [newMsg] followed by the setter of a union member. *)
Definition newMsg (e : Event) : Msg := mkMsg 0 0 (Ok []) e.

Definition SetId (id : Z) (m : Msg) : Msg := mkMsg id (Crc32 m) (Signature m) (Body m).
Definition SetBody (e : Event) (m : Msg) : Msg := mkMsg (Id m) (Crc32 m) (Signature m) e.

(** * Constructors *)

Definition MaxValueSize : Z := Z.shiftl 8 20.

Definition checkValueLen (n : Z) : gores unit :=
  if MaxValueSize <? n then Fail (Errorf "shmevent: value %d bytes exceeds MaxValueSize %d") else Ret tt.

Definition checkValueSize (value : bytes) : gores unit := checkValueLen (blen value).

Definition NewSetKey (value : bytes) : gores Msg :=
  _ ← checkValueSize value; Ret (newMsg (E_setKey (Ok value))).
Definition NewSetField (sourceID : Z) (value : bytes) : gores Msg :=
  _ ← checkValueSize value; Ret (newMsg (E_setField sourceID (Ok value))).
Definition NewGetKey (sourceID : Z) : gores Msg := Ret (newMsg (E_getKey sourceID (Ok []))).
Definition NewGetFieldByRegistry (sourceID : Z) : gores Msg :=
  Ret (newMsg (E_getFieldByRegistry sourceID (Ok []))).
Definition NewGetFieldByKey (key : bytes) : gores Msg := Ret (newMsg (E_getFieldByKey (Ok key) (Ok []))).
Definition NewGetPublicKey : gores Msg := Ret (newMsg (E_getPublicKey (Ok []))).
Definition NewGetPrivateKey : gores Msg := Ret (newMsg (E_getPrivateKey (Ok []))).
Definition NewBootstrapOrJoinCluster (leaderAddr : bytes) : gores Msg :=
  Ret (newMsg (E_bootstrapOrJoinCluster (Ok leaderAddr))).
Definition NewAddLearner (claimedPeerID : Z) (addr : bytes) : gores Msg :=
  Ret (newMsg (E_addLearner claimedPeerID (Ok addr))).
Definition NewSet (key value : bytes) : gores Msg :=
  _ ← checkValueSize value; Ret (newMsg (E_set (Ok key) (Ok value))).
Definition NewExecute (sourceID destinationID : Z) (value : bytes) : gores Msg :=
  _ ← checkValueSize value; Ret (newMsg (E_execute sourceID destinationID (Ok []) (Ok value))).
Definition NewExecuteNotification (senderPeerID value : bytes) : gores Msg :=
  _ ← checkValueSize value; Ret (newMsg (E_execute 0 0 (Ok senderPeerID) (Ok value))).
Definition NewChannelOpenHandshake (senderPeerID : bytes) : gores Msg :=
  Ret (newMsg (E_channelOpen (Ok []) (Ok senderPeerID))).
Definition NewPollExecute : gores Msg := Ret (newMsg (E_pollExecute (Ok []) (Ok []))).
Definition NewListRange (start stop : bytes) : gores Msg :=
  Ret (newMsg (E_listRange (Ok start) (Ok stop) (Ok []) (Ok []))).
Definition NewLogAppend (key value : bytes) : gores Msg :=
  _ ← checkValueSize value; Ret (newMsg (E_logAppend (Ok key) (Ok value))).
Definition NewLeave : gores Msg := Ret (newMsg E_leave).
Definition NewKick (peerID : bytes) : gores Msg := Ret (newMsg (E_kick (Ok peerID))).
Definition NewGetOwnAddr : gores Msg := Ret (newMsg (E_getOwnAddr (Ok []))).
Definition NewGetVersion : gores Msg := Ret (newMsg (E_getVersion (Ok []) false (Ok []) (Ok []) (Ok []))).
Definition NewError (message : bytes) : gores Msg := Ret (newMsg (E_error (Ok message))).

(** The catalog (catalog.go). *)
Definition NewGroupPut (id name : bytes) (public : bool) : gores Msg :=
  Ret (newMsg (E_groupPut (Ok id) (Ok name) public)).
Definition NewGroupDelete (id : bytes) : gores Msg := Ret (newMsg (E_groupDelete (Ok id))).
Definition NewCommandPut (id name peerID : bytes) : gores Msg :=
  Ret (newMsg (E_commandPut (Ok id) (Ok name) (Ok peerID) None)).
Definition SetSpec (spec : bytes) (m : Msg) : Msg :=
  match Body m with
  | E_commandPut id name peerId _ => SetBody (E_commandPut id name peerId (Some (Ok spec))) m
  | _ => m
  end.
Definition NewCommandPutWithSpec (id name peerID spec : bytes) : gores Msg :=
  _ ← checkValueSize spec;
  m ← NewCommandPut id name peerID;
  Ret (SetSpec spec m).
Definition NewCommandDelete (id : bytes) : gores Msg := Ret (newMsg (E_commandDelete (Ok id))).
Definition NewStationPut (peerID name attrs : bytes) : gores Msg :=
  _ ← checkValueSize attrs; Ret (newMsg (E_stationPut (Ok peerID) (Ok name) (Ok attrs))).
Definition NewStationDelete (peerID : bytes) : gores Msg := Ret (newMsg (E_stationDelete (Ok peerID))).
Definition NewGroupCommandPut (commandID groupID : bytes) : gores Msg :=
  Ret (newMsg (E_groupCommandPut (Ok commandID) (Ok groupID))).
Definition NewGroupCommandDelete (commandID groupID : bytes) : gores Msg :=
  Ret (newMsg (E_groupCommandDelete (Ok commandID) (Ok groupID))).
Definition NewPeerGroupPut (peerID groupID : bytes) : gores Msg :=
  Ret (newMsg (E_peerGroupPut (Ok peerID) (Ok groupID))).
Definition NewPeerGroupDelete (peerID groupID : bytes) : gores Msg :=
  Ret (newMsg (E_peerGroupDelete (Ok peerID) (Ok groupID))).

(** Permits (system.go). *)
Definition NewPermitRequest (kind : byte) (peerID metadata : bytes) : gores Msg :=
  Ret (newMsg (E_permitRequest kind (Ok peerID) (Ok metadata))).
Definition NewPermitConfirm (kind : byte) (peerID : bytes) : gores Msg :=
  Ret (newMsg (E_permitConfirm kind (Ok peerID))).
Definition NewPermitRevoke (kind : byte) (peerID : bytes) : gores Msg :=
  Ret (newMsg (E_permitRevoke kind (Ok peerID))).

(** Invites, tickets and recruiting (joininvite.go, execinvite.go, joinrequest.go). *)
Definition checkJoinToken (token : bytes) : gores unit :=
  if negb (blen token =? JoinInviteTokenSize)
  then Fail (Errorf "shmevent: join invite token must be %d bytes, got %d") else Ret tt.
Definition checkExecToken (token : bytes) : gores unit :=
  if negb (blen token =? ExecInviteTokenSize)
  then Fail (Errorf "shmevent: exec invite token must be %d bytes, got %d") else Ret tt.
Definition NewJoinInviteCreate (token : bytes) (suffrage : byte) : gores Msg :=
  _ ← checkJoinToken token; Ret (newMsg (E_joinInviteCreate (Ok token) suffrage)).
Definition NewJoinInviteRevoke (token : bytes) : gores Msg := Ret (newMsg (E_joinInviteRevoke (Ok token))).
Definition NewJoinTicket (sourceAddr token : bytes) : gores Msg :=
  Ret (newMsg (E_joinTicket (Ok sourceAddr) (Ok token))).
Definition NewExecInviteCreate (token commandID inputsJSON : bytes) (ttlSeconds : Z) : gores Msg :=
  _ ← checkExecToken token;
  Ret (newMsg (E_execInviteCreate (Ok token) (Ok commandID) (Ok inputsJSON) ttlSeconds)).
Definition NewExecInviteRevoke (token : bytes) : gores Msg := Ret (newMsg (E_execInviteRevoke (Ok token))).
Definition NewExecInviteRedeem (sourceAddr token : bytes) : gores Msg :=
  _ ← checkExecToken token;
  Ret (newMsg (E_execInviteRedeem (Ok sourceAddr) (Ok token) (Ok []) (Ok []))).
Definition NewExecInviteRedeemNotification (redeemerPeerID token : bytes) : gores Msg :=
  _ ← checkExecToken token;
  Ret (newMsg (E_execInviteRedeem (Ok []) (Ok token) (Ok []) (Ok redeemerPeerID))).
Definition NewExecTicket (sourceAddr token : bytes) : gores Msg :=
  _ ← checkExecToken token; Ret (newMsg (E_execTicket (Ok sourceAddr) (Ok token))).
Definition NewJoinRequestCreate : gores Msg := Ret (newMsg (E_joinRequestCreate (Ok []))).
Definition NewJoinRequestCancel (token : bytes) : gores Msg :=
  if negb (blen token =? JoinInviteTokenSize)
  then Fail (Errorf "shmevent: join request token must be %d bytes, got %d") else
  Ret (newMsg (E_joinRequestCancel (Ok token))).
Definition NewRecruit (ticket : bytes) (suffrage : byte) : gores Msg :=
  Ret (newMsg (E_recruit (Ok ticket) suffrage)).
Definition NewJoinRequestTicket (sourceAddr token : bytes) : gores Msg :=
  Ret (newMsg (E_joinRequestTicket (Ok sourceAddr) (Ok token))).

(** Channels (channel.go). *)
Definition NewChannelOpen (peerID : bytes) : gores Msg := Ret (newMsg (E_channelOpen (Ok peerID) (Ok []))).
Definition NewChannelSend (channelID : bytes) (purpose : byte) (chunk : bytes) : gores Msg :=
  _ ← checkValueSize chunk; Ret (newMsg (E_channelSend (Ok channelID) purpose (Ok chunk))).
Definition NewChannelPoll (channelID : bytes) : gores Msg :=
  Ret (newMsg (E_channelPoll (Ok channelID) Byte.x00 Byte.x00 (Ok []))).
Definition NewChannelListen : gores Msg := Ret (newMsg (E_channelListen (Ok []) (Ok []))).
Definition NewChannelClose (channelID : bytes) : gores Msg := Ret (newMsg (E_channelClose (Ok channelID))).
Definition NewChannelCloseWrite (channelID : bytes) : gores Msg :=
  Ret (newMsg (E_channelCloseWrite (Ok channelID))).
Definition NewChannelDataReady (channelID : bytes) : gores Msg :=
  Ret (newMsg (E_channelDataReady (Ok channelID))).

(** Dialling out (dialcommand.go); [since] and [until] in Unix nanoseconds. *)
Definition NewPublicAccess (targetPeer note : bytes) : gores Msg :=
  Ret (newMsg (E_publicAccess (Ok targetPeer) (Ok note) (Ok []))).
Definition NewDialSubmitCommand (targetPeer commandID inputsJSON note : bytes) : gores Msg :=
  Ret (newMsg (E_dialSubmitCommand (Ok targetPeer) (Ok commandID) (Ok inputsJSON) (Ok note) (Ok []))).

(** [int32(limit)] *)
Definition s32 (z : Z) : Z := let u := u32 z in if u <? 2 ^ 31 then u else u - 2 ^ 32.

Definition NewDialQueryCommandLog (targetPeer instanceID : bytes) (since until limit : Z) : gores Msg :=
  Ret (newMsg (E_dialQueryCommandLog (Ok targetPeer) (Ok instanceID) since until (s32 limit) (Ok []))).

(** Build information (version.go). *)
Record VersionInfo : Type := mkVersionInfo {
  Commit : bytes;
  Dirty : bool;
  BuildTime : bytes;
  GoVersion : bytes;
  Libp2pVersion : bytes;
}.

Definition NewGetVersionResponse (v : VersionInfo) : gores Msg :=
  Ret (newMsg (E_getVersion (Ok (Commit v)) (Dirty v) (Ok (BuildTime v)) (Ok (GoVersion v))
                 (Ok (Libp2pVersion v)))).

Definition VersionInfoFrom (commit : field) (dirty : bool) (buildTime goVersion libp2pVersion : field)
  : gores VersionInfo :=
  commit ← wrap_err "shmevent: get_version commit: %w" (rd commit);
  buildTime ← wrap_err "shmevent: get_version build_time: %w" (rd buildTime);
  goVersion ← wrap_err "shmevent: get_version go_version: %w" (rd goVersion);
  libp2pVersion ← wrap_err "shmevent: get_version libp2p_version: %w" (rd libp2pVersion);
  Ret (mkVersionInfo commit dirty buildTime goVersion libp2pVersion).

(** * Transactions in a message (txn.go) *)

(** The checking loop of [NewTxn]. *)
Fixpoint checkNewTxnOps (ops : list TxnOpSpec) : gores unit :=
  match ops with
  | [] => Ret tt
  | op :: ops' =>
    if blen (Key op) =? 0 then Fail (Errorf "shmevent: txn op has an empty key") else
    if negb (ValidTxnOp (Op op)) then Fail (Errorf "shmevent: txn op has unknown kind %d") else
    _ ← checkValueSize (Value op);
    checkNewTxnOps ops'
  end.

Definition NewTxn (ops : list TxnOpSpec) : gores Msg :=
  if 0xFFFF <? blen ops then Fail (Errorf "shmevent: txn has too many ops: %d") else
  _ ← checkNewTxnOps ops;
  Ret (newMsg (E_txn (Ok (map (fun op => mkTxnOpMsg (Op op) (Ok (Key op)) (Ok (Value op))) ops)))).

Fixpoint readTxnOps (l : list TxnOp) : gores (list TxnOpSpec) :=
  match l with
  | [] => Ret []
  | src :: l' =>
    key ← wrap_err "shmevent: txn op %d key: %w" (rd (txnOp_key src));
    value ← wrap_err "shmevent: txn op %d value: %w" (rd (txnOp_value src));
    out ← readTxnOps l';
    Ret (mkTxnOp (txnOp_op src) key value :: out)
  end.

Definition TxnOps (ops : ptr (list TxnOp)) : gores (list TxnOpSpec) :=
  l ← wrap_err "shmevent: txn ops: %w" (rd ops);
  readTxnOps l.

(** * Channel purposes (channel.go) *)

Definition ChannelPollNoData : byte := Byte.x00.
Definition ChannelPollChunk : byte := Byte.x01.
Definition ChannelPollClosed : byte := Byte.x02.
Definition ChannelPurposeData : byte := Byte.x00.
Definition ChannelPurposeControl : byte := Byte.x01.
Definition ChannelPurposeVideo : byte := Byte.x02.

Definition ChannelPurposeName (p : byte) : bytes :=
  if byte_eqb p ChannelPurposeData then bs "data"
  else if byte_eqb p ChannelPurposeControl then bs "control"
  else if byte_eqb p ChannelPurposeVideo then bs "video"
  else bs (pretty (Byte.to_N p)).

(** [strconv.ParseUint(s, 10, 8)]: decimal digits only, at least one, value at most 255. *)
Fixpoint parse_digits (acc : Z) (s : bytes) : option Z :=
  match s with
  | [] => Some acc
  | c :: s' =>
    let d := byte_to_Z c - 0x30 in
    if (0 <=? d) && (d <=? 9) then parse_digits (acc * 10 + d) s' else None
  end.

Definition ParseUint8 (s : bytes) : option Z :=
  if blen s =? 0 then None else
  match parse_digits 0 s with
  | Some n => if n <=? 255 then Some n else None
  | None => None
  end.

Definition ChannelPurposeFromName (name : bytes) : option byte :=
  if bytes_eqb name [] || bytes_eqb name (bs "data") then Some ChannelPurposeData
  else if bytes_eqb name (bs "control") then Some ChannelPurposeControl
  else if bytes_eqb name (bs "video") then Some ChannelPurposeVideo
  else byte_of_Z <$> ParseUint8 name.

(** * Signatures (sign.go) *)

Definition RequiresSignature (w : Event_Which) : bool :=
  negb (bool_decide (w = Event_Which_getPublicKey)) && negb (bool_decide (w = Event_Which_getPrivateKey)).

Section Envelope.
(** [capnp.Canonicalize], [ed25519.Sign] and [ed25519.Verify]. *)
Context (Canonicalize : Msg -> gores bytes).
Context (ed25519_sign : bytes -> bytes -> bytes).
Context (ed25519_verify : bytes -> bytes -> bytes -> bool).

(** The CRC and signature are overwritten for the marshalling and restored on
    return, so the message itself is left as it was. *)
Definition marshalWithCrcAndEmptySig (m : Msg) (crc : Z) : gores bytes :=
  _ ← wrap_err "shmevent: signature: %w" (rd (Signature m));
  wrap_err "shmevent: canonicalize: %w" (Canonicalize (mkMsg (Id m) crc (Ok []) (Body m))).

Definition crc32Of (m : Msg) : gores Z :=
  raw ← marshalWithCrcAndEmptySig m 0;
  Ret (crc32_ieee raw).

Definition signedPayload (m : Msg) (crc : Z) : gores bytes := marshalWithCrcAndEmptySig m crc.

(** [priv] is [None] for a nil key. *)
Definition Sign (priv : option bytes) (m : Msg) (crc : Z) : gores bytes :=
  match priv with
  | None =>
    if RequiresSignature (Which m) then Fail (Errorf "shmevent: signing key required for event %s")
    else Ret (replicate 64 Byte.x00)
  | Some priv =>
    if negb (blen priv =? PrivateKeySize)
    then Fail (Errorf "shmevent: private key must be %d bytes, got %d") else
    payload ← signedPayload m crc;
    Ret (ed25519_sign priv payload)
  end.

Definition Verify (pub : bytes) (m : Msg) (crc : Z) (sig : bytes) : gores unit :=
  if negb (blen pub =? PublicKeySize)
  then Fail (Errorf "shmevent: public key must be %d bytes, got %d") else
  if negb (blen sig =? SignatureSize)
  then Fail (Errorf "shmevent: signature must be %d bytes, got %d") else
  payload ← signedPayload m crc;
  if negb (ed25519_verify pub payload sig)
  then Fail (Errorf "shmevent: signature verification failed for event %s (id %d)")
  else Ret tt.

(** [Message().Marshal] and [capnp.Unmarshal] with [ReadRootEvent]. *)
Context (Marshal : Msg -> gores bytes).
Context (Unmarshal : bytes -> gores Msg).

Definition Encode (m : Msg) (priv : option bytes) : gores bytes :=
  crc ← wrap_err "shmevent: crc32: %w" (crc32Of m);
  let m := mkMsg (Id m) crc (Signature m) (Body m) in
  sig ← wrap_err "shmevent: sign: %w" (Sign priv m crc);
  Marshal (mkMsg (Id m) crc (Ok sig) (Body m)).

(** The writable copy has the content of the decoded message. *)
Definition Decode (buf : bytes) : gores (Msg * Z * bytes) :=
  root ← wrap_err "shmevent: unmarshal: %w" (Unmarshal buf);
  let wantCRC := Crc32 root in
  sig ← wrap_err "shmevent: signature: %w" (rd (Signature root));
  gotCRC ← wrap_err "shmevent: crc32: %w" (crc32Of root);
  if negb (gotCRC =? wantCRC) then Fail (Errorf "shmevent: crc32 mismatch: got %#x, message says %#x")
  else Ret (root, wantCRC, sig).
End Envelope.

(** * The register (registry.go) *)

Abbreviation Registry := (gmap Z (list Byte.byte)) (only parsing).

(** The copies of [Register] and [Lookup] detach the entry from the caller's
    buffer, so an entry is a value. *)
Definition Register (id : Z) (value : bytes) (r : Registry) : Registry := <[u16 id := value]> r.
Definition Lookup (id : Z) (r : Registry) : option bytes := r !! u16 id.

(** * Theorems *)

(** Every event has a name of its own that reads back to it, and a
    name that is read at all belongs to the event it names. *)
Theorem event_name_roundtrip (w : Event_Which) (name : bytes) :
  EventFromName name = Some w <-> EventName w = name /\ forall d, w <> Event_Which_unknown d.
Proof.
  split.
  - unfold EventFromName. intros H.
    repeat match type of H with
    | (if bytes_eqb ?n ?s then _ else _) = _ =>
      unfold bytes_eqb at 1 in H; case_bool_decide; [injection H as <-; split; [by subst|discriminate] |]
    end. done.
  - intros [<- Hw]. destruct w; try (vm_compute; reflexivity). by destruct (Hw discriminant).
Qed.

(** A channel purpose prints to a name that parses back to the same byte,
    for all 256 purposes. *)
Theorem channel_purpose_roundtrip (p : byte) :
  ChannelPurposeFromName (ChannelPurposeName p) = Some p.
Proof. by destruct p; vm_compute. Qed.

(** The operations put into a transaction message are the operations
    read out of it, in order. *)
Theorem txn_message_roundtrip (ops : list TxnOpSpec) (m : Msg) :
  NewTxn ops = Ret m ->
  exists l, Body m = E_txn l /\ TxnOps l = Ret ops.
Proof.
  unfold NewTxn. destruct (0xFFFF <? blen ops); [done|].
  destruct (checkNewTxnOps ops); intros H; simplify_eq/=.
  eexists; split; [done|]. unfold TxnOps. simpl.
  induction ops as [|[o k v] ops IH]; simpl; [done|]. by rewrite IH.
Qed.

Section EnvelopeTheorems.
Context (Canonicalize : Msg -> gores bytes).
Context (ed25519_sign : bytes -> bytes -> bytes).
Context (ed25519_verify : bytes -> bytes -> bytes -> bool).
Context (public_half : bytes -> bytes).
Context (Marshal : Msg -> gores bytes).
Context (Unmarshal : bytes -> gores Msg).

(** The contracts of the libraries: signatures are 64 bytes and verify;
    unmarshalling inverts marshalling. *)
Context (sign_size : forall priv msg, blen (ed25519_sign priv msg) = SignatureSize).
Context (sign_verifies : forall priv msg, ed25519_verify (public_half priv) msg (ed25519_sign priv msg) = true).
Context (unmarshal_marshal : forall m buf, Marshal m = Ret buf -> Unmarshal buf = Ret m).

(** A message encoded with a signing key decodes at the receiver to
    the same id and content, with the CRC check passed, and its signature
    verifies under the sender's public key. *)
Theorem envelope_roundtrip (m : Msg) (priv buf : bytes) :
  blen (public_half priv) = PublicKeySize ->
  Encode Canonicalize ed25519_sign Marshal m (Some priv) = Ret buf ->
  exists m' crc sig,
    Decode Canonicalize Unmarshal buf = Ret (m', crc, sig) /\
    Id m' = Id m /\ Body m' = Body m /\
    Verify Canonicalize ed25519_verify (public_half priv) m' crc sig = Ret tt.
Proof using sign_size sign_verifies unmarshal_marshal.
  intros Hpub. unfold Encode, crc32Of, Sign, signedPayload, marshalWithCrcAndEmptySig.
  destruct (rd (Signature m)) as [s0| |]; [cbn [wrap_err mbind gores_bind]|done..].
  destruct (Canonicalize (mkMsg (Id m) 0 (Ok []) (Body m))) as [raw| |] eqn:Hraw;
    [cbn [wrap_err mbind gores_bind Id Crc32 Signature Body]|done..].
  destruct (negb (blen priv =? PrivateKeySize)); [done|].
  destruct (rd (Signature m)) as [s1| |]; [cbn [wrap_err mbind gores_bind]|done..].
  destruct (Canonicalize (mkMsg (Id m) (crc32_ieee raw) (Ok []) (Body m))) as [payload| |] eqn:Hpayload;
    [cbn [wrap_err mbind gores_bind]|done..].
  intros H%unmarshal_marshal.
  eexists _, _, _. split.
  - unfold Decode. rewrite H. cbn [wrap_err mbind gores_bind Crc32 Signature rd].
    unfold crc32Of, marshalWithCrcAndEmptySig. cbn [Id Signature Body rd wrap_err mbind gores_bind].
    rewrite Hraw. cbn [wrap_err mbind gores_bind]. rewrite Z.eqb_refl. done.
  - split_and!; [done..|]. unfold Verify, signedPayload, marshalWithCrcAndEmptySig.
    rewrite Hpub, sign_size, !Z.eqb_refl. cbn [negb Id Signature Body rd wrap_err mbind gores_bind].
    rewrite Hpayload. cbn [wrap_err mbind gores_bind]. by rewrite sign_verifies.
Qed.
End EnvelopeTheorems.
