(* ===== verification/Stream.v ===== *)
(** Byte streams: what a node writes to and reads from a libp2p stream, the
    length-prefixed framing of the channel protocol and its accept frame
    (src/pkg/daemon/channel.go), and the chunk framing of the shared-memory rings
    of the data plane (src/pkg/chandata/chandata.go).

    The stream and ring libraries are not part of the source.  A reader holds the
    bytes that have arrived and how the stream ended, if it did; a read that
    needs more than has arrived blocks.  Which writes fail, and after how many
    bytes, is read from a schedule in the state. *)

From S2P Require Import Prelude.
#[local] Open Scope Z_scope.

(** * Readers *)

Definition io_EOF : error := Errorf "EOF".
Definition io_ErrUnexpectedEOF : error := Errorf "unexpected EOF".

(** [err == io.EOF] *)
Definition is_EOF (e : error) : bool := match e with Errorf s => String.eqb s "EOF" | _ => false end.

Record reader : Type := mkReader {
  unread : bytes;
  ended : option error;
}.

(** A blocking read: it waits, returns a value and what is left, or fails. *)
Inductive reading (A : Type) : Type :=
| Blocked
| Done (a : A) (rest : reader)
| Broken (err : error).
Arguments Blocked {A}.
Arguments Done {A} a rest.
Arguments Broken {A} err.

(** [io.ReadFull(s, buf)] with [len(buf) = n] *)
Definition ReadFullFrom (n : nat) (r : reader) : reading bytes :=
  if (n <=? length (unread r))%nat then Done (take n (unread r)) (mkReader (drop n (unread r)) (ended r))
  else match ended r with
       | None => Blocked
       | Some e => Broken (if is_EOF e then match unread r with [] => e | _ :: _ => io_ErrUnexpectedEOF end else e)
       end.

(** [io.ReadAll] *)
Definition ReadAllFrom (r : reader) : reading bytes :=
  match ended r with
  | None => Blocked
  | Some e => if is_EOF e then Done (unread r) (mkReader [] (Some e)) else Broken e
  end.

(** * Streams *)

(** [outgoing] are the bytes written so far.  Each element of [writeFaults] is the
    fate of one [Write]: done, or failed after that many bytes. *)
Record stream : Type := mkStream {
  outgoing : bytes;
  writeFaults : list (option nat);
  writeEnd : bool;
  incoming : reader;
  remoteIP : bytes;
}.

Definition set_incoming (r : reader) (s : stream) : stream :=
  mkStream (outgoing s) (writeFaults s) (writeEnd s) r (remoteIP s).

Definition Write (buf : bytes) (s : stream) : stream * gores unit :=
  if writeEnd s then (s, Fail (Errorf "stream closed")) else
  match writeFaults s with
  | Some k :: rest =>
    (mkStream (outgoing s ++ take k buf) rest false (incoming s) (remoteIP s), Fail (Errorf "stream reset"))
  | sched => (mkStream (outgoing s ++ buf) (tail sched) false (incoming s) (remoteIP s), Ret tt)
  end.

(** [CloseWrite] and [Close]: nothing can be written afterwards; after [Close]
    nothing is read either. *)
Definition CloseWrite (s : stream) : stream := mkStream (outgoing s) (writeFaults s) true (incoming s) (remoteIP s).

(** * Framing *)

(** [chandata.MaxChunkSize] *)
Definition MaxChunkSize : Z := 262144.
Definition channelMaxChunkSize : Z := MaxChunkSize.
Definition maxFramedMessage : Z := channelMaxChunkSize + 8192.

Definition framePrefix (buf : bytes) : bytes := be_bytes 4 (u32 (blen buf)).

Definition writeFramed (buf : bytes) (s : stream) : stream * gores unit :=
  match Write (framePrefix buf) s with
  | (s', Ret _) => Write buf s'
  | r => r
  end.

Definition readFramed (r : reader) : reading bytes :=
  match ReadFullFrom 4 r with
  | Done lenBuf r' =>
    let msgLen := be_value lenBuf in
    if maxFramedMessage <? msgLen then Broken (Errorf "channel: framed message too large: %d bytes")
    else ReadFullFrom (Z.to_nat msgLen) r'
  | x => x
  end.

Definition channelAccepted : byte := Byte.x00.
Definition channelRejected : byte := Byte.x01.

Definition writeChannelAccept (accepted : bool) (reason : bytes) (s : stream) : stream * gores unit :=
  if accepted then Write [channelAccepted] s else Write (channelRejected :: reason) s.

Definition readChannelAccept (r : reader) : reading (byte * bytes) :=
  match ReadFullFrom 1 r with
  | Done (status :: _) r' =>
    if negb (bool_decide (status = channelRejected)) then Done (status, []) r' else
    match ReadAllFrom r' with
    | Done reason r'' => Done (status, reason) r''
    | Blocked => Blocked
    | Broken e => Broken e
    end
  | Done [] r' => Broken io_EOF
  | Blocked => Blocked
  | Broken e => Broken e
  end.

(** * Rings of the data plane *)

(** The bytes in the ring.  Each element of [room] is how many bytes one
    [WriteContext] can place before its context ends; past the schedule
    everything fits. *)
Record ring : Type := mkRing {
  contents : bytes;
  ringClosed : bool;
  room : list nat;
}.

Definition WriteContext (buf : bytes) (r : ring) : ring * gores unit :=
  if ringClosed r then (r, Fail (Errorf "shmring: closed")) else
  match room r with
  | [] => (mkRing (contents r ++ buf) false [], Ret tt)
  | k :: rest =>
    if (length buf <=? k)%nat then (mkRing (contents r ++ buf) false rest, Ret tt)
    else (mkRing (contents r ++ take k buf) false rest, Fail (Errorf "context deadline exceeded"))
  end.

Definition chunkHeader (purpose : byte) (chunk : bytes) : bytes := purpose :: be_bytes 4 (u32 (blen chunk)).

Definition WriteChunk (purpose : byte) (chunk : bytes) (r : ring) : ring * gores unit :=
  if MaxChunkSize <? blen chunk then (r, Fail (Errorf "chandata: chunk too large: %d bytes (max %d)")) else
  match WriteContext (chunkHeader purpose chunk) r with
  | (r', Ret _) =>
    match chunk with
    | [] => (r', Ret tt)
    | _ => let '(r'', res) := WriteContext chunk r' in (r'', wrap_err "chandata: write chunk payload: %w" res)
    end
  | (r', Fail e) => (r', Fail (Wrapf "chandata: write chunk header: %w" e))
  | (r', Panic) => (r', Panic)
  end.

Definition CloseStorage (r : ring) : ring := mkRing (contents r) true (room r).

(** The reading side of a ring. *)
Definition ringReader (r : ring) : reader :=
  mkReader (contents r) (if ringClosed r then Some io_EOF else None).

(** [readFullContext]: unlike [io.ReadFull] it reports the ring's own error even
    when it comes in the middle. *)
Definition readFullContext (n : nat) (r : reader) : reading bytes :=
  if (n <=? length (unread r))%nat then Done (take n (unread r)) (mkReader (drop n (unread r)) (ended r))
  else match ended r with None => Blocked | Some e => Broken e end.

Definition ReadChunk (r : reader) : reading (byte * bytes) :=
  match readFullContext 5 r with
  | Done (purpose :: len) r' =>
    let n := be_value len in
    if MaxChunkSize <? n then Broken (Errorf "chandata: peer announced an oversized chunk: %d bytes") else
    if n =? 0 then Done (purpose, []) r' else
    match readFullContext (Z.to_nat n) r' with
    | Done buf r'' => Done (purpose, buf) r''
    | Blocked => Blocked
    | Broken e => Broken e
    end
  | Done [] r' => Broken io_EOF
  | Blocked => Blocked
  | Broken e => Broken e
  end.

(** * Lemmas *)

(** What has arrived can only grow. *)
Definition feed (x : bytes) (r : reader) : reader := mkReader (unread r ++ x) (ended r).

Lemma feed_nil r : feed [] r = r.
Proof. destruct r. unfold feed. cbn. by rewrite app_nil_r. Qed.

Lemma feed_feed x y r : feed y (feed x r) = feed (x ++ y) r.
Proof. unfold feed. cbn. by rewrite app_assoc. Qed.

Section Reads.
Context (n : nat) (r : reader).

Lemma ReadFullFrom_app b x e : length b = n -> ReadFullFrom n (mkReader (b ++ x) e) = Done b (mkReader x e).
Proof.
  intros <-. unfold ReadFullFrom. cbn. rewrite length_app.
  destruct (Nat.leb_spec (length b) (length b + length x)); [|lia]. by rewrite take_app_length, drop_app_length.
Qed.

Lemma ReadFullFrom_inv b r' :
  ReadFullFrom n r = Done b r' -> unread r = b ++ unread r' /\ ended r' = ended r /\ length b = n.
Proof.
  unfold ReadFullFrom. destruct (Nat.leb_spec n (length (unread r))).
  - intros [= <- <-]. cbn. rewrite take_drop, length_take. repeat split. lia.
  - by destruct (ended r).
Qed.

Lemma ReadFullFrom_feed x b r' : ReadFullFrom n r = Done b r' -> ReadFullFrom n (feed x r) = Done b (feed x r').
Proof.
  intros (E & He & Hn)%ReadFullFrom_inv. unfold feed. rewrite E, <- app_assoc, <- He. by apply ReadFullFrom_app.
Qed.

(** A stream that has not ended never fails a read. *)
Lemma ReadFullFrom_open err : ended r = None -> ReadFullFrom n r <> Broken err.
Proof. unfold ReadFullFrom. intros ->. by destruct (Nat.leb _ _). Qed.

Lemma readFullContext_app b x e : length b = n -> readFullContext n (mkReader (b ++ x) e) = Done b (mkReader x e).
Proof.
  intros <-. unfold readFullContext. cbn. rewrite length_app.
  destruct (Nat.leb_spec (length b) (length b + length x)); [|lia]. by rewrite take_app_length, drop_app_length.
Qed.
End Reads.

Lemma framePrefix_length buf : length (framePrefix buf) = 4%nat.
Proof. apply length_be_bytes. Qed.

Lemma framePrefix_value buf : blen buf <= maxFramedMessage -> be_value (framePrefix buf) = blen buf.
Proof.
  intros Hb. pose proof (blen_nonneg buf). unfold framePrefix, u32, maxFramedMessage, channelMaxChunkSize, MaxChunkSize in *.
  rewrite be_value_bytes. change (8 * Z.of_nat 4) with 32. rewrite Z.mod_mod, Z.mod_small; lia.
Qed.

Lemma readFramed_frame buf x e :
  blen buf <= maxFramedMessage -> readFramed (mkReader (framePrefix buf ++ buf ++ x) e) = Done buf (mkReader x e).
Proof.
  intros Hb. unfold readFramed. rewrite ReadFullFrom_app by apply framePrefix_length. cbv zeta.
  rewrite framePrefix_value by done. destruct (Z.ltb_spec maxFramedMessage (blen buf)); [lia|].
  apply ReadFullFrom_app. unfold blen. lia.
Qed.

Lemma readFramed_inv r buf r' :
  readFramed r = Done buf r' -> ended r' = ended r /\ (length (unread r') + 4 <= length (unread r))%nat /\
  blen buf <= maxFramedMessage.
Proof.
  unfold readFramed. destruct (ReadFullFrom 4 r) as [|l r1|e] eqn:E1; [done| |done]. cbv zeta.
  destruct (Z.ltb_spec maxFramedMessage (be_value l)); [done|]. intros E2.
  apply ReadFullFrom_inv in E1 as (U1 & He1 & L1), E2 as (U2 & He2 & L2).
  rewrite U1, U2, !length_app, He2, He1, L1. unfold blen. rewrite L2. pose proof (be_value_range l). split_and!; [done|lia..].
Qed.

Lemma readFramed_feed x r buf r' : readFramed r = Done buf r' -> readFramed (feed x r) = Done buf (feed x r').
Proof.
  unfold readFramed. destruct (ReadFullFrom 4 r) as [|l r1|e] eqn:E1; [done| |done]. cbv zeta.
  rewrite (ReadFullFrom_feed _ _ x _ _ E1). destruct (maxFramedMessage <? be_value l); [done|]. apply ReadFullFrom_feed.
Qed.

(** On an open stream the only failure is an oversized length, which more bytes do not cure. *)
Lemma readFramed_broken_feed x r err :
  ended r = None -> readFramed r = Broken err -> readFramed (feed x r) = Broken err.
Proof.
  intros Ho. unfold readFramed. destruct (ReadFullFrom 4 r) as [|l r1|e] eqn:E1; [done| |].
  - cbv zeta. rewrite (ReadFullFrom_feed _ _ x _ _ E1). destruct (maxFramedMessage <? be_value l); [done|].
    intros H. exfalso. apply ReadFullFrom_inv in E1 as (_ & He & _). eapply ReadFullFrom_open, H. congruence.
  - intros _. exfalso. by eapply ReadFullFrom_open.
Qed.

(** * Rings *)

Lemma chunkHeader_length purpose chunk : length (chunkHeader purpose chunk) = 5%nat.
Proof. unfold chunkHeader. cbn [length]. by rewrite length_be_bytes. Qed.

Lemma chunkHeader_value (chunk : bytes) : blen chunk <= MaxChunkSize -> be_value (be_bytes 4 (u32 (blen chunk))) = blen chunk.
Proof. intros Hc. apply framePrefix_value. unfold maxFramedMessage, channelMaxChunkSize. lia. Qed.

(** A header and as many bytes as it announces make a chunk, whatever the bytes are. *)
Lemma ReadChunk_header purpose chunk payload x e :
  blen chunk <= MaxChunkSize -> length payload = length chunk ->
  ReadChunk (mkReader (chunkHeader purpose chunk ++ payload ++ x) e) = Done (purpose, payload) (mkReader x e).
Proof.
  intros Hc Hp. unfold ReadChunk. rewrite readFullContext_app by apply chunkHeader_length. unfold chunkHeader. cbv zeta.
  rewrite chunkHeader_value by done. destruct (Z.ltb_spec MaxChunkSize (blen chunk)); [lia|].
  unfold blen in *. destruct (Z.eqb_spec (Z.of_nat (length chunk)) 0) as [E|E].
  - destruct payload; [done|]. exfalso. cbn [length] in Hp. lia.
  - rewrite readFullContext_app; [done|lia].
Qed.

(** The ring has room for what one [WriteChunk] writes. *)
Definition fits (chunk : bytes) (r : ring) : Prop :=
  ringClosed r = false /\
  match room r with
  | [] => True
  | k :: rest => (5 <= k)%nat /\ match rest with [] => True | k' :: _ => (length chunk <= k')%nat end
  end.

Lemma WriteChunk_fits purpose chunk r :
  blen chunk <= MaxChunkSize -> fits chunk r ->
  exists room', WriteChunk purpose chunk r = (mkRing (contents r ++ chunkHeader purpose chunk ++ chunk) false room', Ret tt).
Proof.
  intros Hc [Ho Hr]. unfold WriteChunk, WriteContext. destruct (Z.ltb_spec MaxChunkSize (blen chunk)); [lia|].
  rewrite Ho, chunkHeader_length. destruct (room r) as [|k [|k' rest]].
  - destruct chunk; eexists; by rewrite ?app_nil_r, ?app_assoc.
  - destruct Hr as [Hk _]. destruct (Nat.leb_spec 5 k); [|lia]. destruct chunk; eexists; by rewrite ?app_nil_r, ?app_assoc.
  - destruct Hr as [Hk Hk']. destruct (Nat.leb_spec 5 k); [|lia].
    destruct chunk as [|b chunk]; [eexists; by rewrite ?app_nil_r|]. cbn [ringClosed room contents].
    destruct (Nat.leb_spec (length (b :: chunk)) k'); [|lia]. eexists. by rewrite app_assoc.
Qed.

(** Every chunk of [cs] written in turn, each with room enough. *)
Inductive written : list (byte * bytes) -> ring -> ring -> Prop :=
| written_nil r : written [] r r
| written_cons purpose chunk cs r r' :
    blen chunk <= MaxChunkSize -> fits chunk r -> written cs (WriteChunk purpose chunk r).1 r' ->
    written ((purpose, chunk) :: cs) r r'.

(** Reading one chunk after another until the reader blocks or fails. *)
Inductive chunks_read : reader -> list (byte * bytes) -> reader -> Prop :=
| chunks_done r : chunks_read r [] r
| chunks_more r c r' cs r'' : ReadChunk r = Done c r' -> chunks_read r' cs r'' -> chunks_read r (c :: cs) r''.

Lemma written_contents cs r r' :
  written cs r r' -> contents r' = contents r ++ concat (map (fun c => chunkHeader c.1 c.2 ++ c.2) cs).
Proof.
  induction 1 as [r|purpose chunk cs r r' Hc Hf _ IH]; [by rewrite app_nil_r|].
  destruct (WriteChunk_fits purpose chunk r Hc Hf) as [room' E]. rewrite E in IH. cbn in *.
  by rewrite IH, <- !app_assoc.
Qed.

Lemma read_written cs e :
  Forall (fun c => blen c.2 <= MaxChunkSize) cs ->
  chunks_read (mkReader (concat (map (fun c => chunkHeader c.1 c.2 ++ c.2) cs)) e) cs (mkReader [] e).
Proof.
  induction 1 as [|[purpose chunk] cs Hc _ IH]; [constructor|]. cbn [map concat fst snd] in *.
  eapply chunks_more; [|exact IH]. rewrite <- app_assoc. by apply ReadChunk_header.
Qed.

(** * Theorems *)

(** The data plane delivers what was written: when every chunk finds room, the
    reader of a ring that was empty gets exactly the chunks the writer wrote,
    with their purposes, in order, and then either waits (ring open) or sees
    the end (ring closed). *)
Theorem ring_roundtrip (cs : list (byte * bytes)) (r r' : ring) :
  contents r = [] -> written cs r r' -> chunks_read (ringReader r') cs (mkReader [] (ended (ringReader r'))).
Proof.
  intros He Hw. unfold ringReader. rewrite (written_contents _ _ _ Hw), He. apply read_written.
  clear He. by induction Hw; constructor.
Qed.

(** A chunk write that runs out of time after its header is in the ring is not
    just a lost chunk: the write reports an error, a later write succeeds, and
    the reader then gets, under the lost chunk's purpose, a chunk made of the
    next chunk's header and data that nobody ever wrote. *)
Theorem ring_timeout_desync (p q : byte) (c d : bytes) (k : nat) (later : list nat) :
  c <> [] -> blen c <= MaxChunkSize -> blen d <= MaxChunkSize -> (5 <= k)%nat ->
  fits d (mkRing [] false later) -> (length c <= 5 + length d)%nat ->
  let r := mkRing [] false (k :: 0%nat :: later) in
  let r1 := (WriteChunk p c r).1 in
  is_fail (WriteChunk p c r).2 = true /\ (WriteChunk q d r1).2 = Ret tt /\
  exists rest, ReadChunk (ringReader (WriteChunk q d r1).1) = Done (p, take (length c) (chunkHeader q d ++ d)) rest.
Proof.
  intros Hne Hc Hd Hk Hf Hlen. cbv zeta.
  assert (WriteChunk p c (mkRing [] false (k :: 0%nat :: later))
    = (mkRing (chunkHeader p c) false later, Fail (Wrapf "chandata: write chunk payload: %w" (Errorf "context deadline exceeded")))) as E.
  { unfold WriteChunk, WriteContext. destruct (Z.ltb_spec MaxChunkSize (blen c)); [lia|].
    cbn [ringClosed room contents]. rewrite chunkHeader_length. destruct (Nat.leb_spec 5 k); [|lia].
    destruct c as [|b c]; [done|]. cbn [length Nat.leb ringClosed room contents take]. by rewrite app_nil_r. }
  rewrite E. cbn [fst snd]. destruct (WriteChunk_fits q d (mkRing (chunkHeader p c) false later) Hd Hf) as [room' E2].
  rewrite E2. split_and!; [done..|]. cbn [fst ringReader contents ringClosed].
  eexists. unfold ringReader. cbn [contents ringClosed].
  rewrite <- (take_drop (length c) (chunkHeader q d ++ d)) at 1. apply ReadChunk_header; [done|].
  rewrite length_take, length_app, chunkHeader_length. lia.
Qed.
