(* ===== verification/Quota.v ===== *)
(** Rate quotas (src/pkg/daemon/quota.go) and the limits a node is configured
    with (src/pkg/daemon/host.go): one token bucket per peer and one per address,
    in two independent key spaces.

    The token bucket itself ([rate.Limiter]) is not part of the source.  A bucket
    is represented by the calls made on it so far, oldest first, and [AllowN]
    stands for the answer of a limiter with that rate, burst and history. *)

From Stdlib Require Import QArith_base.
From S2P Require Import Prelude.
#[local] Open Scope Z_scope.

(** Rates are the configured floating-point numbers. *)
Abbreviation rate := Q (only parsing).

(** The calls on one bucket: time and cost. *)
Abbreviation history := (list (Z * Z)) (only parsing).

Record quotaTracker : Type := mkQuota {
  peerBuckets : gmap bytes history;
  ipBuckets : gmap bytes history;
  peerLimit : rate;
  peerBurst : Z;
  ipLimit : rate;
  ipBurst : Z;
}.

Definition newQuotaTracker (peerPerSec : rate) (peerBurst : Z) (ipPerSec : rate) (ipBurst : Z) : quotaTracker :=
  mkQuota ∅ ∅ peerPerSec peerBurst ipPerSec ipBurst.

Definition positive (q : rate) : bool := negb (Qle_bool q 0%Q).

Section Quota.
Context (AllowN : rate -> Z -> history -> Z -> Z -> bool).

(** One key space of [allow]: skipped when it is unlimited or the key is empty. *)
Definition charge (limit : rate) (burst : Z) (key : bytes) (now cost : Z) (m : gmap bytes history)
  : gmap bytes history * bool :=
  if positive limit && negb (bool_decide (key = [])) then
    let past := default [] (m !! key) in
    (<[key := past ++ [(now, cost)]]> m, AllowN limit burst past now cost)
  else (m, true).

(** The second bucket is not consulted when the first refuses. *)
Definition allow (peerID ip : bytes) (cost now : Z) (q : quotaTracker) : quotaTracker * bool :=
  let '(peers, ok) := charge (peerLimit q) (peerBurst q) peerID now cost (peerBuckets q) in
  if negb ok then (mkQuota peers (ipBuckets q) (peerLimit q) (peerBurst q) (ipLimit q) (ipBurst q), false) else
  let '(ips, ok') := charge (ipLimit q) (ipBurst q) ip now cost (ipBuckets q) in
  (mkQuota peers ips (peerLimit q) (peerBurst q) (ipLimit q) (ipBurst q), ok').
End Quota.

(** * Limits of a configuration *)

Definition DefaultQuotaChannelBytesPerPeerPerSec : rate := inject_Z (Z.shiftl 512 20).
Definition DefaultQuotaChannelBurstPerPeer : Z := Z.shiftl 64 20.
Definition DefaultQuotaChannelBytesPerIPPerSec : rate := inject_Z (Z.shiftl 1024 20).
Definition DefaultQuotaChannelBurstPerIP : Z := Z.shiftl 128 20.
Definition DefaultQuotaRelayEventsPerPeerPerSec : rate := inject_Z 1.
Definition DefaultQuotaRelayBurstPerPeer : Z := 5.
Definition DefaultQuotaRelayEventsPerIPPerSec : rate := inject_Z 5.
Definition DefaultQuotaRelayBurstPerIP : Z := 10.

(** The [Quota*] fields of [Config]. *)
Record quotaConfig : Type := mkQuotaConfig {
  cfgPeerPerSec : rate;
  cfgPeerBurst : Z;
  cfgIPPerSec : rate;
  cfgIPBurst : Z;
}.

Definition orDefaultRate (v d : rate) : rate := if Qeq_bool v 0%Q then d else v.
Definition orDefault (v d : Z) : Z := if v =? 0 then d else v.

Definition relayQuotaLimits (cfg : quotaConfig) : rate * Z * rate * Z :=
  (orDefaultRate (cfgPeerPerSec cfg) DefaultQuotaRelayEventsPerPeerPerSec,
   orDefault (cfgPeerBurst cfg) DefaultQuotaRelayBurstPerPeer,
   orDefaultRate (cfgIPPerSec cfg) DefaultQuotaRelayEventsPerIPPerSec,
   orDefault (cfgIPBurst cfg) DefaultQuotaRelayBurstPerIP).

Definition channelQuotaLimits (cfg : quotaConfig) : rate * Z * rate * Z :=
  (orDefaultRate (cfgPeerPerSec cfg) DefaultQuotaChannelBytesPerPeerPerSec,
   orDefault (cfgPeerBurst cfg) DefaultQuotaChannelBurstPerPeer,
   orDefaultRate (cfgIPPerSec cfg) DefaultQuotaChannelBytesPerIPPerSec,
   orDefault (cfgIPBurst cfg) DefaultQuotaChannelBurstPerIP).

(** [newQuotaTracker(limits(cfg))] *)
Definition trackerOf (l : rate * Z * rate * Z) : quotaTracker :=
  let '(pr, pb, ir, ib) := l in newQuotaTracker pr pb ir ib.

(** * Lemmas *)

Lemma charge_frame AllowN limit burst key key' now cost m :
  key' <> key -> (charge AllowN limit burst key now cost m).1 !! key' = m !! key'.
Proof. intros Hne. unfold charge. destruct (positive limit && _); [|done]. by apply lookup_insert_ne. Qed.

Lemma positive_spec q : positive q = true <-> (0 < q)%Q.
Proof.
  unfold positive. rewrite negb_true_iff, <- not_true_iff_false, Qle_bool_iff.
  split; [apply Qnot_le_lt|apply Qlt_not_le].
Qed.

(** * Theorems *)

(** Quotas are independent per key: a request touches the bucket of its peer and
    the bucket of its address only, so what a peer is allowed never depends on
    the traffic of peers that share neither; it is admitted exactly when each
    limited bucket admits it, where an empty key or a rate that is not positive
    means no limit. *)
Theorem quota_allow_spec (AllowN : rate -> Z -> history -> Z -> Z -> bool) (peerID ip peerID' ip' : bytes) (cost now : Z)
  (q : quotaTracker) :
  let q' := (allow AllowN peerID ip cost now q).1 in
  (peerID' <> peerID -> peerBuckets q' !! peerID' = peerBuckets q !! peerID') /\
  (ip' <> ip -> ipBuckets q' !! ip' = ipBuckets q !! ip') /\
  ((allow AllowN peerID ip cost now q).2 = true <->
   ((0 < peerLimit q)%Q -> peerID <> [] ->
      AllowN (peerLimit q) (peerBurst q) (default [] (peerBuckets q !! peerID)) now cost = true) /\
   ((0 < ipLimit q)%Q -> ip <> [] ->
      AllowN (ipLimit q) (ipBurst q) (default [] (ipBuckets q !! ip)) now cost = true)).
Proof.
  cbv zeta. unfold allow.
  pose proof (charge_frame AllowN (peerLimit q) (peerBurst q) peerID peerID' now cost (peerBuckets q)) as Fp.
  pose proof (charge_frame AllowN (ipLimit q) (ipBurst q) ip ip' now cost (ipBuckets q)) as Fi.
  assert (forall limit burst key m, (charge AllowN limit burst key now cost m).2 = true <->
    ((0 < limit)%Q -> key <> [] -> AllowN limit burst (default [] (m !! key)) now cost = true)) as Hok.
  { intros limit burst key m. unfold charge. rewrite <- positive_spec.
    destruct (positive limit); cbn; [case_bool_decide|]; naive_solver. }
  rewrite <- !Hok. destruct (charge AllowN (peerLimit q) _ _ _ _ _) as [peers []],
    (charge AllowN (ipLimit q) _ _ _ _ _) as [ips []]; cbn in *; naive_solver.
Qed.

(** A negative configured rate is not replaced by the default and switches the
    limit off: such a tracker admits everything. *)
Theorem negative_quota_unlimited (AllowN : rate -> Z -> history -> Z -> Z -> bool) (cfg : quotaConfig) (peerID ip : bytes)
  (cost now : Z) :
  (cfgPeerPerSec cfg < 0)%Q -> (cfgIPPerSec cfg < 0)%Q ->
  let q := trackerOf (channelQuotaLimits cfg) in
  (allow AllowN peerID ip cost now q).2 = true /\ (allow AllowN peerID ip cost now q).1 = q.
Proof.
  intros Hp Hi. cbv zeta. unfold trackerOf, channelQuotaLimits, orDefaultRate.
  assert (forall r d, (r < 0)%Q -> (if Qeq_bool r 0 then d else r) = r /\ positive r = false) as Hneg.
  { intros r d Hr. split.
    - destruct (Qeq_bool r 0) eqn:E; [|done]. apply Qeq_bool_eq in E. rewrite E in Hr. by apply Qlt_irrefl in Hr.
    - apply not_true_iff_false. rewrite positive_spec. intros H. eapply Qlt_irrefl, Qlt_trans; eauto. }
  destruct (Hneg _ DefaultQuotaChannelBytesPerPeerPerSec Hp) as [-> Pp].
  destruct (Hneg _ DefaultQuotaChannelBytesPerIPPerSec Hi) as [-> Pi].
  unfold allow, charge, newQuotaTracker. cbn [peerLimit ipLimit]. by rewrite Pp, Pi.
Qed.
