(* ===== verification/Session.v ===== *)
(** Channel sessions and the table that holds them (src/pkg/daemon/channel.go,
    [channelSession] and [channelTable]): the methods that touch no more than
    their own state, with the current time as an argument.

    A session that is taken out of the table has its stream closed, which ends
    its goroutines; nothing of it is observable afterwards, so the model drops
    it. *)

From S2P Require Import Prelude Stream.
#[local] Open Scope Z_scope.

Create HintDb daemon.

(** * Sessions *)

Definition maxPendingChannels : Z := 64.
Definition maxChannelInbox : Z := 4096.
(** In nanoseconds. *)
Definition channelIdleTimeout : Z := 5 * 60 * 10 ^ 9.
Definition channelPendingTimeout : Z := 2 * 60 * 10 ^ 9.

Record channelChunk : Type := mkChunk {
  chPurpose : byte;
  chData : bytes;
}.

(** [closeReason] is the error the reason string prints, [None] for the empty
    string.  [pumping] says that the goroutine of [pumpChannelReads] is running;
    [up] that an upload ring was opened, and [uploadPumps] are the rings of the
    goroutines of [pumpChannelUpload] that are running. *)
Record channelSession : Type := mkSession {
  chStream : stream;
  chPeer : bytes;
  chPub : bytes;
  down : ring;
  inbox : list channelChunk;
  closed : bool;
  closeReason : option error;
  lastActivity : Z;
  up : bool;
  uploadPumps : list reader;
  uploadDrained : bool;
  pumping : bool;
}.

Definition newChannelSession (s : stream) (remotePeerID remotePub : bytes) (ring : ring) (now : Z) : channelSession :=
  mkSession s remotePeerID remotePub ring [] false None now false [] false true.

Definition set_stream (x : stream) (s : channelSession) : channelSession :=
  mkSession x (chPeer s) (chPub s) (down s) (inbox s) (closed s) (closeReason s) (lastActivity s) (up s) (uploadPumps s)
    (uploadDrained s) (pumping s).
Definition set_down (x : ring) (s : channelSession) : channelSession :=
  mkSession (chStream s) (chPeer s) (chPub s) x (inbox s) (closed s) (closeReason s) (lastActivity s) (up s) (uploadPumps s)
    (uploadDrained s) (pumping s).
Definition set_chunks (x : list channelChunk) (s : channelSession) : channelSession :=
  mkSession (chStream s) (chPeer s) (chPub s) (down s) x (closed s) (closeReason s) (lastActivity s) (up s) (uploadPumps s)
    (uploadDrained s) (pumping s).
Definition set_uploads_of (ring : bool) (pumps : list reader) (drained : bool) (s : channelSession) : channelSession :=
  mkSession (chStream s) (chPeer s) (chPub s) (down s) (inbox s) (closed s) (closeReason s) (lastActivity s) ring pumps
    drained (pumping s).
Definition stop_pump (s : channelSession) : channelSession :=
  mkSession (chStream s) (chPeer s) (chPub s) (CloseStorage (down s)) (inbox s) (closed s) (closeReason s)
    (lastActivity s) (up s) (uploadPumps s) (uploadDrained s) false.

Definition hasUploadRing (s : channelSession) : bool := up s.

(** [setUploadRing(r)], and the goroutine that drains [r] starts. *)
Definition setUploadRing (r : reader) (s : channelSession) : channelSession :=
  set_uploads_of true (uploadPumps s ++ [r]) (uploadDrained s) s.

(** The [k]-th goroutine, if it is running, ends: [close(sess.uploadDrained)], which
    panics when it is closed already. *)
Definition endUpload (k : nat) (s : channelSession) : gores channelSession :=
  match uploadPumps s !! k with
  | None => Ret s
  | Some _ =>
    if uploadDrained s then Panic else Ret (set_uploads_of (up s) (delete k (uploadPumps s)) true s)
  end.

Definition touch (now : Z) (s : channelSession) : channelSession :=
  mkSession (chStream s) (chPeer s) (chPub s) (down s) (inbox s) (closed s) (closeReason s) now (up s) (uploadPumps s)
    (uploadDrained s) (pumping s).

Definition idleFor (now : Z) (s : channelSession) : Z := now - lastActivity s.

Definition pushChunk (now : Z) (purpose : byte) (chunk : bytes) (s : channelSession) : channelSession :=
  let s := touch now s in
  let kept := if maxChannelInbox <=? blen (inbox s) then tail (inbox s) else inbox s in
  set_chunks (kept ++ [mkChunk purpose chunk]) s.

Definition popChunk (s : channelSession) : option (channelChunk * channelSession) :=
  match inbox s with
  | [] => None
  | c :: rest => Some (c, set_chunks rest s)
  end.

(** Only the first reason sticks. *)
Definition markClosed (reason : option error) (s : channelSession) : channelSession :=
  if closed s then s else
  mkSession (chStream s) (chPeer s) (chPub s) (down s) (inbox s) true reason (lastActivity s) (up s) (uploadPumps s)
    (uploadDrained s) (pumping s).

Definition status (s : channelSession) : bool * option error := (closed s, closeReason s).

(** * The table *)

Record pendingChannel : Type := mkPending {
  pendingID : bytes;
  addedAt : Z;
}.

Record channelTable : Type := mkChannels {
  sessions : gmap bytes channelSession;
  pendingChannels : list pendingChannel;
}.

Definition newChannelTable : channelTable := mkChannels ∅ [].

Definition register (channelID : bytes) (s : channelSession) (t : channelTable) : channelTable :=
  mkChannels (<[channelID := s]> (sessions t)) (pendingChannels t).

(** The first pending entry of that id goes. *)
Fixpoint dropPending (channelID : bytes) (ps : list pendingChannel) : list pendingChannel :=
  match ps with
  | [] => []
  | p :: ps' => if bool_decide (pendingID p = channelID) then ps' else p :: dropPending channelID ps'
  end.

Definition remove (channelID : bytes) (t : channelTable) : channelTable :=
  mkChannels (delete channelID (sessions t)) (dropPending channelID (pendingChannels t)).

Definition pushPending (channelID : bytes) (now : Z) (t : channelTable) : channelTable :=
  let '(live, ps) :=
    match pendingChannels t with
    | stale :: rest =>
      if maxPendingChannels <=? blen (pendingChannels t) then (delete (pendingID stale) (sessions t), rest)
      else (sessions t, pendingChannels t)
    | [] => (sessions t, [])
    end in
  mkChannels live (ps ++ [mkPending channelID now]).

Definition popPending (t : channelTable) : option (bytes * channelTable) :=
  match pendingChannels t with
  | [] => None
  | p :: ps => Some (pendingID p, mkChannels (sessions t) ps)
  end.

Definition stale (now : Z) (p : pendingChannel) : bool := channelPendingTimeout <? now - addedAt p.

(** The first loop of [reap]. *)
Fixpoint reapPending (now : Z) (ps : list pendingChannel) (live : gmap bytes channelSession)
  : gmap bytes channelSession * list pendingChannel :=
  match ps with
  | [] => (live, [])
  | p :: ps' =>
    if stale now p then reapPending now ps' (delete (pendingID p) live)
    else let '(live', kept) := reapPending now ps' live in (live', p :: kept)
  end.

Definition reap (now : Z) (t : channelTable) : channelTable :=
  let '(live, kept) := reapPending now (pendingChannels t) (sessions t) in
  mkChannels (filter (fun p => idleFor now p.2 <= channelIdleTimeout) live) kept.

(** * Invariant *)

Definition session_ok (s : channelSession) : Prop :=
  blen (inbox s) <= maxChannelInbox /\ Forall (fun c => blen (chData c) <= channelMaxChunkSize) (inbox s).

Definition channels_ok (t : channelTable) : Prop :=
  map_Forall (fun _ s => session_ok s) (sessions t) /\ blen (pendingChannels t) <= maxPendingChannels.

Section Sessions.
Context (s : channelSession).

Lemma session_ok_new x peer pub r now : session_ok (newChannelSession x peer pub r now).
Proof. split; [done|constructor]. Qed.

Lemma session_ok_push now purpose chunk :
  blen chunk <= channelMaxChunkSize -> session_ok s -> session_ok (pushChunk now purpose chunk s).
Proof.
  intros Hc [Hn Hd]. unfold pushChunk, session_ok. cbn [inbox touch set_chunks].
  destruct (Z.leb_spec maxChannelInbox (blen (inbox s))) as [Hf|Hf].
  - destruct (inbox s) as [|c cs]; [by cbv in Hf|]. apply Forall_cons in Hd as [_ Hd]. cbn [tail] in *.
    split; [revert Hn; lens|]. apply Forall_app. auto.
  - split; [revert Hf; lens|]. apply Forall_app. auto.
Qed.

Lemma session_ok_pop c s' : popChunk s = Some (c, s') -> session_ok s -> session_ok s' /\ blen (chData c) <= channelMaxChunkSize.
Proof.
  unfold popChunk, session_ok. destruct (inbox s) as [|x cs]; [done|]. intros [= <- <-] [Hn Hd].
  apply Forall_cons in Hd as [Hx Hd]. cbn [inbox set_chunks]. split; [split; [revert Hn; lens|done]|done].
Qed.

Lemma session_ok_mark reason : session_ok s -> session_ok (markClosed reason s).
Proof. unfold markClosed. by destruct (closed s). Qed.
End Sessions.

#[export] Hint Resolve session_ok_new session_ok_push session_ok_mark : daemon.

Section Table.
Context (t : channelTable).

Lemma channels_ok_register id s : session_ok s -> channels_ok t -> channels_ok (register id s t).
Proof. intros Hs [Ht Hp]. split; [|done]. cbn. by apply map_Forall_insert_2. Qed.

Lemma dropPending_length id ps : (length (dropPending id ps) <= length ps)%nat.
Proof. induction ps as [|p ps IH]; [done|]. cbn. case_bool_decide; cbn; lia. Qed.

Lemma channels_ok_remove id : channels_ok t -> channels_ok (remove id t).
Proof.
  intros [Ht Hp]. split; cbn; [by apply map_Forall_delete|].
  pose proof (dropPending_length id (pendingChannels t)). unfold blen in *. lia.
Qed.

Lemma channels_ok_push id now : channels_ok t -> channels_ok (pushPending id now t).
Proof.
  intros [Ht Hp]. unfold pushPending. destruct (pendingChannels t) as [|p ps]; [done|].
  destruct (Z.leb_spec maxPendingChannels (blen (p :: ps))) as [Hf|Hf]; (split; cbn [sessions pendingChannels]).
  - by apply map_Forall_delete.
  - revert Hp. lens.
  - done.
  - revert Hf. lens.
Qed.

Lemma channels_ok_pop id t' : popPending t = Some (id, t') -> channels_ok t -> channels_ok t'.
Proof.
  unfold popPending. intros E [Ht Hp]. destruct (pendingChannels t) as [|p ps]; [done|].
  injection E as <- <-. split; [done|]. revert Hp. cbn. lens.
Qed.

(** What survives the reaper. *)
Definition unclaimed (now : Z) (id : bytes) (p : pendingChannel) : Prop := stale now p = true /\ pendingID p = id.

#[local] Instance unclaimed_dec now id p : Decision (unclaimed now id p) := and_dec _ _.

Lemma reapPending_spec now ps live :
  (reapPending now ps live).2 = filter (fun p => stale now p = false) ps /\
  forall id, (reapPending now ps live).1 !! id =
    if bool_decide (Exists (unclaimed now id) ps) then None else live !! id.
Proof.
  revert live. induction ps as [|p ps IH]; intros live; cbn [reapPending].
  { split; [done|]. intros id. by rewrite bool_decide_false by inversion 1. }
  destruct (stale now p) eqn:Es.
  - destruct (IH (delete (pendingID p) live)) as [H2 H1].
    split; [by rewrite H2, filter_cons_False by congruence|]. intros id. rewrite H1.
    rewrite (bool_decide_ext (Exists (unclaimed now id) (p :: ps)) (pendingID p = id \/ Exists (unclaimed now id) ps))
      by (rewrite Exists_cons; unfold unclaimed; naive_solver).
    do 2 case_bool_decide; try naive_solver; simplify_option_eq; [|by rewrite lookup_delete_ne by naive_solver].
    destruct H0 as [<-|?]; [apply lookup_delete_eq|done].
  - destruct (IH live) as [H2 H1]. destruct (reapPending now ps live) as [live' kept]. cbn [fst snd] in *.
    split; [by rewrite H2, filter_cons_True|]. intros id. rewrite H1.
    rewrite (bool_decide_ext (Exists (unclaimed now id) (p :: ps)) (Exists (unclaimed now id) ps)); [done|].
    rewrite Exists_cons. split; [intros [[? _]|?]|]; [congruence|done|by right].
Qed.

Lemma reap_kept now id s : sessions (reap now t) !! id = Some s -> sessions t !! id = Some s.
Proof.
  unfold reap. destruct (reapPending_spec now (pendingChannels t) (sessions t)) as [_ H1].
  destruct (reapPending now _ _) as [live kept]. cbn. intros [E _]%map_lookup_filter_Some. cbn in H1. rewrite H1 in E.
  by case_bool_decide.
Qed.

Lemma channels_ok_reap now : channels_ok t -> channels_ok (reap now t).
Proof.
  intros [Ht Hp]. unfold reap. destruct (reapPending_spec now (pendingChannels t) (sessions t)) as [H2 H1].
  destruct (reapPending now _ _) as [live kept]. cbn [fst snd] in *. split; cbn [sessions pendingChannels].
  - intros id s [E _]%map_lookup_filter_Some. rewrite H1 in E. case_bool_decide; [done|]. by eapply Ht.
  - subst kept. pose proof (length_filter (fun p => stale now p = false) (pendingChannels t)). unfold blen in *. lia.
Qed.
End Table.

#[export] Hint Resolve channels_ok_register channels_ok_remove channels_ok_push channels_ok_pop channels_ok_reap : daemon.

(** * Theorems *)

(** The reaper closes exactly what has timed out: a session stays in the table
    if and only if it was there, was active within the last five minutes and is
    not one of the incoming channels nobody claimed for two minutes; the other
    pending channels stay, in order. *)
Theorem reap_exact (now : Z) (t : channelTable) (id : bytes) (s : channelSession) :
  (sessions (reap now t) !! id = Some s <->
   sessions t !! id = Some s /\ now - lastActivity s <= channelIdleTimeout /\
   forall p, p ∈ pendingChannels t -> pendingID p = id -> now - addedAt p <= channelPendingTimeout) /\
  pendingChannels (reap now t) = filter (fun p => now - addedAt p <= channelPendingTimeout) (pendingChannels t).
Proof.
  unfold reap. destruct (reapPending_spec now (pendingChannels t) (sessions t)) as [H2 H1].
  destruct (reapPending now _ _) as [live kept]. cbn [fst snd sessions pendingChannels] in *. split.
  - rewrite map_lookup_filter_Some, H1. unfold idleFor. cbn. case_bool_decide as Hb.
    + apply Exists_exists in Hb as (p & Hp & Hs & Hid). unfold stale in Hs. apply Z.ltb_lt in Hs. split; [naive_solver|].
      intros (_ & _ & Hall). specialize (Hall p Hp Hid). lia.
    + split; [|naive_solver]. intros [E Hi]. split_and!; [done..|]. intros p Hp Hid.
      destruct (Z.le_gt_cases (now - addedAt p) channelPendingTimeout); [done|]. exfalso. apply Hb, Exists_exists. exists p.
      split; [done|]. split; [|done]. unfold stale. apply Z.ltb_lt. lia.
  - subst kept. apply list_filter_iff. intros p. unfold stale. by rewrite Z.ltb_ge.
Qed.
