(* ===== verification/Node.v ===== *)
(** The daemon's node (src/pkg/daemon): its state, the effects of its
    operations, the raft library and the network it talks to, and the
    environment it is started in.

    The raft library and the remote peers are not part of the source: what
    they answer is read from schedules in the state, over which every theorem
    quantifies.  A raft [Apply] that the library reports as committed runs the
    state machine [Apply] of [Fsm] on this node's store, possibly after entries
    of other callers; one that it reports as failed may have been applied or
    not.  Every call the node makes into the library and every request it sends
    to a peer is recorded, in order, in [ncalls]; what it writes on a channel is
    kept with the channel's stream. *)

From S2P Require Import Prelude Store StoreLogic SystemKeys Payloads LogRecord Txn Fsm Events Stream Quota Session.
From Stdlib Require Import QArith_base.
#[local] Open Scope Z_scope.

(** * The raft library, as the node sees it *)

Inductive ServerSuffrage : Type := Voter | Nonvoter | Staging.

#[global] Instance ServerSuffrage_eq_dec : EqDecision ServerSuffrage.
Proof. solve_decision. Defined.

Record Server : Type := mkServer {
  Suffrage : ServerSuffrage;
  ServerID : bytes;
  Address : bytes;
}.

Inductive RaftState : Type := Follower | Candidate | Leader | Shutdown.

#[global] Instance RaftState_eq_dec : EqDecision RaftState.
Proof. solve_decision. Defined.

(** [State()], [LeaderWithID()] and [GetConfiguration()]; the configuration is
    [None] when its future fails. *)
Record Raft : Type := mkRaft {
  State : RaftState;
  LeaderID : bytes;
  Configuration : option (list Server);
}.

(** How [Apply] ends: the future fails and the entry is not applied, the future
    fails and the entry is applied all the same, or the entry is committed at
    [index] and applied, both after the entries [before]. *)
Inductive apply_reply : Type :=
| Rejected
| Unknown (before : list Log) (appendedAt : Z)
| Committed (before : list Log) (appendedAt index : Z).

(** How an exchange with a peer ends; [behind] are the entries raft applies on
    this node's store in the meantime. *)
Inductive net_reply : Type :=
| DialFailed
| WriteFailed
| CloseFailed
| ReadFailed
| Reply (resp : bytes) (behind : list Log).

(** How [h.Connect] ends; [cancelled] says that the caller's context ends in the
    pause after a failed attempt. *)
Inductive connect_reply : Type :=
| Connected
| NotConnected (err : error) (cancelled : bool).

(** Calls out of the node. *)
Inductive call : Type :=
| Proposed (cmd : bytes)
| Sent (proto dest payload : bytes)
| AddServer (suffrage : ServerSuffrage) (id addr : bytes)
| RemoveServer (id : bytes)
| BootstrapCluster (id addr : bytes)
| TransferLeadership (id addr : bytes).

(** * State *)

Record executeNotification : Type := mkNotification {
  senderPeerID : bytes;
  payload : bytes;
}.

(** The libp2p host, the data plane's rings and the channels. *)
Record io : Type := mkIo {
  connects : list connect_reply;
  (** for each wait, the addresses of the host at each poll before its deadline *)
  hostAddrs : list (list (list bytes));
  (** whether the host has confirmed an address of its own *)
  confirmedAddrs : list bool;
  (** [NewStream] of the channel protocol, [chandata.Create], [chandata.Open] *)
  opens : list (option stream);
  rings : list (option ring);
  uploads : list (option reader);
  (** what reaches an upload ring while a half-close waits for it *)
  drains : list (bytes * option error);
  channels : channelTable;
  channelQuota : quotaTracker;
}.

Record node : Type := mkNode {
  nstore : world;
  nregistry : Registry;
  nraft : option Raft;
  njoinToken : bytes;
  ninbox : list executeNotification;
  (** schedules, and the clock in Unix nanoseconds *)
  nviews : list (list (option Raft));
  ninits : list (option Raft);
  napplies : list apply_reply;
  nconfigs : list (option (list Server));
  nnet : list net_reply;
  nrand : list (option bytes);
  nnow : Z;
  nio : io;
  (** what the node asked for *)
  ncalls : list call;
}.

Definition set_store (w : world) (n : node) : node :=
  mkNode w (nregistry n) (nraft n) (njoinToken n) (ninbox n) (nviews n) (ninits n) (napplies n) (nconfigs n)
    (nnet n) (nrand n) (nnow n) (nio n) (ncalls n).
Definition set_registry (r : Registry) (n : node) : node :=
  mkNode (nstore n) r (nraft n) (njoinToken n) (ninbox n) (nviews n) (ninits n) (napplies n) (nconfigs n)
    (nnet n) (nrand n) (nnow n) (nio n) (ncalls n).
Definition set_token (t : bytes) (n : node) : node :=
  mkNode (nstore n) (nregistry n) (nraft n) t (ninbox n) (nviews n) (ninits n) (napplies n) (nconfigs n)
    (nnet n) (nrand n) (nnow n) (nio n) (ncalls n).
Definition set_inbox (q : list executeNotification) (n : node) : node :=
  mkNode (nstore n) (nregistry n) (nraft n) (njoinToken n) q (nviews n) (ninits n) (napplies n) (nconfigs n)
    (nnet n) (nrand n) (nnow n) (nio n) (ncalls n).
Definition set_raft (r : option Raft) (views : list (list (option Raft))) (inits : list (option Raft)) (n : node) : node :=
  mkNode (nstore n) (nregistry n) r (njoinToken n) (ninbox n) views inits (napplies n) (nconfigs n)
    (nnet n) (nrand n) (nnow n) (nio n) (ncalls n).
Definition set_applies (s : list apply_reply) (n : node) : node :=
  mkNode (nstore n) (nregistry n) (nraft n) (njoinToken n) (ninbox n) (nviews n) (ninits n) s (nconfigs n)
    (nnet n) (nrand n) (nnow n) (nio n) (ncalls n).
Definition set_configs (s : list (option (list Server))) (n : node) : node :=
  mkNode (nstore n) (nregistry n) (nraft n) (njoinToken n) (ninbox n) (nviews n) (ninits n) (napplies n) s
    (nnet n) (nrand n) (nnow n) (nio n) (ncalls n).
Definition set_net (s : list net_reply) (n : node) : node :=
  mkNode (nstore n) (nregistry n) (nraft n) (njoinToken n) (ninbox n) (nviews n) (ninits n) (napplies n) (nconfigs n)
    s (nrand n) (nnow n) (nio n) (ncalls n).
Definition set_rand (s : list (option bytes)) (n : node) : node :=
  mkNode (nstore n) (nregistry n) (nraft n) (njoinToken n) (ninbox n) (nviews n) (ninits n) (napplies n) (nconfigs n)
    (nnet n) s (nnow n) (nio n) (ncalls n).
Definition record_call (c : call) (n : node) : node :=
  mkNode (nstore n) (nregistry n) (nraft n) (njoinToken n) (ninbox n) (nviews n) (ninits n) (napplies n) (nconfigs n)
    (nnet n) (nrand n) (nnow n) (nio n) (ncalls n ++ [c]).
Definition set_io (x : io) (n : node) : node :=
  mkNode (nstore n) (nregistry n) (nraft n) (njoinToken n) (ninbox n) (nviews n) (ninits n) (napplies n) (nconfigs n)
    (nnet n) (nrand n) (nnow n) x (ncalls n).
Definition set_now (now : Z) (n : node) : node :=
  mkNode (nstore n) (nregistry n) (nraft n) (njoinToken n) (ninbox n) (nviews n) (ninits n) (napplies n) (nconfigs n)
    (nnet n) (nrand n) now (nio n) (ncalls n).

Definition set_connects (s : list connect_reply) (x : io) : io :=
  mkIo s (hostAddrs x) (confirmedAddrs x) (opens x) (rings x) (uploads x) (drains x) (channels x) (channelQuota x).
Definition set_host (polls : list (list (list bytes))) (confirmed : list bool) (x : io) : io :=
  mkIo (connects x) polls confirmed (opens x) (rings x) (uploads x) (drains x) (channels x) (channelQuota x).
Definition set_opens (s : list (option stream)) (x : io) : io :=
  mkIo (connects x) (hostAddrs x) (confirmedAddrs x) s (rings x) (uploads x) (drains x) (channels x) (channelQuota x).
Definition set_rings (s : list (option ring)) (x : io) : io :=
  mkIo (connects x) (hostAddrs x) (confirmedAddrs x) (opens x) s (uploads x) (drains x) (channels x) (channelQuota x).
Definition set_uploads (s : list (option reader)) (x : io) : io :=
  mkIo (connects x) (hostAddrs x) (confirmedAddrs x) (opens x) (rings x) s (drains x) (channels x) (channelQuota x).
Definition set_drains (s : list (bytes * option error)) (x : io) : io :=
  mkIo (connects x) (hostAddrs x) (confirmedAddrs x) (opens x) (rings x) (uploads x) s (channels x) (channelQuota x).
Definition set_channels (t : channelTable) (x : io) : io :=
  mkIo (connects x) (hostAddrs x) (confirmedAddrs x) (opens x) (rings x) (uploads x) (drains x) t (channelQuota x).
Definition set_quota (q : quotaTracker) (x : io) : io :=
  mkIo (connects x) (hostAddrs x) (confirmedAddrs x) (opens x) (rings x) (uploads x) (drains x) (channels x) q.

(** * Effects *)

(** A method of [*Node] that returns [(A, error)]. *)
Definition D (A : Type) : Type := node -> node * gores A.

#[global] Instance D_ret : MRet D := fun A a n => (n, Ret a).
#[global] Instance D_bind : MBind D := fun A B f m n =>
  match m n with
  | (n', Ret a) => f a n'
  | (n', Fail e) => (n', Fail e)
  | (n', Panic) => (n', Panic)
  end.

Definition liftD {A} (r : gores A) : D A := fun n => (n, r).
Definition fail {A} (fmt : String.string) : D A := liftD (Fail (Errorf fmt)).
Arguments fail {A} fmt%_string_scope.
Definition gets {A} (f : node -> A) : D A := fun n => (n, Ret (f n)).
Definition modify (f : node -> node) : D unit := fun n => (f n, Ret tt).

(** Read from and change [nio]. *)
Definition getIo {A} (f : io -> A) : D A := gets (fun n => f (nio n)).
Definition modifyIo (f : io -> io) : D unit := modify (fun n => set_io (f (nio n)) n).

(** [v, err := m] *)
Definition tryD {A} (m : D A) : D (A + error) := fun n =>
  match m n with
  | (n', Ret a) => (n', Ret (inl a))
  | (n', Fail e) => (n', Ret (inr e))
  | (n', Panic) => (n', Panic)
  end.

Definition wrapD {A} (fmt : String.string) (m : D A) : D A := fun n =>
  match m n with (n', r) => (n', wrap_err fmt r) end.
Arguments wrapD {A} fmt%_string_scope m.

(** An error that is only printed to standard error. *)
Definition logged (m : D unit) : D unit := _ ← tryD m; mret tt.

(** A call on [n.store]. *)
Definition onStore {A} (m : M A) : D A := fun n =>
  let '(w, r) := m (nstore n) in (set_store w n, r).

(** * Calls out of the node *)

(** The entries of other callers that raft applies first; their results go to
    those callers. *)
Fixpoint applyOthers (ls : list Log) : D unit :=
  match ls with
  | [] => mret tt
  | l :: ls' => _ ← tryD (onStore (Apply l)); applyOthers ls'
  end.

Definition ErrRaft : error := Errorf "raft".

(** [future := rf.Apply(cmd, timeout)]: the result of the state machine, and the
    entry's index.  An error is the future's. *)
Definition raftApply (cmd : bytes) : D ((bytes + error) * Z) :=
  _ ← modify (record_call (Proposed cmd));
  sched ← gets napplies;
  _ ← modify (set_applies (tail sched));
  match sched with
  | [] | Rejected :: _ => liftD (Fail ErrRaft)
  | Unknown before appendedAt :: _ =>
    _ ← applyOthers before;
    _ ← tryD (onStore (Apply (mkLog cmd appendedAt)));
    liftD (Fail ErrRaft)
  | Committed before appendedAt index :: _ =>
    _ ← applyOthers before;
    res ← tryD (onStore (Apply (mkLog cmd appendedAt)));
    mret (res, index)
  end.

(** [AddVoter]/[AddNonvoter], [RemoveServer], [BootstrapCluster]: on success the
    library reports a new configuration. *)
Definition changeConfig (c : call) : D unit :=
  _ ← modify (record_call c);
  sched ← gets nconfigs;
  _ ← modify (set_configs (tail sched));
  match sched with
  | [] | None :: _ => liftD (Fail ErrRaft)
  | Some servers :: _ =>
    modify (fun n =>
      match nraft n with
      | None => n
      | Some rf => set_raft (Some (mkRaft (State rf) (LeaderID rf) (Some servers))) (nviews n) (ninits n) n
      end)
  end.

(** A stream to a peer: write, close for writing, read all. *)
Definition exchange (proto dest payload : bytes) : D net_reply :=
  _ ← modify (record_call (Sent proto dest payload));
  sched ← gets nnet;
  _ ← modify (set_net (tail sched));
  match sched with
  | [] => mret DialFailed
  | Reply resp behind :: _ => _ ← applyOthers behind; mret (Reply resp behind)
  | r :: _ => mret r
  end.

(** [cryptorand.Read] *)
Definition randomBytes : D bytes :=
  sched ← gets nrand;
  _ ← modify (set_rand (tail sched));
  match sched with
  | Some b :: _ => mret b
  | _ => liftD (Fail (Errorf "rand"))
  end.

(** * The inbox of notifications (execute.go) *)

Definition maxExecuteInbox : Z := 256.

(** The oldest entry is dropped when the inbox is full. *)
Definition push (e : executeNotification) (entries : list executeNotification) : list executeNotification :=
  (if maxExecuteInbox <=? blen entries then tail entries else entries) ++ [e].

Definition pop (entries : list executeNotification) : option (executeNotification * list executeNotification) :=
  match entries with
  | [] => None
  | e :: entries' => Some (e, entries')
  end.

Definition inboxPush (e : executeNotification) : D unit := modify (fun n => set_inbox (push e (ninbox n)) n).

Definition inboxPop : D (option executeNotification) := fun n =>
  match pop (ninbox n) with
  | None => (n, Ret None)
  | Some (e, rest) => (set_inbox rest n, Ret (Some e))
  end.

(** * The environment of a node *)

(** [logrecord.Record], the fields the daemon writes; [Timestamp] in Unix nanoseconds. *)
Record LogRecord : Type := mkRecord {
  Kind : bytes;
  UnitID : bytes;
  Timestamp : Z;
  AuthorPeerID : bytes;
  RecordFields : list (bytes * bytes);
  Narrative : bytes;
}.

(** [peer.AddrInfo] *)
Record AddrInfo : Type := mkAddrInfo {
  infoID : bytes;
  infoAddrs : list bytes;
}.

(** Fixed configuration of the process, and the third-party functions the code
    calls: the addresses of the libp2p host at an instant, peer ids ([peer.Decode] followed by [String], the raw public key a
    peer id embeds), multiaddresses and the machine's registry of addresses, the
    text of an error, JSON, the token bucket of the quotas, and the primitives of
    the message envelope.  [ptrData e i] is what the pointer slot [i] of a message
    holds when it is read as data, whatever the message's tag. *)
Class Env : Type := {
  peerID : bytes;
  ed25519Pub : bytes;
  ed25519Priv : bytes;
  HostAddrs : Z -> list bytes;
  IsIPLoopback : bytes -> bool;
  RequireConfirmForJoin : bool;
  buildInfo : VersionInfo;
  peer_Decode : bytes -> gores bytes;
  peer_PublicKey : bytes -> gores bytes;
  ResolveAddress : bytes -> gores bytes;
  NewMultiaddr : bytes -> gores bytes;
  AddrInfoFromP2pAddr : bytes -> gores AddrInfo;
  IsPublicAddr : bytes -> bool;
  RelayPeers : list bytes;
  Error : error -> bytes;
  json_join : bytes -> byte -> bytes;
  json_unjoin : bytes -> gores (bytes * byte);
  json_record : LogRecord -> gores bytes;
  json_unrecord : bytes -> gores LogRecord;
  json_unbootstrap : bytes -> gores (bytes * byte);
  AllowN : Q -> Z -> list (Z * Z) -> Z -> Z -> bool;
  ptrData : Event -> nat -> field;
  json_poke : bytes -> bytes -> gores bytes;
  Canonicalize : Msg -> gores bytes;
  ed25519_sign : bytes -> bytes -> bytes;
  ed25519_verify : bytes -> bytes -> bytes -> bool;
  Marshal : Msg -> gores bytes;
  Unmarshal : bytes -> gores Msg;
}.

(** * Steps of a node *)

(** What one effect of a method does to the state, when the calls it makes
    satisfy [P]. *)
Inductive node_step (P : call -> Prop) (n : node) : node -> Prop :=
| step_propose cmd : P (Proposed cmd) -> node_step P n (raftApply cmd n).1
| step_config c : P c -> (forall cmd, c <> Proposed cmd) -> node_step P n (changeConfig c n).1
| step_exchange proto dest payload : P (Sent proto dest payload) -> node_step P n (exchange proto dest payload n).1
| step_call c : P c -> (forall cmd, c <> Proposed cmd) -> node_step P n (record_call c n)
| step_random : node_step P n (randomBytes n).1
| step_read w :
    committed w = committed (nstore n) -> pending w = pending (nstore n) -> (healthy (nstore n) -> healthy w) ->
    node_step P n (set_store w n)
| step_view rf views inits : node_step P n (set_raft rf views inits n)
| step_register id value : node_step P n (set_registry (Register id value (nregistry n)) n)
| step_token token : node_step P n (set_token token n)
| step_push e : node_step P n (set_inbox (push e (ninbox n)) n)
| step_pop e rest : pop (ninbox n) = Some (e, rest) -> node_step P n (set_inbox rest n)
| step_io x : (channels_ok (channels (nio n)) -> channels_ok (channels x)) -> node_step P n (set_io x n)
| step_clock now : node_step P n (set_now now n).

(** Running [m] at [n] is a sequence of steps whose calls satisfy [P]. *)
Definition EmitsAt {A} (P : call -> Prop) (n : node) (m : D A) : Prop := rtc (node_step P) n (m n).1.

Definition Emits {A} (P : call -> Prop) (m : D A) : Prop := forall n, EmitsAt P n m.

(** Database code that changes neither the table nor the open transaction. *)
Definition ReadOnly {A} (m : M A) : Prop := forall w,
  committed (m w).1 = committed w /\ pending (m w).1 = pending w /\ (healthy w -> healthy (m w).1).

Section ReadOnly.
Context {A B : Type}.

Lemma readonly_lift (r : gores A) : ReadOnly (liftG r).
Proof. done. Qed.

Lemma readonly_ret (a : A) : ReadOnly (mret a : M A).
Proof. done. Qed.

Lemma readonly_bind (m : M A) (k : A -> M B) : ReadOnly m -> (forall a, ReadOnly (k a)) -> ReadOnly (m ≫= k).
Proof.
  intros Hm Hk w. unfold mbind, M_bind. destruct (Hm w) as (Hc & Hp & Hh).
  destruct (m w) as [w' [a| |]]; cbn in *; [|done..].
  destruct (Hk a w') as (Hc' & Hp' & Hh'). rewrite Hc', Hp'. auto.
Qed.

Lemma readonly_try (m : M A) : ReadOnly m -> ReadOnly (try m).
Proof. intros Hm w. specialize (Hm w). unfold try. by destruct (m w) as [w' []]. Qed.

Lemma readonly_reads s (m : M A) f : Reads s m f -> ReadOnly m.
Proof. intros Hm w. by destruct (Hm _ w eq_refl) as (w' & r & -> & Hc & Hp & Hh & _). Qed.
End ReadOnly.

Lemma readonly_get k : ReadOnly (get Store k).
Proof. eapply readonly_reads, reads_get. Qed.

Lemma readonly_scanRange lo hi limit : ReadOnly (scanRange Store lo hi limit).
Proof. eapply readonly_reads, reads_scanRange. Qed.

Lemma readonly_scanPrefix p limit : ReadOnly (scanPrefix Store p limit).
Proof. eapply readonly_reads, reads_scanPrefix. Qed.

#[export] Hint Resolve readonly_ret readonly_lift readonly_get readonly_scanRange readonly_scanPrefix : daemon.

Ltac readonly :=
  repeat first
    [ progress eauto 2 with daemon
    | match goal with
      | |- ReadOnly (_ ≫= _) => apply readonly_bind; [|intros ?]
      | |- ReadOnly (try _) => apply readonly_try
      | |- ReadOnly (match ?x with _ => _ end) => destruct x
      end ].

Lemma readonly_hasKey k : ReadOnly (hasKey Store k).
Proof. unfold hasKey. readonly. Qed.
#[export] Hint Resolve readonly_hasKey : daemon.

Lemma readonly_anyGroupPermits peer matches : ReadOnly (anyGroupPermits Store peer matches).
Proof. induction matches as [|[k v] matches IH]; cbn [anyGroupPermits]; unfold isPublicGroup; readonly. Qed.

Lemma readonly_permitted commandID peer : ReadOnly (IsPermittedForCommand Store commandID peer).
Proof. unfold IsPermittedForCommand. readonly. apply readonly_anyGroupPermits. Qed.
#[export] Hint Resolve readonly_permitted : daemon.

(** ** Rules *)

Section Calls.
Context {A B : Type} (P : call -> Prop).

Lemma emits_at (m : D A) n : Emits P m -> EmitsAt P n m.
Proof. done. Qed.

Lemma emits_at_same n (m : D A) : (m n).1 = n -> EmitsAt P n m.
Proof. unfold EmitsAt. intros ->. apply rtc_refl. Qed.

Lemma emits_at_step n (m : D A) : node_step P n (m n).1 -> EmitsAt P n m.
Proof. apply rtc_once. Qed.

Lemma emits_at_bind n (m : D A) (k : A -> D B) :
  EmitsAt P n m -> (forall a, (m n).2 = Ret a -> EmitsAt P (m n).1 (k a)) -> EmitsAt P n (m ≫= k).
Proof.
  intros Hm Hk. unfold EmitsAt, mbind, D_bind in *. destruct (m n) as [n' [a|e|]]; cbn in *; [|done..].
  etrans; [exact Hm|]. by apply Hk.
Qed.

Lemma emits_bind (m : D A) (k : A -> D B) : Emits P m -> (forall a, Emits P (k a)) -> Emits P (m ≫= k).
Proof. intros Hm Hk n. apply emits_at_bind; [apply Hm|]. intros a _. apply Hk. Qed.

(** A step without effects: the rest may use what it returned. *)
Lemma emits_lift_bind (r : gores A) (k : A -> D B) :
  (forall a, r = Ret a -> Emits P (k a)) -> Emits P (liftD r ≫= k).
Proof. intros Hk n. apply emits_at_bind; [by apply emits_at_same|]. intros a E. by apply Hk. Qed.

Lemma emits_ret (a : A) : Emits P (mret a : D A).
Proof. intros n. by apply emits_at_same. Qed.

Lemma emits_lift (r : gores A) : Emits P (liftD r).
Proof. intros n. by apply emits_at_same. Qed.

Lemma emits_gets (f : node -> A) : Emits P (gets f).
Proof. intros n. by apply emits_at_same. Qed.

Lemma emits_wrap fmt (m : D A) : Emits P m -> Emits P (wrapD fmt m).
Proof. intros Hm n. specialize (Hm n). unfold EmitsAt, wrapD in *. by destruct (m n). Qed.

Lemma emits_try (m : D A) : Emits P m -> Emits P (tryD m).
Proof. intros Hm n. specialize (Hm n). unfold EmitsAt, tryD in *. by destruct (m n) as [n' []]. Qed.

Lemma emits_store (m : M A) : ReadOnly m -> Emits P (onStore m).
Proof.
  intros Hm n. destruct (Hm (nstore n)) as (Hc & Hp & Hh). apply emits_at_step. unfold onStore.
  destruct (m (nstore n)) as [w r]. by apply step_read.
Qed.

Lemma emits_at_weaken (Q : call -> Prop) (m : D A) n : (forall c, Q c -> P c) -> EmitsAt Q n m -> EmitsAt P n m.
Proof.
  intros HQ. unfold EmitsAt. generalize (m n).1. intros n'. induction 1 as [|x y z Hs _ IH]; [apply rtc_refl|].
  eapply rtc_l; [|exact IH]. destruct Hs; eauto using node_step.
Qed.

Lemma emits_weaken (Q : call -> Prop) (m : D A) : (forall c, Q c -> P c) -> Emits Q m -> Emits P m.
Proof. intros HQ Hm n. by eapply emits_at_weaken. Qed.
End Calls.

Lemma emits_raftApply (P : call -> Prop) cmd : P (Proposed cmd) -> Emits P (raftApply cmd).
Proof. intros H n. by apply emits_at_step, step_propose. Qed.

Lemma emits_changeConfig (P : call -> Prop) c : P c -> (forall cmd, c <> Proposed cmd) -> Emits P (changeConfig c).
Proof. intros H Hc n. by apply emits_at_step, step_config. Qed.

Lemma emits_exchange (P : call -> Prop) proto dest payload : P (Sent proto dest payload) -> Emits P (exchange proto dest payload).
Proof. intros H n. by apply emits_at_step, step_exchange. Qed.

Lemma emits_transfer (P : call -> Prop) id addr :
  P (TransferLeadership id addr) -> Emits P (modify (record_call (TransferLeadership id addr))).
Proof. intros H n. by apply emits_at_step, step_call. Qed.

Lemma emits_sent (P : call -> Prop) proto dest request :
  P (Sent proto dest request) -> Emits P (modify (record_call (Sent proto dest request))).
Proof. intros H n. by apply emits_at_step, step_call. Qed.

(** An operation on the host or the channels that keeps the table's invariant. *)
Lemma emits_modifyIo P f : (forall x, channels_ok (channels x) -> channels_ok (channels (f x))) -> Emits P (modifyIo f).
Proof. intros Hf n. apply emits_at_step, step_io, Hf. Qed.

Lemma emits_getIo {A : Type} P (f : io -> A) : Emits P (getIo f).
Proof. intros n. by apply emits_at_same. Qed.

Lemma emits_randomBytes P : Emits P randomBytes.
Proof. intros n. apply emits_at_step, step_random. Qed.

Lemma emits_register P id value : Emits P (modify (fun n => set_registry (Register id value (nregistry n)) n)).
Proof. intros n. apply emits_at_step, step_register. Qed.

Lemma emits_token P token : Emits P (modify (set_token token)).
Proof. intros n. apply emits_at_step, step_token. Qed.

Lemma emits_inboxPush P e : Emits P (inboxPush e).
Proof. intros n. apply emits_at_step, step_push. Qed.

Lemma emits_inboxPop P : Emits P inboxPop.
Proof.
  intros n. unfold EmitsAt, inboxPop. destruct (pop (ninbox n)) as [[e rest]|] eqn:E; [|apply rtc_refl].
  by eapply rtc_once, step_pop.
Qed.

Lemma emits_logged P m : Emits P m -> Emits P (logged m).
Proof. intros H. apply emits_bind; [by apply emits_try|intros; apply emits_ret]. Qed.

#[export] Hint Resolve emits_ret emits_lift emits_gets emits_store emits_logged emits_raftApply emits_exchange
  emits_randomBytes emits_register emits_token emits_inboxPush emits_inboxPop emits_getIo emits_sent : daemon.

(** Follow the structure of a method, branch by branch. *)
Ltac emits :=
  repeat first
    [ progress eauto 4 with daemon
    | match goal with
      | |- Emits _ (let _ := _ in _) => cbv zeta
      | |- Emits _ (liftD _ ≫= _) => apply emits_lift_bind; intros ? ?
      | |- Emits _ (_ ≫= _) => apply emits_bind; [|intros ?]
      | |- Emits _ (wrapD _ _) => apply emits_wrap
      | |- Emits _ (tryD _) => apply emits_try
      | |- Emits _ (match ?x with _ => _ end) => destruct x eqn:?
      | |- Emits _ (fail _) => apply emits_lift
      end ].

(** ** What the steps amount to *)

Lemma calls_applyOthers ls n : ncalls (applyOthers ls n).1 = ncalls n.
Proof.
  revert n. induction ls as [|l ls IH]; intros n; [done|]. cbn [applyOthers].
  unfold mbind, D_bind, tryD, onStore. destruct (Apply l (nstore n)) as [w [v|e|]]; cbn; [by rewrite IH..|done].
Qed.

(** [m] followed by [k], both leaving the calls alone. *)
Lemma calls_bind {A B : Type} (m : D A) (k : A -> D B) n :
  ncalls (m n).1 = ncalls n -> (forall a n', ncalls (k a n').1 = ncalls n') -> ncalls ((m ≫= k) n).1 = ncalls n.
Proof. intros Hm Hk. unfold mbind, D_bind. destruct (m n) as [n' [a| |]]; cbn in *; [by rewrite Hk|done..]. Qed.

Lemma calls_onStore {A : Type} (m : M A) n : ncalls (tryD (onStore m) n).1 = ncalls n.
Proof. unfold tryD, onStore. by destruct (m (nstore n)) as [w [v|e|]]. Qed.

Lemma calls_raftApply cmd n : ncalls (raftApply cmd n).1 = ncalls n ++ [Proposed cmd].
Proof.
  unfold raftApply. unfold mbind at 1 2 3, D_bind at 1 2 3. unfold modify, gets. cbn.
  destruct (napplies n) as [|[|before ts|before ts index] rest]; cbn; [done..| |];
    (rewrite calls_bind; [done|apply calls_applyOthers|]); intros _ n';
    (rewrite calls_bind; [done|apply calls_onStore|done]).
Qed.

Lemma calls_changeConfig c n : ncalls (changeConfig c n).1 = ncalls n ++ [c].
Proof.
  unfold changeConfig, mbind, D_bind, modify, gets. cbn.
  destruct (nconfigs n) as [|[servers|] rest]; cbn; try done. by destruct (nraft n).
Qed.

Lemma calls_exchange proto dest request n : ncalls (exchange proto dest request n).1 = ncalls n ++ [Sent proto dest request].
Proof.
  unfold exchange. unfold mbind at 1 2 3, D_bind at 1 2 3. unfold modify, gets. cbn.
  destruct (nnet n) as [|[| | | |resp behind] rest]; cbn; try done.
  rewrite calls_bind; [done|apply calls_applyOthers|done].
Qed.

Lemma calls_step P n n' : node_step P n n' -> ncalls n' = ncalls n \/ exists c, P c /\ ncalls n' = ncalls n ++ [c].
Proof.
  destruct 1; cbn; auto; try (right; eexists; split; [eassumption|]).
  - apply calls_raftApply.
  - apply calls_changeConfig.
  - apply calls_exchange.
  - done.
  - left. unfold randomBytes, mbind, D_bind, modify, gets. by destruct (nrand n) as [|[] ?].
Qed.

(** The calls a run makes. *)
Lemma emits_calls {A : Type} P n (m : D A) :
  EmitsAt P n m -> exists new, ncalls (m n).1 = ncalls n ++ new /\ Forall P new.
Proof.
  unfold EmitsAt. generalize (m n).1. intros n'. induction 1 as [|x y z Hs _ (new & E & Hnew)].
  - exists []. by rewrite app_nil_r.
  - destruct (calls_step _ _ _ Hs) as [Ey|(c & Hc & Ey)]; rewrite Ey in E; [by exists new|].
    exists (c :: new). rewrite E, <- app_assoc. split; [done|by constructor].
Qed.
