(* ===== verification/Acl.v ===== *)
(** Access control of the daemon (src/pkg/daemon/acl.go): who the caller is,
    group membership, the gate in front of remote callers and its carve-out for
    command logs, reserved keys, the voter check and error responses. *)

From S2P Require Import Prelude Store StoreLogic SystemKeys Payloads LogRecord Txn Fsm Events Node.
#[local] Open Scope Z_scope.

(** Peer ids are represented by the text [peer.ID.String] gives; the empty text
    is the local caller. *)
Record callerIdentity : Type := mkCaller {
  verifyPub : bytes;
  remotePeer : bytes;
}.

Definition isRemote (c : callerIdentity) : bool := negb (bytes_eqb (remotePeer c) []).

Definition localCaller `{Env} : callerIdentity := mkCaller ed25519Pub [].

(** [pub] is the authenticated key of the connection and [raw] its bytes. *)
Definition remoteCaller (pub : option (gores bytes)) (peer : bytes) : gores callerIdentity :=
  match pub with
  | None => Fail (Errorf "remote caller: connection has no authenticated public key")
  | Some raw => raw ← wrap_err "remote caller: %w" raw; Ret (mkCaller raw peer)
  end.

(** * Groups *)

Definition isInGroupSt (id groupID : bytes) : M bool :=
  match PeerGroupKey id groupID with
  | Ret key => hasKey Store key
  | Fail _ => mret false
  | Panic => liftG Panic
  end.

(** [a || b], the right side evaluated only when needed. *)
Definition orM (a b : M bool) : M bool := x ← a; if (x : bool) then mret true else b.

Definition isAuthorizedForGatedAccessSt (selfPeerID id groupID : bytes) : M bool :=
  orM (isInGroupSt id ReservedGroupCluster) (orM (isInGroupSt id groupID) (isInGroupSt id selfPeerID)).

Definition isAuthorizedForGatedAccess `{Env} (id groupID : bytes) : D bool :=
  onStore (isAuthorizedForGatedAccessSt peerID id groupID).

Definition isPeerIdentityGroupID `{Env} (id : bytes) : bool := is_ret (peer_Decode id).

(** * Reserved keys *)

Definition rejectReservedKey (key : bytes) : gores unit :=
  match key with
  | [] => Ret tt
  | k0 :: _ =>
    if byte_eqb k0 SystemKeyPrefix then Fail (Errorf "key namespace starting with 0x%02x is reserved for system use")
    else if byte_eqb k0 LogKeyPrefix then Fail (Errorf "key namespace starting with 0x%02x is reserved for logrecord use")
    else Ret tt
  end.

(** * The carve-out for command logs *)

Definition logKindOfBound (key : bytes) : gores (option bytes) :=
  if blen key <? 3 then Ret None else
  k0 ← idx key 0;
  if negb (byte_eqb k0 LogKeyPrefix) then Ret None else
  kindLen ← read16 key 1;
  if blen key <? 3 + kindLen then Ret None else
  kind ← slice key 3 (3 + kindLen);
  Ret (Some kind).

Definition isCommandLogReadableKind (kind callerID : bytes) : D bool :=
  if bytes_eqb kind CommandExecLogKind then mret true else
  match ParseCommandRequestLogKind kind with
  | Some commandID =>
    r ← tryD (onStore (IsPermittedForCommand Store commandID callerID));
    mret (match r with inl permitted => permitted | inr _ => false end)
  | None =>
    match ParseCommandExecIndexKind kind with
    | Some peer => mret (bytes_eqb peer callerID)
    | None => mret false
    end
  end.

(** [err != nil] and [!ok] both answer no. *)
Definition boundKind (f : field) : D (option bytes) :=
  match rd f with
  | Ret key => liftD (logKindOfBound key)
  | Fail _ => mret None
  | Panic => liftD Panic
  end.

Definition isCommandLogCarveOut (m : Msg) (callerID : bytes) : D bool :=
  match Body m with
  | E_logAppend key _ =>
    kind ← boundKind key;
    mret (match kind with
          | None => false
          | Some kind => match ParseCommandRequestLogKind kind with Some _ => true | None => false end
          end)
  | E_getFieldByKey key _ =>
    kind ← boundKind key;
    match kind with
    | None => mret false
    | Some kind => isCommandLogReadableKind kind callerID
    end
  | E_listRange start end_ _ _ =>
    match rd start, rd end_ with
    | Ret start, Ret stop =>
      startKind ← liftD (logKindOfBound start);
      match startKind with
      | None => mret false
      | Some startKind =>
        endKind ← liftD (logKindOfBound stop);
        match endKind with
        | None => mret false
        | Some endKind =>
          if negb (bytes_eqb startKind endKind) then mret false
          else isCommandLogReadableKind startKind callerID
        end
      end
    | _, _ => mret false
    end
  | _ => mret false
  end.

(** * Voters *)

Definition isVoter (rf : Raft) (id : bytes) : bool :=
  match Configuration rf with
  | None => false
  | Some servers => existsb (fun srv => bytes_eqb (ServerID srv) id && bool_decide (Suffrage srv = Voter)) servers
  end.

Definition currentVoter (n : node) (id : bytes) : bool :=
  match nraft n with None => false | Some rf => isVoter rf id end.

Definition requireVoter (caller : callerIdentity) : D unit :=
  if negb (isRemote caller) then mret tt else
  voter ← gets (fun n => currentVoter n (remotePeer caller));
  if negb voter then fail "%s is not a current raft voter" else mret tt.

(** * Responses *)

Definition errorMsg `{Env} (id : Z) (err : error) : Msg :=
  match NewError (Error err) with
  | Ret resp => SetId id resp
  | _ => SetId id (newMsg (E_error (Ok [])))
  end.

(** * Lemmas *)

Section AclCalls.
Context (P : call -> Prop).

Lemma readonly_isInGroupSt id groupID : ReadOnly (isInGroupSt id groupID).
Proof. unfold isInGroupSt. readonly. Qed.
Hint Resolve readonly_isInGroupSt : daemon.

Lemma emits_isAuthorized `{Env} id groupID : Emits P (isAuthorizedForGatedAccess id groupID).
Proof. apply emits_store. unfold isAuthorizedForGatedAccessSt, orM. readonly. Qed.

Lemma emits_readableKind kind callerID : Emits P (isCommandLogReadableKind kind callerID).
Proof. unfold isCommandLogReadableKind. emits. Qed.

Lemma emits_boundKind f : Emits P (boundKind f).
Proof. unfold boundKind. emits. Qed.
Hint Resolve emits_readableKind emits_boundKind : daemon.

Lemma emits_carveOut m callerID : Emits P (isCommandLogCarveOut m callerID).
Proof. unfold isCommandLogCarveOut. emits. Qed.

Lemma emits_requireVoter caller : Emits P (requireVoter caller).
Proof. unfold requireVoter. emits. Qed.
End AclCalls.
#[export] Hint Resolve readonly_isInGroupSt emits_isAuthorized emits_carveOut emits_requireVoter : daemon.
