(* ===== verification/Forward.v ===== *)
(** Writes of a node (src/pkg/daemon/forward.go) and cluster membership
    (src/pkg/daemon/daemon.go, raft_lifecycle.go): finding the leader, proposing
    an entry or forwarding it to the leader, the leader's side of every forward
    protocol, admitting and removing servers, and the records and groups that
    mirror the raft configuration. *)

From S2P Require Import Prelude Store StoreLogic SystemKeys Payloads LogRecord Txn Fsm Events Node Acl.
#[local] Open Scope Z_scope.

Definition ForwardProtocolID : bytes := bs "/libp2p-kv-raft/forward-set/1.0.0".
Definition ForwardConfirmProtocolID : bytes := bs "/libp2p-kv-raft/forward-confirm/1.0.0".
Definition ForwardJoinProtocolID : bytes := bs "/libp2p-kv-raft/forward-join/1.0.0".
Definition ForwardLeaveProtocolID : bytes := bs "/libp2p-kv-raft/forward-leave/1.0.0".
Definition ForwardKickProtocolID : bytes := bs "/libp2p-kv-raft/forward-kick/1.0.0".

(** * Finding the leader *)

Inductive writeTarget : Type :=
| IsLeader
| ForwardTo (leaderID : bytes).

(** One look at the raft instance: [None] when it does not decide the loop. *)
Definition lookForLeader (rf : option Raft) : option writeTarget :=
  match rf with
  | None => None
  | Some rf =>
    if bool_decide (State rf = Leader) then Some IsLeader
    else if bytes_eqb (LeaderID rf) [] then None else Some (ForwardTo (LeaderID rf))
  end.

(** The polling loop: [ticks] are the views at the ticks before the deadline. *)
Fixpoint pollLeader (now : option Raft) (ticks : list (option Raft)) : option Raft * gores writeTarget :=
  match lookForLeader now with
  | Some t => (now, Ret t)
  | None =>
    match ticks with
    | later :: ticks' => pollLeader later ticks'
    | [] =>
      (now, match now with
            | None => Fail (Errorf "node has not been added to a cluster yet")
            | Some _ => Fail (Errorf "not leader and no leader known")
            end)
    end
  end.

Definition resolveWriteTarget : D writeTarget := fun n =>
  let '(rf, r) := pollLeader (nraft n) (default [] (head (nviews n))) in
  (set_raft rf (tail (nviews n)) (ninits n) n, r).

(** [awaitLeader]: only leadership of this node ends the loop. *)
Definition leads (rf : option Raft) : bool :=
  match rf with Some rf => bool_decide (State rf = Leader) | None => false end.

Fixpoint pollOwnLeadership (now : option Raft) (ticks : list (option Raft)) : option Raft * gores unit :=
  if leads now then (now, Ret tt) else
  match ticks with
  | later :: ticks' => pollOwnLeadership later ticks'
  | [] =>
    (now, match now with
          | None => Fail (Errorf "node has not been added to a cluster yet")
          | Some rf =>
            if bytes_eqb (LeaderID rf) [] then Fail (Errorf "not leader and no leader known")
            else Fail (Errorf "not leader; current leader is %s")
          end)
  end.

Definition awaitLeader : D unit := fun n =>
  let '(rf, r) := pollOwnLeadership (nraft n) (default [] (head (nviews n))) in
  (set_raft rf (tail (nviews n)) (ninits n) n, r).

(** * Ordinary writes *)

Definition applyOp (op : byte) (key value : bytes) : D Z :=
  let cmd := EncodeCommand op key value in
  '(res, index) ← raftApply cmd;
  match res with
  | inr err => liftD (Fail err)
  | inl _ => mret index
  end.

Definition applySet (key value : bytes) : D unit := _ ← applyOp OpSet key value; mret tt.

Definition forwardStatusOK : byte := Byte.x00.
Definition forwardStatusErr : byte := Byte.x01.

Definition decodeForwardResponse (buf : bytes) : gores Z :=
  if blen buf =? 0 then Fail (Errorf "forward set: empty response from leader") else
  b0 ← idx buf 0;
  if byte_eqb b0 forwardStatusOK then
    if negb (blen buf =? 9) then Fail (Errorf "forward set: malformed success response (%d bytes)") else
    read_be buf 1 9
  else if byte_eqb b0 forwardStatusErr then Fail (Errorf "forward set: %s")
  else Fail (Errorf "forward set: unrecognized response status byte 0x%02x").

Section Writes.
Context `{Env}.

(** The peer id of the leader; seeding the peerstore from the raft
    configuration first is best-effort. *)
Definition dialForward (leaderID proto payload : bytes) : D net_reply :=
  pid ← liftD (wrap_err "invalid leader id %s: %w" (peer_Decode leaderID));
  exchange proto pid payload.

Definition forwardOp (op : byte) (leaderID key value : bytes) : D Z :=
  r ← wrapD "forward set to leader %s: %w" (dialForward leaderID ForwardProtocolID (EncodeCommand op key value));
  match r with
  | DialFailed => fail "forward set to leader %s: %w"
  | WriteFailed => fail "forward set: write to leader %s: %w"
  | CloseFailed => fail "forward set: close write to leader %s: %w"
  | ReadFailed => fail "forward set: read response from leader %s: %w"
  | Reply respBuf _ => liftD (decodeForwardResponse respBuf)
  end.

(** [waitForLocalApply] only delays the answer. *)
Definition handleOpForward (op : byte) (key value : bytes) (allowForward : bool) : D Z :=
  target ← resolveWriteTarget;
  match target with
  | IsLeader => applyOp op key value
  | ForwardTo leaderID =>
    if negb allowForward then fail "not leader; current leader is %s (already forwarded once)"
    else forwardOp op leaderID key value
  end.

Definition handleSetForward (key value : bytes) (allowForward : bool) : D unit :=
  _ ← handleOpForward OpSet key value allowForward; mret tt.

(** The leader's side: the bytes written back on the stream. *)
Definition writeForwardError (err : error) : bytes := [forwardStatusErr] ++ Error err.
Definition writeForwardSuccess (index : Z) : bytes := [forwardStatusOK] ++ be_bytes 8 (u64 index).

Definition forwardSetRequest (buf : bytes) : D Z :=
  '(op, key, value) ← liftD (wrap_err "forward set: decode command: %w" (decodeCommand buf));
  if negb (byte_eqb op OpSet) && negb (byte_eqb op OpAppendCommandRequest) && negb (byte_eqb op OpTxn)
  then fail "forward set: expected OpSet, OpAppendCommandRequest, or OpTxn, got op %d" else
  handleOpForward op key value false.

(** [buf] is what [io.ReadAll] returned. *)
Definition handleForwardSetStream (buf : gores bytes) : D bytes :=
  r ← tryD (buf ← liftD (wrap_err "forward set: read command: %w" buf); forwardSetRequest buf);
  mret (match r with
        | inl index => writeForwardSuccess index
        | inr err => writeForwardError err
        end).

(** * Privileged writes *)

Definition forwardConfirm (leaderID : bytes) (op : byte) (key1 key2 : bytes) : D unit :=
  r ← wrapD "forward confirm to leader %s: %w"
        (dialForward leaderID ForwardConfirmProtocolID (EncodeCommand op key1 key2));
  match r with
  | DialFailed => fail "forward confirm to leader %s: %w"
  | WriteFailed => fail "forward confirm: write to leader %s: %w"
  | CloseFailed => fail "forward confirm: close write to leader %s: %w"
  | ReadFailed => fail "forward confirm: read response from leader %s: %w"
  | Reply respBuf _ => if 0 <? blen respBuf then fail "forward confirm: %s" else mret tt
  end.

(** [applyConfirm] calls [admitClusterJoinIfConfirmed] for a confirmation, and
    that reaches [applyConfirm] again for the other operations only; [admission]
    ties the knot. *)
Definition applyConfirmWith (admission : bytes -> D unit) (op : byte) (key1 key2 : bytes) : D unit :=
  '(res, _) ← raftApply (EncodeCommand op key1 key2);
  match res with
  | inr err => liftD (Fail err)
  | inl _ => if byte_eqb op OpConfirm then admission key2 else mret tt
  end.

Definition handleConfirmForwardWith (admission : bytes -> D unit) (op : byte) (key1 key2 : bytes)
  (allowForward : bool) : D unit :=
  target ← resolveWriteTarget;
  match target with
  | IsLeader => applyConfirmWith admission op key1 key2
  | ForwardTo leaderID =>
    if negb allowForward then fail "not leader; current leader is %s (already forwarded once)"
    else forwardConfirm leaderID op key1 key2
  end.

(** Operations other than [OpConfirm]. *)
Definition noAdmission (_ : bytes) : D unit := mret tt.
Definition applyOther : byte -> bytes -> bytes -> D unit := applyConfirmWith noAdmission.
Definition handleOtherForward : byte -> bytes -> bytes -> bool -> D unit := handleConfirmForwardWith noAdmission.

(** * Members and their groups *)

Definition setPeerGroup (peer groupID : bytes) : D unit :=
  key ← liftD (PeerGroupKey peer groupID);
  handleSetForward key [] true.

Definition deletePeerGroup (peer groupID : bytes) : D unit :=
  key ← liftD (PeerGroupKey peer groupID);
  handleOtherForward OpDel key [] true.

Definition ensurePersonalGroup (peer : bytes) : D unit :=
  wrapD "create personal group %q: %w"
    (handleOtherForward OpSet (GroupKey peer) (EncodeGroupPayload peer false) true).

Definition syncMemberGroups (peer : bytes) (role : byte) : D unit :=
  _ ← ensurePersonalGroup peer;
  _ ← setPeerGroup peer ReservedGroupCluster;
  if byte_eqb role RoleLearner then
    _ ← setPeerGroup peer ReservedGroupLearner;
    deletePeerGroup peer ReservedGroupVoter
  else
    _ ← setPeerGroup peer ReservedGroupVoter;
    deletePeerGroup peer ReservedGroupLearner.

Definition clearMemberGroups (peer : bytes) : D unit :=
  _ ← deletePeerGroup peer ReservedGroupCluster;
  _ ← deletePeerGroup peer ReservedGroupVoter;
  deletePeerGroup peer ReservedGroupLearner.

Definition recordClusterMember (peer : bytes) (role : byte) : D unit :=
  pid ← liftD (wrap_err "decode peer id: %w" (peer_Decode peer));
  raw ← liftD (wrap_err "extract public key: %w" (peer_PublicKey pid));
  handleSetForward (ClusterMemberKey peer) (EncodeClusterMemberPayload raw role) true.

(** The groups and the command every new cluster starts with. *)
Definition ensureReservedGroup (id : bytes) : D unit :=
  wrapD "create reserved group %q: %w" (handleOtherForward OpSet (GroupKey id) (EncodeGroupPayload id false) true).

Definition ensureReservedGroups : D unit :=
  _ ← ensureReservedGroup ReservedGroupCluster;
  _ ← ensureReservedGroup ReservedGroupVoter;
  _ ← ensureReservedGroup ReservedGroupLearner;
  _ ← ensureReservedGroup ReservedGroupChannel;
  _ ← ensureReservedGroup ReservedGroupRelay;
  _ ← ensureReservedGroup ReservedGroupRemote;
  ensureReservedGroup ReservedGroupExecute.

Definition ensureDefaultPublicCommand : D unit :=
  _ ← wrapD "create default public group: %w"
        (handleOtherForward OpSet (GroupKey DefaultPublicGroupID) (EncodeGroupPayload DefaultPublicGroupID true) true);
  commandValue ← liftD (wrap_err "encode default public command: %w"
                          (EncodeCommandPayload DefaultPublicCommandID []));
  _ ← wrapD "create default public command: %w"
        (handleOtherForward OpSet (CommandKey DefaultPublicCommandID) commandValue true);
  linkKey ← liftD (wrap_err "build default public group-command link key: %w"
                     (GroupCommandKey DefaultPublicCommandID DefaultPublicGroupID));
  wrapD "link default public command to its group: %w" (handleOtherForward OpSet linkKey [] true).

(** * Leadership *)

(** [strings.Contains] *)
Fixpoint contains (sub s : bytes) : bool :=
  match cut_prefix sub s with
  | Some _ => true
  | None => match s with [] => false | _ :: s' => contains sub s' end
  end.

Definition isRelayServerAddress (addr : bytes) : bool := contains (bs "/p2p-circuit") addr.

Definition serverAddress (servers : list Server) (self : bytes) : bytes :=
  match find (fun srv => bytes_eqb (ServerID srv) self) servers with
  | Some srv => Address srv
  | None => []
  end.

Definition preferredLeaderTransferTarget (servers : list Server) (self : bytes) : option (bytes * bytes) :=
  if negb (isRelayServerAddress (serverAddress servers self)) then None else
  match find (fun srv => negb (bytes_eqb (ServerID srv) self || negb (bool_decide (Suffrage srv = Voter)))
                         && negb (isRelayServerAddress (Address srv))) servers with
  | Some srv => Some (ServerID srv, Address srv)
  | None => None
  end.

Definition transferLeadershipToStableVoter : D unit :=
  rf ← gets nraft;
  match rf ≫= Configuration with
  | None => mret tt
  | Some servers =>
    match preferredLeaderTransferTarget servers peerID with
    | None => mret tt
    | Some (id, addr) => modify (record_call (TransferLeadership id addr))
    end
  end.

Definition ownCurrentRole (rf : Raft) : option byte :=
  if bool_decide (State rf = Leader) then Some RoleLeader else
  match Configuration rf with
  | None => None
  | Some servers =>
    match find (fun srv => bytes_eqb (ServerID srv) peerID) servers with
    | None => None
    | Some srv => if bool_decide (Suffrage srv = Nonvoter) then Some RoleLearner else Some RoleVoter
    end
  end.

(** One observation of [watchLeadership]. *)
Definition onLeadershipChange : D unit :=
  rf ← gets nraft;
  match rf ≫= ownCurrentRole with
  | None => mret tt
  | Some role =>
    _ ← logged (recordClusterMember peerID role);
    _ ← (if negb (byte_eqb role RoleLearner) then logged (syncMemberGroups peerID role) else mret tt);
    if byte_eqb role RoleLeader then transferLeadershipToStableVoter else mret tt
  end.

(** * Adding and removing servers *)

Definition ERR : bytes := bs "ERR: ".

(** The line that answers a join, and what its callers make of it. *)
Definition isErrLine (line : bytes) : bool := match cut_prefix (bs "ERR:") line with Some _ => true | None => false end.

Definition addServerLine (joinPeerID joinAddr : bytes) (suffrage : ServerSuffrage) : D bytes :=
  let added := match suffrage with Nonvoter => Nonvoter | _ => Voter end in
  r ← tryD (changeConfig (AddServer added joinPeerID joinAddr));
  match r with
  | inr err => mret (ERR ++ Error err)
  | inl _ =>
    let role := if bool_decide (suffrage = Nonvoter) then RoleLearner else RoleVoter in
    _ ← logged (recordClusterMember joinPeerID role);
    _ ← logged (syncMemberGroups joinPeerID role);
    _ ← (if bool_decide (suffrage = Nonvoter) then mret tt else transferLeadershipToStableVoter);
    mret (bs "OK")
  end.

Definition removeServerLine (peer : bytes) : D bytes :=
  r ← tryD (changeConfig (RemoveServer peer));
  match r with
  | inr err => mret (ERR ++ Error err)
  | inl _ =>
    _ ← logged (applyOther OpDel (ClusterMemberKey peer) []);
    _ ← logged (clearMemberGroups peer);
    mret (bs "OK")
  end.

(** [EncodeClusterJoinMetadata] and [DecodeClusterJoinMetadata] are JSON. *)
Definition admitClusterJoinIfConfirmed (confirmedKey : bytes) : D unit :=
  if blen confirmedKey <? 3 then mret tt else
  k0 ← liftD (idx confirmedKey 0);
  if negb (byte_eqb k0 SystemKeyPrefix) then mret tt else
  k1 ← liftD (idx confirmedKey 1);
  if negb (byte_eqb k1 KindClusterJoin) then mret tt else
  peer ← liftD (slice_from confirmedKey 3);
  value ← wrapD "cluster join: read confirmed record for %s: %w" (onStore (get Store confirmedKey));
  '(addr, sf) ← liftD (wrap_err "cluster join: decode confirmed record for %s: %w" (json_unjoin value));
  let suffrage := if byte_eqb sf SuffrageLearner then Nonvoter else Voter in
  line ← addServerLine peer addr suffrage;
  if isErrLine line then fail "cluster join: %s" else mret tt.

Definition applyConfirm : byte -> bytes -> bytes -> D unit := applyConfirmWith admitClusterJoinIfConfirmed.
Definition handleConfirmForward : byte -> bytes -> bytes -> bool -> D unit :=
  handleConfirmForwardWith admitClusterJoinIfConfirmed.

(** The leader's side of a forwarded privileged write, once the sender is known to be a voter. *)
Definition forwardConfirmRequest (buf : gores bytes) : D unit :=
  buf ← liftD (wrap_err "forward confirm: read command: %v" buf);
  '(op, key1, key2) ← liftD (wrap_err "forward confirm: decode command: %v" (decodeCommand buf));
  if negb (byte_eqb op OpConfirm) && negb (byte_eqb op OpDel) && negb (byte_eqb op OpSet) &&
     negb (byte_eqb op OpCascadeDelete)
  then fail "forward confirm: unsupported op %d" else
  handleConfirmForward op key1 key2 false.

(** An error is answered by its text, success by closing the stream. *)
Definition answerError (m : D unit) : D bytes :=
  r ← tryD m;
  mret (match r with inl _ => [] | inr err => Error err end).

Definition handleForwardConfirmStream (remote : bytes) (buf : gores bytes) : D bytes :=
  answerError (
    voter ← gets (fun n => currentVoter n remote);
    if negb voter then fail "forward confirm: %s is not a current raft voter"
    else forwardConfirmRequest buf).

(** * Leaving and kicking *)

Definition lineError (line : bytes) : D unit := if isErrLine line then fail "%s" else mret tt.

Definition forwardLeave (leaderID : bytes) : D unit :=
  r ← wrapD "forward leave to leader %s: %w" (dialForward leaderID ForwardLeaveProtocolID []);
  match r with
  | DialFailed => fail "forward leave to leader %s: %w"
  | WriteFailed | CloseFailed => fail "forward leave: close write to leader %s: %w"
  | ReadFailed => fail "forward leave: read response from leader %s: %w"
  | Reply respBuf _ => if 0 <? blen respBuf then fail "forward leave: %s" else mret tt
  end.

Definition leaveCluster : D unit :=
  target ← resolveWriteTarget;
  match target with
  | IsLeader => line ← removeServerLine peerID; lineError line
  | ForwardTo leaderID => forwardLeave leaderID
  end.

(** [strings.TrimPrefix(line, "ERR: ")] of an error line, nothing otherwise. *)
Definition answerLine (line : bytes) : bytes :=
  if isErrLine line then default line (cut_prefix ERR line) else [].

Definition notLeaderAnswer : bytes := Error (Errorf "not leader; current leader is %s (already forwarded once)").

Definition handleForwardLeaveStream (remote : bytes) : D bytes :=
  leader ← gets (fun n => leads (nraft n));
  if negb leader then mret notLeaderAnswer else
  line ← removeServerLine remote;
  mret (answerLine line).

Definition forwardKick (leaderID targetPeerID : bytes) : D unit :=
  r ← wrapD "forward kick to leader %s: %w" (dialForward leaderID ForwardKickProtocolID targetPeerID);
  match r with
  | DialFailed => fail "forward kick to leader %s: %w"
  | WriteFailed => fail "forward kick: write to leader %s: %w"
  | CloseFailed => fail "forward kick: close write to leader %s: %w"
  | ReadFailed => fail "forward kick: read response from leader %s: %w"
  | Reply respBuf _ => if 0 <? blen respBuf then fail "forward kick: %s" else mret tt
  end.

Definition kickPeer (targetPeerID : bytes) : D unit :=
  if bytes_eqb targetPeerID [] then fail "kick: missing target peer id" else
  target ← resolveWriteTarget;
  match target with
  | IsLeader => line ← removeServerLine targetPeerID; lineError line
  | ForwardTo leaderID => forwardKick leaderID targetPeerID
  end.

Definition handleForwardKickStream (remote : bytes) (buf : gores bytes) : D bytes :=
  voter ← gets (fun n => currentVoter n remote);
  if negb voter then mret (Error (Errorf "forward kick: %s is not a current raft voter")) else
  leader ← gets (fun n => leads (nraft n));
  if negb leader then mret notLeaderAnswer else
  match buf with
  | Panic => liftD Panic
  | Fail err => mret (Error (Wrapf "forward kick: read target: %v" err))
  | Ret targetPeerID =>
    if bytes_eqb targetPeerID [] then mret (Error (Errorf "forward kick: missing target peer id")) else
    line ← removeServerLine targetPeerID;
    mret (answerLine line)
  end.
End Writes.

(** * Lemmas *)

(** The knot of [applyConfirm] matters for confirmations only. *)
Lemma applyConfirm_other `{Env} op key1 key2 : op <> OpConfirm -> applyConfirm op key1 key2 = applyOther op key1 key2.
Proof.
  intros Hop. unfold applyConfirm, applyOther, applyConfirmWith. apply byte_eqb_false in Hop. by rewrite Hop.
Qed.

Lemma handleConfirmForward_other `{Env} op key1 key2 allow :
  op <> OpConfirm -> handleConfirmForward op key1 key2 allow = handleOtherForward op key1 key2 allow.
Proof.
  intros Hop. unfold handleConfirmForward, handleOtherForward, handleConfirmForwardWith.
  fold (applyConfirm op key1 key2). by rewrite applyConfirm_other.
Qed.
