(* ===== verification/Dial.v ===== *)
(** Reaching another node (src/pkg/daemon/daemon.go, src/pkg/daemon/host.go): the
    relays a node knows, the addresses a peer can be dialled at, and dialling
    with retries. *)

From S2P Require Import Prelude Store StoreLogic SystemKeys Payloads LogRecord Txn Fsm Events Stream Quota Session Node Acl Forward.
#[local] Open Scope Z_scope.

Section Dial.
Context `{Env}.

(** * Relays *)

(** [multiaddr.NewMultiaddr] followed by [peer.AddrInfoFromP2pAddr] *)
Definition addrInfo (addr : bytes) : gores AddrInfo :=
  maddr ← wrap_err "invalid address %q: %w" (NewMultiaddr addr);
  wrap_err "address %q missing peer id: %w" (AddrInfoFromP2pAddr maddr).

(** [addCandidate]: an address that does not parse, or of a relay already listed,
    is skipped. *)
Definition addCandidate (candidates : list AddrInfo) (addr : bytes) : gores (list AddrInfo) :=
  match addrInfo addr with
  | Panic => Panic
  | Fail _ => Ret candidates
  | Ret info =>
    if existsb (fun c => bytes_eqb (infoID c) (infoID info)) candidates then Ret candidates
    else Ret (candidates ++ [info])
  end.

Fixpoint addCandidates (candidates : list AddrInfo) (addrs : list bytes) : gores (list AddrInfo) :=
  match addrs with
  | [] => Ret candidates
  | addr :: addrs' => candidates' ← addCandidate candidates addr; addCandidates candidates' addrs'
  end.

(** [sort.SliceStable] by priority *)
Fixpoint insertByPriority (x : bytes * byte) (l : list (bytes * byte)) : list (bytes * byte) :=
  match l with
  | [] => [x]
  | y :: l' => if byte_to_Z x.2 <=? byte_to_Z y.2 then x :: y :: l' else y :: insertByPriority x l'
  end.

Definition sortByPriority (l : list (bytes * byte)) : list (bytes * byte) := foldr insertByPriority [] l.

(** Records that do not decode are skipped. *)
Fixpoint bootstrapEntries (matches : list row) : gores (list (bytes * byte)) :=
  match matches with
  | [] => Ret []
  | (_, v) :: matches' =>
    match json_unbootstrap v with
    | Panic => Panic
    | Fail _ => bootstrapEntries matches'
    | Ret e => es ← bootstrapEntries matches'; Ret (e :: es)
    end
  end.

Definition relayCandidates : M (list AddrInfo) :=
  configured ← liftG (addCandidates [] (List.filter (fun addr => negb (bytes_eqb addr [])) RelayPeers));
  let '(lo, hi) := BootstrapNodeKeyBounds in
  matches ← try (scanRange Store lo hi 0);
  match matches with
  | inr _ => mret configured
  | inl matches =>
    entries ← liftG (bootstrapEntries matches);
    liftG (addCandidates configured (map fst (sortByPriority entries)))
  end.

Definition isRelayCandidate (pid : bytes) : D bool :=
  candidates ← onStore relayCandidates;
  mret (existsb (fun c => bytes_eqb (infoID c) pid) candidates).

(** * Addresses *)

(** The circuit addresses through one relay that parse. *)
Fixpoint relayCircuits (relayID targetID : bytes) (addrs : list bytes) : gores (list bytes) :=
  match addrs with
  | [] => Ret []
  | relayAddr :: addrs' =>
    rest ← relayCircuits relayID targetID addrs';
    match NewMultiaddr (relayAddr ++ bs "/p2p/" ++ relayID ++ bs "/p2p-circuit/p2p/" ++ targetID) with
    | Panic => Panic
    | Fail _ => Ret rest
    | Ret circuit => Ret (circuit :: rest)
    end
  end.

Fixpoint circuitsThrough (targetID : bytes) (candidates : list AddrInfo) : gores (list bytes) :=
  match candidates with
  | [] => Ret []
  | relay :: candidates' =>
    here ← relayCircuits (infoID relay) targetID (infoAddrs relay);
    rest ← circuitsThrough targetID candidates';
    Ret (here ++ rest)
  end.

Definition resolveDialAddr (addr : bytes) : D AddrInfo :=
  if IsMultiaddr addr then liftD (addrInfo addr) else
  match ResolveAddress addr with
  | Panic => liftD Panic
  | Ret resolved => liftD (addrInfo resolved)
  | Fail _ =>
    targetID ← liftD (wrap_err "%q is neither a multiaddr, a peer id created on this machine, nor a valid peer id: %w" (peer_Decode addr));
    candidates ← onStore relayCandidates;
    match candidates with
    | [] => fail "%q is not a peer id created on this machine, and this node has no relay candidates to try reaching it through"
    | _ =>
      addrs ← liftD (circuitsThrough targetID candidates);
      match addrs with
      | [] => fail "%q is not a peer id created on this machine, and no usable relay-circuit address could be built for it"
      | _ => mret (mkAddrInfo targetID addrs)
      end
    end
  end.

(** * Dialling *)

Definition connectRetryAttempts : nat := 3.
Definition connectRetryReservationAttempts : nat := 11.

Definition ECONNRESET : error := Errorf "connection reset by peer".

Definition isRetriableRelayCircuitError (err : error) : bool :=
  contains (bs "NO_RESERVATION") (Error err) || contains (bs "CONNECTION_FAILED") (Error err).

Definition isRetriableDialResetError (err : error) : bool := errors_is err ECONNRESET.

(** [h.Connect]; a dial backoff is cleared first. *)
Definition hostConnect : D connect_reply :=
  sched ← getIo connects;
  _ ← modifyIo (set_connects (tail sched));
  mret (match sched with [] => NotConnected (Errorf "connect") true | r :: _ => r end).

(** [attempts] attempts, with a pause in between that the caller's context can end. *)
Fixpoint dialAttempts (attempts : nat) : D unit :=
  match attempts with
  | O => mret tt
  | S rest =>
    r ← hostConnect;
    match r with
    | Connected => mret tt
    | NotConnected err cancelled =>
      match rest with
      | O => liftD (Fail err)
      | _ => if (cancelled : bool) then fail "context canceled" else dialAttempts rest
      end
    end
  end.

Definition connectWithRetry : D unit :=
  r ← tryD (dialAttempts connectRetryAttempts);
  match r with
  | inl _ => mret tt
  | inr lastErr =>
    if isRetriableRelayCircuitError lastErr || isRetriableDialResetError lastErr
    then dialAttempts connectRetryReservationAttempts else liftD (Fail lastErr)
  end.

(** * Reachability *)

Definition circuitAddr (addr : bytes) : bool := contains (bs "/p2p-circuit") addr.

(** One element of the schedule per call, one element of that per poll before the
    deadline. *)
Definition awaitRelayAddr : D bool :=
  candidates ← onStore relayCandidates;
  match candidates with
  | [] => mret true
  | _ =>
    sched ← getIo hostAddrs;
    _ ← modifyIo (fun x => set_host (tail sched) (confirmedAddrs x) x);
    mret (existsb (existsb circuitAddr) (default [] (head sched)))
  end.

(** Public addresses first, then those through a relay, loopback last. *)
Definition scoreAddr (addr : bytes) : Z :=
  if IsPublicAddr addr then 0
  else if circuitAddr addr then 1
  else if IsIPLoopback addr then 3
  else 2.

(** [sort.SliceStable] by score *)
Definition byScore (addrs : list bytes) : list bytes :=
  concat (map (fun s => List.filter (fun a => scoreAddr a =? s) addrs) [0; 1; 2; 3]).

Definition advertisedAddrs : D (list bytes) :=
  now ← gets nnow;
  mret (map (fun a => a ++ bs "/p2p/" ++ peerID) (byScore (HostAddrs now))).

(** [n.advertisedAddrs()[0]] *)
Definition firstAdvertised : D bytes :=
  addrs ← advertisedAddrs;
  match addrs with
  | [] => liftD Panic
  | addr :: _ => mret addr
  end.

(** Whether the next [NewStream] opens a stream *)
Definition dialOpens (sched : list net_reply) : bool :=
  match sched with [] | DialFailed :: _ => false | _ => true end.

(** [n.advertisedAddrs()[0]] where the code reads it with the stream open *)
Definition firstAdvertisedOnStream : D bytes :=
  net ← gets nnet;
  if dialOpens net then firstAdvertised else mret [].

Definition hasPublicAddr (addrs : list bytes) : bool := existsb IsPublicAddr addrs.

Definition hasConfirmedReachableAddr : D bool :=
  sched ← getIo confirmedAddrs;
  _ ← modifyIo (fun x => set_host (hostAddrs x) (tail sched) x);
  mret (default false (head sched)).
End Dial.

(** * What these do to a node *)

Section DialEffects.
Context `{Env} (P : call -> Prop).

Lemma readonly_relayCandidates : ReadOnly relayCandidates.
Proof. unfold relayCandidates. readonly. Qed.

Lemma emits_relayCandidates : Emits P (onStore relayCandidates).
Proof. apply emits_store, readonly_relayCandidates. Qed.

Lemma emits_resolveDialAddr addr : Emits P (resolveDialAddr addr).
Proof. unfold resolveDialAddr. emits; apply emits_relayCandidates. Qed.

Lemma emits_dialAttempts attempts : Emits P (dialAttempts attempts).
Proof.
  induction attempts as [|rest IH]; cbn [dialAttempts]; unfold hostConnect; emits. by apply emits_modifyIo.
Qed.

Lemma emits_connectWithRetry : Emits P connectWithRetry.
Proof. unfold connectWithRetry. emits; apply emits_dialAttempts. Qed.

Lemma emits_isRelayCandidate pid : Emits P (isRelayCandidate pid).
Proof. unfold isRelayCandidate. emits. apply emits_relayCandidates. Qed.

Lemma emits_awaitRelayAddr : Emits P awaitRelayAddr.
Proof. unfold awaitRelayAddr. emits; [apply emits_relayCandidates|by apply emits_modifyIo]. Qed.

Lemma emits_firstAdvertised : Emits P firstAdvertised.
Proof. unfold firstAdvertised, advertisedAddrs. emits. Qed.

Lemma emits_firstAdvertisedOnStream : Emits P firstAdvertisedOnStream.
Proof. unfold firstAdvertisedOnStream. emits. apply emits_firstAdvertised. Qed.

Lemma emits_hasConfirmed : Emits P hasConfirmedReachableAddr.
Proof. unfold hasConfirmedReachableAddr. emits. by apply emits_modifyIo. Qed.
End DialEffects.

#[export] Hint Resolve emits_resolveDialAddr emits_connectWithRetry emits_isRelayCandidate emits_awaitRelayAddr
  emits_firstAdvertised emits_firstAdvertisedOnStream
  emits_hasConfirmed : daemon.

(** * Lemmas *)

Section Advertised.
Context `{Env}.

Lemma byScore_perm addrs : byScore addrs ≡ₚ addrs.
Proof.
  induction addrs as [|a addrs IH]; [done|]. unfold byScore in *. cbn [map concat List.filter] in *. rewrite !app_nil_r in *.
  assert (scoreAddr a = 0 \/ scoreAddr a = 1 \/ scoreAddr a = 2 \/ scoreAddr a = 3) as Hs by (unfold scoreAddr; repeat case_match; auto).
  destruct Hs as [-> | [-> | [-> | ->]]]; cbn;
    (transitivity (a :: addrs); [|done]; rewrite <- ?Permutation_middle; by rewrite IH).
Qed.

(** An address is advertised whenever the host has one. *)
Lemma firstAdvertised_run n : HostAddrs (nnow n) <> [] -> exists addr, firstAdvertised n = (n, Ret addr).
Proof.
  intros Hh. unfold firstAdvertised, advertisedAddrs, mbind, D_bind, gets, mret, D_ret.
  destruct (byScore (HostAddrs (nnow n))) as [|a l] eqn:E; [|by eexists].
  pose proof (byScore_perm (HostAddrs (nnow n))) as Hp. rewrite E in Hp. by apply Permutation_nil_l in Hp.
Qed.
End Advertised.

Section Retries.
Context `{Env}.

Lemma dialAttempts_run rest n :
  dialAttempts (S rest) n =
  (let n' := set_io (set_connects (tail (connects (nio n))) (nio n)) n in
   match connects (nio n) with
   | [] => (n', Fail (match rest with O => Errorf "connect" | _ => Errorf "context canceled" end))
   | Connected :: _ => (n', Ret tt)
   | NotConnected err cancelled :: _ =>
     match rest with
     | O => (n', Fail err)
     | S _ => if cancelled then (n', Fail (Errorf "context canceled")) else dialAttempts rest n'
     end
   end).
Proof.
  cbn [dialAttempts]. unfold hostConnect, mbind, D_bind, getIo, gets, modifyIo, modify. cbv beta iota.
  destruct (connects (nio n)) as [|[|err []] ?], rest; reflexivity.
Qed.

(** A dial uses at most its attempts, succeeds only on a connection, and is never
    given up while attempts remain and the caller still waits. *)
Lemma dialAttempts_spec attempts n : (0 < attempts)%nat ->
  exists k, (1 <= k <= attempts)%nat /\ connects (nio (dialAttempts attempts n).1) = drop k (connects (nio n)) /\
  match (dialAttempts attempts n).2 with
  | Ret _ => exists j, (j < k)%nat /\ connects (nio n) !! j = Some Connected
  | Fail _ => k = attempts \/ connects (nio n) !! pred k = None \/ exists e, connects (nio n) !! pred k = Some (NotConnected e true)
  | Panic => False
  end.
Proof.
  revert n. induction attempts as [|rest IH]; intros n Hpos; [lia|]. rewrite dialAttempts_run. cbv zeta.
  destruct (connects (nio n)) as [|[|err cancelled] sched] eqn:Es; cbn [tail].
  - exists 1%nat. split; [lia|]. cbn. auto.
  - exists 1%nat. split; [lia|]. split; [done|]. exists 0%nat. auto with lia.
  - destruct rest as [|rest]; [exists 1%nat; split; [lia|]; cbn; auto|].
    destruct cancelled; [exists 1%nat; split; [lia|]; cbn; eauto|].
    destruct (IH (set_io (set_connects sched (nio n)) n)) as (k & Hk & Hc & Hr); [lia|]. exists (S k).
    destruct (dialAttempts (S rest) _) as [n' [u|e|]]; cbn in Hc, Hr |- *; (split; [lia|]); (split; [done|]); [..|done].
    + destruct Hr as (j & Hj & E). exists (S j). auto with lia.
    + destruct k as [|k]; [lia|]. destruct Hr as [<-|Hr]; auto.
Qed.

(** The first connection wins, unless the caller gave up before. *)
Lemma dialAttempts_connects attempts n j :
  (j < attempts)%nat -> connects (nio n) !! j = Some Connected ->
  (forall i, (i < j)%nat -> exists e, connects (nio n) !! i = Some (NotConnected e false)) ->
  (dialAttempts attempts n).2 = Ret tt.
Proof.
  revert n j. induction attempts as [|rest IH]; intros n j Hj Hc Hb; [lia|]. rewrite dialAttempts_run. cbv zeta.
  destruct (connects (nio n)) as [|r sched] eqn:Es; [done|]. destruct j as [|j]; [by injection Hc as ->|].
  destruct (Hb 0%nat) as [e E0]; [lia|]. injection E0 as ->. destruct rest as [|rest]; [lia|]. apply (IH _ j); [lia|done|].
  intros i Hi. apply (Hb (S i)). lia.
Qed.
End Retries.

(** * Theorem *)

(** C40 Dialling is bounded and persistent: connecting uses between one and fourteen
    attempts, more than three only when the first round ended with one of the
    transient errors; it succeeds only if one of its attempts connected, and does
    succeed whenever one of the first three connects and the caller has not given
    up before. *)
Theorem connect_retry_bounded `{Env} (n : node) :
  exists k, (1 <= k <= 14)%nat /\ connects (nio (connectWithRetry n).1) = drop k (connects (nio n)) /\
  ((3 < k)%nat -> exists e, (dialAttempts 3 n).2 = Fail e /\
     (isRetriableRelayCircuitError e = true \/ isRetriableDialResetError e = true)) /\
  ((connectWithRetry n).2 = Ret tt -> exists j, (j < k)%nat /\ connects (nio n) !! j = Some Connected) /\
  no_panic (connectWithRetry n).2 /\
  (forall j, (j < 3)%nat -> connects (nio n) !! j = Some Connected ->
     (forall i, (i < j)%nat -> exists e, connects (nio n) !! i = Some (NotConnected e false)) ->
     (connectWithRetry n).2 = Ret tt).
Proof.
  unfold connectWithRetry, mbind, D_bind, tryD, connectRetryAttempts, connectRetryReservationAttempts.
  destruct (dialAttempts_spec 3 n) as (k & Hk & Hc & Hr); [lia|].
  pose proof (fun j => dialAttempts_connects 3 n j) as Hlive.
  destruct (dialAttempts 3 n) as [n' [[]|e|]]; cbn [fst snd] in *; [..|done].
  - exists k. split_and!; [lia..|done|lia|done|done|done].
  - destruct (isRetriableRelayCircuitError e || isRetriableDialResetError e) eqn:Er.
    + destruct (dialAttempts_spec 11 n') as (k' & Hk' & Hc' & Hr'); [lia|]. exists (k + k')%nat.
      rewrite Hc', Hc, drop_drop. split_and!; [lia..|done| | | |].
      * intros _. exists e. split; [done|]. by apply orb_true_iff.
      * intros E. rewrite E in Hr'. destruct Hr' as (j & Hj & Ej). rewrite Hc, lookup_drop in Ej. exists (k + j)%nat. auto with lia.
      * by destruct (dialAttempts 11 n').2.
      * intros j Hj Ej Hb. by specialize (Hlive j Hj Ej Hb).
    + exists k. split_and!; [lia..|done|lia|done|done|]. intros j Hj Ej Hb. by specialize (Hlive j Hj Ej Hb).
Qed.
