(* ===== verification/Join.v ===== *)
(** Joining a cluster (src/pkg/daemon/daemon.go): invite tokens in addresses,
    the line-based join protocol and its leader side, one-time join invites,
    join-request tickets and recruiting, bootstrapping, and adding learners. *)

From S2P Require Import Prelude Store StoreLogic SystemKeys Payloads LogRecord Txn Hex Fsm Events Stream Quota Session Node Acl Forward Dial.
#[local] Open Scope Z_scope.

Definition JoinProtocolID : bytes := bs "/libp2p-kv-raft/join/1.0.0".
Definition RecruitProtocolID : bytes := bs "/libp2p-kv-raft/recruit/1.0.0".

(** * Lines *)

Definition newline : byte := Byte.x0a.
Definition space : byte := Byte.x20.

(** The bytes before the first newline, if there is one. *)
Fixpoint cut_newline (s : bytes) : option bytes :=
  match s with
  | [] => None
  | c :: s' => if byte_eqb c newline then Some [] else (fun l => c :: l) <$> cut_newline s'
  end.

Definition dropCR (l : bytes) : bytes :=
  match reverse l with c :: r => if byte_eqb c Byte.x0d then reverse r else l | [] => l end.

(** [bufio.NewScanner(s)] and its first [Scan]: [None] at the end of input, an
    error for a line that does not fit the 64 KiB buffer. *)
Definition scanLine (s : bytes) : gores (option bytes) :=
  match cut_newline s with
  | Some l => if blen l <? 65536 then Ret (Some (dropCR l)) else Fail (Errorf "bufio.Scanner: token too long")
  | None =>
    if blen s =? 0 then Ret None
    else if blen s <? 65536 then Ret (Some (dropCR s)) else Fail (Errorf "bufio.Scanner: token too long")
  end.

(** * Invite tokens in addresses *)

(** [strings.IndexByte(s, '#')] with the text on both sides. *)
Fixpoint cut_hash (s : bytes) : option (bytes * bytes) :=
  match s with
  | [] => None
  | c :: s' =>
    if byte_eqb c Byte.x23 then Some ([], s')
    else match cut_hash s' with Some (a, b) => Some (c :: a, b) | None => None end
  end.

Definition splitInviteToken (addr : bytes) : gores (bytes * bytes) :=
  match cut_hash addr with
  | None => Ret (addr, [])
  | Some (clean, hex) =>
    token ← wrap_err "invalid invite token in %q: %w" (hex_decode hex);
    Ret (clean, token)
  end.

(** [strings.CutSuffix(s, " learner")] *)
Definition cut_suffix (suffix s : bytes) : option bytes :=
  match cut_prefix (reverse suffix) (reverse s) with
  | Some r => Some (reverse r)
  | None => None
  end.

(** * The join request line *)

Definition suffrageWord (s : ServerSuffrage) : bytes := match s with Nonvoter => bs "learner" | _ => bs "voter" end.

(** The line [join] and [forwardJoin] send. *)
Definition joinLine (peer addr : bytes) (suffrage : ServerSuffrage) (inviteToken : bytes) : bytes :=
  peer ++ [space] ++ addr ++ [space] ++ suffrageWord suffrage ++
  (if 0 <? blen inviteToken then [space] ++ hex_encode inviteToken else []) ++ [newline].

Record joinRequest : Type := mkJoinRequest {
  joinPeer : bytes;
  joinAddr : bytes;
  joinSuffrage : ServerSuffrage;
  joinToken : bytes;
}.

Definition parseSuffrage (word : bytes) : gores ServerSuffrage :=
  if bytes_eqb word (bs "voter") then Ret Voter
  else if bytes_eqb word (bs "learner") then Ret Nonvoter
  else Fail (Errorf "unknown suffrage %q").

Definition joinFields (peer addr word tokenHex : bytes) : gores joinRequest :=
  suffrage ← parseSuffrage word;
  token ← (if bytes_eqb tokenHex [] then Ret [] else wrap_err "invalid invite token %q: %w" (hex_decode tokenHex));
  Ret (mkJoinRequest peer addr suffrage token).

(** [input] is what the stream delivers. *)
Definition parseJoinRequest (input : bytes) : gores joinRequest :=
  line ← scanLine input;
  match line with
  | None => Fail (Errorf "empty join request")
  | Some line =>
    match Fields line with
    | [peer; addr] => joinFields peer addr (bs "voter") []
    | [peer; addr; word] => joinFields peer addr word []
    | [peer; addr; word; tokenHex] => joinFields peer addr word tokenHex
    | _ => Fail (Errorf "expected <peer-id> <multiaddr> [voter|learner] [inviteToken], got %q")
    end
  end.

(** * Join-request tickets *)

Definition setJoinRequestToken (token : bytes) : D unit := modify (set_token token).

Definition cancelJoinRequestToken (token : bytes) : D unit :=
  pending ← gets njoinToken;
  if bytes_eqb pending token then modify (set_token []) else mret tt.

Definition consumeJoinRequestToken (token : bytes) : D bool :=
  pending ← gets njoinToken;
  _ ← modify (set_token []);
  mret ((0 <? blen pending) && bytes_eqb pending token).

(** [initRaft]: the raft instance, made by the library on first use. *)
Definition initRaft : D unit := fun n =>
  match nraft n with
  | Some _ => (n, Ret tt)
  | None =>
    match ninits n with
    | Some rf :: rest => (set_raft (Some rf) (nviews n) rest n, Ret tt)
    | _ => (set_raft None (nviews n) (tail (ninits n)) n, Fail (Errorf "daemon: create raft node: %w"))
    end
  end.

Section Join.
Context `{Env}.

(** * The leader's side *)

Definition consumeJoinInvite (token : bytes) : D ServerSuffrage :=
  '(res, _) ← wrapD "invite: %w" (raftApply (EncodeCommand OpConsumeInvite (JoinInviteKey token) []));
  match res with
  | inr err => liftD (Fail (Wrapf "invalid or already-used invite: %w" err))
  | inl value =>
    sf ← liftD (wrap_err "invite: %w" (DecodeJoinInviteRecord value));
    mret (if byte_eqb sf SuffrageLearner then Nonvoter else Voter)
  end.

Definition lodgeJoinRequest (peer addr : bytes) (suffrage : ServerSuffrage) : D bytes :=
  let sf := match suffrage with Nonvoter => SuffrageLearner | _ => SuffrageVoter end in
  r ← tryD (handleSetForward (SystemKey KindClusterJoin StatusPending peer) (json_join addr sf) true);
  mret (match r with inr err => ERR ++ Error err | inl _ => bs "PENDING" end).

Definition admitOrLodgeJoin (req : joinRequest) : D bytes :=
  if 0 <? blen (joinToken req) then
    granted ← tryD (consumeJoinInvite (joinToken req));
    match granted with
    | inr err => mret (ERR ++ Error err)
    | inl suffrage => addServerLine (joinPeer req) (joinAddr req) suffrage
    end
  else if negb RequireConfirmForJoin then addServerLine (joinPeer req) (joinAddr req) (joinSuffrage req)
  else lodgeJoinRequest (joinPeer req) (joinAddr req) (joinSuffrage req).

(** The answer line of a stream handler, newline included. *)
Definition answerln (line : bytes) : bytes := line ++ [newline].

Definition forwardJoin (leaderID peer addr : bytes) (suffrage : ServerSuffrage) (inviteToken : bytes) : D bytes :=
  r ← wrapD "open forward-join stream to leader %s: %w"
        (dialForward leaderID ForwardJoinProtocolID (joinLine peer addr suffrage inviteToken));
  match r with
  | DialFailed => fail "open forward-join stream to leader %s: %w"
  | WriteFailed => fail "write to leader %s: %w"
  | CloseFailed => fail "close write to leader %s: %w"
  | ReadFailed => fail "read response from leader %s: %w"
  | Reply resp _ =>
    line ← liftD (wrap_err "read response from leader %s: %w" (scanLine resp));
    match line with
    | None => fail "no response from leader %s"
    | Some line => mret line
    end
  end.

Definition knownLeader (rf : option Raft) : bytes := match rf with Some rf => LeaderID rf | None => [] end.

Definition handleJoinStream (input : bytes) : D bytes :=
  match parseJoinRequest input with
  | Panic => liftD Panic
  | Fail err => mret (answerln (ERR ++ Error (Wrapf "malformed join request: %v" err)))
  | Ret req =>
    rf ← gets nraft;
    if leads rf then line ← admitOrLodgeJoin req; mret (answerln line) else
    let leaderID := knownLeader rf in
    if bytes_eqb leaderID [] then mret (answerln (bs "ERR: not leader")) else
    r ← tryD (forwardJoin leaderID (joinPeer req) (joinAddr req) (joinSuffrage req) (joinToken req));
    mret (answerln (match r with
                    | inl line => line
                    | inr err => ERR ++ Error (Wrapf "forward join: %v" err)
                    end))
  end.

Definition handleForwardJoinStream (input : bytes) : D bytes :=
  match parseJoinRequest input with
  | Panic => liftD Panic
  | Fail err => mret (answerln (ERR ++ Error (Wrapf "malformed join request: %v" err)))
  | Ret req =>
    rf ← gets nraft;
    if negb (leads rf) then mret (answerln (ERR ++ notLeaderAnswer)) else
    line ← admitOrLodgeJoin req;
    mret (answerln line)
  end.

(** * The joining side *)

Definition join (leaderAddr : bytes) (suffrage : ServerSuffrage) (inviteToken : bytes) : D bytes :=
  _ ← awaitRelayAddr;
  info ← liftD (addrInfo leaderAddr);
  _ ← wrapD "connect to leader %s: %w" connectWithRetry;
  selfAddr ← firstAdvertisedOnStream;
  r ← exchange JoinProtocolID (infoID info) (joinLine peerID selfAddr suffrage inviteToken);
  match r with
  | DialFailed => fail "open join stream to leader %s: %w"
  | WriteFailed => fail "send join request: %w"
  | CloseFailed => fail "close join request: %w"
  | ReadFailed => fail "read join response: %w"
  | Reply resp _ =>
    line ← liftD (wrap_err "read join response: %w" (scanLine resp));
    match line with
    | None => fail "no response from leader %s"
    | Some line =>
      if bytes_eqb line (bs "OK") then mret (bs "ok")
      else if bytes_eqb line (bs "PENDING") then mret (bs "pending")
      else fail "leader rejected join: %s"
    end
  end.

Definition resolveAddr (addr : bytes) : gores bytes := if IsMultiaddr addr then Ret addr else ResolveAddress addr.

Definition handleAdd (leaderPeerID : bytes) : D bytes :=
  _ ← wrapD "init raft: %w" initRaft;
  let '(leaderPeerID, suffrage) :=
    match cut_suffix (bs " learner") leaderPeerID with
    | Some rest => (rest, Nonvoter)
    | None => (leaderPeerID, Voter)
    end in
  if bytes_eqb leaderPeerID [] then
    selfAddr ← firstAdvertised;
    _ ← wrapD "bootstrap: %w" (changeConfig (BootstrapCluster peerID selfAddr));
    _ ← wrapD "await self-election: %w" awaitLeader;
    _ ← wrapD "bootstrap reserved groups: %w" ensureReservedGroups;
    _ ← wrapD "bootstrap default public command: %w" ensureDefaultPublicCommand;
    mret peerID
  else
    '(leaderPeerID, inviteToken) ← liftD (splitInviteToken leaderPeerID);
    leaderAddr ← liftD (resolveAddr leaderPeerID);
    status ← wrapD "join: %w" (join leaderAddr suffrage inviteToken);
    mret (peerID ++ [space] ++ status).

(** * Learners *)

Definition handleAddLearner (peer addr : bytes) : D bytes :=
  if bytes_eqb peer [] || bytes_eqb addr [] then fail "client add: missing peer id or multiaddr" else
  rf ← gets nraft;
  if leads rf then
    line ← addServerLine peer addr Nonvoter;
    match cut_prefix ERR line with
    | Some _ => fail "%s"
    | None => mret peerID
    end
  else
    let leaderID := knownLeader rf in
    if bytes_eqb leaderID [] then fail "client add: not leader and no leader known" else
    line ← wrapD "client add: forward: %w" (forwardJoin leaderID peer addr Nonvoter []);
    match cut_prefix ERR line with
    | Some _ => fail "%s"
    | None => mret peerID
    end.

Definition handleAddDispatch (claimedPeerId : Z) (addr : field) (remote : bytes) : D bytes :=
  reg ← gets nregistry;
  match Lookup claimedPeerId reg with
  | None => fail "no peer id registered under id %d -- send SetKey first"
  | Some joinPeerID =>
    if negb (bytes_eqb remote []) && negb (bytes_eqb joinPeerID remote)
    then fail "add: claimed peer id %q does not match the authenticated connection identity %s" else
    addr ← liftD (rd addr);
    handleAddLearner joinPeerID addr
  end.

(** * Recruiting *)

Definition mintJoinInvite (suffrage : byte) : D bytes :=
  token ← wrapD "generate invite token: %w" randomBytes;
  _ ← handleConfirmForward OpSet (JoinInviteKey token) (EncodeJoinInviteRecord suffrage) true;
  mret token.

Definition recruitLine (selfAddr inviteToken correlationToken : bytes) : bytes :=
  selfAddr ++ [space] ++ hex_encode inviteToken ++ [space] ++ hex_encode correlationToken ++ [newline].

Definition dialAndPushRecruit (ticket : bytes) (suffrage : byte) : D bytes :=
  '(deviceAddr, correlationToken) ← liftD (splitInviteToken ticket);
  if blen correlationToken =? 0 then fail "recruit: ticket %q missing a correlation token" else
  if bytes_eqb deviceAddr [] then fail "recruit: ticket %q has no device address" else
  inviteToken ← wrapD "recruit: mint join invite: %w" (mintJoinInvite suffrage);
  addr ← liftD (wrap_err "recruit: resolve ticket address %q: %w" (resolveAddr deviceAddr));
  info ← liftD (addrInfo addr);
  _ ← wrapD "connect to %s: %w" connectWithRetry;
  selfAddr ← firstAdvertisedOnStream;
  r ← exchange RecruitProtocolID (infoID info) (recruitLine selfAddr inviteToken correlationToken);
  match r with
  | DialFailed => fail "open recruit stream to %s: %w"
  | WriteFailed => fail "recruit: write to %s: %w"
  | CloseFailed => fail "recruit: close write to %s: %w"
  | ReadFailed => fail "recruit: read response from %s: %w"
  | Reply resp _ =>
    line ← liftD (wrap_err "recruit: read response from %s: %w" (scanLine resp));
    match line with
    | None => fail "no response from %s"
    | Some line =>
      match cut_prefix (bs "OK ") line with
      | Some rest => mret rest
      | None => fail "recruit rejected: %s"
      end
    end
  end.

(** The recruited device; [recordRecruitedMembership] afterwards only updates
    the machine's registry file. *)
Definition handleRecruitStream (input : bytes) : D bytes :=
  match scanLine input with
  | Panic => liftD Panic
  | Fail _ | Ret None => mret (answerln (bs "ERR: no request line"))
  | Ret (Some line) =>
    match Fields line with
    | [leaderAddr; inviteTokenHex; correlationHex] =>
      match hex_decode correlationHex with
      | Panic => liftD Panic
      | Fail _ => mret (answerln (bs "ERR: invalid correlation token"))
      | Ret correlationToken =>
        known ← consumeJoinRequestToken correlationToken;
        if negb (known : bool) then mret (answerln (bs "ERR: unknown or already-used join request ticket")) else
        r ← tryD (handleAdd (leaderAddr ++ [Byte.x23] ++ inviteTokenHex));
        mret (answerln (match r with inl result => bs "OK " ++ result | inr err => ERR ++ Error err end))
      end
    | _ => mret (answerln (bs "ERR: malformed request"))
    end
  end.
End Join.
