(* ===== verification/Execute.v ===== *)
(** Notifications between members (src/pkg/daemon/execute.go) and one-time
    command invites (src/pkg/daemon/daemon.go): sending and receiving a signed
    notification, and redeeming an execution invite. *)

From S2P Require Import Prelude Store StoreLogic SystemKeys Payloads LogRecord Txn Hex Fsm Events Stream Quota Session Node Acl Forward Dial Join.
#[local] Open Scope Z_scope.

Definition ExecuteProtocolID : bytes := bs "/libp2p-kv-raft/execute/1.0.0".
Definition ExecInviteRedeemProtocolID : bytes := bs "/libp2p-kv-raft/exec-invite-redeem/1.0.0".
Definition ForwardExecInviteRedeemProtocolID : bytes := bs "/libp2p-kv-raft/forward-exec-invite-redeem/1.0.0".

Section Execute.
Context `{Env}.

(** * Sending *)

(** The stream is opened before the message is built; nothing is written on it
    unless the message is. *)
Definition sendExecute (dest value : bytes) : D unit :=
  notif ← liftD (wrap_err "execute: build notification: %w" (NewExecuteNotification peerID value));
  buf ← liftD (wrap_err "execute: encode message: %w" (Encode Canonicalize ed25519_sign Marshal notif (Some ed25519Priv)));
  r ← exchange ExecuteProtocolID dest buf;
  match r with
  | DialFailed => fail "execute: open stream to %s: %w"
  | WriteFailed => fail "execute: write to %s: %w"
  | CloseFailed => fail "execute: close write to %s: %w"
  | ReadFailed => fail "execute: read response from %s: %w"
  | Reply respBuf _ => if 0 <? blen respBuf then fail "execute: %s" else mret tt
  end.

Definition dispatchExecute (sourceId destinationId : Z) (value : field) : D unit :=
  reg ← gets nregistry;
  match Lookup sourceId reg with
  | None => fail "execute: no peer id registered under source id %d -- send SetKey first"
  | Some senderKey =>
    if negb (bytes_eqb senderKey peerID) then fail "execute: source %q is not this node's own peer id (%s)" else
    match Lookup destinationId reg with
    | None => fail "execute: no peer id registered under destination id %d -- send SetKey first"
    | Some destKey =>
      dest ← liftD (wrap_err "execute: invalid destination peer id %q: %w" (peer_Decode destKey));
      value ← liftD (wrap_err "execute: value: %w" (rd value));
      sendExecute dest value
    end
  end.

(** * Receiving *)

(** Every failure is answered by its text. *)
Definition receiveExecute (buf : gores bytes) : D unit :=
  buf ← liftD (wrap_err "execute: read: %v" buf);
  '(m, crc, sig) ← liftD (wrap_err "execute: decode: %v" (Decode Canonicalize Unmarshal buf));
  match Body m with
  | E_execute _ _ senderPeerId value =>
    sender ← liftD (wrap_err "execute: sender peer id: %v" (rd senderPeerId));
    value ← liftD (wrap_err "execute: value: %v" (rd value));
    senderPeer ← liftD (wrap_err "execute: invalid sender peer id %q: %v" (peer_Decode sender));
    pub ← liftD (wrap_err "execute: extract sender public key: %v" (peer_PublicKey senderPeer));
    _ ← liftD (wrap_err "execute: %v" (Verify Canonicalize ed25519_verify pub m crc sig));
    member ← onStore (isInGroupSt senderPeer ReservedGroupCluster);
    if negb member then fail "execute: %s is not a current cluster member" else
    inboxPush (mkNotification sender value)
  | _ => fail "execute: expected execute, got %s"
  end.

Definition handleExecuteStream (buf : gores bytes) : D bytes := answerError (receiveExecute buf).

(** * Redeeming an execution invite *)

Definition execInviteCommandRequestLogKind (commandID : bytes) : bytes := bs "cmdreq:" ++ commandID.
Definition execInviteCommandExecIndexKind (peer : bytes) : bytes := bs "cmdexec:" ++ peer.
Definition execInviteIndexRoleRequester : bytes := bs "r".
Definition execInviteIndexRoleTarget : bytes := bs "t".

Definition newExecInviteInstanceID : D bytes :=
  b ← wrapD "exec invite: generate instance id: %w" randomBytes;
  mret (hex_encode b).

Definition appendExecInviteLogRecord (kind unitID author : bytes) (fields : list (bytes * bytes)) (narrative : bytes)
  : D unit :=
  rnd ← randomBytes;
  ts ← gets nnow;
  key ← liftD (BuildKey kind unitID ts rnd);
  value ← liftD (json_record (mkRecord kind unitID ts author fields narrative));
  applySet key value.

Definition writeExecInviteCommandRequest (instanceID commandID inputsJSON redeemer target : bytes) : D unit :=
  let fields := (bs "command_id", commandID) :: (if bytes_eqb inputsJSON [] then [] else [(bs "inputs", inputsJSON)]) in
  let index role := [(bs "command_id", commandID); (bs "role", role)] in
  _ ← wrapD "exec invite: write command request: %w"
        (appendExecInviteLogRecord (execInviteCommandRequestLogKind commandID) instanceID redeemer fields []);
  _ ← wrapD "exec invite: write requester index: %w"
        (appendExecInviteLogRecord (execInviteCommandExecIndexKind redeemer) instanceID redeemer
           (index execInviteIndexRoleRequester) []);
  if bytes_eqb target redeemer then mret tt else
  wrapD "exec invite: write target index: %w"
    (appendExecInviteLogRecord (execInviteCommandExecIndexKind target) instanceID redeemer
       (index execInviteIndexRoleTarget) []).

(** The best-effort poke of the command's target. *)
Definition pokeTarget (target commandID instanceID : bytes) : D unit :=
  match json_poke commandID instanceID with
  | Ret poke =>
    match peer_Decode target with
    | Ret dest => logged (sendExecute dest poke)
    | Fail _ => mret tt
    | Panic => liftD Panic
    end
  | Fail _ => mret tt
  | Panic => liftD Panic
  end.

Definition applyConsumeExecInvite (token redeemer : bytes) : D bytes :=
  '(res, _) ← wrapD "exec invite: %w" (raftApply (EncodeCommand OpConsumeExecInvite (ExecInviteKey token) redeemer));
  match res with
  | inr err => liftD (Fail (Wrapf "invalid, already-used, or unauthorized invite: %w" err))
  | inl value =>
    '(commandID, inputsJSON, _) ← liftD (wrap_err "exec invite: %w" (DecodeExecInviteRecord value));
    instanceID ← newExecInviteInstanceID;
    cmdValue ← wrapD "exec invite: command %s not found: %w" (onStore (get Store (CommandKey commandID)));
    '(_, target) ← liftD (wrap_err "exec invite: decode command %s: %w" (DecodeCommandPayload cmdValue));
    _ ← writeExecInviteCommandRequest instanceID commandID inputsJSON redeemer target;
    _ ← pokeTarget target commandID instanceID;
    mret instanceID
  end.

Definition errExecInviteNotLeader : error := Errorf "exec invite redeem: not leader".

Definition processExecInviteRedeem (buf : bytes) : D bytes :=
  '(m, crc, sig) ← liftD (wrap_err "exec invite redeem: decode: %w" (Decode Canonicalize Unmarshal buf));
  match Body m with
  | E_execInviteRedeem _ token _ redeemerPeerId =>
    redeemerStr ← liftD (wrap_err "exec invite redeem: redeemer peer id: %w" (rd redeemerPeerId));
    token ← liftD (wrap_err "exec invite redeem: token: %w" (rd token));
    redeemer ← liftD (wrap_err "exec invite redeem: invalid redeemer peer id %q: %w" (peer_Decode redeemerStr));
    pub ← liftD (wrap_err "exec invite redeem: extract redeemer public key: %w" (peer_PublicKey redeemer));
    _ ← liftD (wrap_err "exec invite redeem: %w" (Verify Canonicalize ed25519_verify pub m crc sig));
    target ← resolveWriteTarget;
    match target with
    | ForwardTo _ => liftD (Fail errExecInviteNotLeader)
    | IsLeader => applyConsumeExecInvite token redeemer
    end
  | _ => fail "exec invite redeem: expected execInviteRedeem, got %s"
  end.

Definition forwardExecInviteRedeem (buf : bytes) : D bytes :=
  leaderID ← gets (fun n => knownLeader (nraft n));
  if bytes_eqb leaderID [] then fail "not leader and no leader known" else
  r ← wrapD "open forward stream to leader %s: %w" (dialForward leaderID ForwardExecInviteRedeemProtocolID buf);
  match r with
  | DialFailed => fail "open forward stream to leader %s: %w"
  | WriteFailed => fail "write to leader %s: %w"
  | CloseFailed => fail "close write to leader %s: %w"
  | ReadFailed => fail "read response from leader %s: %w"
  | Reply resp _ =>
    line ← liftD (wrap_err "read response from leader %s: %w" (scanLine resp));
    match line with
    | None => fail "no response from leader %s"
    | Some line => mret line
    end
  end.

Definition handleExecInviteRedeemStream (buf : gores bytes) : D bytes :=
  match buf with
  | Panic => liftD Panic
  | Fail err => mret (answerln (ERR ++ Error (Wrapf "exec invite redeem: read: %v" err)))
  | Ret buf =>
    r ← tryD (processExecInviteRedeem buf);
    match r with
    | inl instanceID => mret (answerln (bs "OK " ++ instanceID))
    | inr err =>
      if negb (errors_is err errExecInviteNotLeader) then mret (answerln (ERR ++ Error err)) else
      r ← tryD (forwardExecInviteRedeem buf);
      mret (answerln (match r with
                      | inl line => line
                      | inr err => ERR ++ Error (Wrapf "forward exec invite redeem: %v" err)
                      end))
    end
  end.

Definition handleForwardExecInviteRedeemStream (buf : gores bytes) : D bytes :=
  match buf with
  | Panic => liftD Panic
  | Fail err => mret (answerln (ERR ++ Error (Wrapf "forward exec invite redeem: read: %v" err)))
  | Ret buf =>
    r ← tryD (processExecInviteRedeem buf);
    mret (answerln (match r with
                    | inl instanceID => bs "OK " ++ instanceID
                    | inr err =>
                      if errors_is err errExecInviteNotLeader then ERR ++ notLeaderAnswer else ERR ++ Error err
                    end))
  end.

(** The redeeming device. *)
Definition dialAndRedeemExecInvite (sourceAddr token : bytes) : D bytes :=
  info ← resolveDialAddr sourceAddr;
  _ ← wrapD "connect to %s: %w" connectWithRetry;
  notif ← liftD (wrap_err "exec invite redeem: build notification: %w" (NewExecInviteRedeemNotification peerID token));
  buf ← liftD (wrap_err "exec invite redeem: encode message: %w" (Encode Canonicalize ed25519_sign Marshal notif (Some ed25519Priv)));
  r ← exchange ExecInviteRedeemProtocolID (infoID info) buf;
  match r with
  | DialFailed => fail "open exec invite redeem stream to %s: %w"
  | WriteFailed => fail "exec invite redeem: write to %s: %w"
  | CloseFailed => fail "exec invite redeem: close write to %s: %w"
  | ReadFailed => fail "exec invite redeem: read response from %s: %w"
  | Reply resp _ =>
    line ← liftD (wrap_err "exec invite redeem: read response from %s: %w" (scanLine resp));
    match line with
    | None => fail "no response from %s"
    | Some line =>
      match cut_prefix (bs "OK ") line with
      | Some rest => mret rest
      | None => fail "exec invite redeem rejected: %s"
      end
    end
  end.
End Execute.
