(* ===== verification/Remote.v ===== *)
(** Working with another cluster as a client of it (src/pkg/daemon/daemon.go):
    submitting a command to a node this one is no member with, asking for
    public access, and reading a command's execution log page by page. *)

From S2P Require Import Prelude Store StoreLogic SystemKeys Payloads LogRecord Txn Hex Fsm Events Stream Quota Session Node Acl Forward Dial Join.
#[local] Open Scope Z_scope.

Definition ClientProtocolID : bytes := bs "/libp2p-kv-raft/client/1.0.0".

Section Remote.
Context `{Env}.

(** * Submitting a command *)

Definition newInstanceID : D bytes :=
  raw ← wrapD "dial_submit_command: generate instance id: %w" randomBytes;
  mret (hex_encode raw).

(** The signed log append that carries the request. *)
Definition buildCommandRequest (commandID inputsJSON note instanceID : bytes) : D bytes :=
  rnd ← wrapD "dial_submit_command: %w" randomBytes;
  ts ← gets nnow;
  let kind := CommandRequestLogKind commandID in
  key ← liftD (wrap_err "dial_submit_command: %w" (BuildKey kind instanceID ts rnd));
  let fields := (bs "command_id", commandID) ::
    (if bytes_eqb inputsJSON [] then [] else [(bs "inputs", inputsJSON)]) ++
    (if bytes_eqb note [] then [] else [(bs "note", note)]) in
  value ← liftD (wrap_err "dial_submit_command: encode record: %w"
                   (json_record (mkRecord kind instanceID ts peerID fields [])));
  logMsg ← liftD (wrap_err "dial_submit_command: build message: %w" (NewLogAppend key value));
  liftD (wrap_err "dial_submit_command: encode message: %w"
           (Encode Canonicalize ed25519_sign Marshal logMsg (Some ed25519Priv))).

Definition dialAndSubmitCommand (targetAddr commandID inputsJSON note : bytes) : D bytes :=
  info ← resolveDialAddr targetAddr;
  if bytes_eqb (infoID info) peerID
  then fail "dial_submit_command: %s is this node itself -- a node already has every standing in its own cluster" else
  _ ← wrapD "connect to %s: %w" connectWithRetry;
  instanceID ← newInstanceID;
  buf ← buildCommandRequest commandID inputsJSON note instanceID;
  r ← exchange ClientProtocolID (infoID info) buf;
  match r with
  | DialFailed => fail "open client stream to %s: %w"
  | WriteFailed => fail "dial_submit_command: write to %s: %w"
  | CloseFailed => fail "dial_submit_command: close write to %s: %w"
  | ReadFailed => fail "dial_submit_command: read response from %s: %w"
  | Reply respBuf _ =>
    '(resp, _, _) ← liftD (wrap_err "dial_submit_command: decode response from %s: %w" (Decode Canonicalize Unmarshal respBuf));
    if bool_decide (Which resp = Event_Which_error) then fail "%s rejected by %s: %s" else mret instanceID
  end.

(** Standing at a relay is of use only once a reservation there makes this node
    reachable, so that is waited for -- where it can happen at all. *)
Definition dialAndSubmitPublicAccess (targetAddr note : bytes) : D bytes :=
  info ← resolveDialAddr targetAddr;
  instanceID ← dialAndSubmitCommand targetAddr DefaultPublicCommandID [] note;
  candidate ← isRelayCandidate (infoID info);
  if (candidate : bool) && hasPublicAddr (infoAddrs info) then
    reserved ← awaitRelayAddr;
    if (reserved : bool) then mret instanceID else
    reachable ← hasConfirmedReachableAddr;
    if (reachable : bool) then mret instanceID
    else fail "public_access: %s granted relay standing, but no relay reservation appeared within %s -- this node is still not reachable through it"
  else mret instanceID.

(** * Reading a command's execution log *)

(** [resp.ListRange().Key()] and [.Value()], whatever the tag of the response. *)
Definition respKey (e : Event) : field := match e with E_listRange _ _ key _ => key | _ => ptrData e 3 end.
Definition respValue (e : Event) : field := match e with E_listRange _ _ _ value => value | _ => ptrData e 4 end.

(** One round trip: the first record at or after [lo], with its key, or [None] at the end. *)
Definition queryPage (dest lo hi : bytes) : D (option (bytes * LogRecord)) :=
  queryMsg ← liftD (wrap_err "dial_query_command_log: build query: %w" (NewListRange lo hi));
  buf ← liftD (wrap_err "dial_query_command_log: encode message: %w"
                 (Encode Canonicalize ed25519_sign Marshal queryMsg (Some ed25519Priv)));
  r ← exchange ClientProtocolID dest buf;
  match r with
  | DialFailed => fail "open client stream to %s: %w"
  | WriteFailed => fail "dial_query_command_log: write to %s: %w"
  | CloseFailed => fail "dial_query_command_log: close write to %s: %w"
  | ReadFailed => fail "dial_query_command_log: read response from %s: %w"
  | Reply respBuf _ =>
    '(resp, _, _) ← liftD (wrap_err "dial_query_command_log: decode response from %s: %w" (Decode Canonicalize Unmarshal respBuf));
    if bool_decide (Which resp = Event_Which_error) then fail "dial_query_command_log rejected by %s: %s" else
    key ← liftD (wrap_err "dial_query_command_log: response key: %w" (rd (respKey (Body resp))));
    if bytes_eqb key [] then mret None else
    value ← liftD (wrap_err "dial_query_command_log: response value: %w" (rd (respValue (Body resp))));
    rec ← liftD (wrap_err "dial_query_command_log: decode record: %w" (json_unrecord value));
    mret (Some (key, rec))
  end.

(** [limit] records are enough; a limit of zero or less is none. *)
Definition limitReached (limit : Z) (records : list LogRecord) : bool := (0 <? limit) && (limit <=? blen records).

(** The loop.  Every round trip takes an element of the network's schedule, so
    that one more step than it has elements is never needed. *)
Fixpoint queryPages (fuel : nat) (dest lo hi : bytes) (limit : Z) (records : list LogRecord) : D (list LogRecord) :=
  if limitReached limit records then mret records else
  match fuel with
  | O => fail "open client stream to %s: %w"
  | S fuel' =>
    page ← queryPage dest lo hi;
    match page with
    | None => mret records
    | Some (key, rec) => queryPages fuel' dest (key ++ [Byte.x00]) hi limit (records ++ [rec])
    end
  end.

Definition dialAndQueryCommandLog (targetAddr instanceID : bytes) (since until limit : Z) : D (list LogRecord) :=
  info ← resolveDialAddr targetAddr;
  if bytes_eqb (infoID info) peerID
  then fail "dial_query_command_log: %s is this node itself -- read its command log locally instead" else
  _ ← wrapD "connect to %s: %w" connectWithRetry;
  let '(lo, hi) := ScanBounds CommandExecLogKind instanceID since until in
  replies ← gets nnet;
  queryPages (S (length replies)) (infoID info) lo hi limit [].

(** The response that carries the records. *)
Fixpoint encodeRecords (records : list LogRecord) : gores (list field) :=
  match records with
  | [] => Ret []
  | r :: records' =>
    encoded ← wrap_err "shmevent: new_dial_query_command_log_response: record %d: %w" (json_record r);
    rest ← encodeRecords records';
    Ret (Ok encoded :: rest)
  end.

Definition NewDialQueryCommandLogResponse (records : list LogRecord) : gores Msg :=
  encoded ← encodeRecords records;
  Ret (newMsg (E_dialQueryCommandLog (Ok []) (Ok []) 0 0 0 (Ok encoded))).

(** ... and back. *)
Fixpoint decodeRecords (encoded : list field) : gores (list LogRecord) :=
  match encoded with
  | [] => Ret []
  | raw :: encoded' =>
    raw ← wrap_err "shmevent: dial_query_command_log record %d: %w" (rd raw);
    rec ← wrap_err "shmevent: dial_query_command_log record %d: %w" (json_unrecord raw);
    rest ← decodeRecords encoded';
    Ret (rec :: rest)
  end.

Definition DialQueryCommandLogRecords (records : ptr (list field)) : gores (list LogRecord) :=
  encoded ← wrap_err "shmevent: dial_query_command_log records: %w" (rd records);
  decodeRecords encoded.
End Remote.

(** * What these do to a node *)

Section RemoteEffects.
Context `{Env} (P : call -> Prop).

Lemma emits_queryPage dest lo hi : (forall buf, P (Sent ClientProtocolID dest buf)) -> Emits P (queryPage dest lo hi).
Proof. intros HP. unfold queryPage. emits. Qed.

Lemma emits_queryPages fuel dest lo hi limit records :
  (forall buf, P (Sent ClientProtocolID dest buf)) -> Emits P (queryPages fuel dest lo hi limit records).
Proof.
  intros HP. revert lo records. induction fuel as [|fuel IH]; intros lo records; cbn [queryPages];
    [|pose proof (emits_queryPage dest)]; emits.
Qed.

Lemma emits_dialAndQuery targetAddr instanceID since until limit :
  (forall dest buf, P (Sent ClientProtocolID dest buf)) -> Emits P (dialAndQueryCommandLog targetAddr instanceID since until limit).
Proof. intros HP. unfold dialAndQueryCommandLog. destruct (ScanBounds _ _ _ _). emits. by apply emits_queryPages. Qed.

Lemma emits_dialAndSubmit targetAddr commandID inputs note :
  (forall dest buf, P (Sent ClientProtocolID dest buf)) -> Emits P (dialAndSubmitCommand targetAddr commandID inputs note).
Proof. intros HP. unfold dialAndSubmitCommand, newInstanceID, buildCommandRequest. emits. Qed.

Lemma emits_publicAccess targetAddr note :
  (forall dest buf, P (Sent ClientProtocolID dest buf)) -> Emits P (dialAndSubmitPublicAccess targetAddr note).
Proof. intros HP. unfold dialAndSubmitPublicAccess. emits. by apply emits_dialAndSubmit. Qed.
End RemoteEffects.
