(* ===== verification/Channel.v ===== *)
(** Channels between nodes (src/pkg/daemon/channel.go): the signed handshake on
    both sides, the pumps that move chunks between a stream, its inbox and the
    data plane's rings, the operator's requests, and the relay gate
    (src/pkg/daemon/acl.go).

    A goroutine that reads blocks until its stream or ring has more to offer; the
    model runs it as far as it can go whenever something arrives. *)

From S2P Require Import Prelude Store StoreLogic SystemKeys Payloads LogRecord Txn Hex Fsm Events Stream Quota Session Node Acl Forward Dial Join.
#[local] Open Scope Z_scope.

Definition ChannelProtocolID : bytes := bs "/libp2p-kv-raft/channel/3.0.0".
Definition maxPollChunkSize : Z := 16 * 1024 - 2.

Section Channel.
Context `{Env}.

(** * Quotas *)

Definition quotaAllow (peer ip : bytes) (cost : Z) : D bool :=
  now ← gets nnow;
  q ← getIo channelQuota;
  let '(q', ok) := allow AllowN peer ip cost now q in
  _ ← modifyIo (set_quota q');
  mret ok.

(** [relayACL.allow], on the relay's own tracker. *)
Definition relayAllow (p ip : bytes) (now : Z) (q : quotaTracker) : M (quotaTracker * bool) :=
  authorized ← isAuthorizedForGatedAccessSt peerID p ReservedGroupRelay;
  if (authorized : bool) then mret (allow AllowN p ip 1 now q) else mret (q, false).

(** * Sessions in the table *)

Definition newChannelID : D bytes :=
  buf ← wrapD "channel: generate id: %w" randomBytes;
  mret (hex_encode buf).

Definition onChannels (f : channelTable -> channelTable) : D unit := modifyIo (fun x => set_channels (f (channels x)) x).

Definition reapChannels : D unit := now ← gets nnow; onChannels (reap now).

Definition getSession (channelID : bytes) : D (option channelSession) := getIo (fun x => sessions (channels x) !! channelID).

Definition putSession (channelID : bytes) (s : channelSession) : D unit := onChannels (register channelID s).

(** A method of the session that is in the table under that id. *)
Definition updateSession (channelID : bytes) (f : channelSession -> channelSession) : D unit :=
  onChannels (fun t => mkChannels (alter f channelID (sessions t)) (pendingChannels t)).

(** * Writing *)

Definition writeFrame (now : Z) (buf : bytes) (s : channelSession) : channelSession :=
  let '(stream', res) := writeFramed buf (chStream s) in
  match res with Ret _ => touch now (set_stream stream' s) | _ => set_stream stream' s end.

Definition sessionWrite (channelID : bytes) (s : channelSession) (purpose : byte) (chunk : bytes) : D unit :=
  allowed ← quotaAllow (chPeer s) (remoteIP (chStream s)) (blen chunk);
  if negb (allowed : bool) then fail "channel: quota exceeded for %s" else
  '(crc, sig) ← liftD (wrap_err "channel: sign frame: %w" (SignChannelChunk ed25519_sign ed25519Priv purpose chunk));
  let buf := EncodeChannelFrame purpose crc sig chunk in
  now ← gets nnow;
  _ ← updateSession channelID (writeFrame now buf);
  liftD (writeFramed buf (chStream s)).2.

Definition dispatchChannelSend (channelID : bytes) (purpose : byte) (chunk : bytes) : D unit :=
  if channelMaxChunkSize <? blen chunk then fail "channel: chunk too large: %d bytes (max %d)" else
  sess ← getSession channelID;
  match sess with
  | None => fail "channel: no such channel %q"
  | Some s => sessionWrite channelID s purpose chunk
  end.

(** * Reading *)

(** What one turn of the loop of [pumpChannelReads] makes of a frame: the chunk, or
    the reason to close. *)
Definition openFrame (pub buf : bytes) : gores (byte * bytes) :=
  '(purpose, crc, sig, chunk) ← wrap_err "decode channel frame: %v" (DecodeChannelFrame buf);
  _ ← wrap_err "verify channel frame: %v" (VerifyChannelChunk ed25519_verify pub purpose chunk crc sig);
  if channelMaxChunkSize <? blen chunk then Fail (Errorf "peer sent an oversized channel chunk: %d bytes")
  else Ret (purpose, chunk).

Definition closeSession (reason : option error) (s : channelSession) : channelSession := stop_pump (markClosed reason s).

(** The chunk goes to the inbox and, as far as there is room in time, to the ring. *)
Definition deliver (now : Z) (purpose : byte) (chunk : bytes) (s : channelSession) : channelSession :=
  let s := pushChunk now purpose chunk s in
  set_down (WriteChunk purpose chunk (down s)).1 s.

(** One turn: [None] when it waits, else the session, the quota and whether the
    loop goes on. *)
Definition pumpStep (now : Z) (s : channelSession) (q : quotaTracker) : gores (option (channelSession * quotaTracker * bool)) :=
  match readFramed (incoming (chStream s)) with
  | Blocked => Ret None
  | Broken err => Ret (Some (closeSession (if is_EOF err then None else Some err) s, q, false))
  | Done buf rest =>
    let s := set_stream (set_incoming rest (chStream s)) s in
    match openFrame (chPub s) buf with
    | Panic => Panic
    | Fail err => Ret (Some (closeSession (Some err) s, q, false))
    | Ret (purpose, chunk) =>
      let '(q', ok) := allow AllowN (chPeer s) (remoteIP (chStream s)) (blen chunk) now q in
      if negb ok then Ret (Some (closeSession (Some (Errorf "channel quota exceeded")) s, q', false))
      else Ret (Some (deliver now purpose chunk s, q', true))
    end
  end.

(** A frame takes at least its four bytes of length, so one step more than the
    stream has bytes is never needed. *)
Fixpoint pumpLoop (fuel : nat) (now : Z) (s : channelSession) (q : quotaTracker) : gores (channelSession * quotaTracker) :=
  match fuel with
  | O => Ret (s, q)
  | S fuel' =>
    if negb (pumping s) then Ret (s, q) else
    match pumpStep now s q with
    | Panic => Panic
    | Fail e => Fail e
    | Ret None => Ret (s, q)
    | Ret (Some (s', q', more)) => if (more : bool) then pumpLoop fuel' now s' q' else Ret (s', q')
    end
  end.

Definition pumpFuel (s : channelSession) : nat := S (length (unread (incoming (chStream s)))).

Definition pumped (now : Z) (q : quotaTracker) (s : channelSession) : channelSession :=
  match pumpLoop (pumpFuel s) now s q with Ret (s', _) => s' | _ => s end.

Definition pumpChannelReads (channelID : bytes) : D unit :=
  sess ← getSession channelID;
  match sess with
  | None => mret tt
  | Some s =>
    now ← gets nnow;
    q ← getIo channelQuota;
    '(_, q') ← liftD (pumpLoop (pumpFuel s) now s q);
    _ ← modifyIo (set_quota q');
    updateSession channelID (pumped now q)
  end.

(** Bytes arrive on the stream of a channel, or it ends. *)
Definition arrive (x : bytes) (e : option error) (s : channelSession) : channelSession :=
  let r := incoming (chStream s) in
  let r' := match ended r with
            | Some _ => r
            | None => mkReader (unread r ++ x) e
            end in
  set_stream (set_incoming r' (chStream s)) s.

Definition channelArrive (channelID x : bytes) (e : option error) : D unit :=
  _ ← updateSession channelID (arrive x e);
  pumpChannelReads channelID.

(** * Uploading *)

(** The deferred [close(sess.uploadDrained)] of the goroutine. *)
Definition endUploadOf (channelID : bytes) (k : nat) : D unit :=
  sess ← getSession channelID;
  match sess with
  | None => mret tt
  | Some s =>
    _ ← liftD (endUpload k s);
    updateSession channelID (fun s => match endUpload k s with Ret s' => s' | _ => s end)
  end.

Definition set_upload (k : nat) (r : reader) (s : channelSession) : channelSession :=
  set_uploads_of (up s) (<[k := r]> (uploadPumps s)) (uploadDrained s) s.

(** One turn of the loop of [pumpChannelUpload] on the [k]-th ring; [false] ends it. *)
Definition uploadStep (channelID : bytes) (k : nat) : D bool :=
  sess ← getSession channelID;
  match sess with
  | None => mret false
  | Some s =>
    match uploadPumps s !! k with
    | None => mret false
    | Some r =>
      match ReadChunk r with
      | Blocked => mret false
      | Broken _ => _ ← endUploadOf channelID k; mret false
      | Done (purpose, chunk) r' =>
        _ ← updateSession channelID (set_upload k r');
        res ← tryD (sessionWrite channelID s purpose chunk);
        match res with
        | inl _ => mret true
        | inr err =>
          _ ← updateSession channelID (markClosed (Some (Wrapf "forward upload chunk: %v" err)));
          _ ← endUploadOf channelID k;
          mret false
        end
      end
    end
  end.

Fixpoint uploadLoop (fuel : nat) (channelID : bytes) (k : nat) : D unit :=
  match fuel with
  | O => mret tt
  | S fuel' =>
    more ← uploadStep channelID k;
    if (more : bool) then uploadLoop fuel' channelID k else mret tt
  end.

(** Bytes arrive in the [k]-th upload ring, or it is closed, and the goroutine runs.
    Every chunk takes at least its header. *)
Definition uploadArrive (channelID : bytes) (k : nat) (x : bytes) (e : option error) : D unit :=
  sess ← getSession channelID;
  match sess with
  | None => mret tt
  | Some s =>
    match uploadPumps s !! k with
    | None => mret tt
    | Some r =>
      let r' := match ended r with Some _ => r | None => mkReader (unread r ++ x) e end in
      _ ← updateSession channelID (set_upload k r');
      uploadLoop (S (length (unread r'))) channelID k
    end
  end.

(** [chandata.Open] *)
Definition openUpload : D reader :=
  sched ← getIo uploads;
  _ ← modifyIo (set_uploads (tail sched));
  match sched with
  | Some r :: _ => mret r
  | _ => fail "chandata: waiting for %s ring %s: %w"
  end.

Definition dispatchChannelDataReady (channelID : bytes) : D unit :=
  sess ← getSession channelID;
  match sess with
  | None => fail "channel: no such channel %q"
  | Some s =>
    r ← wrapD "channel: open upload ring: %w" openUpload;
    _ ← updateSession channelID (setUploadRing r);
    uploadArrive channelID (length (uploadPumps s)) [] (ended r)
  end.

(** [chandata.Create] *)
Definition createRing : D ring :=
  sched ← getIo rings;
  _ ← modifyIo (set_rings (tail sched));
  match sched with
  | Some r :: _ => mret r
  | _ => fail "chandata: create %s ring: %w"
  end.

(** * The handshake *)

(** The opening side. *)
Definition openChannelStream : D stream :=
  sched ← getIo opens;
  _ ← modifyIo (set_opens (tail sched));
  match sched with
  | Some s :: _ => mret s
  | _ => fail "new stream"
  end.

Definition dispatchChannelOpen (destPeerID : bytes) : D bytes :=
  _ ← reapChannels;
  dest ← liftD (wrap_err "channel: invalid destination peer id %q: %w" (peer_Decode destPeerID));
  s ← wrapD "channel: open stream to %s: %w" openChannelStream;
  notif ← liftD (wrap_err "channel: build handshake: %w" (NewChannelOpenHandshake peerID));
  buf ← liftD (wrap_err "channel: encode handshake message: %w"
                 (Encode Canonicalize ed25519_sign Marshal notif (Some ed25519Priv)));
  _ ← modify (record_call (Sent ChannelProtocolID dest buf));
  let '(s, res) := writeFramed buf s in
  _ ← liftD (wrap_err "channel: write handshake to %s: %w" res);
  match readChannelAccept (incoming s) with
  | Blocked => fail "channel: read accept from %s: %w"
  | Broken err => liftD (Fail (Wrapf "channel: read accept from %s: %w" err))
  | Done (st, _) rest =>
    if negb (byte_eqb st channelAccepted) then fail "channel: %s rejected: %s" else
    pub ← liftD (wrap_err "channel: extract public key for %s: %w" (peer_PublicKey dest));
    channelID ← newChannelID;
    ring ← wrapD "channel: create data-plane ring: %w" createRing;
    now ← gets nnow;
    _ ← putSession channelID (newChannelSession (set_incoming rest s) dest pub ring now);
    _ ← pumpChannelReads channelID;
    mret channelID
  end.

(** The accepting side: who is calling, and that they are. *)
Definition channelHandshake (r : reader) : gores (bytes * bytes * reader) :=
  match readFramed r with
  | Blocked => Fail (Errorf "deadline exceeded")
  | Broken err => Fail err
  | Done buf rest =>
    '(m, crc, sig) ← Decode Canonicalize Unmarshal buf;
    match Body m with
    | E_channelOpen _ senderPeerId =>
      senderPeerID ← rd senderPeerId;
      senderPeer ← peer_Decode senderPeerID;
      pub ← peer_PublicKey senderPeer;
      _ ← Verify Canonicalize ed25519_verify pub m crc sig;
      Ret (senderPeer, pub, rest)
    | _ => Fail (Errorf "not a channel open")
    end
  end.

Definition reject (reason : bytes) (s : stream) : D stream := mret (CloseWrite (writeChannelAccept false reason s).1).

(** Returns the stream as it was left: closed, or handed over to the session. *)
Definition handleChannelStream (s : stream) : D stream :=
  match channelHandshake (incoming s) with
  | Panic => liftD Panic
  | Fail _ => mret (CloseWrite s)
  | Ret (senderPeer, pub, rest) =>
    let s := set_incoming rest s in
    authorized ← isAuthorizedForGatedAccess senderPeer ReservedGroupChannel;
    if negb (authorized : bool)
    then reject (senderPeer ++ bs " is not a cluster member, in the channel group, or granted access to " ++ peerID) s else
    _ ← reapChannels;
    channelID ← tryD newChannelID;
    match channelID with
    | inr _ => reject (bs "internal error minting channel id") s
    | inl channelID =>
      ring ← tryD createRing;
      match ring with
      | inr _ => reject (bs "internal error preparing data plane") s
      | inl ring =>
        let '(s, res) := writeChannelAccept true [] s in
        match res with
        | Ret _ =>
          now ← gets nnow;
          _ ← putSession channelID (newChannelSession s senderPeer pub ring now);
          _ ← onChannels (pushPending channelID now);
          _ ← pumpChannelReads channelID;
          mret s
        | _ => mret (CloseWrite s)
        end
      end
    end
  end.

(** * The operator's requests *)

Definition dispatchChannelPoll (channelID : bytes) : D (byte * byte * bytes) :=
  _ ← reapChannels;
  sess ← getSession channelID;
  match sess with
  | None => fail "channel: no such channel %q"
  | Some s =>
    match popChunk s with
    | Some (c, _) =>
      _ ← updateSession channelID (fun s => match popChunk s with Some (_, s') => s' | None => s end);
      if maxPollChunkSize <? blen (chData c)
      then fail "channel: buffered chunk is %d bytes, larger than a poll response can carry (max %d) -- read this channel through its data-plane ring (see pkg/chandata) instead"
      else mret (ChannelPollChunk, chPurpose c, chData c)
    | None =>
      if (status s).1 then mret (ChannelPollClosed, ChannelPurposeData, [])
      else mret (ChannelPollNoData, ChannelPurposeData, [])
    end
  end.

Definition dispatchChannelListen : D (bytes * bytes) :=
  _ ← reapChannels;
  t ← getIo channels;
  match popPending t with
  | None => mret ([], [])
  | Some (channelID, _) =>
    _ ← onChannels (fun t => match popPending t with Some (_, t') => t' | None => t end);
    match sessions t !! channelID with
    | None => mret ([], [])
    | Some s => mret (channelID, chPeer s)
    end
  end.

Definition dispatchChannelClose (channelID : bytes) : D unit :=
  sess ← getSession channelID;
  match sess with
  | None => mret tt
  | Some _ => onChannels (remove channelID)
  end.

(** Half-closing waits for an upload that is under way; what the ring receives in
    the meantime comes from a schedule. *)
Definition dispatchChannelCloseWrite (channelID : bytes) : D unit :=
  sess ← getSession channelID;
  match sess with
  | None => mret tt
  | Some s =>
    _ ← (if hasUploadRing s && negb (uploadDrained s) then
           sched ← getIo drains;
           _ ← modifyIo (set_drains (tail sched));
           match sched with
           | [] => mret tt
           | (x, e) :: _ => uploadArrive channelID 0 x e
           end
         else mret tt);
    sess ← getSession channelID;
    match sess with
    | None => mret tt
    | Some s =>
      if hasUploadRing s && negb (uploadDrained s) then fail "channel: waiting for upload ring to drain: %w"
      else updateSession channelID (fun s => set_stream (CloseWrite (chStream s)) s)
    end
  end.
End Channel.

(** * What these do to a node *)

Section ChannelEffects.
Context `{Env} (P : call -> Prop).

Lemma openFrame_size pub buf purpose chunk : openFrame pub buf = Ret (purpose, chunk) -> blen chunk <= channelMaxChunkSize.
Proof.
  unfold openFrame. destruct (wrap_err _ (DecodeChannelFrame buf)) as [[[[p c] sg] ch]|e|]; [|done..]. cbn.
  destruct (wrap_err _ (VerifyChannelChunk _ _ _ _ _ _)); [|done..]. cbn.
  destruct (Z.ltb_spec channelMaxChunkSize (blen ch)); [done|]. by intros [= <- <-].
Qed.

Lemma session_ok_deliver now purpose chunk s :
  blen chunk <= channelMaxChunkSize -> session_ok s -> session_ok (deliver now purpose chunk s).
Proof. intros Hc Hs. unfold deliver. cbv zeta. by apply (session_ok_push s now purpose chunk). Qed.

Lemma session_ok_pumpStep now s q s' q' more :
  session_ok s -> pumpStep now s q = Ret (Some (s', q', more)) -> session_ok s'.
Proof.
  intros Hs. unfold pumpStep. destruct (readFramed _) as [|buf rest|err]; [done| |].
  - cbv zeta. destruct (openFrame _ buf) as [[purpose chunk]|e|] eqn:Ef; [| |done].
    + destruct (allow _ _ _ _ _ _) as [q1 ok]. destruct ok; intros [= <- <- <-].
      * apply session_ok_deliver; [by eapply openFrame_size|done].
      * apply (session_ok_mark (set_stream _ s)). exact Hs.
    + intros [= <- <- <-]. apply (session_ok_mark (set_stream _ s)). exact Hs.
  - intros [= <- <- <-]. apply (session_ok_mark s). exact Hs.
Qed.

Lemma session_ok_pumpLoop fuel now s q s' q' : session_ok s -> pumpLoop fuel now s q = Ret (s', q') -> session_ok s'.
Proof.
  revert s q. induction fuel as [|fuel IH]; intros s q Hs; cbn [pumpLoop]; [by intros [= <- <-]|].
  destruct (negb (pumping s)); [by intros [= <- <-]|].
  destruct (pumpStep now s q) as [[[[s1 q1] more]|]|e|] eqn:E; [| |done..].
  - apply session_ok_pumpStep in E; [|done]. destruct more; [by apply IH|by intros [= <- <-]].
  - by intros [= <- <-].
Qed.

Lemma session_ok_pumped now q s : session_ok s -> session_ok (pumped now q s).
Proof.
  intros Hs. unfold pumped. destruct (pumpLoop _ _ _ _) as [[s' q']| |] eqn:E; [|done..]. by eapply session_ok_pumpLoop.
Qed.

Lemma emits_onChannels f : (forall t, channels_ok t -> channels_ok (f t)) -> Emits P (onChannels f).
Proof. intros Hf. apply emits_modifyIo. intros x. apply Hf. Qed.

Lemma emits_putSession channelID s : session_ok s -> Emits P (putSession channelID s).
Proof. intros Hs. apply emits_onChannels. auto with daemon. Qed.

Lemma emits_updateSession channelID f : (forall s, session_ok s -> session_ok (f s)) -> Emits P (updateSession channelID f).
Proof.
  intros Hf. apply emits_onChannels. intros t [Ht Hp]. split; [|done]. cbn. intros id s.
  destruct (decide (channelID = id)) as [->|Hne].
  - rewrite lookup_alter_eq. intros (s' & E & ->)%fmap_Some. apply Hf. by eapply Ht.
  - rewrite lookup_alter_ne by done. apply Ht.
Qed.

Lemma emits_reapChannels : Emits P reapChannels.
Proof. unfold reapChannels. emits. apply emits_onChannels. auto with daemon. Qed.

Lemma emits_getSession channelID : Emits P (getSession channelID).
Proof. apply emits_getIo. Qed.

Lemma emits_quotaAllow peer ip cost : Emits P (quotaAllow peer ip cost).
Proof.
  unfold quotaAllow. emits. destruct (allow _ _ _ _ _ _). emits. by apply emits_modifyIo.
Qed.

Lemma session_ok_writeFrame now buf s : session_ok s -> session_ok (writeFrame now buf s).
Proof. unfold writeFrame. by destruct (writeFramed buf (chStream s)) as [st []]. Qed.

Lemma session_ok_endUpload k s : session_ok s -> session_ok (match endUpload k s with Ret s' => s' | _ => s end).
Proof. unfold endUpload. destruct (uploadPumps s !! k); [|done]. by destruct (uploadDrained s). Qed.

Lemma session_ok_popped s : session_ok s -> session_ok (match popChunk s with Some (_, s') => s' | None => s end).
Proof. intros Hs. destruct (popChunk s) as [[c s']|] eqn:E; [|done]. by eapply session_ok_pop in E as [? _]. Qed.
End ChannelEffects.

#[export] Hint Resolve emits_reapChannels emits_getSession emits_quotaAllow session_ok_writeFrame session_ok_endUpload
  session_ok_popped session_ok_pumped emits_putSession emits_updateSession : daemon.

Section ChannelOperations.
Context `{Env} (P : call -> Prop).

Lemma emits_pumpChannelReads channelID : Emits P (pumpChannelReads channelID).
Proof. unfold pumpChannelReads. emits. by apply emits_modifyIo. Qed.

Lemma emits_channelArrive channelID x e : Emits P (channelArrive channelID x e).
Proof. unfold channelArrive. emits. apply emits_pumpChannelReads. Qed.

Lemma emits_sessionWrite channelID s purpose chunk : Emits P (sessionWrite channelID s purpose chunk).
Proof. unfold sessionWrite. emits. Qed.

Lemma emits_dispatchChannelSend channelID purpose chunk : Emits P (dispatchChannelSend channelID purpose chunk).
Proof. unfold dispatchChannelSend. emits. apply emits_sessionWrite. Qed.

Lemma emits_endUploadOf channelID k : Emits P (endUploadOf channelID k).
Proof. unfold endUploadOf. emits. Qed.

Lemma emits_uploadStep channelID k : Emits P (uploadStep channelID k).
Proof. unfold uploadStep. emits; try apply emits_endUploadOf; apply emits_sessionWrite. Qed.

Lemma emits_uploadLoop fuel channelID k : Emits P (uploadLoop fuel channelID k).
Proof. induction fuel as [|fuel IH]; cbn [uploadLoop]; emits. apply emits_uploadStep. Qed.

Lemma emits_uploadArrive channelID k x e : Emits P (uploadArrive channelID k x e).
Proof. unfold uploadArrive. emits. apply emits_uploadLoop. Qed.

Lemma emits_dispatchChannelDataReady channelID : Emits P (dispatchChannelDataReady channelID).
Proof.
  unfold dispatchChannelDataReady, openUpload. emits; [by apply emits_modifyIo|apply emits_uploadArrive].
Qed.

Lemma emits_createRing : Emits P createRing.
Proof. unfold createRing. emits. by apply emits_modifyIo. Qed.

Lemma emits_newChannelID : Emits P newChannelID.
Proof. unfold newChannelID. emits. Qed.

Lemma emits_dispatchChannelOpen destPeerID :
  (forall dest buf, P (Sent ChannelProtocolID dest buf)) -> Emits P (dispatchChannelOpen destPeerID).
Proof.
  intros HP. unfold dispatchChannelOpen, openChannelStream.
  emits; try (by apply emits_modifyIo); auto using emits_newChannelID, emits_createRing, emits_pumpChannelReads with daemon.
Qed.

Lemma emits_reject reason s : Emits P (reject reason s).
Proof. apply emits_ret. Qed.

Lemma emits_handleChannelStream s : Emits P (handleChannelStream s).
Proof.
  unfold handleChannelStream, reject.
  emits; auto using emits_newChannelID, emits_createRing, emits_pumpChannelReads with daemon.
  apply emits_onChannels. auto with daemon.
Qed.

Lemma emits_dispatchChannelPoll channelID : Emits P (dispatchChannelPoll channelID).
Proof. unfold dispatchChannelPoll. emits. Qed.

Lemma emits_dispatchChannelListen : Emits P dispatchChannelListen.
Proof.
  unfold dispatchChannelListen. emits; apply emits_onChannels; intros t Ht;
    (destruct (popPending t) as [[id t']|] eqn:E; [by eapply channels_ok_pop|done]).
Qed.

Lemma emits_dispatchChannelClose channelID : Emits P (dispatchChannelClose channelID).
Proof. unfold dispatchChannelClose. emits. apply emits_onChannels. auto with daemon. Qed.

Lemma emits_dispatchChannelCloseWrite channelID : Emits P (dispatchChannelCloseWrite channelID).
Proof.
  unfold dispatchChannelCloseWrite. emits; [by apply emits_modifyIo|apply emits_uploadArrive].
Qed.
End ChannelOperations.

#[export] Hint Resolve emits_channelArrive emits_dispatchChannelSend emits_uploadArrive emits_dispatchChannelDataReady
  emits_handleChannelStream emits_dispatchChannelPoll emits_dispatchChannelListen emits_dispatchChannelClose
  emits_dispatchChannelCloseWrite : daemon.
