(* ===== verification/Handler.v ===== *)
(** The request handler (src/pkg/daemon/daemon.go, [handleShmEvent]): which
    events a remote caller may send at all, the signature check, the gate, and
    one method per event.

    A method returns the response message; an error it returns becomes the
    response [errorMsg(m.Id(), err)]. *)

From S2P Require Import Prelude Store StoreLogic SystemKeys Payloads LogRecord Txn Fsm Events Stream Quota Session Node Acl Forward Dial Join Execute Remote Channel.
#[local] Open Scope Z_scope.

(** * In front of the methods *)

(** Events refused outright when they come from a remote caller. *)
Definition localOnly (w : Event_Which) : option error :=
  match w with
  | Event_Which_getPrivateKey | Event_Which_getPublicKey =>
    Some (Errorf "%s: not available to a remote caller -- bring your own key")
  | Event_Which_leave =>
    Some (Errorf "leave: not available to a remote caller -- only this node's own operator decides to leave")
  | Event_Which_execInviteRedeem => Some (Errorf "exec_invite_redeem: not available to a remote caller")
  | Event_Which_joinRequestCreate | Event_Which_joinRequestCancel =>
    Some (Errorf "%s: not available to a remote caller -- only this node's own operator mints or cancels its own join-request ticket")
  | Event_Which_recruit => Some (Errorf "recruit: not available to a remote caller")
  | Event_Which_publicAccess => Some (Errorf "public_access: not available to a remote caller")
  | Event_Which_dialSubmitCommand | Event_Which_dialQueryCommandLog =>
    Some (Errorf "%s: not available to a remote caller -- this node dials the target under its own identity")
  | Event_Which_channelOpen | Event_Which_channelSend | Event_Which_channelPoll | Event_Which_channelListen
  | Event_Which_channelClose | Event_Which_channelCloseWrite | Event_Which_channelDataReady =>
    Some (Errorf "%s: not available to a remote caller -- only this node's own operator drives its own channel sessions")
  | _ => None
  end.

Definition refuseRemote (caller : callerIdentity) (w : Event_Which) : D unit :=
  if isRemote caller then match localOnly w with Some err => liftD (Fail err) | None => mret tt end else mret tt.

(** Events the gate lets through for every remote caller. *)
Definition ungated (w : Event_Which) : bool :=
  match w with
  | Event_Which_permitRequest | Event_Which_permitConfirm | Event_Which_setKey | Event_Which_getKey
  | Event_Which_bootstrapOrJoinCluster | Event_Which_addLearner | Event_Which_getVersion => true
  | _ => false
  end.

Section Handler.
Context `{Env}.

Definition checkSignature (m : Msg) (crc : Z) (sig : bytes) (caller : callerIdentity) : D unit :=
  if RequiresSignature (Which m)
  then liftD (Verify Canonicalize ed25519_verify (verifyPub caller) m crc sig) else mret tt.

Definition gate (caller : callerIdentity) (m : Msg) : D unit :=
  if negb (isRemote caller) then mret tt else
  if ungated (Which m) then mret tt else
  authorized ← isAuthorizedForGatedAccess (remotePeer caller) ReservedGroupRemote;
  if (authorized : bool) then mret tt else
  carvedOut ← isCommandLogCarveOut m (remotePeer caller);
  if (carvedOut : bool) then mret tt else fail "%s: not permitted".

(** * The register and plain keys *)

Definition onSetKey (m : Msg) (value : field) : D Msg :=
  value ← liftD (rd value);
  _ ← modify (fun n => set_registry (Register (Id m) value (nregistry n)) n);
  mret m.

Definition registered (id : Z) (fmt : String.string) : D bytes :=
  reg ← gets nregistry;
  match Lookup id reg with
  | None => liftD (Fail (Errorf fmt))
  | Some v => mret v
  end.

Definition onGetKey (m : Msg) (sourceId : Z) : D Msg :=
  v ← registered sourceId "no entry registered under id %d";
  mret (SetBody (E_getKey sourceId (Ok v)) m).

Definition onSetField (m : Msg) (sourceId : Z) (value : field) : D Msg :=
  key ← registered sourceId "no key registered under id %d -- send SetKey first";
  _ ← liftD (rejectReservedKey key);
  value ← liftD (rd value);
  _ ← handleSetForward key value true;
  mret m.

Definition onSet (m : Msg) (key value : field) : D Msg :=
  key ← liftD (rd key);
  value ← liftD (rd value);
  _ ← liftD (rejectReservedKey key);
  _ ← handleSetForward key value true;
  mret m.

Fixpoint rejectReservedOps (ops : list TxnOpSpec) : gores unit :=
  match ops with
  | [] => Ret tt
  | op :: ops' => _ ← rejectReservedKey (Key op); rejectReservedOps ops'
  end.

Definition onTxn (m : Msg) (ops : ptr (list TxnOp)) : D Msg :=
  ops ← liftD (TxnOps ops);
  _ ← liftD (rejectReservedOps ops);
  raftValue ← liftD (EncodeTxnPayload ops);
  _ ← handleOpForward OpTxn [] raftValue true;
  mret m.

Definition handleGet (key : bytes) : D bytes := onStore (get Store key).

Definition onGetFieldByRegistry (m : Msg) (sourceId : Z) : D Msg :=
  key ← registered sourceId "no key registered under id %d -- send SetKey first";
  value ← handleGet key;
  mret (SetBody (E_getFieldByRegistry sourceId (Ok value)) m).

Definition onGetFieldByKey (m : Msg) (key : field) : D Msg :=
  k ← liftD (rd key);
  value ← handleGet k;
  mret (SetBody (E_getFieldByKey key (Ok value)) m).

Definition onListRange (m : Msg) (start end_ : field) : D Msg :=
  lo ← liftD (rd start);
  hi ← liftD (rd end_);
  matches ← onStore (scanRange Store lo hi 1);
  match matches with
  | [] => mret m
  | (k, v) :: _ => mret (SetBody (E_listRange start end_ (Ok k) (Ok v)) m)
  end.

(** * Membership *)

Definition onLeave (m : Msg) : D Msg := _ ← leaveCluster; mret m.

Definition onKick (caller : callerIdentity) (m : Msg) (peerId : field) : D Msg :=
  _ ← requireVoter caller;
  target ← liftD (rd peerId);
  _ ← kickPeer target;
  mret m.

Definition onBootstrapOrJoin (m : Msg) (leaderAddr : field) : D Msg :=
  addr ← liftD (rd leaderAddr);
  result ← handleAdd addr;
  mret (SetBody (E_bootstrapOrJoinCluster (Ok result)) m).

Definition onAddLearner (caller : callerIdentity) (m : Msg) (claimedPeerId : Z) (addr : field) : D Msg :=
  result ← handleAddDispatch claimedPeerId addr (remotePeer caller);
  mret (SetBody (E_addLearner claimedPeerId (Ok result)) m).

(** * The catalog *)

Definition reservedGroupID (id : bytes) : bool := IsReservedGroupID id || isPeerIdentityGroupID id.

Definition onGroupPut (caller : callerIdentity) (m : Msg) (id name : field) (public : bool) : D Msg :=
  _ ← requireVoter caller;
  id ← liftD (rd id);
  name ← liftD (rd name);
  if reservedGroupID id then fail "group id %q is reserved and managed automatically" else
  _ ← handleConfirmForward OpSet (GroupKey id) (EncodeGroupPayload name public) true;
  mret m.

Definition onGroupDelete (caller : callerIdentity) (m : Msg) (id : field) : D Msg :=
  _ ← requireVoter caller;
  id ← liftD (rd id);
  if reservedGroupID id then fail "group id %q is reserved and cannot be deleted" else
  _ ← handleConfirmForward OpCascadeDelete (GroupKey id) [] true;
  mret m.

Definition commandPutValue (name peer : bytes) (spec : option field) : gores bytes :=
  match spec with
  | None => EncodeCommandPayload name peer
  | Some spec =>
    spec ← rd spec;
    if bytes_eqb spec [] then EncodeCommandPayloadClearingSpec name peer
    else EncodeCommandPayloadWithSpec name peer spec
  end.

Definition onCommandPut (caller : callerIdentity) (m : Msg) (id name peer : field) (spec : option field) : D Msg :=
  _ ← requireVoter caller;
  id ← liftD (rd id);
  name ← liftD (rd name);
  peer ← liftD (rd peer);
  value ← liftD (commandPutValue name peer spec);
  _ ← handleConfirmForward OpSet (CommandKey id) value true;
  mret m.

Definition onCommandDelete (caller : callerIdentity) (m : Msg) (id : field) : D Msg :=
  _ ← requireVoter caller;
  id ← liftD (rd id);
  _ ← handleConfirmForward OpCascadeDelete (CommandKey id) [] true;
  mret m.

Definition onStationPut (caller : callerIdentity) (m : Msg) (peer name attrs : field) : D Msg :=
  _ ← requireVoter caller;
  peer ← liftD (rd peer);
  if bytes_eqb peer [] then fail "station peer id must not be empty" else
  name ← liftD (rd name);
  attrs ← liftD (rd attrs);
  value ← liftD (EncodeStationPayload name attrs);
  _ ← handleConfirmForward OpSet (StationKey peer) value true;
  mret m.

Definition onStationDelete (caller : callerIdentity) (m : Msg) (peer : field) : D Msg :=
  _ ← requireVoter caller;
  peer ← liftD (rd peer);
  _ ← handleConfirmForward OpDel (StationKey peer) [] true;
  mret m.

Definition onGroupCommand (op : byte) (caller : callerIdentity) (m : Msg) (commandId groupId : field) : D Msg :=
  _ ← requireVoter caller;
  commandID ← liftD (rd commandId);
  groupID ← liftD (rd groupId);
  key ← liftD (GroupCommandKey commandID groupID);
  _ ← handleConfirmForward op key [] true;
  mret m.

Definition onGroupCommandPut : callerIdentity -> Msg -> field -> field -> D Msg := onGroupCommand OpSet.
Definition onGroupCommandDelete : callerIdentity -> Msg -> field -> field -> D Msg := onGroupCommand OpDel.

Definition onPeerGroup (op : byte) (caller : callerIdentity) (m : Msg) (peer groupId : field) : D Msg :=
  _ ← requireVoter caller;
  peer ← liftD (rd peer);
  groupID ← liftD (rd groupId);
  if IsAutoManagedGroupID groupID then fail "group %q membership is managed automatically" else
  key ← liftD (PeerGroupKey peer groupID);
  _ ← handleConfirmForward op key [] true;
  mret m.

Definition onPeerGroupPut : callerIdentity -> Msg -> field -> field -> D Msg := onPeerGroup OpSet.
Definition onPeerGroupDelete : callerIdentity -> Msg -> field -> field -> D Msg := onPeerGroup OpDel.

(** * Permits *)

Definition onPermitRequest (m : Msg) (kind : byte) (peer metadata : field) : D Msg :=
  peer ← liftD (rd peer);
  metadata ← liftD (rd metadata);
  _ ← handleSetForward (SystemKey kind StatusPending peer) metadata true;
  mret m.

Definition onPermitConfirm (caller : callerIdentity) (m : Msg) (kind : byte) (peer : field) : D Msg :=
  _ ← requireVoter caller;
  peer ← liftD (rd peer);
  _ ← handleConfirmForward OpConfirm (SystemKey kind StatusPending peer) (SystemKey kind StatusConfirmed peer) true;
  mret m.

Definition onPermitRevoke (caller : callerIdentity) (m : Msg) (kind : byte) (peer : field) : D Msg :=
  _ ← requireVoter caller;
  peer ← liftD (rd peer);
  _ ← handleConfirmForward OpDel (SystemKey kind StatusConfirmed peer) [] true;
  mret m.

(** * Invites *)

Definition onJoinInviteCreate (caller : callerIdentity) (m : Msg) (token : field) (suffrage : byte) : D Msg :=
  _ ← requireVoter caller;
  token ← liftD (rd token);
  _ ← handleConfirmForward OpSet (JoinInviteKey token) (EncodeJoinInviteRecord suffrage) true;
  mret m.

Definition onJoinInviteRevoke (caller : callerIdentity) (m : Msg) (token : field) : D Msg :=
  _ ← requireVoter caller;
  token ← liftD (rd token);
  _ ← handleConfirmForward OpDel (JoinInviteKey token) [] true;
  mret m.

(** [uint64(time.Now().Unix()) + ttl], which wraps. *)
Definition inviteExpiry (now ttlSeconds : Z) : Z :=
  if ttlSeconds =? 0 then 0 else u64 (u64 (now / 10 ^ 9) + ttlSeconds).

Definition onExecInviteCreate (caller : callerIdentity) (m : Msg) (token commandId inputsJson : field)
  (ttlSeconds : Z) : D Msg :=
  _ ← requireVoter caller;
  token ← liftD (rd token);
  commandID ← liftD (rd commandId);
  inputsJSON ← liftD (rd inputsJson);
  now ← gets nnow;
  let value := EncodeExecInviteRecord commandID inputsJSON (inviteExpiry now ttlSeconds) in
  _ ← handleConfirmForward OpSet (ExecInviteKey token) value true;
  mret m.

Definition onExecInviteRevoke (caller : callerIdentity) (m : Msg) (token : field) : D Msg :=
  _ ← requireVoter caller;
  token ← liftD (rd token);
  _ ← handleConfirmForward OpDel (ExecInviteKey token) [] true;
  mret m.

Definition onJoinRequestCreate (m : Msg) : D Msg :=
  token ← wrapD "generate join request token: %w" randomBytes;
  _ ← setJoinRequestToken token;
  mret (SetBody (E_joinRequestCreate (Ok token)) m).

Definition onJoinRequestCancel (m : Msg) (token : field) : D Msg :=
  token ← liftD (rd token);
  _ ← cancelJoinRequestToken token;
  mret m.

Definition onRecruit (m : Msg) (ticket : field) (suffrage : byte) : D Msg :=
  ticket ← liftD (rd ticket);
  result ← dialAndPushRecruit ticket suffrage;
  mret (SetBody (E_recruit (Ok result) suffrage) m).

Definition onExecInviteRedeem (m : Msg) (sourceAddr token redeemer : field) : D Msg :=
  addr ← liftD (rd sourceAddr);
  tok ← liftD (rd token);
  instanceID ← dialAndRedeemExecInvite addr tok;
  mret (SetBody (E_execInviteRedeem sourceAddr token (Ok instanceID) redeemer) m).

(** * Commands, notifications and channels *)

Definition onLogAppend (caller : callerIdentity) (m : Msg) (key value : field) : D Msg :=
  key ← liftD (rd key);
  value ← liftD (rd value);
  isLog ← liftD (if blen key =? 0 then Ret false else k0 ← idx key 0; Ret (byte_eqb k0 LogKeyPrefix));
  if negb isLog then fail "log_append: key must start with the reserved logrecord prefix" else
  '(kind, _, _) ← liftD (ParseKey key);
  match ParseCommandRequestLogKind kind with
  | Some _ =>
    let author := if isRemote caller then remotePeer caller else peerID in
    payload ← liftD (EncodeCommandRequestApplyPayload author value);
    _ ← handleOpForward OpAppendCommandRequest key payload true;
    mret m
  | None => _ ← handleSetForward key value true; mret m
  end.

Definition onExecute (m : Msg) (sourceId destinationId : Z) (value : field) : D Msg :=
  _ ← dispatchExecute sourceId destinationId value; mret m.

Definition onPollExecute (m : Msg) : D Msg :=
  notif ← inboxPop;
  match notif with
  | None => mret m
  | Some e => mret (SetBody (E_pollExecute (Ok (senderPeerID e)) (Ok (payload e))) m)
  end.

Definition onPublicAccess (m : Msg) (targetPeer note : field) : D Msg :=
  target ← liftD (rd targetPeer);
  text ← liftD (rd note);
  instanceID ← dialAndSubmitPublicAccess target text;
  mret (SetBody (E_publicAccess targetPeer note (Ok instanceID)) m).

Definition onDialSubmitCommand (m : Msg) (targetPeer commandId inputsJson note : field) : D Msg :=
  target ← liftD (rd targetPeer);
  commandID ← liftD (rd commandId);
  inputs ← liftD (rd inputsJson);
  text ← liftD (rd note);
  instanceID ← dialAndSubmitCommand target commandID inputs text;
  mret (SetBody (E_dialSubmitCommand targetPeer commandId inputsJson note (Ok instanceID)) m).

(** The response carries only the records, encoded. *)
Definition onDialQueryCommandLog (m : Msg) (targetPeer instanceId : field) (since until limit : Z) : D Msg :=
  target ← liftD (rd targetPeer);
  instanceID ← liftD (rd instanceId);
  records ← dialAndQueryCommandLog target instanceID since until limit;
  resp ← liftD (NewDialQueryCommandLogResponse records);
  mret (SetId (Id m) resp).

Definition onChannelOpen (m : Msg) (peerId senderPeerId : field) : D Msg :=
  peer ← liftD (rd peerId);
  channelID ← dispatchChannelOpen peer;
  mret (SetBody (E_channelOpen (Ok channelID) senderPeerId) m).

Definition onChannelSend (m : Msg) (channelId : field) (purpose : byte) (chunk : field) : D Msg :=
  channelID ← liftD (rd channelId);
  chunk ← liftD (rd chunk);
  _ ← dispatchChannelSend channelID purpose chunk;
  mret m.

Definition onChannelPoll (m : Msg) (channelId : field) : D Msg :=
  channelID ← liftD (rd channelId);
  '(status, purpose, chunk) ← dispatchChannelPoll channelID;
  mret (SetBody (E_channelPoll channelId status purpose (Ok chunk)) m).

Definition onChannelListen (m : Msg) : D Msg :=
  '(channelID, remotePeerID) ← dispatchChannelListen;
  mret (SetBody (E_channelListen (Ok channelID) (Ok remotePeerID)) m).

(** [channelClose], [channelCloseWrite] and [channelDataReady] differ in the method. *)
Definition onChannel (method : bytes -> D unit) (m : Msg) (channelId : field) : D Msg :=
  channelID ← liftD (rd channelId);
  _ ← method channelID;
  mret m.

Definition onGetVersion (m : Msg) : D Msg :=
  resp ← liftD (NewGetVersionResponse buildInfo);
  mret (SetId (Id m) resp).

(** * The switch *)

Definition dispatch (caller : callerIdentity) (m : Msg) : D Msg :=
  match Body m with
  | E_setKey value => onSetKey m value
  | E_getKey sourceId _ => onGetKey m sourceId
  | E_setField sourceId value => onSetField m sourceId value
  | E_set key value => onSet m key value
  | E_txn ops => onTxn m ops
  | E_leave => onLeave m
  | E_kick peerId => onKick caller m peerId
  | E_groupPut id name public => onGroupPut caller m id name public
  | E_groupDelete id => onGroupDelete caller m id
  | E_commandPut id name peer spec => onCommandPut caller m id name peer spec
  | E_commandDelete id => onCommandDelete caller m id
  | E_stationPut peer name attrs => onStationPut caller m peer name attrs
  | E_stationDelete peer => onStationDelete caller m peer
  | E_groupCommandPut commandId groupId => onGroupCommandPut caller m commandId groupId
  | E_groupCommandDelete commandId groupId => onGroupCommandDelete caller m commandId groupId
  | E_peerGroupPut peer groupId => onPeerGroupPut caller m peer groupId
  | E_peerGroupDelete peer groupId => onPeerGroupDelete caller m peer groupId
  | E_permitRequest kind peer metadata => onPermitRequest m kind peer metadata
  | E_permitConfirm kind peer => onPermitConfirm caller m kind peer
  | E_permitRevoke kind peer => onPermitRevoke caller m kind peer
  | E_joinInviteCreate token suffrage => onJoinInviteCreate caller m token suffrage
  | E_joinInviteRevoke token => onJoinInviteRevoke caller m token
  | E_execInviteCreate token commandId inputsJson ttl => onExecInviteCreate caller m token commandId inputsJson ttl
  | E_execInviteRevoke token => onExecInviteRevoke caller m token
  | E_joinRequestCreate _ => onJoinRequestCreate m
  | E_joinRequestCancel token => onJoinRequestCancel m token
  | E_recruit ticket suffrage => onRecruit m ticket suffrage
  | E_execInviteRedeem sourceAddr token _ redeemer => onExecInviteRedeem m sourceAddr token redeemer
  | E_publicAccess targetPeer note _ => onPublicAccess m targetPeer note
  | E_dialSubmitCommand targetPeer commandId inputsJson note _ =>
    onDialSubmitCommand m targetPeer commandId inputsJson note
  | E_dialQueryCommandLog targetPeer instanceId since until limit _ =>
    onDialQueryCommandLog m targetPeer instanceId since until limit
  | E_execute sourceId destinationId _ value => onExecute m sourceId destinationId value
  | E_pollExecute _ _ => onPollExecute m
  | E_channelOpen peerId senderPeerId => onChannelOpen m peerId senderPeerId
  | E_channelSend channelId purpose chunk => onChannelSend m channelId purpose chunk
  | E_channelPoll channelId _ _ _ => onChannelPoll m channelId
  | E_channelListen _ _ => onChannelListen m
  | E_channelClose channelId => onChannel dispatchChannelClose m channelId
  | E_channelCloseWrite channelId => onChannel dispatchChannelCloseWrite m channelId
  | E_channelDataReady channelId => onChannel dispatchChannelDataReady m channelId
  | E_getFieldByRegistry sourceId _ => onGetFieldByRegistry m sourceId
  | E_getFieldByKey key _ => onGetFieldByKey m key
  | E_listRange start end_ _ _ => onListRange m start end_
  | E_logAppend key value => onLogAppend caller m key value
  | E_getPublicKey _ => mret (SetBody (E_getPublicKey (Ok ed25519Pub)) m)
  | E_getPrivateKey _ => mret (SetBody (E_getPrivateKey (Ok ed25519Priv)) m)
  | E_getOwnAddr _ => addr ← firstAdvertised; mret (SetBody (E_getOwnAddr (Ok addr)) m)
  | E_getVersion _ _ _ _ _ => onGetVersion m
  | E_bootstrapOrJoinCluster leaderAddr => onBootstrapOrJoin m leaderAddr
  | E_addLearner claimedPeerId addr => onAddLearner caller m claimedPeerId addr
  | E_execTicket _ _ | E_joinTicket _ _ | E_joinRequestTicket _ _ | E_error _ | E_unknown _ =>
    fail "unknown event %s"
  end.

Definition handleRequest (m : Msg) (crc : Z) (sig : bytes) (caller : callerIdentity) : D Msg :=
  _ ← refuseRemote caller (Which m);
  _ ← checkSignature m crc sig caller;
  _ ← gate caller m;
  dispatch caller m.

Definition handleShmEvent (m : Msg) (crc : Z) (sig : bytes) (caller : callerIdentity) : D Msg :=
  r ← tryD (handleRequest m crc sig caller);
  mret (match r with
        | inl resp => resp
        | inr err => errorMsg (Id m) err
        end).

(** [handleClientStream]: the answer of a remote request, [None] for a request
    that is dropped. [pub] is the connection's authenticated key. *)
Definition handleClientStream (buf : gores bytes) (pub : option (gores bytes)) (remote : bytes) : D (option bytes) :=
  match buf with
  | Panic => liftD Panic
  | Fail _ => mret None
  | Ret buf =>
    match Decode Canonicalize Unmarshal buf with
    | Panic => liftD Panic
    | Fail _ => mret None
    | Ret (m, crc, sig) =>
      resp ← (match remoteCaller pub remote with
              | Panic => liftD Panic
              | Fail err => mret (errorMsg (Id m) err)
              | Ret caller => handleShmEvent m crc sig caller
              end);
      mret (match Encode Canonicalize ed25519_sign Marshal resp (Some ed25519Priv) with
            | Ret respBuf => Some respBuf
            | _ => None
            end)
    end
  end.
End Handler.
