(* ===== verification/HandlerProps.v ===== *)
(** What a request can make the node do: theorems about [handleShmEvent] for
    strangers, for members that are not voters, and for everyone. *)

From S2P Require Import Prelude Store StoreLogic SystemKeys Payloads LogRecord Txn Fsm FsmSpec FsmProps FsmInvariants FsmOps Events Stream Quota Session Node Acl Forward Dial Join Execute Remote Channel Handler.
#[local] Open Scope Z_scope.

(** * Writes among the calls *)

(** The call asks raft, here or at the leader, to apply this entry. *)
Inductive asks (op : byte) (key value : bytes) : call -> Prop :=
| asks_raft : asks op key value (Proposed (EncodeCommand op key value))
| asks_leader dest : asks op key value (Sent ForwardProtocolID dest (EncodeCommand op key value))
| asks_leader_privileged dest : asks op key value (Sent ForwardConfirmProtocolID dest (EncodeCommand op key value)).
#[export] Hint Constructors asks : daemon.

Section Writes.
Context `{Env} (P : call -> Prop).

Lemma emits_resolve : Emits P resolveWriteTarget.
Proof. intros n. apply emits_at_step. unfold resolveWriteTarget. destruct (pollLeader _ _). apply step_view. Qed.
Hint Resolve emits_resolve : daemon.

Lemma emits_applyOp op key value : (forall c, asks op key value c -> P c) -> Emits P (applyOp op key value).
Proof. intros HP. unfold applyOp. emits. Qed.
Hint Resolve emits_applyOp : daemon.

Lemma emits_handleOpForward op key value allow :
  (forall c, asks op key value c -> P c) -> Emits P (handleOpForward op key value allow).
Proof.
  intros HP. unfold handleOpForward, forwardOp, dialForward. emits.
Qed.

Lemma emits_handleSetForward key value allow :
  (forall c, asks OpSet key value c -> P c) -> Emits P (handleSetForward key value allow).
Proof. intros HP. unfold handleSetForward. emits. by apply emits_handleOpForward. Qed.

Lemma emits_handleConfirmForwardWith admission op key1 key2 allow :
  (forall c, asks op key1 key2 c -> P c) -> (op = OpConfirm -> Emits P (admission key2)) ->
  Emits P (handleConfirmForwardWith admission op key1 key2 allow).
Proof.
  intros HP Ha. unfold handleConfirmForwardWith, applyConfirmWith, forwardConfirm, dialForward. emits.
  apply Ha. by apply byte_eqb_true.
Qed.
End Writes.
#[export] Hint Resolve emits_resolve : daemon.

(** * A caller that is refused *)

Lemma requireVoter_refuses caller n :
  isRemote caller = true -> currentVoter n (remotePeer caller) = false -> exists e, requireVoter caller n = (n, Fail e).
Proof. intros Hr Hv. unfold requireVoter. rewrite Hr. cbn [negb]. unfold mbind, D_bind, gets. rewrite Hv. by eexists. Qed.

Lemma emits_at_requireVoter {A : Type} P caller n (k : unit -> D A) :
  isRemote caller = true -> currentVoter n (remotePeer caller) = false -> EmitsAt P n (requireVoter caller ≫= k).
Proof.
  intros Hr Hv. destruct (requireVoter_refuses caller n Hr Hv) as [e E].
  apply emits_at_same. unfold mbind, D_bind. by rewrite E.
Qed.

(** A computation that leaves the raft instance, the host and the channels as they are. *)
Definition KeepsRaft {A} (m : D A) : Prop := forall n, nraft (m n).1 = nraft n /\ nio (m n).1 = nio n.

Lemma keeps_bind {A B : Type} (m : D A) (k : A -> D B) : KeepsRaft m -> (forall a, KeepsRaft (k a)) -> KeepsRaft (m ≫= k).
Proof.
  intros Hm Hk n. unfold mbind, D_bind. pose proof (Hm n) as [E1 E2]. destruct (m n) as [n' [a| |]]; cbn in *; [|done..].
  destruct (Hk a n') as [-> ->]. done.
Qed.

Lemma keeps_store {A : Type} (m : M A) : KeepsRaft (onStore m).
Proof. intros n. unfold onStore. by destruct (m (nstore n)). Qed.

Lemma keeps_try {A : Type} (m : D A) : KeepsRaft m -> KeepsRaft (tryD m).
Proof. intros Hm n. pose proof (Hm n) as E. unfold tryD. by destruct (m n) as [n' []]. Qed.

Ltac keeps :=
  repeat first
    [ apply keeps_bind; [|intros ?] | apply keeps_store | apply keeps_try | by intros ?
    | match goal with |- KeepsRaft (match ?x with _ => _ end) => destruct x end ].

Section Gate.
Context `{Env}.

Lemma carveOut_keeps m id : KeepsRaft (isCommandLogCarveOut m id).
Proof.
  unfold isCommandLogCarveOut, boundKind, isCommandLogReadableKind. keeps.
Qed.

Lemma gate_keeps caller m : KeepsRaft (gate caller m).
Proof. unfold gate, isAuthorizedForGatedAccess. keeps. apply carveOut_keeps. Qed.

Lemma emits_gate P caller m : Emits P (gate caller m).
Proof. unfold gate. emits. Qed.

Lemma emits_checkSignature P m crc sig caller : Emits P (checkSignature m crc sig caller).
Proof. unfold checkSignature. emits. Qed.

Lemma emits_refuseRemote P caller w : Emits P (refuseRemote caller w).
Proof. unfold refuseRemote. emits. Qed.
End Gate.

(** * Who is let in *)

Section Membership.
Implicit Types (t : table) (w : world).

(** What the three lookups of the gate look for. *)
Definition authorised `{Env} t (id groupID : bytes) : Prop :=
  member t id ReservedGroupCluster \/ member t id groupID \/ member t id peerID.

Lemma hasKey_sound k w :
  exists w' b, hasKey Store k w = (w', Ret b) /\ committed w' = committed w /\ pending w' = pending w /\
    (healthy w -> healthy w') /\ (b = true -> is_Some (committed w !! k)) /\
    (healthy w -> is_Some (committed w !! k) -> b = true).
Proof.
  unfold hasKey, mbind, M_bind, try.
  destruct (reads_get Store k (committed w) w eq_refl) as (w' & r & -> & Hc & Hp & Hh & Hr).
  destruct (committed w !! k) as [v|] eqn:E; destruct Hr as [-> | [Hf Hr]].
  - exists w', true. split_and!; eauto.
  - destruct r; try done. exists w', false. split_and!; try done.
  - exists w', false. split_and!; try done.
  - destruct r; try done. exists w', false. split_and!; try done.
Qed.

Lemma isInGroupSt_sound id g w :
  exists w' b, isInGroupSt id g w = (w', Ret b) /\ committed w' = committed w /\ pending w' = pending w /\
    (healthy w -> healthy w') /\ (b = true -> member (committed w) id g) /\
    (healthy w -> blen id <= 0xFFFF -> member (committed w) id g -> b = true).
Proof.
  unfold isInGroupSt. destruct (PeerGroupKey id g) as [k|e|] eqn:E.
  - apply PeerGroupKey_Ret in E as [Hid ->].
    destruct (hasKey_sound (relation_key KindPeerGroup id g) w) as (w' & b & -> & Hc & Hp & Hh & H1 & H2).
    exists w', b. split_and!; auto.
  - exists w, false. split_and!; try done. intros _ Hid. by rewrite PeerGroupKey_ok in E.
  - unfold PeerGroupKey in E. by destruct (_ <? _).
Qed.

Lemma authorised_sound `{Env} id g n :
  exists n' b, isAuthorizedForGatedAccess id g n = (n', Ret b) /\
    committed (nstore n') = committed (nstore n) /\ (b = true -> authorised (committed (nstore n)) id g).
Proof.
  unfold isAuthorizedForGatedAccess, isAuthorizedForGatedAccessSt, onStore, orM, mbind, M_bind, authorised.
  destruct (isInGroupSt_sound id ReservedGroupCluster (nstore n)) as (w1 & [|] & -> & C1 & _ & _ & H1 & _).
  { eexists _, _. split; [done|]. cbn. auto. }
  destruct (isInGroupSt_sound id g w1) as (w2 & [|] & -> & C2 & _ & _ & H2 & _).
  { eexists _, _. split; [done|]. cbn. rewrite C1 in *. auto. }
  destruct (isInGroupSt_sound id peerID w2) as (w3 & b & -> & C3 & _ & _ & H3 & _).
  eexists _, _. split; [done|]. cbn. rewrite C3, C2, C1 in *. auto.
Qed.

(** The gate passes a remote caller for one of three reasons. *)
Lemma gate_inv `{Env} caller m n n' :
  isRemote caller = true -> gate caller m n = (n', Ret tt) ->
  ungated (Which m) = true \/ authorised (committed (nstore n)) (remotePeer caller) ReservedGroupRemote \/
  exists n0, isCommandLogCarveOut m (remotePeer caller) n0 = (n', Ret true) /\
    committed (nstore n0) = committed (nstore n).
Proof.
  intros Hr. unfold gate. rewrite Hr. cbn [negb]. destruct (ungated (Which m)); [auto|].
  unfold mbind, D_bind.
  destruct (authorised_sound (remotePeer caller) ReservedGroupRemote n) as (n1 & b & -> & Hc & Hb).
  destruct b; [auto|]. destruct (isCommandLogCarveOut m (remotePeer caller) n1) as [n2 [[|]|e|]] eqn:E; try done.
  intros [= <-]. eauto 10.
Qed.
End Membership.

(** * Classes of calls *)

Definition unreserved (key : bytes) : Prop := forall b r, key = b :: r -> b <> SystemKeyPrefix /\ b <> LogKeyPrefix.

(** A pending record: of any kind, at the pending status. *)
Definition pending_write (c : call) : Prop :=
  exists kind id v, asks OpSet (SystemKey kind StatusPending id) v c.

(** A command request whose author is [p]. *)
Definition command_request (p : bytes) (c : call) : Prop :=
  exists key kind unitID ts commandID value payload,
    ParseKey key = Ret (kind, unitID, ts) /\ ParseCommandRequestLogKind kind = Some commandID /\
    EncodeCommandRequestApplyPayload p value = Ret payload /\ asks OpAppendCommandRequest key payload c.

(** A log record that is not a command request. *)
Definition log_write (c : call) : Prop :=
  exists key kind unitID ts v,
    ParseKey key = Ret (kind, unitID, ts) /\ ParseCommandRequestLogKind kind = None /\ asks OpSet key v c.

(** Plain keys and transactions on plain keys. *)
Definition user_write (c : call) : Prop :=
  (exists key v, unreserved key /\ asks OpSet key v c) \/
  (exists ops v, Forall (fun o => unreserved (Key o)) ops /\ EncodeTxnPayload ops = Ret v /\ asks OpTxn [] v c).

Definition notification (c : call) : Prop := exists dest buf, c = Sent ExecuteProtocolID dest buf.

Definition stranger_call (p : bytes) (c : call) : Prop := pending_write c \/ command_request p c.

Definition member_call (p : bytes) (c : call) : Prop :=
  stranger_call p c \/ user_write c \/ log_write c \/ notification c.

Lemma rejectReservedKey_Ret key u : rejectReservedKey key = Ret u -> unreserved key.
Proof.
  intros H b r ->. unfold rejectReservedKey in H.
  destruct (byte_eqb b SystemKeyPrefix) eqn:E1; [done|]. destruct (byte_eqb b LogKeyPrefix) eqn:E2; [done|].
  by apply byte_eqb_false in E1, E2.
Qed.

Lemma rejectReservedOps_Ret ops u : rejectReservedOps ops = Ret u -> Forall (fun o => unreserved (Key o)) ops.
Proof.
  induction ops as [|op ops IH]; cbn [rejectReservedOps]; [constructor|].
  destruct (rejectReservedKey (Key op)) as [[]| |] eqn:E; try done. intros Hops. constructor; [by eapply rejectReservedKey_Ret|auto].
Qed.

(** The kind a log bound names is the kind the key parses to. *)
Lemma bound_kind_parse key k kind unitID ts :
  logKindOfBound key = Ret (Some k) -> ParseKey key = Ret (kind, unitID, ts) -> k = kind.
Proof.
  unfold logKindOfBound, ParseKey. intros H1 H2. unbind H1. unbind H2. by simplify_eq.
Qed.

Lemma emits_at_try {A B : Type} P n (m : D A) (k : A + error -> D B) :
  EmitsAt P n m -> (forall r, Emits P (k r)) -> EmitsAt P n (tryD m ≫= k).
Proof.
  intros Hm Hk. apply emits_at_bind; [|intros a _; apply Hk].
  unfold EmitsAt, tryD in *. by destruct (m n) as [n' []].
Qed.

(** * The methods *)

Section Methods.
Context `{Env}.

Lemma emits_onSetField m sourceId value : Emits user_write (onSetField m sourceId value).
Proof.
  unfold onSetField, registered. emits.
  apply emits_handleSetForward. intros c Hc. left. eauto using rejectReservedKey_Ret.
Qed.

Lemma emits_onSet m key value : Emits user_write (onSet m key value).
Proof.
  unfold onSet. emits. apply emits_handleSetForward. intros c Hc. left. eauto using rejectReservedKey_Ret.
Qed.

Lemma emits_onTxn m ops : Emits user_write (onTxn m ops).
Proof.
  unfold onTxn. emits. apply emits_handleOpForward. intros c Hc. right. eauto 6 using rejectReservedOps_Ret.
Qed.

Lemma emits_onPermitRequest m kind peer metadata : Emits pending_write (onPermitRequest m kind peer metadata).
Proof.
  unfold onPermitRequest. emits. apply emits_handleSetForward. intros c Hc. by do 3 eexists.
Qed.

(** The author of a command request is the authenticated caller. *)
Lemma emits_onLogAppend caller m key value :
  isRemote caller = true ->
  Emits (fun c => command_request (remotePeer caller) c \/ log_write c) (onLogAppend caller m key value).
Proof.
  intros Hr. unfold onLogAppend. rewrite Hr. emits; subst.
  - apply emits_handleOpForward. intros c Hask. left. by do 7 eexists.
  - apply emits_handleSetForward. intros c Hask. right. by do 5 eexists.
Qed.

(** ... and a caller the carve-out let in can only append command requests. *)
Lemma emits_carved_logAppend caller m key value n0 n1 :
  isRemote caller = true -> Body m = E_logAppend key value ->
  isCommandLogCarveOut m (remotePeer caller) n0 = (n1, Ret true) ->
  Emits (command_request (remotePeer caller)) (onLogAppend caller m key value).
Proof.
  intros Hr HB Hcarve. unfold isCommandLogCarveOut in Hcarve. rewrite HB in Hcarve.
  unfold boundKind in Hcarve. destruct key as [k|]; [|done]. cbn [rd] in Hcarve.
  unfold mbind, D_bind, liftD in Hcarve.
  destruct (logKindOfBound k) as [[kind0|]| |] eqn:Hkind; try done.
  destruct (ParseCommandRequestLogKind kind0) as [c0|] eqn:Hc0; [|done].
  unfold onLogAppend. rewrite Hr.
  apply emits_lift_bind. intros k' [= <-]. apply emits_lift_bind. intros v _. apply emits_lift_bind. intros b _.
  destruct (negb b); [apply emits_lift|].
  apply emits_lift_bind. intros [[kind unitID] ts] Hk.
  rewrite <- (bound_kind_parse _ _ _ _ _ Hkind Hk), Hc0.
  apply emits_lift_bind. intros pl Hpl. emits. apply emits_handleOpForward. intros c Hask.
  exists k, kind0, unitID, ts, c0, v, pl. by rewrite (bound_kind_parse _ _ _ _ _ Hkind Hk) in *.
Qed.

Lemma emits_onExecute m sourceId destinationId value : Emits notification (onExecute m sourceId destinationId value).
Proof.
  unfold onExecute, dispatchExecute, sendExecute. emits; apply emits_exchange; by do 2 eexists.
Qed.
End Methods.

(** * Dispatch *)

(** Events that set up or change the cluster membership of this node. *)
Definition joins (w : Event_Which) : bool :=
  match w with Event_Which_bootstrapOrJoinCluster | Event_Which_addLearner => true | _ => false end.

Section Dispatch.
Context `{Env} (caller : callerIdentity) (n : node).
Context (Hremote : isRemote caller = true) (Hvoter : currentVoter n (remotePeer caller) = false).

Lemma dispatch_member m :
  localOnly (Which m) = None -> joins (Which m) = false ->
  EmitsAt (member_call (remotePeer caller)) n (dispatch caller m).
Proof using Hremote Hvoter.
  unfold dispatch, Which. destruct (Body m) eqn:HB; intros Hl Hj; try discriminate;
    try (apply emits_at_requireVoter; done); apply emits_at.
  - unfold onSetKey. emits.
  - eapply emits_weaken; [|apply emits_onSetField]. unfold member_call. auto.
  - unfold onGetKey, registered. emits.
  - unfold onGetFieldByRegistry, registered, handleGet. emits.
  - unfold onGetFieldByKey, handleGet. emits.
  - eapply emits_weaken; [|apply emits_onSet]. unfold member_call. auto.
  - eapply emits_weaken; [|apply emits_onExecute]. unfold member_call. auto.
  - unfold onPollExecute. emits.
  - unfold onListRange. emits.
  - eapply emits_weaken; [|by apply emits_onLogAppend]. unfold member_call, stranger_call. naive_solver.
  - emits.
  - eapply emits_weaken; [|apply emits_onTxn]. unfold member_call. auto.
  - unfold onGetVersion. emits.
  - emits.
  - emits.
  - emits.
  - emits.
  - eapply emits_weaken; [|apply emits_onPermitRequest]. unfold member_call, stranger_call. auto.
  - emits.
Qed.

(** A caller that is in no group gets past the gate with the exempted events
    and the carve-out only. *)
Lemma dispatch_stranger m :
  localOnly (Which m) = None -> joins (Which m) = false ->
  ungated (Which m) = true \/ (exists n0 n1, isCommandLogCarveOut m (remotePeer caller) n0 = (n1, Ret true)) ->
  EmitsAt (stranger_call (remotePeer caller)) n (dispatch caller m).
Proof using Hremote Hvoter.
  intros Hl Hj Hgate. unfold dispatch. destruct (Body m) eqn:HB;
    try (apply emits_at_requireVoter; done);
    (destruct Hgate as [Hu|(n0 & n1 & Hc)];
     [unfold Which in Hl, Hj, Hu; rewrite HB in Hl, Hj, Hu; try discriminate
     |try (unfold isCommandLogCarveOut in Hc; rewrite HB in Hc; discriminate)]); apply emits_at.
  - unfold onSetKey. emits.
  - unfold onGetKey, registered. emits.
  - unfold onGetFieldByKey, handleGet. emits.
  - unfold onListRange. emits.
  - eapply emits_weaken; [|by eapply emits_carved_logAppend]. unfold stranger_call. auto.
  - unfold onGetVersion. emits.
  - eapply emits_weaken; [|apply emits_onPermitRequest]. unfold stranger_call. auto.
Qed.
End Dispatch.

(** The steps in front of [dispatch], which call nothing. *)
Lemma emits_at_request `{Env} P caller m crc sig n :
  (forall n1 n2, localOnly (Which m) = None \/ isRemote caller = false -> nraft n1 = nraft n -> nstore n1 = nstore n ->
     gate caller m n1 = (n2, Ret tt) -> nraft n2 = nraft n -> EmitsAt P n2 (dispatch caller m)) ->
  EmitsAt P n (handleShmEvent m crc sig caller).
Proof.
  intros Hd. unfold handleShmEvent. apply emits_at_try; [|intros [?|?]; emits].
  unfold handleRequest. apply emits_at_bind; [apply emits_refuseRemote|]. intros [] Hrefuse.
  assert ((refuseRemote caller (Which m) n).1 = n /\ (localOnly (Which m) = None \/ isRemote caller = false)) as [-> Hl].
  { unfold refuseRemote in *. destruct (isRemote caller); [|auto]. destruct (localOnly (Which m)); [done|auto]. }
  apply emits_at_bind; [apply emits_checkSignature|]. intros [] _.
  assert ((checkSignature m crc sig caller n).1 = n) as -> by (unfold checkSignature; by destruct (RequiresSignature _)).
  apply emits_at_bind; [apply emits_gate|]. intros [] Hgate.
  pose proof (gate_keeps caller m n) as [Hk _]. destruct (gate caller m n) as [n2 r] eqn:Eg. cbn in Hgate, Hk |- *. subst r.
  by apply (Hd n n2).
Qed.
