(* ===== verification/NodeInvariants.v ===== *)
(** Invariants of a node across its operations: every entry the node asks raft
    to apply, on behalf of any caller, is one the state machine's invariants
    assume; and the node's table stays reachable, hence within its caps and
    with unique group names. *)

From S2P Require Import Prelude Store StoreLogic SystemKeys Payloads LogRecord Txn Fsm FsmSpec FsmProps FsmInvariants FsmOps Events Stream Quota Session Node Acl Forward Dial Join Execute Remote Channel Handler HandlerProps.
#[local] Open Scope Z_scope.

(** * Entries *)

(** The entry a call asks for, when it asks for one. *)
Definition entry_of (c : call) : option bytes :=
  match c with
  | Proposed cmd => Some cmd
  | Sent proto _ cmd =>
    if bytes_eqb proto ForwardProtocolID || bytes_eqb proto ForwardConfirmProtocolID then Some cmd else None
  | _ => None
  end.

Definition admissible_entry (cmd : bytes) : Prop :=
  exists op key value, cmd = EncodeCommand op key value /\ admissible op key value.

Definition admissible_call (c : call) : Prop := forall cmd, entry_of c = Some cmd -> admissible_entry cmd.

Lemma asks_admissible op key value c : admissible op key value -> asks op key value c -> admissible_call c.
Proof.
  intros Ha Hask cmd Hcmd. exists op, key, value. split; [|done].
  destruct Hask; unfold entry_of in Hcmd; rewrite ?bytes_eqb_refl, ?orb_true_r in Hcmd; by injection Hcmd as <-.
Qed.

(** Operations other than transactions and confirmations are always admissible. *)
Lemma admissible_plain op key value : op <> OpTxn -> op <> OpConfirm -> admissible op key value.
Proof. by split. Qed.

Lemma asks_plain op key value c : op <> OpTxn -> op <> OpConfirm -> asks op key value c -> admissible_call c.
Proof. intros. eapply asks_admissible; eauto using admissible_plain. Qed.

Lemma not_entry c : entry_of c = None -> admissible_call c.
Proof. intros Hc cmd E. by rewrite Hc in E. Qed.

Section Admissible.
Context `{Env}.
Abbreviation Good m := (Emits admissible_call m) (only parsing).

Lemma good_raftApply op key value : op <> OpTxn -> op <> OpConfirm -> Good (raftApply (EncodeCommand op key value)).
Proof. intros. apply emits_raftApply. eapply asks_plain; eauto with daemon. Qed.

Lemma good_setForward key value allow : Good (handleSetForward key value allow).
Proof. apply emits_handleSetForward. intros c. by apply asks_plain. Qed.

Lemma good_otherForward op key value allow : op <> OpTxn -> op <> OpConfirm -> Good (handleOtherForward op key value allow).
Proof. intros. apply emits_handleConfirmForwardWith; [|done]. intros c. by apply asks_plain. Qed.

Lemma good_confirmForward op key value allow : op <> OpTxn -> op <> OpConfirm -> Good (handleConfirmForward op key value allow).
Proof. intros. rewrite handleConfirmForward_other by done. by apply good_otherForward. Qed.

Lemma good_applySet key value : Good (applySet key value).
Proof. unfold applySet, applyOp. emits. by apply good_raftApply. Qed.
Hint Resolve good_setForward good_otherForward good_confirmForward good_applySet : daemon.

Lemma good_deletePeerGroup peer g : Good (deletePeerGroup peer g).
Proof. unfold deletePeerGroup. emits. Qed.

Lemma good_setPeerGroup peer g : Good (setPeerGroup peer g).
Proof. unfold setPeerGroup. emits. Qed.
Hint Resolve good_deletePeerGroup good_setPeerGroup : daemon.

Lemma good_syncMemberGroups peer role : Good (syncMemberGroups peer role).
Proof. unfold syncMemberGroups, ensurePersonalGroup. emits. Qed.

Lemma good_clearMemberGroups peer : Good (clearMemberGroups peer).
Proof. unfold clearMemberGroups. emits. Qed.

Lemma good_recordClusterMember peer role : Good (recordClusterMember peer role).
Proof. unfold recordClusterMember. emits. Qed.
Hint Resolve good_syncMemberGroups good_clearMemberGroups good_recordClusterMember : daemon.

Lemma good_transfer : Good transferLeadershipToStableVoter.
Proof. unfold transferLeadershipToStableVoter. emits. by apply emits_transfer, not_entry. Qed.

Lemma good_changeConfig c : entry_of c = None -> Good (changeConfig c).
Proof. intros Hc. apply emits_changeConfig; [by apply not_entry|]. by intros cmd ->. Qed.
Hint Resolve good_transfer : daemon.

Lemma good_addServerLine peer addr suffrage : Good (addServerLine peer addr suffrage).
Proof. unfold addServerLine. emits; by apply good_changeConfig. Qed.

Lemma good_removeServerLine peer : Good (removeServerLine peer).
Proof.
  unfold removeServerLine, applyOther, applyConfirmWith. emits; [by apply good_changeConfig|].
  apply emits_logged. emits. by apply good_raftApply.
Qed.
Hint Resolve good_addServerLine good_removeServerLine : daemon.

Lemma good_exchange proto dest payload :
  bytes_eqb proto ForwardProtocolID || bytes_eqb proto ForwardConfirmProtocolID = false -> Good (exchange proto dest payload).
Proof. intros Hp. apply emits_exchange, not_entry. unfold entry_of. by rewrite Hp. Qed.

Lemma good_permitConfirm kind peer allow :
  Good (handleConfirmForward OpConfirm (SystemKey kind StatusPending peer) (SystemKey kind StatusConfirmed peer) allow).
Proof.
  apply emits_handleConfirmForwardWith.
  - intros c. apply asks_admissible. split; [done|]. eauto.
  - intros _. unfold admitClusterJoinIfConfirmed. emits.
Qed.

Lemma good_txn ops v : Forall (fun o => unreserved (Key o)) ops -> EncodeTxnPayload ops = Ret v -> admissible OpTxn [] v.
Proof.
  intros Hops Henc. split; [|done]. intros _ ops' Hdec. rewrite (DecodeTxnPayload_Encode _ _ Henc) in Hdec.
  injection Hdec as <-. eapply Forall_impl; [exact Hops|]. intros o Ho [r E]. by destruct (Ho _ _ E).
Qed.

Lemma user_write_admissible c : user_write c -> admissible_call c.
Proof.
  intros [(key & v & _ & Hc)|(ops & v & Hops & Henc & Hc)]; [by apply (asks_plain OpSet key v)|].
  eapply asks_admissible; eauto using good_txn.
Qed.

(** Joining, recruiting, executing. *)

Lemma good_ensureReservedGroup id : Good (ensureReservedGroup id).
Proof. unfold ensureReservedGroup. emits. Qed.
Hint Resolve good_ensureReservedGroup : daemon.

Lemma emits_initRaft P : Emits P initRaft.
Proof.
  intros n. unfold EmitsAt, initRaft. destruct (nraft n); [apply rtc_refl|].
  destruct (ninits n) as [|[] ?]; apply rtc_once, step_view.
Qed.

Lemma emits_awaitLeader P : Emits P awaitLeader.
Proof. intros n. apply emits_at_step. unfold awaitLeader. destruct (pollOwnLeadership _ _). apply step_view. Qed.
Hint Resolve emits_initRaft emits_awaitLeader : daemon.

Lemma good_handleAdd addr : Good (handleAdd addr).
Proof.
  unfold handleAdd, ensureReservedGroups, ensureDefaultPublicCommand, join. emits.
  - by apply good_changeConfig.
  - by apply good_exchange.
Qed.

Lemma good_forwardJoin leaderID peer addr suffrage token : Good (forwardJoin leaderID peer addr suffrage token).
Proof. unfold forwardJoin, dialForward. emits. by apply good_exchange. Qed.
Hint Resolve good_handleAdd good_forwardJoin : daemon.

Lemma good_handleAddDispatch claimed addr remote : Good (handleAddDispatch claimed addr remote).
Proof. unfold handleAddDispatch, handleAddLearner. emits. Qed.

Lemma good_leaveCluster : Good leaveCluster.
Proof. unfold leaveCluster, lineError, forwardLeave, dialForward. emits. by apply good_exchange. Qed.

Lemma good_kickPeer target : Good (kickPeer target).
Proof. unfold kickPeer, lineError, forwardKick, dialForward. emits. by apply good_exchange. Qed.

Lemma good_dialAndPushRecruit ticket suffrage : Good (dialAndPushRecruit ticket suffrage).
Proof. unfold dialAndPushRecruit, mintJoinInvite. emits. by apply good_exchange. Qed.

Lemma good_dialAndRedeem addr token : Good (dialAndRedeemExecInvite addr token).
Proof. unfold dialAndRedeemExecInvite. emits. by apply good_exchange. Qed.

Lemma good_dispatchExecute src dest value : Good (dispatchExecute src dest value).
Proof. unfold dispatchExecute, sendExecute. emits. by apply good_exchange. Qed.

Hint Resolve good_handleAddDispatch good_leaveCluster good_kickPeer good_dialAndPushRecruit good_dialAndRedeem
  good_dispatchExecute good_permitConfirm : daemon.

Lemma good_client dest buf : admissible_call (Sent ClientProtocolID dest buf).
Proof. by apply not_entry. Qed.

Lemma good_channel dest buf : admissible_call (Sent ChannelProtocolID dest buf).
Proof. by apply not_entry. Qed.

(** Requests. *)
Lemma good_onLogAppend caller m key value : Good (onLogAppend caller m key value).
Proof. unfold onLogAppend. emits. apply emits_handleOpForward. intros c. by apply asks_plain. Qed.

Lemma good_dispatch caller m : Good (dispatch caller m).
Proof.
  unfold dispatch. destruct (Body m);
    try (eapply emits_weaken; [apply user_write_admissible|]; first [apply emits_onSet|apply emits_onSetField|apply emits_onTxn]);
    try apply good_onLogAppend;
    unfold onSetKey, onGetKey, onGetFieldByRegistry, onGetFieldByKey, onBootstrapOrJoin, onAddLearner, onExecute,
      onPollExecute, onListRange, onLeave, onExecInviteRedeem, onJoinRequestCreate, onJoinRequestCancel, onRecruit, onKick,
      onGetVersion, onGroupPut, onGroupDelete, onCommandPut, onCommandDelete, onStationPut, onStationDelete,
      onGroupCommandPut, onGroupCommandDelete, onGroupCommand, onPeerGroupPut, onPeerGroupDelete, onPeerGroup,
      onPermitRequest, onPermitConfirm, onPermitRevoke, onJoinInviteCreate, onJoinInviteRevoke, onExecInviteCreate,
      onExecInviteRevoke, onPublicAccess, onDialSubmitCommand, onDialQueryCommandLog, onChannelOpen, onChannelSend,
      onChannelPoll, onChannelListen, onChannel, registered, handleGet, setJoinRequestToken, cancelJoinRequestToken; emits;
    auto using good_client, good_channel, emits_publicAccess, emits_dialAndSubmit, emits_dialAndQuery,
      emits_dispatchChannelOpen with daemon.
Qed.

Lemma good_handleShmEvent m crc sig caller : Good (handleShmEvent m crc sig caller).
Proof.
  intros n. apply emits_at_request. intros n1 n2 _ _ _ _ _. by apply good_dispatch.
Qed.

(** Streams of other protocols. *)
Lemma good_admitOrLodgeJoin req : Good (admitOrLodgeJoin req).
Proof. unfold admitOrLodgeJoin, consumeJoinInvite, lodgeJoinRequest. emits. by apply good_raftApply. Qed.
Hint Resolve good_admitOrLodgeJoin : daemon.

Lemma good_handleJoinStream input : Good (handleJoinStream input).
Proof. unfold handleJoinStream. emits. Qed.

Lemma good_handleForwardJoinStream input : Good (handleForwardJoinStream input).
Proof. unfold handleForwardJoinStream. emits. Qed.

Lemma good_handleRecruitStream input : Good (handleRecruitStream input).
Proof. unfold handleRecruitStream, consumeJoinRequestToken. emits. Qed.

Lemma good_handleExecuteStream buf : Good (handleExecuteStream buf).
Proof. unfold handleExecuteStream, answerError, receiveExecute. emits. Qed.

Lemma good_appendRecord kind unitID author fields narrative : Good (appendExecInviteLogRecord kind unitID author fields narrative).
Proof. unfold appendExecInviteLogRecord. emits. Qed.

Lemma good_sendExecute dest value : Good (sendExecute dest value).
Proof. unfold sendExecute. emits. by apply good_exchange. Qed.
Hint Resolve good_appendRecord good_sendExecute : daemon.

Lemma good_processExecInviteRedeem buf : Good (processExecInviteRedeem buf).
Proof.
  unfold processExecInviteRedeem, applyConsumeExecInvite, newExecInviteInstanceID, writeExecInviteCommandRequest, pokeTarget.
  emits. by apply good_raftApply.
Qed.
Hint Resolve good_processExecInviteRedeem : daemon.

Lemma good_handleExecInviteRedeemStream buf : Good (handleExecInviteRedeemStream buf).
Proof. unfold handleExecInviteRedeemStream, forwardExecInviteRedeem, dialForward. emits. by apply good_exchange. Qed.

Lemma good_handleForwardExecInviteRedeemStream buf : Good (handleForwardExecInviteRedeemStream buf).
Proof. unfold handleForwardExecInviteRedeemStream. emits. Qed.

Lemma good_handleForwardLeaveStream remote : Good (handleForwardLeaveStream remote).
Proof. unfold handleForwardLeaveStream. emits. Qed.

Lemma good_handleForwardKickStream remote buf : Good (handleForwardKickStream remote buf).
Proof. unfold handleForwardKickStream. emits. Qed.

Lemma good_onLeadershipChange : Good onLeadershipChange.
Proof. unfold onLeadershipChange. emits. Qed.
End Admissible.

(** * The invariant *)

Lemma wrap_err_Ret {A : Type} fmt (r : gores A) a : wrap_err fmt r = Ret a -> r = Ret a.
Proof. by destruct r. Qed.

(** The entries of other nodes are admissible too: they run this code. *)
Definition sound_apply (r : apply_reply) : Prop :=
  match r with
  | Rejected => True
  | Unknown before _ | Committed before _ _ => Forall sound_log before
  end.

Definition sound_net (r : net_reply) : Prop := match r with Reply _ behind => Forall sound_log behind | _ => True end.

Record node_inv (n : node) : Prop := {
  inv_pending : pending (nstore n) = None;
  inv_reachable : reachable (committed (nstore n));
  inv_inbox : blen (ninbox n) <= maxExecuteInbox;
  inv_applies : Forall sound_apply (napplies n);
  inv_net : Forall sound_net (nnet n);
  inv_channels : channels_ok (channels (nio n));
}.

(** Entries whose length fits the 32-bit length fields of their framing. *)
Definition small_call (c : call) : Prop := forall cmd, entry_of c = Some cmd -> blen cmd < 2 ^ 32.

Lemma admissible_sound cmd ts : admissible_entry cmd -> blen cmd < 2 ^ 32 -> sound_log (mkLog cmd ts).
Proof.
  intros (op & key & value & -> & Ha) Hsmall op' key' value' Hd. cbn [Data] in Hd.
  rewrite decode_EncodeCommand in Hd; [by injection Hd as <- <- <-|].
  unfold EncodeCommand in Hsmall. revert Hsmall. lens.
Qed.

Lemma apply_reachable l w :
  sound_log l -> pending w = None -> reachable (committed w) ->
  pending (Apply l w).1 = None /\ reachable (committed (Apply l w).1).
Proof.
  intros Hl Hp Hr. split; [|by apply reach_apply]. by destruct (Apply_refines l _ w Hp eq_refl) as (w' & r & -> & Hp' & _).
Qed.

(** The state outside the store that raft's applying leaves alone. *)
Lemma applyOthers_inv ls n :
  Forall sound_log ls -> node_inv n -> node_inv (applyOthers ls n).1.
Proof.
  intros Hls. revert n. induction Hls as [|l ls Hl _ IH]; intros n Hn; [done|]. cbn [applyOthers].
  destruct (apply_reachable l (nstore n) Hl) as [Hp Hr]; [apply Hn..|].
  unfold mbind, D_bind, tryD, onStore. destruct (Apply l (nstore n)) as [w [v|e|]]; cbn in *;
    [apply IH|apply IH|]; by destruct Hn; constructor.
Qed.

Lemma apply_inv l n : sound_log l -> node_inv n -> node_inv (tryD (onStore (Apply l)) n).1.
Proof.
  intros Hl Hn. destruct (apply_reachable l (nstore n) Hl) as [Hp Hr]; [apply Hn..|].
  unfold tryD, onStore. destruct (Apply l (nstore n)) as [w [v|e|]]; cbn in *; by destruct Hn; constructor.
Qed.

Lemma bind_inv {A B : Type} (m : D A) (k : A -> D B) n :
  node_inv (m n).1 -> (forall a n', node_inv n' -> node_inv (k a n').1) -> node_inv ((m ≫= k) n).1.
Proof. intros Hm Hk. unfold mbind, D_bind. destruct (m n) as [n' [a| |]]; cbn in *; auto. Qed.

Lemma raftApply_inv cmd n : (forall ts, sound_log (mkLog cmd ts)) -> node_inv n -> node_inv (raftApply cmd n).1.
Proof.
  intros Hcmd Hn. unfold raftApply. unfold mbind at 1 2 3, D_bind at 1 2 3. unfold modify, gets. cbn.
  destruct Hn as [Hp Hr Hi Ha Hnet Hch]. destruct (napplies n) as [|r rest]; [by constructor|].
  apply Forall_cons in Ha as [Hb Hrest].
  destruct r as [|before ts|before ts index]; cbn; [by constructor| |];
    (apply bind_inv; [apply applyOthers_inv; [done|by constructor]|]); intros _ n1 Hn1;
    (apply bind_inv; [by apply apply_inv|]); intros res n2 Hn2; done.
Qed.

Lemma push_bounded e entries : blen entries <= maxExecuteInbox -> blen (push e entries) <= maxExecuteInbox.
Proof.
  unfold push, maxExecuteInbox. intros Hb. destruct (Z.leb_spec 256 (blen entries)); [|lens].
  destruct entries; cbn [tail]; lens.
Qed.

(** Every step of a node preserves the invariant. *)
Lemma node_step_inv n n' :
  node_step admissible_call n n' -> Forall small_call (ncalls n') -> node_inv n -> node_inv n'.
Proof.
  intros Hs Hsmall Hn. destruct Hs as [cmd Ha|c Hc Hne|proto dest pl Hc|c Hc Hne| |w Hc Hp Hh|rf views inits|id v|token|e|e rest He|x Hx|now].
  - apply raftApply_inv; [|done]. intros ts. apply admissible_sound; [by apply Ha|].
    rewrite calls_raftApply in Hsmall. apply Forall_app in Hsmall as [_ [Hsm _]%Forall_cons]. by apply Hsm.
  - unfold changeConfig, mbind, D_bind, modify, gets. cbn.
    destruct (nconfigs n) as [|[servers|] rest]; cbn; try (by destruct Hn; constructor).
    destruct (nraft n); by destruct Hn; constructor.
  - unfold exchange. unfold mbind at 1 2 3, D_bind at 1 2 3. unfold modify, gets. cbn.
    destruct Hn as [Hp Hr Hi Ha Hnet Hch]. destruct (nnet n) as [|r rest]; [by constructor|].
    apply Forall_cons in Hnet as [Hb Hrest]. destruct r; cbn; try by constructor.
    apply bind_inv; [apply applyOthers_inv; [done|by constructor]|done].
  - by destruct Hn; constructor.
  - unfold randomBytes, mbind, D_bind, modify, gets. destruct (nrand n) as [|[] ?]; by destruct Hn; constructor.
  - destruct Hn as [Hpn Hr Hi Ha Hnet Hch]. constructor; cbn; [by rewrite Hp|by rewrite Hc|done..].
  - by destruct Hn; constructor.
  - by destruct Hn; constructor.
  - by destruct Hn; constructor.
  - destruct Hn. constructor; try done. by apply push_bounded.
  - destruct Hn as [Hp Hr Hi Ha Hnet Hch]. constructor; try done. cbn. unfold pop in He.
    destruct (ninbox n); [done|]. injection He as -> ->. revert Hi. lens.
  - destruct Hn. constructor; try done. by apply Hx.
  - by destruct Hn; constructor.
Qed.

(** ... hence every run does. *)
Lemma emits_inv {A : Type} n (m : D A) :
  EmitsAt admissible_call n m -> Forall small_call (ncalls (m n).1) -> node_inv n -> node_inv (m n).1.
Proof.
  unfold EmitsAt. generalize (m n).1. intros n' Hrun. induction Hrun as [|x y z Hs Hrun IH]; [done|].
  intros Hsmall Hx. apply IH; [done|]. apply (node_step_inv x); [done| |done].
  destruct (emits_calls (A := unit) admissible_call y (fun _ => (z, Ret tt)) Hrun) as (new & E & _). cbn in E.
  rewrite E in Hsmall. by apply Forall_app in Hsmall as [? _].
Qed.

(** * Traffic *)

(** What reaches a node, from its operator, from peers and from raft. *)
Inductive inbound : Type :=
| Request (m : Msg) (crc : Z) (sig : bytes) (caller : callerIdentity)
| JoinRequest (input : bytes)
| ForwardedJoin (input : bytes)
| Recruitment (input : bytes)
| Notification (buf : gores bytes)
| Redemption (buf : gores bytes)
| ForwardedRedemption (buf : gores bytes)
| Leaving (remote : bytes)
| Kicking (remote : bytes) (buf : gores bytes)
| ForwardedSet (buf : gores bytes)
| ForwardedConfirm (remote : bytes) (buf : gores bytes)
| LeadershipChange
| IncomingChannel (s : stream)
| ChannelData (channelID x : bytes) (e : option error)
| UploadData (channelID : bytes) (k : nat) (x : bytes) (e : option error)
| Clock (now : Z).

Definition discard {A} (m : D A) : D unit := _ ← m; mret tt.

Definition serve `{Env} (i : inbound) : D unit :=
  match i with
  | Request m crc sig caller => discard (handleShmEvent m crc sig caller)
  | JoinRequest input => discard (handleJoinStream input)
  | ForwardedJoin input => discard (handleForwardJoinStream input)
  | Recruitment input => discard (handleRecruitStream input)
  | Notification buf => discard (handleExecuteStream buf)
  | Redemption buf => discard (handleExecInviteRedeemStream buf)
  | ForwardedRedemption buf => discard (handleForwardExecInviteRedeemStream buf)
  | Leaving remote => discard (handleForwardLeaveStream remote)
  | Kicking remote buf => discard (handleForwardKickStream remote buf)
  | ForwardedSet buf => discard (handleForwardSetStream buf)
  | ForwardedConfirm remote buf => discard (handleForwardConfirmStream remote buf)
  | LeadershipChange => onLeadershipChange
  | IncomingChannel s => discard (handleChannelStream s)
  | ChannelData channelID x e => channelArrive channelID x e
  | UploadData channelID k x e => uploadArrive channelID k x e
  | Clock now => modify (set_now now)
  end.

Fixpoint serveAll `{Env} (ins : list inbound) (n : node) : node :=
  match ins with
  | [] => n
  | i :: ins' => serveAll ins' (serve i n).1
  end.

(** Forwarded entries are what a node running this code forwards. *)
Definition forwards_soundly (buf : gores bytes) : Prop :=
  forall b op key value, buf = Ret b -> decodeCommand b = Ret (op, key, value) -> admissible op key value.

Definition well_sent (i : inbound) : Prop :=
  match i with
  | ForwardedSet buf | ForwardedConfirm _ buf => forwards_soundly buf
  | _ => True
  end.

Section Traffic.
Context `{Env}.

Lemma good_handleForwardSetStream buf : forwards_soundly buf -> Emits admissible_call (handleForwardSetStream buf).
Proof.
  intros Hbuf. unfold handleForwardSetStream, forwardSetRequest. emits; subst.
  apply emits_handleOpForward. intros c. apply asks_admissible. eauto using wrap_err_Ret.
Qed.

Lemma good_confirmed op key value allow : admissible op key value -> Emits admissible_call (handleConfirmForward op key value allow).
Proof.
  intros Ha. apply emits_handleConfirmForwardWith.
  - intros c. by apply asks_admissible.
  - intros _. unfold admitClusterJoinIfConfirmed. emits. apply good_addServerLine.
Qed.

Lemma good_handleForwardConfirmStream remote buf :
  forwards_soundly buf -> Emits admissible_call (handleForwardConfirmStream remote buf).
Proof.
  intros Hbuf. unfold handleForwardConfirmStream, answerError, forwardConfirmRequest. emits.
  subst. apply good_confirmed. eauto using wrap_err_Ret.
Qed.

Lemma good_serve i : well_sent i -> Emits admissible_call (serve i).
Proof.
  destruct i; intros Hi; unfold serve, discard;
    try (apply emits_bind; [|intros ?; apply emits_ret]);
    eauto using good_handleShmEvent, good_handleJoinStream, good_handleForwardJoinStream, good_handleRecruitStream,
      good_handleExecuteStream, good_handleExecInviteRedeemStream, good_handleForwardExecInviteRedeemStream,
      good_handleForwardLeaveStream, good_handleForwardKickStream, good_handleForwardSetStream,
      good_handleForwardConfirmStream, good_onLeadershipChange with daemon.
  intros n. apply emits_at_step, step_clock.
Qed.

Lemma serveAll_calls ins n :
  Forall well_sent ins -> exists new, ncalls (serveAll ins n) = ncalls n ++ new.
Proof.
  intros Hins. revert n. induction Hins as [|i ins Hi _ IH]; intros n; [exists []; by rewrite app_nil_r|].
  cbn [serveAll]. destruct (IH (serve i n).1) as [new ->].
  destruct (emits_calls _ _ _ (good_serve i Hi n)) as (new' & -> & _). rewrite <- app_assoc. by eexists.
Qed.
End Traffic.

(** * Theorem *)

(** C3 The invariant of a node: whatever requests of the operator, requests of
    remote callers (members or strangers), joins, recruitments, notifications,
    redemptions, forwarded writes, leadership changes, incoming channels and
    channel traffic a node serves, in any order and at any time, its table stays
    one reachable by admissible entries (so within its list caps and with unique
    group names), no transaction stays open, the notification inbox holds at most
    256 entries, at most 64 channels wait to be claimed, and every channel buffers
    at most 4096 chunks of at most 256 KiB.  Forwarded entries are taken
    to be admissible ([well_sent]) and proposed ones shorter than 2^32 bytes. *)
Theorem node_invariant `{Env} (ins : list inbound) (n : node) :
  Forall well_sent ins ->
  Forall small_call (ncalls (serveAll ins n)) ->
  node_inv n -> node_inv (serveAll ins n).
Proof.
  intros Hins. revert n. induction Hins as [|i ins Hi Hins IH]; intros n Hsmall Hn; [done|].
  cbn [serveAll] in *. apply IH; [done|]. apply emits_inv; [by apply good_serve| |done].
  destruct (serveAll_calls ins (serve i n).1 Hins) as [new E]. rewrite E in Hsmall.
  by apply Forall_app in Hsmall as [? _].
Qed.
