(* ===== verification/ForwardProps.v ===== *)
(** Forwarding: the response codec, a write forwarded to the leader succeeds
    exactly when the leader applied it, forwarding takes one hop, and what the
    leader's side does not check. *)

From S2P Require Import Prelude Store StoreLogic SystemKeys Payloads LogRecord Txn Fsm FsmSpec FsmProps FsmInvariants FsmOps Events Stream Quota Session Node Acl Forward Dial Join Execute Remote Channel Handler HandlerProps.
#[local] Open Scope Z_scope.

(** * Lemmas *)

Lemma decode_success index : decodeForwardResponse (writeForwardSuccess index) = Ret (u64 index).
Proof.
  unfold decodeForwardResponse, writeForwardSuccess. codec. rewrite byte_eqb_refl.
  rewrite <- (app_nil_r (be_bytes 8 (u64 index))). apply read_be_hd; [done..|]. apply u64_range.
Qed.

Lemma decode_error `{Env} err : is_fail (decodeForwardResponse (writeForwardError err)) = true.
Proof.
  unfold decodeForwardResponse, writeForwardError. rewrite (proj2 (Z.eqb_neq _ _)) by lens.
  codec. by rewrite byte_eqb_refl.
Qed.

(** Entries of other callers never stop the node. *)
Lemma applyOthers_ret ls n :
  pending (nstore n) = None -> (applyOthers ls n).2 = Ret tt /\ pending (nstore (applyOthers ls n).1) = None.
Proof.
  revert n. induction ls as [|l ls IH]; intros n Hp; [done|]. cbn [applyOthers].
  destruct (Apply_refines l _ (nstore n) Hp eq_refl) as (w & r & E & Hp' & _ & H).
  assert (no_panic r) as Hr.
  { destruct H as [H|(_ & Hf & _)]; [|by destruct r].
    pose proof (applySpec_safe l (committed (nstore n))) as Hs. by rewrite <- H in Hs. }
  unfold mbind, D_bind, tryD, onStore. rewrite E. destruct r; [by apply IH|by apply IH|done].
Qed.

(** They run on the store, in order. *)
Lemma applyOthers_store ls n :
  pending (nstore n) = None -> applyOthers ls n = (set_store (applyAll ls (nstore n)).1 n, Ret tt).
Proof.
  revert n. induction ls as [|l ls IH]; intros n Hp; cbn [applyOthers applyAll]; [by destruct n|].
  destruct (Apply_refines l _ (nstore n) Hp eq_refl) as (w & r & E & Hp' & _ & H).
  assert (no_panic r) as Hr.
  { destruct H as [H|(_ & Hf & _)]; [|by destruct r].
    pose proof (applySpec_safe l (committed (nstore n))) as Hs. by rewrite <- H in Hs. }
  unfold mbind, D_bind, tryD, onStore. rewrite E. destruct r; [| |done]; rewrite IH by done; cbn [nstore set_store]; by destruct (applyAll ls w).
Qed.

Lemma exchange_reply proto dest request n resp behind rest :
  nnet n = Reply resp behind :: rest -> pending (nstore n) = None ->
  (exchange proto dest request n).2 = Ret (Reply resp behind).
Proof.
  intros Hn Hp. unfold exchange. unfold mbind at 1 2 3, D_bind at 1 2 3. unfold modify, gets. cbn. rewrite Hn. cbn.
  unfold mbind, D_bind. destruct (applyOthers_ret behind (set_net rest (record_call (Sent proto dest request) n)) Hp) as [E _].
  destruct (applyOthers behind _) as [n' r]. cbn in E. by subst.
Qed.

Lemma resolve_keeps n : nnet (resolveWriteTarget n).1 = nnet n /\ nstore (resolveWriteTarget n).1 = nstore n /\
  napplies (resolveWriteTarget n).1 = napplies n.
Proof. unfold resolveWriteTarget. by destruct (pollLeader _ _). Qed.

(** The leader's side answers with the outcome of its own write. *)
Lemma forward_stream_answer `{Env} op key value n :
  op = OpSet \/ op = OpAppendCommandRequest \/ op = OpTxn -> blen key + 4 + blen value < 2 ^ 32 ->
  handleForwardSetStream (Ret (EncodeCommand op key value)) n =
    match handleOpForward op key value false n with
    | (n', Ret index) => (n', Ret (writeForwardSuccess index))
    | (n', Fail err) => (n', Ret (writeForwardError err))
    | (n', Panic) => (n', Panic)
    end.
Proof.
  intros Hop Hsize. unfold handleForwardSetStream, forwardSetRequest. unfold mbind at 1 2, D_bind at 1 2.
  unfold tryD at 1. unfold liftD at 1. cbn [wrap_err].
  unfold mbind at 1, D_bind at 1. unfold liftD at 1. rewrite decode_EncodeCommand by done. cbn [wrap_err].
  destruct (negb (byte_eqb op OpSet) && negb (byte_eqb op OpAppendCommandRequest) && negb (byte_eqb op OpTxn)) eqn:E.
  - apply andb_prop in E as [[E1 E2]%andb_prop E3]. apply negb_true_iff in E1, E2, E3.
    apply byte_eqb_false in E1, E2, E3. naive_solver.
  - by destruct (handleOpForward op key value false n) as [n' [index|err|]].
Qed.

(** ** A write on the leader *)

Lemma resolve_leader n :
  leads (nraft n) = true -> resolveWriteTarget n = (set_raft (nraft n) (tail (nviews n)) (ninits n) n, Ret IsLeader).
Proof.
  intros Hl. unfold resolveWriteTarget. destruct (nraft n) as [rf|]; [|done]. cbn in Hl.
  destruct (head (nviews n)) as [[|? ?]|]; cbn; by rewrite Hl.
Qed.

Lemma raftApply_committed cmd n ts index rest :
  napplies n = Committed [] ts index :: rest ->
  raftApply cmd n =
    (set_store (Apply (mkLog cmd ts) (nstore n)).1 (set_applies rest (record_call (Proposed cmd) n)),
     match (Apply (mkLog cmd ts) (nstore n)).2 with
     | Ret v => Ret (inl v, index)
     | Fail e => Ret (inr e, index)
     | Panic => Panic
     end).
Proof.
  intros Hs. unfold raftApply. unfold mbind at 1 2 3, D_bind at 1 2 3. unfold modify, gets. cbn [ncalls napplies record_call].
  rewrite Hs. cbn [tail applyOthers]. unfold mbind, D_bind, mret, D_ret, tryD, onStore. cbn [nstore set_applies record_call].
  by destruct (Apply (mkLog cmd ts) (nstore n)) as [w [v|e|]].
Qed.

(** The same after entries of other callers. *)
Lemma raftApply_after cmd n before ts index rest :
  napplies n = Committed before ts index :: rest -> pending (nstore n) = None ->
  let out := Apply (mkLog cmd ts) (applyAll before (nstore n)).1 in
  raftApply cmd n =
    (set_store out.1 (set_applies rest (record_call (Proposed cmd) n)),
     match out.2 with
     | Ret v => Ret (inl v, index)
     | Fail e => Ret (inr e, index)
     | Panic => Panic
     end).
Proof.
  intros Hs Hp out. unfold raftApply. unfold mbind at 1 2 3, D_bind at 1 2 3. unfold modify, gets. cbn [ncalls napplies record_call].
  rewrite Hs. cbn [tail]. unfold mbind at 1, D_bind at 1. rewrite applyOthers_store by done. cbn [nstore set_applies record_call].
  unfold mbind, D_bind, mret, D_ret, tryD, onStore. cbn [nstore set_store]. fold out. by destruct out as [w [v|e|]].
Qed.

(** What is left of the node after a committed write. *)
Record after_write (n n' : node) (w : world) (rest : list apply_reply) : Prop := {
  after_store : nstore n' = w;
  after_raft : nraft n' = nraft n;
  after_applies : napplies n' = rest;
  after_registry : nregistry n' = nregistry n;
}.

Lemma leader_write `{Env} op key value allow n ts index rest :
  leads (nraft n) = true -> napplies n = Committed [] ts index :: rest ->
  let out := Apply (mkLog (EncodeCommand op key value) ts) (nstore n) in
  exists n', handleOpForward op key value allow n =
    (n', match out.2 with Ret _ => Ret index | Fail e => Fail e | Panic => Panic end) /\ after_write n n' out.1 rest.
Proof.
  intros Hl Hs out. unfold handleOpForward. unfold mbind at 1, D_bind at 1. rewrite (resolve_leader n Hl).
  unfold applyOp. cbv zeta. unfold mbind at 1, D_bind at 1. rewrite (raftApply_committed _ _ ts index rest) by done.
  cbn [nstore set_raft]. fold out. destruct out as [w [v|e|]]; cbn [fst snd]; eexists; (split; [done|]); by constructor.
Qed.

Lemma leader_privileged_write `{Env} op key value allow n ts index rest :
  op <> OpConfirm -> leads (nraft n) = true -> napplies n = Committed [] ts index :: rest ->
  let out := Apply (mkLog (EncodeCommand op key value) ts) (nstore n) in
  exists n', handleOtherForward op key value allow n =
    (n', match out.2 with Ret _ => Ret tt | Fail e => Fail e | Panic => Panic end) /\ after_write n n' out.1 rest.
Proof.
  intros Hop Hl Hs out. unfold handleOtherForward, handleConfirmForwardWith. unfold mbind at 1, D_bind at 1.
  rewrite (resolve_leader n Hl). unfold applyConfirmWith. apply byte_eqb_false in Hop. rewrite Hop.
  unfold mbind at 1, D_bind at 1. rewrite (raftApply_committed _ _ ts index rest) by done.
  cbn [nstore set_raft]. fold out. destruct out as [w [v|e|]]; cbn [fst snd]; eexists; (split; [done|]); by constructor.
Qed.

(** * Theorems *)

(** The answer of the leader is unambiguous: an answer reads as a success only if
    it is the nine bytes a success is written as, with the index it carries; an
    empty, truncated or error answer reads as an error; and reading never
    panics. *)
Theorem forward_response_exact `{Env} (buf : bytes) (index : Z) (err : error) :
  (decodeForwardResponse buf = Ret index <-> buf = writeForwardSuccess index /\ 0 <= index < 2 ^ 64) /\
  is_fail (decodeForwardResponse (writeForwardError err)) = true /\
  no_panic (decodeForwardResponse buf).
Proof.
  split_and!; [split|apply decode_error|].
  - unfold decodeForwardResponse. intros Hd. unbind Hd.
    match goal with E : byte_eqb ?b forwardStatusOK = true |- _ => apply byte_eqb_true in E; subst b end.
    match goal with E : negb (blen buf =? 9) = false |- _ => apply negb_false_iff, Z.eqb_eq in E; rename E into Hlen end.
    match goal with E : idx buf 0 = Ret _ |- _ => apply idx_inv in E as (p & r & -> & Hp) end.
    apply blen_zero in Hp as ->. cbn [app] in *.
    assert (length r = 8%nat) as Hr by (revert Hlen; unfold blen; cbn; lia).
    change (forwardStatusOK :: r) with ([forwardStatusOK] ++ r) in Hd. rewrite read_be_skip in Hd by lens.
    unfold read_be in Hd. rewrite slice_all in Hd by (unfold blen; cbn; lia). injection Hd as <-.
    pose proof (be_value_range r) as Hrange. unfold blen in Hrange. rewrite Hr in Hrange. split; [|done].
    unfold writeForwardSuccess. cbn [app]. f_equal. unfold u64. rewrite Z.mod_small by done.
    symmetry. rewrite <- Hr at 1. apply be_bytes_value.
  - intros [-> Hi]. rewrite decode_success. unfold u64. by rewrite Z.mod_small.
  - unfold decodeForwardResponse. destruct (Z.eqb_spec (blen buf) 0); [done|]. pose proof (blen_nonneg buf).
    destruct (idx_ok buf 0) as [b0 ->]; [lia|]. cbn [mbind gores_bind].
    destruct (byte_eqb b0 forwardStatusOK); [|by destruct (byte_eqb b0 forwardStatusErr)].
    destruct (Z.eqb_spec (blen buf) 9) as [E|]; cbn [negb]; [|done].
    destruct (read_be_ok buf 1 9) as (v & -> & _); [lia..|done].
Qed.

(** C33 A write through a follower: when a follower forwards a write and the answer it
    reads is the one the leader's handler wrote, the follower reports success
    exactly when the leader's own write succeeded, with the leader's log index,
    and an error otherwise. *)
Theorem forwarded_write_faithful `{Env} (follower leader leader' : node) (op : byte) (key value leaderID pid resp : bytes)
  (behind : list Log) (rest : list net_reply) :
  (resolveWriteTarget follower).2 = Ret (ForwardTo leaderID) ->
  peer_Decode leaderID = Ret pid ->
  op = OpSet \/ op = OpAppendCommandRequest \/ op = OpTxn ->
  blen key + 4 + blen value < 2 ^ 32 ->
  pending (nstore follower) = None ->
  handleForwardSetStream (Ret (EncodeCommand op key value)) leader = (leader', Ret resp) ->
  nnet follower = Reply resp behind :: rest ->
  leader' = (handleOpForward op key value false leader).1 /\
  match (handleOpForward op key value false leader).2 with
  | Ret index => (handleOpForward op key value true follower).2 = Ret (u64 index)
  | _ => is_fail (handleOpForward op key value true follower).2 = true
  end.
Proof.
  intros Ht Hpid Hop Hsize Hp Hl Hnet. rewrite forward_stream_answer in Hl by done.
  destruct (handleOpForward op key value false leader) as [n' r]. cbn [fst snd].
  assert ((handleOpForward op key value true follower).2 = decodeForwardResponse resp) as ->.
  { destruct (resolve_keeps follower) as (Hn & Hs & _). unfold handleOpForward. unfold mbind at 1, D_bind at 1.
    destruct (resolveWriteTarget follower) as [f1 t]. cbn in Ht, Hn, Hs |- *. subst t.
    unfold forwardOp, dialForward. unfold mbind at 1, D_bind at 1. unfold wrapD. unfold mbind at 1, D_bind at 1.
    unfold liftD at 1. rewrite Hpid. cbn [wrap_err].
    pose proof (exchange_reply ForwardProtocolID pid (EncodeCommand op key value) f1 resp behind rest) as Hex.
    rewrite Hn, Hs in Hex. specialize (Hex Hnet Hp).
    destruct (exchange ForwardProtocolID pid (EncodeCommand op key value) f1) as [f2 e]. cbn in Hex. by subst e. }
  destruct r as [index|err|]; simplify_eq; (split; [done|]); [apply decode_success|apply decode_error].
Qed.

(** Forwarding takes one hop: serving a forwarded write never opens a stream, so it
    cannot be forwarded again; all it can do is propose the entry to raft. *)
Theorem forwarding_one_hop `{Env} (buf : gores bytes) (n : node) :
  exists new, ncalls (handleForwardSetStream buf n).1 = ncalls n ++ new /\
    Forall (fun c => exists cmd, c = Proposed cmd) new.
Proof.
  apply emits_calls. revert n. change (Emits (fun c => exists cmd, c = Proposed cmd) (handleForwardSetStream buf)).
  unfold handleForwardSetStream, forwardSetRequest, handleOpForward, applyOp. by emits.
Qed.

(** C39 The forward-set protocol accepts a transaction on reserved keys from any peer:
    the entry below adds [p] to the cluster group, the leader's handler commits
    it without looking at the sender or at the keys, and [p] is authorised as a
    cluster member from then on. *)
Theorem forward_txn_bypass `{Env} (n : node) (p txn : bytes) (ts index : Z) (rest : list apply_reply) :
  leads (nraft n) = true ->
  healthy (nstore n) -> pending (nstore n) = None ->
  napplies n = Committed [] ts index :: rest ->
  blen p <= 0xFFF0 ->
  EncodeTxnPayload [mkTxnOp TxnOpSet (relation_key KindPeerGroup p ReservedGroupCluster) []] = Ret txn ->
  member (committed (nstore (handleForwardSetStream (Ret (EncodeCommand OpTxn [] txn)) n).1)) p ReservedGroupCluster.
Proof.
  intros Hlead Hh Hp Hsched Hsize Htxn.
  assert (blen txn <= 0x20000) as Hlen.
  { unfold EncodeTxnPayload in Htxn. cbn [blen length] in Htxn. destruct (0xFFFF <? _); [done|].
    destruct (checkTxnOps _); [|done..]. cbn [mbind gores_bind map concat] in Htxn. apply (inj Ret) in Htxn as <-.
    unfold putTxnOp, relation_key. cbn [Op Key Value]. pose proof (blen_nonneg p).
    assert (blen ReservedGroupCluster = 7) by reflexivity. lens. }
  rewrite forward_stream_answer; [|auto|pose proof (blen_nonneg txn); lens].
  destruct (leader_write OpTxn [] txn false n ts index rest Hlead Hsched) as (n' & E & Hafter). rewrite E.
  set (l := mkLog (EncodeCommand OpTxn [] txn) ts) in *.
  assert (carries l OpTxn [] txn) as Hc by (apply decode_EncodeCommand; pose proof (blen_nonneg txn); lens).
  pose proof (apply_healthy l (nstore n) Hp Hh) as Happ. revert Happ. spec_of Hc. unfold specTxn.
  rewrite (DecodeTxnPayload_Encode _ _ Htxn). intros Happ. injection Happ as Hcom Hres. rewrite Hres. cbn [fst].
  unfold member. rewrite (after_store _ _ _ _ Hafter), Hcom.
  change (execOp ?t (mkTxnOp TxnOpSet ?k ?v)) with (<[k := v]> t). rewrite lookup_insert_eq. by eexists.
Qed.
