(* ===== verification/JoinProps.v ===== *)
(** Joining: the join line and invite tokens read back to what was sent,
    invites grant exactly what they record, a remote peer can only add itself
    as a learner, member groups follow the role, and leadership moves to stable
    addresses only. *)

From S2P Require Import Prelude Store StoreLogic SystemKeys Payloads LogRecord Txn Hex Fsm FsmSpec FsmProps FsmInvariants FsmOps Events Stream Quota Session Node Acl Forward Dial Join Execute Remote Channel Handler HandlerProps NodeInvariants ForwardProps.
#[local] Open Scope Z_scope.

(** * Lemmas on text *)

(** Printable text, spaces included. *)
Definition printable (s : bytes) : Prop := Forall (fun b => 0x20 <= byte_to_Z b <= 0x7E) s.

Lemma plain_printable s : plain s -> printable s.
Proof. intros H. eapply Forall_impl; [exact H|]. cbn. lia. Qed.

Lemma cut_newline_app l r : printable l -> cut_newline (l ++ newline :: r) = Some l.
Proof.
  induction 1 as [|x l Hx _ IH]; [done|]. cbn [app cut_newline].
  destruct (byte_eqb x newline) eqn:E; [|by rewrite IH].
  apply byte_eqb_true in E as ->. change (byte_to_Z newline) with 10 in Hx. lia.
Qed.

Lemma dropCR_printable l : printable l -> dropCR l = l.
Proof.
  intros Hl. unfold dropCR. destruct (reverse l) as [|c r] eqn:E; [done|].
  assert (c ∈ l) as Hc by (rewrite <- elem_of_reverse, E; apply list_elem_of_here).
  destruct (byte_eqb c Byte.x0d) eqn:Ec; [|done]. apply byte_eqb_true in Ec as ->.
  unfold printable in Hl. rewrite Forall_forall in Hl. specialize (Hl _ Hc).
  change (byte_to_Z Byte.x0d) with 13 in Hl. cbn in Hl. lia.
Qed.

Lemma scanLine_printable l r : printable l -> blen l < 65536 -> scanLine (l ++ newline :: r) = Ret (Some l).
Proof.
  intros Hl Hlen. unfold scanLine. rewrite cut_newline_app by done.
  rewrite (proj2 (Z.ltb_lt _ _)) by done. by rewrite dropCR_printable.
Qed.

Lemma cut_hash_app a b : Byte.x23 ∉ a -> cut_hash (a ++ Byte.x23 :: b) = Some (a, b).
Proof.
  induction a as [|x a IH]; intros Ha; [done|]. apply not_elem_of_cons in Ha as [Hx Ha]. cbn [app cut_hash].
  destruct (byte_eqb x Byte.x23) eqn:E; [by apply byte_eqb_true in E|]. by rewrite IH.
Qed.

Lemma suffrage_word_ok s : plain (suffrageWord s) /\ suffrageWord s <> [] /\
  parseSuffrage (suffrageWord s) = Ret (match s with Nonvoter => Nonvoter | _ => Voter end).
Proof. destruct s; (split; [repeat constructor; vm_compute; discriminate|done]). Qed.

(** The line without its newline. *)
Definition joinText (peer addr : bytes) (suffrage : ServerSuffrage) (token : bytes) : bytes :=
  peer ++ [space] ++ addr ++ [space] ++ suffrageWord suffrage ++ (if 0 <? blen token then [space] ++ hex_encode token else []).

Lemma joinLine_text peer addr suffrage token : joinLine peer addr suffrage token = joinText peer addr suffrage token ++ [newline].
Proof. unfold joinLine, joinText. by rewrite <- !app_assoc. Qed.

Lemma joinText_printable peer addr suffrage token : plain peer -> plain addr -> printable (joinText peer addr suffrage token).
Proof.
  intros Hp Ha. destruct (suffrage_word_ok suffrage) as [Hw _].
  assert (printable [space]) as Hs by (repeat constructor; vm_compute; discriminate).
  unfold joinText, printable in *. rewrite !Forall_app. split_and!; try done; try by apply plain_printable.
  destruct (0 <? blen token); [|constructor]. rewrite Forall_app. split; [done|]. apply plain_printable, hex_plain.
Qed.

(** * Theorems on text *)

(** The join request a node sends is the one the leader reads: peer id, address,
    suffrage and invite token come back unchanged. *)
Theorem join_line_roundtrip (peer addr token : bytes) (suffrage : ServerSuffrage) :
  plain peer -> plain addr -> peer <> [] -> addr <> [] -> suffrage <> Staging ->
  blen (joinLine peer addr suffrage token) <= 65536 ->
  parseJoinRequest (joinLine peer addr suffrage token) = Ret (mkJoinRequest peer addr suffrage token).
Proof.
  intros Hp Ha Hpn Han Hs Hlen. rewrite joinLine_text in *. unfold parseJoinRequest.
  rewrite scanLine_printable; [|by apply joinText_printable|revert Hlen; lens]. cbn [mbind gores_bind].
  destruct (suffrage_word_ok suffrage) as (Hw & Hwn & Hparse).
  assert (match suffrage with Nonvoter => Nonvoter | _ => Voter end = suffrage) as E by (by destruct suffrage).
  rewrite E in Hparse. unfold joinText, Fields. cbn [app].
  rewrite fields_word, fields_word by done.
  destruct (Z.ltb_spec 0 (blen token)) as [Ht|Ht].
  - cbn [app]. rewrite fields_word, fields_last by auto using hex_plain, hex_nonempty.
    unfold joinFields. rewrite Hparse. cbn [mbind gores_bind].
    destruct (bytes_eqb (hex_encode token) []) eqn:Et; [apply bytes_eqb_true in Et; by destruct token|].
    by rewrite hex_roundtrip.
  - assert (token = []) as -> by (apply blen_zero; pose proof (blen_nonneg token); lia).
    rewrite app_nil_r, fields_last by done. unfold joinFields. by rewrite Hparse.
Qed.

(** An address with an invite token appended splits into the address and the
    token; an address without one is left alone. *)
Theorem invite_token_roundtrip (addr token : bytes) :
  Byte.x23 ∉ addr ->
  splitInviteToken (addr ++ [Byte.x23] ++ hex_encode token) = Ret (addr, token) /\
  splitInviteToken addr = Ret (addr, []).
Proof.
  intros Ha. unfold splitInviteToken. cbn [app]. rewrite cut_hash_app, hex_roundtrip by done. split; [done|].
  assert (cut_hash addr = None) as ->; [|done].
  induction addr as [|x addr IH]; [done|]. apply not_elem_of_cons in Ha as [Hx Ha]. cbn [cut_hash].
  destruct (byte_eqb x Byte.x23) eqn:E; [by apply byte_eqb_true in E|]. by rewrite IH.
Qed.

(** * Adding a learner *)

(** What adding [p] as a learner may ask for. *)
Inductive learner_call (p : bytes) : call -> Prop :=
| learner_add addr : learner_call p (AddServer Nonvoter p addr)
| learner_record v c : asks OpSet (ClusterMemberKey p) v c -> learner_call p c
| learner_group v c : asks OpSet (GroupKey p) v c -> learner_call p c
| learner_member g c :
    g = ReservedGroupCluster \/ g = ReservedGroupLearner ->
    asks OpSet (relation_key KindPeerGroup p g) [] c -> learner_call p c
| learner_not_voter c : asks OpDel (relation_key KindPeerGroup p ReservedGroupVoter) [] c -> learner_call p c
| learner_forward dest addr : learner_call p (Sent ForwardJoinProtocolID dest (joinLine p addr Nonvoter [])).

Section Learner.
Context `{Env} (p : bytes).

Lemma emits_otherForward P op key value allow :
  op <> OpConfirm -> (forall c, asks op key value c -> P c) -> Emits P (handleOtherForward op key value allow).
Proof. intros Hop HP. by apply emits_handleConfirmForwardWith. Qed.

Lemma emits_setPeerGroup P g :
  (forall c, asks OpSet (relation_key KindPeerGroup p g) [] c -> P c) -> Emits P (setPeerGroup p g).
Proof.
  intros HP. unfold setPeerGroup. apply emits_lift_bind. intros k [_ ->]%PeerGroupKey_Ret. by apply emits_handleSetForward.
Qed.

Lemma emits_deletePeerGroup P g :
  (forall c, asks OpDel (relation_key KindPeerGroup p g) [] c -> P c) -> Emits P (deletePeerGroup p g).
Proof.
  intros HP. unfold deletePeerGroup. apply emits_lift_bind. intros k [_ ->]%PeerGroupKey_Ret. by apply emits_otherForward.
Qed.

Lemma emits_sync_learner : Emits (learner_call p) (syncMemberGroups p RoleLearner).
Proof.
  unfold syncMemberGroups, ensurePersonalGroup. rewrite byte_eqb_refl. emits.
  - apply emits_otherForward; [done|]. eauto using learner_call.
  - apply emits_setPeerGroup. eauto using learner_call.
  - apply emits_setPeerGroup. eauto using learner_call.
  - apply emits_deletePeerGroup. eauto using learner_call.
Qed.

Lemma emits_add_learner addr : Emits (learner_call p) (addServerLine p addr Nonvoter).
Proof.
  unfold addServerLine. rewrite bool_decide_eq_true_2 by done. emits.
  - apply emits_changeConfig; [constructor|done].
  - apply emits_logged. unfold recordClusterMember. emits. apply emits_handleSetForward. eauto using learner_call.
  - apply emits_logged, emits_sync_learner.
Qed.

Lemma emits_handleAddLearner addr : Emits (learner_call p) (handleAddLearner p addr).
Proof.
  unfold handleAddLearner, forwardJoin, dialForward. pose proof emits_add_learner. emits.
  apply emits_exchange, learner_forward.
Qed.
End Learner.

(** A remote peer can only add itself: whatever id it registered and claims, an
    add-learner request of a remote caller changes the raft configuration, the
    member record and the groups of the caller's own authenticated id only, and
    as a learner, never as a voter. *)
Theorem add_learner_is_self `{Env} (m : Msg) (crc claimed : Z) (sig : bytes) (addr : field)
  (caller : callerIdentity) (n : node) :
  isRemote caller = true -> Body m = E_addLearner claimed addr ->
  exists new, ncalls (handleShmEvent m crc sig caller n).1 = ncalls n ++ new /\
    Forall (learner_call (remotePeer caller)) new.
Proof.
  intros Hr HB. apply emits_calls, emits_at_request. intros n1 n2 _ _ _ _ _.
  unfold dispatch. rewrite HB. apply emits_at. unfold onAddLearner, handleAddDispatch. emits.
  destruct (bytes_eqb l (remotePeer caller)) eqn:E.
  - apply bytes_eqb_true in E as ->. apply emits_handleAddLearner.
  - unfold isRemote in Hr. rewrite Hr in *. done.
Qed.

(** * Setting up or joining a cluster *)

(** What a node may ask for when it is told to bootstrap a cluster or to join one: itself as
    the only server or the join request of itself, and the records every new cluster
    starts with. *)
Inductive setup_call `{Env} : call -> Prop :=
| setup_bootstrap addr : setup_call (BootstrapCluster peerID addr)
| setup_join dest addr suffrage token : setup_call (Sent JoinProtocolID dest (joinLine peerID addr suffrage token))
| setup_group id c :
    id ∈ [ReservedGroupCluster; ReservedGroupVoter; ReservedGroupLearner; ReservedGroupChannel; ReservedGroupRelay;
          ReservedGroupRemote; ReservedGroupExecute; DefaultPublicGroupID] ->
    asks OpSet (GroupKey id) (EncodeGroupPayload id (bool_decide (id = DefaultPublicGroupID))) c -> setup_call c
| setup_command v c : asks OpSet (CommandKey DefaultPublicCommandID) v c -> setup_call c
| setup_link c : asks OpSet (relation_key KindGroupCommand DefaultPublicCommandID DefaultPublicGroupID) [] c -> setup_call c.

Lemma emits_setup_group `{Env} id public :
  id ∈ [ReservedGroupCluster; ReservedGroupVoter; ReservedGroupLearner; ReservedGroupChannel; ReservedGroupRelay;
        ReservedGroupRemote; ReservedGroupExecute; DefaultPublicGroupID] ->
  public = bool_decide (id = DefaultPublicGroupID) ->
  Emits setup_call (handleOtherForward OpSet (GroupKey id) (EncodeGroupPayload id public) true).
Proof. intros Hid ->. apply emits_otherForward; [done|]. intros c Hc. by eapply setup_group. Qed.

Lemma emits_setup_handleAdd `{Env} addr : Emits setup_call (handleAdd addr).
Proof.
  assert (forall id, id ∈ [ReservedGroupCluster; ReservedGroupVoter; ReservedGroupLearner; ReservedGroupChannel; ReservedGroupRelay;
    ReservedGroupRemote; ReservedGroupExecute] -> Emits setup_call (ensureReservedGroup id)) as Hg.
  { intros id Hid. apply emits_wrap, emits_setup_group; [set_solver|]. rewrite bool_decide_false; [done|].
    intros ->. revert Hid. apply (bool_decide_unpack _). by vm_compute. }
  pose proof (emits_initRaft setup_call). pose proof (emits_awaitLeader setup_call).
  unfold handleAdd, ensureReservedGroups, ensureDefaultPublicCommand, join. emits; try (apply Hg; set_solver).
  - apply emits_changeConfig; [constructor|done].
  - apply emits_setup_group; [set_solver|]. by rewrite bool_decide_true.
  - apply emits_otherForward; [done|]. eauto using setup_call.
  - match goal with E : _ = Ret ?k |- _ => apply wrap_err_Ret, GroupCommandKey_Ret in E as [_ ->] end.
    apply emits_otherForward; [done|]. eauto using setup_call.
  - apply emits_exchange, setup_join.
Qed.

(** * Confinement of remote callers *)

(** What an event of the peer [p] may lead to, when events other than the two that join a
    cluster lead to calls in [others] only. *)
Definition confined `{Env} (others : call -> Prop) (p : bytes) (w : Event_Which) : call -> Prop :=
  match w with
  | Event_Which_addLearner => learner_call p
  | Event_Which_bootstrapOrJoinCluster => setup_call
  | _ => others
  end.

Lemma confined_dispatch `{Env} others caller m n :
  isRemote caller = true ->
  (joins (Which m) = false -> EmitsAt others n (dispatch caller m)) ->
  EmitsAt (confined others (remotePeer caller) (Which m)) n (dispatch caller m).
Proof.
  intros Hr Ho. unfold confined, joins, dispatch, Which in *. destruct (Body m) eqn:HB; try (by apply Ho); apply emits_at.
  - unfold onBootstrapOrJoin. emits. apply emits_setup_handleAdd.
  - unfold onAddLearner, handleAddDispatch. emits. destruct (bytes_eqb l (remotePeer caller)) eqn:E.
    + apply bytes_eqb_true in E as ->. apply emits_handleAddLearner.
    + unfold isRemote in Hr. rewrite Hr in *. done.
Qed.

(** C4 Confinement of strangers: a remote caller that is in none of the groups the
    gate checks and is not a voter can make the node ask for nothing but a
    pending record (status byte 0x01, so no catalog record, membership or
    invite) and command requests, the latter always with the caller's own
    authenticated id as author -- except with the two events that join a cluster: by
    [addLearner] it can have itself, and no other peer, added as a learner, with its own
    member record and groups; by [bootstrapOrJoinCluster] it can have the node bootstrap a cluster
    of its own, with the records every cluster starts with, or ask another node to let it join. *)
Theorem stranger_confined `{Env} (m : Msg) (crc : Z) (sig : bytes) (caller : callerIdentity) (n : node) :
  isRemote caller = true ->
  currentVoter n (remotePeer caller) = false ->
  ~ authorised (committed (nstore n)) (remotePeer caller) ReservedGroupRemote ->
  exists new, ncalls (handleShmEvent m crc sig caller n).1 = ncalls n ++ new /\
    Forall (confined (stranger_call (remotePeer caller)) (remotePeer caller) (Which m)) new.
Proof.
  intros Hr Hv Ha. apply emits_calls, emits_at_request. intros n1 n2 Hl Hraft Hst Hg Hraft2.
  destruct Hl as [Hl|Hl]; [|congruence]. apply confined_dispatch; [done|]. intros Hj.
  apply dispatch_stranger; [done| |done..|].
  - unfold currentVoter in *. by rewrite Hraft2.
  - destruct (gate_inv _ _ _ _ Hr Hg) as [Hu|[Hau|(n0 & Hc & _)]]; [auto| |eauto]. by rewrite Hst in Hau.
Qed.

(** C5 Confinement of non-voters: a remote caller that is not a voter, whatever groups
    it is in, can make the node ask for pending records and command requests like a stranger, and in
    addition for keys outside the reserved spaces, log records and transactions over such keys,
    and notifications; no catalog record, membership, invite, confirmation or server change --
    except with the two events that join a cluster: [addLearner], which adds the caller
    itself as a learner, and [bootstrapOrJoinCluster], which has the node bootstrap a cluster or
    ask to join one. *)
Theorem nonvoter_confined `{Env} (m : Msg) (crc : Z) (sig : bytes) (caller : callerIdentity) (n : node) :
  isRemote caller = true ->
  currentVoter n (remotePeer caller) = false ->
  exists new, ncalls (handleShmEvent m crc sig caller n).1 = ncalls n ++ new /\
    Forall (confined (member_call (remotePeer caller)) (remotePeer caller) (Which m)) new.
Proof.
  intros Hr Hv. apply emits_calls, emits_at_request. intros n1 n2 Hl Hraft Hst Hg Hraft2.
  destruct Hl as [Hl|Hl]; [|congruence]. apply confined_dispatch; [done|]. intros Hj.
  apply dispatch_member; [done| |done..]. unfold currentVoter in *. by rewrite Hraft2.
Qed.

(** * Moving leadership *)

(** Leadership is offered only when that gains a stable address: the target is
    another voter of the configuration whose address is direct, this node's own
    address goes through a relay; and such a target is found whenever there is
    one. *)
Theorem transfer_target_spec (servers : list Server) (self id addr : bytes) :
  (preferredLeaderTransferTarget servers self = Some (id, addr) ->
   isRelayServerAddress (serverAddress servers self) = true /\ id <> self /\
   isRelayServerAddress addr = false /\ mkServer Voter id addr ∈ servers) /\
  (preferredLeaderTransferTarget servers self = None ->
   isRelayServerAddress (serverAddress servers self) = true ->
   forall srv, srv ∈ servers -> Suffrage srv = Voter -> ServerID srv <> self ->
     isRelayServerAddress (Address srv) = true).
Proof.
  unfold preferredLeaderTransferTarget. split.
  - destruct (isRelayServerAddress (serverAddress servers self)); cbn [negb]; [|done].
    destruct (find _ servers) as [[sf i a]|] eqn:E; [|done]. intros [= -> ->].
    apply find_some in E as [Hin Hb]. apply list_elem_of_In in Hin. cbn in Hb.
    apply andb_prop in Hb as [Hb Ha]. apply negb_true_iff in Ha. apply negb_true_iff, orb_false_iff in Hb as [Hid Hsf].
    apply negb_false_iff, bool_decide_eq_true in Hsf as ->. apply bool_decide_eq_false in Hid. done.
  - destruct (isRelayServerAddress (serverAddress servers self)); cbn [negb]; [|done].
    destruct (find _ servers) as [[sf i a]|] eqn:E; [done|]. intros _ _ srv Hin Hv Hid.
    pose proof (find_none _ _ E srv) as Hn. apply list_elem_of_In in Hin. specialize (Hn Hin). cbn in Hn.
    rewrite Hv in Hn. destruct (isRelayServerAddress (Address srv)); [done|].
    assert (bytes_eqb (ServerID srv) self = false) as Hb by (by apply bool_decide_eq_false). by rewrite Hb in Hn.
Qed.

(** * Member groups *)

(** A leader whose next proposals are committed, at the given times and indices. *)
Definition leading (n : node) (sched : list (Z * Z)) : Prop :=
  leads (nraft n) = true /\ pending (nstore n) = None /\ napplies n = map (fun '(ts, i) => Committed [] ts i) sched.

Lemma apply_set_success l w key value v :
  pending w = None -> carries l OpSet key value -> (Apply l w).2 = Ret v ->
  exists v', committed (Apply l w).1 = <[key := v']> (committed w).
Proof.
  intros Hp Hc Hr. pose proof (apply_success l w v Hp Hr) as Hs. revert Hs. spec_of Hc. unfold specApplySet.
  destruct (listCap _ _); [cbn [guard]|done..]. destruct (groupNameFree _ _ _); [cbn [guard]|done..].
  destruct (storedValue _ _ _); [cbn [guard]|done..]. intros [= <-]. by eexists.
Qed.

Lemma apply_del_success l w key value v :
  pending w = None -> carries l OpDel key value -> (Apply l w).2 = Ret v ->
  committed (Apply l w).1 = delete key (committed w).
Proof. intros Hp Hc Hr. pose proof (apply_success l w v Hp Hr) as Hs. revert Hs. spec_of Hc. by intros [= <-]. Qed.

Lemma apply_pending l w : pending w = None -> pending (Apply l w).1 = None.
Proof. intros Hp. by destruct (Apply_refines l _ w Hp eq_refl) as (w' & r & -> & ? & _). Qed.

Section Members.
Context `{Env}.

(** A privileged or ordinary write that succeeded on the leader. *)
Lemma leader_other_success op key value allow n ts i sched :
  op <> OpConfirm -> leading n ((ts, i) :: sched) -> (handleOtherForward op key value allow n).2 = Ret tt ->
  leading (handleOtherForward op key value allow n).1 sched /\
  nstore (handleOtherForward op key value allow n).1 = (Apply (mkLog (EncodeCommand op key value) ts) (nstore n)).1 /\
  exists v, (Apply (mkLog (EncodeCommand op key value) ts) (nstore n)).2 = Ret v.
Proof.
  intros Hop (Hl & Hp & Hs) Hr.
  destruct (leader_privileged_write op key value allow n ts i _ Hop Hl Hs) as (n' & E & [Hst Hraft Happ _]).
  rewrite E in *. cbn [fst snd] in *. split_and!; [|done|].
  - unfold leading. rewrite Hst, Hraft, Happ. split_and!; [done|by apply apply_pending|done].
  - destruct (Apply _ (nstore n)) as [w [v| |]]; try done. by exists v.
Qed.

Lemma leader_set_success key value n ts i sched :
  blen key + 4 + blen value < 2 ^ 32 -> leading n ((ts, i) :: sched) -> (handleSetForward key value true n).2 = Ret tt ->
  leading (handleSetForward key value true n).1 sched /\
  exists v', committed (nstore (handleSetForward key value true n).1) = <[key := v']> (committed (nstore n)).
Proof.
  intros Hsize (Hl & Hp & Hs). unfold handleSetForward, mbind, D_bind.
  destruct (leader_write OpSet key value true n ts i _ Hl Hs) as (n' & -> & [Hst Hraft Happ _]).
  set (l := mkLog (EncodeCommand OpSet key value) ts) in *.
  destruct (Apply l (nstore n)).2 as [v| |] eqn:E; try done. unfold mret, D_ret. cbn [fst snd]. intros _. split.
  - unfold leading. rewrite Hst, Hraft, Happ. split_and!; [done|by apply apply_pending|done].
  - rewrite Hst. eapply apply_set_success; eauto. by apply decode_EncodeCommand.
Qed.

Lemma leader_setPeerGroup p g n ts i sched :
  blen p <= 0xFFFF -> blen g <= 7 -> leading n ((ts, i) :: sched) -> (setPeerGroup p g n).2 = Ret tt ->
  leading (setPeerGroup p g n).1 sched /\
  exists v', committed (nstore (setPeerGroup p g n).1) = <[relation_key KindPeerGroup p g := v']> (committed (nstore n)).
Proof.
  intros Hp Hg Hn. unfold setPeerGroup. rewrite PeerGroupKey_ok by done.
  change ((liftD (Ret ?a) ≫= ?k) n) with (k a n). cbv beta. intros Hr.
  apply (leader_set_success (relation_key KindPeerGroup p g) [] n ts i sched); [|done..].
  unfold relation_key. pose proof (blen_nonneg p). pose proof (blen_nonneg g). lens.
Qed.

Lemma leader_deletePeerGroup p g n ts i sched :
  blen p <= 0xFFFF -> blen g <= 7 -> leading n ((ts, i) :: sched) -> (deletePeerGroup p g n).2 = Ret tt ->
  leading (deletePeerGroup p g n).1 sched /\
  committed (nstore (deletePeerGroup p g n).1) = delete (relation_key KindPeerGroup p g) (committed (nstore n)).
Proof.
  intros Hp Hg Hn. unfold deletePeerGroup. rewrite PeerGroupKey_ok by done.
  change ((liftD (Ret ?a) ≫= ?k) n) with (k a n). cbv beta. intros Hr.
  destruct (leader_other_success OpDel _ _ _ _ _ _ _ ltac:(done) Hn Hr) as (Hn' & -> & v & Hv).
  split; [done|]. eapply apply_del_success; [apply Hn| |exact Hv]. apply decode_EncodeCommand.
  unfold relation_key. pose proof (blen_nonneg p). pose proof (blen_nonneg g). lens.
Qed.
End Members.

(** Running a successful sequence: both halves succeeded. *)
Lemma bind_success {A B : Type} (m : D A) (k : A -> D B) n b :
  ((m ≫= k) n).2 = Ret b -> exists a, (m n).2 = Ret a /\ (k a (m n).1).2 = Ret b /\ ((m ≫= k) n).1 = (k a (m n).1).1.
Proof. unfold mbind, D_bind. destruct (m n) as [n' [a| |]]; try done. eauto. Qed.

Lemma wrap_success {A : Type} fmt (m : D A) n a :
  (wrapD fmt m n).2 = Ret a -> (m n).2 = Ret a /\ (wrapD fmt m n).1 = (m n).1.
Proof. unfold wrapD. destruct (m n) as [n' [b| |]]; try done. Qed.

(** The memberships a role gives and takes. *)
Definition role_groups (role : byte) : bytes * bytes :=
  if byte_eqb role RoleLearner then (ReservedGroupLearner, ReservedGroupVoter)
  else (ReservedGroupVoter, ReservedGroupLearner).

Lemma sync_table `{Env} n p role s1 s2 s3 s4 :
  leading n [s1; s2; s3; s4] -> blen p <= 0xFFFF -> (syncMemberGroups p role n).2 = Ret tt ->
  exists v1 v2 v3, committed (nstore (syncMemberGroups p role n).1) =
    delete (relation_key KindPeerGroup p (role_groups role).2)
      (<[relation_key KindPeerGroup p (role_groups role).1 := v3]>
        (<[relation_key KindPeerGroup p ReservedGroupCluster := v2]> (<[GroupKey p := v1]> (committed (nstore n))))).
Proof.
  destruct s1 as [ts1 i1], s2 as [ts2 i2], s3 as [ts3 i3], s4 as [ts4 i4].
  intros Hn Hp Hrun. unfold syncMemberGroups in *.
  apply bind_success in Hrun as ([] & Hpg & Hrun & E0). rewrite E0. clear E0. unfold ensurePersonalGroup in *.
  apply wrap_success in Hpg as [Hpg E0]. rewrite E0 in *. clear E0.
  destruct (leader_other_success OpSet _ _ _ _ _ _ _ ltac:(done) Hn Hpg) as (Hn1 & Hst & v & Hv).
  apply apply_set_success with (key := GroupKey p) (value := EncodeGroupPayload p false) in Hv as [v1 Hc1];
    [|apply Hn|apply decode_EncodeCommand; unfold GroupKey, SystemKey, EncodeGroupPayload; pose proof (blen_nonneg p); lens].
  rewrite <- Hst in Hc1. clear Hst Hpg.
  apply bind_success in Hrun as ([] & Hcl & Hrun & E0). rewrite E0. clear E0.
  destruct (leader_setPeerGroup p ReservedGroupCluster _ _ _ _ Hp ltac:(done) Hn1 Hcl) as (Hn2 & v2 & Hc2).
  exists v1, v2. unfold role_groups. destruct (byte_eqb role RoleLearner); cbn [fst snd].
  - apply bind_success in Hrun as ([] & Hln & Hrun & E0). rewrite E0. clear E0.
    destruct (leader_setPeerGroup p ReservedGroupLearner _ _ _ _ Hp ltac:(done) Hn2 Hln) as (Hn3 & v3 & Hc3).
    destruct (leader_deletePeerGroup p ReservedGroupVoter _ _ _ _ Hp ltac:(done) Hn3 Hrun) as (_ & Hc4).
    exists v3. by rewrite Hc4, Hc3, Hc2, Hc1.
  - apply bind_success in Hrun as ([] & Hln & Hrun & E0). rewrite E0. clear E0.
    destruct (leader_setPeerGroup p ReservedGroupVoter _ _ _ _ Hp ltac:(done) Hn2 Hln) as (Hn3 & v3 & Hc3).
    destruct (leader_deletePeerGroup p ReservedGroupLearner _ _ _ _ Hp ltac:(done) Hn3 Hrun) as (_ & Hc4).
    exists v3. by rewrite Hc4, Hc3, Hc2, Hc1.
Qed.

(** Groups follow the role: after a successful synchronisation on the leader a
    member is in the cluster group and in exactly one of the voter and learner
    groups, the one of its role, and no other table entry than its own personal
    group and these three memberships changed. *)
Theorem member_groups_follow_role `{Env} (n : node) (p : bytes) (role : byte) (s1 s2 s3 s4 : Z * Z) :
  leading n [s1; s2; s3; s4] -> blen p <= 0xFFFF -> (syncMemberGroups p role n).2 = Ret tt ->
  let t := committed (nstore n) in
  let t' := committed (nstore (syncMemberGroups p role n).1) in
  member t' p ReservedGroupCluster /\
  (member t' p ReservedGroupLearner <-> role = RoleLearner) /\
  (member t' p ReservedGroupVoter <-> role <> RoleLearner) /\
  (forall k, k <> GroupKey p ->
     (forall g, g ∈ [ReservedGroupCluster; ReservedGroupVoter; ReservedGroupLearner] -> k <> relation_key KindPeerGroup p g) ->
     t' !! k = t !! k).
Proof.
  intros Hn Hp Hrun t t'. destruct (sync_table n p role s1 s2 s3 s4 Hn Hp Hrun) as (v1 & v2 & v3 & E).
  subst t'. rewrite E. clear E Hn Hrun. fold t.
  assert (forall g h, g <> h -> relation_key KindPeerGroup p g <> relation_key KindPeerGroup p h) as Hinj
    by (intros g h Hgh E; by apply relation_key_inj in E as (_ & _ & ?)).
  assert (role_groups role = (ReservedGroupLearner, ReservedGroupVoter) /\ role = RoleLearner \/
          role_groups role = (ReservedGroupVoter, ReservedGroupLearner) /\ role <> RoleLearner) as Hg.
  { unfold role_groups. destruct (byte_eqb role RoleLearner) eqn:E;
      [apply byte_eqb_true in E|apply byte_eqb_false in E]; auto. }
  unfold member. destruct Hg as [[-> ->]|[-> Hrole]]; cbn [fst snd]; split_and!;
    try (rewrite ?lookup_delete_eq, ?lookup_delete_ne, ?lookup_insert_ne, ?lookup_insert_eq by (apply Hinj; done);
         first [by eexists|split; [by intros [? ?]|done]|split; eauto]).
  all: intros k Hk Hg; rewrite lookup_delete_ne, !lookup_insert_ne; [done|by intros <-|..];
    (intros E; eapply Hg; [|by symmetry]); rewrite !elem_of_cons; auto.
Qed.

(** * Admission *)

Section Admission.
Context `{Env}.

(** Adding a server starts with the change of configuration. *)
Lemma calls_addServerLine p addr suffrage n :
  suffrage <> Staging ->
  exists more, ncalls (addServerLine p addr suffrage n).1 = ncalls n ++ AddServer suffrage p addr :: more.
Proof.
  intros Hs. unfold addServerLine. unfold mbind at 1, D_bind at 1.
  replace (match suffrage with Nonvoter => Nonvoter | _ => Voter end) with suffrage by (by destruct suffrage).
  pose proof (calls_changeConfig (AddServer suffrage p addr) n) as E. unfold tryD at 1.
  destruct (changeConfig (AddServer suffrage p addr) n) as [n1 [[]|err|]]; cbn [fst] in E.
  - match goal with |- context [(?m n1).1] => assert (Emits admissible_call m) as Hm end.
    { emits; try apply emits_logged; auto using good_recordClusterMember, good_syncMemberGroups, good_transfer. }
    destruct (emits_calls _ _ _ (Hm n1)) as (more & -> & _). exists more. by rewrite E, <- app_assoc.
  - exists []. by rewrite <- E.
  - exists []. by rewrite <- E.
Qed.

Definition granted (sf : byte) : ServerSuffrage := if byte_eqb sf SuffrageLearner then Nonvoter else Voter.

(** An invite record is the byte of its suffrage. *)
Lemma join_invite_shape v :
  DecodeJoinInviteRecord v =
    match v with [sf] => Ret sf | _ => Fail (Errorf "shmevent: join invite record must be 1 byte, got %d") end.
Proof.
  unfold DecodeJoinInviteRecord. destruct v as [|sf [|b l]]; [done|done|].
  assert ((blen (sf :: b :: l) =? 1) = false) as -> by (apply Z.eqb_neq; unfold blen; cbn; lia). done.
Qed.

(** Spending an invite on a leader that commits it: the entry is applied and
    its result read. *)
Lemma consume_committed token n before ts i rest :
  napplies n = Committed before ts i :: rest -> pending (nstore n) = None ->
  let cmd := EncodeCommand OpConsumeInvite (JoinInviteKey token) [] in
  let out := Apply (mkLog cmd ts) (applyAll before (nstore n)).1 in
  consumeJoinInvite token n =
    (set_store out.1 (set_applies rest (record_call (Proposed cmd) n)),
     match out.2 with
     | Ret value => match DecodeJoinInviteRecord value with
                    | Ret sf => Ret (granted sf)
                    | Fail e => Fail (Wrapf "invite: %w" e)
                    | Panic => Panic
                    end
     | Fail e => Fail (Wrapf "invalid or already-used invite: %w" e)
     | Panic => Panic
     end).
Proof.
  intros Hs Hp cmd out. unfold consumeJoinInvite. unfold mbind at 1, D_bind at 1. unfold wrapD.
  rewrite (raftApply_after _ _ before ts i rest Hs Hp). fold cmd out. destruct out as [w [v|e|]]; [|done..]. cbn [fst snd].
  cbn [wrap_err]. unfold mbind, D_bind, liftD. cbv beta iota. by destruct (DecodeJoinInviteRecord v) as [sf| |].
Qed.

(** The outcome, by the table entry of the invite. *)
Lemma consume_outcome token n before ts i rest :
  napplies n = Committed before ts i :: rest -> healthy (nstore n) -> pending (nstore n) = None -> blen token <= 0xFFFF ->
  ncalls (consumeJoinInvite token n).1 = ncalls n ++ [Proposed (EncodeCommand OpConsumeInvite (JoinInviteKey token) [])] /\
  match committed (applyAll before (nstore n)).1 !! JoinInviteKey token with
  | None => is_fail (consumeJoinInvite token n).2 = true
  | Some v =>
    match DecodeJoinInviteRecord v with
    | Ret sf => (consumeJoinInvite token n).2 = Ret (granted sf)
    | _ => is_fail (consumeJoinInvite token n).2 = true
    end
  end.
Proof.
  intros Hs Hh Hp Htok. rewrite (consume_committed token n before ts i rest Hs Hp). split; [done|]. cbn [snd].
  destruct (applyAll_settled before (nstore n) Hp) as [Hpb Hhb]. specialize (Hhb Hh). set (w := (applyAll before (nstore n)).1) in *.
  set (l := mkLog (EncodeCommand OpConsumeInvite (JoinInviteKey token) []) ts).
  assert (carries l OpConsumeInvite (JoinInviteKey token) []) as Hc.
  { apply decode_EncodeCommand. unfold JoinInviteKey, SystemKey. pose proof (blen_nonneg token). lens. }
  pose proof (apply_healthy l w Hpb Hhb) as Happ. revert Happ. spec_of Hc. unfold specConsumeInvite.
  destruct (committed w !! JoinInviteKey token) as [v|] eqn:E; intros Happ;
    apply (f_equal snd) in Happ; cbn [fst snd] in Happ; rewrite Happ; [|done].
  rewrite join_invite_shape. by destruct v as [|? [|? ?]].
Qed.
End Admission.

(** C34 A join with an invite token is decided by the invite alone: on a leader whose entry
    that spends the invite is committed, after any entries [before] of other callers and
    without database faults, the table the entry finds decides.  If it does not hold the
    invite, for instance because another join has spent it first, the node has done nothing
    but propose that entry, and answers with an error; if it does, the node
    goes on to ask raft to add the joining peer with the suffrage the invite records,
    whatever suffrage it asked for.  The token is at most 65535 bytes long. *)
Theorem invite_decides_admission `{Env} (req : joinRequest) (n : node) (before : list Log) (ts i : Z) (rest : list apply_reply) :
  napplies n = Committed before ts i :: rest -> healthy (nstore n) -> pending (nstore n) = None ->
  0 < blen (joinToken req) <= 0xFFFF ->
  let spend := Proposed (EncodeCommand OpConsumeInvite (JoinInviteKey (joinToken req)) []) in
  let '(n', line) := admitOrLodgeJoin req n in
  match committed (applyAll before (nstore n)).1 !! JoinInviteKey (joinToken req) with
  | Some [sf] => exists more, ncalls n' = ncalls n ++ spend :: AddServer (granted sf) (joinPeer req) (joinAddr req) :: more
  | _ => ncalls n' = ncalls n ++ [spend] /\ exists e, line = Ret (ERR ++ Error e)
  end.
Proof.
  intros Hs Hh Hp [Hpos Hmax] spend. destruct (consume_outcome (joinToken req) n before ts i rest Hs Hh Hp Hmax) as [Hcalls Hout].
  unfold admitOrLodgeJoin. rewrite (proj2 (Z.ltb_lt _ _)) by done. unfold mbind at 1, D_bind at 1. unfold tryD at 1.
  destruct (consumeJoinInvite (joinToken req) n) as [n1 r]. cbn [fst snd] in *.
  destruct (committed (applyAll before (nstore n)).1 !! JoinInviteKey (joinToken req)) as [v|];
    [rewrite join_invite_shape in Hout; destruct v as [|sf [|? ?]]|].
  2: { cbn in Hout. subst r. pose proof (calls_addServerLine (joinPeer req) (joinAddr req) (granted sf) n1) as Hadd.
       destruct (addServerLine _ _ _ n1) as [n2 line]. cbn [fst] in Hadd.
       destruct Hadd as [more ->]; [by unfold granted; destruct (byte_eqb _ _)|]. exists more.
       by rewrite Hcalls, <- app_assoc. }
  all: cbn in Hout; destruct r as [?|e|]; try done; split; [done|by exists e].
Qed.
