(* ===== verification/ReadProps.v ===== *)
(** What a caller gets back: responses answer their request, a stranger reads
    no more of the table than the command logs open to it, and a value written
    through the leader is the value read. *)

From S2P Require Import Prelude Store StoreLogic SystemKeys Payloads LogRecord Txn Fsm FsmSpec FsmProps FsmInvariants FsmOps Events Stream Quota Session Node Acl Forward Dial Join Execute Remote Channel Handler HandlerProps ForwardProps.
#[local] Open Scope Z_scope.

(** * Responses *)

(** Every message [c] returns has this id and this tag. *)
Definition Answers (id : Z) (w : Event_Which) (c : D Msg) : Prop := forall n resp,
  (c n).2 = Ret resp -> Id resp = id /\ Which resp = w.

Section Answers.
Context (id : Z) (w : Event_Which).

Lemma answers_bind {A : Type} (c : D A) (k : A -> D Msg) : (forall a, Answers id w (k a)) -> Answers id w (c ≫= k).
Proof. intros Hk n resp. unfold mbind, D_bind. destruct (c n) as [n' [a| |]]; [apply Hk|done..]. Qed.

Lemma answers_lift_bind {A : Type} (r : gores A) (k : A -> D Msg) :
  (forall a, r = Ret a -> Answers id w (k a)) -> Answers id w (liftD r ≫= k).
Proof. intros Hk n resp. unfold mbind, D_bind, liftD. destruct r; [by apply Hk|done..]. Qed.

Lemma answers_ret m : Id m = id -> Which m = w -> Answers id w (mret m).
Proof. by intros Hi Hw n resp [= <-]. Qed.

Lemma answers_fail fmt : Answers id w (fail fmt).
Proof. done. Qed.
End Answers.

Ltac answers :=
  repeat match goal with
  | |- Answers _ _ (let _ := _ in _) => cbv zeta
  | |- Answers _ _ (liftD _ ≫= _) => apply answers_lift_bind; intros ? ?
  | |- Answers _ _ (_ ≫= _) => apply answers_bind; intros ?
  | |- Answers _ _ (fail _) => apply answers_fail
  | |- Answers _ _ (mret _) => apply answers_ret; [done|]
  | |- Answers _ _ (match ?x with _ => _ end) => destruct x
  end.

Lemma dispatch_answers `{Env} caller m : Answers (Id m) (Which m) (dispatch caller m).
Proof.
  unfold dispatch. destruct (Body m) eqn:HB;
    unfold onSetKey, onGetKey, onSetField, onSet, onTxn, onGetFieldByRegistry, onGetFieldByKey, onListRange, onLeave,
      onKick, onBootstrapOrJoin, onAddLearner, onGroupPut, onGroupDelete, onCommandPut, onCommandDelete, onStationPut,
      onStationDelete, onGroupCommandPut, onGroupCommandDelete, onGroupCommand, onPeerGroupPut, onPeerGroupDelete,
      onPeerGroup, onPermitRequest, onPermitConfirm, onPermitRevoke, onJoinInviteCreate, onJoinInviteRevoke,
      onExecInviteCreate, onExecInviteRevoke, onJoinRequestCreate, onJoinRequestCancel, onRecruit, onExecInviteRedeem,
      onLogAppend, onExecute, onPollExecute, onPublicAccess, onDialSubmitCommand, onDialQueryCommandLog, onChannelOpen,
      onChannelSend, onChannelPoll, onChannelListen, onChannel;
    answers; try (unfold Which; by rewrite ?HB).
  - intros n resp [= <-]. unfold Which. by rewrite HB.
  - unfold Which, NewDialQueryCommandLogResponse in *. rewrite HB.
    destruct (encodeRecords _); [|done..]. by simplify_eq/=.
Qed.

(** The answer to a request is an error message or what its method returns
    behind the gate. *)
Lemma request_inv `{Env} m crc sig caller n resp :
  (handleShmEvent m crc sig caller n).2 = Ret resp ->
  (exists err, resp = errorMsg (Id m) err) \/
  (exists n1, gate caller m n = (n1, Ret tt) /\ (dispatch caller m n1).2 = Ret resp /\
     (isRemote caller = true -> localOnly (Which m) = None)).
Proof.
  unfold handleShmEvent, handleRequest, refuseRemote, checkSignature.
  unfold mbind at 1, D_bind at 1. unfold tryD. unfold mbind at 1, D_bind at 1.
  destruct (isRemote caller) eqn:Hr; [destruct (localOnly (Which m)) as [err|]|];
    [intros [= <-]; eauto|..];
    (change ((mret tt : D unit) n) with (n, Ret tt); cbv beta iota; unfold mbind, D_bind;
     destruct (if RequiresSignature (Which m) then _ else _) as [n0 [[]|e|]] eqn:Hs;
     [|intros [= <-]; eauto|done];
     assert (n0 = n) as -> by (by destruct (RequiresSignature (Which m)); injection Hs);
     destruct (gate caller m n) as [n1 [[]|e|]] eqn:Hg; [|intros [= <-]; eauto|done];
     destruct (dispatch caller m n1) as [n2 [resp'|e|]] eqn:Hd; [|intros [= <-]; eauto|done];
     intros [= <-]; right; exists n1; by rewrite Hd).
Qed.

Lemma errorMsg_body `{Env} id err : exists text, Body (errorMsg id err) = E_error text.
Proof. by eexists. Qed.

Lemma errorMsg_id `{Env} id err : Id (errorMsg id err) = id.
Proof. done. Qed.

(** * What the carve-out opens *)

(** The kinds of log record [p] may read. *)
Definition readable (t : table) (p kind : bytes) : Prop :=
  kind = CommandExecLogKind \/
  (exists commandID g, ParseCommandRequestLogKind kind = Some commandID /\
     linked t commandID g /\ (public t g \/ member t p g)) \/
  ParseCommandExecIndexKind kind = Some p.

(** A key among the log records of such a kind. *)
Definition log_readable (t : table) (p key : bytes) : Prop :=
  exists kind, readable t p kind /\ KindPrefix kind `prefix_of` key.

Lemma logKindOfBound_prefix key kind : logKindOfBound key = Ret (Some kind) -> KindPrefix kind `prefix_of` key.
Proof.
  unfold logKindOfBound. intros Hk. unbind Hk.
  match goal with E : negb (byte_eqb ?b LogKeyPrefix) = false |- _ => apply negb_false_iff, byte_eqb_true in E; subst b end.
  match goal with E : idx key 0 = Ret _ |- _ => apply idx_inv in E as (p & r & -> & Hp) end.
  apply blen_zero in Hp as ->. cbn [app] in *. simplify_eq.
  match goal with E : read16 _ 1 = Ret _ |- _ => apply read16_inv in E as (p & r1 & E1 & Hp1 & Hn) end.
  match goal with E : slice _ 3 _ = Ret _ |- _ => apply slice_inv in E as (p' & r2 & E2 & Hp2 & Hk) end.
  destruct p as [|x [|? ?]]; [done| |revert Hp1; lens]. injection E1 as <- ->.
  change (LogKeyPrefix :: put16 a0 ++ r1) with (([LogKeyPrefix] ++ put16 a0) ++ r1) in *.
  apply (app_inj_1 ([LogKeyPrefix] ++ put16 a0) p') in E2 as [<- ->]; [|rewrite length_app, put16_be, length_be_bytes; unfold blen in Hp2; cbn; lia].
  exists r2. unfold KindPrefix, u16. rewrite Z.mod_small by lia. assert (blen kind = a0) as -> by lia.
  by rewrite <- !app_assoc.
Qed.

(** A yes of the carve-out's check is right, and costs only reads. *)
Lemma readableKind_sound kind p n n' :
  isCommandLogReadableKind kind p n = (n', Ret true) ->
  readable (committed (nstore n)) p kind /\ committed (nstore n') = committed (nstore n).
Proof.
  unfold isCommandLogReadableKind, readable. destruct (bytes_eqb kind CommandExecLogKind) eqn:E.
  { apply bytes_eqb_true in E. intros [= <-]. auto. }
  destruct (ParseCommandRequestLogKind kind) as [commandID|].
  - unfold mbind, D_bind, tryD, onStore.
    destruct (IsPermittedForCommand_gates Store _ commandID p (nstore n) eq_refl) as (w' & r & -> & Hc & _ & _ & Hr).
    cbn [snd view Store] in *. destruct r as [b|e|]; [|done..]. intros [= <- ->].
    destruct Hr as [Hr|[_ [?|?]]]; [|done..]. symmetry in Hr. apply permitted_true in Hr as (g & Hl & Hm).
    split; [|done]. right. left. eauto.
  - destruct (ParseCommandExecIndexKind kind) as [peer|]; intros [= <- Hb].
    apply bytes_eqb_true in Hb as ->. auto.
Qed.

(** One key, or the two bounds of a scan, inside the logs that are open. *)
Lemma carve_key_sound m key v p n n' :
  Body m = E_getFieldByKey key v -> isCommandLogCarveOut m p n = (n', Ret true) ->
  exists k, key = Ok k /\ log_readable (committed (nstore n)) p k /\ committed (nstore n') = committed (nstore n).
Proof.
  intros HB. unfold isCommandLogCarveOut, boundKind. rewrite HB. destruct key as [k|]; [|done]. cbn [rd].
  unfold mbind, D_bind, liftD. destruct (logKindOfBound k) as [[kind|]| |] eqn:Hk; try done.
  intros [Hr Hc]%readableKind_sound. exists k. split_and!; [done| |done]. exists kind. auto using logKindOfBound_prefix.
Qed.

Lemma carve_range_sound m start stop k v p n n' :
  Body m = E_listRange start stop k v -> isCommandLogCarveOut m p n = (n', Ret true) ->
  exists lo hi, start = Ok lo /\ stop = Ok hi /\ committed (nstore n') = committed (nstore n) /\
    forall x, in_range lo hi x = true -> log_readable (committed (nstore n)) p x.
Proof.
  intros HB. unfold isCommandLogCarveOut. rewrite HB. destruct start as [lo|], stop as [hi|]; try done. cbn [rd].
  unfold mbind, D_bind, liftD. destruct (logKindOfBound lo) as [[kind|]| |] eqn:Hlo; try done.
  destruct (logKindOfBound hi) as [[kind'|]| |] eqn:Hhi; try done.
  destruct (bytes_eqb kind kind') eqn:E; [|done]. apply bytes_eqb_true in E as <-. cbn [negb].
  intros [Hr Hc]%readableKind_sound. exists lo, hi. split_and!; try done.
  intros x [H1 H2]%andb_prop. exists kind. split; [done|]. eauto using between_prefix, logKindOfBound_prefix.
Qed.

(** What the two reading methods return. *)
Section Reading.
Context `{Env}.

Lemma get_result m k n resp :
  (onGetFieldByKey m (Ok k) n).2 = Ret resp ->
  exists v, committed (nstore n) !! k = Some v /\ resp = SetBody (E_getFieldByKey (Ok k) (Ok v)) m.
Proof.
  unfold onGetFieldByKey, handleGet, mbind, D_bind, onStore. cbn [liftD rd].
  destruct (reads_get Store k _ (nstore n) eq_refl) as (w' & r & -> & _ & _ & _ & Hr).
  destruct r as [v| |]; [|done..]. intros [= <-]. exists v. split; [|done]. cbn [view Store] in Hr.
  destruct Hr as [Hr|[_ ?]]; [|done]. by destruct (committed (nstore n) !! k); simplify_eq.
Qed.

Lemma scan_result m lo hi n resp :
  (onListRange m (Ok lo) (Ok hi) n).2 = Ret resp ->
  resp = m \/ exists k v, committed (nstore n) !! k = Some v /\ in_range lo hi k = true /\
    resp = SetBody (E_listRange (Ok lo) (Ok hi) (Ok k) (Ok v)) m.
Proof.
  unfold onListRange, mbind, D_bind, onStore. cbn [liftD rd].
  destruct (reads_scanRange Store lo hi 1 _ (nstore n) eq_refl) as (w' & r & -> & _ & _ & _ & Hr).
  destruct r as [[|[k v] rest]| |]; [intros [= <-]; auto| |done..]. intros [= <-]. right. exists k, v.
  destruct Hr as [Hr|[_ ?]]; [|done]. apply (inj Ret) in Hr. cbn [view Store] in Hr.
  assert ((k, v) ∈ select (in_range lo hi) (committed (nstore n))) as [? ?]%elem_of_select; [|done].
  revert Hr. generalize (select (in_range lo hi) (committed (nstore n))). intros l. unfold sql_limit.
  destruct l as [|x l]; intros [= <- _]. by left.
Qed.

(** On a store whose calls succeed the value is found. *)
Lemma get_finds m k v n :
  healthy (nstore n) -> committed (nstore n) !! k = Some v ->
  (onGetFieldByKey m (Ok k) n).2 = Ret (SetBody (E_getFieldByKey (Ok k) (Ok v)) m).
Proof.
  intros Hh Hv. unfold onGetFieldByKey, handleGet, mbind, D_bind, onStore. cbn [liftD rd].
  destruct (reads_get Store k _ (nstore n) eq_refl) as (w' & r & -> & _ & _ & _ & Hr). cbn [view Store] in Hr.
  rewrite Hv in Hr. by destruct Hr as [->|[? _]].
Qed.

Lemma get_keeps m k n : committed (nstore (onGetFieldByKey m (Ok k) n).1) = committed (nstore n).
Proof.
  unfold onGetFieldByKey, handleGet, mbind, D_bind, onStore. cbn [liftD rd].
  destruct (reads_get Store k _ (nstore n) eq_refl) as (w' & r & -> & Hc & _). by destruct r.
Qed.
End Reading.

(** * A write through the handler *)

(** Outside the system's key space nothing guards a write. *)
Lemma plain_set key value t : unreserved key -> specApplySet key value t = (<[key := value]> t, Ret []).
Proof.
  intros Hk.
  assert (isSystemKey key = Ret false) as Hs.
  { pose proof (isSystemKey_safe key). destruct (isSystemKey key) as [[|]|e|] eqn:E; try done.
    - apply isSystemKey_true in E as (kind & status & id & ->). by destruct (Hk _ _ eq_refl).
    - revert E. unfold isSystemKey, systemKeyPrefixLen. destruct (Z.ltb_spec (blen key) 3); [done|].
      destruct (idx_ok key 0) as [b ->]; [lia|done]. }
  unfold specApplySet, listCap, groupNameFree, storedValue, isSystemKeyOf. by rewrite Hs.
Qed.

Lemma apply_keeps_healthy l w : pending w = None -> healthy w -> healthy (Apply l w).1.
Proof. intros Hp. by destruct (Apply_refines l _ w Hp eq_refl) as (w' & r & -> & _ & ? & _). Qed.

Lemma local_request `{Env} m crc sig caller n :
  isRemote caller = false -> Verify Canonicalize ed25519_verify (verifyPub caller) m crc sig = Ret tt ->
  handleShmEvent m crc sig caller n =
    match dispatch caller m n with
    | (n', Ret resp) => (n', Ret resp)
    | (n', Fail err) => (n', Ret (errorMsg (Id m) err))
    | (n', Panic) => (n', Panic)
    end.
Proof.
  intros Hr Hv. unfold handleShmEvent, handleRequest, refuseRemote, checkSignature, gate. rewrite Hr, Hv. cbn [negb].
  unfold mbind at 1 2 3 4, D_bind at 1 2 3 4. unfold tryD.
  destruct (RequiresSignature (Which m)); cbn [liftD mret D_ret]; unfold mret, D_ret;
    by destruct (dispatch caller m n) as [n' [resp|err|]].
Qed.

(** * Theorems *)

(** Responses answer their request: the response carries the request's id, and
    is an error message or has the request's own tag; a remote caller is never
    sent the node's private key. *)
Theorem response_matches_request `{Env} (m resp : Msg) (crc : Z) (sig : bytes) (caller : callerIdentity)
  (n : node) :
  (handleShmEvent m crc sig caller n).2 = Ret resp ->
  Id resp = Id m /\
  (Which resp = Which m \/ Which resp = Event_Which_error) /\
  (isRemote caller = true -> Which resp <> Event_Which_getPrivateKey).
Proof.
  intros [[err ->]|(n1 & _ & Hd & Hl)]%request_inv; [by auto|].
  apply dispatch_answers in Hd as [-> ->]. split_and!; [done|auto|].
  intros Hr Hw. specialize (Hl Hr). by rewrite Hw in Hl.
Qed.

(** C6 What a stranger can read: to a remote caller in none of the groups the gate
    checks, every table entry a response carries is a command-log record it may
    read -- the execution log, requests of a command its groups (or a public
    group) are linked to, or its own execution index -- even when the entry
    comes from a scan between two bounds of the caller's choice; and it reads
    no registered key's value and no notification. *)
Theorem stranger_reads_confined `{Env} (m resp : Msg) (crc : Z) (sig : bytes) (caller : callerIdentity)
  (n : node) :
  isRemote caller = true ->
  ~ authorised (committed (nstore n)) (remotePeer caller) ReservedGroupRemote ->
  (handleShmEvent m crc sig caller n).2 = Ret resp ->
  match Body resp with
  | E_getFieldByKey key value =>
    exists k v, key = Ok k /\ value = Ok v /\ committed (nstore n) !! k = Some v /\
      log_readable (committed (nstore n)) (remotePeer caller) k
  | E_listRange _ _ key value =>
    resp = m \/
    exists k v, key = Ok k /\ value = Ok v /\ committed (nstore n) !! k = Some v /\
      log_readable (committed (nstore n)) (remotePeer caller) k
  | E_getFieldByRegistry _ _ | E_pollExecute _ _ => False
  | _ => True
  end.
Proof.
  intros Hr Ha [[err ->]|(n1 & Hg & Hd & Hl)]%request_inv; [done|].
  destruct (dispatch_answers caller m n1 resp Hd) as [_ Hw].
  destruct (gate_inv caller m n n1 Hr Hg) as [Hu|[?|(n0 & Hc & E0)]]; [|done|].
  { rewrite <- Hw in Hu. unfold Which in Hu. by destruct (Body resp). }
  unfold Which in Hw. unfold dispatch in Hd. rewrite <- E0. clear E0.
  destruct (Body m) eqn:HB; try (unfold isCommandLogCarveOut in Hc; rewrite HB in Hc; done).
  - destruct (carve_key_sound m _ _ _ n0 n1 HB Hc) as (k & -> & Hk & E1).
    apply get_result in Hd as (v & Hv & ->). rewrite E1 in Hv. by exists k, v.
  - destruct (carve_range_sound m _ _ _ _ _ n0 n1 HB Hc) as (lo & hi & -> & -> & E1 & Hin).
    apply scan_result in Hd as [->|(k & v & Hv & Hk & ->)]; [rewrite HB; auto|].
    right. rewrite E1 in Hv. exists k, v. auto.
  - by destruct (Body resp).
Qed.

(** A set on a leader whose next entry commits. *)
Lemma set_dispatched `{Env} (m : Msg) (key value : bytes) (caller : callerIdentity) (n : node) (ts index : Z) (rest : list apply_reply) :
  leads (nraft n) = true -> healthy (nstore n) -> pending (nstore n) = None -> napplies n = Committed [] ts index :: rest ->
  Body m = E_set (Ok key) (Ok value) -> unreserved key -> blen key + 4 + blen value < 2 ^ 32 ->
  exists n1, dispatch caller m n = (n1, Ret m) /\ committed (nstore n1) = <[key := value]> (committed (nstore n)) /\ healthy (nstore n1).
Proof.
  intros Hl Hh Hp Hs HB Hk Hsize. unfold dispatch. rewrite HB.
  assert (rejectReservedKey key = Ret tt) as Hrej.
  { unfold rejectReservedKey. destruct key as [|b r]; [done|]. destruct (Hk b r eq_refl) as [E1 E2].
    apply byte_eqb_false in E1, E2. by rewrite E1, E2. }
  unfold onSet. cbn [rd]. change ((liftD (Ret ?a) ≫= ?k) n) with (k a n). cbv beta.
  change ((liftD (Ret ?a) ≫= ?k) n) with (k a n). cbv beta. rewrite Hrej.
  change ((liftD (Ret ?a) ≫= ?k) n) with (k a n). cbv beta.
  unfold handleSetForward, mbind, D_bind.
  destruct (leader_write OpSet key value true n ts index rest Hl Hs) as (n1 & -> & [Hst _ _ _]).
  set (l := mkLog (EncodeCommand OpSet key value) ts) in *.
  assert (carries l OpSet key value) as Hc by (by apply decode_EncodeCommand).
  pose proof (apply_healthy l (nstore n) Hp Hh) as Happ. revert Happ. spec_of Hc. rewrite plain_set by done.
  intros Happ. injection Happ as Hcom Hres. rewrite Hres. unfold mret, D_ret.
  rewrite <- Hst in Hcom. exists n1. split_and!; [done|done|]. rewrite Hst. by apply apply_keeps_healthy.
Qed.

(** Read your writes: on a leader whose entry is committed, the operator's set of a
    key outside the reserved spaces is answered with the request itself and
    changes that key only; a get of the key that follows returns the value
    written. *)
Theorem leader_write_then_read `{Env} (m1 m2 : Msg) (crc1 crc2 : Z) (sig1 sig2 key value : bytes) (old : field)
  (caller : callerIdentity) (n : node) (ts index : Z) (rest : list apply_reply) :
  isRemote caller = false ->
  leads (nraft n) = true -> healthy (nstore n) -> pending (nstore n) = None ->
  napplies n = Committed [] ts index :: rest ->
  Verify Canonicalize ed25519_verify (verifyPub caller) m1 crc1 sig1 = Ret tt ->
  Verify Canonicalize ed25519_verify (verifyPub caller) m2 crc2 sig2 = Ret tt ->
  Body m1 = E_set (Ok key) (Ok value) -> Body m2 = E_getFieldByKey (Ok key) old ->
  unreserved key -> blen key + 4 + blen value < 2 ^ 32 ->
  let '(n1, r1) := handleShmEvent m1 crc1 sig1 caller n in
  r1 = Ret m1 /\ committed (nstore n1) = <[key := value]> (committed (nstore n)) /\
  (handleShmEvent m2 crc2 sig2 caller n1).2 = Ret (SetBody (E_getFieldByKey (Ok key) (Ok value)) m2).
Proof.
  intros Hr Hl Hh Hp Hs Hv1 Hv2 HB1 HB2 Hk Hsize. rewrite local_request by done.
  destruct (set_dispatched m1 key value caller n ts index rest) as (n1 & -> & Hcom & Hh1); [done..|].
  split_and!; [done|done|]. rewrite local_request by done. unfold dispatch. rewrite HB2.
  pose proof (get_finds m2 key value n1) as Hget.
  destruct (onGetFieldByKey m2 (Ok key) n1) as [n2 r2]. cbn [snd] in Hget. rewrite Hget; [done|done|]. rewrite Hcom. apply lookup_insert_eq.
Qed.
