(* ===== verification/ExecuteProps.v ===== *)
(** Notifications: who can put one into a node's inbox, and in which order the
    operator polls them. *)

From S2P Require Import Prelude Store StoreLogic SystemKeys Payloads LogRecord Txn Fsm FsmSpec FsmProps FsmInvariants FsmOps Events Stream Quota Session Node Acl Forward Dial Join Execute Remote Channel Handler HandlerProps.
#[local] Open Scope Z_scope.

(** * Lemmas *)

(** A signed notification of the peer [sender], saying it comes from [s]. *)
Definition signed_notification `{Env} (buf sender s v : bytes) : Prop :=
  exists m crc sig sourceId destinationId pub,
    Decode Canonicalize Unmarshal buf = Ret (m, crc, sig) /\
    Body m = E_execute sourceId destinationId (Ok s) (Ok v) /\
    peer_Decode s = Ret sender /\ peer_PublicKey sender = Ret pub /\
    Verify Canonicalize ed25519_verify pub m crc sig = Ret tt.

(** What receiving [buf] at [n] may come to: nothing changes and an error is
    returned, or the notification of a member is queued. *)
Definition delivery `{Env} (buf : gores bytes) (n : node) (x : node * gores unit) : Prop :=
  (ninbox x.1 = ninbox n /\ is_ret x.2 = false) \/
  (x.2 = Ret tt /\ exists b sender s v, buf = Ret b /\ signed_notification b sender s v /\
     member (committed (nstore n)) sender ReservedGroupCluster /\
     ninbox x.1 = push (mkNotification s v) (ninbox n)).

Lemma post_lift {A B : Type} (Q : node * gores B -> Prop) fmt (r : gores A) (k : A -> D B) n :
  (forall r', is_ret r' = false -> Q (n, r')) -> (forall a, r = Ret a -> Q (k a n)) ->
  Q ((liftD (wrap_err fmt r) ≫= k) n).
Proof. intros Hf Hk. unfold mbind, D_bind, liftD. destruct r as [a|e|]; cbn; eauto. Qed.

Lemma receiveExecute_delivery `{Env} buf n : delivery buf n (receiveExecute buf n).
Proof.
  assert (forall r, is_ret r = false -> delivery buf n (n, r)) as Hfail by (left; by split).
  unfold receiveExecute. apply post_lift; [done|]. intros b ->. apply post_lift; [done|]. intros [[m crc] sig] Hd.
  destruct (Body m) as [| | | | | | | | | |sourceId destinationId [s|] [v|]| | | | | | | | | | | | | | | | | | | | | | | | | | | | | | | | | | | | | | | | | | | |] eqn:HB;
    try (by apply Hfail).
  apply post_lift; [done|]. intros s' [= <-]. apply post_lift; [done|]. intros v' [= <-].
  apply post_lift; [done|]. intros sender Hs. apply post_lift; [done|]. intros pub Hpub.
  apply post_lift; [done|]. intros [] Hv.
  unfold mbind, D_bind, onStore.
  destruct (isInGroupSt_sound sender ReservedGroupCluster (nstore n)) as (w & [|] & -> & _ & _ & _ & Hm & _).
  - right. split; [done|]. exists b, sender, s, v. split_and!; [done| |auto|done]. by exists m, crc, sig, sourceId, destinationId, pub.
  - left. done.
Qed.

(** The inbox after a series of pushes. *)
Definition pushAll (es entries : list executeNotification) : list executeNotification :=
  fold_left (fun q e => push e q) es entries.

Lemma push_latest e es :
  push e (drop (length es - 256) es) = drop (length (es ++ [e]) - 256) (es ++ [e]).
Proof.
  unfold push, maxExecuteInbox. rewrite length_app. cbn [length].
  destruct (Z.leb_spec 256 (blen (drop (length es - 256) es))) as [Hge|Hlt]; unfold blen in *; rewrite length_drop in *.
  - rewrite drop_app_le by lia. f_equal. assert (forall l : list executeNotification, tail l = drop 1 l) as -> by (by destruct l).
    rewrite drop_drop. f_equal. lia.
  - rewrite drop_app_le by lia. f_equal. f_equal. lia.
Qed.

(** Polls return the latest 256 notifications, oldest first. *)
Lemma inbox_keeps_latest es : pushAll es [] = drop (length es - 256) es.
Proof.
  unfold pushAll. induction es as [|e es IH] using rev_ind; [done|].
  rewrite fold_left_app. cbn [fold_left]. rewrite IH. apply push_latest.
Qed.

(** * Theorem *)

(** Notifications are authenticated and delivered in order: a message on the
    notification protocol changes the inbox only when it is signed by the peer
    it names as sender and that peer is in the cluster group, and then that
    notification is appended; the inbox is always the latest 256 notifications
    accepted, oldest first, which is the order the operator polls them in. *)
Theorem notification_authenticated `{Env} (buf : gores bytes) (n : node) (es : list executeNotification) :
  let n' := (handleExecuteStream buf n).1 in
  (ninbox n' = ninbox n \/
   exists b sender s v, buf = Ret b /\ signed_notification b sender s v /\
     member (committed (nstore n)) sender ReservedGroupCluster /\
     ninbox n' = push (mkNotification s v) (ninbox n)) /\
  pushAll es [] = drop (length es - 256) es /\
  forall e rest, (inboxPop n).2 = Ret (Some e) /\ ninbox (inboxPop n).1 = rest <-> ninbox n = e :: rest.
Proof.
  intros n'. split_and!; [|apply inbox_keeps_latest|].
  - subst n'. unfold handleExecuteStream, answerError, mbind, D_bind, tryD.
    destruct (receiveExecute_delivery buf n) as [[Hi _]|[_ Hd]]; destruct (receiveExecute buf n) as [n1 [[]|e|]]; auto.
  - intros e rest. unfold inboxPop, pop. destruct (ninbox n) as [|e' rest'] eqn:E; cbn; [split; [by intros [[=] _]|done]|].
    split; [by intros [[= <-] <-]|by intros [= -> ->]].
Qed.
