(* ===== verification/NodeSafety.v ===== *)
(** No input crashes a node: none of its entry points panics, whatever bytes a
    peer or the operator sends, as long as the third-party functions it calls
    return. *)

From S2P Require Import Prelude Store StoreLogic SystemKeys Payloads LogRecord Txn Hex Fsm FsmSpec FsmProps FsmInvariants FsmOps Events Stream Quota Session Node Acl Forward Dial Join Execute Remote Channel Handler HandlerProps NodeInvariants.
#[local] Open Scope Z_scope.

(** * Methods that return *)

(** One upload of a channel at most: its goroutine is running or has ended. *)
Definition session_calm (s : channelSession) : Prop :=
  (up s = false -> uploadPumps s = [] /\ uploadDrained s = false) /\
  (length (uploadPumps s) + (if uploadDrained s then 1 else 0) <= 1)%nat.

Definition channels_calm (t : channelTable) : Prop := map_Forall (fun _ s => session_calm s) (sessions t).

(** Between two calls no transaction is open. *)
Definition calm (n : node) : Prop := pending (nstore n) = None /\ channels_calm (channels (nio n)).

(** Such a call keeps it that way, and returns. *)
Definition ReturnsAt {A} (n : node) (m : D A) : Prop := calm n -> calm (m n).1 /\ no_panic (m n).2.
Definition Returns {A} (m : D A) : Prop := forall n, ReturnsAt n m.

(** The third-party functions return a value or an error. *)
Class EnvReturns `{Env} : Prop := {
  peer_Decode_returns s : no_panic (peer_Decode s);
  peer_PublicKey_returns id : no_panic (peer_PublicKey id);
  ResolveAddress_returns a : no_panic (ResolveAddress a);
  NewMultiaddr_returns a : no_panic (NewMultiaddr a);
  AddrInfoFromP2pAddr_returns a : no_panic (AddrInfoFromP2pAddr a);
  json_unbootstrap_returns v : no_panic (json_unbootstrap v);
  json_unrecord_returns v : no_panic (json_unrecord v);
  json_unjoin_returns v : no_panic (json_unjoin v);
  json_record_returns r : no_panic (json_record r);
  json_poke_returns c i : no_panic (json_poke c i);
  Canonicalize_returns m : no_panic (Canonicalize m);
  Marshal_returns m : no_panic (Marshal m);
  Unmarshal_returns b : no_panic (Unmarshal b);
}.

(** The libp2p host has an address at all times. *)
Class HostListens `{Env} : Prop := host_listens now : HostAddrs now <> [].

Create HintDb returns.
#[export] Hint Resolve peer_Decode_returns peer_PublicKey_returns ResolveAddress_returns NewMultiaddr_returns
  AddrInfoFromP2pAddr_returns json_unbootstrap_returns json_unrecord_returns json_unjoin_returns json_record_returns
  json_poke_returns Canonicalize_returns Marshal_returns Unmarshal_returns : returns.
#[export] Hint Resolve no_panic_wrap ParseKey_safe DecodeCommandPayload_safe DecodeExecInviteRecord_safe
  decodeCommand_safe : returns.

(** Database code that leaves no transaction open, and returns. *)
Definition Tame {A} (m : M A) : Prop := forall w, pending w = None -> pending (m w).1 = None /\ no_panic (m w).2.

Section Rules.
Context {A B : Type}.

Lemma returns_at_bind n (m : D A) (k : A -> D B) :
  ReturnsAt n m -> (forall a, (m n).2 = Ret a -> ReturnsAt (m n).1 (k a)) -> ReturnsAt n (m ≫= k).
Proof.
  intros Hm Hk Hn. unfold mbind, D_bind. destruct (Hm Hn) as [Hp Hr].
  destruct (m n) as [n' [a|e|]]; cbn in *; [by apply Hk|done..].
Qed.

Lemma returns_bind (m : D A) (k : A -> D B) : Returns m -> (forall a, Returns (k a)) -> Returns (m ≫= k).
Proof. intros Hm Hk n. apply returns_at_bind; [apply Hm|]. intros a _. apply Hk. Qed.

Lemma returns_lift (r : gores A) : no_panic r -> Returns (liftD r).
Proof. by intros Hr n Hn. Qed.

(** The rest may use what a pure computation returned. *)
Lemma returns_lift_bind (r : gores A) (k : A -> D B) :
  no_panic r -> (forall a, r = Ret a -> Returns (k a)) -> Returns (liftD r ≫= k).
Proof. intros Hr Hk n. apply returns_at_bind; [by apply returns_lift|]. intros a E. by apply Hk. Qed.

Lemma returns_ret (a : A) : Returns (mret a).
Proof. by intros n Hn. Qed.

Lemma returns_gets (f : node -> A) : Returns (gets f).
Proof. by intros n Hn. Qed.

Lemma returns_getIo (f : io -> A) : Returns (getIo f).
Proof. by intros n Hn. Qed.

Lemma returns_at_try n (m : D A) : ReturnsAt n m -> ReturnsAt n (tryD m).
Proof. intros Hm Hn. specialize (Hm Hn). unfold tryD. by destruct (m n) as [n' []]. Qed.

Lemma returns_try (m : D A) : Returns m -> Returns (tryD m).
Proof. intros Hm n. by apply returns_at_try. Qed.

Lemma returns_wrap fmt (m : D A) : Returns m -> Returns (wrapD fmt m).
Proof. intros Hm n Hn. specialize (Hm n Hn). unfold wrapD. destruct (m n) as [n' []]; cbn in *; done. Qed.

Lemma tame_lift (r : gores A) : no_panic r -> Tame (liftG r).
Proof. by intros Hr w Hw. Qed.

Lemma tame_bind (m : M A) (k : A -> M B) : Tame m -> (forall a, Tame (k a)) -> Tame (m ≫= k).
Proof.
  intros Hm Hk w Hw. unfold mbind, M_bind. destruct (Hm w Hw) as [Hp Hr].
  destruct (m w) as [w' [a|e|]]; cbn in *; [by apply Hk|done..].
Qed.

Lemma tame_try (m : M A) : Tame m -> Tame (try m).
Proof. intros Hm w Hw. specialize (Hm w Hw). unfold try. by destruct (m w) as [w' []]. Qed.

Lemma tame_reads s (m : M A) f : Reads s m f -> (forall t, no_panic (f t)) -> Tame m.
Proof.
  intros Hm Hf w Hw. destruct (Hm _ w eq_refl) as (w' & r & -> & _ & Hp & _ & Hr).
  cbn. rewrite Hp. split; [done|]. destruct Hr as [->|[_ Hr]]; [apply Hf|by destruct r].
Qed.

Lemma returns_store_raw (m : M A) : Tame m -> Returns (onStore m).
Proof.
  intros Hm n [Hp Hc]. unfold onStore. destruct (Hm (nstore n) Hp) as [Hp' Hr]. by destruct (m (nstore n)) as [w r].
Qed.

Lemma returns_store s (m : M A) f : Reads s m f -> (forall t, no_panic (f t)) -> Returns (onStore m).
Proof.
  intros Hm Hf. apply returns_store_raw. by eapply tame_reads.
Qed.
End Rules.

Lemma returns_modify f : (forall n, nstore (f n) = nstore n /\ nio (f n) = nio n) -> Returns (modify f).
Proof. intros Hf n [Hp Hc]. unfold calm. cbn. destruct (Hf n) as [-> ->]. done. Qed.

Lemma returns_modifyIo f : (forall x, channels_calm (channels x) -> channels_calm (channels (f x))) -> Returns (modifyIo f).
Proof. intros Hf n [Hp Hc]. split; [|done]. split; [done|]. by apply Hf. Qed.

Lemma returns_logged m : Returns m -> Returns (logged m).
Proof. intros Hm. apply returns_bind; [by apply returns_try|intros; apply returns_ret]. Qed.

Lemma returns_Apply l : Returns (onStore (Apply l)).
Proof.
  apply returns_store_raw. intros w Hn. destruct (Apply_refines l _ w Hn eq_refl) as (w' & r & -> & Hp & _ & Hr).
  split; [done|]. cbn. destruct Hr as [E|(_ & Hf & _)]; [|by destruct r].
  pose proof (applySpec_safe l (committed w)) as Hs. by rewrite <- E in Hs.
Qed.
#[export] Hint Resolve returns_ret returns_gets returns_getIo returns_logged returns_Apply : returns.

Lemma panics_not {A : Type} (r : gores A) : no_panic r -> r = Panic -> False.
Proof. by intros Hr ->. Qed.

(** Follow the structure of a method, branch by branch. *)
Ltac returns :=
  repeat first
    [ progress eauto 3 with returns
    | match goal with
      | |- no_panic (Ret _) => exact I
      | |- no_panic (Fail _) => exact I
      | E : ?r = Panic |- no_panic Panic => exfalso; apply (panics_not r); [eauto with returns|exact E]
      | |- no_panic (rd ?f) => destruct f; exact I
      | |- no_panic (wrap_err _ _) => apply no_panic_wrap
      | |- no_panic (let _ := _ in _) => cbv zeta
      | |- no_panic (_ ≫= _) => apply no_panic_bind; [|intros ? ?]
      | |- no_panic (match ?x with _ => _ end) => destruct x eqn:?
      | |- Returns (let _ := _ in _) => cbv zeta
      | |- Returns (liftD _ ≫= _) => apply returns_lift_bind; [|intros ? ?]
      | |- Returns (_ ≫= _) => apply returns_bind; [|intros ?]
      | |- Returns (liftD _) => apply returns_lift
      | |- Returns (fail _) => apply returns_lift; exact I
      | |- Returns (modify _) => apply returns_modify; done
      | |- Returns (modifyIo _) => apply returns_modifyIo; done
      | |- Returns (wrapD _ _) => apply returns_wrap
      | |- Returns (tryD _) => apply returns_try
      | |- Returns (match ?x with _ => _ end) => destruct x eqn:?
      end ].

(** * Pure code *)

Section Pure.
Context `{Env} `{!EnvReturns}.

Lemma rejectReservedKey_returns key : no_panic (rejectReservedKey key).
Proof. destruct key; cbn; returns. Qed.
Hint Resolve rejectReservedKey_returns : returns.

Lemma rejectReservedOps_returns ops : no_panic (rejectReservedOps ops).
Proof. induction ops; cbn [rejectReservedOps]; returns. Qed.

Lemma relation_keys_return a b : no_panic (PeerGroupKey a b) /\ no_panic (GroupCommandKey a b).
Proof. unfold PeerGroupKey, GroupCommandKey. split; returns. Qed.

Lemma PeerGroupKey_returns a b : no_panic (PeerGroupKey a b).
Proof. apply relation_keys_return. Qed.

Lemma GroupCommandKey_returns a b : no_panic (GroupCommandKey a b).
Proof. apply relation_keys_return. Qed.

Lemma BuildKey_returns kind unitID ts rnd : no_panic (BuildKey kind unitID ts rnd).
Proof. unfold BuildKey. returns. Qed.

Lemma logKindOfBound_returns key : no_panic (logKindOfBound key).
Proof. unfold logKindOfBound. safe. Qed.

Lemma EncodeStationPayload_returns a b : no_panic (EncodeStationPayload a b).
Proof. unfold EncodeStationPayload. returns. Qed.

Lemma EncodeCommandRequest_returns a b : no_panic (EncodeCommandRequestApplyPayload a b).
Proof. unfold EncodeCommandRequestApplyPayload. returns. Qed.

Lemma EncodeCommandPayload_returns a b : no_panic (EncodeCommandPayload a b).
Proof. unfold EncodeCommandPayload, checkCommandNameLen. returns. Qed.
Hint Resolve EncodeCommandPayload_returns EncodeCommandPayloadWithSpec_safe : returns.

Lemma EncodeCommandPayloadClearingSpec_returns a b : no_panic (EncodeCommandPayloadClearingSpec a b).
Proof.
  unfold EncodeCommandPayloadClearingSpec. apply no_panic_bind; [returns|]. intros p Hp.
  destruct (slice_ok p 0 (blen p - 1)) as (s & -> & _); [|lia|done].
  unfold EncodeCommandPayloadWithSpec in Hp. change (blen [Byte.x00] =? 0) with false in Hp. cbv iota in Hp. unbind Hp. apply (inj Ret) in Hp as <-.
  pose proof (blen_nonneg a). pose proof (blen_nonneg b). lens.
Qed.
Hint Resolve EncodeCommandPayloadClearingSpec_returns : returns.

Lemma commandPutValue_returns name peer spec : no_panic (commandPutValue name peer spec).
Proof. unfold commandPutValue. returns. Qed.

Lemma DecodeJoinInviteRecord_returns v : no_panic (DecodeJoinInviteRecord v).
Proof. unfold DecodeJoinInviteRecord. destruct (Z.eqb_spec (blen v) 1); cbn; [|done]. by destruct (idx_ok v 0) as [? ->]; [lia|]. Qed.

Lemma decodeForwardResponse_returns buf : no_panic (decodeForwardResponse buf).
Proof.
  unfold decodeForwardResponse. pose proof (blen_nonneg buf). destruct (Z.eqb_spec (blen buf) 0); [done|].
  destruct (idx_ok buf 0) as [x ->]; [lia|]. cbn [mbind gores_bind].
  destruct (byte_eqb x forwardStatusOK); [|returns]. destruct (Z.eqb_spec (blen buf) 9); [|done]. cbn [negb].
  by destruct (read_be_ok buf 1 9) as (? & -> & _); [lia..|].
Qed.

Lemma hex_decode_returns s : no_panic (hex_decode s).
Proof.
  revert s. fix IH 1. intros [|a [|b s]]; cbn [hex_decode]; [done|by destruct (hex_value a)|].
  destruct (hex_value a), (hex_value b); [|done..]. apply no_panic_bind; [apply IH|done].
Qed.
Hint Resolve hex_decode_returns : returns.

Lemma scanLine_returns s : no_panic (scanLine s).
Proof. unfold scanLine. returns. Qed.
Hint Resolve scanLine_returns : returns.

Lemma splitInviteToken_returns a : no_panic (splitInviteToken a).
Proof. unfold splitInviteToken. returns. Qed.

Lemma parseJoinRequest_returns input : no_panic (parseJoinRequest input).
Proof. unfold parseJoinRequest, joinFields, parseSuffrage. returns. Qed.

Lemma resolveAddr_returns a : no_panic (resolveAddr a).
Proof. unfold resolveAddr. returns. Qed.

Lemma rd_returns {A : Type} (f : ptr A) : no_panic (rd f).
Proof. by destruct f. Qed.
Hint Resolve rd_returns : returns.

Lemma readTxnOps_returns l : no_panic (readTxnOps l).
Proof. induction l; cbn [readTxnOps]; returns. Qed.
Hint Resolve readTxnOps_returns : returns.

Lemma TxnOps_returns ops : no_panic (TxnOps ops).
Proof. unfold TxnOps. returns. Qed.

Lemma EncodeTxnPayload_returns ops : no_panic (EncodeTxnPayload ops).
Proof.
  unfold EncodeTxnPayload. destruct (_ <? _); [done|]. apply no_panic_bind; [|done].
  induction ops; cbn [checkTxnOps]; unfold checkTxnOp; returns.
Qed.

(** The message envelope. *)
Lemma canonical_returns m crc : no_panic (marshalWithCrcAndEmptySig Canonicalize m crc).
Proof. unfold marshalWithCrcAndEmptySig. returns. Qed.
Hint Resolve canonical_returns : returns.

Lemma Verify_returns pub m crc sig : no_panic (Verify Canonicalize ed25519_verify pub m crc sig).
Proof. unfold Verify, signedPayload. returns. Qed.

Lemma Encode_returns m priv : no_panic (Encode Canonicalize ed25519_sign Marshal m priv).
Proof. unfold Encode, Sign, signedPayload, crc32Of. returns. Qed.

Lemma Decode_returns buf : no_panic (Decode Canonicalize Unmarshal buf).
Proof. unfold Decode, crc32Of. returns. Qed.

Lemma executeNotification_returns a b : no_panic (NewExecuteNotification a b).
Proof. unfold NewExecuteNotification, checkValueSize, checkValueLen. returns. Qed.

Lemma redeemNotification_returns a b : no_panic (NewExecInviteRedeemNotification a b).
Proof. unfold NewExecInviteRedeemNotification, checkExecToken. returns. Qed.
End Pure.
#[export] Hint Resolve rejectReservedKey_returns rejectReservedOps_returns PeerGroupKey_returns GroupCommandKey_returns
  BuildKey_returns logKindOfBound_returns EncodeStationPayload_returns EncodeCommandRequest_returns
  EncodeCommandPayload_returns commandPutValue_returns DecodeJoinInviteRecord_returns decodeForwardResponse_returns
  hex_decode_returns scanLine_returns splitInviteToken_returns parseJoinRequest_returns resolveAddr_returns
  rd_returns TxnOps_returns EncodeTxnPayload_returns Verify_returns Encode_returns Decode_returns
  executeNotification_returns redeemNotification_returns : returns.

(** * Calls out of the node *)

Section Calls.
Context `{Env} `{!EnvReturns}.

Lemma returns_applyOthers ls : Returns (applyOthers ls).
Proof. induction ls; cbn [applyOthers]; returns. Qed.
Hint Resolve returns_applyOthers : returns.

Lemma returns_raftApply cmd : Returns (raftApply cmd).
Proof. unfold raftApply. returns. Qed.

Lemma returns_changeConfig c : Returns (changeConfig c).
Proof. unfold changeConfig. returns. apply returns_modify. intros n. by destruct (nraft n). Qed.

Lemma returns_exchange proto dest payload : Returns (exchange proto dest payload).
Proof. unfold exchange. returns. Qed.

Lemma returns_randomBytes : Returns randomBytes.
Proof. unfold randomBytes. returns. Qed.

Lemma returns_get k : Returns (onStore (get Store k)).
Proof. eapply returns_store; [apply reads_get|]. intros t. cbn. by destruct (t !! k). Qed.

Lemma returns_scanRange lo hi limit : Returns (onStore (scanRange Store lo hi limit)).
Proof. by eapply returns_store; [apply reads_scanRange|]. Qed.

Lemma returns_resolve : Returns resolveWriteTarget.
Proof.
  intros n Hn. unfold resolveWriteTarget. destruct (pollLeader _ _) as [rf r] eqn:E. split; [done|]. cbn.
  assert (no_panic (pollLeader (nraft n) (default [] (head (nviews n)))).2) as Hr; [|by rewrite E in Hr].
  clear E. generalize (nraft n) (default [] (head (nviews n))). intros now ticks. revert now.
  induction ticks as [|later ticks IH]; intros now; cbn [pollLeader]; destruct (lookForLeader now); [done| |done|apply IH].
  by destruct now.
Qed.

Lemma returns_awaitLeader : Returns awaitLeader.
Proof.
  intros n Hn. unfold awaitLeader. destruct (pollOwnLeadership _ _) as [rf r] eqn:E. split; [done|]. cbn.
  assert (no_panic (pollOwnLeadership (nraft n) (default [] (head (nviews n)))).2) as Hr; [|by rewrite E in Hr].
  clear E. generalize (nraft n) (default [] (head (nviews n))). intros now ticks. revert now.
  induction ticks as [|later ticks IH]; intros now; cbn [pollOwnLeadership]; destruct (leads now); [done| |done|apply IH].
  destruct now; cbn; [|done]. by destruct (bytes_eqb _ _).
Qed.

Lemma returns_initRaft : Returns initRaft.
Proof. intros n Hn. unfold initRaft. destruct (nraft n); [done|]. by destruct (ninits n) as [|[] ?]. Qed.
End Calls.
#[export] Hint Resolve returns_raftApply returns_changeConfig returns_exchange returns_randomBytes returns_get
  returns_scanRange returns_resolve returns_awaitLeader returns_initRaft : returns.

(** * Reaching other nodes *)

Section DialReturns.
Context `{Env} `{!EnvReturns}.

Lemma addrInfo_returns addr : no_panic (addrInfo addr).
Proof. unfold addrInfo. returns. Qed.
Hint Resolve addrInfo_returns : returns.

Lemma addCandidates_returns candidates addrs : no_panic (addCandidates candidates addrs).
Proof. revert candidates. induction addrs; intros candidates; cbn [addCandidates]; unfold addCandidate; returns. Qed.

Lemma bootstrapEntries_returns matches : no_panic (bootstrapEntries matches).
Proof. induction matches as [|[k v] matches IH]; cbn [bootstrapEntries]; returns. Qed.

Lemma circuitsThrough_returns targetID candidates : no_panic (circuitsThrough targetID candidates).
Proof.
  induction candidates as [|relay candidates IH]; cbn [circuitsThrough]; [done|].
  apply no_panic_bind; [|intros; returns]. induction (infoAddrs relay); cbn [relayCircuits]; returns.
Qed.
Hint Resolve addCandidates_returns bootstrapEntries_returns circuitsThrough_returns : returns.

Lemma returns_relayCandidates : Returns (onStore relayCandidates).
Proof.
  apply returns_store_raw. unfold relayCandidates. apply tame_bind; [apply tame_lift; returns|intros configured].
  destruct BootstrapNodeKeyBounds as [lo hi]. apply tame_bind; [|intros [matches|e]; [|done]].
  - apply tame_try. eapply tame_reads; [apply reads_scanRange|done].
  - apply tame_bind; [apply tame_lift; returns|intros entries; apply tame_lift; returns].
Qed.
Hint Resolve returns_relayCandidates : returns.

Lemma returns_resolveDialAddr addr : Returns (resolveDialAddr addr).
Proof. unfold resolveDialAddr. returns. Qed.

Lemma returns_dialAttempts attempts : Returns (dialAttempts attempts).
Proof.
  induction attempts as [|rest IH]; cbn [dialAttempts]; unfold hostConnect; returns.
Qed.
Hint Resolve returns_dialAttempts : returns.

Lemma returns_connectWithRetry : Returns connectWithRetry.
Proof. unfold connectWithRetry. returns. Qed.

Lemma returns_awaitRelayAddr : Returns awaitRelayAddr.
Proof. unfold awaitRelayAddr. returns. Qed.

Lemma returns_hasConfirmed : Returns hasConfirmedReachableAddr.
Proof. unfold hasConfirmedReachableAddr. returns. Qed.

Lemma returns_isRelayCandidate pid : Returns (isRelayCandidate pid).
Proof. unfold isRelayCandidate. returns. Qed.
End DialReturns.
#[export] Hint Resolve addrInfo_returns returns_resolveDialAddr returns_connectWithRetry returns_awaitRelayAddr
  returns_hasConfirmed returns_isRelayCandidate : returns.

(** * Methods *)

Section Methods.
Context `{Env} `{!EnvReturns} `{!HostListens}.

Lemma returns_firstAdvertised : Returns firstAdvertised.
Proof. intros n Hn. destruct (firstAdvertised_run n (host_listens _)) as [addr ->]. by split. Qed.

Lemma returns_firstAdvertisedOnStream : Returns firstAdvertisedOnStream.
Proof. unfold firstAdvertisedOnStream. returns. apply returns_firstAdvertised. Qed.
#[local] Hint Resolve returns_firstAdvertised returns_firstAdvertisedOnStream : returns.


Lemma returns_handleOpForward op key value allow : Returns (handleOpForward op key value allow).
Proof. unfold handleOpForward, applyOp, forwardOp, dialForward. returns. Qed.
Hint Resolve returns_handleOpForward : returns.

Lemma returns_handleSetForward key value allow : Returns (handleSetForward key value allow).
Proof. unfold handleSetForward. returns. Qed.
Hint Resolve returns_handleSetForward : returns.

Lemma returns_applyOther op key1 key2 : Returns (applyOther op key1 key2).
Proof. unfold applyOther, applyConfirmWith, noAdmission. returns. Qed.
Hint Resolve returns_applyOther : returns.

Lemma returns_handleOtherForward op key1 key2 allow : Returns (handleOtherForward op key1 key2 allow).
Proof.
  unfold handleOtherForward, handleConfirmForwardWith, applyConfirmWith, noAdmission, forwardConfirm, dialForward. returns.
Qed.
Hint Resolve returns_handleOtherForward : returns.

Lemma returns_setPeerGroup p g : Returns (setPeerGroup p g).
Proof. unfold setPeerGroup. returns. Qed.

Lemma returns_deletePeerGroup p g : Returns (deletePeerGroup p g).
Proof. unfold deletePeerGroup. returns. Qed.
Hint Resolve returns_setPeerGroup returns_deletePeerGroup : returns.

Lemma returns_syncMemberGroups p role : Returns (syncMemberGroups p role).
Proof. unfold syncMemberGroups, ensurePersonalGroup. returns. Qed.

Lemma returns_clearMemberGroups p : Returns (clearMemberGroups p).
Proof. unfold clearMemberGroups. returns. Qed.

Lemma returns_recordClusterMember p role : Returns (recordClusterMember p role).
Proof. unfold recordClusterMember. returns. Qed.

Lemma returns_transfer : Returns transferLeadershipToStableVoter.
Proof. unfold transferLeadershipToStableVoter. returns. Qed.
Hint Resolve returns_syncMemberGroups returns_clearMemberGroups returns_recordClusterMember returns_transfer : returns.

Lemma returns_addServerLine p addr suffrage : Returns (addServerLine p addr suffrage).
Proof. unfold addServerLine. returns. Qed.

Lemma returns_removeServerLine p : Returns (removeServerLine p).
Proof. unfold removeServerLine. returns. Qed.
Hint Resolve returns_addServerLine returns_removeServerLine : returns.

Lemma returns_admit key : Returns (admitClusterJoinIfConfirmed key).
Proof.
  unfold admitClusterJoinIfConfirmed. destruct (Z.ltb_spec (blen key) 3); [returns|].
  destruct (idx_ok key 0) as [k0 ->]; [lia|]. destruct (idx_ok key 1) as [k1 ->]; [lia|].
  destruct (slice_ok key 3 (blen key)) as (id & E & _); [lia..|]. unfold slice_from. rewrite E. returns.
Qed.
Hint Resolve returns_admit : returns.

Lemma returns_handleConfirmForward op key1 key2 allow : Returns (handleConfirmForward op key1 key2 allow).
Proof. unfold handleConfirmForward, handleConfirmForwardWith, applyConfirmWith, forwardConfirm, dialForward. returns. Qed.

Lemma returns_leaveCluster : Returns leaveCluster.
Proof. unfold leaveCluster, forwardLeave, dialForward, lineError. returns. Qed.

Lemma returns_kickPeer p : Returns (kickPeer p).
Proof. unfold kickPeer, forwardKick, dialForward, lineError. returns. Qed.

Lemma returns_ensureReservedGroups : Returns ensureReservedGroups.
Proof. unfold ensureReservedGroups, ensureReservedGroup. returns. Qed.

Lemma returns_ensureDefaultPublicCommand : Returns ensureDefaultPublicCommand.
Proof. unfold ensureDefaultPublicCommand. returns. Qed.
Hint Resolve returns_handleConfirmForward returns_leaveCluster returns_kickPeer returns_ensureReservedGroups
  returns_ensureDefaultPublicCommand : returns.

Lemma returns_answerError m : Returns m -> Returns (answerError m).
Proof. intros Hm. unfold answerError. returns. Qed.
Hint Resolve returns_answerError : returns.

Lemma returns_forwardJoin leader p addr suffrage token : Returns (forwardJoin leader p addr suffrage token).
Proof. unfold forwardJoin, dialForward. returns. Qed.
Hint Resolve returns_forwardJoin : returns.

Lemma returns_admitOrLodgeJoin req : Returns (admitOrLodgeJoin req).
Proof. unfold admitOrLodgeJoin, consumeJoinInvite, lodgeJoinRequest. returns. Qed.
Hint Resolve returns_admitOrLodgeJoin : returns.

Lemma returns_handleAdd leader : Returns (handleAdd leader).
Proof. unfold handleAdd, join. returns. Qed.

Lemma returns_handleAddDispatch claimed addr remote : Returns (handleAddDispatch claimed addr remote).
Proof. unfold handleAddDispatch, handleAddLearner. returns. Qed.

Lemma returns_dialAndPushRecruit ticket suffrage : Returns (dialAndPushRecruit ticket suffrage).
Proof. unfold dialAndPushRecruit, mintJoinInvite. returns. Qed.

Lemma returns_sendExecute dest value : Returns (sendExecute dest value).
Proof. unfold sendExecute. returns. Qed.
Hint Resolve returns_handleAdd returns_handleAddDispatch returns_dialAndPushRecruit returns_sendExecute : returns.

Lemma returns_dispatchExecute s d value : Returns (dispatchExecute s d value).
Proof. unfold dispatchExecute. returns. Qed.

Lemma tame_isInGroup id g : Tame (isInGroupSt id g).
Proof. intros w Hw. destruct (isInGroupSt_sound id g w) as (w' & b & -> & _ & Hp & _). by rewrite <- Hw, <- Hp. Qed.

Lemma returns_isInGroup id g : Returns (onStore (isInGroupSt id g)).
Proof. apply returns_store_raw, tame_isInGroup. Qed.

Lemma returns_dialAndRedeem a token : Returns (dialAndRedeemExecInvite a token).
Proof. unfold dialAndRedeemExecInvite. returns. Qed.
Hint Resolve returns_dispatchExecute returns_isInGroup returns_dialAndRedeem : returns.

Lemma returns_appendLogRecord kind unitID author fields narrative :
  Returns (appendExecInviteLogRecord kind unitID author fields narrative).
Proof. unfold appendExecInviteLogRecord, applySet, applyOp. returns. Qed.
Hint Resolve returns_appendLogRecord : returns.

Lemma returns_processRedeem buf : Returns (processExecInviteRedeem buf).
Proof.
  unfold processExecInviteRedeem, applyConsumeExecInvite, newExecInviteInstanceID, writeExecInviteCommandRequest,
    pokeTarget. returns.
Qed.
Hint Resolve returns_processRedeem : returns.

Lemma returns_authorised id g : Returns (isAuthorizedForGatedAccess id g).
Proof.
  apply returns_store_raw. unfold isAuthorizedForGatedAccessSt, orM.
  repeat (apply tame_bind; [apply tame_isInGroup|]; intros []; [done|]). apply tame_isInGroup.
Qed.

Lemma returns_permitted commandID p : Returns (onStore (IsPermittedForCommand Store commandID p)).
Proof.
  apply returns_store_raw. intros w Hw.
  destruct (IsPermittedForCommand_gates Store _ commandID p w eq_refl) as (w' & r & -> & _ & Hp & _ & Hr).
  cbn. rewrite Hp. split; [done|]. destruct Hr as [->|[_ [Hr| ->]]]; [apply permitted_safe|by destruct r|done].
Qed.
Hint Resolve returns_authorised returns_permitted : returns.

Lemma returns_gate caller m : Returns (gate caller m).
Proof. unfold gate, isCommandLogCarveOut, boundKind, isCommandLogReadableKind. returns. Qed.

Lemma returns_requireVoter caller : Returns (requireVoter caller).
Proof. unfold requireVoter. returns. Qed.

Lemma returns_inboxPop : Returns inboxPop.
Proof. intros n Hn. unfold inboxPop. by destruct (pop (ninbox n)) as [[? ?]|]. Qed.
Hint Resolve returns_gate returns_requireVoter returns_inboxPop : returns.

Lemma returns_registered id fmt : Returns (registered id fmt).
Proof. unfold registered. returns. Qed.
Hint Resolve returns_registered : returns.

(** ** Other clusters *)

Lemma encodeRecords_returns records : no_panic (encodeRecords records).
Proof. induction records; cbn [encodeRecords]; returns. Qed.

Lemma NewDialQueryCommandLogResponse_returns records : no_panic (NewDialQueryCommandLogResponse records).
Proof. unfold NewDialQueryCommandLogResponse. pose proof (encodeRecords_returns records). returns. Qed.

Lemma NewLogAppend_returns key value : no_panic (NewLogAppend key value).
Proof. unfold NewLogAppend, checkValueSize, checkValueLen. returns. Qed.
Lemma NewListRange_returns lo hi : no_panic (NewListRange lo hi).
Proof. unfold NewListRange. returns. Qed.
Hint Resolve NewDialQueryCommandLogResponse_returns NewLogAppend_returns NewListRange_returns : returns.

Lemma returns_dialAndSubmit a b c d : Returns (dialAndSubmitCommand a b c d).
Proof. unfold dialAndSubmitCommand, newInstanceID, buildCommandRequest. returns. Qed.
Hint Resolve returns_dialAndSubmit : returns.

Lemma returns_publicAccess a b : Returns (dialAndSubmitPublicAccess a b).
Proof. unfold dialAndSubmitPublicAccess. returns. Qed.

Lemma returns_queryPage dest lo hi : Returns (queryPage dest lo hi).
Proof. unfold queryPage. returns. Qed.
Hint Resolve returns_queryPage : returns.

Lemma returns_queryPages fuel dest lo hi limit records : Returns (queryPages fuel dest lo hi limit records).
Proof. revert lo records. induction fuel as [|fuel IH]; intros lo records; cbn [queryPages]; returns. Qed.
Hint Resolve returns_queryPages : returns.

Lemma returns_dialAndQuery a b c d e : Returns (dialAndQueryCommandLog a b c d e).
Proof. unfold dialAndQueryCommandLog. destruct (ScanBounds _ _ _ _). returns. Qed.
Hint Resolve returns_publicAccess returns_dialAndQuery : returns.

(** ** Channels *)

Lemma returns_onChannels f : (forall t, channels_calm t -> channels_calm (f t)) -> Returns (onChannels f).
Proof. intros Hf. apply returns_modifyIo. intros x. apply Hf. Qed.

Lemma returns_putSession channelID s : session_calm s -> Returns (putSession channelID s).
Proof. intros Hs. apply returns_onChannels. intros t Ht. by apply map_Forall_insert_2. Qed.

Lemma returns_updateSession channelID f : (forall s, session_calm s -> session_calm (f s)) -> Returns (updateSession channelID f).
Proof.
  intros Hf. apply returns_onChannels. intros t Ht id s. cbn. destruct (decide (channelID = id)) as [->|Hne].
  - rewrite lookup_alter_eq. intros (s' & E & ->)%fmap_Some. apply Hf. by eapply Ht.
  - rewrite lookup_alter_ne by done. apply Ht.
Qed.

Lemma returns_getSession_bind {A : Type} channelID (k : option channelSession -> D A) :
  (forall s, session_calm s -> Returns (k (Some s))) -> Returns (k None) -> Returns (getSession channelID ≫= k).
Proof.
  intros Hs Hn n. apply returns_at_bind; [apply returns_getIo|]. intros o [= <-] [Hp Hc]. cbn.
  destruct (sessions (channels (nio n)) !! channelID) as [s|] eqn:E; [|by apply Hn]. apply Hs; [by eapply Hc|done].
Qed.

Lemma returns_reapChannels : Returns reapChannels.
Proof.
  unfold reapChannels. apply returns_bind; [apply returns_gets|intros now]. apply returns_onChannels. intros t Ht id s E.
  apply reap_kept in E. by eapply Ht.
Qed.

Lemma returns_quotaAllow p ip cost : Returns (quotaAllow p ip cost).
Proof. unfold quotaAllow. returns. Qed.
Hint Resolve returns_reapChannels returns_quotaAllow : returns.

Lemma openFrame_returns pub buf : no_panic (openFrame pub buf).
Proof.
  unfold openFrame. destruct (decoders_total buf) as (_ & _ & _ & _ & _ & _ & _ & _ & Hd). unfold VerifyChannelChunk. returns.
Qed.

(** A session keeps its upload goroutines when its other fields change. *)
Lemma session_calm_same s s' :
  up s' = up s -> uploadPumps s' = uploadPumps s -> uploadDrained s' = uploadDrained s -> session_calm s -> session_calm s'.
Proof. unfold session_calm. by intros -> -> ->. Qed.

Lemma calm_markClosed reason s : session_calm s -> session_calm (markClosed reason s).
Proof. unfold markClosed. by destruct (closed s). Qed.

Lemma calm_pumpStep now s q s' q' more : session_calm s -> pumpStep now s q = Ret (Some (s', q', more)) -> session_calm s'.
Proof.
  intros Hs. unfold pumpStep. destruct (readFramed _) as [|buf rest|err]; [done| |].
  - cbv zeta. destruct (openFrame _ buf) as [[purpose chunk]|e|]; [destruct (allow _ _ _ _ _ _) as [q1 []]| |done];
      intros [= <- <- <-]; [exact Hs|apply (calm_markClosed _ (set_stream _ s)), Hs..].
  - intros [= <- <- <-]. apply (calm_markClosed _ s), Hs.
Qed.

Lemma calm_pumpLoop fuel now s q s' q' : session_calm s -> pumpLoop fuel now s q = Ret (s', q') -> session_calm s'.
Proof.
  revert s q. induction fuel as [|fuel IH]; intros s q Hs; cbn [pumpLoop]; [by intros [= <- <-]|].
  destruct (negb (pumping s)); [by intros [= <- <-]|].
  destruct (pumpStep now s q) as [[[[s1 q1] []]|]|e|] eqn:E; [| | |done..]; [|by intros [= <- <-]; eapply calm_pumpStep|by intros [= <- <-]].
  apply IH. by eapply calm_pumpStep.
Qed.

Lemma calm_pumped now q s : session_calm s -> session_calm (pumped now q s).
Proof. intros Hs. unfold pumped. destruct (pumpLoop _ _ _ _) as [[s' q']| |] eqn:E; [|done..]. by eapply calm_pumpLoop. Qed.

Lemma pumpLoop_returns fuel now s q : no_panic (pumpLoop fuel now s q).
Proof.
  revert s q. induction fuel as [|fuel IH]; intros s q; cbn [pumpLoop]; [done|]. destruct (negb _); [done|].
  destruct (pumpStep now s q) as [[[[s1 q1] []]|]|e|] eqn:E; [apply IH|done..|]. exfalso. revert E.
  unfold pumpStep. destruct (readFramed _); [done| |done]. cbv zeta.
  match goal with |- context [openFrame ?p ?b] => pose proof (openFrame_returns p b); destruct (openFrame p b) as [[? ?]| |] end;
    [destruct (allow _ _ _ _ _ _) as [? []]|..]; done.
Qed.

Lemma returns_pumpChannelReads channelID : Returns (pumpChannelReads channelID).
Proof.
  unfold pumpChannelReads. apply returns_getSession_bind; [intros s Hs|returns].
  returns; [apply pumpLoop_returns|]. apply returns_updateSession. intros. by apply calm_pumped.
Qed.

Lemma returns_channelArrive channelID x e : Returns (channelArrive channelID x e).
Proof.
  unfold channelArrive. apply returns_bind; [by apply returns_updateSession|]. intros []. apply returns_pumpChannelReads.
Qed.

Lemma calm_writeFrame now buf s : session_calm s -> session_calm (writeFrame now buf s).
Proof. unfold writeFrame. by destruct (writeFramed buf (chStream s)) as [st []]. Qed.

Lemma writeFramed_returns buf s : no_panic (writeFramed buf s).2.
Proof.
  assert (forall b x, no_panic (Write b x).2) as Hw.
  { intros b x. unfold Write. destruct (writeEnd x); [done|]. by destruct (writeFaults x) as [|[k|] ?]. }
  unfold writeFramed. pose proof (Hw (framePrefix buf) s). destruct (Write (framePrefix buf) s) as [s' []]; [apply Hw|done..].
Qed.

Lemma returns_sessionWrite channelID s purpose chunk : Returns (sessionWrite channelID s purpose chunk).
Proof.
  unfold sessionWrite, SignChannelChunk. returns; [|apply writeFramed_returns].
  apply returns_updateSession. intros. by apply calm_writeFrame.
Qed.
Hint Resolve returns_pumpChannelReads returns_channelArrive returns_sessionWrite : returns.

Lemma returns_dispatchChannelSend channelID purpose chunk : Returns (dispatchChannelSend channelID purpose chunk).
Proof. unfold dispatchChannelSend. returns. Qed.

(** A goroutine that is running has not signalled its end. *)
Lemma calm_endUpload k s : session_calm s -> no_panic (endUpload k s).
Proof.
  intros [_ Hl]. unfold endUpload. destruct (uploadPumps s !! k) eqn:Hk; [|done]. apply lookup_lt_Some in Hk.
  destruct (uploadDrained s); [lia|done].
Qed.

Lemma calm_ended k s : session_calm s -> session_calm (match endUpload k s with Ret s' => s' | _ => s end).
Proof.
  intros [Hu Hl]. unfold endUpload. destruct (uploadPumps s !! k) eqn:Hk; [|done].
  destruct (uploadDrained s) eqn:Ed; [by split; rewrite Ed|]. split; cbn.
  - intros E. destruct (Hu E) as [E' _]. by rewrite E' in Hk.
  - rewrite length_delete by eauto. lia.
Qed.

Lemma calm_set_upload k r s : session_calm s -> session_calm (set_upload k r s).
Proof.
  intros [Hu Hl]. split; cbn; [|by rewrite length_insert]. intros E. destruct (Hu E) as [-> ->]. done.
Qed.

Lemma returns_endUploadOf channelID k : Returns (endUploadOf channelID k).
Proof.
  unfold endUploadOf. apply returns_getSession_bind; [intros s Hs|returns].
  returns; [by apply calm_endUpload|]. apply returns_updateSession. intros. by apply calm_ended.
Qed.
Hint Resolve returns_endUploadOf : returns.

Lemma returns_uploadStep channelID k : Returns (uploadStep channelID k).
Proof.
  unfold uploadStep. apply returns_getSession_bind; [intros s Hs|returns].
  returns; apply returns_updateSession; intros; [by apply calm_set_upload|by apply calm_markClosed].
Qed.
Hint Resolve returns_uploadStep : returns.

Lemma returns_uploadLoop fuel channelID k : Returns (uploadLoop fuel channelID k).
Proof. induction fuel as [|fuel IH]; cbn [uploadLoop]; returns. Qed.
Hint Resolve returns_uploadLoop : returns.

Lemma returns_uploadArrive channelID k x e : Returns (uploadArrive channelID k x e).
Proof.
  unfold uploadArrive. apply returns_getSession_bind; [intros s Hs|returns].
  returns; apply returns_updateSession; intros; by apply calm_set_upload.
Qed.
Hint Resolve returns_dispatchChannelSend returns_uploadArrive : returns.

Lemma calm_new s p pub r now : session_calm (newChannelSession s p pub r now).
Proof. split; cbn; auto with lia. Qed.

Lemma returns_createRing : Returns createRing.
Proof. unfold createRing. returns. Qed.

Lemma returns_newChannelID : Returns newChannelID.
Proof. unfold newChannelID. returns. Qed.

Lemma NewChannelOpenHandshake_returns p : no_panic (NewChannelOpenHandshake p).
Proof. unfold NewChannelOpenHandshake. returns. Qed.
Hint Resolve returns_createRing returns_newChannelID NewChannelOpenHandshake_returns : returns.

Lemma returns_dispatchChannelOpen dest : Returns (dispatchChannelOpen dest).
Proof.
  unfold dispatchChannelOpen, openChannelStream. returns; [|apply returns_putSession, calm_new].
  match goal with E : writeFramed ?b ?x = (_, ?r) |- no_panic ?r => pose proof (writeFramed_returns b x) as Hr; by rewrite E in Hr end.
Qed.

Lemma channelHandshake_returns r : no_panic (channelHandshake r).
Proof. unfold channelHandshake. returns. Qed.
Hint Resolve channelHandshake_returns : returns.

Lemma calm_pushPending id now t : channels_calm t -> channels_calm (pushPending id now t).
Proof.
  intros Ht. unfold pushPending. destruct (pendingChannels t) as [|p ps]; [done|].
  destruct (_ <=? _); [|done]. by apply map_Forall_delete.
Qed.

Lemma returns_handleChannelStream s : Returns (handleChannelStream s).
Proof.
  unfold handleChannelStream, reject. returns; [apply returns_putSession, calm_new|].
  apply returns_onChannels. intros t. apply calm_pushPending.
Qed.

Lemma returns_dispatchChannelPoll channelID : Returns (dispatchChannelPoll channelID).
Proof.
  unfold dispatchChannelPoll. returns; apply returns_updateSession; intros s0 Hs; unfold popChunk; by destruct (inbox s0).
Qed.

Lemma returns_dispatchChannelListen : Returns dispatchChannelListen.
Proof.
  unfold dispatchChannelListen. returns; apply returns_onChannels; intros t Ht; unfold popPending;
    by destruct (pendingChannels t).
Qed.

Lemma returns_dispatchChannelClose channelID : Returns (dispatchChannelClose channelID).
Proof.
  unfold dispatchChannelClose. returns. apply returns_onChannels. intros t Ht. by apply map_Forall_delete.
Qed.

Lemma returns_dispatchChannelCloseWrite channelID : Returns (dispatchChannelCloseWrite channelID).
Proof. unfold dispatchChannelCloseWrite. returns. by apply returns_updateSession. Qed.
Hint Resolve returns_dispatchChannelOpen returns_dispatchChannelPoll returns_dispatchChannelListen
  returns_dispatchChannelClose returns_dispatchChannelCloseWrite : returns.

(** The data plane is ready for the first time. *)
Definition first_ready (channelID : bytes) (n : node) : Prop :=
  forall s, sessions (channels (nio n)) !! channelID = Some s -> up s = false.

Lemma returns_at_dataReady channelID n : first_ready channelID n -> ReturnsAt n (dispatchChannelDataReady channelID).
Proof.
  intros Hf. unfold dispatchChannelDataReady. apply returns_at_bind; [apply returns_getIo|]. intros o [= <-]. cbn [getSession getIo gets fst].
  destruct (sessions (channels (nio n)) !! channelID) as [s|] eqn:E; [|apply returns_lift; exact I].
  apply returns_at_bind; [unfold openUpload; apply returns_wrap; returns|]. intros r Er.
  assert (sessions (channels (nio (wrapD "channel: open upload ring: %w" openUpload n).1)) = sessions (channels (nio n))) as Hs.
  { unfold wrapD, openUpload, mbind, D_bind, getIo, gets, modifyIo, modify. by destruct (uploads (nio n)) as [|[] ?]. }
  apply returns_at_bind; [|intros [] _; apply returns_uploadArrive].
  intros [Hp Hc]. split; [|done]. split; [done|]. intros id s'. cbn. destruct (decide (channelID = id)) as [<-|Hne].
  - rewrite lookup_alter_eq, Hs, E. intros [= <-]. unfold channels_calm in Hc. rewrite Hs in Hc.
    destruct (Hc _ _ E) as [Hu _]. destruct (Hu (Hf _ E)) as [Hpumps Hd].
    split; cbn; [done|]. rewrite Hpumps, Hd. done.
  - rewrite lookup_alter_ne by done. apply Hc.
Qed.

(** ** Requests *)

Definition dataReady (e : Event) : option bytes := match e with E_channelDataReady (Ok channelID) => Some channelID | _ => None end.

Lemma returns_at_dispatch caller m n :
  (forall channelID, dataReady (Body m) = Some channelID -> first_ready channelID n) -> ReturnsAt n (dispatch caller m).
Proof.
  intros Hready. destruct (dataReady (Body m)) as [channelID|] eqn:E.
  - unfold dispatch. destruct (Body m); try discriminate. cbn in E. destruct channelId; [|done]. injection E as ->.
    unfold onChannel, rd. apply returns_at_bind; [by apply returns_lift|]. intros a [= <-].
    apply returns_at_bind; [by apply returns_at_dataReady, Hready|]. intros [] _. apply returns_ret.
  - revert n Hready. intros n _. revert n. change (Returns (dispatch caller m)). unfold dispatch. destruct (Body m);
    unfold onSetKey, onGetKey, onSetField, onSet, onTxn, onGetFieldByRegistry, onGetFieldByKey, onListRange, onLeave,
      onKick, onBootstrapOrJoin, onAddLearner, onGroupPut, onGroupDelete, onCommandPut, onCommandDelete, onStationPut,
      onStationDelete, onGroupCommandPut, onGroupCommandDelete, onGroupCommand, onPeerGroupPut, onPeerGroupDelete,
      onPeerGroup, onPermitRequest, onPermitConfirm, onPermitRevoke, onJoinInviteCreate, onJoinInviteRevoke,
      onExecInviteCreate, onExecInviteRevoke, onJoinRequestCreate, onJoinRequestCancel, onRecruit, onExecInviteRedeem,
      onLogAppend, onExecute, onPollExecute, onPublicAccess, onDialSubmitCommand, onDialQueryCommandLog, onChannelOpen,
      onChannelSend, onChannelPoll, onChannelListen, onChannel, onGetVersion, handleGet, setJoinRequestToken,
      cancelJoinRequestToken;
    returns.
    + match goal with E : (blen ?b =? 0) = false |- _ => apply Z.eqb_neq in E; pose proof (blen_nonneg b) end.
      match goal with |- no_panic (idx ?b 0) => by destruct (idx_ok b 0) as [? ->]; [lia|] end.
    + by destruct channelId.
Qed.

Lemma returns_at_handleShmEvent m crc sig caller n :
  (forall channelID, dataReady (Body m) = Some channelID -> first_ready channelID n) ->
  ReturnsAt n (handleShmEvent m crc sig caller).
Proof.
  intros Hready. unfold handleShmEvent. apply returns_at_bind; [|intros; apply returns_ret]. apply returns_at_try.
  unfold handleRequest. apply returns_at_bind; [unfold refuseRemote; revert n Hready; intros n _; revert n;
    change (Returns (if isRemote caller then match localOnly (Which m) with Some err => liftD (Fail err) | None => mret tt end else mret tt)); returns|].
  intros [] _. assert ((refuseRemote caller (Which m) n).1 = n) as ->.
  { unfold refuseRemote. destruct (isRemote caller); [|done]. by destruct (localOnly (Which m)). }
  apply returns_at_bind; [unfold checkSignature; destruct (RequiresSignature _); [apply returns_lift, Verify_returns|apply returns_ret]|].
  intros [] _. assert ((checkSignature m crc sig caller n).1 = n) as -> by (unfold checkSignature; by destruct (RequiresSignature _)).
  apply returns_at_bind; [apply returns_gate|]. intros [] _. apply returns_at_dispatch. intros channelID E.
  unfold first_ready. destruct (gate_keeps caller m n) as [_ ->]. by apply Hready.
Qed.
End Methods.
#[export] Hint Resolve returns_handleOpForward returns_handleConfirmForward returns_answerError
  returns_admitOrLodgeJoin returns_forwardJoin returns_removeServerLine returns_handleAdd returns_processRedeem
  returns_isInGroup returns_recordClusterMember returns_syncMemberGroups returns_transfer returns_handleChannelStream
  returns_channelArrive returns_uploadArrive : returns.

(** * Theorems *)

(** What [io.ReadAll] hands to a stream handler is bytes or an error; and the
    operator announces the upload ring of a channel once. *)
Definition received (i : inbound) (n : node) : Prop :=
  match i with
  | Notification buf | Redemption buf | ForwardedRedemption buf | Kicking _ buf | ForwardedSet buf
  | ForwardedConfirm _ buf => no_panic buf
  | Request m _ _ _ => forall channelID, dataReady (Body m) = Some channelID -> first_ready channelID n
  | _ => True
  end.

(** C7 No input crashes a node whose host has an address: every request of the operator or
    of a remote caller, every join, recruitment, notification, redemption, forwarded write,
    kick, leadership change, incoming channel and piece of channel traffic is
    served without a panic, and leaves no transaction open and no channel with a
    second upload -- provided the libp2p host has an address of its own at all times ([HostListens]),
    since asking a node without one for its address panics (see [no_address_panics]), and the operator
    announces an upload ring once per channel, since a second upload of a channel does
    panic; the third-party functions are taken to return ([EnvReturns]). *)
Theorem serve_never_panics `{Env} (HE : EnvReturns) (HH : HostListens) (i : inbound) (n : node) :
  received i n -> calm n -> calm (serve i n).1 /\ no_panic (serve i n).2.
Proof.
  intros Hi. change (ReturnsAt n (serve i)). destruct i as [m crc sig caller| | | | | | | | | | | | | | |];
    [apply returns_at_bind; [by apply returns_at_handleShmEvent|intros; apply returns_ret]|..];
    cbn [received] in Hi; match goal with |- ReturnsAt _ ?p => revert n; change (Returns p) end;
    unfold serve, discard, handleJoinStream, handleForwardJoinStream, handleRecruitStream, handleExecuteStream,
    receiveExecute, handleExecInviteRedeemStream, handleForwardExecInviteRedeemStream, forwardExecInviteRedeem, dialForward,
    handleForwardLeaveStream, handleForwardKickStream, handleForwardSetStream, forwardSetRequest,
    handleForwardConfirmStream, forwardConfirmRequest, onLeadershipChange, consumeJoinRequestToken, inboxPush;
    returns; apply returns_answerError; returns.
Qed.

(** [advertisedAddrs()[0]] is not guarded: a node whose host has no address panics when it
    is asked for its own address, locally or by a remote caller who passes the gate. *)
Theorem no_address_panics `{Env} (m : Msg) (caller : callerIdentity) (n : node) (addr : field) :
  Body m = E_getOwnAddr addr -> HostAddrs (nnow n) = [] -> (dispatch caller m n).2 = Panic.
Proof. intros HB Hh. unfold dispatch. rewrite HB. unfold firstAdvertised, advertisedAddrs, mbind, D_bind, gets. cbn. by rewrite Hh. Qed.
