(* ===== verification/ChannelProps.v ===== *)
(** Channels: what one side sends is what the other side receives, only
    authenticated chunks are delivered, and only authorised peers get a channel. *)

From S2P Require Import Prelude Store StoreLogic SystemKeys Payloads LogRecord Txn Fsm FsmSpec FsmProps FsmInvariants FsmOps Events Stream Quota Session Node Acl Forward Dial Join Execute Remote Channel Handler HandlerProps.
#[local] Open Scope Z_scope.

(** * Frames on the wire *)

Section Wire.
Context `{Env}.

(** The frame a node with these keys sends for a chunk. *)
Definition signedFrame (c : byte * bytes) : bytes :=
  let crc := channelFrameCRC c.1 c.2 in
  EncodeChannelFrame c.1 crc (ed25519_sign ed25519Priv (channelFrameSignedPayload c.1 c.2 crc)) c.2.

Definition wire (cs : list (byte * bytes)) : bytes := concat (map (fun c => framePrefix (signedFrame c) ++ signedFrame c) cs).

Lemma wire_cons c cs : wire (c :: cs) = framePrefix (signedFrame c) ++ signedFrame c ++ wire cs.
Proof. unfold wire. cbn [map concat]. by rewrite <- app_assoc. Qed.

Lemma signedFrame_length c : blen (signedFrame c) = 69 + blen c.2.
Proof.
  unfold signedFrame, EncodeChannelFrame, copy_sig. cbv zeta. rewrite !blen_app, blen_be_bytes.
  unfold blen at 1 2. rewrite length_take, length_app, length_replicate. cbn [length]. lia.
Qed.

Lemma signedFrame_fits c : blen c.2 <= channelMaxChunkSize -> blen (signedFrame c) <= maxFramedMessage.
Proof. intros Hc. rewrite signedFrame_length. unfold maxFramedMessage. lia. Qed.
End Wire.
#[global] Arguments signedFrame : simpl never.
#[global] Arguments wire : simpl never.

(** * The sending side *)

Definition sessionAt (channelID : bytes) (n : node) : option channelSession := sessions (channels (nio n)) !! channelID.

Lemma Write_done buf s s' : Write buf s = (s', Ret tt) -> outgoing s' = outgoing s ++ buf.
Proof.
  unfold Write. destruct (writeEnd s); [done|]. destruct (writeFaults s) as [|[k|] rest]; [|done|]; by intros [= <-].
Qed.

Lemma writeFramed_done buf s s' : writeFramed buf s = (s', Ret tt) -> outgoing s' = outgoing s ++ framePrefix buf ++ buf.
Proof.
  unfold writeFramed. destruct (Write (framePrefix buf) s) as [s1 [[]|e|]] eqn:E1; [|done..]. intros E2.
  apply Write_done in E1, E2. by rewrite E2, E1, app_assoc.
Qed.

Section Sender.
Context `{Env}.

(** A send that reports success has put the signed frame on the wire. *)
Lemma send_writes channelID purpose chunk n n' s :
  dispatchChannelSend channelID purpose chunk n = (n', Ret tt) -> sessionAt channelID n = Some s ->
  blen chunk <= channelMaxChunkSize /\ exists s', sessionAt channelID n' = Some s' /\
    outgoing (chStream s') = outgoing (chStream s) ++ wire [(purpose, chunk)].
Proof.
  unfold dispatchChannelSend, sessionAt, getSession, getIo. intros E Hs.
  destruct (Z.ltb_spec channelMaxChunkSize (blen chunk)) as [|Hc]; [done|]. split; [done|].
  unfold mbind at 1, D_bind at 1 in E. cbn [gets] in E. rewrite Hs in E. cbn in E.
  unfold sessionWrite, quotaAllow, getIo, mbind, D_bind in E. cbn in E.
  destruct (allow _ _ _ _ _ _) as [q ok]. cbn in E. destruct ok; [|done]. cbn in E. unfold SignChannelChunk in E.
  destruct (negb (blen ed25519Priv =? PrivateKeySize)); [done|]. cbn in E.
  change (EncodeChannelFrame _ _ _ _) with (signedFrame (purpose, chunk)) in E. injection E as <- Ew. cbn.
  rewrite lookup_alter_eq, Hs. cbn. eexists. split; [done|]. unfold writeFrame.
  destruct (writeFramed _ (chStream s)) as [st res] eqn:Ef. cbn in Ew. subst res. cbn [chStream touch set_stream].
  rewrite (writeFramed_done _ _ _ Ef), wire_cons. by rewrite app_nil_r.
Qed.

(** Sends that all succeed, one after the other. *)
Inductive sends (channelID : bytes) : list (byte * bytes) -> node -> node -> Prop :=
| sends_nil n : sends channelID [] n n
| sends_cons purpose chunk cs n n1 n2 :
    dispatchChannelSend channelID purpose chunk n = (n1, Ret tt) -> sends channelID cs n1 n2 ->
    sends channelID ((purpose, chunk) :: cs) n n2.

Lemma sends_write channelID cs n n' s :
  sends channelID cs n n' -> sessionAt channelID n = Some s ->
  Forall (fun c => blen c.2 <= channelMaxChunkSize) cs /\ exists s', sessionAt channelID n' = Some s' /\
    outgoing (chStream s') = outgoing (chStream s) ++ wire cs.
Proof.
  intros Hs. revert s. induction Hs as [n|purpose chunk cs n n1 n2 E _ IH]; intros s Es.
  - split; [constructor|]. exists s. by rewrite app_nil_r.
  - destruct (send_writes _ _ _ _ _ _ E Es) as (Hc & s1 & E1 & O1). destruct (IH s1 E1) as (Hcs & s2 & E2 & O2).
    split; [by constructor|]. exists s2. split; [done|]. rewrite O2, O1, !wire_cons. cbn. by rewrite !app_nil_r, <- !app_assoc.
Qed.
End Sender.

(** A frame that has not arrived completely is waited for. *)
Lemma readFramed_partial f u rest x :
  blen f <= maxFramedMessage -> u ++ rest = framePrefix f ++ f ++ x -> (length u < 4 + length f)%nat ->
  readFramed (mkReader u None) = Blocked.
Proof.
  intros Hf E Hlen. unfold readFramed, ReadFullFrom at 1. cbn [unread ended].
  destruct (Nat.leb_spec 4 (length u)) as [H4|H4]; [|done].
  assert (take 4 u = framePrefix f /\ drop 4 u ++ rest = f ++ x) as [-> E2].
  { apply app_inj_1; [rewrite length_take, framePrefix_length; lia|].
    by rewrite app_assoc, take_drop. }
  cbv zeta. rewrite framePrefix_value by done. destruct (Z.ltb_spec maxFramedMessage (blen f)); [lia|].
  unfold ReadFullFrom. cbn [unread ended]. rewrite length_drop.
  destruct (Nat.leb_spec (Z.to_nat (blen f)) (length u - 4)); [|done]. unfold blen in *. lia.
Qed.

(** * The receiving side *)

(** The latest [4096] of them. *)
Definition latest (cs : list channelChunk) : list channelChunk := drop (length cs - Z.to_nat maxChannelInbox) cs.

Lemma pushChunk_latest now purpose chunk s :
  blen (inbox s) <= maxChannelInbox ->
  inbox (pushChunk now purpose chunk s) = latest (inbox s ++ [mkChunk purpose chunk]).
Proof.
  intros Hn. unfold pushChunk, latest. cbn [inbox touch set_chunks]. rewrite length_app. cbn [length].
  destruct (Z.leb_spec maxChannelInbox (blen (inbox s))) as [Hf|Hf]; unfold blen, maxChannelInbox in *.
  - replace (length (inbox s) + 1 - Z.to_nat 4096)%nat with 1%nat by lia. destruct (inbox s); [cbn in Hf; lia|done].
  - replace (length (inbox s) + 1 - Z.to_nat 4096)%nat with 0%nat by lia. done.
Qed.

Lemma latest_app xs ys : latest (latest xs ++ ys) = latest (xs ++ ys).
Proof.
  unfold latest. set (m := Z.to_nat maxChannelInbox). rewrite !length_app, length_drop.
  destruct (Nat.le_gt_cases (length xs) m) as [H|H].
  - replace (length xs - m)%nat with 0%nat by lia. rewrite drop_0. by rewrite Nat.sub_0_r.
  - rewrite !drop_app, drop_drop, length_drop. f_equal; f_equal; lia.
Qed.

Lemma latest_length xs : blen (latest xs) <= maxChannelInbox.
Proof. unfold latest, blen. rewrite length_drop. unfold maxChannelInbox. lia. Qed.

Section Receiver.
Context (E1 E2 : Env) (pub : bytes).

(** The receiver accepts the sender's signatures. *)
Class Trusts : Prop := {
  pub_size : blen pub = PublicKeySize;
  sign_size msg : blen (@ed25519_sign E1 (@ed25519Priv E1) msg) = SignatureSize;
  sign_verifies msg : @ed25519_verify E2 pub msg (@ed25519_sign E1 (@ed25519Priv E1) msg) = true;
}.
Context `{!Trusts}.

Lemma openFrame_signed c :
  blen c.2 <= channelMaxChunkSize -> @openFrame E2 pub (@signedFrame E1 c) = Ret c.
Proof.
  destruct c as [purpose chunk]. cbn [snd]. intros Hc. unfold openFrame, signedFrame. cbn [fst snd].
  rewrite DecodeChannelFrame_Encode; [|apply sign_size|apply (crc32_range ([purpose] ++ chunk))]. cbn [wrap_err mbind gores_bind].
  unfold VerifyChannelChunk. rewrite pub_size, sign_size, sign_verifies, !Z.eqb_refl. cbn.
  by destruct (Z.ltb_spec channelMaxChunkSize (blen chunk)); [lia|].
Qed.

(** The quota of the receiver lets these chunks through, one after the other, each at one of
    the readings [nows] of the clock. *)
Inductive lets_through (nows : list Z) (peer ip : bytes) : quotaTracker -> list (byte * bytes) -> quotaTracker -> Prop :=
| lets_nil q : lets_through nows peer ip q [] q
| lets_cons q c cs now q1 q2 :
    now ∈ nows -> allow (@AllowN E2) peer ip (blen c.2) now q = (q1, true) -> lets_through nows peer ip q1 cs q2 ->
    lets_through nows peer ip q (c :: cs) q2.

Definition refuses (nows : list Z) (peer ip : bytes) (q : quotaTracker) (c : byte * bytes) : Prop :=
  exists now, now ∈ nows /\ (allow (@AllowN E2) peer ip (blen c.2) now q).2 = false.

Lemma lets_app nows peer ip q cs q1 cs' q2 :
  lets_through nows peer ip q cs q1 -> lets_through nows peer ip q1 cs' q2 -> lets_through nows peer ip q (cs ++ cs') q2.
Proof. induction 1; [done|]. intros. econstructor; eauto. Qed.

Lemma lets_more nows nows' peer ip q cs q' : nows ⊆ nows' -> lets_through nows peer ip q cs q' -> lets_through nows' peer ip q cs q'.
Proof. intros Hs. induction 1; econstructor; eauto. Qed.

Lemma refuses_more nows nows' peer ip q c : nows ⊆ nows' -> refuses nows peer ip q c -> refuses nows' peer ip q c.
Proof. intros Hs (now & Hn & Hr). exists now. auto. Qed.

(** A session that is receiving: its goroutine runs, and [u] has arrived and waits. *)
Record receiving (s : channelSession) (u : bytes) : Prop := {
  rc_pump : pumping s = true;
  rc_pub : chPub s = pub;
  rc_reader : incoming (chStream s) = mkReader u None;
}.

(** The bucket keys of a session *)
Definition sameBuckets (s s' : channelSession) : Prop :=
  chPeer s' = chPeer s /\ remoteIP (chStream s') = remoteIP (chStream s).

Lemma closeSession_facts reason s :
  pumping (closeSession reason s) = false /\ closed (closeSession reason s) = true /\ inbox (closeSession reason s) = inbox s /\
  sameBuckets s (closeSession reason s).
Proof. unfold closeSession, markClosed, sameBuckets. by destruct (closed s) eqn:E; cbn; rewrite ?E. Qed.

(** The quota of the receiver has refused a chunk, which ended the channel. *)
Record cutOff (nows : list Z) (s : channelSession) (q : quotaTracker) (cs : list (byte * bytes)) (s' : channelSession) : Prop := {
  co_pump : pumping s' = false;
  co_closed : closed s' = true;
  co_chunks : exists k c q', cs !! k = Some c /\ lets_through nows (chPeer s) (remoteIP (chStream s)) q (take k cs) q' /\
    refuses nows (chPeer s) (remoteIP (chStream s)) q' c /\
    inbox s' = latest (inbox s ++ map (fun c => mkChunk c.1 c.2) (take k cs));
}.

(** Running the pump on what has arrived of a sender's frames delivers the
    complete ones, in order, and keeps the rest, or ends with the first one that the quota
    refuses. *)
Lemma pump_delivers fuel now s q u rest cs :
  receiving s u -> blen (inbox s) <= maxChannelInbox -> (length u < fuel)%nat ->
  Forall (fun c => blen c.2 <= channelMaxChunkSize) cs -> u ++ rest = @wire E1 cs ->
  exists s' q', @pumpLoop E2 fuel now s q = Ret (s', q') /\ sameBuckets s s' /\
    ((exists k u', receiving s' u' /\ closed s' = closed s /\
        u' ++ rest = @wire E1 (drop k cs) /\ (rest = [] -> drop k cs = []) /\
        lets_through [now] (chPeer s) (remoteIP (chStream s)) q (take k cs) q' /\
        inbox s' = latest (inbox s ++ map (fun c => mkChunk c.1 c.2) (take k cs))) \/
     cutOff [now] s q cs s').
Proof.
  revert s q u cs. induction fuel as [|fuel IH]; intros s q u cs Hr Hin Hfuel Hcs E; [lia|].
  destruct Hr as [Hp Hpub Hrd]. cbn [pumpLoop]. rewrite Hp. cbn [negb].
  assert (inbox s = latest (inbox s ++ [])) as Hlat.
  { rewrite app_nil_r. unfold latest. replace (_ - _)%nat with 0%nat; [done|]. unfold blen, maxChannelInbox in *. lia. }
  unfold pumpStep. rewrite Hrd. destruct cs as [|c cs].
  { cbn in E. apply app_eq_nil in E as [-> ->]. exists s, q. split; [done|]. split; [done|]. left. exists 0%nat, []. cbn.
    split_and!; try done. constructor. }
  apply Forall_cons in Hcs as [Hc Hcs]. pose proof (@signedFrame_fits E1 c Hc) as Hfit.
  rewrite wire_cons in E.
  destruct (Nat.lt_ge_cases (length u) (4 + length (@signedFrame E1 c))) as [Hlt|Hge].
  { rewrite (readFramed_partial _ _ _ _ Hfit E Hlt). exists s, q. split; [done|]. split; [done|]. left. exists 0%nat, u. cbn [drop take map]. rewrite wire_cons.
    do 3 (split; [done|]). split; [|split; [constructor|done]]. intros ->. exfalso. apply (f_equal length) in E.
    rewrite !length_app, framePrefix_length in E. cbn [length] in E. lia. }
  assert (exists u1, u = framePrefix (@signedFrame E1 c) ++ @signedFrame E1 c ++ u1 /\ u1 ++ rest = @wire E1 cs) as (u1 & -> & E1').
  { rewrite app_assoc in E. exists (drop (4 + length (@signedFrame E1 c)) u).
    assert (length (framePrefix (@signedFrame E1 c) ++ @signedFrame E1 c) = (4 + length (@signedFrame E1 c))%nat) as Hl
      by (by rewrite length_app, framePrefix_length).
    rewrite <- (take_drop (4 + length (@signedFrame E1 c)) u), <- app_assoc in E.
    apply app_inj_1 in E as [Et Ed]; [|rewrite length_take, Hl; lia].
    split; [|done]. by rewrite app_assoc, <- Et, take_drop. }
  rewrite readFramed_frame by done. cbv zeta. cbn [chPub set_stream]. rewrite Hpub, openFrame_signed by done.
  destruct c as [purpose chunk]. cbn [fst snd] in *.
  cbn [chPeer chStream remoteIP set_stream set_incoming].
  destruct (allow (@AllowN E2) (chPeer s) (remoteIP (chStream s)) (blen chunk) now q) as [q1 ok] eqn:Ea.
  destruct ok; cbn [negb]; cycle 1.
  { exists (closeSession (Some (Errorf "channel quota exceeded")) (set_stream (set_incoming (mkReader u1 None) (chStream s)) s)), q1. split; [done|].
    destruct (closeSession_facts (Some (Errorf "channel quota exceeded")) (set_stream (set_incoming (mkReader u1 None) (chStream s)) s))
      as (Hc1 & Hc2 & Hc3 & Hc4). split; [exact Hc4|]. right. split; [done..|].
    exists 0%nat, (purpose, chunk), q. split; [done|]. split; [constructor|]. split; [exists now; cbn; rewrite Ea; set_solver|].
    cbn [take map]. rewrite <- Hlat. exact Hc3. }
  set (s1 := deliver now purpose chunk _).
  assert (inbox s1 = latest (inbox s ++ [mkChunk purpose chunk])) as Hi1
    by exact (pushChunk_latest now purpose chunk (set_stream _ s) Hin).
  destruct (IH s1 q1 u1 cs) as (s' & q' & E' & Hsb & Hcase); try done.
  { rewrite Hi1. apply latest_length. }
  { revert Hfuel. rewrite !length_app, framePrefix_length. lia. }
  exists s', q'. split; [done|]. split; [exact Hsb|].
  assert (now ∈ [now]) as Hnow by set_solver.
  destruct Hcase as [(k & u' & Hr' & Hcl & Hu & Hdone & Hlet & Hin')|[Hp' Hc' (k & c & qk & Hk & Hlet & Href & Hin')]]; [left|right].
  - exists (S k), u'. split_and!; try done; [by eapply (lets_cons _ _ _ _ (purpose, chunk))|]. rewrite Hin', Hi1, latest_app, <- app_assoc. done.
  - split; [done..|]. exists (S k), c, qk. split; [done|]. split; [by eapply (lets_cons _ _ _ _ (purpose, chunk))|]. split; [done|].
    rewrite Hin', Hi1, latest_app, <- app_assoc. done.
Qed.

#[local] Arguments pumpFuel : simpl never.
#[local] Arguments arrive : simpl never.

(** What arrives in pieces, at a reading of the clock each, handled before the next. *)
Fixpoint arriveAll (channelID : bytes) (pieces : list (Z * bytes)) : D unit :=
  match pieces with
  | [] => mret tt
  | (now, x) :: pieces' => _ ← modify (set_now now); _ ← @channelArrive E2 channelID x None; arriveAll channelID pieces'
  end.

Lemma channelArrive_run channelID now x n s s' q' :
  sessionAt channelID n = Some s ->
  @pumpLoop E2 (pumpFuel (arrive x None s)) now (arrive x None s) (channelQuota (nio n)) = Ret (s', q') ->
  exists n', @channelArrive E2 channelID x None (set_now now n) = (n', Ret tt) /\ sessionAt channelID n' = Some s' /\
    channelQuota (nio n') = q'.
Proof.
  unfold sessionAt, channelArrive, updateSession, onChannels, modifyIo, modify. intros Es Ep. eexists.
  unfold mbind at 1, D_bind at 1. unfold pumpChannelReads, getSession, getIo, gets. unfold mbind at 1, D_bind at 1. cbn.
  rewrite lookup_alter_eq, Es. cbn. unfold mbind, D_bind. cbn. rewrite Ep. cbn. split; [done|]. cbn.
  rewrite !lookup_alter_eq, Es. cbn. unfold pumped. by rewrite Ep.
Qed.

(** What comes after the end of the channel is not delivered. *)
Lemma arriveAll_closed channelID pieces : forall n s,
  sessionAt channelID n = Some s -> pumping s = false ->
  exists n' s', arriveAll channelID pieces n = (n', Ret tt) /\ sessionAt channelID n' = Some s' /\
    pumping s' = false /\ closed s' = closed s /\ inbox s' = inbox s.
Proof.
  induction pieces as [|[now x] pieces IH]; intros n s Es Hp; cbn [arriveAll]; [by exists n, s|].
  destruct (channelArrive_run channelID now x n s (arrive x None s) (channelQuota (nio n))) as (n1 & Ea & Es1 & _); [done| |].
  { unfold pumpFuel. cbn [pumpLoop]. assert (pumping (arrive x None s) = false) as -> by done. done. }
  destruct (IH n1 (arrive x None s) Es1 Hp) as (n' & s' & Er & Es' & Hp' & Hc' & Hi').
  exists n', s'. unfold mbind, D_bind, modify. rewrite Ea, Er. by split_and!.
Qed.

(** What the receiver has of the chunks [cs] in the end: all of them, or those before the
    first one that its quota refused. *)
Definition inboxOutcome (nows : list Z) (s : channelSession) (q : quotaTracker) (cs : list (byte * bytes)) (s' : channelSession) : Prop :=
  (pumping s' = true /\ closed s' = closed s /\ inbox s' = latest (inbox s ++ map (fun c => mkChunk c.1 c.2) cs) /\
   exists q', lets_through nows (chPeer s) (remoteIP (chStream s)) q cs q') \/
  cutOff nows s q cs s'.

Lemma arriveAll_delivers channelID pieces n s u cs :
  sessionAt channelID n = Some s -> receiving s u -> blen (inbox s) <= maxChannelInbox ->
  Forall (fun c => blen c.2 <= channelMaxChunkSize) cs -> u ++ concat pieces.*2 = @wire E1 cs -> (pieces = [] -> cs = []) ->
  exists n' s', arriveAll channelID pieces n = (n', Ret tt) /\ sessionAt channelID n' = Some s' /\
    inboxOutcome pieces.*1 s (channelQuota (nio n)) cs s'.
Proof.
  revert n s u cs. induction pieces as [|[now x] pieces IH]; intros n s u cs Es Hr Hin Hcs E Hend; cbn [arriveAll].
  { exists n, s. split; [done|]. split; [done|]. left. rewrite (Hend eq_refl). cbn. rewrite app_nil_r.
    split_and!; try done; [apply Hr| |eexists; constructor].
    unfold latest. replace (_ - _)%nat with 0%nat; [done|]. unfold blen, maxChannelInbox in *. lia. }
  cbn [fmap list_fmap concat fst snd] in E |- *. rewrite app_assoc in E.
  assert (receiving (arrive x None s) (u ++ x)) as Hra.
  { destruct Hr as [Hp Hpub Hrd]. constructor; [done..|]. unfold arrive. rewrite Hrd. done. }
  assert (sameBuckets s (arrive x None s)) as [Hb1 Hb2] by done.
  destruct (pump_delivers (pumpFuel (arrive x None s)) now (arrive x None s) (channelQuota (nio n)) (u ++ x)
    (concat pieces.*2) cs Hra Hin) as (s1 & q1 & Ep & [Hs1 Hs2] & Hcase); [|done..|].
  { unfold pumpFuel. rewrite (rc_reader _ _ Hra). cbn [unread]. lia. }
  rewrite Hb1, Hb2 in *. destruct (channelArrive_run _ now _ _ _ _ _ Es Ep) as (n1 & Ea & Es1 & Eq1).
  unfold mbind, D_bind, modify. rewrite Ea.
  destruct Hcase as [(k & u1 & Hr1 & Hcl & E1' & Hd & Hlet & Hi)|[Hp1 Hc1 (k & c & qk & Hk & Hlet & Href & Hi)]]; cycle 1.
  { destruct (arriveAll_closed channelID pieces n1 s1 Es1 Hp1) as (n' & s' & Er & Es' & Hp' & Hc' & Hi').
    exists n', s'. split; [done|]. split; [done|]. right. split; [done|by rewrite Hc'|]. exists k, c, qk.
    split; [done|]. split; [eapply lets_more; [|exact Hlet]; set_solver|]. split; [eapply refuses_more; [|exact Href]; set_solver|].
    rewrite Hi'. exact Hi. }
  destruct (IH n1 s1 u1 (drop k cs) Es1 Hr1) as (n' & s' & Er & Es' & Hrec);
    [rewrite Hi; apply latest_length|by apply Forall_drop|done|intros ->; by apply Hd|].
  exists n', s'. split; [done|]. split; [done|]. rewrite Eq1 in Hrec.
  assert (forall q', lets_through pieces.*1 (chPeer s1) (remoteIP (chStream s1)) q1 (drop k cs) q' ->
    lets_through (now :: pieces.*1) (chPeer s) (remoteIP (chStream s)) (channelQuota (nio n)) cs q') as Hall.
  { intros q' Hl. rewrite <- (take_drop k cs). rewrite Hs1, Hs2 in Hl. eapply lets_app; eapply lets_more; [|exact Hlet| |exact Hl]; set_solver. }
  destruct Hrec as [(Hp' & Hc' & Hi' & q' & Hl)|[Hp' Hc' (j & c & qj & Hj & Hl & Href & Hi')]].
  - left. split_and!; [done|by rewrite Hc', Hcl| |by exists q'; apply Hall].
    rewrite Hi', Hi, latest_app, <- app_assoc, <- map_app, take_drop. done.
  - right. split; [done|done|]. rewrite lookup_drop in Hj. exists (k + j)%nat, c, qj.
    assert (take (k + j) cs = take k cs ++ take j (drop k cs)) as Et by (by rewrite take_take_drop).
    split; [done|]. rewrite Et. rewrite Hs1, Hs2 in Hl, Href. split.
    { eapply lets_app; eapply lets_more; [|exact Hlet| |exact Hl]; set_solver. }
    split; [eapply refuses_more; [|exact Href]; set_solver|].
    rewrite Hi', Hi, latest_app, <- app_assoc, <- map_app. done.
Qed.
End Receiver.

(** * What gets into an inbox *)

Section Authentic.
Context `{Env}.

(** Some signature over the chunk and its checksum verifies under that key. *)
Definition authentic (pub : bytes) (c : channelChunk) : Prop :=
  blen (chData c) <= channelMaxChunkSize /\
  exists sig, blen sig = SignatureSize /\
    ed25519_verify pub (channelFrameSignedPayload (chPurpose c) (chData c) (channelFrameCRC (chPurpose c) (chData c))) sig = true.

Lemma openFrame_authentic pub buf purpose chunk : openFrame pub buf = Ret (purpose, chunk) -> authentic pub (mkChunk purpose chunk).
Proof.
  intros E. split; [by eapply openFrame_size|]. revert E. unfold openFrame.
  destruct (wrap_err _ (DecodeChannelFrame buf)) as [[[[p crc] sig] ch]|e|]; [|done..]. cbn. unfold VerifyChannelChunk.
  destruct (blen pub =? PublicKeySize); [|done]. cbn. destruct (Z.eqb_spec (blen sig) SignatureSize) as [Hs|]; [|done]. cbn.
  destruct (Z.eqb_spec (channelFrameCRC p ch) crc) as [<-|]; [|done]. cbn.
  destruct (ed25519_verify _ _ _) eqn:Ev; [|done]. cbn.
  destruct (channelMaxChunkSize <? blen ch); [done|]. intros [= <- <-]. by exists sig.
Qed.

(** [s'] is [s] after authenticated chunks came in. *)
Definition accrues (s s' : channelSession) : Prop := chPub s' = chPub s /\
  exists cs, inbox s' = latest (inbox s ++ cs) /\ Forall (authentic (chPub s)) cs.

Lemma latest_id xs : blen xs <= maxChannelInbox -> latest xs = xs.
Proof. intros Hx. unfold latest. replace (_ - _)%nat with 0%nat; [done|]. unfold blen, maxChannelInbox in *. lia. Qed.

Lemma accrues_same s s' :
  blen (inbox s) <= maxChannelInbox -> chPub s' = chPub s -> inbox s' = inbox s -> accrues s s'.
Proof. intros Hin Hp Hi. split; [done|]. exists []. by rewrite app_nil_r, latest_id. Qed.

Lemma accrues_trans s1 s2 s3 : accrues s1 s2 -> accrues s2 s3 -> accrues s1 s3.
Proof.
  intros (Hp1 & cs1 & Hi1 & Hc1) (Hp2 & cs2 & Hi2 & Hc2). rewrite Hp1 in *. split; [done|]. exists (cs1 ++ cs2).
  rewrite Hi2, Hi1, latest_app, app_assoc. split; [done|by apply Forall_app].
Qed.

Lemma accrues_bound s s' : accrues s s' -> blen (inbox s') <= maxChannelInbox.
Proof. intros (_ & cs & -> & _). apply latest_length. Qed.

Lemma pumpStep_accrues now s q s' q' more :
  blen (inbox s) <= maxChannelInbox -> pumpStep now s q = Ret (Some (s', q', more)) -> accrues s s'.
Proof.
  intros Hin. assert (forall s1 r, chPub s1 = chPub s -> inbox s1 = inbox s -> accrues s (closeSession r s1)) as Hclose.
  { intros s1 r Hp Hi. apply accrues_same; [done|..]; unfold closeSession, markClosed; by destruct (closed s1). }
  unfold pumpStep. destruct (readFramed _) as [|buf rest|err]; [done| |intros [= <- <- <-]; by apply Hclose].
  cbv zeta. destruct (openFrame _ buf) as [[purpose chunk]|e|] eqn:Ef; [| |done].
  - destruct (allow _ _ _ _ _ _) as [q1 ok]. destruct ok; intros [= <- <- <-]; [|by apply Hclose].
    split; [done|]. exists [mkChunk purpose chunk]. split; [exact (pushChunk_latest now purpose chunk (set_stream _ s) Hin)|].
    apply Forall_singleton. by eapply openFrame_authentic.
  - intros [= <- <- <-]. by apply Hclose.
Qed.

Lemma pumpLoop_accrues fuel now s q s' q' :
  blen (inbox s) <= maxChannelInbox -> pumpLoop fuel now s q = Ret (s', q') -> accrues s s'.
Proof.
  revert s q. induction fuel as [|fuel IH]; intros s q Hin; cbn [pumpLoop]; [intros [= <- <-]; by apply accrues_same|].
  destruct (negb (pumping s)); [intros [= <- <-]; by apply accrues_same|].
  destruct (pumpStep now s q) as [[[[s1 q1] more]|]|e|] eqn:E; [| |done..].
  - apply pumpStep_accrues in E; [|done]. destruct more; [|by intros [= <- <-]].
    intros El. eapply accrues_trans; [exact E|]. eapply IH; [by eapply accrues_bound|exact El].
  - intros [= <- <-]. by apply accrues_same.
Qed.

Lemma pumped_accrues now q s : blen (inbox s) <= maxChannelInbox -> accrues s (pumped now q s).
Proof.
  intros Hin. unfold pumped. destruct (pumpLoop _ _ _ _) as [[s' q']|e|] eqn:E; [by eapply pumpLoop_accrues|by apply accrues_same..].
Qed.

Lemma pumped_stopped now q s : pumping s = false -> pumped now q s = s.
Proof. intros Hp. unfold pumped, pumpFuel. cbn [pumpLoop]. by rewrite Hp. Qed.

#[local] Arguments pumpFuel : simpl never.
#[local] Arguments arrive : simpl never.

Lemma channelArrive_sessions channelID x e n :
  let n' := (channelArrive channelID x e n).1 in
  (forall id, id <> channelID -> sessionAt id n' = sessionAt id n) /\
  forall s, sessionAt channelID n = Some s -> exists s', sessionAt channelID n' = Some s' /\
    (s' = arrive x e s \/ s' = pumped (nnow n) (channelQuota (nio n)) (arrive x e s)).
Proof.
  cbv zeta. unfold sessionAt, channelArrive, updateSession, onChannels, modifyIo, modify.
  unfold pumpChannelReads, getSession, getIo, gets. unfold mbind, D_bind. cbn.
  rewrite lookup_alter_eq. destruct (sessions (channels (nio n)) !! channelID) as [s|] eqn:Es; cbn.
  - destruct (pumpLoop _ _ _ _) as [[s1 q1]|er|]; cbn; (split; [intros id Hid; by rewrite !lookup_alter_ne|]);
      intros s0 [= <-]; rewrite !lookup_alter_eq, Es; eauto.
  - split; [intros id Hid; by rewrite !lookup_alter_ne|done].
Qed.
End Authentic.

(** * Who gets a session *)

(** Properties of the channels that every run of [m] keeps. *)
Definition Preserves {A} (Q : node -> Prop) (m : D A) : Prop := forall n, Q n -> Q (m n).1.

Section Preserves.
Context {A B : Type} (Q : node -> Prop).

Lemma preserves_bind (m : D A) (k : A -> D B) : Preserves Q m -> (forall a, Preserves Q (k a)) -> Preserves Q (m ≫= k).
Proof.
  intros Hm Hk n Hn. specialize (Hm n Hn). unfold mbind, D_bind. destruct (m n) as [n' [a| |]]; [by apply Hk|done..].
Qed.

Lemma preserves_try (m : D A) : Preserves Q m -> Preserves Q (tryD m).
Proof. intros Hm n Hn. specialize (Hm n Hn). unfold tryD. by destruct (m n) as [n' []]. Qed.

Lemma preserves_wrap fmt (m : D A) : Preserves Q m -> Preserves Q (wrapD fmt m).
Proof. intros Hm n Hn. specialize (Hm n Hn). unfold wrapD. by destruct (m n). Qed.

(** Computations that leave the node alone. *)
Lemma preserves_pure (m : D A) : (forall n, (m n).1 = n) -> Preserves Q m.
Proof. intros Hm n Hn. by rewrite Hm. Qed.
End Preserves.

Section Owned.
Context `{Env} (old : channelTable) (peer pub : bytes).

(** Every session was there already or belongs to that peer. *)
Definition owned (t : channelTable) : Prop := forall id s, sessions t !! id = Some s ->
  is_Some (sessions old !! id) \/ (chPeer s = peer /\ chPub s = pub).

Definition node_owned (n : node) : Prop := owned (channels (nio n)).

Lemma owned_io f : (forall x, owned (channels x) -> owned (channels (f x))) -> Preserves node_owned (modifyIo f).
Proof. intros Hf n. apply Hf. Qed.

Lemma owned_reap : Preserves node_owned reapChannels.
Proof.
  apply preserves_bind; [by apply preserves_pure|]. intros now. apply owned_io. intros x Hx id s E%reap_kept. by apply (Hx id).
Qed.

Lemma pumped_keeps now q s : chPeer (pumped now q s) = chPeer s /\ chPub (pumped now q s) = chPub s.
Proof.
  unfold pumped. generalize (pumpFuel s). intros fuel.
  destruct (pumpLoop fuel now s q) as [[s' q']|e|] eqn:E; [|done..].
  revert s q E. induction fuel as [|fuel IH]; intros s q; cbn [pumpLoop]; [by intros [= <- <-]|].
  destruct (negb (pumping s)); [by intros [= <- <-]|].
  assert (forall r s1, chPeer (closeSession r s1) = chPeer s1 /\ chPub (closeSession r s1) = chPub s1) as Hclose.
  { intros r s1. unfold closeSession, markClosed. by destruct (closed s1). }
  unfold pumpStep. destruct (readFramed _) as [|buf rest|err]; [by intros [= <- <-]| |].
  - cbv zeta. destruct (openFrame _ buf) as [[purpose chunk]|e|]; [| |done].
    + destruct (allow _ _ _ _ _ _) as [q1 [|]]; [by intros [-> ->]%IH|]. intros [= <- <-]. apply (Hclose _ (set_stream _ s)).
    + intros [= <- <-]. apply (Hclose _ (set_stream _ s)).
  - intros [= <- <-]. apply Hclose.
Qed.

Lemma owned_pump channelID : Preserves node_owned (pumpChannelReads channelID).
Proof.
  unfold pumpChannelReads. apply preserves_bind; [by apply preserves_pure|]. intros [s|]; [|by apply preserves_pure].
  do 2 (apply preserves_bind; [by apply preserves_pure|]; intros ?). apply preserves_bind; [by apply preserves_pure|].
  intros [s' q']. apply preserves_bind; [by apply owned_io|]. intros _. apply owned_io. intros x Hx id s1. cbn.
  destruct (decide (channelID = id)) as [<-|Hne]; [|rewrite lookup_alter_ne by done; apply Hx].
  rewrite lookup_alter_eq. intros (s0 & E0 & ->)%fmap_Some. destruct (pumped_keeps a a0 s0) as [-> ->]. by apply (Hx channelID).
Qed.

Lemma owned_put channelID st ring now : Preserves node_owned (putSession channelID (newChannelSession st peer pub ring now)).
Proof.
  apply owned_io. intros x Hx id s. cbn. rewrite lookup_insert. case_decide; [|apply Hx]. intros [= <-]. by right.
Qed.

Lemma owned_createRing : Preserves node_owned createRing.
Proof.
  unfold createRing. apply preserves_bind; [by apply preserves_pure|]. intros sched.
  apply preserves_bind; [by apply owned_io|]. intros _. destruct sched as [|[r|] rest]; by apply preserves_pure.
Qed.

Lemma owned_newChannelID : Preserves node_owned newChannelID.
Proof.
  unfold newChannelID, randomBytes. apply preserves_bind; [|intros; by apply preserves_pure]. apply preserves_wrap.
  apply preserves_bind; [by apply preserves_pure|]. intros sched. apply preserves_bind; [by intros n|]. intros _.
  destruct sched as [|[r|] rest]; by apply preserves_pure.
Qed.

Lemma owned_pending channelID now : Preserves node_owned (onChannels (pushPending channelID now)).
Proof.
  apply owned_io. intros x Hx id s. unfold pushPending. cbn.
  destruct (pendingChannels (channels x)) as [|p rest]; cbn [sessions]; [apply Hx|].
  destruct (_ <=? _); cbn [sessions]; [|apply Hx]. rewrite lookup_delete_Some. intros [_ E]. by apply (Hx id).
Qed.
End Owned.

Section Opening.
Context `{Env}.

Lemma handshake_sound r peer pub rest :
  channelHandshake r = Ret (peer, pub, rest) ->
  exists buf m crc sig name, readFramed r = Done buf rest /\ Decode Canonicalize Unmarshal buf = Ret (m, crc, sig) /\
    (exists x, Body m = E_channelOpen x (Ok name)) /\ peer_Decode name = Ret peer /\
    peer_PublicKey peer = Ret pub /\ Verify Canonicalize ed25519_verify pub m crc sig = Ret tt.
Proof.
  unfold channelHandshake. destruct (readFramed r) as [|buf rest'|err]; [done| |done].
  destruct (Decode _ _ buf) as [[[m crc] sig]|e|] eqn:Ed; [|done..]. cbn.
  destruct (Body m) as [] eqn:Eb; try done. destruct senderPeerId as [name|]; [|done]. cbn.
  destruct (peer_Decode name) as [peer'|e|] eqn:En; [|done..]. cbn.
  destruct (peer_PublicKey peer') as [pub'|e|] eqn:Ep; [|done..]. cbn.
  destruct (Verify _ _ pub' m crc sig) as [[]|e|] eqn:Ev; [|done..]. intros [= <- <- <-].
  exists buf, m, crc, sig, name. eauto 10.
Qed.

Lemma handle_opens st n id s :
  sessionAt id n = None -> sessionAt id (handleChannelStream st n).1 = Some s ->
  exists peer pub rest, channelHandshake (incoming st) = Ret (peer, pub, rest) /\ chPeer s = peer /\ chPub s = pub /\
    authorised (committed (nstore n)) peer ReservedGroupChannel.
Proof.
  intros Hnew. unfold handleChannelStream. destruct (channelHandshake (incoming st)) as [[[peer pub] rest]|e|];
    [|cbn; by rewrite Hnew..].
  intros Hs. exists peer, pub, rest. split; [done|]. revert Hs. cbv zeta. unfold mbind at 1, D_bind at 1.
  destruct (authorised_sound peer ReservedGroupChannel n) as (n1 & b & Ea & _ & Hb).
  assert (nio n1 = nio n) as Hio by (pose proof (keeps_store (isAuthorizedForGatedAccessSt peerID peer ReservedGroupChannel) n) as Hk;
    fold (isAuthorizedForGatedAccess peer ReservedGroupChannel) in Hk; rewrite Ea in Hk; apply Hk).
  rewrite Ea. destruct b; [|unfold sessionAt in *; cbn; by rewrite Hio, Hnew]. cbn [negb]. intros Hs.
  assert (node_owned (channels (nio n)) peer pub n1) as Ho1 by (intros i s0 E0; rewrite Hio in E0; left; by eexists).
  assert (forall m : D stream, Preserves (node_owned (channels (nio n)) peer pub) m -> sessionAt id (m n1).1 = Some s ->
    chPeer s = peer /\ chPub s = pub) as Hfin.
  { intros m Hm E. destruct (Hm n1 Ho1 id s E) as [[s0 E0]|]; [|done]. unfold sessionAt in Hnew. congruence. }
  apply Hfin in Hs; [naive_solver|]. clear. apply preserves_bind; [apply owned_reap|]. intros _.
  apply preserves_bind; [apply preserves_try, owned_newChannelID|]. intros [channelID|]; [|by apply preserves_pure].
  apply preserves_bind; [apply preserves_try, owned_createRing|]. intros [ring|]; [|by apply preserves_pure].
  destruct (writeChannelAccept _ _ _) as [st' [u|e|]]; [|by apply preserves_pure..].
  apply preserves_bind; [by apply preserves_pure|]. intros now. apply preserves_bind; [apply owned_put|]. intros _.
  apply preserves_bind; [apply owned_pending|]. intros _.
  apply preserves_bind; [apply owned_pump|]. intros _. by apply preserves_pure.
Qed.
End Opening.

(** * Uploading *)

(** The chunks as the data plane carries them. *)
Definition ringBytes (cs : list (byte * bytes)) : bytes := concat (map (fun c => chunkHeader c.1 c.2 ++ c.2) cs).

Section Upload.
Context `{Env}.
#[local] Arguments writeFramed : simpl never.
#[local] Arguments writeFrame : simpl never.
#[local] Arguments EncodeChannelFrame : simpl never.

(** The node can sign, its quotas admit the traffic, and writes on a stream go through. *)
Class Forwards : Prop := {
  forwards_key : blen ed25519Priv = PrivateKeySize;
  forwards_quota limit burst past now cost : AllowN limit burst past now cost = true;
}.
Context `{!Forwards}.

Definition writable (s : stream) : Prop := writeEnd s = false /\ writeFaults s = [].

Lemma writeFramed_writable buf s :
  writable s -> exists s', writeFramed buf s = (s', Ret tt) /\ writable s' /\ outgoing s' = outgoing s ++ framePrefix buf ++ buf.
Proof.
  intros [Hw Hf]. unfold writeFramed, Write. rewrite Hw, Hf. cbn. eexists. split; [done|]. cbn. by rewrite <- app_assoc.
Qed.

Lemma allow_forwards p ip cost now q : (allow AllowN p ip cost now q).2 = true.
Proof. unfold allow, charge. repeat case_match; simplify_eq/=; rewrite ?forwards_quota in *; done. Qed.

Lemma sessionWrite_run channelID s s1 purpose chunk n :
  sessionAt channelID n = Some s1 -> chStream s1 = chStream s -> writable (chStream s) ->
  exists n', sessionWrite channelID s purpose chunk n = (n', Ret tt) /\
    sessionAt channelID n' = Some (writeFrame (nnow n) (signedFrame (purpose, chunk)) s1).
Proof.
  unfold sessionAt. intros Es Est Hw. unfold sessionWrite, quotaAllow, getIo, gets, modifyIo, modify, mbind, D_bind. cbn.
  pose proof (allow_forwards (chPeer s) (remoteIP (chStream s)) (blen chunk) (nnow n) (channelQuota (nio n))) as Ha.
  destruct (allow _ _ _ _ _ _) as [q ok]. cbn in Ha. subst ok. cbn. unfold SignChannelChunk. rewrite forwards_key. cbn.
  change (EncodeChannelFrame _ _ _ _) with (signedFrame (purpose, chunk)).
  destruct (writeFramed_writable (signedFrame (purpose, chunk)) _ Hw) as (st & Ew & _). rewrite Ew. cbn.
  eexists. split; [done|]. cbn. by rewrite lookup_alter_eq, Es.
Qed.

(** A session whose [k]-th upload ring holds the rest of the chunks and was closed. *)
Record uploading (k : nat) (s : channelSession) (cs : list (byte * bytes)) : Prop := {
  ul_ring : uploadPumps s !! k = Some (mkReader (ringBytes cs) (Some io_EOF));
  ul_stream : writable (chStream s);
  ul_open : uploadDrained s = false;
}.

Lemma uploadStep_chunk channelID k n s purpose chunk cs :
  sessionAt channelID n = Some s -> uploading k s ((purpose, chunk) :: cs) -> blen chunk <= MaxChunkSize ->
  exists n' s', uploadStep channelID k n = (n', Ret true) /\ sessionAt channelID n' = Some s' /\ uploading k s' cs /\
    outgoing (chStream s') = outgoing (chStream s) ++ wire [(purpose, chunk)] /\ closed s' = closed s.
Proof.
  intros Es [Hr Hw Ho] Hc. unfold uploadStep, getSession, getIo, gets. unfold mbind at 1, D_bind at 1.
  unfold sessionAt in Es. rewrite Es, Hr. unfold ringBytes. cbn [map concat fst snd]. rewrite <- app_assoc, ReadChunk_header by done.
  unfold mbind at 1, D_bind at 1. cbn [updateSession onChannels modifyIo modify]. unfold mbind, D_bind.
  set (s1 := set_upload k (mkReader (ringBytes cs) (Some io_EOF)) s).
  match goal with |- context [tryD (sessionWrite _ s purpose chunk) ?m] => set (n1 := m) end.
  assert (sessionAt channelID n1 = Some s1) as Es1 by (unfold sessionAt; cbn; by rewrite lookup_alter_eq, Es).
  destruct (sessionWrite_run channelID s s1 purpose chunk n1 Es1 eq_refl Hw) as (n2 & E2 & Es2).
  unfold tryD. rewrite E2. eexists _, _. split; [done|]. split; [exact Es2|].
  destruct (writeFramed_writable (signedFrame (purpose, chunk)) _ Hw) as (st & Ew & Hw' & Eo).
  unfold writeFrame. change (chStream s1) with (chStream s). rewrite Ew. cbn. split; [|split; [|done]].
  - constructor; cbn; [|done..]. apply list_lookup_insert_eq. by eapply lookup_lt_Some.
  - rewrite Eo, wire_cons. by rewrite app_nil_r.
Qed.

Lemma uploadStep_end channelID k n s :
  sessionAt channelID n = Some s -> uploading k s [] ->
  exists n' s', uploadStep channelID k n = (n', Ret false) /\ sessionAt channelID n' = Some s' /\
    uploadDrained s' = true /\ outgoing (chStream s') = outgoing (chStream s) /\ closed s' = closed s.
Proof.
  unfold sessionAt. intros Es [Hr Hw Ho]. unfold uploadStep, endUploadOf, getSession, getIo, gets, mbind, D_bind. cbn.
  rewrite Es, Hr. cbn. rewrite Es. unfold endUpload. rewrite Hr, Ho. cbn. eexists _, _. split; [done|]. cbn.
  rewrite lookup_alter_eq, Es. cbn. by rewrite Hr, Ho.
Qed.

Lemma uploadLoop_forwards fuel channelID k cs n s :
  (length cs < fuel)%nat -> sessionAt channelID n = Some s -> uploading k s cs -> Forall (fun c => blen c.2 <= MaxChunkSize) cs ->
  exists n' s', uploadLoop fuel channelID k n = (n', Ret tt) /\ sessionAt channelID n' = Some s' /\
    uploadDrained s' = true /\ outgoing (chStream s') = outgoing (chStream s) ++ wire cs /\ closed s' = closed s.
Proof.
  revert cs n s. induction fuel as [|fuel IH]; intros cs n s Hf Es Hu Hcs; [lia|]. cbn [uploadLoop].
  unfold mbind, D_bind. destruct Hcs as [|[purpose chunk] cs Hc Hcs].
  - destruct (uploadStep_end _ _ _ _ Es Hu) as (n' & s' & -> & Es' & Hd & Ho & Hcl). exists n', s'. rewrite app_nil_r. eauto.
  - destruct (uploadStep_chunk _ _ _ _ _ _ _ Es Hu Hc) as (n1 & s1 & -> & Es1 & Hu1 & Ho1 & Hc1).
    destruct (IH cs n1 s1) as (n' & s' & E & Es' & Hd & Ho & Hcl); [cbn in Hf; lia|done..|].
    exists n', s'. split_and!; [done..| |congruence]. rewrite Ho, Ho1, !wire_cons. by rewrite !app_nil_r, <- !app_assoc.
Qed.

Lemma ringBytes_length cs : (length cs <= length (ringBytes cs))%nat.
Proof.
  induction cs as [|c cs IH]; [done|]. unfold ringBytes in *. cbn [map concat length]. rewrite !length_app, chunkHeader_length. lia.
Qed.
End Upload.

(** * Theorems *)

(** C8 Channels deliver: when a node's sends on a channel all succeed, and the bytes
    it put on the wire reach the other side in pieces of any size, at any readings of its clock, the other side
    returns from every piece, and its inbox holds what it held before followed by chunks
    that were sent, with their purposes, in order -- the latest [4096] of them.  These are
    all the chunks, and the channel stays open, if the rate quota of the receiver lets
    them all through; else they are the chunks before the first one the quota refuses, and
    the channel is closed.  The receiver accepts the sender's signatures ([Trusts]). *)
Theorem channel_delivery (E1 E2 : Env) (pub : bytes) (HT : Trusts E1 E2 pub) (id1 id2 : bytes)
    (cs : list (byte * bytes)) (pieces : list (Z * bytes)) (a a' b : node) (sa sa' sb : channelSession) :
  sessionAt id1 a = Some sa -> @sends E1 id1 cs a a' -> sessionAt id1 a' = Some sa' ->
  outgoing (chStream sa') = outgoing (chStream sa) ++ concat pieces.*2 ->
  sessionAt id2 b = Some sb -> receiving pub sb [] -> blen (inbox sb) <= maxChannelInbox ->
  exists b' sb', arriveAll E2 id2 pieces b = (b', Ret tt) /\ sessionAt id2 b' = Some sb' /\
    inboxOutcome E2 pieces.*1 sb (channelQuota (nio b)) cs sb'.
Proof.
  intros Ea Hs Ea' Ho Eb Hr Hin. destruct (sends_write _ _ _ _ _ Hs Ea) as (Hcs & s' & E & Ow).
  rewrite Ea' in E. injection E as <-. rewrite Ho in Ow. apply app_inv_head in Ow.
  apply (arriveAll_delivers E1 E2 pub id2 pieces b sb [] cs); try done. intros ->.
  destruct cs as [|c cs]; [done|]. rewrite wire_cons in Ow. cbn in Ow. by apply (f_equal length) in Ow.
Qed.

(** C9 Only the peer's chunks get into an inbox: whatever bytes arrive on a channel,
    well-formed or not, the inbox grows only by chunks of at most [256] KiB over
    which, with their purpose and checksum, some signature verifies under the
    channel's key; nothing comes in once the reading goroutine has ended, the key
    does not change, and no other session is touched. *)
Theorem channel_inbox_authentic `{Env} (channelID x : bytes) (e : option error) (n : node) (s : channelSession) :
  sessionAt channelID n = Some s -> blen (inbox s) <= maxChannelInbox ->
  let n' := (channelArrive channelID x e n).1 in
  (forall id, id <> channelID -> sessionAt id n' = sessionAt id n) /\
  exists s' cs, sessionAt channelID n' = Some s' /\ chPub s' = chPub s /\
    inbox s' = latest (inbox s ++ cs) /\ Forall (authentic (chPub s)) cs /\
    (pumping s = false -> inbox s' = inbox s).
Proof.
  intros Es Hin. cbv zeta. destruct (channelArrive_sessions channelID x e n) as [Ho Hs]. split; [done|].
  destruct (Hs s Es) as (s' & Es' & Hs'). exists s'.
  assert (accrues (arrive x e s) s') as (Hp & cs & Hi & Hc).
  { destruct Hs' as [->| ->]; [by apply accrues_same|by apply pumped_accrues]. }
  exists cs. split_and!; try done. intros Hst.
  destruct Hs' as [->| ->]; [done|]. by rewrite pumped_stopped.
Qed.

(** C10 Only authorised peers open channels: if handling an incoming channel stream puts
    a session in the table that was not there, then the stream began with a
    channel-open message that names a peer, the message's signature verifies
    under the key in that peer's id, the peer is a cluster member, in the
    [channel] group or granted access to this node at that moment, and the
    session belongs to that peer and authenticates its chunks with that key. *)
Theorem channel_open_authorised `{Env} (st : stream) (n : node) (id : bytes) (s : channelSession) :
  sessionAt id n = None -> sessionAt id (handleChannelStream st n).1 = Some s ->
  exists buf rest m crc sig name,
    readFramed (incoming st) = Done buf rest /\ Decode Canonicalize Unmarshal buf = Ret (m, crc, sig) /\
    (exists x, Body m = E_channelOpen x (Ok name)) /\ peer_Decode name = Ret (chPeer s) /\
    peer_PublicKey (chPeer s) = Ret (chPub s) /\ Verify Canonicalize ed25519_verify (chPub s) m crc sig = Ret tt /\
    authorised (committed (nstore n)) (chPeer s) ReservedGroupChannel.
Proof.
  intros Hnew Hs. destruct (handle_opens _ _ _ _ Hnew Hs) as (peer & pub & rest & Eh & -> & -> & Ha).
  destruct (handshake_sound _ _ _ _ Eh) as (buf & m & crc & sig & name & ? & ? & ? & ? & ? & ?).
  by exists buf, rest, m, crc, sig, name.
Qed.

(** Uploads go out: when the local caller has put chunks into the upload ring of a
    channel and closed it, the goroutine that drains it returns, every chunk has
    been sent on the stream as a signed frame, in order, and the upload is marked
    as drained -- so the half-close that waits for it goes ahead. *)
Theorem upload_forwards `{Env} (HF : Forwards) (channelID : bytes) (k : nat) (cs : list (byte * bytes)) (n : node)
    (s : channelSession) :
  sessionAt channelID n = Some s -> uploadPumps s !! k = Some (mkReader [] None) -> writable (chStream s) ->
  uploadDrained s = false -> Forall (fun c => blen c.2 <= MaxChunkSize) cs ->
  exists n' s', uploadArrive channelID k (ringBytes cs) (Some io_EOF) n = (n', Ret tt) /\
    sessionAt channelID n' = Some s' /\ uploadDrained s' = true /\ closed s' = closed s /\
    outgoing (chStream s') = outgoing (chStream s) ++ wire cs /\
    (dispatchChannelCloseWrite channelID n').2 = Ret tt.
Proof.
  intros Es Hr Hw Hd Hcs. set (s1 := set_upload k (mkReader (ringBytes cs) (Some io_EOF)) s).
  assert (exists n1, sessionAt channelID n1 = Some s1 /\
    uploadArrive channelID k (ringBytes cs) (Some io_EOF) n = uploadLoop (S (length (ringBytes cs))) channelID k n1) as (n1 & Es1 & ->).
  { unfold sessionAt in *. unfold uploadArrive, getSession, getIo, gets, mbind at 1 2, D_bind at 1 2. rewrite Es, Hr.
    eexists. split; [|done]. cbn. by rewrite lookup_alter_eq, Es. }
  destruct (uploadLoop_forwards (S (length (ringBytes cs))) channelID k cs n1 s1) as (n' & s' & -> & Es' & Hd' & Ho & Hcl); try done.
  { pose proof (ringBytes_length cs). lia. }
  { constructor; [|done..]. apply list_lookup_insert_eq. by eapply lookup_lt_Some. }
  exists n', s'. split_and!; try done. unfold sessionAt in Es'.
  unfold dispatchChannelCloseWrite, getSession, getIo, gets, mbind, D_bind. rewrite Es', Hd', andb_false_r. cbn.
  by rewrite Es', Hd', andb_false_r.
Qed.

(** A second upload brings the node down: once the upload of a channel has been drained,
    another data-ready request for it, for a ring its writer closes, ends in a
    panic, since the goroutine that drains the ring closes [uploadDrained] again. *)
Theorem second_data_ready_panics `{Env} (channelID : bytes) (n : node) (s : channelSession) (later : list (option reader)) :
  sessionAt channelID n = Some s -> uploadDrained s = true ->
  uploads (nio n) = Some (mkReader [] (Some io_EOF)) :: later ->
  (dispatchChannelDataReady channelID n).2 = Panic.
Proof.
  unfold sessionAt. intros Es Hd Hu.
  unfold dispatchChannelDataReady, openUpload, getSession, getIo, gets, wrapD, modifyIo, modify, mbind, D_bind. cbn.
  rewrite Es. cbn. rewrite Hu. cbn. unfold uploadArrive, getSession, getIo, gets, mbind, D_bind. cbn.
  rewrite lookup_alter_eq, Es. cbn. rewrite lookup_app_r by done. rewrite Nat.sub_diag. cbn.
  unfold uploadStep, endUploadOf, getSession, getIo, gets, mbind, D_bind. cbn. rewrite !lookup_alter_eq, Es. cbn.
  rewrite list_lookup_insert_eq by (rewrite length_app; cbn; lia). cbn.
  rewrite !lookup_alter_eq, Es. cbn. unfold endUpload. cbn. rewrite Hd.
  rewrite list_lookup_insert_eq by (rewrite length_app; cbn; lia). done.
Qed.
