(* ===== verification/RemoteProps.v ===== *)
(** Reading another cluster's command log: the pages the querying node collects,
    each answered by the other node's request handler, are the records in the
    range, in order, none twice and none left out. *)

From S2P Require Import Prelude Store StoreLogic SystemKeys Payloads LogRecord Txn Fsm FsmSpec FsmProps FsmInvariants FsmOps Events Stream Quota Session Node Acl Forward Dial Join Execute Remote Channel Handler HandlerProps NodeInvariants ForwardProps JoinProps ReadProps.
#[local] Open Scope Z_scope.

(** * The next page *)

(** A key followed by a zero byte is its immediate successor. *)
Lemma successor_le k y : bytes_le (k ++ [Byte.x00]) y = bytes_lt k y.
Proof.
  unfold bytes_lt. revert y. induction k as [|a k IH]; intros [|b y]; cbn; try done.
  - pose proof (byte_to_Z_range b). byte_cases; (done || lia).
  - rewrite IH. byte_cases; (lia || done).
Qed.

Lemma filter_id {A : Type} (P : A -> Prop) `{!forall x, Decision (P x)} l : Forall P l -> filter P l = l.
Proof. induction 1 as [|x l Hx _ IH]; [done|]. by rewrite filter_cons_True, IH. Qed.

(** The rows after the first one are the rows from its successor on. *)
Lemma select_after lo hi t k v rest :
  select (in_range lo hi) t = (k, v) :: rest -> select (in_range (k ++ [Byte.x00]) hi) t = rest.
Proof.
  intros E. pose proof (select_sorted (in_range lo hi) t) as Hs. pose proof (NoDup_select_keys (in_range lo hi) t) as Hn.
  assert (in_range lo hi k = true) as [Hlo _]%andb_true_iff.
  { apply (elem_of_select _ t k v). rewrite E. by left. }
  assert (select (in_range (k ++ [Byte.x00]) hi) t
    = filter (fun r : row => Is_true (bytes_lt k r.1)) (select (in_range lo hi) t)) as ->.
  { unfold select. rewrite list_filter_filter. apply list_filter_iff. intros [y w]. cbn. unfold in_range.
    rewrite successor_le. unfold bytes_lt. rewrite !Is_true_true, !andb_true_iff, !negb_true_iff.
    split; [|tauto]. intros [Hk Hh]. split_and!; [done| |done].
    apply (bytes_le_trans _ k); [done|]. destruct (bytes_le_total k y); congruence. }
  rewrite E in *. cbn in Hn. apply NoDup_cons in Hn as [Hk _]. apply StronglySorted_inv in Hs as [_ Hf].
  rewrite filter_cons_False.
  - apply filter_id, Forall_forall. intros [y w] Hy. cbn. rewrite Forall_forall in Hf. specialize (Hf _ Hy). unfold key_le in Hf.
    cbn in Hf. unfold bytes_lt. destruct (bytes_le y k) eqn:Ey; [|done]. exfalso. apply Hk.
    rewrite (bytes_le_antisym k y); [|by apply Is_true_true|done]. by apply (list_elem_of_fmap_2 fst rest (y, w)).
  - cbn. unfold bytes_lt. rewrite bytes_le_refl. intros [].
Qed.

(** * The other node *)

(** What the first row of the range makes of the query. *)
Definition page (t : table) (lo hi : bytes) : Event :=
  match select (in_range lo hi) t with
  | [] => E_listRange (Ok lo) (Ok hi) (Ok []) (Ok [])
  | (k, v) :: _ => E_listRange (Ok lo) (Ok hi) (Ok k) (Ok v)
  end.

(** Inside the execution log of commands, which everybody may read. *)
Definition inExecLog (key : bytes) : Prop := KindPrefix CommandExecLogKind `prefix_of` key.

Lemma inExecLog_kind key : inExecLog key -> logKindOfBound key = Ret (Some CommandExecLogKind).
Proof.
  intros [r ->]. unfold logKindOfBound, KindPrefix. change (u16 (blen CommandExecLogKind)) with (blen CommandExecLogKind).
  assert (0 <= blen CommandExecLogKind <= 0xFFFF) by (cbv; split; discriminate).
  rewrite <- !app_assoc. codec. byte_tests. done.
Qed.

Section Target.
Context `{Env}.

Lemma readonly_authorised p g : ReadOnly (isAuthorizedForGatedAccessSt peerID p g).
Proof. unfold isAuthorizedForGatedAccessSt, orM, isInGroupSt. readonly. Qed.

(** The gate lets the query through, whoever asks. *)
Lemma gate_open caller m lo hi k v n :
  Body m = E_listRange (Ok lo) (Ok hi) k v -> inExecLog lo -> inExecLog hi ->
  exists n', gate caller m n = (n', Ret tt) /\ committed (nstore n') = committed (nstore n) /\
    (healthy (nstore n) -> healthy (nstore n')).
Proof.
  intros HB Hlo Hhi. unfold gate. destruct (isRemote caller); cbn [negb]; [|by exists n].
  unfold Which. rewrite HB. cbn [ungated]. unfold mbind at 1, D_bind at 1.
  destruct (authorised_sound (remotePeer caller) ReservedGroupRemote n) as (n1 & b & Ea & Hc & _). rewrite Ea.
  assert (healthy (nstore n) -> healthy (nstore n1)) as Hh.
  { pose proof (readonly_authorised (remotePeer caller) ReservedGroupRemote (nstore n)) as (_ & _ & Hr).
    unfold isAuthorizedForGatedAccess, onStore in Ea. destruct (isAuthorizedForGatedAccessSt _ _ _ _) as [w r].
    injection Ea as <- _. exact Hr. }
  destruct b; [by exists n1|]. exists n1. split; [|done].
  unfold isCommandLogCarveOut. rewrite HB. cbn [rd]. rewrite (inExecLog_kind lo), (inExecLog_kind hi) by done.
  unfold mbind, D_bind. cbn. done.
Qed.

Lemma scan_answers m lo hi n :
  healthy (nstore n) -> Body m = E_listRange (Ok lo) (Ok hi) (Ok []) (Ok []) ->
  exists n' resp, onListRange m (Ok lo) (Ok hi) n = (n', Ret resp) /\ Body resp = page (committed (nstore n)) lo hi.
Proof.
  intros Hh HB. unfold onListRange, mbind, D_bind, onStore. cbn [liftD rd].
  destruct (reads_scanRange Store lo hi 1 _ (nstore n) eq_refl) as (w' & r & -> & _ & _ & _ & Hr).
  destruct Hr as [->|[Hf _]]; [|done]. cbn [view Store]. unfold page.
  destruct (select (in_range lo hi) (committed (nstore n))) as [|[k v] rest]; cbn; by eexists _, _.
Qed.

(** A well-signed query is answered with the page. *)
Lemma query_answered m crc sig caller lo hi n :
  healthy (nstore n) -> Body m = E_listRange (Ok lo) (Ok hi) (Ok []) (Ok []) -> inExecLog lo -> inExecLog hi ->
  Verify Canonicalize ed25519_verify (verifyPub caller) m crc sig = Ret tt ->
  exists n' resp, handleShmEvent m crc sig caller n = (n', Ret resp) /\ Body resp = page (committed (nstore n)) lo hi.
Proof.
  intros Hh HB Hlo Hhi Hv. destruct (gate_open caller m lo hi _ _ n HB Hlo Hhi) as (n1 & Eg & Hc & Hh1).
  destruct (scan_answers m lo hi n1 (Hh1 Hh) HB) as (n2 & resp & Es & Hb).
  exists n2, resp. rewrite <- Hc. split; [|done].
  unfold handleShmEvent, handleRequest, refuseRemote, checkSignature, dispatch, tryD, mbind, D_bind.
  assert (Which m = Event_Which_listRange) as -> by (unfold Which; by rewrite HB). cbn [localOnly].
  assert ((if isRemote caller then mret tt else mret tt : D unit) n = (n, Ret tt)) as -> by (by destruct (isRemote caller)).
  rewrite Hv. unfold mret, D_ret. cbn [liftD]. unfold liftD.
  destruct (RequiresSignature Event_Which_listRange); by rewrite Eg, HB, Es.
Qed.
End Target.

(** * The querying node *)

Section Paging.
Context (E1 E2 : Env) (public_half : bytes -> bytes).

(** Both nodes are built with the same libraries, whose contracts are: signatures
    are 64 bytes and verify under the public half of the key; unmarshalling
    inverts marshalling. *)
Class Peers : Prop := {
  peers_canonicalize : @Canonicalize E2 = @Canonicalize E1;
  peers_sign : @ed25519_sign E2 = @ed25519_sign E1;
  peers_verify : @ed25519_verify E2 = @ed25519_verify E1;
  peers_marshal : @Marshal E2 = @Marshal E1;
  peers_unmarshal : @Unmarshal E2 = @Unmarshal E1;
  peers_sign_size priv msg : blen (@ed25519_sign E1 priv msg) = SignatureSize;
  peers_sign_verifies priv msg : @ed25519_verify E1 (public_half priv) msg (@ed25519_sign E1 priv msg) = true;
  peers_roundtrip m buf : @Marshal E1 m = Ret buf -> @Unmarshal E1 buf = Ret m;
  peers_keys : blen (public_half (@ed25519Priv E1)) = PublicKeySize /\ blen (public_half (@ed25519Priv E2)) = PublicKeySize;
}.
Context `{!Peers} (t : table) (hi remote : bytes).

Definition query (lo : bytes) : Msg := newMsg (E_listRange (Ok lo) (Ok hi) (Ok []) (Ok [])).

(** What a node with that table sends back to the query, encoded and signed by the
    one and handled by the other. *)
Definition answers (lo resp : bytes) : Prop := exists target buf,
  healthy (nstore target) /\ committed (nstore target) = t /\
  @Encode (@Canonicalize E1) (@ed25519_sign E1) (@Marshal E1) (query lo) (Some (@ed25519Priv E1)) = Ret buf /\
  (@handleClientStream E2 (Ret buf) (Some (Ret (public_half (@ed25519Priv E1)))) remote target).2 = Ret (Some resp).

Lemma answers_page lo resp :
  inExecLog lo -> inExecLog hi -> answers lo resp ->
  exists m crc sig, Decode (@Canonicalize E1) (@Unmarshal E1) resp = Ret (m, crc, sig) /\ Body m = page t lo hi.
Proof.
  intros Hlo Hhi (target & buf & Hh & Ht & He & Hr). destruct peers_keys as [Hk1 Hk2].
  destruct (envelope_roundtrip _ _ _ public_half _ _ peers_sign_size peers_sign_verifies peers_roundtrip _ _ _ Hk1 He)
    as (m & crc & sig & Ed & _ & Hb & Hv).
  unfold handleClientStream in Hr. rewrite peers_canonicalize, peers_unmarshal, Ed in Hr. cbn [remoteCaller wrap_err mbind gores_bind] in Hr.
  unfold mbind, D_bind in Hr.
  destruct (@query_answered E2 m crc sig (mkCaller (public_half (@ed25519Priv E1)) remote) lo hi target) as (n' & answer & Eq & Hp); try done.
  { cbn [verifyPub]. by rewrite peers_canonicalize, peers_verify. }
  cbn in Hr. rewrite Eq in Hr. cbn in Hr. rewrite Ht in Hp.
  rewrite peers_sign, peers_marshal in Hr.
  destruct (Encode _ _ _ answer _) as [respBuf| |] eqn:Ee; [|done..]. injection Hr as ->.
  destruct (envelope_roundtrip _ _ _ public_half _ _ peers_sign_size peers_sign_verifies peers_roundtrip _ _ _ Hk2 Ee)
    as (m' & crc' & sig' & Ed' & _ & Hb' & _).
  exists m', crc', sig'. by rewrite Hb'.
Qed.

(** The replies to the queries of the loop, one for each row and one for the end. *)
Inductive served : bytes -> list net_reply -> Prop :=
| served_end lo resp rest : select (in_range lo hi) t = [] -> answers lo resp -> served lo (Reply resp [] :: rest)
| served_row lo k v rows resp rest :
    select (in_range lo hi) t = (k, v) :: rows -> answers lo resp -> served (k ++ [Byte.x00]) rest ->
    served lo (Reply resp [] :: rest).

Lemma queryPage_run dest lo resp rest n :
  inExecLog lo -> inExecLog hi -> answers lo resp -> nnet n = Reply resp [] :: rest ->
  exists n', nnet n' = rest /\ @queryPage E1 dest lo hi n =
    match select (in_range lo hi) t with
    | [] => (n', Ret None)
    | (k, v) :: _ => (n', rec ← wrap_err "dial_query_command_log: decode record: %w" (@json_unrecord E1 v); Ret (Some (k, rec)))
    end.
Proof.
  intros Hlo Hhi Ha Hn. destruct (answers_page _ _ Hlo Hhi Ha) as (m & crc & sig & Ed & Hb).
  destruct Ha as (_ & buf & _ & _ & He & _). unfold query in He.
  unfold queryPage, NewListRange, exchange, mbind, D_bind, modify, gets. cbn. rewrite He. cbn. rewrite Hn. cbn.
  rewrite Ed. cbn. unfold page in Hb. unfold Which. rewrite Hb. eexists (set_net rest (record_call _ n)). split; [done|].
  destruct (select (in_range lo hi) t) as [|[k v] rows] eqn:Es; cbn; [done|].
  assert (inExecLog k) as [r ->].
  { assert (in_range lo hi k = true) as [? ?]%andb_true_iff by (apply (elem_of_select _ t k v); rewrite Es; by left).
    exact (between_prefix _ lo hi k Hlo Hhi ltac:(done) ltac:(done)). }
  cbn. by destruct (json_unrecord v).
Qed.

(** [limit] of them, or all when it is zero or less. *)
Definition upTo (limit : Z) (records : list LogRecord) : list LogRecord :=
  if limit <=? 0 then records else take (Z.to_nat limit) records.

Lemma limitReached_upTo limit records more :
  blen records <= limit \/ limit <= 0 -> limitReached limit records = true -> upTo limit (records ++ more) = records.
Proof.
  unfold limitReached, upTo, blen. intros Hl [H1%Z.ltb_lt H2%Z.leb_le]%andb_true_iff.
  destruct (Z.leb_spec limit 0); [lia|]. replace (Z.to_nat limit) with (length records) by lia. apply take_app_length.
Qed.

Lemma limitReached_not limit records :
  limitReached limit records = false -> limit <= 0 \/ blen records < limit.
Proof. unfold limitReached. intros [Hl%Z.ltb_ge|Hl%Z.leb_gt]%andb_false_iff; lia. Qed.

Lemma queryPages_served fuel dest lo limit records decoded replies n :
  inExecLog lo -> inExecLog hi -> served lo replies -> (length replies < fuel)%nat -> nnet n = replies ->
  blen records <= limit \/ limit <= 0 ->
  Forall2 (fun kv rec => @json_unrecord E1 kv.2 = Ret rec) (select (in_range lo hi) t) decoded ->
  (@queryPages E1 fuel dest lo hi limit records n).2 = Ret (upTo limit (records ++ decoded)).
Proof.
  revert lo records decoded replies n. induction fuel as [|fuel IH]; intros lo records decoded replies n Hlo Hhi Hs Hf Hn Hl Hd; [lia|].
  cbn [queryPages]. destruct (limitReached limit records) eqn:Er; [by rewrite limitReached_upTo|].
  assert (forall resp rest, answers lo resp -> nnet n = Reply resp [] :: rest -> exists n', nnet n' = rest /\ @queryPage E1 dest lo hi n = _)
    as Hq by (intros resp rest; by apply queryPage_run).
  unfold mbind, D_bind. inversion Hs as [lo' resp rest Hsel Ha|lo' k v rows resp rest Hsel Ha Hs']; subst.
  - destruct (Hq resp rest Ha ltac:(done)) as (n' & _ & Eq). rewrite Eq, Hsel in *. cbn. inversion Hd; subst. rewrite app_nil_r.
    apply limitReached_not in Er. unfold upTo, blen in *. destruct (Z.leb_spec limit 0); [done|]. by rewrite take_ge by lia.
  - destruct (Hq resp rest Ha ltac:(done)) as (n' & Hn' & Eq). rewrite Eq, Hsel in *.
    inversion Hd as [|? rec ? decoded' Hrec Hd']; subst. cbn in Hrec. rewrite Hrec. cbn.
    rewrite (IH (k ++ [Byte.x00]) (records ++ [rec]) decoded' (nnet n') n'); try done.
    + by rewrite <- app_assoc.
    + assert (in_range lo hi k = true) as [? ?]%andb_true_iff by (apply (elem_of_select _ t k v); rewrite Hsel; by left).
      destruct (between_prefix _ lo hi k Hlo Hhi ltac:(done) ltac:(done)) as [r ->]. exists (r ++ [Byte.x00]). by rewrite app_assoc.
    + match goal with E : _ = nnet n |- _ => rewrite <- E in Hf end. cbn in Hf. lia.
    + apply limitReached_not in Er. unfold blen in *. rewrite length_app. cbn. lia.
    + by rewrite (select_after _ _ _ _ _ _ Hsel).
Qed.
End Paging.

(** * Theorems *)

(** Reading a log through another node: when a healthy node with table [t] answers
    every page, the loop returns the records of the execution log of that command
    instance between the two times, in key order, each once and none left out,
    cut off at [limit] when it is positive -- however many pages that takes, and
    whoever asks. *)
Theorem remote_log_paging (E1 E2 : Env) (public_half : bytes -> bytes) (HP : Peers E1 E2 public_half)
    (t : table) (remote dest instanceID : bytes) (since until limit : Z) (decoded : list LogRecord) (n : node) :
  let '(lo, hi) := ScanBounds CommandExecLogKind instanceID since until in
  served E1 E2 public_half t hi remote lo (nnet n) ->
  Forall2 (fun kv rec => @json_unrecord E1 kv.2 = Ret rec) (select (in_range lo hi) t) decoded ->
  (@queryPages E1 (S (length (nnet n))) dest lo hi limit [] n).2 = Ret (upTo limit decoded).
Proof.
  unfold ScanBounds. intros Hs Hd.
  apply (queryPages_served E1 E2 public_half t _ remote _ _ _ _ [] _ (nnet n)); try done; try lia.
  - unfold kindUnitPrefix, inExecLog, KindPrefix. eexists. by rewrite <- !app_assoc.
  - unfold kindUnitPrefix, inExecLog, KindPrefix. eexists. by rewrite <- !app_assoc.
  - unfold blen. cbn. lia.
Qed.
