(* ===== verification/Ipc.v ===== *)
(** The local transport between an operator's process and a node
    (src/pkg/ipc/ipc.go): one call at a time over named shared-memory segments,
    [Call] and [CallRaw] on one side and [Serve] on the other, with every interleaving of
    their steps.

    The shared-memory rings are not part of the source.  A segment is known by
    what it holds and whether its writer is done; a name leads to the segment
    last created under it until the creator removes the name, and a reader that
    has opened a segment keeps it.  A message is assumed to fit into the ring
    ([capacity]), so that a write never waits and a reader that waits for the
    writer to be done sees all of it or nothing. *)

From S2P Require Import Prelude Store StoreLogic SystemKeys Payloads LogRecord Txn Fsm Events Stream Quota Session Node.
#[local] Open Scope Z_scope.

(** * State *)

Record segment : Type := mkSegment {
  segData : bytes;
  segDone : bool;
}.

(** What goes out: a message to be signed with a key ([Call]), or bytes that were
    signed before ([CallRaw]). *)
Inductive payload : Type :=
| Signed (priv : option bytes)
| Raw (encoded : bytes).

(** Where [Call] is: before it, or in it with its message, its request segment and,
    at the end, the response segment it reads. *)
Inductive callerState : Type :=
| CIdle
| CCreated (m : Msg) (p : payload) (req : nat)
| CWritten (m : Msg) (req : nat)
| CWaiting (m : Msg) (req : nat)
| CReading (m : Msg) (req resp : nat).

(** Where the loop of [Serve] is. *)
Inductive serverState : Type :=
| SPolling
| SReading (req : nat)
| SHandling (req : nat) (m : Msg) (crc : Z) (sig : bytes)
| SResponding (resp : Msg)
| SCreated (resp : Msg) (seg : nat)
| SWritten (resp : Msg) (seg : nat)
| SStopped.

(** One handled request: its segment, what was decoded from it, and the response. *)
Record servedCall : Type := mkServed {
  sSeg : nat;
  sReq : Msg;
  sCrc : Z;
  sSig : bytes;
  sResp : Msg;
}.

(** The last three fields record what happened: the calls begun, the requests
    handled, and how the calls ended. *)
Record system : Type := mkSystem {
  mem : gmap nat segment;
  nextSegment : nat;
  reqName : option nat;
  respNames : gmap Z nat;
  caller : callerState;
  server : serverState;
  lastID : option Z;
  pendingResp : option Z;
  theNode : node;
  issued : list (nat * Msg);
  served : list servedCall;
  outcomes : list (Msg * gores Msg);
}.

Definition start (n : node) : system := mkSystem ∅ 0 None ∅ CIdle SPolling None None n [] [] [].

Definition set_mem (f : gmap nat segment -> gmap nat segment) (st : system) : system :=
  mkSystem (f (mem st)) (nextSegment st) (reqName st) (respNames st) (caller st) (server st) (lastID st) (pendingResp st)
    (theNode st) (issued st) (served st) (outcomes st).
Definition set_caller (c : callerState) (st : system) : system :=
  mkSystem (mem st) (nextSegment st) (reqName st) (respNames st) c (server st) (lastID st) (pendingResp st)
    (theNode st) (issued st) (served st) (outcomes st).
Definition set_server (s : serverState) (st : system) : system :=
  mkSystem (mem st) (nextSegment st) (reqName st) (respNames st) (caller st) s (lastID st) (pendingResp st)
    (theNode st) (issued st) (served st) (outcomes st).

(** * Segments *)

Definition allocate (st : system) : system :=
  mkSystem (<[nextSegment st := mkSegment [] false]> (mem st)) (S (nextSegment st)) (reqName st) (respNames st) (caller st)
    (server st) (lastID st) (pendingResp st) (theNode st) (issued st) (served st) (outcomes st).

(** [w.WriteContext(ctx, buf)] and [w.Close()] *)
Definition fill (o : nat) (buf : bytes) : system -> system := set_mem (alter (fun _ => mkSegment buf false) o).
Definition finish (o : nat) : system -> system := set_mem (alter (fun s => mkSegment (segData s) true) o).

(** * The caller *)

(** What [Serve] is given to process one decoded request, with the checksum and the
    signature as they came. *)
Definition Handler : Type := Msg -> Z -> bytes -> D Msg.

Section Ipc.
Context `{Env} (handle : Handler).

(** A call begins: [CreateShm] of the node's request channel. *)
Definition beginCall (m : Msg) (p : payload) (st : system) : system :=
  let o := nextSegment st in
  let st := allocate st in
  mkSystem (mem st) (nextSegment st) (Some o) (respNames st) (CCreated m p o) (server st) (lastID st) (pendingResp st)
    (theNode st) (issued st ++ [(o, m)]) (served st) (outcomes st).

(** A call ends: [w.CloseStorage()] removes the request channel. *)
Definition endCall (m : Msg) (r : gores Msg) (st : system) : system :=
  mkSystem (mem st) (nextSegment st) None (respNames st) CIdle (server st) (lastID st) (pendingResp st)
    (theNode st) (issued st) (served st) (outcomes st ++ [(m, r)]).

(** The bytes of the request. *)
Definition requestBytes (m : Msg) (p : payload) : gores bytes :=
  match p with
  | Signed priv => Encode Canonicalize ed25519_sign Marshal m priv
  | Raw encoded => Ret encoded
  end.

(** [CallRaw] begins by decoding what it is given, to know the id; if it cannot, that
    is all it does. *)
Definition beginRaw (encoded : bytes) (st : system) : system :=
  match Decode Canonicalize Unmarshal encoded with
  | Ret (m, _, _) => beginCall m (Raw encoded) st
  | _ => st
  end.

Definition callerWrite (st : system) : option system :=
  match caller st with
  | CCreated m p o =>
    Some (match requestBytes m p with
          | Ret buf => set_caller (CWritten m o) (fill o buf st)
          | r => endCall m (Fail (Errorf "ipc: encode request: %w")) st
          end)
  | _ => None
  end.

Definition callerFinish (st : system) : option system :=
  match caller st with
  | CWritten m o => Some (set_caller (CWaiting m o) (finish o st))
  | _ => None
  end.

(** [openRespWithRetry]: the response channel of this message is there. *)
Definition callerOpen (st : system) : option system :=
  match caller st with
  | CWaiting m o =>
    match respNames st !! Id m with
    | Some r => Some (set_caller (CReading m o r) st)
    | None => None
    end
  | _ => None
  end.

Definition callerRead (st : system) : option system :=
  match caller st with
  | CReading m o r =>
    match mem st !! r with
    | Some (mkSegment respBuf true) =>
      Some (endCall m ('(resp, _, _) ← Decode Canonicalize Unmarshal respBuf; Ret resp) st)
    | _ => None
    end
  | _ => None
  end.

(** The caller's context ends while it waits. *)
Definition callerGiveUp (st : system) : option system :=
  match caller st with
  | CWaiting m _ => Some (endCall m (Fail (Errorf "ipc: waiting for response channel %s: %w")) st)
  | CReading m _ _ => Some (endCall m (Fail (Errorf "ipc: read response: %w")) st)
  | _ => None
  end.

(** * The node *)

(** [openReqWithRetry] *)
Definition serverOpen (st : system) : option system :=
  match server st, reqName st with
  | SPolling, Some o => Some (set_server (SReading o) st)
  | _, _ => None
  end.

(** [cleanupPending]: the last response channel is removed. *)
Definition cleanupPending (st : system) : system :=
  match pendingResp st with
  | None => st
  | Some id => mkSystem (mem st) (nextSegment st) (reqName st) (delete id (respNames st)) (caller st) (server st) (lastID st)
      None (theNode st) (issued st) (served st) (outcomes st)
  end.

(** The request is read, decoded and compared with the last one. *)
Definition serverRead (st : system) : option system :=
  match server st with
  | SReading o =>
    match mem st !! o with
    | Some (mkSegment reqBuf true) =>
      Some (match Decode Canonicalize Unmarshal reqBuf with
            | Ret (m, crc, sig) =>
              if bool_decide (lastID st = Some (Id m)) then set_server SPolling st
              else set_server (SHandling o m crc sig) (cleanupPending st)
            | _ => set_server SPolling st
            end)
    | _ => None
    end
  | _ => None
  end.

Definition logServed (c : servedCall) (n : node) (st : system) : system :=
  mkSystem (mem st) (nextSegment st) (reqName st) (respNames st) (caller st) (SResponding (sResp c)) (lastID st) (pendingResp st)
    n (issued st) (served st ++ [c]) (outcomes st).

(** A panic of the handler ends the process. *)
Definition serverHandle (st : system) : option system :=
  match server st with
  | SHandling o m crc sig =>
    Some (match handle m crc sig (theNode st) with
          | (n, Ret resp) => logServed (mkServed o m crc sig (SetId (Id m) resp)) n st
          | (n, _) => set_server SStopped st
          end)
  | _ => None
  end.

(** [sendResponse], in three steps. *)
Definition serverCreate (st : system) : option system :=
  match server st with
  | SResponding resp =>
    let r := nextSegment st in
    let st := allocate st in
    Some (mkSystem (mem st) (nextSegment st) (reqName st) (<[Id resp := r]> (respNames st)) (caller st) (SCreated resp r) (lastID st)
      (pendingResp st) (theNode st) (issued st) (served st) (outcomes st))
  | _ => None
  end.

Definition serverWrite (st : system) : option system :=
  match server st with
  | SCreated resp r =>
    Some (match Encode Canonicalize ed25519_sign Marshal resp (Some ed25519Priv) with
          | Ret buf => set_server (SWritten resp r) (fill r buf st)
          | _ => mkSystem (mem st) (nextSegment st) (reqName st) (delete (Id resp) (respNames st)) (caller st) SStopped (lastID st)
              (pendingResp st) (theNode st) (issued st) (served st) (outcomes st)
          end)
  | _ => None
  end.

Definition serverFinish (st : system) : option system :=
  match server st with
  | SWritten resp r =>
    let st := finish r st in
    Some (mkSystem (mem st) (nextSegment st) (reqName st) (respNames st) (caller st) SPolling (Some (Id resp)) (Some (Id resp))
      (theNode st) (issued st) (served st) (outcomes st))
  | _ => None
  end.

(** * Runs *)

(** Whose turn it is. *)
Inductive turn : Type :=
| BeginCall (m : Msg) (priv : option bytes)
| BeginRaw (encoded : bytes)
| CallerWrite | CallerFinish | CallerOpen | CallerRead | CallerGiveUp
| ServerOpen | ServerRead | ServerHandle | ServerCreate | ServerWrite | ServerFinish.

Definition ipcStep (t : turn) (st : system) : option system :=
  match t with
  | BeginCall m priv => match caller st with CIdle => Some (beginCall m (Signed priv) st) | _ => None end
  | BeginRaw encoded => match caller st with CIdle => Some (beginRaw encoded st) | _ => None end
  | CallerWrite => callerWrite st
  | CallerFinish => callerFinish st
  | CallerOpen => callerOpen st
  | CallerRead => callerRead st
  | CallerGiveUp => callerGiveUp st
  | ServerOpen => serverOpen st
  | ServerRead => serverRead st
  | ServerHandle => serverHandle st
  | ServerCreate => serverCreate st
  | ServerWrite => serverWrite st
  | ServerFinish => serverFinish st
  end.

(** A schedule of turns, each of them possible. *)
Fixpoint ipcRun (ts : list turn) (st : system) : option system :=
  match ts with
  | [] => Some st
  | t :: ts' => st' ← ipcStep t st; ipcRun ts' st'
  end.

(** The turns of a call that meets a polling node. *)
Definition undisturbed (m : Msg) (priv : option bytes) : list turn :=
  [BeginCall m priv; CallerWrite; CallerFinish; ServerOpen; ServerRead; ServerHandle; ServerCreate; ServerWrite; ServerFinish;
   CallerOpen; CallerRead].
End Ipc.
