(* ===== verification/IpcProps.v ===== *)
(** The local transport: under every interleaving of a caller and a node, a call
    that returns a response returns the node's response to that very request,
    requests are handled at most once and in order -- as long as no two calls
    use the same id; and what happens when two do. *)

From S2P Require Import Prelude Store StoreLogic SystemKeys Payloads LogRecord Txn Fsm Events Stream Quota Session Node Ipc.
#[local] Open Scope Z_scope.

(** * Messages on the wire *)

(** The library's contract: unmarshalling inverts marshalling. *)
Class WireCodec `{Env} : Prop := {
  unmarshal_marshal m buf : Marshal m = Ret buf -> Unmarshal buf = Ret m;
}.

(** The same id and content; checksum and signature are the envelope's. *)
Definition same (a b : Msg) : Prop := Id a = Id b /\ Body a = Body b.

#[global] Instance same_equivalence : Equivalence same.
Proof. unfold same. split; red; intuition congruence. Qed.

Section Carries.
Context `{Env} `{!WireCodec}.

(** The bytes decode to that message. *)
Definition carries (m : Msg) (buf : bytes) : Prop :=
  exists m' crc sig, Decode Canonicalize Unmarshal buf = Ret (m', crc, sig) /\ same m m'.

Lemma encode_carries m priv buf : Encode Canonicalize ed25519_sign Marshal m priv = Ret buf -> carries m buf.
Proof.
  unfold Encode, crc32Of, marshalWithCrcAndEmptySig.
  destruct (rd (Signature m)) as [s0| |]; [cbn [wrap_err mbind gores_bind]|done..].
  destruct (Canonicalize (mkMsg (Id m) 0 (Ok []) (Body m))) as [raw| |] eqn:Hraw; [cbn [wrap_err mbind gores_bind]|done..].
  cbv zeta. cbn [Id Body Signature].
  destruct (Sign _ _ priv _ _) as [sig| |]; [cbn [wrap_err mbind gores_bind]|done..].
  intros E%unmarshal_marshal. exists (mkMsg (Id m) (crc32_ieee raw) (Ok sig) (Body m)), (crc32_ieee raw), sig. split; [|by split].
  unfold Decode. rewrite E. cbn [wrap_err mbind gores_bind Crc32 Signature rd].
  unfold crc32Of, marshalWithCrcAndEmptySig. cbn [Id Signature Body rd wrap_err mbind gores_bind].
  rewrite Hraw. cbn [wrap_err mbind gores_bind]. by rewrite Z.eqb_refl.
Qed.

Lemma carries_decode m buf m' crc sig : carries m buf -> Decode Canonicalize Unmarshal buf = Ret (m', crc, sig) -> same m m'.
Proof. intros (m1 & c1 & s1 & E1 & Hs) E. rewrite E in E1. by injection E1 as -> -> ->. Qed.
End Carries.

(** * The invariant *)

Section Invariant.
Context `{Env} `{!WireCodec} (handle : Handler) (n0 : node).

(** The node's state is what handling these requests in this order makes of it. *)
Inductive ran : list servedCall -> node -> Prop :=
| ran_nil : ran [] n0
| ran_snoc cs c n n' resp :
    ran cs n -> handle (sReq c) (sCrc c) (sSig c) n = (n', Ret resp) ->
    sResp c = SetId (Id (sReq c)) resp -> ran (cs ++ [c]) n'.

Definition sentAs (st : system) (o : nat) (m : Msg) : Prop := (o, m) ∈ issued st.

(** The response segment the server is working on, or was when it stopped. *)
Definition openSeg (st : system) (r : nat) : Prop :=
  match server st with
  | SCreated _ r' | SWritten _ r' => r' = r
  | SStopped => True
  | _ => False
  end.

(** A segment for the response to a request of that id: it holds it, or it is the
    last one handled and the server is still writing. *)
Definition answerSeg (st : system) (id : Z) (r : nat) : Prop :=
  (r < nextSegment st)%nat /\ (forall m, ~ sentAs st r m) /\
  exists c, c ∈ served st /\ Id (sReq c) = id /\
    forall s, mem st !! r = Some s ->
      if segDone s then carries (sResp c) (segData s) else last (served st) = Some c /\ openSeg st r.

(** Bytes given to be passed on decode to the message they are taken for. *)
Definition carriesRaw (m : Msg) (p : payload) : Prop := if p is Raw encoded then carries m encoded else True.

Lemma request_carries m p buf : carriesRaw m p -> requestBytes m p = Ret buf -> carries m buf.
Proof. destruct p as [priv|e]; cbn; [intros _; apply encode_carries|by intros ? [= <-]]. Qed.

Definition caller_ok (st : system) : Prop :=
  match caller st with
  | CIdle => True
  | CCreated m p o => last (issued st) = Some (o, m) /\ carriesRaw m p /\ exists s, mem st !! o = Some s /\ segDone s = false
  | CWritten m o => last (issued st) = Some (o, m) /\ exists buf, mem st !! o = Some (mkSegment buf false) /\ carries m buf
  | CWaiting m o => last (issued st) = Some (o, m)
  | CReading m o r => last (issued st) = Some (o, m) /\ answerSeg st (Id m) r
  end.

(** The response being sent is the last one handled. *)
Definition responding (st : system) (resp : Msg) : Prop := exists c, last (served st) = Some c /\ sResp c = resp.

Definition server_ok (st : system) : Prop :=
  match server st with
  | SPolling => lastID st = (fun c => Id (sReq c)) <$> last (served st)
  | SReading o => lastID st = (fun c => Id (sReq c)) <$> last (served st) /\
      (exists m, sentAs st o m) /\ forall c, c ∈ served st -> (sSeg c <= o)%nat
  | SHandling o m _ _ => (exists m', sentAs st o m' /\ same m' m) /\ forall c, c ∈ served st -> (sSeg c < o)%nat
  | SResponding resp => responding st resp
  | SCreated resp r => responding st resp /\ answerSeg st (Id resp) r /\ mem st !! r = Some (mkSegment [] false)
  | SWritten resp r => responding st resp /\ answerSeg st (Id resp) r /\
      exists buf, mem st !! r = Some (mkSegment buf false) /\ carries resp buf
  | SStopped => True
  end.

Record ipc_inv (st : system) : Prop := {
  ii_sent o m : sentAs st o m ->
    (o < nextSegment st)%nat /\ forall s, mem st !! o = Some s -> segDone s = true -> carries m (segData s);
  ii_order : StronglySorted lt (issued st).*1;
  ii_name o : reqName st = Some o -> exists m, last (issued st) = Some (o, m);
  ii_caller : caller_ok st;
  ii_server : server_ok st;
  ii_served c : c ∈ served st -> exists m, sentAs st (sSeg c) m /\ same m (sReq c) /\ Id (sResp c) = Id (sReq c);
  ii_serial : StronglySorted lt (map sSeg (served st));
  ii_names id r : respNames st !! id = Some r -> answerSeg st id r;
  ii_ran : ran (served st) (theNode st);
  ii_outcomes m resp : (m, Ret resp) ∈ outcomes st ->
    exists o c, sentAs st o m /\ c ∈ served st /\ sSeg c = o /\ same m (sReq c) /\ same (sResp c) resp;
}.

Definition fresh_ids (st : system) : Prop := NoDup (map (fun c => Id c.2) (issued st)).

Lemma start_inv : ipc_inv (start n0).
Proof.
  constructor; unfold sentAs, caller_ok, server_ok; cbn; try done; try (by constructor); intros *;
    match goal with |- _ ∈ [] -> _ => by intros ?%elem_of_nil end.
Qed.

(** A step that leaves the server, what it handled and this segment alone. *)
Lemma answerSeg_frame st st' id r :
  (nextSegment st <= nextSegment st')%nat -> (forall m, sentAs st' r m -> sentAs st r m \/ r = nextSegment st) ->
  served st' = served st -> server st' = server st -> mem st' !! r = mem st !! r ->
  answerSeg st id r -> answerSeg st' id r.
Proof.
  intros Hn Hi Hs Hv Hm (Hr & Hq & c & Hc & Hid & Hd). split; [lia|]. split.
  - intros m Hm'. destruct (Hi m Hm') as [?|?]; [by apply (Hq m)|lia].
  - exists c. unfold openSeg. by rewrite Hs, Hv, Hm.
Qed.

Lemma issued_unique st o1 m1 o2 m2 :
  fresh_ids st -> sentAs st o1 m1 -> sentAs st o2 m2 -> Id m1 = Id m2 -> o1 = o2 /\ m1 = m2.
Proof.
  unfold fresh_ids, sentAs. intros Hnd H1 H2 E. apply list_elem_of_lookup in H1 as [i H1], H2 as [j H2].
  assert (i = j) as ->.
  { eapply (NoDup_lookup _ i j (Id m1)); [exact Hnd|..]; rewrite list_lookup_fmap.
    - by rewrite H1.
    - by rewrite H2, E. }
  rewrite H1 in H2. by injection H2 as -> ->.
Qed.

Lemma segment_unique st o m1 m2 : ipc_inv st -> sentAs st o m1 -> sentAs st o m2 -> m1 = m2.
Proof.
  intros Hi H1 H2. assert (NoDup (issued st).*1) as Hnd.
  { pose proof (ii_order _ Hi) as Hs. induction Hs as [|x l Hl IH Hx]; constructor; [|done].
    intros Hin. rewrite Forall_forall in Hx. specialize (Hx _ Hin). lia. }
  unfold sentAs in *. apply list_elem_of_lookup in H1 as [i H1], H2 as [j H2].
  assert (i = j) as -> by (eapply (NoDup_lookup _ i j o); [exact Hnd|by rewrite list_lookup_fmap, ?H1, ?H2..]).
  rewrite H1 in H2. by injection H2 as ->.
Qed.

(** The call last begun has the latest request segment. *)
Lemma newest st o m o' m' : ipc_inv st -> last (issued st) = Some (o, m) -> sentAs st o' m' -> (o' <= o)%nat.
Proof.
  intros Hi (l & E)%last_Some Hs. pose proof (ii_order _ Hi) as Ho. unfold sentAs in Hs. rewrite E in Ho, Hs.
  rewrite fmap_app in Ho. apply elem_of_app in Hs as [Hs|Hs%list_elem_of_singleton]; [|injection Hs as -> ->; lia].
  apply StronglySorted_app in Ho as (Ho & _ & _). specialize (Ho o' o). cbn in Ho.
  enough (o' < o)%nat by lia. apply Ho; [|by left]. by apply (list_elem_of_fmap_2 fst l (o', m')).
Qed.

Lemma last_sent st o m : last (issued st) = Some (o, m) -> sentAs st o m.
Proof. apply last_Some_elem_of. Qed.

(** ** The steps of the caller *)

Lemma begin_sent st m priv o m' :
  sentAs (beginCall m priv st) o m' <-> sentAs st o m' \/ (o = nextSegment st /\ m' = m).
Proof.
  unfold sentAs. cbn. rewrite elem_of_app, list_elem_of_singleton. split; intros [|E]; auto; [right|right]; naive_solver.
Qed.

Lemma begin_answerSeg st m priv id r : answerSeg st id r -> answerSeg (beginCall m priv st) id r.
Proof.
  intros Ha. pose proof Ha as [Hr _]. revert Ha. apply answerSeg_frame; cbn; [lia| |done|done|].
  - intros m' [Hs|[-> ->]]%begin_sent; auto.
  - by rewrite lookup_insert_ne by lia.
Qed.

Lemma begin_inv st m priv : carriesRaw m priv -> ipc_inv st -> ipc_inv (beginCall m priv st).
Proof.
  intros Hp Hi. constructor.
  - intros o m' [Hs|[-> ->]]%begin_sent; cbn.
    + destruct (ii_sent _ Hi o m' Hs) as [Ho Hc]. split; [lia|]. intros s. rewrite lookup_insert_ne by lia. apply Hc.
    + split; [lia|]. intros s. rewrite lookup_insert_eq. by intros [= <-].
  - cbn. rewrite fmap_app. apply StronglySorted_app. split_and!; [|apply Hi|by repeat constructor].
    intros x1 x2 ([o m'] & -> & Hs)%list_elem_of_fmap ->%list_elem_of_singleton. cbn. by apply (ii_sent _ Hi o m').
  - cbn. intros o [= <-]. exists m. by rewrite last_snoc.
  - unfold caller_ok. cbn. rewrite last_snoc, lookup_insert_eq. eauto.
  - pose proof (ii_server _ Hi) as Hs. unfold server_ok in *. cbn.
    destruct (server st) as [|o|o m1 crc sig|resp|resp r|resp r|]; cbn in *; try done.
    + destruct Hs as (Hl & (m' & Hm) & Hc). split_and!; [done| |done]. exists m'. apply begin_sent. auto.
    + destruct Hs as ((m' & Hm & Hsame) & Hc). split; [|done]. exists m'. split; [|done]. apply begin_sent. auto.
    + destruct Hs as (Hr & Ha & Hm). split_and!; [done|by apply begin_answerSeg|].
      rewrite lookup_insert_ne; [done|]. destruct Ha as [? _]. lia.
    + destruct Hs as (Hr & Ha & buf & Hm & Hb). split_and!; [done|by apply begin_answerSeg|]. exists buf. split; [|done].
      rewrite lookup_insert_ne; [done|]. destruct Ha as [? _]. lia.
  - cbn. intros c Hc. destruct (ii_served _ Hi c Hc) as (m' & Hs & ?). exists m'. split; [|done]. apply begin_sent. auto.
  - apply Hi.
  - cbn. intros id r Hr. apply begin_answerSeg. by apply Hi.
  - apply Hi.
  - cbn. intros m' resp Ho. destruct (ii_outcomes _ Hi m' resp Ho) as (o & c & Hs & Hc). exists o, c. split; [|done].
    apply begin_sent. auto.
Qed.

(** The caller works on its own request segment. *)
Lemma own_request_inv st o m f c :
  ipc_inv st -> sentAs st o m ->
  (forall s, mem st !! o = Some s -> segDone (f s) = true -> carries m (segData (f s))) ->
  caller_ok (set_caller c (set_mem (alter f o) st)) -> ipc_inv (set_caller c (set_mem (alter f o) st)).
Proof.
  intros Hi Hm Hf Hcall. set (st' := set_caller c (set_mem (alter f o) st)) in *.
  assert (forall r, r <> o -> mem st' !! r = mem st !! r) as Hne by (intros r Hr; by apply lookup_alter_ne).
  assert (forall id r, answerSeg st id r -> r <> o) as Hro by (intros id r (_ & Hq & _) ->; by apply (Hq m)).
  assert (forall id r, answerSeg st id r -> answerSeg st' id r) as Ha.
  { intros id r Ha. pose proof (Hro id r Ha) as Hr. revert Ha. apply answerSeg_frame; auto. }
  constructor; try apply Hi; try done.
  - intros o' m' Hs. destruct (ii_sent _ Hi o' m' Hs) as [Ho Hc]. split; [done|].
    destruct (decide (o' = o)) as [->|Hno]; [|by rewrite Hne].
    rewrite (segment_unique st o m' m Hi Hs Hm). cbn. rewrite lookup_alter_eq. intros s (s0 & E & ->)%fmap_Some. by apply Hf.
  - pose proof (ii_server _ Hi) as Hs. unfold server_ok in *. change (server st') with (server st).
    destruct (server st) as [|o'|o' m1 crc sig|resp|resp r|resp r|] eqn:Es; try done.
    + destruct Hs as (Hr & Hans & Hmem). rewrite Hne by (by eapply Hro). auto.
    + destruct Hs as (Hr & Hans & Hmem). rewrite Hne by (by eapply Hro). auto.
  - intros id r Hr. apply Ha. by apply Hi.
Qed.

Lemma set_caller_inv st c : ipc_inv st -> caller_ok (set_caller c st) -> ipc_inv (set_caller c st).
Proof. intros Hi Hc. constructor; try apply Hi. done. Qed.

Lemma endCall_inv st m r :
  ipc_inv st ->
  (forall resp, r = Ret resp -> exists o c, sentAs st o m /\ c ∈ served st /\ sSeg c = o /\ same m (sReq c) /\ same (sResp c) resp) ->
  ipc_inv (endCall m r st).
Proof.
  intros Hi Hr. constructor; try apply Hi; try done.
  intros m' resp [Ho|E%list_elem_of_singleton]%elem_of_app; [by apply (ii_outcomes _ Hi)|]. injection E as -> E. by apply Hr.
Qed.

Lemma beginRaw_inv st encoded : ipc_inv st -> ipc_inv (beginRaw encoded st).
Proof.
  intros Hi. unfold beginRaw. destruct (Decode _ _ encoded) as [[[m crc] sig]| |] eqn:E; [|done..].
  apply begin_inv; [|done]. exists m, crc, sig. by split.
Qed.

Lemma callerWrite_inv st st' : ipc_inv st -> callerWrite st = Some st' -> ipc_inv st'.
Proof.
  intros Hi. unfold callerWrite. pose proof (ii_caller _ Hi) as Hc. unfold caller_ok in Hc.
  destruct (caller st) as [|m priv o|m o|m o|m o r]; try done. destruct Hc as (Hl & Hp & s & Hs & Hd). intros [= <-].
  destruct (requestBytes m priv) as [buf|e|] eqn:E; [|by apply endCall_inv..].
  apply (own_request_inv st o m); [done|by apply last_sent|done|]. unfold caller_ok. cbn. split; [done|].
  rewrite lookup_alter_eq, Hs. cbn. exists buf. split; [done|]. by eapply request_carries.
Qed.

Lemma callerFinish_inv st st' : ipc_inv st -> callerFinish st = Some st' -> ipc_inv st'.
Proof.
  intros Hi. unfold callerFinish. pose proof (ii_caller _ Hi) as Hc. unfold caller_ok in Hc.
  destruct (caller st) as [|m priv o|m o|m o|m o r]; try done. destruct Hc as (Hl & buf & Hs & Hd). intros [= <-].
  apply (own_request_inv st o m); [done|by apply last_sent| |done]. intros s Hs' _. rewrite Hs in Hs'. by injection Hs' as <-.
Qed.

Lemma callerOpen_inv st st' : ipc_inv st -> callerOpen st = Some st' -> ipc_inv st'.
Proof.
  intros Hi. unfold callerOpen. pose proof (ii_caller _ Hi) as Hc. unfold caller_ok in Hc.
  destruct (caller st) as [|m priv o|m o|m o|m o r]; try done.
  destruct (respNames st !! Id m) as [r|] eqn:Er; [|done]. intros [= <-]. apply set_caller_inv; [done|].
  split; [done|]. by apply (ii_names _ Hi).
Qed.

Lemma callerGiveUp_inv st st' : ipc_inv st -> callerGiveUp st = Some st' -> ipc_inv st'.
Proof.
  intros Hi. unfold callerGiveUp. destruct (caller st); try done; intros [= <-]; by apply endCall_inv.
Qed.

(** Here the ids matter: the response found under the id is to the request that has it. *)
Lemma callerRead_inv st st' : fresh_ids st -> ipc_inv st -> callerRead st = Some st' -> ipc_inv st'.
Proof.
  intros Hf Hi. unfold callerRead. pose proof (ii_caller _ Hi) as Hc. unfold caller_ok in Hc.
  destruct (caller st) as [|m priv o|m o|m o|m o r]; try done. destruct Hc as (Hl%last_sent & _ & _ & c & Hc & Hid & Hd).
  destruct (mem st !! r) as [[buf []]|]; try done. intros [= <-]. apply endCall_inv; [done|].
  intros resp E. destruct (Decode _ _ buf) as [[[resp' crc] sig]| |] eqn:Ed; [|done..]. cbn in E. injection E as ->.
  destruct (ii_served _ Hi c Hc) as (m' & Hm' & Hsame & _).
  assert (Id m = Id m') as Em by (destruct Hsame as [-> _]; congruence).
  destruct (issued_unique st o m (sSeg c) m' Hf Hl Hm' Em) as [-> ->].
  exists (sSeg c), c. split_and!; try done. exact (carries_decode _ _ _ _ _ (Hd _ eq_refl) Ed).
Qed.

(** ** The steps of the server *)

(** A step of a server that is not writing a response. *)
Lemma answerSeg_quiet st st' id r :
  ~ openSeg st r -> (nextSegment st <= nextSegment st')%nat -> issued st' = issued st ->
  (forall c, c ∈ served st -> c ∈ served st') -> mem st' !! r = mem st !! r ->
  answerSeg st id r -> answerSeg st' id r.
Proof.
  intros Ho Hn Hi Hs Hm (Hr & Hq & c & Hc & Hid & Hd). split; [lia|]. split; [unfold sentAs in *; by rewrite Hi|].
  exists c. split_and!; auto. intros s. rewrite Hm. intros E. specialize (Hd s E). destruct (segDone s); [done|by destruct Hd].
Qed.

(** The server does not touch the caller. *)
Lemma caller_frame st st' :
  caller st' = caller st -> issued st' = issued st -> (forall o m, sentAs st o m -> mem st' !! o = mem st !! o) ->
  (forall id r, answerSeg st id r -> answerSeg st' id r) -> caller_ok st -> caller_ok st'.
Proof.
  unfold caller_ok. intros -> -> Hm Ha. destruct (caller st) as [|m priv o|m o|m o|m o r]; try done.
  - intros [Hl Hs]. by rewrite (Hm o m) by (by apply last_sent).
  - intros [Hl Hs]. by rewrite (Hm o m) by (by apply last_sent).
  - intros [Hl Hs]. auto.
Qed.

(** The server goes on without touching memory, names of requests or its log. *)
Lemma set_server_inv st s names pend :
  ipc_inv st -> (forall r, ~ openSeg st r) -> (forall id r, names !! id = Some r -> respNames st !! id = Some r) ->
  let st' := set_server s (mkSystem (mem st) (nextSegment st) (reqName st) names (caller st) (server st) (lastID st) pend
    (theNode st) (issued st) (served st) (outcomes st)) in
  server_ok st' -> ipc_inv st'.
Proof.
  intros Hi Ho Hn st' Hs. assert (forall id r, answerSeg st id r -> answerSeg st' id r) as Ha.
  { intros id r. apply answerSeg_quiet; auto. }
  constructor; try apply Hi; try done.
  - apply (caller_frame st); try done. apply Hi.
  - intros id r Hr. apply Ha. by apply Hi, Hn.
Qed.

Lemma set_server_inv' st s :
  ipc_inv st -> (forall r, ~ openSeg st r) -> server_ok (set_server s st) -> ipc_inv (set_server s st).
Proof. intros Hi Ho Hs. by apply (set_server_inv st s (respNames st) (pendingResp st)). Qed.

Lemma serverOpen_inv st st' : ipc_inv st -> serverOpen st = Some st' -> ipc_inv st'.
Proof.
  intros Hi. unfold serverOpen. pose proof (ii_server _ Hi) as Hs. unfold server_ok in Hs.
  destruct (server st) eqn:Es; try done. destruct (reqName st) as [o|] eqn:Er; [|done]. intros [= <-].
  destruct (ii_name _ Hi o Er) as [m Hl].
  apply set_server_inv'; [done|intros r; unfold openSeg; rewrite Es; tauto|].
  cbn. split_and!; [done|exists m; by apply last_sent|]. intros c Hc.
  destruct (ii_served _ Hi c Hc) as (m' & Hm' & _). by apply (newest st o m (sSeg c) m').
Qed.

(** In a list that grows strictly, the entry with the greatest segment is the last. *)
Lemma served_last cs c :
  StronglySorted lt (map sSeg cs) -> c ∈ cs -> (forall c', c' ∈ cs -> (sSeg c' <= sSeg c)%nat) -> last cs = Some c.
Proof.
  induction cs as [|c0 cs IH]; [by intros _ ?%elem_of_nil|]. cbn [map]. intros [Hs Hf]%StronglySorted_inv Hc Hmax.
  destruct cs as [|c1 cs].
  - apply list_elem_of_singleton in Hc. by subst.
  - change (last (c0 :: c1 :: cs)) with (last (c1 :: cs)). apply elem_of_cons in Hc as [->|Hc].
    + exfalso. cbn [map] in Hf. apply Forall_cons in Hf as [Hlt _]. specialize (Hmax c1 ltac:(right; left)). lia.
    + apply IH; [done..|]. intros c' Hc'. apply Hmax. by right.
Qed.

Lemma serverRead_inv st st' : ipc_inv st -> serverRead st = Some st' -> ipc_inv st'.
Proof.
  intros Hi. unfold serverRead. pose proof (ii_server _ Hi) as Hs. unfold server_ok in Hs.
  destruct (server st) as [|o|o m1 crc1 sig1|resp|resp r|resp r|] eqn:Es; try done.
  destruct (mem st !! o) as [[buf []]|] eqn:Em; try done. intros [= <-]. destruct Hs as (Hl & (m & Hm) & Hmax).
  assert (forall r, ~ openSeg st r) as Ho by (intros r; unfold openSeg; rewrite Es; tauto).
  assert (ipc_inv (set_server SPolling st)) as Hpoll.
  { by apply set_server_inv'. }
  destruct (Decode _ _ buf) as [[[m' crc] sig]| |] eqn:Ed; [|done..]. case_bool_decide as Hid; [done|].
  assert (same m m') as Hsame by (eapply carries_decode; [by eapply (ii_sent _ Hi o m Hm)|exact Ed]).
  assert (server_ok (set_server (SHandling o m' crc sig) st)) as Hok.
  { split; [by exists m|]. intros c Hc. specialize (Hmax c Hc) as Hle. enough (sSeg c <> o) by lia. intros <-.
    apply Hid. rewrite Hl, (served_last (served st) c); [|apply Hi|done..]. cbn. f_equal.
    destruct (ii_served _ Hi c Hc) as (m'' & Hm'' & Hs'' & _). rewrite (segment_unique st (sSeg c) m'' m Hi) in Hs'' by done.
    destruct Hs'' as [<- _], Hsame as [<- _]. done. }
  unfold cleanupPending. destruct (pendingResp st) as [id|].
  - apply (set_server_inv st); [done..| |done]. intros i r. rewrite lookup_delete_Some. by intros [_ ?].
  - by apply set_server_inv'.
Qed.

Lemma serverHandle_inv st st' : ipc_inv st -> serverHandle handle st = Some st' -> ipc_inv st'.
Proof.
  intros Hi. unfold serverHandle. pose proof (ii_server _ Hi) as Hs. unfold server_ok in Hs.
  destruct (server st) as [|o|o m crc sig|resp|resp r|resp r|] eqn:Es; try done. intros [= <-].
  assert (forall r, ~ openSeg st r) as Ho by (intros r; unfold openSeg; rewrite Es; tauto).
  destruct Hs as ((m' & Hm' & Hsame) & Hlt).
  destruct (handle m crc sig (theNode st)) as [n [resp|e|]] eqn:Eh; [|by apply set_server_inv'..].
  set (c := mkServed o m crc sig (SetId (Id m) resp)).
  assert (forall id r, answerSeg st id r -> answerSeg (logServed c n st) id r) as Ha.
  { intros id r. apply answerSeg_quiet; auto. cbn. intros c' Hc'. apply elem_of_app. auto. }
  constructor; try apply Hi; try done.
  - apply (caller_frame st); try done. apply Hi.
  - exists c. split; [|done]. cbn. by rewrite last_snoc.
  - cbn. intros c' [Hc'| ->%list_elem_of_singleton]%elem_of_app; [by apply (ii_served _ Hi)|]. by exists m'.
  - cbn. rewrite map_app. apply StronglySorted_app. split_and!; [|apply Hi|by repeat constructor].
    intros x1 x2 (c' & -> & Hc')%list_elem_of_fmap ->%list_elem_of_singleton. by apply Hlt.
  - intros id r Hr. apply Ha. by apply (ii_names _ Hi).
  - cbn. eapply ran_snoc; [apply Hi|exact Eh|done].
  - cbn. intros m1 resp1 Hm1. destruct (ii_outcomes _ Hi m1 resp1 Hm1) as (o1 & c1 & H1 & H2 & H3). exists o1, c1.
    split_and!; [done| |naive_solver..]. apply elem_of_app. auto.
Qed.

(** A new segment, for a response. *)
Lemma serverCreate_inv st st' : ipc_inv st -> serverCreate st = Some st' -> ipc_inv st'.
Proof.
  intros Hi. unfold serverCreate. pose proof (ii_server _ Hi) as Hs. unfold server_ok in Hs.
  destruct (server st) as [|o|o m crc sig|resp|resp r|resp r|] eqn:Es; try done. cbv zeta. intros [= <-].
  match goal with |- ipc_inv ?s => set (st' := s) end.
  assert (forall r, (r < nextSegment st)%nat -> mem st' !! r = mem st !! r) as Hm by (intros r Hr; apply lookup_insert_ne; lia).
  assert (forall r, ~ openSeg st r) as Ho by (intros r; unfold openSeg; rewrite Es; tauto).
  assert (forall id r, answerSeg st id r -> answerSeg st' id r) as Ha.
  { intros id r Ha. pose proof Ha as [Hr _]. revert Ha. apply answerSeg_quiet; auto. cbn. lia. }
  assert (mem st' !! nextSegment st = Some (mkSegment [] false)) as Hnew by apply lookup_insert_eq.
  assert (answerSeg st' (Id resp) (nextSegment st)) as Hans.
  { split; [cbn; lia|]. split; [intros m Hsent; destruct (ii_sent _ Hi _ _ Hsent); lia|].
    destruct Hs as (c & Hl & <-). exists c. pose proof (last_Some_elem_of _ _ Hl) as Hc.
    destruct (ii_served _ Hi c Hc) as (_ & _ & _ & ->). split_and!; [done..|]. rewrite Hnew. by intros s [= <-]. }
  constructor; try apply Hi; try done.
  - intros o m Hsent. destruct (ii_sent _ Hi o m Hsent) as [Hlt Hc]. split; [cbn; lia|]. by rewrite Hm.
  - apply (caller_frame st); try done; [|apply Hi]. intros o m Hsent. apply Hm. by apply (ii_sent _ Hi o m).
  - intros id r. cbn. rewrite lookup_insert. case_decide as Hid; [intros [= <-]; by rewrite <- Hid|].
    intros Hr. apply Ha. by apply (ii_names _ Hi).
Qed.

(** The server works on the response segment. *)
Lemma response_inv st st' resp r f :
  ipc_inv st -> (server st = SCreated resp r \/ server st = SWritten resp r) ->
  st' = mkSystem (alter f r (mem st)) (nextSegment st) (reqName st) (respNames st) (caller st) (server st') (lastID st')
    (pendingResp st') (theNode st) (issued st) (served st) (outcomes st) ->
  (forall s, mem st !! r = Some s -> if segDone (f s) then carries resp (segData (f s)) else openSeg st' r) ->
  (responding st resp -> answerSeg st' (Id resp) r -> server_ok st') -> ipc_inv st'.
Proof.
  intros Hi Hsv E Hf Hok.
  assert (responding st resp /\ answerSeg st (Id resp) r /\ exists buf, mem st !! r = Some (mkSegment buf false)) as (Hresp & Hans & buf0 & Hm0).
  { pose proof (ii_server _ Hi) as Hs. unfold server_ok in Hs. destruct Hsv as [Es|Es]; rewrite Es in Hs; naive_solver. }
  assert (forall o m, sentAs st o m -> mem st' !! o = mem st !! o) as Hm.
  { intros o m Ho. rewrite E. cbn. apply lookup_alter_ne. intros <-. destruct Hans as (_ & Hq & _). by apply (Hq m). }
  assert (forall id r', answerSeg st id r' -> answerSeg st' id r') as Ha.
  { intros id r' (Hr & Hq & c & Hc & Hid & Hd). unfold answerSeg, sentAs in *. rewrite E. cbn [nextSegment issued served mem].
    split_and!; [done..|]. exists c. split_and!; [done..|]. intros s.
    destruct (decide (r' = r)) as [->|Hne].
    - specialize (Hd _ Hm0) as [Hlast _]. rewrite lookup_alter_eq, Hm0. intros [= <-]. specialize (Hf _ Hm0).
      destruct Hresp as (c' & Hl' & <-). rewrite Hl' in Hlast. injection Hlast as ->.
      destruct (segDone (f (mkSegment buf0 false))); [done|]. rewrite <- E. done.
    - rewrite lookup_alter_ne by done. intros Es. specialize (Hd _ Es). destruct (segDone s); [done|]. exfalso.
      destruct Hd as [_ Ho]. unfold openSeg in Ho. destruct Hsv as [Ev|Ev]; rewrite Ev in Ho; congruence. }
  constructor.
  - intros o m Ho. assert (sentAs st o m) as Ho' by (by rewrite E in Ho). rewrite (Hm o m) by done. rewrite E. by apply (ii_sent _ Hi).
  - rewrite E. apply Hi.
  - rewrite E. apply Hi.
  - apply (caller_frame st); [by rewrite E..|done|done|apply Hi].
  - auto.
  - unfold sentAs. rewrite E. apply Hi.
  - rewrite E. apply Hi.
  - intros id r' Hr. apply Ha. apply (ii_names _ Hi). by rewrite E in Hr.
  - rewrite E. apply Hi.
  - unfold sentAs. rewrite E. apply Hi.
Qed.

Lemma serverWrite_inv st st' : ipc_inv st -> serverWrite st = Some st' -> ipc_inv st'.
Proof.
  intros Hi. unfold serverWrite. pose proof (ii_server _ Hi) as Hs. unfold server_ok in Hs.
  destruct (server st) as [|o|o m crc sig|resp|resp r|resp r|] eqn:Es; try done. intros [= <-].
  destruct Hs as (Hresp & Hans & Hm).
  assert (forall names, (forall id r', names !! id = Some r' -> respNames st !! id = Some r') ->
    ipc_inv (mkSystem (mem st) (nextSegment st) (reqName st) names (caller st) SStopped (lastID st) (pendingResp st) (theNode st)
      (issued st) (served st) (outcomes st))) as Hstop.
  { intros names Hn. assert (forall id r', answerSeg st id r' -> answerSeg (mkSystem (mem st) (nextSegment st) (reqName st) names (caller st)
      SStopped (lastID st) (pendingResp st) (theNode st) (issued st) (served st) (outcomes st)) id r') as Ha.
    { intros id r' (Hr & Hq & c & Hc & Hid & Hd). split_and!; try done. exists c. split_and!; try done. intros s Es'.
      specialize (Hd s Es'). destruct (segDone s); [done|]. naive_solver. }
    constructor; try apply Hi; try done.
    - apply (caller_frame st); try done. apply Hi.
    - intros id r' Hr. apply Ha, (ii_names _ Hi). by apply Hn. }
  destruct (Encode _ _ _ resp _) as [buf| |] eqn:Ee;
    [|apply Hstop; intros id r'; rewrite lookup_delete_Some; by intros [_ ?]..].
  apply (response_inv st _ resp r (fun _ => mkSegment buf false)); [done|auto|done|done|].
  intros _ Ha. split_and!; [done|done|]. exists buf. split; [cbn; by rewrite lookup_alter_eq, Hm|]. by eapply encode_carries.
Qed.

Lemma serverFinish_inv st st' : ipc_inv st -> serverFinish st = Some st' -> ipc_inv st'.
Proof.
  intros Hi. unfold serverFinish. pose proof (ii_server _ Hi) as Hs. unfold server_ok in Hs.
  destruct (server st) as [|o|o m crc sig|resp|resp r|resp r|] eqn:Es; try done. cbv zeta. intros [= <-].
  destruct Hs as (Hresp & Hans & buf & Hm & Hb).
  apply (response_inv st _ resp r (fun s => mkSegment (segData s) true)); [done|auto|done| |].
  - intros s Es'. rewrite Hm in Es'. by injection Es' as <-.
  - intros (c & Hl & <-) _. unfold server_ok. cbn. rewrite Hl. cbn. f_equal.
    destruct (ii_served _ Hi c (last_Some_elem_of _ _ Hl)) as (_ & _ & _ & ->). done.
Qed.

(** ** Runs *)

Lemma ipcStep_inv t st st' : fresh_ids st -> ipc_inv st -> ipcStep handle t st = Some st' -> ipc_inv st'.
Proof.
  intros Hf Hi. destruct t; cbn [ipcStep].
  - destruct (caller st); try done. intros [= <-]. by apply begin_inv.
  - destruct (caller st); try done. intros [= <-]. by apply beginRaw_inv.
  - by apply callerWrite_inv.
  - by apply callerFinish_inv.
  - by apply callerOpen_inv.
  - by apply callerRead_inv.
  - by apply callerGiveUp_inv.
  - by apply serverOpen_inv.
  - by apply serverRead_inv.
  - by apply serverHandle_inv.
  - by apply serverCreate_inv.
  - by apply serverWrite_inv.
  - by apply serverFinish_inv.
Qed.

(** The calls begun are never forgotten. *)
Lemma ipcStep_issued t st st' : ipcStep handle t st = Some st' -> issued st `prefix_of` issued st'.
Proof.
  destruct t; cbn [ipcStep]; unfold beginRaw, callerWrite, callerFinish, callerOpen, callerRead, callerGiveUp, serverOpen, serverRead, serverHandle,
    serverCreate, serverWrite, serverFinish, cleanupPending; intros E; repeat case_match; simplify_eq/=; try done; by eexists.
Qed.

Lemma ipcRun_issued ts st st' : ipcRun handle ts st = Some st' -> issued st `prefix_of` issued st'.
Proof.
  revert st. induction ts as [|t ts IH]; intros st; cbn [ipcRun]; [by intros [= <-]|].
  intros (st1 & E1 & E2)%bind_Some. etrans; [by eapply ipcStep_issued|by apply IH].
Qed.

Lemma fresh_prefix st st' : issued st `prefix_of` issued st' -> fresh_ids st' -> fresh_ids st.
Proof. unfold fresh_ids. intros [l ->]. rewrite map_app. by intros [? _]%NoDup_app. Qed.

Lemma ipcRun_inv ts st st' : ipcRun handle ts st = Some st' -> fresh_ids st' -> ipc_inv st -> ipc_inv st'.
Proof.
  revert st. induction ts as [|t ts IH]; intros st; cbn [ipcRun]; [by intros [= <-]|].
  intros (st1 & E1 & E2)%bind_Some Hf Hi. apply (IH st1); [done..|]. eapply ipcStep_inv; [|done..].
  eapply fresh_prefix; [|exact Hf]. etrans; [by eapply ipcStep_issued|by eapply ipcRun_issued].
Qed.
End Invariant.

(** * One call after the other *)

(** The handled requests, in order, among the calls, in order. *)
Lemma sorted_embeds (xs : list servedCall) (ys : list (nat * Msg)) :
  StronglySorted lt (map sSeg xs) -> StronglySorted lt ys.*1 ->
  (forall c, c ∈ xs -> exists m, (sSeg c, m) ∈ ys /\ same m (sReq c)) ->
  exists k, k `sublist_of` ys /\ Forall2 (fun c p => same p.2 (sReq c)) xs k.
Proof.
  revert xs. induction ys as [|[o m] ys IH]; intros xs Hx Hy Hin.
  { destruct xs as [|c xs]; [by exists []|]. destruct (Hin c ltac:(left)) as (m & Hm%elem_of_nil & _). done. }
  destruct xs as [|c xs]; [exists []; split; [apply sublist_nil_l|constructor]|].
  cbn in Hx, Hy. apply StronglySorted_inv in Hx as [Hx Hxf], Hy as [Hy Hyf]. rewrite Forall_forall in Hxf, Hyf.
  assert (forall o' m', (o', m') ∈ ys -> (o < o')%nat) as Hgt by (intros o' m' Ho; apply Hyf; by apply (list_elem_of_fmap_2 fst ys (o', m'))).
  assert (forall c', c' ∈ xs -> (sSeg c < sSeg c')%nat) as Hgc by (intros c' Hc'; apply Hxf; by apply list_elem_of_fmap_2).
  destruct (Hin c ltac:(left)) as (mc & [E|Hc]%elem_of_cons & Hsame).
  - injection E as <- ->. destruct (IH xs) as (k & Hk & Hf); [done..| |].
    { intros c' Hc'. destruct (Hin c' ltac:(by right)) as (m' & [E'|Hm']%elem_of_cons & ?); [|by exists m'].
      injection E' as E' ->. specialize (Hgc c' Hc'). lia. }
    exists ((sSeg c, m) :: k). split; [by constructor|]. by constructor.
  - destruct (IH (c :: xs)) as (k & Hk & Hf); [by apply SSorted_cons; [|apply Forall_forall]|done| |].
    { intros c' Hc'. destruct (Hin c' Hc') as (m' & [E'|Hm']%elem_of_cons & ?); [|by exists m']. exfalso.
      injection E' as E' ->. specialize (Hgt _ _ Hc). apply elem_of_cons in Hc' as [->|Hc']; [lia|]. specialize (Hgc c' Hc'). lia. }
    exists k. split; [by constructor|done].
Qed.

Lemma embedded_ids xs k : Forall2 (fun c p => same p.2 (sReq c)) xs k -> map (fun c => Id (sReq c)) xs = map (fun p : nat * Msg => Id p.2) k.
Proof. induction 1 as [|c p xs k [Hid _] _ IH]; [done|]. cbn. by rewrite IH, Hid. Qed.

(** * A call that nothing disturbs *)

Section Undisturbed.
Context `{Env} `{!WireCodec} (handle : Handler).

(** Between calls. *)
Definition idle (st : system) : Prop := caller st = CIdle /\ server st = SPolling.

(** The last request had that id, and its response is still there. *)
Definition leftOver (st : system) (id : Z) (buf : bytes) : Prop :=
  lastID st = Some id /\ exists r, respNames st !! id = Some r /\ mem st !! r = Some (mkSegment buf true) /\ (r < nextSegment st)%nat.

#[local] Arguments Decode : simpl never.
#[local] Arguments Encode : simpl never.
#[local] Arguments SetId : simpl never.

(** One turn at a time: what each turn of an undisturbed call needs and does. *)
Lemma run_cons t ts st st1 st2 : ipcStep handle t st = Some st1 -> ipcRun handle ts st1 = Some st2 -> ipcRun handle (t :: ts) st = Some st2.
Proof. intros E Hr. cbn [ipcRun]. by rewrite E. Qed.

Lemma run_app ts1 ts2 st st1 : ipcRun handle ts1 st = Some st1 -> ipcRun handle (ts1 ++ ts2) st = ipcRun handle ts2 st1.
Proof.
  revert st. induction ts1 as [|t ts1 IH]; intros st; cbn [ipcRun app]; [by intros [= <-]|].
  destruct (ipcStep handle t st) as [s|]; cbn; [apply IH|done].
Qed.

Lemma turn_begin m priv st : caller st = CIdle -> ipcStep handle (BeginCall m priv) st = Some (beginCall m (Signed priv) st).
Proof. intros E. cbn. by rewrite E. Qed.

Lemma turn_write m priv o buf st :
  caller st = CCreated m (Signed priv) o -> Encode Canonicalize ed25519_sign Marshal m priv = Ret buf ->
  ipcStep handle CallerWrite st = Some (set_caller (CWritten m o) (fill o buf st)).
Proof. intros E He. cbn [ipcStep]. unfold callerWrite. rewrite E. cbn [requestBytes]. by rewrite He. Qed.

Lemma turn_finish m o st : caller st = CWritten m o -> ipcStep handle CallerFinish st = Some (set_caller (CWaiting m o) (finish o st)).
Proof. intros E. cbn [ipcStep]. unfold callerFinish. by rewrite E. Qed.

Lemma turn_serverOpen o st : server st = SPolling -> reqName st = Some o -> ipcStep handle ServerOpen st = Some (set_server (SReading o) st).
Proof. intros E Eo. cbn [ipcStep]. unfold serverOpen. by rewrite E, Eo. Qed.

Lemma turn_serverRead o buf m crc sig st :
  server st = SReading o -> mem st !! o = Some (mkSegment buf true) -> Decode Canonicalize Unmarshal buf = Ret (m, crc, sig) ->
  lastID st <> Some (Id m) ->
  ipcStep handle ServerRead st = Some (set_server (SHandling o m crc sig) (cleanupPending st)).
Proof. intros E Eo Ed Hl. cbn [ipcStep]. unfold serverRead. rewrite E, Eo, Ed. by rewrite bool_decide_false by done. Qed.

Lemma turn_handle o m crc sig n' resp st :
  server st = SHandling o m crc sig -> handle m crc sig (theNode st) = (n', Ret resp) ->
  ipcStep handle ServerHandle st = Some (logServed (mkServed o m crc sig (SetId (Id m) resp)) n' st).
Proof. intros E Eh. cbn [ipcStep]. unfold serverHandle. by rewrite E, Eh. Qed.

Lemma turn_serverWrite resp r buf st :
  server st = SCreated resp r -> Encode Canonicalize ed25519_sign Marshal resp (Some ed25519Priv) = Ret buf ->
  ipcStep handle ServerWrite st = Some (set_server (SWritten resp r) (fill r buf st)).
Proof. intros E He. cbn [ipcStep]. unfold serverWrite. by rewrite E, He. Qed.

Lemma turn_open m o r st :
  caller st = CWaiting m o -> respNames st !! Id m = Some r -> ipcStep handle CallerOpen st = Some (set_caller (CReading m o r) st).
Proof. intros E Er. cbn [ipcStep]. unfold callerOpen. by rewrite E, Er. Qed.

Lemma turn_read m o r buf resp crc sig st :
  caller st = CReading m o r -> mem st !! r = Some (mkSegment buf true) -> Decode Canonicalize Unmarshal buf = Ret (resp, crc, sig) ->
  ipcStep handle CallerRead st = Some (endCall m (Ret resp) st).
Proof. intros E Er Ed. cbn [ipcStep]. unfold callerRead. by rewrite E, Er, Ed. Qed.

(** The first half of a call: the request is written and the node has read it. *)
Lemma request_run m priv st buf m' crc sig :
  idle st -> lastID st <> Some (Id m) -> Encode Canonicalize ed25519_sign Marshal m priv = Ret buf ->
  Decode Canonicalize Unmarshal buf = Ret (m', crc, sig) -> Id m' = Id m ->
  exists st1, ipcRun handle [BeginCall m priv; CallerWrite; CallerFinish; ServerOpen; ServerRead] st = Some st1 /\
    caller st1 = CWaiting m (nextSegment st) /\ server st1 = SHandling (nextSegment st) m' crc sig /\ theNode st1 = theNode st /\
    served st1 = served st /\ outcomes st1 = outcomes st.
Proof.
  intros [Hc Hs] Hl He Ed Hid. eexists. split.
  - eapply run_cons; [by apply turn_begin|]. eapply run_cons; [by eapply turn_write|]. eapply run_cons; [by eapply turn_finish|].
    eapply run_cons; [by eapply turn_serverOpen|]. eapply run_cons; [|reflexivity].
    eapply turn_serverRead; [done| |done|cbn; congruence]. cbn. by rewrite !lookup_alter_eq, lookup_insert_eq.
  - unfold cleanupPending. cbn. by destruct (pendingResp st).
Qed.

(** The second half: handling, answering and reading the answer. *)
Lemma response_run m o m' crc sig st n' resp rbuf resp' crc' sig' :
  caller st = CWaiting m o -> server st = SHandling o m' crc sig -> Id m' = Id m ->
  handle m' crc sig (theNode st) = (n', Ret resp) ->
  Encode Canonicalize ed25519_sign Marshal (SetId (Id m) resp) (Some ed25519Priv) = Ret rbuf ->
  Decode Canonicalize Unmarshal rbuf = Ret (resp', crc', sig') ->
  exists st', ipcRun handle [ServerHandle; ServerCreate; ServerWrite; ServerFinish; CallerOpen; CallerRead] st = Some st' /\
    idle st' /\ leftOver st' (Id m) rbuf /\ theNode st' = n' /\
    served st' = served st ++ [mkServed o m' crc sig (SetId (Id m) resp)] /\ outcomes st' = outcomes st ++ [(m, Ret resp')].
Proof.
  intros Hc Hs Hid Hh He Ed. rewrite <- Hid in *. eexists. split.
  - eapply run_cons; [by eapply turn_handle|]. eapply run_cons; [reflexivity|]. eapply run_cons; [by eapply turn_serverWrite|].
    eapply run_cons; [reflexivity|]. eapply run_cons.
    { eapply turn_open; [exact Hc|]. cbn. rewrite <- Hid. apply lookup_insert_eq. }
    eapply run_cons; [|reflexivity]. eapply turn_read; [done| |exact Ed]. cbn. by rewrite !lookup_alter_eq, lookup_insert_eq.
  - split; [done|]. split; [|done]. split; [done|]. exists (nextSegment st). cbn. rewrite lookup_insert_eq, !lookup_alter_eq, lookup_insert_eq.
    cbn. split_and!; [done..|lia].
Qed.

Lemma undisturbed_run m priv st buf n' resp rbuf :
  idle st -> lastID st <> Some (Id m) ->
  Encode Canonicalize ed25519_sign Marshal m priv = Ret buf ->
  (forall m' crc sig, Decode Canonicalize Unmarshal buf = Ret (m', crc, sig) ->
     handle m' crc sig (theNode st) = (n', Ret resp)) ->
  Encode Canonicalize ed25519_sign Marshal (SetId (Id m) resp) (Some ed25519Priv) = Ret rbuf ->
  exists st' c resp', ipcRun handle (undisturbed m priv) st = Some st' /\ idle st' /\ leftOver st' (Id m) rbuf /\ theNode st' = n' /\
    served st' = served st ++ [c] /\ outcomes st' = outcomes st ++ [(m, Ret resp')] /\
    (exists crc sig, Decode Canonicalize Unmarshal rbuf = Ret (resp', crc, sig)) /\ same (SetId (Id m) resp) resp' /\ same m (sReq c).
Proof.
  intros Hi Hl He Hh Her. destruct (encode_carries _ _ _ He) as (m' & crc & sig & Ed & Hid & Hb). specialize (Hh _ _ _ Ed).
  destruct (encode_carries _ _ _ Her) as (resp' & crc' & sig' & Ed' & Hsame).
  destruct (request_run m priv st buf m' crc sig) as (st1 & Hr1 & Hc & Hs & Hn & Hse & Ho); [done..|].
  rewrite <- Hn in Hh. destruct (response_run m (nextSegment st) m' crc sig st1 n' resp rbuf resp' crc' sig') as (st' & Hr2 & Hi' & Hlo & Hn' & Hse' & Ho'); [done..|].
  exists st'. eexists _, resp'. rewrite Ho', Hse', Hse, Ho. split; [|split; [done|split; [done|split; [done|split; [done|split; [done|split; [by eauto|split; [done|by split]]]]]]]].
  change (undisturbed m priv) with ([BeginCall m priv; CallerWrite; CallerFinish; ServerOpen; ServerRead]
    ++ [ServerHandle; ServerCreate; ServerWrite; ServerFinish; CallerOpen; CallerRead]). by rewrite (run_app _ _ _ _ Hr1).
Qed.
End Undisturbed.

(** * Theorems *)

(** C13 Calls are atomic: however the steps of a caller and of the node's loop
    interleave, calls that are given up included, if no two calls use the same
    id then every response a call returns is the node's response to that very
    request; the node handles each request at most once, in the order the calls
    were begun, and its state is what handling exactly these requests makes of
    it. *)
Theorem ipc_calls_atomic `{Env} (HW : WireCodec) (handle : Handler) (n : node) (ts : list turn) (st : system) :
  ipcRun handle ts (start n) = Some st -> NoDup (map (fun c => Id c.2) (issued st)) ->
  (forall m resp, (m, Ret resp) ∈ outcomes st ->
     exists c, c ∈ served st /\ same m (sReq c) /\ same (sResp c) resp) /\
  map (fun c => Id (sReq c)) (served st) `sublist_of` map (fun c => Id c.2) (issued st) /\
  NoDup (map (fun c => Id (sReq c)) (served st)) /\
  ran handle n (served st) (theNode st).
Proof.
  intros Hr Hf. pose proof (ipcRun_inv handle n ts _ _ Hr Hf (start_inv handle n)) as Hi.
  assert (map (fun c => Id (sReq c)) (served st) `sublist_of` map (fun c => Id c.2) (issued st)) as Hsub.
  { destruct (sorted_embeds (served st) (issued st)) as (k & Hk & Hf2); [apply Hi..| |].
    - intros c Hc. destruct (ii_served _ _ _ Hi c Hc) as (m & Hm & Hs & _). by exists m.
    - rewrite (embedded_ids _ _ Hf2). by apply fmap_sublist. }
  split_and!; [|done|by eapply sublist_NoDup|apply Hi].
  intros m resp Ho. destruct (ii_outcomes _ _ _ Hi m resp Ho) as (o & c & _ & Hc & _ & Hs1 & Hs2). by exists c.
Qed.

(** A call gets through: when a node that is waiting for requests is called with an
    id that is not that of its last request, and the handler returns, then the
    steps of the call are all possible, the request is handled exactly once, and
    the call returns the handler's response; both sides are idle again. *)
Theorem ipc_call_completes `{Env} (HW : WireCodec) (handle : Handler) (m : Msg) (priv : option bytes) (st : system) (buf : bytes) (n' : node)
    (resp : Msg) (rbuf : bytes) :
  idle st -> lastID st <> Some (Id m) ->
  Encode Canonicalize ed25519_sign Marshal m priv = Ret buf ->
  (forall m' crc sig, Decode Canonicalize Unmarshal buf = Ret (m', crc, sig) ->
     handle m' crc sig (theNode st) = (n', Ret resp)) ->
  Encode Canonicalize ed25519_sign Marshal (SetId (Id m) resp) (Some ed25519Priv) = Ret rbuf ->
  exists st' c resp', ipcRun handle (undisturbed m priv) st = Some st' /\ idle st' /\ theNode st' = n' /\
    served st' = served st ++ [c] /\ same m (sReq c) /\
    outcomes st' = outcomes st ++ [(m, Ret resp')] /\ Body resp' = Body resp.
Proof.
  intros Hi Hl He Hh Her. destruct (undisturbed_run handle m priv st buf n' resp rbuf Hi Hl He Hh Her)
    as (st' & c & resp' & Hr & Hi' & _ & Hn & Hs & Ho & _ & [_ Hb] & Hm).
  exists st', c, resp'. by split_and!.
Qed.

(** An id used twice loses a request: when a call has the same id as the one before
    it, there is a run in which it returns at once, with the earlier call's
    response, although its own request was never handled -- a write that is
    reported as done and never happened. *)
Theorem ipc_id_reuse_loses_request `{Env} (HW : WireCodec) (handle : Handler) (m1 m2 : Msg) (priv : option bytes) (st : system)
    (buf1 buf2 : bytes) (n' : node) (resp : Msg) (rbuf : bytes) :
  idle st -> lastID st <> Some (Id m1) -> Id m2 = Id m1 ->
  Encode Canonicalize ed25519_sign Marshal m1 priv = Ret buf1 -> Encode Canonicalize ed25519_sign Marshal m2 priv = Ret buf2 ->
  (forall m' crc sig, Decode Canonicalize Unmarshal buf1 = Ret (m', crc, sig) ->
     handle m' crc sig (theNode st) = (n', Ret resp)) ->
  Encode Canonicalize ed25519_sign Marshal (SetId (Id m1) resp) (Some ed25519Priv) = Ret rbuf ->
  exists st' c resp',
    ipcRun handle (undisturbed m1 priv ++ [BeginCall m2 priv; CallerWrite; CallerFinish; CallerOpen; CallerRead]) st = Some st' /\
    served st' = served st ++ [c] /\ same m1 (sReq c) /\ theNode st' = n' /\
    outcomes st' = outcomes st ++ [(m1, Ret resp'); (m2, Ret resp')].
Proof.
  intros Hi Hl Hid He1 He2 Hh Her. destruct (undisturbed_run handle m1 priv st buf1 n' resp rbuf Hi Hl He1 Hh Her)
    as (st1 & c & resp' & Hr & [Hc Hsv] & (Hli & r & Hnm & Hm & Hlt) & Hn & Hs & Ho & (crc & sig & Ed) & _ & Hm1).
  eexists _, c, resp'. rewrite (run_app handle _ _ _ _ Hr). split.
  - eapply run_cons; [by apply turn_begin|]. eapply run_cons; [by eapply turn_write|]. eapply run_cons; [by eapply turn_finish|].
    eapply run_cons; [eapply turn_open; [done|]; cbn; by rewrite Hid|]. eapply run_cons; [|reflexivity].
    eapply turn_read; [done| |exact Ed]. cbn. by rewrite !lookup_alter_ne, lookup_insert_ne by lia.
  - split_and!; [done..|]. cbn. by rewrite Ho, <- app_assoc.
Qed.
