(* ===== verification/IpcNode.v ===== *)
(** The node behind its local transport: what an operator's process that calls the
    node over shared memory can rely on. *)

From S2P Require Import Prelude Store StoreLogic SystemKeys Payloads LogRecord Txn Fsm FsmSpec FsmProps FsmInvariants FsmOps Events Stream Quota Session Node Acl Forward Dial Join Execute Remote Channel Handler HandlerProps ForwardProps ReadProps Ipc IpcProps.
#[local] Open Scope Z_scope.

(** The handler [Run] passes to [Serve]: every request is the operator's. *)
Definition localHandler `{Env} : Handler := fun m crc sig => handleShmEvent m crc sig localCaller.

(** The signature library's contract, and that the node's public key belongs to its
    private key. *)
Class NodeKeys `{Env} (public_half : bytes -> bytes) : Prop := {
  nk_size priv msg : blen (ed25519_sign priv msg) = SignatureSize;
  nk_verifies priv msg : ed25519_verify (public_half priv) msg (ed25519_sign priv msg) = true;
  nk_pub : public_half ed25519Priv = ed25519Pub;
  nk_pub_size : blen ed25519Pub = PublicKeySize;
}.

Section Operator.
Context `{Env} `{!WireCodec} (public_half : bytes -> bytes) `{!NodeKeys public_half}.

(** Encoding looks at the id and the content; the signature field only has to be readable. *)
Lemma encode_same m m' priv sig sig' :
  same m m' -> Signature m = Ok sig -> Signature m' = Ok sig' ->
  Encode Canonicalize ed25519_sign Marshal m priv = Encode Canonicalize ed25519_sign Marshal m' priv.
Proof.
  destruct m as [i c s b], m' as [i' c' s' b']. intros [Hi Hb]. cbn in Hi, Hb. subst i' b'. cbn [Signature]. intros -> ->.
  unfold Encode, Sign, crc32Of, signedPayload, marshalWithCrcAndEmptySig. cbn [Id Crc32 Signature Body rd].
  unfold RequiresSignature, Which. reflexivity.
Qed.

Lemma encode_readable m priv buf : Encode Canonicalize ed25519_sign Marshal m priv = Ret buf -> exists sig, Signature m = Ok sig.
Proof. unfold Encode, crc32Of, marshalWithCrcAndEmptySig. destruct (Signature m) as [sig|]; [by exists sig|done]. Qed.

(** What the node decodes from a request signed with its key verifies. *)
Lemma decoded_verifies m buf :
  Encode Canonicalize ed25519_sign Marshal m (Some ed25519Priv) = Ret buf ->
  exists m' crc sig, Decode Canonicalize Unmarshal buf = Ret (m', crc, sig) /\ same m m' /\ Signature m' = Ok sig /\
    Verify Canonicalize ed25519_verify ed25519Pub m' crc sig = Ret tt.
Proof.
  intros E. destruct (envelope_roundtrip Canonicalize ed25519_sign ed25519_verify public_half Marshal Unmarshal nk_size nk_verifies
    unmarshal_marshal m ed25519Priv buf) as (m' & crc & sig & Ed & Hi & Hb & Hv); [by rewrite nk_pub, nk_pub_size|done|].
  rewrite nk_pub in Hv. exists m', crc, sig. split; [done|]. split; [by split|]. split; [|done].
  unfold Decode in Ed. destruct (Unmarshal buf) as [root| |]; [|done..]. cbn in Ed.
  destruct (Signature root) as [s|] eqn:Es; [|done]. cbn in Ed.
  destruct (crc32Of _ root) as [c| |]; [cbn in Ed|done..]. destruct (negb _); [done|]. by injection Ed as <- _ <-.
Qed.

(** One call of the operator, up to the node's answer. *)
Lemma operator_call m buf n' resp rbuf st :
  idle st -> lastID st <> Some (Id m) -> Encode Canonicalize ed25519_sign Marshal m (Some ed25519Priv) = Ret buf ->
  (forall m' crc sig, same m m' -> Verify Canonicalize ed25519_verify ed25519Pub m' crc sig = Ret tt ->
     exists sig' resp', localHandler m' crc sig (theNode st) = (n' m' crc sig, Ret resp') /\ same resp resp' /\
       (Signature m' = Ok sig -> Signature resp' = Ok sig')) ->
  Signature resp = Ok [] -> Id resp = Id m ->
  Encode Canonicalize ed25519_sign Marshal resp (Some ed25519Priv) = Ret rbuf ->
  exists st' c m' crc sig resp', ipcRun localHandler (undisturbed m (Some ed25519Priv)) st = Some st' /\ idle st' /\
    lastID st' = Some (Id m) /\ same m m' /\ Verify Canonicalize ed25519_verify ed25519Pub m' crc sig = Ret tt /\
    theNode st' = n' m' crc sig /\ served st' = served st ++ [c] /\ outcomes st' = outcomes st ++ [(m, Ret resp')] /\ same resp resp'.
Proof.
  intros Hi Hl He Hh Hsig Hid Her. destruct (decoded_verifies m buf He) as (m' & crc & sig & Ed & Hm & Hs & Hv).
  destruct (Hh m' crc sig Hm Hv) as (sig' & r0 & Eh & Hr0 & Hs0). specialize (Hs0 Hs).
  destruct (undisturbed_run localHandler m (Some ed25519Priv) st buf (n' m' crc sig) r0 rbuf) as (st' & c & r1 & Hr & Hi' & [Hli _] & Hn & Hse & Ho & _ & Hr1 & _);
    [done|done|done| | |].
  - intros m1 c1 s1 E. rewrite Ed in E. injection E as <- <- <-. exact Eh.
  - rewrite <- Her. symmetry. eapply encode_same; [|exact Hsig|exact Hs0]. destruct Hr0. by split.
  - exists st', c, m', crc, sig, r1. split; [done|]. split; [done|]. split; [done|]. split; [done|]. split_and!; try done.
    etrans; [|exact Hr1]. destruct Hr0. by split.
Qed.

(** A set and a get of the operator, as the node handles them. *)
Lemma set_then_get m1 m2 m1' m2' key value old crc1 crc2 sig1 sig2 n ts index rest :
  leads (nraft n) = true -> healthy (nstore n) -> pending (nstore n) = None -> napplies n = Committed [] ts index :: rest ->
  Body m1 = E_set (Ok key) (Ok value) -> Body m2 = E_getFieldByKey (Ok key) old -> unreserved key -> blen key + 4 + blen value < 2 ^ 32 ->
  same m1 m1' -> same m2 m2' ->
  Verify Canonicalize ed25519_verify ed25519Pub m1' crc1 sig1 = Ret tt -> Verify Canonicalize ed25519_verify ed25519Pub m2' crc2 sig2 = Ret tt ->
  exists n1 n2, localHandler m1' crc1 sig1 n = (n1, Ret m1') /\
    localHandler m2' crc2 sig2 n1 = (n2, Ret (SetBody (E_getFieldByKey (Ok key) (Ok value)) m2')) /\
    committed (nstore n2) = <[key := value]> (committed (nstore n)).
Proof.
  intros Hlead Hh Hp Ha HB1 HB2 Hk Hsize [_ Hb1] [_ Hb2] Hv1 Hv2. rewrite HB1 in Hb1. rewrite HB2 in Hb2.
  pose proof (leader_write_then_read m1' m2' crc1 crc2 sig1 sig2 key value old localCaller n ts index rest eq_refl Hlead Hh Hp Ha Hv1 Hv2
    (eq_sym Hb1) (eq_sym Hb2) Hk Hsize) as Hw. unfold localHandler.
  destruct (handleShmEvent m1' crc1 sig1 localCaller n) as [n1 r1]. destruct Hw as (-> & Hc & Hg). exists n1.
  exists (handleShmEvent m2' crc2 sig2 localCaller n1).1. rewrite <- Hg, <- Hc, <- surjective_pairing. split; [done|]. split; [done|].
  rewrite local_request by done. unfold dispatch. rewrite <- Hb2.
  pose proof (get_keeps m2' key n1) as Hk'. by destruct (onGetFieldByKey m2' (Ok key) n1) as [n2 []].
Qed.
End Operator.

(** C14 Read your writes, end to end: an operator's process that sets a key outside the
    reserved spaces through the shared-memory transport, and then gets it with
    another id, from a leader that commits the entry, has both calls return: the
    first with the set it sent, the second with the value it wrote, which is
    what the node's table then holds; the node has handled exactly these two. *)
Theorem operator_write_then_read `{Env} (public_half : bytes -> bytes) (HW : WireCodec) (HK : NodeKeys public_half)
    (m1 m2 : Msg) (key value buf1 buf2 rbuf : bytes) (old : field) (st : system) (ts index : Z) (rest : list apply_reply) :
  idle st -> lastID st <> Some (Id m1) -> Id m1 <> Id m2 ->
  let n := theNode st in
  leads (nraft n) = true -> healthy (nstore n) -> pending (nstore n) = None -> napplies n = Committed [] ts index :: rest ->
  Body m1 = E_set (Ok key) (Ok value) -> Body m2 = E_getFieldByKey (Ok key) old -> unreserved key -> blen key + 4 + blen value < 2 ^ 32 ->
  Encode Canonicalize ed25519_sign Marshal m1 (Some ed25519Priv) = Ret buf1 ->
  Encode Canonicalize ed25519_sign Marshal m2 (Some ed25519Priv) = Ret buf2 ->
  Encode Canonicalize ed25519_sign Marshal (mkMsg (Id m2) 0 (Ok []) (E_getFieldByKey (Ok key) (Ok value))) (Some ed25519Priv) = Ret rbuf ->
  exists st' c1 c2 r1 r2,
    ipcRun localHandler (undisturbed m1 (Some ed25519Priv) ++ undisturbed m2 (Some ed25519Priv)) st = Some st' /\ idle st' /\
    served st' = served st ++ [c1; c2] /\ outcomes st' = outcomes st ++ [(m1, Ret r1); (m2, Ret r2)] /\
    Body r1 = E_set (Ok key) (Ok value) /\ Body r2 = E_getFieldByKey (Ok key) (Ok value) /\
    committed (nstore (theNode st')) = <[key := value]> (committed (nstore n)).
Proof.
  intros Hi Hl Hid n Hlead Hh Hp Ha HB1 HB2 Hk Hsize He1 He2 Her.
  subst n. pose proof (fun m1' crc1 sig1 m2' crc2 sig2 => set_then_get m1 m2 m1' m2' key value old crc1 crc2 sig1 sig2 (theNode st) ts index rest
    Hlead Hh Hp Ha HB1 HB2 Hk Hsize) as Hboth.
  destruct (encode_readable _ _ _ He1) as [s1 Hs1].
  destruct (decoded_verifies public_half m2 buf2 He2) as (m20 & crc20 & sig20 & _ & Hm20 & _ & Hv20).
  destruct (operator_call public_half m1 buf1 (fun m' crc sig => (localHandler m' crc sig (theNode st)).1) (mkMsg (Id m1) 0 (Ok []) (Body m1)) buf1 st)
    as (st1 & c1 & m1' & crc1 & sig1 & r1 & Hr1 & Hi1 & Hl1 & Hm1 & Hv1 & Hn1 & Hs1' & Ho1 & _ & Hb1); [done|done|done| |done|done| |].
  { intros m' crc sig Hm Hv. destruct (Hboth m' crc sig m20 crc20 sig20) as (n1 & n2 & -> & _); [done..|]. exists sig, m'. split; [done|].
    split; [|done]. destruct Hm. by split. }
  { rewrite <- He1. eapply encode_same; [by split|done|exact Hs1]. }
  destruct (operator_call public_half m2 buf2 (fun m' crc sig => (localHandler m' crc sig (theNode st1)).1)
      (mkMsg (Id m2) 0 (Ok []) (E_getFieldByKey (Ok key) (Ok value))) rbuf st1)
    as (st2 & c2 & m2' & crc2 & sig2 & r2 & Hr2 & Hi2 & _ & Hm2 & Hv2 & Hn2 & Hs2 & Ho2 & _ & Hb2); [done|congruence|done| |done|done|done|].
  { intros m' crc sig Hm Hv. destruct (Hboth m1' crc1 sig1 m' crc sig) as (n1 & n2 & E & Hg & _); [done..|]. rewrite Hn1, E. cbn [fst].
    rewrite Hg. exists sig. eexists. split; [done|]. split; [|done]. destruct Hm. by split. }
  exists st2, c1, c2, r1, r2. rewrite (run_app _ _ _ _ _ Hr1), Ho2, Ho1, Hs2, Hs1', <- !app_assoc. split; [done|]. split; [done|].
  split; [done|]. split; [done|]. split; [by rewrite <- HB1, <- Hb1|]. split; [by rewrite <- Hb2|].
  destruct (Hboth m1' crc1 sig1 m2' crc2 sig2) as (n1 & n2 & E & Hg & Hc); [done..|]. rewrite Hn2, Hn1, E. cbn [fst]. by rewrite Hg.
Qed.
