(* ===== verification/Client.v ===== *)
(** The client library of the local transport (src/pkg/shmclient): the calls an
    operator's process makes on its own node, one atomic round trip each, with
    the random ids of the messages and the calls it gives up. *)

From S2P Require Import Prelude Store StoreLogic SystemKeys Payloads LogRecord Txn Fsm Events Stream Quota Session Node Acl Forward Dial Join Execute Remote Channel Handler Ipc IpcNode.
#[local] Open Scope Z_scope.

(** * The process and its node *)

(** How a call ends: answered, or given up by the caller, before or after the node
    has handled the request. *)
Inductive fate : Type :=
| Answered
| GivenUp (handled : bool).

(** The node the process talks to, whether it still answers, the id of the request its loop
    answered last with the response that is still in its channel, the ids the random
    source has left ([None]: it fails), and what becomes of the calls. *)
Record client : Type := mkClient {
  cnode : node;
  cup : bool;
  clast : option (Z * bytes);
  crand : list (option Z);
  cfates : list fate;
}.

Definition C (A : Type) : Type := client -> client * gores A.

#[global] Instance C_ret : MRet C := fun A a c => (c, Ret a).
#[global] Instance C_bind : MBind C := fun A B f m c =>
  match m c with
  | (c', Ret a) => f a c'
  | (c', Fail e) => (c', Fail e)
  | (c', Panic) => (c', Panic)
  end.

Definition liftC {A} (r : gores A) : C A := fun c => (c, r).
Definition wrapC {A} (fmt : String.string) (m : C A) : C A := fun c =>
  match m c with (c', r) => (c', wrap_err fmt r) end.
Arguments wrapC {A} fmt%_string_scope m.

(** * One round trip *)

(** Reading a field of a response of another tag than the accessor's: the pointer
    slot as text, as a list of data, and the bit of [dirty]. *)
Class OtherTag : Type := {
  ptrText : Event -> nat -> field;
  ptrFields : Event -> nat -> ptr (list field);
  dirtyBit : Event -> bool;
}.

Section Client.
Context `{Env} `{OtherTag}.

(** What [Serve] makes of one decoded request: the encoded response. *)
Definition answer (m : Msg) (crc : Z) (sig : bytes) : D bytes :=
  resp ← localHandler m crc sig;
  liftD (Encode Canonicalize ed25519_sign Marshal (SetId (Id m) resp) (Some ed25519Priv)).

(** The response in the channel of the request's id, if the loop takes the request for the
    one it has answered last *)
Definition staleResponse (m : Msg) (c : client) : option bytes :=
  match clast c with
  | Some (lastID, respBuf) => if Id m =? lastID then Some respBuf else None
  | None => None
  end.

(** The node works on the request: it ignores one it cannot decode, passes over one with the
    id of the last (whose response is still there to be read), and stops if it
    panics or cannot answer. *)
Definition nodeServes (buf : bytes) : C (option bytes) := fun c =>
  match cup c, Decode Canonicalize Unmarshal buf with
  | true, Ret (m, crc, sig) =>
    match staleResponse m c with
    | Some respBuf => (c, Ret (Some respBuf))
    | None =>
      match answer m crc sig (cnode c) with
      | (n, Ret rbuf) => (mkClient n true (Some (Id m, rbuf)) (crand c) (cfates c), Ret (Some rbuf))
      | (n, _) => (mkClient n false None (crand c) (cfates c), Ret None)
      end
    end
  | _, _ => (c, Ret None)
  end.

Definition nextFate : C fate := fun c =>
  match cfates c with
  | [] => (c, Ret Answered)
  | f :: fs => (mkClient (cnode c) (cup c) (clast c) (crand c) fs, Ret f)
  end.

Definition waitingErr {A} : C A := liftC (Fail (Errorf "ipc: waiting for response channel %s: %w")).

(** [ipc.Call] as one step: the interleavings of its turns with those of the node
    are in [Ipc]. *)
Definition Call (m : Msg) (priv : option bytes) : C Msg :=
  buf ← liftC (wrap_err "ipc: encode request: %w" (Encode Canonicalize ed25519_sign Marshal m priv));
  f ← nextFate;
  match f with
  | GivenUp false => waitingErr
  | GivenUp true => _ ← nodeServes buf; waitingErr
  | Answered =>
    r ← nodeServes buf;
    match r with
    | None => waitingErr
    | Some respBuf => '(resp, _, _) ← liftC (Decode Canonicalize Unmarshal respBuf); mret resp
    end
  end.

(** * Sessions (client.go) *)

(** What the source goes on with when its schedule is over: ids other than the last *)
Definition otherThan (last : option Z) : Z := if bool_decide (last = Some 1) then 2 else 1.

(** Draws until the id is not zero; a source that fails gives 1. *)
Fixpoint drawID (last : option Z) (draws : list (option Z)) : list (option Z) * Z :=
  match draws with
  | Some d :: ds => if u16 d =? 0 then drawID last ds else (ds, u16 d)
  | None :: ds => (ds, 1)
  | [] => ([], otherThan last)
  end.

Definition newID : C Z := fun c =>
  let '(ds, id) := drawID (fst <$> clast c) (crand c) in (mkClient (cnode c) (cup c) (clast c) ds (cfates c), Ret id).

Record Session : Type := mkSession {
  sessionPeer : bytes;
  sessionPriv : bytes;
}.

Definition call (s : Session) (m : Msg) : C Msg :=
  id ← newID;
  Call (SetId id m) (Some (sessionPriv s)).

(** The text of an error response; one that cannot be read is empty. *)
Definition errorText (resp : Msg) : bytes :=
  match Body resp with
  | E_error (Ok msg) => msg
  | _ => []
  end.

(** ["shmclient: name: %w"] and ["shmclient: name: %s"] *)
Definition about (name : String.string) : String.string := String.append "shmclient: " (String.append name ": %w").
Definition says (name : String.string) : String.string := String.append "shmclient: " (String.append name ": %s").
#[local] Arguments about name%_string_scope.

Definition respErr (name : String.string) (resp : Msg) : gores unit :=
  if bool_decide (Which resp = Event_Which_error) then Fail (Errorf (says name)) else Ret tt.
#[local] Arguments respErr name%_string_scope.

Definition GetPublicKey : C bytes :=
  m ← liftC (wrap_err (about "get_public_key") NewGetPublicKey);
  id ← newID;
  resp ← wrapC (about "get_public_key") (Call (SetId id m) None);
  _ ← liftC (respErr "get_public_key" resp);
  liftC (wrap_err (about "get_public_key") (rd (match Body resp with E_getPublicKey pub => pub | e => ptrData e 1 end))).

Definition GetPrivateKey : C bytes :=
  m ← liftC (wrap_err (about "get_private_key") NewGetPrivateKey);
  id ← newID;
  resp ← wrapC (about "get_private_key") (Call (SetId id m) None);
  _ ← liftC (respErr "get_private_key" resp);
  liftC (wrap_err (about "get_private_key") (rd (match Body resp with E_getPrivateKey priv => priv | e => ptrData e 1 end))).

Definition Open (peer : bytes) : C Session :=
  priv ← wrapC "shmclient: fetch signing key: %w" GetPrivateKey;
  mret (mkSession peer priv).

(** What every method does around its own constructor and accessor: build, call,
    look for an error response. *)
Definition request (s : Session) (name : String.string) (m : gores Msg) : C Msg :=
  m ← liftC (wrap_err (about name) m);
  resp ← wrapC (about name) (call s m);
  _ ← liftC (respErr name resp);
  mret resp.
#[local] Arguments request s name%_string_scope m.

Definition acknowledged (s : Session) (name : String.string) (m : gores Msg) : C unit :=
  _ ← request s name m; mret tt.
#[local] Arguments acknowledged s name%_string_scope m.

Definition read (name : String.string) (f : field) : C bytes := liftC (wrap_err (about name) (rd f)).
#[local] Arguments read name%_string_scope f.

(** * Keys and values (kv.go) *)

Definition Session_Set (s : Session) (key value : bytes) : C unit := acknowledged s "set" (NewSet key value).

Definition Session_LogAppend (s : Session) (key value : bytes) : C unit := acknowledged s "log_append" (NewLogAppend key value).

(** [strings.Contains] *)
Fixpoint Contains (s sub : bytes) : bool :=
  match cut_prefix sub s with
  | Some _ => true
  | None => match s with [] => false | _ :: s' => Contains s' sub end
  end.

Definition CompareFailedMarker : bytes := bs "txn: compare failed".

(** [ErrCompareFailed] is this package's own value here. *)
Definition Session_Txn (s : Session) (ops : list TxnOpSpec) : C unit :=
  m ← liftC (wrap_err (about "txn") (NewTxn ops));
  resp ← wrapC (about "txn") (call s m);
  liftC (if bool_decide (Which resp = Event_Which_error)
         then if Contains (errorText resp) CompareFailedMarker
              then Fail (Wrapf "%w: %s" ErrCompareFailed) else Fail (Errorf (says "txn"))
         else Ret tt).

Definition Session_CompareAndSwap (s : Session) (key expected value : bytes) (absent : bool) : C bool := fun c =>
  let compare := if absent then mkTxnOp TxnOpCompareAbsent key [] else mkTxnOp TxnOpCompare key expected in
  match Session_Txn s [compare; mkTxnOp TxnOpSet key value] c with
  | (c', Ret _) => (c', Ret true)
  | (c', Fail e) => (c', if errors_is e ErrCompareFailed then Ret false else Fail e)
  | (c', Panic) => (c', Panic)
  end.

Definition Session_Get (s : Session) (key : bytes) : C bytes :=
  resp ← request s "get_field_by_key" (NewGetFieldByKey key);
  read "get_field_by_key" (match Body resp with E_getFieldByKey _ value => value | e => ptrData e 2 end).

(** The first pair of the range, if any. *)
Definition Session_ListRange (s : Session) (start stop : bytes) : C (option (bytes * bytes)) :=
  resp ← request s "list_range" (NewListRange start stop);
  key ← read "list_range" (respKey (Body resp));
  if bytes_eqb key [] then mret None else
  value ← read "list_range" (respValue (Body resp));
  mret (Some (key, value)).

(** The loop of [ScanRange]. [enough] pairs are enough, if positive. *)
Fixpoint scanPairs (fuel : nat) (s : Session) (lo stop : bytes) (enough : Z) (pairs : list (bytes * bytes))
  : C (list (bytes * bytes)) :=
  match fuel with
  | O => liftC (Fail (Errorf "fuel"))
  | S fuel' =>
    r ← Session_ListRange s lo stop;
    match r with
    | None => mret pairs
    | Some (key, value) =>
      let pairs := pairs ++ [(key, value)] in
      if (0 <? enough) && (enough <=? blen pairs) then mret pairs
      else scanPairs fuel' s (key ++ [Byte.x00]) stop enough pairs
    end
  end.

Definition RangeOrderAsc : bytes := bs "asc".
Definition RangeOrderDesc : bytes := bs "desc".

(** [Some descending], or [None] for an order that is neither. *)
Definition rangeOrder (order : bytes) : option bool :=
  if bytes_eqb order [] || bytes_eqb order RangeOrderAsc then Some false
  else if bytes_eqb order RangeOrderDesc then Some true
  else None.

(** One round trip per row of the node's table, and one that finds no more. *)
Definition scanFuel (c : client) : nat := S (size (committed (nstore (cnode c)))).

Definition scanAll (s : Session) (start stop : bytes) (enough : Z) : C (list (bytes * bytes)) := fun c =>
  scanPairs (scanFuel c) s start stop enough [] c.

Definition Session_ScanRange (s : Session) (start stop : bytes) (limit skip : Z) (order : bytes) : C (list (bytes * bytes)) :=
  if limit <? 0 then liftC (Fail (Errorf "shmclient: scan range: invalid limit %d: must be 0 (unlimited) or positive")) else
  if skip <? 0 then liftC (Fail (Errorf "shmclient: scan range: invalid skip %d: must be 0 or positive")) else
  match rangeOrder order with
  | None => liftC (Fail (Errorf "shmclient: scan range: invalid order %q: must be %q or %q"))
  | Some descending =>
    let enough := if negb descending && (0 <? limit) then s64 (u64 (skip + limit)) else 0 in
    pairs ← scanAll s start stop enough;
    let pairs := if (descending : bool) then reverse pairs else pairs in
    if blen pairs <=? skip then mret [] else
    let pairs := drop (Z.to_nat skip) pairs in
    mret (if (0 <? limit) && (limit <? blen pairs) then take (Z.to_nat limit) pairs else pairs)
  end.

(** * Notifications (execute.go) *)

Definition callWith (s : Session) (id : Z) (name : String.string) (m : gores Msg) : C unit :=
  m ← liftC (wrap_err (about name) m);
  resp ← wrapC (about name) (Call (SetId id m) (Some (sessionPriv s)));
  liftC (respErr name resp).
#[local] Arguments callWith s id name%_string_scope m.

(** [destID := newID()] and again while it is [sourceID]; a source that has failed
    for good gives 1 every time, on which this never ends. *)
Fixpoint drawOther (fuel : nat) (sourceID : Z) : C Z :=
  match fuel with
  | O => liftC (Fail (Errorf "fuel"))
  | S fuel' => id ← newID; if id =? sourceID then drawOther fuel' sourceID else mret id
  end.

Definition otherID (sourceID : Z) : C Z := fun c => drawOther (S (length (crand c))) sourceID c.

Definition Session_Execute (s : Session) (destPeerID payload : bytes) : C unit :=
  sourceID ← newID;
  _ ← callWith s sourceID "execute: register source" (NewSetKey (sessionPeer s));
  destID ← otherID sourceID;
  _ ← callWith s destID "execute: register destination" (NewSetKey destPeerID);
  acknowledged s "execute" (NewExecute sourceID destID payload).

(** The sender and the payload of the oldest notification, if any. *)
Definition Session_PollExecute (s : Session) : C (option (bytes * bytes)) :=
  resp ← request s "poll_execute" NewPollExecute;
  sender ← read "poll_execute" (match Body resp with E_pollExecute sender _ => sender | e => ptrText e 1 end);
  if bytes_eqb sender [] then mret None else
  payload ← read "poll_execute" (match Body resp with E_pollExecute _ value => value | e => ptrData e 2 end);
  mret (Some (sender, payload)).

(** * The cluster (cluster.go, permit.go) *)

Definition Session_Add (s : Session) (leaderPeerID : bytes) : C bytes :=
  resp ← request s "add" (NewBootstrapOrJoinCluster leaderPeerID);
  read "add" (match Body resp with E_bootstrapOrJoinCluster addr => addr | e => ptrText e 1 end).

Definition Session_GetOwnAddr (s : Session) : C bytes :=
  resp ← request s "get_own_addr" NewGetOwnAddr;
  read "get_own_addr" (match Body resp with E_getOwnAddr addr => addr | e => ptrText e 1 end).

Definition Session_GetVersion (s : Session) : C VersionInfo :=
  resp ← request s "get_version" NewGetVersion;
  liftC (wrap_err (about "get_version")
    (match Body resp with
     | E_getVersion commit dirty buildTime goVersion libp2pVersion => VersionInfoFrom commit dirty buildTime goVersion libp2pVersion
     | e => VersionInfoFrom (ptrText e 1) (dirtyBit e) (ptrText e 2) (ptrText e 3) (ptrText e 4)
     end)).

Definition Session_Leave (s : Session) : C unit := acknowledged s "leave" NewLeave.
Definition Session_Kick (s : Session) (targetPeerID : bytes) : C unit := acknowledged s "kick" (NewKick targetPeerID).

Definition Session_RequestPermit (s : Session) (kind : byte) (peerID metadata : bytes) : C unit :=
  acknowledged s "permit_request" (NewPermitRequest kind peerID metadata).
Definition Session_ConfirmPermit (s : Session) (kind : byte) (peerID : bytes) : C unit :=
  acknowledged s "permit_confirm" (NewPermitConfirm kind peerID).
Definition Session_RevokePermit (s : Session) (kind : byte) (peerID : bytes) : C unit :=
  acknowledged s "permit_revoke" (NewPermitRevoke kind peerID).

(** * The catalog (catalog.go) *)

Definition Session_PutGroup (s : Session) (id name : bytes) (public : bool) : C unit :=
  acknowledged s "group_put" (NewGroupPut id name public).
Definition Session_DeleteGroup (s : Session) (id : bytes) : C unit := acknowledged s "group_delete" (NewGroupDelete id).
Definition Session_PutCommand (s : Session) (id name peerID : bytes) : C unit :=
  acknowledged s "command_put" (NewCommandPut id name peerID).
Definition Session_PutCommandWithSpec (s : Session) (id name peerID spec : bytes) : C unit :=
  acknowledged s "command_put" (NewCommandPutWithSpec id name peerID spec).
Definition Session_ClearCommandSpec (s : Session) (id name peerID : bytes) : C unit := Session_PutCommandWithSpec s id name peerID [].
Definition Session_PutStation (s : Session) (peerID name attrs : bytes) : C unit :=
  acknowledged s "station_put" (NewStationPut peerID name attrs).
Definition Session_DeleteStation (s : Session) (peerID : bytes) : C unit := acknowledged s "station_delete" (NewStationDelete peerID).
Definition Session_DeleteCommand (s : Session) (id : bytes) : C unit := acknowledged s "command_delete" (NewCommandDelete id).
Definition Session_PutGroupCommand (s : Session) (commandID groupID : bytes) : C unit :=
  acknowledged s "group_command_put" (NewGroupCommandPut commandID groupID).
Definition Session_DeleteGroupCommand (s : Session) (commandID groupID : bytes) : C unit :=
  acknowledged s "group_command_delete" (NewGroupCommandDelete commandID groupID).
Definition Session_PutPeerGroup (s : Session) (peerID groupID : bytes) : C unit :=
  acknowledged s "peer_group_put" (NewPeerGroupPut peerID groupID).
Definition Session_DeletePeerGroup (s : Session) (peerID groupID : bytes) : C unit :=
  acknowledged s "peer_group_delete" (NewPeerGroupDelete peerID groupID).

(** * Invites, recruiting and other clusters (invite.go, dialcommand.go) *)

Definition Session_CreateJoinInvite (s : Session) (token : bytes) (suffrage : byte) : C unit :=
  acknowledged s "join_invite_create" (NewJoinInviteCreate token suffrage).
Definition Session_RevokeJoinInvite (s : Session) (token : bytes) : C unit :=
  acknowledged s "join_invite_revoke" (NewJoinInviteRevoke token).
Definition Session_CreateJoinRequest (s : Session) : C bytes :=
  resp ← request s "join_request_create" NewJoinRequestCreate;
  read "join_request_create" (match Body resp with E_joinRequestCreate token => token | e => ptrData e 1 end).
Definition Session_CancelJoinRequest (s : Session) (token : bytes) : C unit :=
  acknowledged s "join_request_cancel" (NewJoinRequestCancel token).
Definition Session_Recruit (s : Session) (ticket : bytes) (suffrage : byte) : C bytes :=
  resp ← request s "recruit" (NewRecruit ticket suffrage);
  read "recruit" (match Body resp with E_recruit ticket _ => ticket | e => ptrText e 1 end).
Definition Session_CreateExecInvite (s : Session) (token commandID inputsJSON : bytes) (ttlSeconds : Z) : C unit :=
  acknowledged s "exec_invite_create" (NewExecInviteCreate token commandID inputsJSON ttlSeconds).
Definition Session_RevokeExecInvite (s : Session) (token : bytes) : C unit :=
  acknowledged s "exec_invite_revoke" (NewExecInviteRevoke token).
Definition Session_RedeemExecInvite (s : Session) (sourceAddr token : bytes) : C bytes :=
  resp ← request s "exec_invite_redeem" (NewExecInviteRedeem sourceAddr token);
  read "exec_invite_redeem" (match Body resp with E_execInviteRedeem _ _ instanceId _ => instanceId | e => ptrText e 3 end).

Definition Session_PublicAccess (s : Session) (targetPeer note : bytes) : C bytes :=
  resp ← request s "public_access" (NewPublicAccess targetPeer note);
  read "public_access" (match Body resp with E_publicAccess _ _ instanceId => instanceId | e => ptrText e 3 end).
Definition Session_DialSubmitCommand (s : Session) (targetPeer commandID inputsJSON note : bytes) : C bytes :=
  resp ← request s "dial_submit_command" (NewDialSubmitCommand targetPeer commandID inputsJSON note);
  read "dial_submit_command" (match Body resp with E_dialSubmitCommand _ _ _ _ instanceId => instanceId | e => ptrText e 5 end).
Definition Session_DialQueryCommandLog (s : Session) (targetPeer instanceID : bytes) (since until limit : Z) : C (list LogRecord) :=
  resp ← request s "dial_query_command_log" (NewDialQueryCommandLog targetPeer instanceID since until limit);
  liftC (wrap_err (about "dial_query_command_log: decode response")
    (DialQueryCommandLogRecords (match Body resp with E_dialQueryCommandLog _ _ _ _ _ records => records | e => ptrFields e 3 end))).

(** * One-shot forms: open a session for one call *)

Definition oneShot {A} (peer : bytes) (f : Session -> C A) : C A := s ← Open peer; f s.

Definition Set_ (peer key value : bytes) : C unit := oneShot peer (fun s => Session_Set s key value).
Definition LogAppend (peer key value : bytes) : C unit := oneShot peer (fun s => Session_LogAppend s key value).
Definition Txn_ (peer : bytes) (ops : list TxnOpSpec) : C unit := oneShot peer (fun s => Session_Txn s ops).
Definition CompareAndSwap (peer key expected value : bytes) (absent : bool) : C bool :=
  oneShot peer (fun s => Session_CompareAndSwap s key expected value absent).
Definition Get (peer key : bytes) : C bytes := oneShot peer (fun s => Session_Get s key).
Definition ListRange (peer start stop : bytes) : C (option (bytes * bytes)) := oneShot peer (fun s => Session_ListRange s start stop).
Definition Execute_ (peer destPeerID payload : bytes) : C unit := oneShot peer (fun s => Session_Execute s destPeerID payload).
Definition PollExecute (peer : bytes) : C (option (bytes * bytes)) := oneShot peer Session_PollExecute.
Definition RequestPermit (peer : bytes) (kind : byte) (target metadata : bytes) : C unit :=
  oneShot peer (fun s => Session_RequestPermit s kind target metadata).
Definition ConfirmPermit (peer : bytes) (kind : byte) (target : bytes) : C unit := oneShot peer (fun s => Session_ConfirmPermit s kind target).
Definition RevokePermit (peer : bytes) (kind : byte) (target : bytes) : C unit := oneShot peer (fun s => Session_RevokePermit s kind target).
Definition Add (peer leaderPeerID : bytes) : C bytes := oneShot peer (fun s => Session_Add s leaderPeerID).
Definition Leave (peer : bytes) : C unit := oneShot peer Session_Leave.
Definition Kick (peer targetPeerID : bytes) : C unit := oneShot peer (fun s => Session_Kick s targetPeerID).
Definition PutGroup (peer id name : bytes) (public : bool) : C unit := oneShot peer (fun s => Session_PutGroup s id name public).
Definition DeleteGroup (peer id : bytes) : C unit := oneShot peer (fun s => Session_DeleteGroup s id).
Definition PutCommand (peer id name target : bytes) : C unit := oneShot peer (fun s => Session_PutCommand s id name target).
Definition DeleteCommand (peer id : bytes) : C unit := oneShot peer (fun s => Session_DeleteCommand s id).
Definition PutGroupCommand (peer commandID groupID : bytes) : C unit := oneShot peer (fun s => Session_PutGroupCommand s commandID groupID).
Definition DeleteGroupCommand (peer commandID groupID : bytes) : C unit :=
  oneShot peer (fun s => Session_DeleteGroupCommand s commandID groupID).
Definition PutPeerGroup (peer target groupID : bytes) : C unit := oneShot peer (fun s => Session_PutPeerGroup s target groupID).
Definition DeletePeerGroup (peer target groupID : bytes) : C unit := oneShot peer (fun s => Session_DeletePeerGroup s target groupID).
End Client.
