(* ===== verification/ClientProps.v ===== *)
(** What the client library promises: its atomic round trip is what the transport
    implements; a compare-and-swap swaps exactly when the key holds what was
    expected; a scan returns the window of the range it was asked for. *)

From S2P Require Import Prelude Store StoreLogic SystemKeys Payloads LogRecord Txn Fsm FsmSpec FsmProps FsmInvariants FsmOps Events Stream Quota Session Node Acl Forward Dial Join Execute Remote Channel Handler HandlerProps ForwardProps ReadProps RemoteProps Ipc IpcProps IpcNode Client.
#[local] Open Scope Z_scope.

#[local] Arguments Decode : simpl never.
#[local] Arguments Encode : simpl never.

(** * Round trips *)

(** A sequence of calls, each answered before the next. *)
Fixpoint calls `{Env} (l : list (Msg * option bytes)) : C (list Msg) :=
  match l with
  | [] => mret []
  | (m, priv) :: l' => resp ← Call m priv; resps ← calls l'; mret (resp :: resps)
  end.

(** No call has the id of the one before it. *)
Fixpoint changing (last : option Z) (l : list (Msg * option bytes)) : Prop :=
  match l with
  | [] => True
  | (m, _) :: l' => last <> Some (Id m) /\ changing (Some (Id m)) l'
  end.

Section Transport.
Context `{Env} `{!WireCodec}.

Lemma staleResponse_None m c : fst <$> clast c <> Some (Id m) -> staleResponse m c = None.
Proof. unfold staleResponse. destruct (clast c) as [[id buf]|]; [|done]. cbn. intros Hne. destruct (Z.eqb_spec (Id m) id); congruence. Qed.

(** An answered call, taken apart. *)
Lemma Call_inv m priv c c' resp :
  cfates c = [] -> fst <$> clast c <> Some (Id m) -> Call m priv c = (c', Ret resp) ->
  exists buf m' crc sig r rbuf crc' sig', Encode Canonicalize ed25519_sign Marshal m priv = Ret buf /\
    Decode Canonicalize Unmarshal buf = Ret (m', crc, sig) /\ same m m' /\
    localHandler m' crc sig (cnode c) = (cnode c', Ret r) /\
    Encode Canonicalize ed25519_sign Marshal (SetId (Id m) r) (Some ed25519Priv) = Ret rbuf /\
    Decode Canonicalize Unmarshal rbuf = Ret (resp, crc', sig') /\ cfates c' = [] /\ fst <$> clast c' = Some (Id m).
Proof.
  intros Hf Hid. unfold Call. unfold mbind at 1, C_bind at 1, liftC.
  destruct (Encode _ _ _ m priv) as [buf| |] eqn:E; [cbn [wrap_err]|done..].
  unfold mbind at 1, C_bind at 1, nextFate. rewrite Hf. cbn [fst]. unfold mbind at 1, C_bind at 1, nodeServes.
  destruct (encode_carries _ _ _ E) as (m' & crc & sig & Ed & Hs). rewrite Ed.
  destruct (cup c); [|done]. rewrite staleResponse_None by (destruct Hs as [<- _]; exact Hid). unfold answer, mbind at 1, D_bind at 1.
  destruct (localHandler m' crc sig (cnode c)) as [n [r| |]] eqn:Eh; [|done..]. unfold liftD.
  destruct (Encode _ _ _ (SetId (Id m') r) _) as [rbuf| |] eqn:Er; [|done..]. unfold mbind, C_bind.
  destruct (Decode _ _ rbuf) as [[[resp' crc'] sig']| |] eqn:Edr; [|done..].
  unfold mret, C_ret. intros [= <- <-]. destruct Hs as [Hm Hb]. rewrite <- Hm in Er.
  exists buf, m', crc, sig, r, rbuf, crc', sig'. split; [done|]. split; [done|]. split; [by split|]. split_and!; [done..|]. cbn. by rewrite Hm.
Qed.

(** ... and what the turns of the transport make of it. *)
Lemma Call_implemented m priv c c' resp st :
  idle st -> lastID st <> Some (Id m) -> lastID st = fst <$> clast c -> theNode st = cnode c -> cfates c = [] -> Call m priv c = (c', Ret resp) ->
  exists st', ipcRun localHandler (undisturbed m priv) st = Some st' /\ idle st' /\ theNode st' = cnode c' /\ cfates c' = [] /\
    lastID st' = Some (Id m) /\ fst <$> clast c' = Some (Id m) /\ outcomes st' = outcomes st ++ [(m, Ret resp)].
Proof.
  intros Hi Hl Hlast Hn Hf (buf & m' & crc & sig & r & rbuf & crc' & sig' & He & Hd & Hm & Hh & Her & Hdr & Hf' & Hlast')%Call_inv; [|done|by rewrite <- Hlast].
  rewrite <- Hn in Hh. destruct (undisturbed_run localHandler m priv st buf (cnode c') r rbuf) as (st' & c0 & r' & Hr & Hi' & [Hli _] & Hn' & _ & Ho & (crc0 & sig0 & Ed0) & _);
    [done|done|done| |done|].
  - intros m1 c1 s1 E. rewrite Hd in E. injection E as <- <- <-. exact Hh.
  - rewrite Hdr in Ed0. injection Ed0 as <- _ _. exists st'. split; [done|]. split; [done|]. by split_and!.
Qed.
End Transport.

(** * Sessions *)

(** No id the source yields is that of the call before it. *)
Fixpoint changingIDs (last : option Z) (draws : list (option Z)) : Prop :=
  match draws with
  | [] => True
  | None :: ds => last <> Some 1 /\ changingIDs (Some 1) ds
  | Some d :: ds => if u16 d =? 0 then changingIDs last ds else last <> Some (u16 d) /\ changingIDs (Some (u16 d)) ds
  end.

Lemma drawID_changes last draws : changingIDs last draws ->
  last <> Some (drawID last draws).2 /\ changingIDs (Some (drawID last draws).2) (drawID last draws).1.
Proof.
  induction draws as [|[d|] ds IH]; cbn; [|by destruct (u16 d =? 0); [apply IH|]|done]. intros _. split; [|done].
  unfold otherThan. case_bool_decide; congruence.
Qed.

Lemma drawID_range last draws : 0 <= (drawID last draws).2 < 2 ^ 16.
Proof.
  induction draws as [|[d|] ds IH]; cbn; [unfold otherThan; case_bool_decide; lia| |lia]. destruct (Z.eqb_spec (u16 d) 0); [done|]. cbn. unfold u16. apply Z.mod_pos_bound. lia.
Qed.

Section Session.
Context `{Env} `{!WireCodec} (public_half : bytes -> bytes) `{!NodeKeys public_half}.

(** The wire format has room for the content, whatever the id. *)
Definition encodable (e : Event) : Prop :=
  forall id, 0 <= id < 2 ^ 16 -> exists buf, Encode Canonicalize ed25519_sign Marshal (mkMsg id 0 (Ok []) e) (Some ed25519Priv) = Ret buf.

Lemma encodable_msg m sig : encodable (Body m) -> 0 <= Id m < 2 ^ 16 -> Signature m = Ok sig ->
  exists buf, Encode Canonicalize ed25519_sign Marshal m (Some ed25519Priv) = Ret buf.
Proof.
  intros He Hid Hs. destruct (He (Id m) Hid) as [buf E]. exists buf. rewrite <- E.
  by eapply encode_same; [by split|exact Hs|].
Qed.

(** What a verified local request comes to. *)
Definition settled (m : Msg) (n : node) : node * gores Msg :=
  match dispatch localCaller m n with
  | (n', Fail err) => (n', Ret (errorMsg (Id m) err))
  | r => r
  end.

(** A node that is up and answers, a session that holds its key, and a source of ids that
    does not repeat the id of the call before. *)
Record ready (s : Session) (c : client) : Prop := {
  rd_up : cup c = true;
  rd_fates : cfates c = [];
  rd_key : sessionPriv s = ed25519Priv;
  rd_ids : changingIDs (fst <$> clast c) (crand c);
}.

(** One call of a session: what dispatching the message does to the node is what the
    call does, and its content is what comes back. *)
Lemma call_run s m c (Q : node -> Event -> Prop) sg :
  ready s c -> encodable (Body m) -> Signature m = Ok sg ->
  (forall m', Body m' = Body m -> exists n' resp, settled m' (cnode c) = (n', Ret resp) /\ Q n' (Body resp) /\ encodable (Body resp) /\
     (forall sig, Signature m' = Ok sig -> exists sig', Signature resp = Ok sig')) ->
  exists c' r, call s m c = (c', Ret r) /\ Q (cnode c') (Body r) /\ ready s c'.
Proof.
  intros [Hup Hf Hk Hids] He Hsg Hd. unfold call, mbind at 1, C_bind at 1, newID. pose proof (drawID_range (fst <$> clast c) (crand c)) as Hid.
  destruct (drawID_changes _ _ Hids) as [Hne Hds]. destruct (drawID (fst <$> clast c) (crand c)) as [ds id]. cbn [fst snd] in *. rewrite Hk.
  destruct (encodable_msg (SetId id m) sg) as [buf E]; [done..|]. unfold Call, mbind at 1, C_bind at 1, liftC. rewrite E. cbn [wrap_err].
  unfold mbind at 1, C_bind at 1, nextFate. cbn [cfates]. rewrite Hf. unfold mbind at 1, C_bind at 1, nodeServes. cbn [cup cnode]. rewrite Hup.
  destruct (decoded_verifies public_half _ _ E) as (m' & crc & sig & Ed & [Hi Hb] & Hs & Hv). rewrite Ed. cbn [Id Body SetId] in Hi, Hb.
  rewrite staleResponse_None by (cbn [clast]; by rewrite <- Hi).
  destruct (Hd m' (eq_sym Hb)) as (n' & resp & Hset & HQ & Her & Hsig). destruct (Hsig _ Hs) as [sig' Hsig'].
  unfold answer, mbind at 1, D_bind at 1, localHandler. rewrite local_request by done. unfold settled in Hset.
  assert (match dispatch localCaller m' (cnode c) with
          | (n'0, Ret resp0) => (n'0, Ret resp0) | (n'0, Fail err) => (n'0, Ret (errorMsg (Id m') err)) | (n'0, Panic) => (n'0, Panic)
          end = (n', Ret resp)) as -> by (by destruct (dispatch localCaller m' (cnode c)) as [? []]).
  unfold liftD. destruct (encodable_msg (SetId (Id m') resp) sig') as [rbuf Er]; [done|by cbn; rewrite <- Hi|done|]. rewrite Er.
  destruct (encode_carries _ _ _ Er) as (r & crc' & sig'' & Edr & [_ Hbr]). unfold mbind, C_bind. rewrite Edr. unfold mret, C_ret.
  eexists _, r. split; [done|]. cbn [cnode]. rewrite <- Hbr. split; [done|]. constructor; [done..|]. cbn. by rewrite <- Hi.
Qed.

(** ** Scanning *)

(** The session of a node that holds the table [t]. *)
Record scanning (s : Session) (t : table) (c : client) : Prop := {
  sc_ready : ready s c;
  sc_healthy : healthy (nstore (cnode c));
  sc_table : committed (nstore (cnode c)) = t;
}.

(** The pages of a scan fit. *)
Definition pagesFit (t : table) (start stop : bytes) : Prop :=
  forall lo, lo = start \/ (exists k v, (k, v) ∈ select (in_range start stop) t /\ lo = k ++ [Byte.x00]) ->
    encodable (E_listRange (Ok lo) (Ok stop) (Ok []) (Ok [])) /\ encodable (page t lo stop).

Lemma list_settled m lo hi n :
  healthy (nstore n) -> Body m = E_listRange (Ok lo) (Ok hi) (Ok []) (Ok []) ->
  exists n' resp, settled m n = (n', Ret resp) /\ Body resp = page (committed (nstore n)) lo hi /\ Signature resp = Signature m /\
    healthy (nstore n') /\ committed (nstore n') = committed (nstore n).
Proof.
  intros Hh HB. unfold settled, dispatch. rewrite HB. unfold onListRange, mbind, D_bind, onStore. cbn [liftD rd].
  destruct (reads_scanRange Store lo hi 1 _ (nstore n) eq_refl) as (w' & r & -> & Hc & _ & Hh' & Hr).
  destruct Hr as [->|[Hf _]]; [|done]. cbn [view Store]. unfold page.
  destruct (select (in_range lo hi) (committed (nstore n))) as [|[k v] rest]; cbn; eexists _, _; split_and!; auto.
Qed.

Lemma ListRange_run s t lo stop c :
  scanning s t c -> encodable (E_listRange (Ok lo) (Ok stop) (Ok []) (Ok [])) -> encodable (page t lo stop) ->
  (forall k v, (k, v) ∈ select (in_range lo stop) t -> k <> []) ->
  exists c', Session_ListRange s lo stop c = (c', Ret (head (select (in_range lo stop) t))) /\ scanning s t c'.
Proof.
  intros [Hr Hh Ht] He1 He2 Hne. unfold Session_ListRange, request. unfold mbind at 1, C_bind at 1. unfold mbind at 1, C_bind at 1, liftC.
  cbn [NewListRange wrap_err]. unfold mbind at 1, C_bind at 1, wrapC.
  destruct (call_run s (newMsg (E_listRange (Ok lo) (Ok stop) (Ok []) (Ok []))) c
    (fun n' e => e = page t lo stop /\ healthy (nstore n') /\ committed (nstore n') = t) []) as (c' & r & -> & (Hb & Hh' & Ht') & Hr');
    [done|done|done| |].
  { intros m' Hb. destruct (list_settled m' lo stop (cnode c) Hh Hb) as (n' & resp & Es & Hbr & Hs & Hh' & Ht').
    rewrite Ht in Hbr, Ht'. exists n', resp. rewrite Hbr, Hs. split; [done|]. split; [done|]. split; [done|]. eauto. }
  cbn [wrap_err]. unfold mbind at 1, C_bind at 1, respErr, Which. rewrite Hb. unfold page in *.
  assert (scanning s t c') as Hsc by (by constructor).
  exists c'. split; [|done].
  unfold mbind, C_bind, mret, C_ret, read, liftC.
  destruct (select (in_range lo stop) t) as [|[k v] rest] eqn:Esel; rewrite bool_decide_false, Hb by done; [done|].
  specialize (Hne k v ltac:(by left)). by destruct k as [|b k].
Qed.

(** What is left to collect when [got] pairs are there and [enough] are enough. *)
Definition stillWanted {A : Type} (enough got : Z) (rest : list A) : list A :=
  if 0 <? enough then take (Z.to_nat (enough - got)) rest else rest.

(** The loop collects the rows from [lo] on, in order, and stops with enough. *)
Lemma scanPairs_run s t start stop enough rest : forall fuel lo acc c,
  scanning s t c -> pagesFit t start stop -> (forall k v, (k, v) ∈ select (in_range start stop) t -> k <> []) ->
  lo = start \/ (exists k v, (k, v) ∈ select (in_range start stop) t /\ lo = k ++ [Byte.x00]) ->
  select (in_range lo stop) t = rest -> rest ⊆ select (in_range start stop) t ->
  (length rest < fuel)%nat -> (0 < enough -> blen acc < enough) ->
  exists c', scanPairs fuel s lo stop enough acc c = (c', Ret (acc ++ stillWanted enough (blen acc) rest)) /\ scanning s t c'.
Proof.
  induction rest as [|[k v] rest IH]; intros [|fuel] lo acc c Hc Hp Hne Hlo Hsel Hsub Hfuel Hacc; try (cbn in Hfuel; lia); cbn [scanPairs];
    unfold mbind at 1, C_bind at 1; destruct (Hp lo Hlo) as [He1 He2];
    (destruct (ListRange_run s t lo stop c Hc He1 He2) as (c1 & -> & Hc1); [rewrite Hsel; by eauto|]); rewrite Hsel; cbn [head].
  { exists c1. unfold stillWanted. rewrite take_nil. by destruct (0 <? enough); rewrite app_nil_r. }
  assert (blen (acc ++ [(k, v)]) = blen acc + 1) as Hlen by (unfold blen; rewrite length_app; cbn; lia).
  rewrite Hlen. unfold stillWanted. assert (0 <= blen acc) by (unfold blen; lia).
  assert ((k, v) ∈ select (in_range start stop) t) as Hkv by (apply Hsub; by left).
  destruct ((0 <? enough) && (enough <=? blen acc + 1)) eqn:Eb.
  - apply andb_true_iff in Eb as [He Hle]. rewrite He. exists c1. split; [|done].
    replace (Z.to_nat (enough - blen acc)) with 1%nat by lia. cbn. by rewrite take_0.
  - destruct (IH fuel (k ++ [Byte.x00]) (acc ++ [(k, v)]) c1) as (c2 & -> & Hc2); [done..| | | | | |].
    + right. by exists k, v.
    + by apply (select_after lo stop t k v).
    + intros x Hx. apply Hsub. by right.
    + cbn in Hfuel. lia.
    + rewrite Hlen. apply andb_false_iff in Eb. lia.
    + exists c2. split; [|done]. rewrite Hlen, <- app_assoc. unfold stillWanted. f_equal. f_equal. f_equal.
      destruct (0 <? enough) eqn:He; [|done]. apply andb_false_iff in Eb.
      replace (Z.to_nat (enough - blen acc)) with (S (Z.to_nat (enough - (blen acc + 1)))) by lia. done.
Qed.

(** ** Transactions *)

Lemma payload_size ops payload : Forall op_fits ops -> EncodeTxnPayload ops = Ret payload -> blen payload <= 2 + blen ops * 0x20003.
Proof.
  intros Hf. unfold EncodeTxnPayload. destruct (0xFFFF <? blen ops); [done|]. destruct (checkTxnOps ops); [|done..]. cbn [mbind gores_bind]. intros <-%(inj Ret).
  rewrite blen_app, blen_put16. enough (blen (concat (map putTxnOp ops)) <= blen ops * 0x20003) by lia.
  induction Hf as [|op ops [Hk Hv] _ IH]; [done|]. cbn [map concat]. rewrite blen_app. unfold putTxnOp at 1. rewrite !blen_app, !blen_put16.
  change (blen [Op op]) with 1. unfold blen in *. cbn [length]. lia.
Qed.

(** A leader whose next entry commits. *)
Record committing (n : node) (ts index : Z) (rest : list apply_reply) : Prop := {
  cm_leads : leads (nraft n) = true;
  cm_healthy : healthy (nstore n);
  cm_settled : pending (nstore n) = None;
  cm_commits : napplies n = Committed [] ts index :: rest;
}.

(** An operation the node takes: on a key that is not empty and not reserved, and not
    too long for the log entry. *)
Definition takes (op : TxnOpSpec) : Prop := op_fits op /\ op_valid op /\ unreserved (Key op).

Lemma takes_checks ops : Forall takes ops ->
  checkTxnOps ops = Ret tt /\ rejectReservedOps ops = Ret tt /\ validOps ops = Ret tt.
Proof.
  intros Ho. split; [apply checkTxnOps_Ret; split; (eapply Forall_impl; [exact Ho|]); by intros op (? & ? & _)|].
  induction Ho as [|op ops (_ & [_ Hv] & Hu) _ [IH1 IH2]]; [done|]. cbn [rejectReservedOps validOps]. rewrite Hv. split; [|done].
  unfold rejectReservedKey. destruct (Key op) as [|b r]; [done|]. destruct (Hu b r eq_refl) as [E1 E2].
  apply byte_eqb_false in E1, E2. by rewrite E1, E2.
Qed.

Lemma txn_settled m l ops n ts index rest :
  committing n ts index rest -> Body m = E_txn l -> TxnOps l = Ret ops -> Forall takes ops -> blen ops <= 0xFFFF ->
  (forall payload, EncodeTxnPayload ops = Ret payload -> 4 + blen payload < 2 ^ 32) ->
  exists n' resp, settled m n = (n', Ret resp) /\
    if bool_decide (Forall (fun op => compareHolds (committed (nstore n)) op = true) ops)
    then resp = m /\ committed (nstore n') = fold_left execOp ops (committed (nstore n))
    else committed (nstore n') = committed (nstore n) /\
      exists e, errors_is e ErrCompareFailed = true /\ Body resp = E_error (Ok (Error e)) /\ Signature resp = Ok [].
Proof.
  intros [Hl Hh Hp Hc] HB Hops Ht Hlen Hsize. destruct (takes_checks ops Ht) as (Hck & Hrej & Hval).
  unfold settled, dispatch. rewrite HB. unfold onTxn. unfold mbind at 1, D_bind at 1, liftD at 1. rewrite Hops.
  unfold mbind at 1, D_bind at 1, liftD at 1. rewrite Hrej. unfold mbind at 1, D_bind at 1, liftD at 1.
  destruct (EncodeTxnPayload ops) as [payload| |] eqn:Ep.
  2,3: unfold EncodeTxnPayload in Ep; destruct (Z.ltb_spec 0xFFFF (blen ops)); [lia|]; by rewrite Hck in Ep.
  specialize (Hsize _ eq_refl). apply DecodeTxnPayload_Encode in Ep. unfold mbind at 1, D_bind at 1.
  destruct (leader_write OpTxn [] payload true n ts index rest Hl Hc) as (n1 & -> & [Hst _ _ _]).
  destruct (txn_outcome (mkLog (EncodeCommand OpTxn [] payload) ts) (nstore n) [] payload ops Hp) as (Hok & Hno & Hyes & Hfail);
    [by apply decode_EncodeCommand|done|done|]. rewrite <- Hst in Hok, Hno.
  case_bool_decide as Hd.
  - rewrite (Hyes Hh Hd). exists n1, m. split; [done|]. split; [done|]. by apply Hok, Hyes.
  - destruct (Hfail Hh Hd) as (e & He & Hes). rewrite He. eexists n1, _. split; [done|]. split; [apply Hno; by rewrite He|].
    exists e. by unfold errorMsg.
Qed.

(** A session's transaction on such a leader: what it comes to, and when. *)
Lemma Txn_run s ops m c ts index rest :
  ready s c -> committing (cnode c) ts index rest -> NewTxn ops = Ret m -> Forall takes ops ->
  (forall payload, EncodeTxnPayload ops = Ret payload -> 4 + blen payload < 2 ^ 32) -> encodable (Body m) ->
  (forall e, errors_is e ErrCompareFailed = true -> encodable (E_error (Ok (Error e))) /\ Contains (Error e) CompareFailedMarker = true) ->
  let t := committed (nstore (cnode c)) in
  let holds := bool_decide (Forall (fun op => compareHolds t op = true) ops) in
  exists c', Session_Txn s ops c = (c', if holds then Ret tt else Fail (Wrapf "%w: %s" ErrCompareFailed)) /\
    committed (nstore (cnode c')) = if holds then fold_left execOp ops t else t.
Proof.
  intros Hr Hc Hm Ht Hsize He Herr t holds. destruct (txn_message_roundtrip ops m Hm) as (l & HB & Hops).
  assert (blen ops <= 0xFFFF) as Hlen by (unfold NewTxn in Hm; destruct (Z.ltb_spec 0xFFFF (blen ops)); [done|lia]).
  assert (Signature m = Ok []) as Hsg.
  { unfold NewTxn in Hm. destruct (0xFFFF <? blen ops); [done|]. destruct (checkNewTxnOps ops); [|done..]. by injection Hm as <-. }
  unfold Session_Txn. unfold mbind at 1, C_bind at 1, liftC at 1. rewrite Hm. cbn [wrap_err]. unfold mbind, C_bind, wrapC.
  destruct (call_run s m c (fun n' e => if holds then e = E_txn l /\ committed (nstore n') = fold_left execOp ops t
    else committed (nstore n') = t /\ exists e0, errors_is e0 ErrCompareFailed = true /\ e = E_error (Ok (Error e0))) [])
    as (c' & r & -> & HQ & _); [done|done|done| |].
  { intros m' HB'. rewrite HB in HB'. destruct (txn_settled m' l ops (cnode c) ts index rest Hc HB' Hops Ht Hlen Hsize) as (n' & resp & Es & Hcase).
    exists n', resp. split; [done|]. fold t holds in Hcase. destruct holds.
    - destruct Hcase as [-> Hcom]. rewrite HB'. split; [done|]. rewrite <- HB. split; [done|]. eauto.
    - destruct Hcase as (Hcom & e & Hes & Hb & Hs). rewrite Hb. split; [by eauto|]. split; [by apply Herr|]. eauto. }
  cbn [wrap_err]. exists c'. destruct holds.
  - destruct HQ as [Hb Hcom]. split; [|exact Hcom]. unfold Which. by rewrite Hb.
  - destruct HQ as (Hcom & e & Hes & Hb). split; [|exact Hcom]. unfold Which, errorText. rewrite Hb.
    destruct (Herr e Hes) as [_ ->]. by rewrite bool_decide_true.
Qed.
(** A session's set on such a leader. *)
Lemma Set_run s key value m c ts index rest :
  ready s c -> committing (cnode c) ts index rest -> unreserved key -> blen key + 4 + blen value < 2 ^ 32 ->
  NewSet key value = Ret m -> encodable (Body m) ->
  exists c', Session_Set s key value c = (c', Ret tt) /\ committed (nstore (cnode c')) = <[key := value]> (committed (nstore (cnode c))).
Proof.
  intros Hr [Hl Hh Hp Hc] Hu Hsize Hm He. assert (Body m = E_set (Ok key) (Ok value) /\ Signature m = Ok []) as [HB Hsg].
  { unfold NewSet in Hm. destruct (checkValueSize value); [|done..]. by injection Hm as <-. }
  unfold Session_Set, acknowledged, request. unfold mbind, C_bind, liftC, wrapC. rewrite Hm. cbn [wrap_err].
  destruct (call_run s m c (fun n' e => e = Body m /\ committed (nstore n') = <[key := value]> (committed (nstore (cnode c)))) [])
    as (c' & r & -> & (Hb & Hcom) & _); [done|done|done| |].
  { intros m' HB'. rewrite HB in HB'. destruct (set_dispatched m' key value localCaller (cnode c) ts index rest) as (n1 & Ed & Hcom & _); [done..|].
    unfold settled. rewrite Ed. exists n1, m'. rewrite HB, HB'. split; [done|]. split; [done|]. rewrite <- HB. split; [done|]. eauto. }
  cbn [wrap_err]. unfold respErr, Which. rewrite Hb, HB. cbn. eexists. split; [done|]. exact Hcom.
Qed.
End Session.

(** The window of a list: in that order, without the first [skip], at most [limit] if
    it is positive. *)
Definition window {A : Type} (limit skip : Z) (descending : bool) (l : list A) : list A :=
  let l := drop (Z.to_nat skip) (if descending then reverse l else l) in
  if 0 <? limit then take (Z.to_nat limit) l else l.

Lemma window_cut {A : Type} limit skip (l : list A) :
  0 <= limit -> 0 <= skip ->
  (if blen l <=? skip then [] else
   let l := drop (Z.to_nat skip) l in if (0 <? limit) && (limit <? blen l) then take (Z.to_nat limit) l else l)
  = window limit skip false l.
Proof.
  intros Hl Hs. unfold window, blen. cbv zeta. destruct (Z.leb_spec (Z.of_nat (length l)) skip).
  - rewrite drop_ge by lia. by destruct (0 <? limit); rewrite ?take_nil.
  - destruct (Z.ltb_spec 0 limit); [cbn [andb]|done]. destruct (Z.ltb_spec limit (Z.of_nat (length (drop (Z.to_nat skip) l)))); [done|].
    by rewrite take_ge by lia.
Qed.

(** Reading no more than enough does not change the window. *)
Lemma window_enough {A : Type} limit skip (l : list A) :
  0 < limit < 2 ^ 63 -> 0 <= skip < 2 ^ 63 ->
  window limit skip false (stillWanted (s64 (u64 (skip + limit))) 0 l) = window limit skip false l.
Proof.
  intros Hl Hs. unfold stillWanted. destruct (Z.ltb_spec 0 (s64 (u64 (skip + limit)))) as [Hp|]; [|done].
  assert (s64 (u64 (skip + limit)) = skip + limit) as ->.
  { revert Hp. unfold s64, u64. rewrite Z.mod_small by lia. destruct (Z.ltb_spec (skip + limit) (2 ^ 63)); lia. }
  unfold window. destruct (Z.ltb_spec 0 limit); [|lia]. rewrite Z.sub_0_r, !firstn_skipn_comm.
  replace (Z.to_nat (skip + limit)) with (Z.to_nat skip + Z.to_nat limit)%nat by lia. by rewrite take_take, Nat.min_id.
Qed.

(** C15 The transport implements the client's atomic calls: any sequence of answered
    calls in which no call has the id of the one before it is a run of the
    shared-memory protocol against the same node, in which every call returns
    the same response and which leaves the node in the same state. *)
Theorem transport_implements_calls `{Env} (HW : WireCodec) (l : list (Msg * option bytes)) (c c' : client) (resps : list Msg) (st : system) :
  idle st -> theNode st = cnode c -> lastID st = fst <$> clast c -> cfates c = [] -> changing (lastID st) l -> calls l c = (c', Ret resps) ->
  exists st', ipcRun localHandler (concat (map (fun p => undisturbed p.1 p.2) l)) st = Some st' /\ idle st' /\ theNode st' = cnode c' /\
    outcomes st' = outcomes st ++ zip_with (fun p resp => (p.1, Ret resp)) l resps.
Proof.
  revert c resps st. induction l as [|[m priv] l IH]; intros c resps st Hi Hn Hlast Hf Hc Hcalls.
  { injection Hcalls as <- <-. exists st. split; [done|]. split; [done|]. split; [done|]. by rewrite app_nil_r. }
  destruct Hc as [Hl Hc]. cbn [calls] in Hcalls. unfold mbind at 1, C_bind at 1 in Hcalls.
  destruct (Call m priv c) as [c1 [resp| |]] eqn:Ec; [|done..]. unfold mbind, C_bind in Hcalls.
  destruct (Call_implemented m priv c c1 resp st) as (st1 & Hr & Hi1 & Hn1 & Hf1 & Hl1 & Hlast1 & Ho1); [done..|]. rewrite <- Hl1 in Hc, Hlast1.
  destruct (calls l c1) as [c2 [resps'| |]] eqn:Er; [|done..]. injection Hcalls as <- <-.
  destruct (IH c1 resps' st1 Hi1 Hn1 (eq_sym Hlast1) Hf1 Hc Er) as (st2 & Hr2 & Hi2 & Hn2 & Ho2).
  exists st2. cbn [map concat zip_with fst snd]. rewrite (run_app _ _ _ _ _ Hr), Ho2, Ho1, <- app_assoc.
  split; [done|]. by split.
Qed.

Lemma ScanRange_run `{Env} (public_half : bytes -> bytes) (HW : WireCodec) (HK : NodeKeys public_half) (s : Session) (t : table)
    (start stop order : bytes) (limit skip : Z) (descending : bool) (c : client) :
  scanning s t c -> pagesFit t start stop -> (in_range start stop [] = true -> t !! [] = None) ->
  0 <= limit < 2 ^ 63 -> 0 <= skip < 2 ^ 63 -> rangeOrder order = Some descending ->
  exists c', Session_ScanRange s start stop limit skip order c = (c', Ret (window limit skip descending (select (in_range start stop) t))) /\
    scanning s t c'.
Proof.
  intros Hc Hp Hnil Hl Hs Ho. unfold Session_ScanRange. destruct (Z.ltb_spec limit 0), (Z.ltb_spec skip 0); try lia. rewrite Ho.
  set (enough := if negb descending && (0 <? limit) then s64 (u64 (skip + limit)) else 0).
  destruct (scanPairs_run public_half s t start stop enough (select (in_range start stop) t) (scanFuel c) start [] c) as (c' & Er & Hc');
    [done|done| |by left|done|done| |done|].
  { intros k v Hk ->. apply elem_of_select in Hk as [Hk Hr]. rewrite Hnil in Hk by done. done. }
  { unfold scanFuel. rewrite (sc_table _ _ _ Hc), length_select. pose proof (map_filter_subseteq (fun kv : row => Is_true (in_range start stop kv.1)) t) as Hsz.
    apply map_subseteq_size in Hsz. lia. }
  exists c'. split; [|done]. unfold mbind, C_bind, scanAll. rewrite Er. change (blen []) with 0. rewrite app_nil_l.
  set (pairs := if descending then reverse (stillWanted enough 0 _) else _).
  assert (window limit skip false pairs = window limit skip descending (select (in_range start stop) t)) as <-.
  { subst pairs enough. destruct descending; [done|]. cbn [negb andb]. destruct (Z.ltb_spec 0 limit); [|done]. apply window_enough; lia. }
  rewrite <- window_cut by lia. cbv zeta. by destruct (blen pairs <=? skip).
Qed.

(** C16 A scan returns its window: against a node that answers and holds the table [t], and
    as long as no request of the scan has the id of the request before it (ids are 16 random
    bits, and the node takes such a request for the one it has answered),
    [ScanRange] returns the rows between the two bounds, in the order asked for,
    without the first [skip] and at most [limit] of them (all if it is zero),
    although an ascending scan stops reading as soon as it has enough; and it
    leaves the node's table as it is.  A row under the empty key, which the
    library takes for the end of the range, is excluded, and the messages are taken to fit
    the wire format ([pagesFit]). *)
Theorem scan_range_window `{Env} (public_half : bytes -> bytes) (HW : WireCodec) (HK : NodeKeys public_half) (s : Session) (t : table)
    (start stop order : bytes) (limit skip : Z) (descending : bool) (c : client) :
  scanning s t c -> pagesFit t start stop -> (in_range start stop [] = true -> t !! [] = None) ->
  0 <= limit < 2 ^ 63 -> 0 <= skip < 2 ^ 63 -> rangeOrder order = Some descending ->
  exists c', Session_ScanRange s start stop limit skip order c = (c', Ret (window limit skip descending (select (in_range start stop) t))) /\
    scanning s t c'.
Proof. exact (ScanRange_run public_half HW HK s t start stop order limit skip descending c). Qed.

(** Compare and swap: against a leader whose next entry commits, [CompareAndSwap] on
    a key outside the reserved spaces reports true exactly when the key held the
    expected value (or, asked for absence, did not exist), and then the key holds
    the new value and nothing else has changed; otherwise it reports false,
    without an error, and nothing has changed. *)
Theorem compare_and_swap_swaps `{Env} (public_half : bytes -> bytes) (HW : WireCodec) (HK : NodeKeys public_half) (s : Session)
    (key expected value : bytes) (absent : bool) (m : Msg) (c : client) (ts index : Z) (rest : list apply_reply) :
  ready s c -> committing (cnode c) ts index rest ->
  unreserved key -> key <> [] -> blen key <= 0xFFFF -> blen expected <= 0xFFFF -> blen value <= 0xFFFF ->
  NewTxn [if absent then mkTxnOp TxnOpCompareAbsent key [] else mkTxnOp TxnOpCompare key expected; mkTxnOp TxnOpSet key value] = Ret m ->
  encodable (Body m) ->
  (forall e, errors_is e ErrCompareFailed = true -> encodable (E_error (Ok (Error e))) /\ Contains (Error e) CompareFailedMarker = true) ->
  let t := committed (nstore (cnode c)) in
  let holds := bool_decide (t !! key = if absent then None else Some expected) in
  exists c', Session_CompareAndSwap s key expected value absent c = (c', Ret holds) /\
    committed (nstore (cnode c')) = if holds then <[key := value]> t else t.
Proof.
  intros Hr Hc Hu Hk Hlk Hle Hlv Hm He Herr t holds. unfold Session_CompareAndSwap.
  set (ops := [_; mkTxnOp TxnOpSet key value]) in *.
  assert (forall o v, ValidTxnOp o = true -> blen v <= 0xFFFF -> takes (mkTxnOp o key v)) as Htk by (intros o v Ho Hv; split; [by split|split; [by split|exact Hu]]).
  destruct (Txn_run public_half s ops m c ts index rest) as (c' & -> & Hcom); [done..| | |done|done|].
  { subst ops. destruct absent; (apply Forall_cons; split; [by apply Htk|]; apply Forall_cons; split; [by apply Htk|]; done). }
  { intros payload Ep. assert (Forall op_fits ops) as Hfit
      by (subst ops; destruct absent; (apply Forall_cons; split; [by apply Htk|]; apply Forall_cons; split; [by apply Htk|]; done)).
    apply payload_size in Ep; [|done]. change (blen ops) with 2 in Ep. lia. }
  fold t in Hcom |- *.
  assert (bool_decide (Forall (fun op => compareHolds t op = true) ops) = holds) as Hh.
  { subst holds. apply bool_decide_ext. subst ops. rewrite !Forall_cons, Forall_nil. destruct absent.
    - change (compareHolds t (mkTxnOp TxnOpCompareAbsent key [])) with (bool_decide (t !! key = None)). rewrite bool_decide_eq_true. naive_solver.
    - change (compareHolds t (mkTxnOp TxnOpCompare key expected)) with (bool_decide (t !! key = Some expected)).
      rewrite bool_decide_eq_true. naive_solver. }
  rewrite Hh in Hcom |- *. exists c'. split; [by destruct holds|]. rewrite Hcom. destruct holds; [|done]. subst ops. by destruct absent.
Qed.
