(* ===== verification/Calendar.v ===== *)
(** The part of Go's package [time] the scheduler uses: instants as nanoseconds since
    1970-01-01 in UTC, durations, the proleptic Gregorian calendar, [time.Date]
    with its normalisation of months and days, zones and how [time.Date] chooses an
    instant in one, and the two text forms. *)

From S2P Require Import Prelude SystemKeys.
From stdpp Require Import pretty.
#[local] Open Scope Z_scope.

(** * Durations *)

Definition Second : Z := 1000000000.
Definition Minute : Z := 60 * Second.
Definition Hour : Z := 60 * Minute.
Definition Day : Z := 24 * Hour.

(** * Days and years *)

Definition isLeap (y : Z) : bool := (y mod 4 =? 0) && (negb (y mod 100 =? 0) || (y mod 400 =? 0)).

(** The leap years from 1 to [y]. *)
Definition leaps (y : Z) : Z := y / 4 - y / 100 + y / 400.

(** The day a year begins on, counted from 1970-01-01. *)
Definition yearStart (y : Z) : Z := 365 * (y - 1970) + leaps (y - 1) - 477.

(** An estimate that is at most one off, and the correction. *)
Definition yearOfDay (z : Z) : Z :=
  let y := 1970 + (z * 400) / 146097 in
  if z <? yearStart y then y - 1
  else if yearStart (y + 1) <=? z then y + 1
  else y.

Definition leapDay (leap : bool) : Z := if leap then 1 else 0.

(** The days of a year before its month [m]. *)
Definition daysBefore (leap : bool) (m : Z) : Z :=
  if m <=? 1 then 0 else if m =? 2 then 31 else
  leapDay leap +
  (if m =? 3 then 59 else if m =? 4 then 90 else if m =? 5 then 120 else if m =? 6 then 151 else if m =? 7 then 181
   else if m =? 8 then 212 else if m =? 9 then 243 else if m =? 10 then 273 else if m =? 11 then 304
   else if m =? 12 then 334 else 365).

(** The month of a day of the year, counted from zero. *)
Definition monthOfDay (leap : bool) (n : Z) : Z :=
  if n <? 31 then 1 else
  let n := n - leapDay leap in
  if n <? 59 then 2 else if n <? 90 then 3 else if n <? 120 then 4 else if n <? 151 then 5 else if n <? 181 then 6
  else if n <? 212 then 7 else if n <? 243 then 8 else if n <? 273 then 9 else if n <? 304 then 10
  else if n <? 334 then 11 else 12.

(** * Instants *)

Definition dayOf (t : Z) : Z := t / Day.
Definition yearDay (t : Z) : Z := dayOf t - yearStart (yearOfDay (dayOf t)).

Definition tYear (t : Z) : Z := yearOfDay (dayOf t).
Definition tMonth (t : Z) : Z := monthOfDay (isLeap (tYear t)) (yearDay t).
Definition tDay (t : Z) : Z := yearDay t - daysBefore (isLeap (tYear t)) (tMonth t) + 1.
Definition tHour (t : Z) : Z := t mod Day / Hour.
Definition tMinute (t : Z) : Z := t mod Hour / Minute.
Definition tSecond (t : Z) : Z := t mod Minute / Second.

(** [time.Sunday] is zero; 1970-01-01 was a Thursday. *)
Definition tWeekday (t : Z) : Z := (dayOf t + 4) mod 7.

(** [time.Date] in UTC: the month is normalised, then days, hours, minutes and seconds are
    added up. *)
Definition dateDay (year month day : Z) : Z :=
  let y := year + (month - 1) / 12 in
  yearStart y + daysBefore (isLeap y) ((month - 1) mod 12 + 1) + (day - 1).

Definition tDate (year month day hour minute second : Z) : Z :=
  dateDay year month day * Day + hour * Hour + minute * Minute + second * Second.

(** [AddDate] *)
Definition AddDate (t years months days : Z) : Z :=
  tDate (tYear t + years) (tMonth t + months) (tDay t + days) 0 0 0 + t mod Day.

(** * Facts *)

Lemma yearStart_next y : yearStart (y + 1) = yearStart y + 365 + leapDay (isLeap y).
Proof.
  unfold yearStart, leaps, isLeap, leapDay. replace (y + 1 - 1) with y by lia.
  destruct (Z.eqb_spec (y mod 4) 0), (Z.eqb_spec (y mod 100) 0), (Z.eqb_spec (y mod 400) 0); cbn [negb andb orb]; Z.div_mod_to_equations; lia.
Qed.

Lemma leapDay_range b : 0 <= leapDay b <= 1.
Proof. destruct b; cbn; lia. Qed.

Lemma yearStart_le y y' : y <= y' -> yearStart y <= yearStart y'.
Proof.
  intros Hle. pattern y'. apply Z.right_induction with (z := y); [solve_proper|lia| |done].
  intros n Hn IH. rewrite <- Z.add_1_r, yearStart_next. pose proof (leapDay_range (isLeap n)). lia.
Qed.

Lemma yearStart_lt y y' : y < y' -> yearStart y + 365 <= yearStart y'.
Proof.
  intros Hlt. pose proof (yearStart_le (y + 1) y' ltac:(lia)). rewrite yearStart_next in *.
  pose proof (leapDay_range (isLeap y)). lia.
Qed.

Lemma yearOfDay_spec z : yearStart (yearOfDay z) <= z < yearStart (yearOfDay z + 1).
Proof.
  unfold yearOfDay. set (y := 1970 + z * 400 / 146097).
  assert (yearStart (y - 1) <= z < yearStart (y + 2)) as Hy.
  { subst y. unfold yearStart, leaps. Z.div_mod_to_equations. lia. }
  destruct (Z.ltb_spec z (yearStart y)); [replace (y - 1 + 1) with y by lia; lia|].
  destruct (Z.leb_spec (yearStart (y + 1)) z); [replace (y + 1 + 1) with (y + 2) by lia; lia|lia].
Qed.

Lemma yearOfDay_unique y z : yearStart y <= z < yearStart (y + 1) -> yearOfDay z = y.
Proof.
  intros Hz. pose proof (yearOfDay_spec z) as Hs. destruct (Z.lt_trichotomy (yearOfDay z) y) as [Hlt|[?|Hgt]]; [|done|].
  - pose proof (yearStart_le (yearOfDay z + 1) y ltac:(lia)). lia.
  - pose proof (yearStart_le (y + 1) (yearOfDay z) ltac:(lia)). lia.
Qed.

(** Evaluates the table of months at concrete months. *)
Ltac days :=
  repeat match goal with
  | |- context [daysBefore ?b ?m] => let v := eval vm_compute in (daysBefore b m) in change (daysBefore b m) with v
  | H : context [daysBefore ?b ?m] |- _ => let v := eval vm_compute in (daysBefore b m) in change (daysBefore b m) with v in H
  end.

(** Within the months of a year. *)
Lemma monthOfDay_spec leap n :
  0 <= n < 365 + leapDay leap ->
  1 <= monthOfDay leap n <= 12 /\ daysBefore leap (monthOfDay leap n) <= n < daysBefore leap (monthOfDay leap n + 1).
Proof.
  unfold monthOfDay. cbv zeta. destruct leap; cbn [leapDay]; intros Hn;
    repeat (match goal with |- context [if ?a <? ?b then _ else _] => destruct (Z.ltb_spec a b) end; [days; lia|]); days; lia.
Qed.

Lemma daysBefore_le leap m m' : 1 <= m <= m' -> daysBefore leap m <= daysBefore leap m'.
Proof. intros. unfold daysBefore. destruct leap; cbn [leapDay]; repeat case_match; lia. Qed.

Lemma daysBefore_1 leap : daysBefore leap 1 = 0.
Proof. done. Qed.
Lemma daysBefore_13 leap : daysBefore leap 13 = 365 + leapDay leap.
Proof. by destruct leap. Qed.

Lemma monthOfDay_unique leap m n :
  1 <= m <= 12 -> daysBefore leap m <= n < daysBefore leap (m + 1) -> monthOfDay leap n = m.
Proof.
  intros Hm Hn. assert (0 <= n < 365 + leapDay leap) as Hr.
  { pose proof (daysBefore_le leap 1 m ltac:(lia)). pose proof (daysBefore_le leap (m + 1) 13 ltac:(lia)).
    rewrite ?daysBefore_1, ?daysBefore_13 in *. lia. }
  destruct (monthOfDay_spec leap n Hr) as [Hk Hkn].
  destruct (Z.lt_trichotomy (monthOfDay leap n) m) as [Hlt|[?|Hgt]]; [|done|].
  - pose proof (daysBefore_le leap (monthOfDay leap n + 1) m ltac:(lia)). lia.
  - pose proof (daysBefore_le leap (m + 1) (monthOfDay leap n) ltac:(lia)). lia.
Qed.

(** The month and the day of an instant are those of a calendar. *)
Lemma yearDay_range t : 0 <= yearDay t < 365 + leapDay (isLeap (tYear t)).
Proof.
  unfold yearDay, tYear. pose proof (yearOfDay_spec (dayOf t)) as Hs. rewrite yearStart_next in Hs. lia.
Qed.

Lemma tMonth_range t : 1 <= tMonth t <= 12.
Proof. apply monthOfDay_spec, yearDay_range. Qed.

Lemma tDay_range t : 1 <= tDay t <= daysBefore (isLeap (tYear t)) (tMonth t + 1) - daysBefore (isLeap (tYear t)) (tMonth t).
Proof. unfold tDay. destruct (monthOfDay_spec _ _ (yearDay_range t)) as [_ Hs]. fold (tMonth t) in Hs. lia. Qed.

Lemma daysIn_31 leap m : 1 <= m <= 12 -> daysBefore leap (m + 1) - daysBefore leap m <= 31.
Proof.
  intros Hm. assert (m = 1 \/ m = 2 \/ m = 3 \/ m = 4 \/ m = 5 \/ m = 6 \/ m = 7 \/ m = 8 \/ m = 9 \/ m = 10 \/ m = 11 \/ m = 12) as Hc by lia.
  repeat (destruct Hc as [->|Hc]); try subst m; destruct leap; days; lia.
Qed.

Lemma tHour_range t : 0 <= tHour t < 24.
Proof. unfold tHour. assert (0 < Hour) by done. unfold Day. Z.div_mod_to_equations. nia. Qed.

Lemma tMinute_range t : 0 <= tMinute t < 60.
Proof. unfold tMinute. assert (0 < Minute) by done. unfold Hour. Z.div_mod_to_equations. nia. Qed.

(** [Date] of the fields of an instant is the beginning of its day, hour or minute. *)
Lemma dateDay_fields t : dateDay (tYear t) (tMonth t) (tDay t) = dayOf t.
Proof.
  unfold dateDay. pose proof (tMonth_range t). rewrite Z.div_small, Z.mod_small, Z.add_0_r by lia.
  replace (tMonth t - 1 + 1) with (tMonth t) by lia. unfold tDay, yearDay, tYear. lia.
Qed.

Lemma dateDay_shift y m d k : dateDay y m (d + k) = dateDay y m d + k.
Proof. unfold dateDay. lia. Qed.

(** Read back the fields of a day. *)
Lemma fields_of_date y m d t :
  1 <= m <= 12 -> 1 <= d <= daysBefore (isLeap y) (m + 1) - daysBefore (isLeap y) m -> dayOf t = dateDay y m d ->
  tYear t = y /\ tMonth t = m /\ tDay t = d.
Proof.
  intros Hm Hd Ht. unfold dateDay in Ht. rewrite Z.div_small, Z.mod_small, Z.add_0_r in Ht by lia. replace (m - 1 + 1) with m in Ht by lia.
  pose proof (daysBefore_le (isLeap y) 1 m ltac:(lia)) as H1. rewrite daysBefore_1 in H1.
  pose proof (daysBefore_le (isLeap y) (m + 1) 13 ltac:(lia)) as H13.
  rewrite daysBefore_13 in H13.
  assert (tYear t = y) as Ey by (unfold tYear; apply yearOfDay_unique; rewrite yearStart_next; lia).
  assert (yearDay t = daysBefore (isLeap y) m + (d - 1)) as En by (unfold yearDay; fold (tYear t); rewrite Ey; lia).
  assert (tMonth t = m) as Em by (unfold tMonth; rewrite Ey; apply monthOfDay_unique; lia).
  split_and!; [done..|]. unfold tDay. rewrite Em, Ey, En. lia.
Qed.

(** The first day of the month after that of [t]. *)
Definition nextMonthDay (t : Z) : Z := dateDay (tYear t) (tMonth t + 1) 1.

Lemma nextMonthDay_spec t :
  nextMonthDay t = yearStart (tYear t) + daysBefore (isLeap (tYear t)) (tMonth t + 1).
Proof.
  unfold nextMonthDay, dateDay. pose proof (tMonth_range t). destruct (Z.eqb_spec (tMonth t) 12) as [E|].
  - rewrite E. change ((12 + 1 - 1) / 12) with 1. change ((12 + 1 - 1) mod 12 + 1) with 1. rewrite yearStart_next.
    rewrite daysBefore_1. replace (12 + 1) with 13 by done. rewrite daysBefore_13. lia.
  - rewrite Z.div_small, Z.mod_small, !Z.add_0_r by lia. replace (tMonth t + 1 - 1 + 1) with (tMonth t + 1) by lia. lia.
Qed.

(** Until then the year and the month stay. *)
Lemma same_month t t' :
  dayOf t <= dayOf t' < nextMonthDay t -> tYear t' = tYear t /\ tMonth t' = tMonth t.
Proof.
  rewrite nextMonthDay_spec. intros Ht. pose proof (tMonth_range t). pose proof (tDay_range t).
  set (d := dayOf t' - yearStart (tYear t) - daysBefore (isLeap (tYear t)) (tMonth t) + 1).
  assert (dayOf t' = dateDay (tYear t) (tMonth t) d) as E.
  { unfold dateDay. rewrite Z.div_small, Z.mod_small, Z.add_0_r by lia. replace (tMonth t - 1 + 1) with (tMonth t) by lia. subst d. lia. }
  assert (dayOf t = yearStart (tYear t) + daysBefore (isLeap (tYear t)) (tMonth t) + (tDay t - 1)) as Et
    by (unfold tDay, yearDay, tYear; lia).
  destruct (fields_of_date (tYear t) (tMonth t) d t') as (? & ? & _); [lia|subst d; lia|done|]. done.
Qed.

Lemma nextMonthDay_later t : dayOf t < nextMonthDay t.
Proof.
  rewrite nextMonthDay_spec. destruct (monthOfDay_spec _ _ (yearDay_range t)) as [_ Hs]. fold (tMonth t) in Hs. unfold yearDay in Hs.
  fold (tYear t) in Hs. lia.
Qed.

(** * Rolling forward *)

(** The beginning of the month, the day, the hour and the minute after [t], as
    [time.Date], [AddDate] and [Add] make it in UTC. *)
Definition rollMonth (t : Z) : Z := AddDate (tDate (tYear t) (tMonth t) 1 0 0 0) 0 1 0.
Definition rollDay (t : Z) : Z := AddDate (tDate (tYear t) (tMonth t) (tDay t) 0 0 0) 0 0 1.
Definition rollHour (t : Z) : Z := tDate (tYear t) (tMonth t) (tDay t) (tHour t) 0 0 + Hour.
Definition rollMinute (t : Z) : Z := tDate (tYear t) (tMonth t) (tDay t) (tHour t) (tMinute t) 0 + Minute.

Lemma Day_pos : 0 < Day.
Proof. done. Qed.
#[local] Hint Resolve Day_pos : core.

Lemma dayOf_mul z : dayOf (z * Day) = z.
Proof. unfold dayOf. by rewrite Z.div_mul. Qed.

Lemma tDate_midnight y m d : tDate y m d 0 0 0 = dateDay y m d * Day.
Proof. unfold tDate. lia. Qed.

Lemma AddDate_midnight z years months days :
  AddDate (z * Day) years months days = dateDay (tYear (z * Day) + years) (tMonth (z * Day) + months) (tDay (z * Day) + days) * Day.
Proof. unfold AddDate. rewrite Z.mod_mul by done. rewrite tDate_midnight. lia. Qed.

Lemma rollMonth_spec t : rollMonth t = nextMonthDay t * Day.
Proof.
  unfold rollMonth. rewrite tDate_midnight, AddDate_midnight. pose proof (tMonth_range t) as Hm.
  destruct (fields_of_date (tYear t) (tMonth t) 1 (dateDay (tYear t) (tMonth t) 1 * Day)) as (-> & -> & ->);
    [done| |by rewrite dayOf_mul|]; [pose proof (tDay_range t); lia|].
  unfold nextMonthDay. by rewrite !Z.add_0_r.
Qed.

Lemma rollDay_spec t : rollDay t = (dayOf t + 1) * Day.
Proof.
  unfold rollDay. rewrite tDate_midnight, dateDay_fields, AddDate_midnight, !Z.add_0_r, dateDay_shift.
  by rewrite dateDay_fields, dayOf_mul.
Qed.

Lemma div_parts t k u : 0 < k -> 0 < u -> t / (k * u) * (k * u) + t mod (k * u) / u * u = t / u * u.
Proof.
  intros Hk Hu. pose proof (Z.div_mod t (k * u) ltac:(nia)) as E. set (q := t / (k * u)) in *. set (r := t mod (k * u)) in *.
  replace t with (q * k * u + r) by nia. rewrite Z.div_add_l by lia. lia.
Qed.

Lemma day_hour t : dayOf t * Day + tHour t * Hour = t / Hour * Hour.
Proof. by apply (div_parts t 24 Hour). Qed.

Lemma hour_minute t : t / Hour * Hour + tMinute t * Minute = t / Minute * Minute.
Proof. by apply (div_parts t 60 Minute). Qed.

Lemma rollHour_spec t : rollHour t = (t / Hour + 1) * Hour.
Proof. unfold rollHour, tDate. rewrite dateDay_fields. pose proof (day_hour t). lia. Qed.

Lemma rollMinute_spec t : rollMinute t = (t / Minute + 1) * Minute.
Proof. unfold rollMinute, tDate. rewrite dateDay_fields. pose proof (day_hour t). pose proof (hour_minute t). lia. Qed.

(** * Zones *)

(** What [lookup] of a [time.Location] tells of a second: the offset in seconds east of UTC, and
    the first second it holds from and the first it does not hold any more. *)
Record Location : Type := mkLocation { zoneAt : Z -> Z * Z * Z }.

Definition UTC : Location := mkLocation (fun _ => (0, - 2 ^ 63, 2 ^ 63 - 1)).

Definition offsetAt (l : Location) (sec : Z) : Z := (zoneAt l sec).1.1.

(** What the clocks of a zone read at [t], as the instant they read this at in UTC: the
    fields of [t] in the zone are those of [wall l t]. *)
Definition wall (l : Location) (t : Z) : Z := t + offsetAt l (t / Second) * Second.

(** [time.Date] in a zone, of the fields of [w]: the zone is asked for its offset as if
    they were of UTC, and once more if that offset leads out of the time it holds for. *)
Definition dateIn (l : Location) (w : Z) : Z :=
  let unix := w / Second in
  let '(offset, from, until) := zoneAt l unix in
  if offset =? 0 then w else
  let utc := unix - offset in
  let offset := if (utc <? from) || (until <=? utc) then offsetAt l utc else offset in
  w - offset * Second.

Definition AddDateIn (l : Location) (t years months days : Z) : Z := dateIn l (AddDate (wall l t) years months days).

(** The four steps of the search, in a zone. *)
Definition rollMonthIn (l : Location) (t : Z) : Z :=
  let w := wall l t in AddDateIn l (dateIn l (tDate (tYear w) (tMonth w) 1 0 0 0)) 0 1 0.
Definition rollDayIn (l : Location) (t : Z) : Z :=
  let w := wall l t in AddDateIn l (dateIn l (tDate (tYear w) (tMonth w) (tDay w) 0 0 0)) 0 0 1.
Definition rollHourIn (l : Location) (t : Z) : Z :=
  let w := wall l t in dateIn l (tDate (tYear w) (tMonth w) (tDay w) (tHour w) 0 0) + Hour.
Definition rollMinuteIn (l : Location) (t : Z) : Z :=
  let w := wall l t in dateIn l (tDate (tYear w) (tMonth w) (tDay w) (tHour w) (tMinute w) 0) + Minute.

(** A zone that keeps one offset, of whole minutes: UTC, and the zones without summer time. *)
Definition steady (l : Location) (o : Z) : Prop := forall sec, offsetAt l sec = o * 60.

Section Steady.
Context (l : Location) (o : Z) (Hl : steady l o).

Lemma wall_steady t : wall l t = t + o * Minute.
Proof. unfold wall, Minute. rewrite Hl. lia. Qed.

Lemma dateIn_steady w : dateIn l w = w - o * Minute.
Proof.
  unfold dateIn, Minute. pose proof (Hl (w / Second)) as Eo. unfold offsetAt in Eo.
  destruct (zoneAt l (w / Second)) as [[off from] until]. cbn [fst] in Eo. subst off.
  destruct (Z.eqb_spec (o * 60) 0) as [E0|]; [|rewrite Hl; destruct (_ || _); lia].
  replace o with 0 by lia. lia.
Qed.

Lemma rollMonth_steady t : rollMonthIn l t = rollMonth (wall l t) - o * Minute.
Proof. unfold rollMonthIn, AddDateIn, rollMonth. rewrite !dateIn_steady, (wall_steady (_ - _)). by replace (_ - _ + _) with (tDate (tYear (wall l t)) (tMonth (wall l t)) 1 0 0 0) by lia. Qed.

Lemma rollDay_steady t : rollDayIn l t = rollDay (wall l t) - o * Minute.
Proof. unfold rollDayIn, AddDateIn, rollDay. rewrite !dateIn_steady, (wall_steady (_ - _)). by replace (_ - _ + _) with (tDate (tYear (wall l t)) (tMonth (wall l t)) (tDay (wall l t)) 0 0 0) by lia. Qed.

Lemma rollHour_steady t : rollHourIn l t = rollHour (wall l t) - o * Minute.
Proof. unfold rollHourIn, rollHour. rewrite dateIn_steady. lia. Qed.

Lemma rollMinute_steady t : rollMinuteIn l t = rollMinute (wall l t) - o * Minute.
Proof. unfold rollMinuteIn, rollMinute. rewrite dateIn_steady. lia. Qed.

Lemma AddDate_steady t y m d : AddDateIn l t y m d = AddDate (wall l t) y m d - o * Minute.
Proof. apply dateIn_steady. Qed.
End Steady.

Lemma UTC_steady : steady UTC 0.
Proof. done. Qed.

(** * Text *)

Definition digit (d : Z) : byte := byte_of_Z (0x30 + d).

(** The last [w] decimal digits. *)
Fixpoint fixed (w : nat) (u : Z) : bytes :=
  match w with
  | O => []
  | S w' => fixed w' (u / 10) ++ [digit (u mod 10)]
  end.

(** [appendInt]: at least [w] digits. *)
Definition appendInt (w : nat) (z : Z) : bytes :=
  (if z <? 0 then bs "-" else []) ++
  (if Z.abs z <? 10 ^ Z.of_nat w then fixed w (Z.abs z) else bs (pretty (Z.to_N (Z.abs z)))).

(** [Format] with the layouts "20060102T1504Z" and [time.RFC3339], in UTC. *)
Definition formatMinute (t : Z) : bytes :=
  appendInt 4 (tYear t) ++ fixed 2 (tMonth t) ++ fixed 2 (tDay t) ++ bs "T" ++ fixed 2 (tHour t) ++ fixed 2 (tMinute t) ++ bs "Z".
Definition formatRFC3339 (t : Z) : bytes :=
  appendInt 4 (tYear t) ++ bs "-" ++ fixed 2 (tMonth t) ++ bs "-" ++ fixed 2 (tDay t) ++ bs "T" ++
  fixed 2 (tHour t) ++ bs ":" ++ fixed 2 (tMinute t) ++ bs ":" ++ fixed 2 (tSecond t) ++ bs "Z".

(** A number of exactly [w] digits, and what follows. *)
Fixpoint readDigits (w : nat) (acc : Z) (s : bytes) : option (Z * bytes) :=
  match w, s with
  | O, _ => Some (acc, s)
  | S w', c :: s' =>
    let d := byte_to_Z c - 0x30 in
    if (0 <=? d) && (d <=? 9) then readDigits w' (acc * 10 + d) s' else None
  | S _, [] => None
  end.

Definition readLit (l : byte) (s : bytes) : option bytes :=
  match s with
  | c :: s' => if byte_eqb c l then Some s' else None
  | [] => None
  end.

(** The checks [Parse] ends with. *)
Definition checkedDate (y m d h mi sec : Z) : option Z :=
  if (1 <=? m) && (m <=? 12) && (1 <=? d) && (d <=? daysBefore (isLeap y) (m + 1) - daysBefore (isLeap y) m)
     && (h <=? 23) && (mi <=? 59) && (sec <=? 59)
  then Some (tDate y m d h mi sec) else None.

(** [Parse] with the layout "20060102T1504Z". *)
Definition parseMinute (s : bytes) : option Z :=
  '(y, s) ← readDigits 4 0 s; '(m, s) ← readDigits 2 0 s; '(d, s) ← readDigits 2 0 s; s ← readLit Byte.x54 s;
  '(h, s) ← readDigits 2 0 s; '(mi, s) ← readDigits 2 0 s; s ← readLit Byte.x5a s;
  match s with [] => checkedDate y m d h mi 0 | _ => None end.

(** One or two digits. *)
Definition readHour (s : bytes) : option (Z * bytes) :=
  match readDigits 2 0 s with
  | Some r => Some r
  | None => readDigits 1 0 s
  end.

Definition isDigit (c : byte) : bool := (0x30 <=? byte_to_Z c) && (byte_to_Z c <=? 0x39).

(** A fraction of a second: digits after a point or a comma, the first nine of which
    count; [unit] is the weight of the next one. *)
Fixpoint readFraction (unit acc : Z) (s : bytes) : Z * bytes :=
  match s with
  | c :: s' => if isDigit c then readFraction (unit / 10) (acc + (byte_to_Z c - 0x30) * unit) s' else (acc, s)
  | [] => (acc, [])
  end.
Definition optFraction (s : bytes) : Z * bytes :=
  match s with
  | p :: (c :: _) as s' => if (byte_eqb p Byte.x2e || byte_eqb p Byte.x2c) && isDigit c then readFraction (Second / 10) 0 s' else (0, s)
  | _ => (0, s)
  end.

(** [Z] or an offset, as a duration. *)
Definition readZone (s : bytes) : option (Z * bytes) :=
  match readLit Byte.x5a s with
  | Some s => Some (0, s)
  | None =>
    match s with
    | sign :: s =>
      '(h, s) ← readDigits 2 0 s; s ← readLit Byte.x3a s; '(mi, s) ← readDigits 2 0 s;
      if (24 <? h) || (60 <? mi) then None else
      let offset := h * Hour + mi * Minute in
      if byte_eqb sign Byte.x2b then Some (offset, s) else if byte_eqb sign Byte.x2d then Some (- offset, s) else None
    | [] => None
    end
  end.

(** [Parse] with [time.RFC3339] *)
Definition parseRFC3339 (s : bytes) : option Z :=
  '(y, s) ← readDigits 4 0 s; s ← readLit Byte.x2d s; '(m, s) ← readDigits 2 0 s; s ← readLit Byte.x2d s;
  '(d, s) ← readDigits 2 0 s; s ← readLit Byte.x54 s; '(h, s) ← readHour s; s ← readLit Byte.x3a s;
  '(mi, s) ← readDigits 2 0 s; s ← readLit Byte.x3a s; '(sec, s) ← readDigits 2 0 s;
  let '(frac, s) := optFraction s in
  '(offset, s) ← readZone s;
  match s with [] => t ← checkedDate y m d h mi sec; Some (t + frac - offset) | _ => None end.

Lemma readDigits_app w w' acc s s' r :
  readDigits w acc s = Some (r, []) -> readDigits (w + w') acc (s ++ s') = readDigits w' r s'.
Proof.
  revert acc s. induction w as [|w IH]; intros acc s; cbn [readDigits].
  - by intros [= -> ->].
  - destruct s as [|c s]; [done|]. cbn [app plus readDigits]. destruct (_ && _); [apply IH|done].
Qed.

Lemma readDigits_fixed w u rest : 0 <= u < 10 ^ Z.of_nat w -> readDigits w 0 (fixed w u ++ rest) = Some (u, rest).
Proof.
  revert u rest. induction w as [|w IH]; intros u rest Hu.
  { cbn in Hu. by replace u with 0 by lia. }
  rewrite Nat2Z.inj_succ, Z.pow_succ_r in Hu by lia. cbn [fixed]. rewrite <- app_assoc. replace (S w) with (w + 1)%nat by lia.
  assert (0 <= u / 10 < 10 ^ Z.of_nat w) as Hq by (Z.div_mod_to_equations; lia).
  specialize (IH (u / 10) [] Hq). rewrite app_nil_r in IH. rewrite (readDigits_app w 1 0 _ _ _ IH). cbn [readDigits app].
  unfold digit. pose proof (Z.mod_pos_bound u 10 ltac:(lia)) as Hm. rewrite byte_to_of_Z, (Z.mod_small (0x30 + u mod 10) 256) by lia.
  replace (0x30 + u mod 10 - 0x30) with (u mod 10) by lia.
  destruct (Z.leb_spec 0 (u mod 10)), (Z.leb_spec (u mod 10) 9); try lia. cbn [andb].
  f_equal. f_equal. Z.div_mod_to_equations. lia.
Qed.

Lemma digit_value d : 0 <= d <= 9 -> byte_to_Z (digit d) = 0x30 + d.
Proof. intros Hd. unfold digit. rewrite byte_to_of_Z, Z.mod_small by lia. done. Qed.

Lemma fixed_digits w u : Forall (fun c => 0x30 <= byte_to_Z c <= 0x39) (fixed w u).
Proof.
  revert u. induction w as [|w IH]; intros u; cbn [fixed]; [constructor|]. apply Forall_app. split; [apply IH|].
  constructor; [|constructor]. rewrite digit_value; pose proof (Z.mod_pos_bound u 10 ltac:(lia)); lia.
Qed.

Lemma tSecond_range t : 0 <= tSecond t < 60.
Proof. unfold tSecond. assert (0 < Second) by done. unfold Minute. Z.div_mod_to_equations. nia. Qed.

Lemma minute_second t : t / Minute * Minute + tSecond t * Second = t / Second * Second.
Proof. by apply (div_parts t 60 Second). Qed.

(** The fields of an instant pass the checks. *)
Lemma checkedDate_fields t sec :
  0 <= sec <= 59 -> checkedDate (tYear t) (tMonth t) (tDay t) (tHour t) (tMinute t) sec = Some (t / Minute * Minute + sec * Second).
Proof.
  intros Hs. unfold checkedDate. pose proof (tMonth_range t). pose proof (tDay_range t). pose proof (tHour_range t). pose proof (tMinute_range t).
  repeat (match goal with |- context [?a <=? ?b] => destruct (Z.leb_spec a b); [|lia] end; cbn [andb]).
  f_equal. unfold tDate. rewrite dateDay_fields. pose proof (day_hour t). pose proof (hour_minute t). lia.
Qed.

(** In the years Go writes with four digits, both forms read back, to the minute and to the second. *)
Definition fourDigits (t : Z) : Prop := 0 <= tYear t <= 9999.

Lemma readLit_self l s : readLit l (l :: s) = Some s.
Proof. cbn. by rewrite byte_eqb_refl. Qed.

Ltac read_text :=
  change (bs "T") with [Byte.x54]; change (bs "Z") with [Byte.x5a]; change (bs "-") with [Byte.x2d]; change (bs ":") with [Byte.x3a];
  cbn [app];
  repeat first [rewrite readDigits_fixed by (cbn; lia) | rewrite readLit_self | progress cbn [mbind option_bind]].

Lemma appendInt_fixed w z : 0 <= z < 10 ^ Z.of_nat w -> appendInt w z = fixed w z.
Proof. intros Hz. unfold appendInt. rewrite Z.abs_eq by lia. destruct (Z.ltb_spec z 0), (Z.ltb_spec z (10 ^ Z.of_nat w)); (done || lia). Qed.

Lemma minute_roundtrip t : fourDigits t -> parseMinute (formatMinute t) = Some (t / Minute * Minute).
Proof.
  intros Hy. unfold fourDigits in Hy. pose proof (tMonth_range t). pose proof (tDay_range t). pose proof (tHour_range t).
  pose proof (tMinute_range t). pose proof (daysIn_31 (isLeap (tYear t)) (tMonth t) ltac:(lia)).
  unfold parseMinute, formatMinute. rewrite appendInt_fixed by (cbn; lia).
  read_text. rewrite checkedDate_fields by lia. f_equal. lia.
Qed.

Lemma rfc3339_roundtrip t : fourDigits t -> parseRFC3339 (formatRFC3339 t) = Some (t / Second * Second).
Proof.
  intros Hy. unfold fourDigits in Hy. pose proof (tMonth_range t). pose proof (tDay_range t). pose proof (tHour_range t).
  pose proof (tMinute_range t). pose proof (tSecond_range t). pose proof (daysIn_31 (isLeap (tYear t)) (tMonth t) ltac:(lia)).
  unfold parseRFC3339, formatRFC3339. rewrite appendInt_fixed by (cbn; lia).
  unfold readHour. read_text. cbn [optFraction]. unfold readZone. read_text. rewrite checkedDate_fields by lia. cbn. f_equal. pose proof (minute_second t). lia.
Qed.

Lemma tYear_mono t t' : t <= t' -> tYear t <= tYear t'.
Proof.
  intros Ht. unfold tYear. assert (dayOf t <= dayOf t') as Hd by (by apply Z.div_le_mono; [apply Day_pos|]).
  pose proof (yearOfDay_spec (dayOf t)). pose proof (yearOfDay_spec (dayOf t')).
  destruct (Z.le_gt_cases (yearOfDay (dayOf t)) (yearOfDay (dayOf t'))) as [|Hlt]; [done|].
  pose proof (yearStart_le (yearOfDay (dayOf t') + 1) (yearOfDay (dayOf t)) ltac:(lia)). lia.
Qed.

Lemma fourDigits_between a b t : fourDigits a -> fourDigits b -> a <= t <= b -> fourDigits t.
Proof.
  unfold fourDigits. intros Ha Hb [H1 H2]. pose proof (tYear_mono a t H1). pose proof (tYear_mono t b H2). lia.
Qed.

(** Five years on is at least five times 365 days on. *)
Lemma daysBefore_leap leap leap' m : 1 <= m <= 12 -> daysBefore leap m - leapDay leap <= daysBefore leap' m.
Proof. intros Hm. assert (m = 1 \/ m = 2 \/ m = 3 \/ m = 4 \/ m = 5 \/ m = 6 \/ m = 7 \/ m = 8 \/ m = 9 \/ m = 10 \/ m = 11 \/ m = 12) as Hc by lia.
  repeat destruct Hc as [->|Hc]; try subst; destruct leap, leap'; vm_compute; discriminate.
Qed.

Lemma AddDate_years t : t + 1825 * Day <= AddDate t 5 0 0.
Proof.
  unfold AddDate. rewrite !Z.add_0_r. rewrite tDate_midnight. pose proof (tMonth_range t) as Hm. pose proof (dateDay_fields t) as Hf.
  assert (dayOf t + 1825 <= dateDay (tYear t + 5) (tMonth t) (tDay t)) as Hd.
  { rewrite <- Hf. unfold dateDay. rewrite Z.div_small, Z.mod_small, !Z.add_0_r by lia.
    pose proof (yearStart_next (tYear t)). pose proof (yearStart_lt (tYear t + 1) (tYear t + 2) ltac:(lia)). pose proof (yearStart_lt (tYear t + 2) (tYear t + 3) ltac:(lia)).
    pose proof (yearStart_lt (tYear t + 3) (tYear t + 4) ltac:(lia)). pose proof (yearStart_lt (tYear t + 4) (tYear t + 5) ltac:(lia)).
    pose proof (daysBefore_leap (isLeap (tYear t)) (isLeap (tYear t + 5)) (tMonth t) Hm). replace (tMonth t - 1 + 1) with (tMonth t) by lia. lia. }
  unfold dayOf in *. pose proof (Z.div_mod t Day ltac:(done)). pose proof Day_pos. nia.
Qed.
