(* ===== verification/Cron.v ===== *)
(** Cron expressions (src/examples/croncmd/spec.go): the parser, the five bit masks,
    and the stepping search for the next minute that matches, in the zone of the instant
    it starts from. *)

From S2P Require Import Prelude SystemKeys Payloads LogRecord Txn Calendar.
#[local] Open Scope Z_scope.

(** * The functions of package [strings] and [strconv] it uses *)

(** Without the white space at the front; [skip] bytes of a space are still to pass. *)
Fixpoint trim_from (skip : nat) (s : bytes) : bytes :=
  match s with
  | [] => []
  | _ :: s' =>
    match skip with
    | S skip' => trim_from skip' s'
    | O => match spaceLen s with O => s | S n => trim_from n s' end
    end
  end.

Definition TrimLeft (s : bytes) : bytes := trim_from O s.

Fixpoint TrimRight (s : bytes) : bytes :=
  match s with
  | [] => []
  | x :: s' => if bytes_eqb (TrimLeft s) [] then [] else x :: TrimRight s'
  end.

Definition TrimSpace (s : bytes) : bytes := TrimRight (TrimLeft s).

(** [strings.Cut] at a byte *)
Fixpoint cut_at (c : byte) (s : bytes) : option (bytes * bytes) :=
  match s with
  | [] => None
  | x :: s' => if byte_eqb x c then Some ([], s') else '(a, b) ← cut_at c s'; Some (x :: a, b)
  end.

(** [strings.Split] at a byte *)
Fixpoint split_at (c : byte) (cur s : bytes) : list bytes :=
  match s with
  | [] => [cur]
  | x :: s' => if byte_eqb x c then cur :: split_at c [] s' else split_at c (cur ++ [x]) s'
  end.

Definition lowerByte (b : byte) : byte :=
  let z := byte_to_Z b in if (0x41 <=? z) && (z <=? 0x5A) then byte_of_Z (z + 0x20) else b.

(** [strings.ToLower], for comparison with ASCII words: the two runes above ASCII whose
    lower case is ASCII are the Kelvin sign and the dotted capital I. *)
Fixpoint ToLower (s : bytes) : bytes :=
  match s with
  | Byte.xe2 :: Byte.x84 :: Byte.xaa :: s' => Byte.x6b :: ToLower s'
  | Byte.xc4 :: Byte.xb0 :: s' => Byte.x69 :: ToLower s'
  | b :: s' => lowerByte b :: ToLower s'
  | [] => []
  end.

(** Decimal digits, at least one. *)
Fixpoint digitsFrom (acc : Z) (s : bytes) : option Z :=
  match s with
  | [] => Some acc
  | c :: s' =>
    let d := byte_to_Z c - 0x30 in
    if (0 <=? d) && (d <=? 9) then digitsFrom (acc * 10 + d) s' else None
  end.

(** [strconv.Atoi]: an optional sign and digits, in the range of [int]. *)
Definition Atoi (s : bytes) : option Z :=
  let '(neg, ds) := match s with
                    | Byte.x2d :: s' => (true, s')
                    | Byte.x2b :: s' => (false, s')
                    | _ => (false, s)
                    end in
  match ds with
  | [] => None
  | _ =>
    match digitsFrom 0 ds with
    | None => None
    | Some u =>
      let v := if (neg : bool) then - u else u in
      if (- 2 ^ 63 <=? v) && (v <? 2 ^ 63) then Some v else None
    end
  end.

(** * Expressions *)

Definition minuteMin : Z := 0.
Definition minuteMax : Z := 59.
Definition hourMin : Z := 0.
Definition hourMax : Z := 23.
Definition domMin : Z := 1.
Definition domMax : Z := 31.
Definition monthMin : Z := 1.
Definition monthMax : Z := 12.
Definition dowMin : Z := 0.
Definition dowMax : Z := 6.

Definition monthNames : list (bytes * Z) :=
  [(bs "jan", 1); (bs "feb", 2); (bs "mar", 3); (bs "apr", 4); (bs "may", 5); (bs "jun", 6);
   (bs "jul", 7); (bs "aug", 8); (bs "sep", 9); (bs "oct", 10); (bs "nov", 11); (bs "dec", 12)].
Definition dowNames : list (bytes * Z) :=
  [(bs "sun", 0); (bs "mon", 1); (bs "tue", 2); (bs "wed", 3); (bs "thu", 4); (bs "fri", 5); (bs "sat", 6)].
Definition shortcuts : list (bytes * bytes) :=
  [(bs "@yearly", bs "0 0 1 1 *"); (bs "@annually", bs "0 0 1 1 *"); (bs "@monthly", bs "0 0 1 * *"); (bs "@weekly", bs "0 0 * * 0");
   (bs "@daily", bs "0 0 * * *"); (bs "@midnight", bs "0 0 * * *"); (bs "@hourly", bs "0 * * * *")].

Fixpoint named {A : Type} (name : bytes) (l : list (bytes * A)) : option A :=
  match l with
  | [] => None
  | (k, v) :: l' => if bytes_eqb k name then Some v else named name l'
  end.

Record Spec : Type := mkSpec {
  specText : bytes;
  specMinute : Z;
  specHour : Z;
  specDom : Z;
  specMonth : Z;
  specDow : Z;
  domRestricted : bool;
  dowRestricted : bool;
}.

(** [names] is [None] for a field without names. *)
Definition parseValue (text : bytes) (min max : Z) (names : option (list (bytes * Z))) : gores Z :=
  let text := TrimSpace text in
  if bytes_eqb text [] then Fail (Errorf "empty value") else
  match (l ← names; named (ToLower text) l) with
  | Some value => Ret value
  | None =>
    match Atoi text with
    | None => Fail (Errorf "%q is not a number or a known name")
    | Some value =>
      let value := if bool_decide (is_Some names) && (max =? dowMax) && (value =? 7) then 0 else value in
      if (value <? min) || (max <? value) then Fail (Errorf "%d is out of range %d-%d") else Ret value
    end
  end.

(** [1 << uint(v)] in 64 bits *)
Definition bit (v : Z) : Z := if (0 <=? v) && (v <? 64) then Z.shiftl 1 v else 0.

(** [for v := lo; v <= hi; v += step], where the sum wraps around. *)
Fixpoint maskLoop (fuel : nat) (v hi step mask : Z) : gores Z :=
  if hi <? v then Ret mask else
  match fuel with
  | O => Fail (Errorf "fuel")
  | S fuel' => maskLoop fuel' (s64 (u64 (v + step))) hi step (Z.lor mask (bit v))
  end.

(** More than the loop ever needs, wrap-around included. *)
Definition maskFuel : nat := 200.

Definition parseTerm (term : bytes) (min max : Z) (names : option (list (bytes * Z))) : gores Z :=
  if bytes_eqb term [] then Fail (Errorf "empty term") else
  let '(rangePart, stepPart) := match cut_at Byte.x2f term with Some (a, b) => (a, Some b) | None => (term, None) end in
  step ← match stepPart with
         | None => Ret 1
         | Some s =>
           match Atoi (TrimSpace s) with
           | None => Fail (Errorf "step %q is not a number")
           | Some parsed => if parsed <? 1 then Fail (Errorf "step %d must be at least 1") else Ret parsed
           end
         end;
  let rangePart := TrimSpace rangePart in
  '(lo, hi) ← (if bytes_eqb rangePart (bs "*") then Ret (min, max) else
               match cut_at Byte.x2d rangePart with
               | Some (loText, hiText) =>
                 lo ← parseValue loText min max names;
                 hi ← parseValue hiText min max names;
                 if hi <? lo then Fail (Errorf "range %q runs backwards") else Ret (lo, hi)
               | None =>
                 value ← parseValue rangePart min max names;
                 Ret (value, match stepPart with Some _ => max | None => value end)
               end);
  maskLoop maskFuel lo hi step 0.

Fixpoint parseTerms (terms : list bytes) (min max : Z) (names : option (list (bytes * Z))) (mask : Z) : gores Z :=
  match terms with
  | [] => Ret mask
  | term :: terms' =>
    termMask ← parseTerm (TrimSpace term) min max names;
    parseTerms terms' min max names (Z.lor mask termMask)
  end.

Definition parseField (field : bytes) (min max : Z) (names : option (list (bytes * Z))) : gores Z :=
  let field := TrimSpace field in
  if bytes_eqb field [] then Fail (Errorf "empty field") else
  mask ← parseTerms (split_at Byte.x2c [] field) min max names 0;
  if mask =? 0 then Fail (Errorf "%q matches nothing") else Ret mask.

Definition ParseSpec (expr : bytes) : gores Spec :=
  let text := TrimSpace expr in
  if bytes_eqb text [] then Fail (Errorf "croncmd: empty cron expression") else
  expanded ← (match text with
              | Byte.x40 :: _ =>
                match named (ToLower text) shortcuts with
                | None => Fail (Errorf "croncmd: %q is not a known shortcut")
                | Some replacement => Ret replacement
                end
              | _ => Ret text
              end);
  match Fields expanded with
  | [f0; f1; f2; f3; f4] =>
    minute ← wrap_err "croncmd: %q: minute: %w" (parseField f0 minuteMin minuteMax None);
    hour ← wrap_err "croncmd: %q: hour: %w" (parseField f1 hourMin hourMax None);
    dom ← wrap_err "croncmd: %q: day of month: %w" (parseField f2 domMin domMax None);
    month ← wrap_err "croncmd: %q: month: %w" (parseField f3 monthMin monthMax (Some monthNames));
    dow ← wrap_err "croncmd: %q: day of week: %w" (parseField f4 dowMin dowMax (Some dowNames));
    Ret (mkSpec text minute hour dom month dow (negb (bytes_eqb (TrimSpace f2) (bs "*"))) (negb (bytes_eqb (TrimSpace f4) (bs "*"))))
  | _ => Fail (Errorf "croncmd: %q has %d fields, want 5 (minute hour day-of-month month day-of-week)")
  end.

Definition MustParseSpec (expr : bytes) : gores Spec :=
  match ParseSpec expr with
  | Ret spec => Ret spec
  | _ => Panic
  end.

(** * Matching *)

(** [mask&(1<<uint(v)) != 0] *)
Definition admits (mask v : Z) : bool := negb (Z.land mask (bit v) =? 0).

(** [t] is what the clocks of the instant's zone read, [wall] of it. *)
Definition dayMatches (s : Spec) (t : Z) : bool :=
  let domHit := admits (specDom s) (tDay t) in
  let dowHit := admits (specDow s) (tWeekday t) in
  if domRestricted s && dowRestricted s then domHit || dowHit
  else if domRestricted s then domHit
  else if dowRestricted s then dowHit
  else true.

Definition Match (s : Spec) (t : Z) : bool :=
  admits (specMonth s) (tMonth t) && dayMatches s t && admits (specHour s) (tHour t) && admits (specMinute s) (tMinute t).

Definition maxNextSearchYears : Z := 5.

(** The loop of [Next], in a zone: the largest unit that does not match is passed over
    whole.  [None] if it has not returned after [fuel] rounds: in a zone that
    turns its clocks it may never do so. *)
Fixpoint nextLoop (fuel : nat) (loc : Location) (s : Spec) (next deadline : Z) : option (option Z) :=
  if deadline <=? next then Some None else
  match fuel with
  | O => None
  | S fuel' =>
    if negb (admits (specMonth s) (tMonth (wall loc next))) then nextLoop fuel' loc s (rollMonthIn loc next) deadline
    else if negb (dayMatches s (wall loc next)) then nextLoop fuel' loc s (rollDayIn loc next) deadline
    else if negb (admits (specHour s) (tHour (wall loc next))) then nextLoop fuel' loc s (rollHourIn loc next) deadline
    else if negb (admits (specMinute s) (tMinute (wall loc next))) then nextLoop fuel' loc s (next + Minute) deadline
    else Some (Some next)
  end.

Definition NextWithin (fuel : nat) (loc : Location) (s : Spec) (t : Z) : option (option Z) :=
  let next := rollMinuteIn loc t in
  let deadline := AddDateIn loc next maxNextSearchYears 0 0 in
  nextLoop fuel loc s next deadline.

(** A round for every minute of the search. *)
Definition nextFuel (loc : Location) (t : Z) : nat :=
  let next := rollMinuteIn loc t in
  Z.to_nat ((AddDateIn loc next maxNextSearchYears 0 0 - next) / Minute) + 1.

Definition Next (loc : Location) (s : Spec) (t : Z) : option (option Z) := NextWithin (nextFuel loc t) loc s t.
