(* ===== verification/CronParse.v ===== *)
(** What a cron expression means (src/examples/croncmd/spec.go): the masks the parser
    builds, in 64-bit arithmetic, and the parser against the grammar it reads. *)

From S2P Require Import Prelude SystemKeys Payloads LogRecord Txn Calendar Cron.
#[local] Open Scope Z_scope.

(** * Masks *)

Lemma testbit_bit v i : 0 <= i -> Z.testbit (bit v) i = (v =? i) && (i <? 64).
Proof.
  intros Hi. unfold bit. destruct (Z.leb_spec 0 v), (Z.ltb_spec v 64); cbn [andb]; rewrite ?Z.bits_0.
  - rewrite Z.shiftl_spec by done. destruct (Z.eqb_spec v i) as [->|Hne].
    + rewrite Z.sub_diag. cbn. symmetry. by apply Z.ltb_lt.
    + destruct (Z.lt_ge_cases i v); [by rewrite Z.testbit_neg_r by lia|]. change 1 with (2 ^ 0). rewrite Z.pow2_bits_false by lia. done.
  - destruct (Z.eqb_spec v i) as [->|]; [|done]. symmetry. apply Z.ltb_ge. lia.
  - destruct (Z.eqb_spec v i); [lia|done].
  - destruct (Z.eqb_spec v i); [lia|done].
Qed.

(** A mask admits the values whose bit is set. *)
Lemma admits_testbit mask v : 0 <= v < 64 -> admits mask v = Z.testbit mask v.
Proof.
  intros Hv. unfold admits. destruct (Z.testbit mask v) eqn:E.
  - destruct (Z.eqb_spec (Z.land mask (bit v)) 0) as [E0|]; [|done]. exfalso.
    apply (f_equal (fun z => Z.testbit z v)) in E0. rewrite Z.land_spec, testbit_bit, E, Z.bits_0 in E0 by lia.
    rewrite Z.eqb_refl in E0. by destruct (Z.ltb_spec v 64); [|lia].
  - destruct (Z.eqb_spec (Z.land mask (bit v)) 0) as [|E0]; [done|]. exfalso. apply E0. apply Z.bits_inj'. intros i Hi.
    rewrite Z.land_spec, testbit_bit, Z.bits_0 by done. destruct (Z.eqb_spec v i) as [->|]; [by rewrite E|by rewrite andb_false_r].
Qed.

(** ** The loop *)

(** The loop variable stays in range: the mask gets the arithmetic progression. *)
Definition progression (lo hi step i : Z) : bool := (lo <=? i) && (i <=? hi) && ((i - lo) mod step =? 0).

Lemma s64_small z : - 2 ^ 63 <= z < 2 ^ 63 -> s64 (u64 z) = z.
Proof. intros Hz. unfold s64, u64. destruct (Z.ltb_spec (z mod 2 ^ 64) (2 ^ 63)); Z.div_mod_to_equations; lia. Qed.

Lemma s64_over z : 2 ^ 63 <= z < 2 ^ 64 -> s64 (u64 z) = z - 2 ^ 64.
Proof. intros Hz. unfold s64, u64. destruct (Z.ltb_spec (z mod 2 ^ 64) (2 ^ 63)); Z.div_mod_to_equations; lia. Qed.

Lemma progression_step v hi step i : 0 <= v <= hi -> hi < 64 -> 1 <= step -> 0 <= i ->
  progression v hi step i = ((v =? i) && (i <? 64)) || progression (v + step) hi step i.
Proof.
  intros Hv Hh Hs Hi. unfold progression. destruct (Z.eqb_spec v i) as [->|Hne].
  - rewrite Z.sub_diag, Z.mod_0_l by lia. destruct (Z.leb_spec i i), (Z.leb_spec i hi), (Z.ltb_spec i 64); (done || lia).
  - cbn [andb orb]. replace (i - (v + step)) with (i - v + (-1) * step) by lia. rewrite Z.mod_add by lia.
    destruct (Z.leb_spec v i), (Z.leb_spec (v + step) i); cbn [andb]; [done| |lia|done].
    destruct (i <=? hi); cbn [andb]; [|done]. rewrite Z.mod_small by lia. by destruct (Z.eqb_spec (i - v) 0); [lia|].
Qed.

Lemma maskLoop_S fuel v hi step mask :
  maskLoop (S fuel) v hi step mask = if hi <? v then Ret mask else maskLoop fuel (s64 (u64 (v + step))) hi step (Z.lor mask (bit v)).
Proof. done. Qed.

Lemma maskLoop_exact hi step fuel : hi < 64 -> 1 <= step -> hi + step < 2 ^ 63 -> forall v mask,
  0 <= v < 2 ^ 63 -> hi - v < Z.of_nat fuel ->
  exists m, maskLoop fuel v hi step mask = Ret m /\ forall i, 0 <= i -> Z.testbit m i = Z.testbit mask i || progression v hi step i.
Proof.
  intros Hh Hs Ho. induction fuel as [|fuel IH]; intros v mask Hv Hf; cbn [maskLoop].
  all: destruct (Z.ltb_spec hi v) as [Hlt|Hle].
  1, 3: exists mask; split; [done|]; intros i Hi; unfold progression; destruct (Z.leb_spec v i), (Z.leb_spec i hi); cbn [andb]; rewrite ?orb_false_r; (done || lia).
  - lia.
  - rewrite s64_small by lia. destruct (IH (v + step) (Z.lor mask (bit v))) as (m & -> & Hm); [lia|lia|].
    exists m. split; [done|]. intros i Hi. rewrite Hm, Z.lor_spec, testbit_bit, (progression_step v) by lia. by rewrite orb_assoc.
Qed.

(** Whatever the step, the loop ends: each time the sum wraps around, two rounds
    later the variable is back, and lower. *)
Definition grown (hi mask m : Z) : Prop :=
  forall i, 0 <= i -> (Z.testbit mask i = true -> Z.testbit m i = true) /\ (Z.testbit m i = true -> Z.testbit mask i = true \/ i <= hi).

Lemma grown_refl hi mask : grown hi mask mask.
Proof. intros i _. tauto. Qed.

Lemma grown_or hi mask m v : v <= hi -> grown hi (Z.lor mask (bit v)) m -> grown hi mask m.
Proof.
  intros Hv Hg i Hi. destruct (Hg i Hi) as [H1 H2]. rewrite Z.lor_spec, testbit_bit in H1, H2 by done. split.
  - intros E. apply H1. by rewrite E.
  - intros [[E|[E _]%andb_prop]%orb_prop|E]%H2; [by left|right..]; [|done]. apply Z.eqb_eq in E. lia.
Qed.

Lemma maskLoop_wraps hi step : 0 <= hi < 64 -> 2 ^ 63 - hi <= step < 2 ^ 63 -> forall n fuel v mask,
  -128 <= v <= hi -> v + 128 < Z.of_nat n -> (n + 2 <= fuel)%nat ->
  exists m, maskLoop fuel v hi step mask = Ret m /\ grown hi mask m.
Proof.
  intros Hh Hs. induction n as [n IH] using lt_wf_ind. intros fuel v mask Hv Hn Hf.
  destruct fuel as [|[|fuel]]; [lia..|]. cbn [maskLoop]. destruct (Z.ltb_spec hi v) as [|_]; [lia|].
  destruct (Z.lt_ge_cases (v + step) (2 ^ 63)) as [Hsum|Hsum].
  - rewrite s64_small by lia. destruct (Z.ltb_spec hi (v + step)); [|lia]. eexists. split; [done|].
    eapply grown_or; [|apply grown_refl]. lia.
  - rewrite s64_over by lia. set (w := v + step - 2 ^ 64) in *. destruct (Z.ltb_spec hi w); [lia|].
    rewrite s64_small by lia. destruct (IH (n - 2)%nat ltac:(lia) fuel (w + step) (Z.lor (Z.lor mask (bit v)) (bit w))) as (m & -> & Hm); [lia..|].
    exists m. split; [done|]. apply (grown_or hi mask m v); [lia|]. apply (grown_or hi _ m w); [lia|done].
Qed.

Lemma maskLoop_returns lo hi step : 0 <= lo <= hi -> hi < 64 -> 1 <= step < 2 ^ 63 ->
  exists m, maskLoop maskFuel lo hi step 0 = Ret m /\ Z.testbit m lo = true /\ forall i, 0 <= i -> Z.testbit m i = true -> i <= hi.
Proof.
  intros Hlo Hh Hs. unfold maskFuel. rewrite (maskLoop_S 199). destruct (Z.ltb_spec hi lo) as [|_]; [lia|].
  assert (exists m, maskLoop 199 (s64 (u64 (lo + step))) hi step (Z.lor 0 (bit lo)) = Ret m /\ grown hi (Z.lor 0 (bit lo)) m) as (m & E & Hg).
  { destruct (Z.lt_ge_cases (hi + step) (2 ^ 63)) as [Ho|Ho].
    - rewrite s64_small by lia. destruct (maskLoop_exact hi step 199 ltac:(lia) ltac:(lia) Ho (lo + step) (Z.lor 0 (bit lo))) as (m & E & Hm); [lia|lia|].
      exists m. split; [done|]. intros i Hi. rewrite Hm by done. split; [by intros ->|].
      intros [?|[[_ Hle]%andb_prop _]%andb_prop]%orb_prop; [by left|right; lia].
    - destruct (Z.lt_ge_cases (lo + step) (2 ^ 63)) as [Hsum|Hsum].
      + rewrite s64_small, (maskLoop_S 198) by lia. destruct (Z.ltb_spec hi (lo + step)); [|lia]. eexists. split; [done|apply grown_refl].
      + rewrite s64_over by lia. rewrite (maskLoop_S 198). set (w := lo + step - 2 ^ 64) in *. destruct (Z.ltb_spec hi w); [lia|].
        rewrite s64_small by lia. destruct (maskLoop_wraps hi step ltac:(lia) ltac:(lia) 196 198 (w + step) (Z.lor (Z.lor 0 (bit lo)) (bit w))) as (m & -> & Hm); [lia..|].
        exists m. split; [done|]. apply (grown_or hi _ m w); [lia|done]. }
  exists m. split; [done|]. split.
  - apply (Hg lo); [lia|]. rewrite Z.lor_spec, testbit_bit, Z.bits_0 by lia. rewrite Z.eqb_refl. by apply Z.ltb_lt; lia.
  - intros i Hi Em. destruct (Hg i Hi) as [_ H2]. destruct (H2 Em) as [E0|?]; [|done].
    rewrite Z.lor_spec, testbit_bit, Z.bits_0 in E0 by lia. cbn [orb] in E0. apply andb_prop in E0 as [E0%Z.eqb_eq _]. lia.
Qed.

(** * Text *)

Lemma TrimLeft_plain x s : 0x21 <= byte_to_Z x <= 0x7E -> TrimLeft (x :: s) = x :: s.
Proof. intros Hx. unfold TrimLeft. cbn [trim_from]. by rewrite spaceLen_plain. Qed.

(** ASCII *)
Definition ascii (s : bytes) : Prop := Forall (fun b => byte_to_Z b < 0x80) s.

Lemma spaceLen_ascii x s : byte_to_Z x < 0x80 -> (spaceLen (x :: s) <= 1)%nat.
Proof.
  intros Hx. unfold spaceLen. destruct (bool_decide _); [lia|]. destruct s as [|y s]; [lia|].
  rewrite (proj2 (Z.eqb_neq (byte_to_Z x) 0xC2)) by lia. cbn [andb]. destruct s as [|c s]; [lia|].
  rewrite (proj2 (Z.eqb_neq (byte_to_Z x) 0xE1)), (proj2 (Z.eqb_neq (byte_to_Z x) 0xE2)), (proj2 (Z.eqb_neq (byte_to_Z x) 0xE3)) by lia.
  cbn [andb]. lia.
Qed.

Lemma TrimLeft_keeps s x : ascii s -> 0x21 <= byte_to_Z x <= 0x7E -> TrimLeft (s ++ [x]) <> [].
Proof.
  intros Hs Hx. induction Hs as [|y s Hy Hs IH]; cbn [app].
  - by rewrite (TrimLeft_plain x []).
  - unfold TrimLeft in *. cbn [trim_from]. pose proof (spaceLen_ascii y (s ++ [x]) Hy) as Hl. destruct (spaceLen (y :: s ++ [x])) as [|[|n]]; [done|done|lia].
Qed.

Lemma TrimRight_last s x : ascii s -> 0x21 <= byte_to_Z x <= 0x7E -> TrimRight (s ++ [x]) = s ++ [x].
Proof.
  intros Hs Hx. induction Hs as [|y s Hy Hs IH]; cbn [app TrimRight].
  - rewrite TrimLeft_plain by done. done.
  - destruct (bytes_eqb (TrimLeft (y :: s ++ [x])) []) eqn:E; [|by rewrite IH]. exfalso.
    apply bytes_eqb_true in E. by apply (TrimLeft_keeps (y :: s) x) in E; [|constructor|].
Qed.

(** Text that begins and ends with a printable byte is not trimmed. *)
Lemma TrimSpace_framed a s b :
  ascii s -> 0x21 <= byte_to_Z a <= 0x7E -> 0x21 <= byte_to_Z b <= 0x7E -> TrimSpace (a :: s ++ [b]) = a :: s ++ [b].
Proof.
  intros Hs Ha Hb. unfold TrimSpace. rewrite TrimLeft_plain by done. change (a :: s ++ [b]) with ((a :: s) ++ [b]).
  apply TrimRight_last; [|done]. constructor; [lia|done].
Qed.

Lemma plain_ascii s : plain s -> ascii s.
Proof. intros Hs. eapply Forall_impl; [exact Hs|]. cbn. intros. lia. Qed.

Lemma TrimSpace_plain s : plain s -> TrimSpace s = s.
Proof.
  intros Hs. destruct Hs as [|a s Ha Hs]; [done|].
  destruct s as [|b s _] using rev_ind.
  - unfold TrimSpace. rewrite TrimLeft_plain by done. apply (TrimRight_last [] a); [constructor|done].
  - apply Forall_app in Hs as [Hs Hb]. apply TrimSpace_framed; [by apply plain_ascii|done|by inversion Hb].
Qed.

Lemma cut_at_app c a b : c ∉ a -> cut_at c (a ++ c :: b) = Some (a, b).
Proof.
  induction a as [|x a IH]; intros Ha; cbn [app cut_at]; [by rewrite byte_eqb_refl|].
  apply not_elem_of_cons in Ha as [Hx Ha]. destruct (byte_eqb x c) eqn:E; [by apply byte_eqb_true in E|]. by rewrite IH.
Qed.

Lemma cut_at_none c a : c ∉ a -> cut_at c a = None.
Proof.
  induction a as [|x a IH]; intros Ha; cbn [cut_at]; [done|].
  apply not_elem_of_cons in Ha as [Hx Ha]. destruct (byte_eqb x c) eqn:E; [by apply byte_eqb_true in E|]. by rewrite IH.
Qed.

Lemma split_at_word c cur a s : c ∉ a -> split_at c cur (a ++ c :: s) = (cur ++ a) :: split_at c [] s.
Proof.
  revert cur. induction a as [|x a IH]; intros cur Ha; cbn [app split_at]; [by rewrite byte_eqb_refl, app_nil_r|].
  apply not_elem_of_cons in Ha as [Hx Ha]. destruct (byte_eqb x c) eqn:E; [by apply byte_eqb_true in E|]. by rewrite IH, <- app_assoc.
Qed.

Lemma split_at_last c cur a : c ∉ a -> split_at c cur a = [cur ++ a].
Proof.
  revert cur. induction a as [|x a IH]; intros cur Ha; cbn [split_at]; [by rewrite app_nil_r|].
  apply not_elem_of_cons in Ha as [Hx Ha]. destruct (byte_eqb x c) eqn:E; [by apply byte_eqb_true in E|]. by rewrite IH, <- app_assoc.
Qed.

(** * The grammar *)

(** A number as [width] digits, leading zeros allowed. *)
Record number : Type := Num { width : nat; value : Z }.
Definition showNumber (n : number) : bytes := fixed (width n) (value n).
Definition numberOk (n : number) : Prop := (1 <= width n)%nat /\ 0 <= value n < 10 ^ Z.of_nat (width n).

Inductive range : Type :=
| Star
| Single (v : number)
| Between (lo hi : number).

Record term : Type := Term { termRange : range; termStep : option number }.

Definition showRange (r : range) : bytes :=
  match r with
  | Star => [Byte.x2a]
  | Single v => showNumber v
  | Between lo hi => showNumber lo ++ Byte.x2d :: showNumber hi
  end.
Definition showTerm (t : term) : bytes :=
  showRange (termRange t) ++ match termStep t with Some n => Byte.x2f :: showNumber n | None => [] end.
Fixpoint showField (t : term) (ts : list term) : bytes :=
  match ts with
  | [] => showTerm t
  | t' :: ts' => showTerm t ++ Byte.x2c :: showField t' ts'
  end.

(** The values of a term in a field of [min] to [max]. *)
Definition termLo (min : Z) (t : term) : Z := match termRange t with Star => min | Single v | Between v _ => value v end.
Definition termHi (max : Z) (t : term) : Z :=
  match termRange t, termStep t with
  | Star, _ => max
  | Single v, None => value v
  | Single _, Some _ => max
  | Between _ v, _ => value v
  end.
Definition stepOf (t : term) : Z := match termStep t with Some n => value n | None => 1 end.
Definition denotes (min max : Z) (t : term) (i : Z) : bool := progression (termLo min t) (termHi max t) (stepOf t) i.

(** Numbers in range, a range that does not run backwards, a step that leaves room. *)
Definition termOk (min max : Z) (t : term) : Prop :=
  min <= termLo min t <= termHi max t /\ termHi max t <= max /\ 1 <= stepOf t /\ max + stepOf t < 2 ^ 63 /\
  match termRange t with Star => True | Single v => numberOk v | Between lo hi => numberOk lo /\ numberOk hi end /\
  match termStep t with Some n => numberOk n | None => True end.

Lemma showNumber_plain n : plain (showNumber n).
Proof. eapply Forall_impl; [apply fixed_digits|]. cbn. intros. lia. Qed.

Lemma showNumber_without c n : byte_to_Z c < 0x30 -> c ∉ showNumber n.
Proof. intros Hc Hin. pose proof (fixed_digits (width n) (value n)) as Hf. rewrite Forall_forall in Hf. specialize (Hf _ Hin). lia. Qed.

(** A number starts with a digit. *)
Lemma showNumber_cons n : numberOk n -> exists c s, showNumber n = c :: s /\ 0x30 <= byte_to_Z c <= 0x39.
Proof.
  intros [Hw _]. pose proof (fixed_digits (width n) (value n)) as Hf. unfold showNumber. destruct (fixed (width n) (value n)) as [|c s] eqn:E.
  - exfalso. destruct (width n); [lia|]. cbn in E. by destruct (fixed _ _).
  - exists c, s. split; [done|]. by inversion Hf.
Qed.

Lemma digitsFrom_app acc s c : digitsFrom acc (s ++ [c]) = (u ← digitsFrom acc s; digitsFrom u [c]).
Proof. revert acc. induction s as [|x s IH]; intros acc; [done|]. cbn [app digitsFrom]. destruct (_ && _); [apply IH|done]. Qed.

Lemma digitsFrom_fixed w u : 0 <= u < 10 ^ Z.of_nat w -> digitsFrom 0 (fixed w u) = Some u.
Proof.
  revert u. induction w as [|w IH]; intros u Hu; cbn [fixed].
  - cbn in Hu. cbn. f_equal. lia.
  - rewrite Nat2Z.inj_succ, Z.pow_succ_r in Hu by lia. rewrite digitsFrom_app, IH by (Z.div_mod_to_equations; lia). cbn [mbind option_bind digitsFrom].
    pose proof (Z.mod_pos_bound u 10 ltac:(lia)) as Hm. rewrite digit_value by lia.
    replace (0x30 + u mod 10 - 0x30) with (u mod 10) by lia.
    destruct (Z.leb_spec 0 (u mod 10)), (Z.leb_spec (u mod 10) 9); try lia. cbn [andb]. f_equal. Z.div_mod_to_equations. lia.
Qed.

Lemma Atoi_number n : numberOk n -> value n < 2 ^ 63 -> Atoi (showNumber n) = Some (value n).
Proof.
  intros Hn Hv. destruct (showNumber_cons n Hn) as (c & s & E & Hc). pose proof (digitsFrom_fixed (width n) (value n) (proj2 Hn)) as Hd.
  fold (showNumber n) in Hd. unfold Atoi. rewrite E in *.
  assert (match c :: s with Byte.x2d :: s' => (true, s') | Byte.x2b :: s' => (false, s') | _ => (false, c :: s) end = (false, c :: s)) as ->.
  { destruct c; try done; vm_compute in Hc; destruct Hc; congruence. }
  cbv beta iota zeta. rewrite Hd. destruct (Z.leb_spec (- 2 ^ 63) (value n)), (Z.ltb_spec (value n) (2 ^ 63)); destruct Hn; (done || lia).
Qed.

(** No name of a field is a number. *)
Definition nameless (names : option (list (bytes * Z))) : Prop :=
  forall c s, 0x30 <= byte_to_Z c <= 0x39 -> (l ← names; named (ToLower (c :: s)) l) = None.

Lemma nameless_None : nameless None.
Proof. done. Qed.

Ltac no_digit_names :=
  intros c s Hc; cbn [mbind option_bind];
  destruct c; try (exfalso; vm_compute in Hc; destruct Hc; congruence);
  cbn [ToLower named monthNames dowNames]; reflexivity.

Lemma nameless_month : nameless (Some monthNames).
Proof. no_digit_names. Qed.
Lemma nameless_dow : nameless (Some dowNames).
Proof. no_digit_names. Qed.

(** * The parser reads the grammar *)

Lemma number_not_empty n : numberOk n -> bytes_eqb (showNumber n) [] = false.
Proof. intros (c & s & -> & _)%showNumber_cons. by apply bytes_eqb_false. Qed.

Lemma parseValue_number min max names n :
  nameless names -> numberOk n -> min <= value n <= max -> max < 64 -> parseValue (showNumber n) min max names = Ret (value n).
Proof.
  intros Hnm Hn Hv Hmax. unfold parseValue. rewrite TrimSpace_plain, number_not_empty by auto using showNumber_plain.
  destruct (showNumber_cons n Hn) as (c & s & E & Hc). rewrite E, (Hnm c s Hc), <- E. rewrite Atoi_number by (done || lia).
  assert ((if bool_decide (is_Some names) && (max =? dowMax) && (value n =? 7) then 0 else value n) = value n) as ->.
  { destruct (bool_decide _), (Z.eqb_spec max dowMax) as [->|], (Z.eqb_spec (value n) 7); try done. unfold dowMax in *. lia. }
  destruct (Z.ltb_spec (value n) min), (Z.ltb_spec max (value n)); (done || lia).
Qed.

Lemma showRange_plain r : plain (showRange r).
Proof.
  destruct r as [|v|lo hi]; cbn; [|apply showNumber_plain|].
  - repeat constructor; vm_compute; discriminate.
  - apply Forall_app. split; [apply showNumber_plain|]. constructor; [split; vm_compute; discriminate|apply showNumber_plain].
Qed.

Lemma showTerm_plain t : plain (showTerm t).
Proof.
  unfold showTerm. apply Forall_app. split; [apply showRange_plain|]. destruct (termStep t); constructor.
  - split; vm_compute; discriminate.
  - apply showNumber_plain.
Qed.

(** [sep] is in none of the texts of numbers, nor of ranges and terms where it is neither
    of their signs. *)
Lemma showRange_without sep r : byte_to_Z sep < 0x30 -> sep <> Byte.x2a -> sep <> Byte.x2d -> sep ∉ showRange r.
Proof.
  intros Hs H1 H2. destruct r as [|v|lo hi]; cbn.
  - by intros [?|?%elem_of_nil]%elem_of_cons.
  - by apply showNumber_without.
  - intros [Hin|[?|Hin]%elem_of_cons]%elem_of_app; [|done|]; by apply showNumber_without in Hin.
Qed.

Lemma showTerm_without sep t : byte_to_Z sep < 0x30 -> sep <> Byte.x2a -> sep <> Byte.x2d -> sep <> Byte.x2f -> sep ∉ showTerm t.
Proof.
  intros Hs H1 H2 H3. unfold showTerm. intros [Hin|Hin]%elem_of_app; [by apply showRange_without in Hin|].
  destruct (termStep t); [|by apply elem_of_nil in Hin]. apply elem_of_cons in Hin as [?|Hin]; [done|]. by apply showNumber_without in Hin.
Qed.

Lemma showRange_cons min max t : termOk min max t -> exists c s, showRange (termRange t) = c :: s /\ (c = Byte.x2a \/ 0x30 <= byte_to_Z c <= 0x39).
Proof.
  intros (_ & _ & _ & _ & Hr & _). destruct (termRange t) as [|v|lo hi]; cbn.
  - by exists Byte.x2a, []; split; [|left].
  - destruct (showNumber_cons v Hr) as (c & s & -> & Hc). exists c, s. by split; [|right].
  - destruct (showNumber_cons lo (proj1 Hr)) as (c & s & -> & Hc). exists c, (s ++ Byte.x2d :: showNumber hi). by split; [|right].
Qed.

Lemma number_not_star n : numberOk n -> bytes_eqb (showNumber n) (bs "*") = false.
Proof. intros (c & s & -> & Hc)%showNumber_cons. apply bytes_eqb_false. intros [= -> _]. vm_compute in Hc. destruct Hc. congruence. Qed.

(** The bounds of a range. *)
Lemma range_bounds min max names t :
  nameless names -> max < 64 -> termOk min max t ->
  (if bytes_eqb (showRange (termRange t)) (bs "*") then Ret (min, max) else
   match cut_at Byte.x2d (showRange (termRange t)) with
   | Some (loText, hiText) =>
     lo ← parseValue loText min max names; hi ← parseValue hiText min max names;
     if hi <? lo then Fail (Errorf "range %q runs backwards") else Ret (lo, hi)
   | None => v ← parseValue (showRange (termRange t)) min max names; Ret (v, match option_map showNumber (termStep t) with Some _ => max | None => v end)
   end) = Ret (termLo min t, termHi max t).
Proof.
  intros Hnm Hmax (Hlo & Hhi & _ & _ & Hr & _). unfold termLo, termHi in *. destruct (termRange t) as [|v|lo hi]; cbn [showRange].
  - done.
  - rewrite number_not_star, cut_at_none by (done || by apply showNumber_without).
    rewrite parseValue_number by (done || destruct (termStep t); lia). cbn. by destruct (termStep t).
  - destruct Hr as [H1 H2]. rewrite bytes_eqb_false; [|destruct (showNumber_cons lo H1) as (c & s & -> & Hc); intros [= -> E]; by destruct s].
    rewrite cut_at_app by (by apply showNumber_without). rewrite !parseValue_number by (done || lia). cbn.
    by destruct (Z.ltb_spec (value hi) (value lo)); [lia|].
Qed.

Lemma parseTerm_show min max names t :
  nameless names -> 0 <= min -> max < 64 -> termOk min max t ->
  exists m, parseTerm (showTerm t) min max names = Ret m /\ forall i, 0 <= i -> Z.testbit m i = denotes min max t i.
Proof.
  intros Hnm Hmin Hmax Hok. pose proof Hok as (Hlo & Hhi & Hst & Hov & _ & Hs). unfold parseTerm.
  destruct (showRange_cons min max t Hok) as (c & s & Ec & Hc).
  rewrite bytes_eqb_false by (unfold showTerm; rewrite Ec; by destruct (termStep t)).
  assert (match cut_at Byte.x2f (showTerm t) with Some (a, b) => (a, Some b) | None => (showTerm t, None) end =
          (showRange (termRange t), option_map showNumber (termStep t))) as ->.
  { unfold showTerm. assert (Byte.x2f ∉ showRange (termRange t)) by (by apply showRange_without).
    destruct (termStep t) as [n|]; [by rewrite cut_at_app|]. by rewrite app_nil_r, cut_at_none. }
  cbv beta iota. assert (match option_map showNumber (termStep t) with
     | None => Ret 1
     | Some s0 => match Atoi (TrimSpace s0) with None => Fail (Errorf "step %q is not a number")
                  | Some parsed => if parsed <? 1 then Fail (Errorf "step %d must be at least 1") else Ret parsed end
     end = Ret (stepOf t)) as ->.
  { unfold stepOf in *. destruct (termStep t) as [n|]; [|done]. cbn. rewrite TrimSpace_plain, Atoi_number by (auto using showNumber_plain; lia).
    by destruct (Z.ltb_spec (value n) 1); [lia|]. }
  cbn [mbind gores_bind]. rewrite TrimSpace_plain by apply showRange_plain.
  pose proof (range_bounds min max names t Hnm Hmax Hok) as Hb. cbn [mbind gores_bind] in Hb. rewrite Hb.
  destruct (maskLoop_exact (termHi max t) (stepOf t) maskFuel ltac:(lia) Hst ltac:(lia) (termLo min t) 0) as (m & E & Hm); [lia|unfold maskFuel; lia|].
  exists m. split; [done|]. intros i Hi. by rewrite Hm, Z.bits_0.
Qed.

Definition inField (min max : Z) (t : term) (ts : list term) (i : Z) : bool := existsb (fun t => denotes min max t i) (t :: ts).

Lemma split_field t ts : split_at Byte.x2c [] (showField t ts) = map showTerm (t :: ts).
Proof.
  revert t. induction ts as [|t' ts IH]; intros t; cbn [showField].
  - by rewrite split_at_last by (by apply showTerm_without).
  - rewrite split_at_word by (by apply showTerm_without). by rewrite IH.
Qed.

Lemma showField_plain t ts : plain (showField t ts).
Proof.
  revert t. induction ts as [|t' ts IH]; intros t; cbn [showField]; [apply showTerm_plain|]. apply Forall_app. split; [apply showTerm_plain|].
  constructor; [split; vm_compute; discriminate|apply IH].
Qed.

Lemma parseTerms_show min max names ts :
  nameless names -> 0 <= min -> max < 64 -> Forall (termOk min max) ts -> forall mask,
  exists m, parseTerms (map showTerm ts) min max names mask = Ret m /\
    forall i, 0 <= i -> Z.testbit m i = Z.testbit mask i || existsb (fun t => denotes min max t i) ts.
Proof.
  intros Hnm Hmin Hmax. induction 1 as [|t ts Ht Hts IH]; intros mask; cbn [map parseTerms existsb].
  - exists mask. split; [done|]. intros. by rewrite orb_false_r.
  - rewrite TrimSpace_plain by apply showTerm_plain. destruct (parseTerm_show min max names t Hnm Hmin Hmax Ht) as (m & -> & Hm). cbn [mbind gores_bind].
    destruct (IH (Z.lor mask m)) as (m' & -> & Hm'). exists m'. split; [done|]. intros i Hi. by rewrite Hm', Z.lor_spec, Hm, orb_assoc.
Qed.

Lemma showField_cons min max t ts : termOk min max t -> exists c s, showField t ts = c :: s /\ (c = Byte.x2a \/ 0x30 <= byte_to_Z c <= 0x39).
Proof.
  intros (c & s & E & Hc)%showRange_cons. destruct ts; cbn; unfold showTerm; rewrite E; by eexists _, _.
Qed.

Lemma parseField_show min max names t ts :
  nameless names -> 0 <= min -> max < 64 -> Forall (termOk min max) (t :: ts) ->
  exists m, parseField (showField t ts) min max names = Ret m /\ forall i, 0 <= i -> Z.testbit m i = inField min max t ts i.
Proof.
  intros Hnm Hmin Hmax Hok. inversion Hok as [|? ? Ht Hts]; subst. unfold parseField. rewrite TrimSpace_plain by apply showField_plain.
  destruct (showField_cons min max t ts Ht) as (c & s & E & _). rewrite bytes_eqb_false by (by rewrite E).
  rewrite split_field. destruct (parseTerms_show min max names (t :: ts) Hnm Hmin Hmax Hok 0) as (m & -> & Hm). cbn [mbind gores_bind].
  destruct (Z.eqb_spec m 0) as [->|_].
  - exfalso. destruct Ht as (Hlo & _ & Hst & _). specialize (Hm (termLo min t) ltac:(lia)). rewrite Z.bits_0 in Hm. cbn [orb existsb] in Hm.
    unfold denotes at 1, progression in Hm. rewrite Z.sub_diag, Z.mod_0_l in Hm by lia.
    destruct (Z.leb_spec (termLo min t) (termLo min t)), (Z.leb_spec (termLo min t) (termHi max t)); (done || lia).
  - exists m. split; [done|]. intros i Hi. by rewrite Hm, Z.bits_0.
Qed.

(** A field that is not just [*]. *)
Definition restricted (t : term) (ts : list term) : bool :=
  match t, ts with
  | Term Star None, [] => false
  | _, _ => true
  end.

Lemma restricted_show min max t ts : termOk min max t -> negb (bytes_eqb (showField t ts) (bs "*")) = restricted t ts.
Proof.
  intros (_ & _ & _ & _ & Hr & _). destruct t as [r st]. cbn in Hr.
  destruct r as [|v|lo hi].
  - destruct st, ts; cbn; unfold showTerm; cbn; try rewrite bytes_eqb_false by done; done.
  - destruct (showNumber_cons v Hr) as (c & s & E & Hc). rewrite bytes_eqb_false; [by destruct st, ts|].
    destruct ts; cbn; unfold showTerm; cbn; rewrite E; intros [= -> _]; vm_compute in Hc; destruct Hc; congruence.
  - destruct (showNumber_cons lo (proj1 Hr)) as (c & s & E & Hc). rewrite bytes_eqb_false; [by destruct st, ts|].
    destruct ts; cbn; unfold showTerm; cbn; rewrite E; intros [= -> _]; vm_compute in Hc; destruct Hc; congruence.
Qed.

(** Five fields. *)
Record expression : Type := Expr {
  exMinute : term * list term;
  exHour : term * list term;
  exDom : term * list term;
  exMonth : term * list term;
  exDow : term * list term;
}.

Definition showExpr (e : expression) : bytes :=
  let '(Expr mi h d mo w) := e in
  showField mi.1 mi.2 ++ Byte.x20 :: showField h.1 h.2 ++ Byte.x20 :: showField d.1 d.2 ++ Byte.x20 ::
  showField mo.1 mo.2 ++ Byte.x20 :: showField w.1 w.2.

Definition fieldOk (min max : Z) (f : term * list term) : Prop := Forall (termOk min max) (f.1 :: f.2).
Definition exprOk (e : expression) : Prop :=
  fieldOk minuteMin minuteMax (exMinute e) /\ fieldOk hourMin hourMax (exHour e) /\ fieldOk domMin domMax (exDom e) /\
  fieldOk monthMin monthMax (exMonth e) /\ fieldOk dowMin dowMax (exDow e).

(** The minutes an expression names: both of the day fields restrict a day only by
    widening each other. *)
Definition meansDay (e : expression) (t : Z) : bool :=
  let dom := inField domMin domMax (exDom e).1 (exDom e).2 (tDay t) in
  let dow := inField dowMin dowMax (exDow e).1 (exDow e).2 (tWeekday t) in
  match restricted (exDom e).1 (exDom e).2, restricted (exDow e).1 (exDow e).2 with
  | true, true => dom || dow
  | true, false => dom
  | false, true => dow
  | false, false => true
  end.
Definition means (e : expression) (t : Z) : bool :=
  inField monthMin monthMax (exMonth e).1 (exMonth e).2 (tMonth t) && meansDay e t &&
  inField hourMin hourMax (exHour e).1 (exHour e).2 (tHour t) && inField minuteMin minuteMax (exMinute e).1 (exMinute e).2 (tMinute t).

Lemma showField_nonempty min max f : fieldOk min max f -> showField f.1 f.2 <> [].
Proof. intros Hf. inversion Hf as [|? ? Ht _]. destruct (showField_cons min max f.1 f.2 Ht) as (c & s & -> & _). done. Qed.

Lemma plain_last s : plain s -> s <> [] -> exists s' b, s = s' ++ [b] /\ plain s' /\ 0x21 <= byte_to_Z b <= 0x7E.
Proof.
  intros Hs Hne. destruct s as [|b s _] using rev_ind; [done|]. apply Forall_app in Hs as [Hs Hb]. exists s, b. split_and!; [done|done| |]; inversion Hb; lia.
Qed.

Lemma ascii_app a b : ascii a -> ascii b -> ascii (a ++ Byte.x20 :: b).
Proof. intros Ha Hb. apply Forall_app. split; [done|]. constructor; [|done]. vm_compute. done. Qed.

Lemma TrimSpace_words a b : plain a -> a <> [] -> ascii b -> (exists b' x, b = b' ++ [x] /\ 0x21 <= byte_to_Z x <= 0x7E) -> TrimSpace (a ++ Byte.x20 :: b) = a ++ Byte.x20 :: b.
Proof.
  intros Ha Hne Hb (b' & x & -> & Hx). destruct Ha as [|c a Hc Ha]; [done|]. cbn [app].
  replace (a ++ Byte.x20 :: b' ++ [x]) with ((a ++ Byte.x20 :: b') ++ [x]) by (by rewrite <- app_assoc).
  apply Forall_app in Hb as [Hb _]. apply TrimSpace_framed; [|done|done]. apply ascii_app; [by apply plain_ascii|done].
Qed.

Lemma wrap_Ret {A} fmt (a : A) : wrap_err fmt (Ret a) = Ret a.
Proof. done. Qed.

Lemma ends_with_word a b : (exists b' x, b = b' ++ [x] /\ 0x21 <= byte_to_Z x <= 0x7E) ->
  exists b' x, a ++ Byte.x20 :: b = b' ++ [x] /\ 0x21 <= byte_to_Z x <= 0x7E.
Proof. intros (b' & x & -> & Hx). exists (a ++ Byte.x20 :: b'), x. split; [by rewrite <- app_assoc|done]. Qed.

Lemma showExpr_text e : exprOk e -> TrimSpace (showExpr e) = showExpr e /\ Fields (showExpr e) =
  [showField (exMinute e).1 (exMinute e).2; showField (exHour e).1 (exHour e).2; showField (exDom e).1 (exDom e).2;
   showField (exMonth e).1 (exMonth e).2; showField (exDow e).1 (exDow e).2].
Proof.
  intros (H1 & H2 & H3 & H4 & H5). destruct e as [mi h d mo w]. cbn [exMinute exHour exDom exMonth exDow] in *. unfold showExpr.
  pose proof (showField_nonempty _ _ _ H1). pose proof (showField_nonempty _ _ _ H2). pose proof (showField_nonempty _ _ _ H3).
  pose proof (showField_nonempty _ _ _ H4). pose proof (showField_nonempty _ _ _ H5).
  split.
  - apply TrimSpace_words; [apply showField_plain|done| |].
    + do 3 (apply ascii_app; [apply plain_ascii, showField_plain|]). apply plain_ascii, showField_plain.
    + do 3 apply ends_with_word. destruct (plain_last (showField w.1 w.2)) as (s & b & -> & _ & Hb); [apply showField_plain|done|]. by exists s, b.
  - unfold Fields. rewrite !fields_word, fields_last by (done || apply showField_plain). done.
Qed.

(** C31 What an expression means: the text of an expression of the grammar (lists of
    [*], numbers and ranges, each with an optional step, numbers with or
    without leading zeros) parses if its numbers are in the range of their field, no range
    runs backwards, and every step is at least one and, added to the largest value of its
    field, below 2^63 (a larger one wraps around: [huge_step_wraps]); the parser keeps the
    text, and a reading of the clock
    matches the result exactly when the expression names its month, hour and
    minute and its day, where two restricted day fields are a union. *)
Theorem parse_spec_meaning (e : expression) :
  exprOk e -> exists s, ParseSpec (showExpr e) = Ret s /\ specText s = showExpr e /\ forall t, Match s t = means e t.
Proof.
  intros Hok. destruct (showExpr_text e Hok) as [Et Ef]. pose proof Hok as (H1 & H2 & H3 & H4 & H5).
  unfold ParseSpec. rewrite Et. destruct e as [mi h d mo w]. cbn [exMinute exHour exDom exMonth exDow] in *.
  assert (exists c s, showExpr (Expr mi h d mo w) = c :: s /\ (c = Byte.x2a \/ 0x30 <= byte_to_Z c <= 0x39)) as (c & s & Ec & Hc).
  { inversion H1 as [|? ? Ht _]. destruct (showField_cons _ _ _ mi.2 Ht) as (c & s & E & Hc). unfold showExpr. rewrite E. by eexists _, _. }
  rewrite bytes_eqb_false by (by rewrite Ec).
  assert (match showExpr (Expr mi h d mo w) with
          | Byte.x40 :: _ => match named (ToLower (showExpr (Expr mi h d mo w))) shortcuts with
                             | None => Fail (Errorf "croncmd: %q is not a known shortcut") | Some r => Ret r end
          | _ => Ret (showExpr (Expr mi h d mo w)) end = Ret (showExpr (Expr mi h d mo w))) as ->.
  { rewrite Ec. destruct c; try done. vm_compute in Hc. destruct Hc as [|[_ Hc]]; congruence. }
  cbn [mbind gores_bind]. rewrite Ef.
  destruct (parseField_show minuteMin minuteMax None mi.1 mi.2 nameless_None ltac:(done) ltac:(done) H1) as (m1 & -> & Hm1).
  destruct (parseField_show hourMin hourMax None h.1 h.2 nameless_None ltac:(done) ltac:(done) H2) as (m2 & -> & Hm2).
  destruct (parseField_show domMin domMax None d.1 d.2 nameless_None ltac:(done) ltac:(done) H3) as (m3 & -> & Hm3).
  destruct (parseField_show monthMin monthMax (Some monthNames) mo.1 mo.2 nameless_month ltac:(done) ltac:(done) H4) as (m4 & -> & Hm4).
  destruct (parseField_show dowMin dowMax (Some dowNames) w.1 w.2 nameless_dow ltac:(done) ltac:(done) H5) as (m5 & -> & Hm5).
  rewrite !wrap_Ret. cbn [mbind gores_bind]. eexists. split; [done|]. split; [done|]. intros t.
  pose proof (tMonth_range t). pose proof (tDay_range t). pose proof (tHour_range t). pose proof (tMinute_range t).
  pose proof (daysIn_31 (isLeap (tYear t)) (tMonth t) ltac:(lia)).
  assert (0 <= tWeekday t < 7) by (unfold tWeekday; apply Z.mod_pos_bound; lia).
  unfold Match, means, dayMatches, meansDay. cbn. rewrite !admits_testbit by lia. rewrite Hm1, Hm2, Hm3, Hm4, Hm5 by lia.
  rewrite !TrimSpace_plain by apply showField_plain.
  inversion H3 as [|? ? Hd _]. inversion H5 as [|? ? Hw _]. rewrite (restricted_show _ _ _ _ Hd), (restricted_show _ _ _ _ Hw).
  by destruct (restricted d.1 d.2), (restricted w.1 w.2).
Qed.

(** * Every result of the parser *)

(** The error at the bottom of a chain. *)
Fixpoint rootCause (e : error) : error :=
  match e with
  | Wrapf _ cause => rootCause cause
  | _ => e
  end.

(** A result that satisfies [P], or an error of the source: the loop's bound was enough. *)
Definition yields {A} (P : A -> Prop) (r : gores A) : Prop :=
  match r with
  | Ret a => P a
  | Fail e => rootCause e <> Errorf "fuel"
  | Panic => False
  end.

Lemma yields_bind {A B} (P : A -> Prop) (Q : B -> Prop) (m : gores A) (k : A -> gores B) :
  yields P m -> (forall a, P a -> yields Q (k a)) -> yields Q (m ≫= k).
Proof. destruct m; cbn; auto. Qed.

Lemma yields_wrap {A} (P : A -> Prop) fmt (m : gores A) : yields P m -> yields P (wrap_err fmt m).
Proof. by destruct m. Qed.

(** A non-empty mask of bits up to [max]. *)
Definition maskOk (max m : Z) : Prop := 0 < m < 2 ^ (max + 1).

Lemma maskLoop_nonneg fuel v hi step mask m : 0 <= mask -> maskLoop fuel v hi step mask = Ret m -> 0 <= m.
Proof.
  revert v mask. induction fuel as [|fuel IH]; intros v mask Hm; cbn [maskLoop]; destruct (hi <? v); try (by intros [= <-]).
  apply IH. apply Z.lor_nonneg. split; [done|]. unfold bit. destruct (_ && _); [|done]. apply Z.shiftl_nonneg. lia.
Qed.

Lemma maskOk_bits max m v : 0 <= max -> 0 <= v -> 0 <= m -> Z.testbit m v = true -> (forall i, 0 <= i -> Z.testbit m i = true -> i <= max) -> maskOk max m.
Proof.
  intros Hmax Hv Hm Hb Hle. split.
  - destruct (Z.eq_dec m 0) as [->|]; [by rewrite Z.bits_0 in Hb|lia].
  - destruct (Z.eq_dec m 0) as [->|Hne]; [apply Z.pow_pos_nonneg; lia|]. apply Z.log2_lt_pow2; [lia|].
    specialize (Hle (Z.log2 m) (Z.log2_nonneg m)). rewrite Z.bit_log2 in Hle by lia. specialize (Hle eq_refl). lia.
Qed.

Lemma maskOk_lor max a b : 0 <= max -> 0 <= a < 2 ^ (max + 1) -> maskOk max b -> maskOk max (Z.lor a b).
Proof.
  intros Hmax Ha Hb. unfold maskOk in *. assert (0 <= Z.lor a b) as Hn by (apply Z.lor_nonneg; lia).
  assert (Z.lor a b <> 0) as Hne by (rewrite Z.lor_eq_0_iff; lia). split; [lia|]. apply Z.log2_lt_pow2; [lia|]. rewrite Z.log2_lor by lia.
  apply Z.max_lub_lt; [|apply Z.log2_lt_pow2; lia]. destruct (Z.eq_dec a 0) as [->|]; [cbn; lia|]. apply Z.log2_lt_pow2; lia.
Qed.

Definition namesIn (min max : Z) (names : option (list (bytes * Z))) : Prop :=
  match names with
  | None => True
  | Some l => Forall (fun kv => min <= kv.2 <= max) l
  end.

Lemma named_in {A} name (l : list (bytes * A)) v : named name l = Some v -> exists k, (k, v) ∈ l.
Proof.
  induction l as [|[k a] l IH]; [done|]. cbn. destruct (bytes_eqb k name).
  - intros [= ->]. exists k. by left.
  - intros [k' Hk]%IH. exists k'. by right.
Qed.

Lemma parseValue_yields text min max names : namesIn min max names -> yields (fun v => min <= v <= max) (parseValue text min max names).
Proof.
  intros Hnm. unfold parseValue. destruct (bytes_eqb _ []); [done|].
  destruct (names ≫= _) as [v|] eqn:E.
  - destruct names as [l|]; [|done]. cbn in E. apply named_in in E as [k Hk]. cbn in *. rewrite Forall_forall in Hnm. by apply (Hnm (k, v)).
  - destruct (Atoi _) as [v|]; [|done]. cbv zeta. destruct (Z.ltb_spec (if bool_decide (is_Some names) && (max =? dowMax) && (v =? 7) then 0 else v) min); [done|].
    destruct (Z.ltb_spec max (if bool_decide (is_Some names) && (max =? dowMax) && (v =? 7) then 0 else v)); [done|]. cbn. lia.
Qed.

Lemma Atoi_range s v : Atoi s = Some v -> - 2 ^ 63 <= v < 2 ^ 63.
Proof.
  unfold Atoi. destruct (match s with Byte.x2d :: s' => (true, s') | Byte.x2b :: s' => (false, s') | _ => (false, s) end) as [neg ds].
  destruct ds; [done|]. destruct (digitsFrom _ _) as [u|]; [|done]. cbv zeta.
  destruct (Z.leb_spec (- 2 ^ 63) (if neg then - u else u)), (Z.ltb_spec (if neg then - u else u) (2 ^ 63)); try done. intros [= <-]. done.
Qed.

Lemma parseTerm_yields term min max names : 0 <= min <= max -> max < 64 -> namesIn min max names -> yields (maskOk max) (parseTerm term min max names).
Proof.
  intros Hmin Hmax Hnm. unfold parseTerm. destruct (bytes_eqb term []); [done|].
  destruct (match cut_at Byte.x2f term with Some (a, b) => (a, Some b) | None => (term, None) end) as [rangePart stepPart].
  apply yields_bind with (P := fun step => 1 <= step < 2 ^ 63).
  { destruct stepPart as [s|]; [|cbn; lia]. destruct (Atoi _) as [parsed|] eqn:E; [|done]. apply Atoi_range in E.
    destruct (Z.ltb_spec parsed 1); cbn; [done|lia]. }
  intros step Hst. apply yields_bind with (P := fun b => min <= b.1 <= b.2 /\ b.2 <= max).
  { destruct (bytes_eqb _ (bs "*")); [cbn; lia|]. destruct (cut_at _ _) as [[a b]|].
    - eapply yields_bind; [by apply parseValue_yields|]. intros lo Hlo. eapply yields_bind; [by apply parseValue_yields|]. intros hi Hhi. cbn in *.
      destruct (Z.ltb_spec hi lo); cbn; [done|lia].
    - eapply yields_bind; [by apply parseValue_yields|]. intros v Hv. cbn in *. destruct stepPart; cbn; lia. }
  intros [lo hi] [Hlo Hhi]. cbn in Hlo, Hhi. destruct (maskLoop_returns lo hi step) as (m & E & Hb & Hle); [lia..|]. rewrite E. cbn.
  apply (maskOk_bits max m lo); [lia|lia| |done|]; [by eapply maskLoop_nonneg; [|exact E]|]. intros i Hi Hi'. specialize (Hle i Hi Hi'). lia.
Qed.

Lemma parseTerms_yields min max names terms : 0 <= min <= max -> max < 64 -> namesIn min max names -> forall mask,
  0 <= mask < 2 ^ (max + 1) -> yields (fun m => 0 <= m < 2 ^ (max + 1)) (parseTerms terms min max names mask).
Proof.
  intros Hmin Hmax Hnm. induction terms as [|t ts IH]; intros mask Hm; cbn [parseTerms]; [done|].
  eapply yields_bind; [by apply parseTerm_yields|]. intros m Hok. apply IH. pose proof (maskOk_lor max mask m ltac:(lia) Hm Hok) as [? ?]. lia.
Qed.

Lemma parseField_yields field min max names : 0 <= min <= max -> max < 64 -> namesIn min max names -> yields (maskOk max) (parseField field min max names).
Proof.
  intros Hmin Hmax Hnm. unfold parseField. destruct (bytes_eqb _ []); [done|].
  eapply yields_bind; [apply parseTerms_yields; try done; split; [done|apply Z.pow_pos_nonneg; lia]|].
  intros m Hm. cbn in Hm. destruct (Z.eqb_spec m 0); cbn; [done|]. unfold maskOk. lia.
Qed.

Definition specOk (s : Spec) : Prop :=
  maskOk minuteMax (specMinute s) /\ maskOk hourMax (specHour s) /\ maskOk domMax (specDom s) /\ maskOk monthMax (specMonth s) /\ maskOk dowMax (specDow s).

(** C32 What the parser returns, for any text: either an expression each of whose five
    masks is non-empty and within its field's values, or one of the parser's
    errors; it does not panic, and the loop that fills a mask ends, although
    the sum in it can wrap around. *)
Theorem parse_spec_well_typed (expr : bytes) : yields specOk (ParseSpec expr).
Proof.
  unfold ParseSpec. destruct (bytes_eqb _ []); [done|].
  apply yields_bind with (P := fun _ => True).
  { destruct (TrimSpace expr) as [|[] ?]; try done. by destruct (named _ _). }
  intros text _. destruct (Fields text) as [|f0 [|f1 [|f2 [|f3 [|f4 [|]]]]]]; try done.
  eapply yields_bind; [apply yields_wrap, parseField_yields; done|]. intros mi Hmi.
  eapply yields_bind; [apply yields_wrap, parseField_yields; done|]. intros h Hh.
  eapply yields_bind; [apply yields_wrap, parseField_yields; done|]. intros d Hd.
  eapply yields_bind; [apply yields_wrap, parseField_yields; [done|done|]|].
  { unfold namesIn, monthNames. repeat (constructor; [split; vm_compute; discriminate|]). constructor. }
  intros mo Hmo. eapply yields_bind; [apply yields_wrap, parseField_yields; [done|done|]|].
  { unfold namesIn, dowNames. repeat (constructor; [split; vm_compute; discriminate|]). constructor. }
  intros w Hw. by split_and!.
Qed.

(** A step near the largest [int] wraps the loop variable around, and minutes the
    expression does not name are set: 5, and then 3 and 1. *)
Theorem huge_step_wraps : exists s, ParseSpec (bs "5/9223372036854775807 * * * *") = Ret s /\
  (forall i, 0 <= i < 60 -> admits (specMinute s) i = bool_decide (i ∈ [1; 3; 5])).
Proof.
  eexists. split; [vm_compute; reflexivity|]. cbn [specMinute]. intros i Hi.
  assert (forallb (fun i => Bool.eqb (admits 42 i) (bool_decide (i ∈ [1; 3; 5]))) (seqZ 0 60) = true) as Hall by (vm_compute; reflexivity).
  rewrite forallb_forall in Hall. apply eqb_prop, Hall. rewrite <- list_elem_of_In, elem_of_seqZ. lia.
Qed.
