(* ===== verification/Files.v ===== *)
(** Files as the registry and the local transport use them: programs over the file
    operations of packages [os], [path/filepath] and [crypto/rand], the disk they act
    on, and a logic for the states a program goes through. *)

From S2P Require Import Prelude SystemKeys Payloads LogRecord Txn.
#[local] Open Scope Z_scope.

(** * Package [path/filepath], with [/] as separator *)

Definition sep : byte := Byte.x2f.

Fixpoint components (cur s : bytes) : list bytes :=
  match s with
  | [] => [cur]
  | c :: s' => if bool_decide (c = sep) then cur :: components [] s' else components (cur ++ [c]) s'
  end.

(** The components that are left, the last first. *)
Fixpoint cleaned (rooted : bool) (stack l : list bytes) : list bytes :=
  match l with
  | [] => stack
  | c :: l' =>
    if bytes_eqb c [] || bytes_eqb c (bs ".") then cleaned rooted stack l' else
    if bytes_eqb c (bs "..") then
      match stack with
      | top :: stack' => cleaned rooted (if bytes_eqb top (bs "..") then c :: stack else stack') l'
      | [] => cleaned rooted (if rooted then [] else [c]) l'
      end
    else cleaned rooted (c :: stack) l'
  end.

Fixpoint withSeps (l : list bytes) : bytes :=
  match l with
  | [] => []
  | [c] => c
  | c :: l' => c ++ sep :: withSeps l'
  end.

Definition Clean (p : bytes) : bytes :=
  let rooted := match p with c :: _ => bool_decide (c = sep) | [] => false end in
  let path := withSeps (reverse (cleaned rooted [] (components [] p))) in
  if rooted then sep :: path else if bytes_eqb path [] then bs "." else path.

Definition Join (elem : list bytes) : bytes :=
  match filter (fun e => e <> []) elem with
  | [] => []
  | l => Clean (withSeps l)
  end.

(** * Programs over files *)

(** What [os.IsNotExist] and [os.IsExist] tell apart. *)
Inductive ioerr : Type :=
| NotExist
| AlreadyExists
| OtherIO.

Definition ioError (e : ioerr) : error :=
  match e with
  | NotExist => Errorf "file does not exist"
  | AlreadyExists => Errorf "file exists"
  | OtherIO => ErrIO
  end.

Definition io (A : Type) : Type := ioerr + A.

(** A handle is the file it was opened on; a map is iterated in some order. *)
Inductive fsop : Type :=
| OReadFile (path : bytes)
| OCreate (path : bytes)
| OCreateTemp (dir pattern : bytes)
| OWrite (h : nat) (data : bytes)
| OClose (h : nat)
| ORename (from to : bytes)
| OLink (from to : bytes)
| ORemove (path : bytes)
| OMkdirAll (path : bytes)
| ORand (n : nat)
| ORange (n : nat).

Definition fsreply (o : fsop) : Type :=
  match o with
  | OReadFile _ => io bytes
  | OCreate _ => io nat
  | OCreateTemp _ _ => io (bytes * nat)
  | OWrite _ _ | OClose _ | ORename _ _ | OLink _ _ | ORemove _ | OMkdirAll _ => io unit
  | ORand _ => io bytes
  | ORange _ => list nat
  end.

Inductive fprog (A : Type) : Type :=
| FDone (a : A)
| FDo (o : fsop) (k : fsreply o -> fprog A).
Arguments FDone {A} a.
Arguments FDo {A} o k.

Fixpoint fafter {A B} (p : fprog A) (k : A -> fprog B) : fprog B :=
  match p with
  | FDone a => k a
  | FDo o c => FDo o (fun r => fafter (c r) k)
  end.

(** Programs that return a value or an error. *)
Definition F (A : Type) : Type := fprog (gores A).
#[global] Instance F_ret : MRet F := fun A a => FDone (Ret a).
#[global] Instance F_bind : MBind F := fun A B f p =>
  fafter p (fun r => match r with Ret a => f a | Fail e => FDone (Fail e) | Panic => FDone Panic end).

Definition liftF {A} (r : gores A) : F A := FDone r.
Definition wrapF {A} (fmt : String.string) (p : F A) : F A := fafter p (fun r => FDone (wrap_err fmt r)).
Arguments wrapF {A} fmt%_string_scope p.

(** The error of an operation as the program's own. *)
Definition orFail {A} (r : io A) : gores A := match r with inr a => Ret a | inl e => Fail (ioError e) end.

(** [os.WriteFile]: the error of the write before that of closing. *)
Definition WriteFile (path data : bytes) : F unit :=
  FDo (OCreate path) (fun f =>
    match f with
    | inl e => liftF (Fail (ioError e))
    | inr h => FDo (OWrite h data) (fun w => FDo (OClose h) (fun c => liftF (_ ← orFail w; orFail c)))
    end).

(** * The disk *)

(** Names for files and the files' contents: two names of one file share them. *)
Record disk : Type := mkDisk {
  names : gmap bytes nat;
  contents : gmap nat bytes;
}.

Definition set_names (f : gmap bytes nat -> gmap bytes nat) (d : disk) : disk := mkDisk (f (names d)) (contents d).
Definition set_contents (f : gmap nat bytes -> gmap nat bytes) (d : disk) : disk := mkDisk (names d) (f (contents d)).

(** What a name leads to. *)
Definition readAt (d : disk) (path : bytes) : option bytes := i ← names d !! path; contents d !! i.

(** The next bytes of a file that one handle writes. *)
Definition append (h : nat) (data : bytes) : disk -> disk := set_contents (alter (fun old => old ++ data) h).

(** [rename] of a name of a file to another one of the same file does nothing. *)
Definition renamed (from to : bytes) (i : nat) (d : disk) : disk :=
  if bool_decide (names d !! to = Some i) then d else set_names (fun m => <[to := i]> (delete from m)) d.

(** The name of a temporary file: [*] stands for digits, and without a directory it goes
    to the system's. *)
Definition tempName (dir pattern path : bytes) : Prop :=
  exists d digits, path = d ++ sep :: pattern ++ digits /\ (dir <> [] -> dir = d \/ dir = d ++ [sep]) /\
    digits <> [] /\ Forall (fun c => 0x30 <= byte_to_Z c <= 0x39) digits.

(** A name for a new empty file. *)
Definition created (p : bytes) (i : nat) (d : disk) : disk := mkDisk (<[p := i]> (names d)) (<[i := []]> (contents d)).

(** What an operation may reply, and the disk after it. *)
Definition performs (d : disk) (o : fsop) : fsreply o -> disk -> Prop :=
  match o as o return fsreply o -> disk -> Prop with
  | OReadFile p => fun r d' => d' = d /\
      match r with
      | inr data => readAt d p = Some data
      | inl e => e = NotExist /\ names d !! p = None
      end
  | OCreate p => fun r d' =>
      match r with
      | inr i => names d !! p = Some i /\ d' = set_contents <[i := []]> d \/
                 names d !! p = None /\ contents d !! i = None /\ d' = created p i d
      | inl _ => False
      end
  | OCreateTemp dir pattern => fun r d' =>
      match r with
      | inr (p, i) => tempName dir pattern p /\ names d !! p = None /\ contents d !! i = None /\ d' = created p i d
      | inl _ => False
      end
  | OWrite h data => fun r d' => r = inr tt /\ d' = append h data d
  | OClose _ | OMkdirAll _ => fun r d' => r = inr tt /\ d' = d
  | ORename p q => fun r d' =>
      match r with
      | inr _ => exists i, names d !! p = Some i /\ d' = renamed p q i d
      | inl e => e = NotExist /\ names d !! p = None /\ d' = d
      end
  | OLink p q => fun r d' =>
      match r with
      | inr _ => exists i, names d !! p = Some i /\ names d !! q = None /\ d' = set_names <[q := i]> d
      | inl e => d' = d /\ (e = AlreadyExists /\ is_Some (names d !! q) \/ e = NotExist /\ names d !! p = None)
      end
  | ORemove p => fun r d' =>
      match r with
      | inr _ => is_Some (names d !! p) /\ d' = set_names (delete p) d
      | inl e => e = NotExist /\ names d !! p = None /\ d' = d
      end
  | ORand n => fun r d' => d' = d /\ match r with inr b => length b = n | inl _ => False end
  | ORange n => fun r d' => d' = d /\ r ≡ₚ seq 0 n
  end.

(** The reply by which an operation fails without effect. *)
Definition fault (o : fsop) : option (fsreply o) :=
  match o as o return option (fsreply o) with
  | ORange _ => None
  | OReadFile _ | OCreate _ | OCreateTemp _ _ | OWrite _ _ | OClose _ | ORename _ _ | OLink _ _ | ORemove _ | OMkdirAll _ | ORand _ => Some (inl OtherIO)
  end.

(** One step of a program; a write may go on byte after byte, and with [faults] any
    operation may fail, a write after a part of its bytes. *)
Inductive fstep (faults : bool) {A} : disk * fprog A -> disk * fprog A -> Prop :=
| fstep_op d o k r d' : performs d o r d' -> fstep faults (d, FDo o k) (d', k r)
| fstep_fault d o k r : faults = true -> fault o = Some r -> fstep faults (d, FDo o k) (d, k r)
| fstep_part d h a b (k : io unit -> fprog A) : a <> [] -> b <> [] ->
    fstep faults (d, FDo (OWrite h (a ++ b)) k) (append h a d, FDo (OWrite h b) k).

(** * The states a program goes through *)

Section Safe.
Context (faults : bool) {A : Type} (I : disk -> Prop) (Q : disk -> A -> Prop).

(** [I] holds all along, there is always a next step, and [Q] holds at the end. *)
Fixpoint safe (p : fprog A) (d : disk) : Prop :=
  I d /\
  match p with
  | FDone a => Q d a
  | FDo o k =>
    (exists r d', performs d o r d') /\
    (forall r d', performs d o r d' -> safe (k r) d') /\
    (faults = true -> forall r, fault o = Some r -> safe (k r) d) /\
    match o as o return (fsreply o -> fprog A) -> Prop with
    | OWrite h data => fun k => forall a b, data = a ++ b -> I (append h a d) /\ (faults = true -> safe (k (inl OtherIO)) (append h a d))
    | _ => fun _ => True
    end k
  end.

Lemma safe_here p d : safe p d -> I d.
Proof. by destruct p; intros [? _]. Qed.

Lemma append_append h a b d : append h b (append h a d) = append h (a ++ b) d.
Proof.
  unfold append, set_contents. cbn. f_equal. apply map_eq. intros i. destruct (decide (i = h)) as [->|Hi].
  - rewrite !lookup_alter_eq, <- option_fmap_compose. destruct (contents d !! h) as [x|]; cbn; [|done]. by rewrite (assoc_L (++)).
  - by rewrite !lookup_alter_ne.
Qed.

Lemma append_nil h d : append h [] d = d.
Proof.
  destruct d as [n c]. unfold append, set_contents. cbn. f_equal. apply alter_id. intros x _. apply (right_id_L [] (++)).
Qed.

Lemma safe_step p d p' d' : safe p d -> fstep faults (d, p) (d', p') -> safe p' d'.
Proof.
  intros Hs Hf. remember (d, p) as s eqn:Es. remember (d', p') as s' eqn:Es'. revert Hs.
  destruct Hf as [d0 o k r d1 Hp|d0 o k r Hb Hr|d0 h a b k Ha Hb]; simplify_eq.
  - intros (_ & _ & H1 & _). by apply H1.
  - intros (_ & _ & _ & H2 & _). by apply H2.
  - intros (Hi & _ & H1 & H2 & H3). destruct (H3 a b eq_refl) as [Hia Hfa]. split; [done|]. split; [|split; [|split]].
    + by do 2 eexists.
    + intros r d' [-> ->]. apply H1. by rewrite append_append.
    + intros Hf r [= <-]. by apply Hfa.
    + intros a' b' ->. rewrite append_append. split.
      * by apply (H3 (a ++ a') b'); rewrite (assoc_L (++)).
      * intros Hf. by apply (H3 (a ++ a') b'); rewrite ?(assoc_L (++)).
Qed.

Lemma safe_steps p d p' d' : safe p d -> rtc (fstep faults) (d, p) (d', p') -> safe p' d'.
Proof.
  intros Hs Hr. remember (d, p) as s eqn:Es. remember (d', p') as s' eqn:Es'. revert p d Hs Es p' d' Es'.
  induction Hr as [s|s [d1 p1] s' H1 _ IH]; intros p d Hs -> p' d' E; simplify_eq; [done|].
  apply (IH p1 d1); [|done..]. by eapply safe_step.
Qed.

(** The program can be run to its end. *)
Lemma safe_completes p : forall d, safe p d -> exists d' a, rtc (fstep faults) (d, p) (d', FDone a) /\ Q d' a.
Proof.
  induction p as [a|o k IH]; intros d Hs.
  - exists d, a. split; [done|]. by destruct Hs.
  - destruct Hs as (_ & (r & d1 & Hp) & H1 & _). destruct (IH r d1 (H1 _ _ Hp)) as (d' & a & Hr & HQ).
    exists d', a. split; [|done]. eapply rtc_l; [|done]. by constructor.
Qed.

End Safe.

Lemma safe_after faults {A B} I (Q1 : disk -> A -> Prop) (Q : disk -> B -> Prop) p (k : A -> fprog B) :
  (forall d a, I d -> Q1 d a -> safe faults I Q (k a) d) ->
  forall d, safe faults I Q1 p d -> safe faults I Q (fafter p k) d.
Proof.
  intros Hk. induction p as [a|o c IH]; cbn [fafter]; intros d Hs.
  - destruct Hs. by apply Hk.
  - destruct Hs as (Hi & Hx & H1 & H2 & H3). split; [done|]. split; [done|]. split; [|split].
    + intros r d' Hp. apply IH. by apply H1.
    + intros Hf r Hr. apply IH. by apply H2.
    + destruct o; try done. intros a b E. destruct (H3 a b E) as [Ha Hb]. split; [done|]. intros Hf. apply IH. by apply Hb.
Qed.

Lemma safe_mono faults {A} (I : disk -> Prop) (Q Q' : disk -> A -> Prop) p :
  (forall d a, I d -> Q d a -> Q' d a) -> forall d, safe faults I Q p d -> safe faults I Q' p d.
Proof.
  intros HQ. induction p as [a|o c IH]; intros d Hs.
  - destruct Hs. split; [done|]. by apply HQ.
  - destruct Hs as (Hi & Hx & H1 & H2 & H3). split; [done|]. split; [done|]. split; [|split].
    + intros r d' Hp. apply IH. by apply H1.
    + intros Hf r Hr. apply IH. by apply H2.
    + destruct o; try done. intros a b E. destruct (H3 a b E) as [Ha Hb]. split; [done|]. intros Hf. apply IH. by apply Hb.
Qed.

(** * Files of one name *)

(** Every name leads to a file. *)
Definition solid (d : disk) : Prop := forall p i, names d !! p = Some i -> is_Some (contents d !! i).

(** The file at [p], if there is one, has no other name. *)
Definition sole (d : disk) (p : bytes) : Prop := forall q i, names d !! p = Some i -> names d !! q = Some i -> q = p.

Lemma readAt_None d p : solid d -> readAt d p = None <-> names d !! p = None.
Proof.
  intros Hs. unfold readAt. destruct (names d !! p) as [i|] eqn:E; cbn; [|done]. destruct (Hs p i E) as [c ->]. done.
Qed.

(** [d1] is [d] with a file of content [c] of its own at [tmp]. *)
Record staged (tmp : bytes) (h : nat) (c : bytes) (d d1 : disk) : Prop := mkStaged {
  staged_name : names d1 !! tmp = Some h;
  staged_content : contents d1 !! h = Some c;
  staged_names q : q <> tmp -> names d1 !! q = names d !! q;
  staged_fresh q : q <> tmp -> names d !! q <> Some h;
  staged_contents i : i <> h -> contents d1 !! i = contents d !! i;
}.

Lemma staged_readAt tmp h c d d1 q : staged tmp h c d d1 -> q <> tmp -> readAt d1 q = readAt d q.
Proof.
  intros Hst Hq. unfold readAt. rewrite (staged_names _ _ _ _ _ Hst q Hq).
  destruct (names d !! q) as [i|] eqn:E; cbn; [|done]. apply (staged_contents _ _ _ _ _ Hst). intros ->.
  by apply (staged_fresh _ _ _ _ _ Hst q Hq).
Qed.

Lemma staged_solid tmp h c d d1 : staged tmp h c d d1 -> solid d -> solid d1.
Proof.
  intros Hst Hs p i Hp. destruct (decide (i = h)) as [->|Hi]; [rewrite (staged_content _ _ _ _ _ Hst); by eexists|].
  rewrite (staged_contents _ _ _ _ _ Hst i Hi). destruct (decide (p = tmp)) as [->|Hne].
  - rewrite (staged_name _ _ _ _ _ Hst) in Hp. by simplify_eq.
  - apply (Hs p). by rewrite <- (staged_names _ _ _ _ _ Hst p Hne).
Qed.

Lemma staged_sole tmp h c d d1 p : staged tmp h c d d1 -> p = tmp \/ sole d p -> sole d1 p.
Proof.
  intros Hst Hp q i Hpi Hqi. destruct (decide (p = tmp)) as [->|Hne], (decide (q = tmp)) as [->|Hq].
  - done.
  - rewrite (staged_name _ _ _ _ _ Hst) in Hpi. rewrite (staged_names _ _ _ _ _ Hst q Hq) in Hqi. simplify_eq.
    by destruct (staged_fresh _ _ _ _ _ Hst q Hq).
  - rewrite (staged_name _ _ _ _ _ Hst) in Hqi. rewrite (staged_names _ _ _ _ _ Hst p Hne) in Hpi. simplify_eq.
    by destruct (staged_fresh _ _ _ _ _ Hst p Hne).
  - destruct Hp as [->|Hs]; [done|]. rewrite (staged_names _ _ _ _ _ Hst p Hne) in Hpi. rewrite (staged_names _ _ _ _ _ Hst q Hq) in Hqi. by apply (Hs q i).
Qed.

Lemma staged_append tmp h c a d d1 : staged tmp h c d d1 -> staged tmp h (c ++ a) d (append h a d1).
Proof.
  intros [H1 H2 H3 H4 H5]. split; cbn; try done.
  - by rewrite lookup_alter_eq, H2.
  - intros i Hi. rewrite lookup_alter_ne by done. by apply H5.
Qed.

(** [os.Create] of a name of its own *)
Lemma create_staged d tmp h d1 : solid d -> sole d tmp -> performs d (OCreate tmp) (inr h) d1 -> staged tmp h [] d d1.
Proof.
  intros Hs Ht [[Hn ->]|(Hn & Hc & ->)]; split; cbn; rewrite ?lookup_insert_eq; try done.
  - intros q Hq E. destruct (Hq (Ht q h Hn E)).
  - intros i Hi. by rewrite lookup_insert_ne.
  - intros q Hq. by rewrite lookup_insert_ne.
  - intros q Hq E. destruct (Hs q h E) as [x Hx]. congruence.
  - intros i Hi. by rewrite lookup_insert_ne.
Qed.

(** * Paths *)

Definition plainName (name : bytes) : Prop := sep ∉ name /\ name <> [] /\ name <> bs "." /\ name <> bs "..".

Lemma components_plain acc name : sep ∉ name -> components acc name = [acc ++ name].
Proof.
  revert acc. induction name as [|x name IH]; intros acc Hn; cbn; [by rewrite (right_id_L [] (++))|]. apply not_elem_of_cons in Hn as [Hx Hn].
  rewrite bool_decide_eq_false_2 by done. rewrite IH by done. by rewrite <- (assoc_L (++)).
Qed.

Lemma components_last cur s name : sep ∉ name -> components cur (s ++ sep :: name) = components cur s ++ [name].
Proof.
  intros Hn. revert cur. induction s as [|c s IH]; intros cur; cbn.
  - rewrite bool_decide_eq_true_2 by done. by rewrite components_plain.
  - destruct (bool_decide (c = sep)); cbn; by rewrite IH.
Qed.

Lemma cleaned_last rooted stack l name : plainName name -> exists l', cleaned rooted stack (l ++ [name]) = name :: l'.
Proof.
  intros (_ & H1 & H2 & H3). revert stack. induction l as [|c l IH]; intros stack; cbn [cleaned app].
  - rewrite !bytes_eqb_false by done. cbn. by eexists.
  - destruct (bytes_eqb c [] || bytes_eqb c (bs ".")); [apply IH|]. destruct (bytes_eqb c (bs "..")); [|apply IH].
    destruct stack; apply IH.
Qed.

Lemma withSeps_last l name : exists pre, withSeps (l ++ [name]) = pre ++ name.
Proof.
  induction l as [|c l [pre E]]; [by exists []|]. cbn [app withSeps]. destruct (l ++ [name]) as [|y l'] eqn:El.
  - by apply app_eq_nil in El as [_ ?].
  - exists (c ++ sep :: pre). rewrite E. by rewrite <- (assoc_L (++)).
Qed.

Lemma Clean_last p l name : plainName name -> components [] p = l ++ [name] -> exists pre, Clean p = pre ++ name.
Proof.
  intros Hn El. unfold Clean. cbv zeta. rewrite El. set (rooted := match p with [] => false | c :: _ => bool_decide (c = sep) end).
  destruct (cleaned_last rooted [] l name Hn) as [l' ->]. rewrite reverse_cons. destruct (withSeps_last (reverse l') name) as [pre ->].
  destruct rooted; [by exists (sep :: pre)|]. destruct Hn as (_ & Hn & _). rewrite bytes_eqb_false; [by exists pre|].
  intros E. by apply app_eq_nil in E as [_ ?].
Qed.

(** The path of a file in a directory ends in the file's name. *)
Lemma Join_last dir name : plainName name -> exists pre, Join [dir; name] = pre ++ name.
Proof.
  intros Hn. pose proof Hn as (Hsep & Hne & _). unfold Join. destruct dir as [|c dir].
  - rewrite filter_cons_False by auto. rewrite filter_cons_True by done. apply (Clean_last _ []); [done|]. by apply components_plain.
  - rewrite filter_cons_True by done. rewrite filter_cons_True by done. cbn [withSeps filter list_filter].
    apply (Clean_last _ (components [] (c :: dir))); [done|]. by apply (components_last [] (c :: dir)).
Qed.

(** * Running a program *)

(** A name longer than all the others, and a file that is new *)
Definition freeName (d : disk) (dir pattern : bytes) : bytes :=
  dir ++ sep :: pattern ++ replicate (S (foldr (fun x n => length x + n)%nat O (elements (dom (names d))))) Byte.x30.
Definition freeFile (d : disk) : nat := fresh (dom (contents d) : gset nat).

(** One of the outcomes of an operation *)
Definition perform (d : disk) (o : fsop) : fsreply o * disk :=
  match o as o return fsreply o * disk with
  | OReadFile p => (match readAt d p with Some data => inr data | None => inl NotExist end, d)
  | OCreate p =>
    match names d !! p with
    | Some i => (inr i, set_contents <[i := []]> d)
    | None => (inr (freeFile d), created p (freeFile d) d)
    end
  | OCreateTemp dir pattern => let p := freeName d dir pattern in (inr (p, freeFile d), created p (freeFile d) d)
  | OWrite h data => (inr tt, append h data d)
  | OClose _ | OMkdirAll _ => (inr tt, d)
  | ORename p q => match names d !! p with Some i => (inr tt, renamed p q i d) | None => (inl NotExist, d) end
  | OLink p q =>
    match names d !! p, names d !! q with
    | Some i, None => (inr tt, set_names <[q := i]> d)
    | None, _ => (inl NotExist, d)
    | _, Some _ => (inl AlreadyExists, d)
    end
  | ORemove p => match names d !! p with Some _ => (inr tt, set_names (delete p) d) | None => (inl NotExist, d) end
  | ORand n => (inr (replicate n Byte.x00), d)
  | ORange n => (seq 0 n, d)
  end.

Fixpoint frun {A} (p : fprog A) (d : disk) : A * disk :=
  match p with
  | FDone a => (a, d)
  | FDo o k => let '(r, d') := perform d o in frun (k r) d'
  end.

Lemma freeName_free d dir pattern : tempName dir pattern (freeName d dir pattern) /\ names d !! freeName d dir pattern = None.
Proof.
  unfold freeName. set (n := S _). split.
  - exists dir, (replicate n Byte.x30). split; [done|]. split; [by left|]. split; [done|]. apply Forall_replicate. by vm_compute.
  - apply not_elem_of_dom. intros Hp. apply elem_of_elements in Hp.
    assert (Hl : forall (l : list bytes) x, x ∈ l -> (length x <= foldr (fun x n => length x + n)%nat O l)%nat).
    { clear. induction l as [|y l IH]; intros x; [by intros ?%elem_of_nil|]. intros [->|Hx]%elem_of_cons; cbn; [lia|]. specialize (IH x Hx). lia. }
    apply Hl in Hp. rewrite length_app in Hp. cbn [length] in Hp. rewrite length_app, length_replicate in Hp. unfold n in Hp. lia.
Qed.

Lemma freeFile_free d : contents d !! freeFile d = None.
Proof. unfold freeFile. apply not_elem_of_dom, is_fresh. Qed.

Lemma perform_ok d o : solid d -> performs d o (perform d o).1 (perform d o).2.
Proof.
  intros Hs. destruct o as [p|p|dir pattern|h data|h|p q|p q|p|p|n|n]; cbn [perform performs]; try done.
  - destruct (readAt d p) eqn:E; cbn; [done|]. split; [done|]. split; [done|]. by apply readAt_None.
  - destruct (names d !! p) as [i|] eqn:E; cbn; [by left|right]. split; [done|]. split; [apply freeFile_free|done].
  - destruct (freeName_free d dir pattern) as [H1 H2]. cbn. split; [done|]. split; [done|]. split; [apply freeFile_free|done].
  - destruct (names d !! p) as [i|] eqn:E; cbn; by eauto.
  - destruct (names d !! p) as [i|] eqn:E; [destruct (names d !! q) eqn:Eq|]; cbn; eauto 10.
  - destruct (names d !! p) as [i|] eqn:E; cbn; by eauto.
  - cbn. split; [done|]. apply length_replicate.
Qed.

Lemma performs_solid d o r d' : solid d -> performs d o r d' -> solid d'.
Proof.
  intros Hs Hp. assert (Hnew : forall p i, solid (created p i d)).
  { intros p i q j. cbn. intros [[<- <-]|[_ E]]%lookup_insert_Some; [rewrite lookup_insert_eq; by eexists|].
    destruct (decide (i = j)) as [<-|Hij]; [rewrite lookup_insert_eq; by eexists|]. rewrite lookup_insert_ne by done. by apply (Hs q). }
  assert (Hmap : forall d1, names d1 = names d -> (forall i, is_Some (contents d !! i) -> is_Some (contents d1 !! i)) -> solid d1).
  { intros d1 En Hc q j. rewrite En. intros E. by apply Hc, (Hs q). }
  destruct o as [p|p|dir pattern|h data|h|p q|p q|p|p|n|n]; cbn in Hp.
  - by destruct Hp as [-> _].
  - destruct r as [e|i]; [done|]. destruct Hp as [[_ ->]|(_ & _ & ->)]; [|done]. apply Hmap; [done|]. intros j Hj. cbn.
    destruct (decide (i = j)) as [<-|Hij]; [rewrite lookup_insert_eq; by eexists|]. by rewrite lookup_insert_ne.
  - destruct r as [e|[p i]]; [done|]. by destruct Hp as (_ & _ & _ & ->).
  - destruct Hp as [_ ->]. apply Hmap; [done|]. intros j [c Hj]. cbn. destruct (decide (h = j)) as [<-|Hij]; [rewrite lookup_alter_eq, Hj|rewrite lookup_alter_ne, Hj by done]; by eexists.
  - by destruct Hp as [_ ->].
  - destruct r as [e|u]; [by destruct Hp as (_ & _ & ->)|]. destruct Hp as (i & Hi & ->). unfold renamed. case_bool_decide; [done|].
    intros x j. cbn. intros [[<- <-]|[_ [_ E]%lookup_delete_Some]]%lookup_insert_Some; [by apply (Hs p)|by apply (Hs x)].
  - destruct r as [e|u]; [by destruct Hp as [-> _]|]. destruct Hp as (i & Hi & _ & ->). intros x j. cbn.
    intros [[<- <-]|[_ E]]%lookup_insert_Some; [by apply (Hs p)|by apply (Hs x)].
  - destruct r as [e|u]; [by destruct Hp as (_ & _ & ->)|]. destruct Hp as [_ ->]. intros x j. cbn. intros [_ E]%lookup_delete_Some. by apply (Hs x).
  - by destruct Hp as [_ ->].
  - by destruct Hp as [-> _].
  - by destruct Hp as [-> _].
Qed.

Lemma frun_steps faults {A} (p : fprog A) d : solid d -> rtc (fstep faults) (d, p) ((frun p d).2, FDone (frun p d).1).
Proof.
  revert d. induction p as [a|o k IH]; intros d Hs; [done|]. cbn [frun]. pose proof (perform_ok d o Hs) as Hp.
  destruct (perform d o) as [r d'] eqn:E. eapply rtc_l; [by apply fstep_op|]. apply IH. by eapply performs_solid.
Qed.

Lemma frun_solid {A} (p : fprog A) d : solid d -> solid (frun p d).2.
Proof.
  revert d. induction p as [a|o k IH]; intros d Hs; [done|]. cbn [frun]. pose proof (perform_ok d o Hs) as Hp.
  destruct (perform d o) as [r d'] eqn:E. apply IH. by eapply performs_solid.
Qed.
