(* ===== verification/Registry.v ===== *)
(** The registry of a machine's nodes (src/pkg/registry): the file of node records and
    the file that names the current node, and every operation on them. *)

From S2P Require Import Prelude SystemKeys Payloads LogRecord Txn Hex Calendar Cron Files.
#[local] Open Scope Z_scope.

(** * Data *)

Definition RoleLeader : bytes := bs "leader".
Definition RoleFollower : bytes := bs "follower".
Definition RolePending : bytes := bs "pending".

Record NodeInfo : Type := mkNodeInfo {
  PeerID : bytes;
  Role : bytes;
  DataDir : bytes;
  KeyPath : bytes;
  ListenAddrs : list bytes;
  LeaderPeerID : bytes;
  PID : Z;
  ClusterPeerID : bytes;
}.

(** The [Nodes] map of [file] *)
Abbreviation nodes := (gmap bytes NodeInfo) (only parsing).

(** What the registry takes from elsewhere: the process's environment, JSON, the keyed
    hash, and multiaddresses.  A JSON document may leave the map out. *)
Class RegistryEnv : Type := {
  Getenv : bytes -> bytes;
  UserHomeDir : gores bytes;
  json_nodes : nodes -> gores bytes;
  json_unnodes : bytes -> gores (option nodes);
  hmac_sha256 : bytes -> bytes -> bytes;
  Multiaddr : Type;
  newMultiaddr : bytes -> gores Multiaddr;
  addrPeerID : Multiaddr -> gores bytes;
}.

(** * Names *)

Definition EnvHome : bytes := bs "KVSTORE_HOME".

Definition jsonPath (Dir : bytes) : bytes := Join [Dir; bs "registry.json"].
Definition currentPath (Dir : bytes) : bytes := Join [Dir; bs "current"].
Definition tmpOf (path : bytes) : bytes := path ++ bs ".tmp".

Definition NodeDataDir (Dir peerID : bytes) : bytes := Join [Dir; bs "nodes"; peerID].
Definition ClusterDirName (peerID remotePeerID : bytes) : bytes := peerID ++ bs "-" ++ remotePeerID.
Definition ClusterDataDir (Dir peerID remotePeerID : bytes) : bytes := Join [Dir; bs "nodes"; ClusterDirName peerID remotePeerID].

Section Registry.
Context `{RegistryEnv}.

Definition Open : F bytes :=
  let dir := Getenv EnvHome in
  dir ← (if bytes_eqb dir [] then
           home ← liftF (wrap_err "registry: resolve home dir: %w" UserHomeDir);
           mret (Join [home; bs ".libp2p-kv-raft"])
         else mret dir);
  FDo (OMkdirAll dir) (fun r => liftF (wrap_err "registry: create %s: %w" (_ ← orFail r; Ret dir))).

(** * The two files *)

Definition load (Dir : bytes) : F nodes :=
  FDo (OReadFile (jsonPath Dir)) (fun r =>
    match r with
    | inl NotExist => liftF (Ret ∅)
    | inl e => liftF (Fail (ioError e))
    | inr data =>
      if bytes_eqb data [] then liftF (Ret ∅) else
      f ← liftF (wrap_err "registry: parse %s: %w" (json_unnodes data));
      mret (default ∅ f)
    end).

(** A new file in place of the one at [path] *)
Definition replace (path data : bytes) : F unit :=
  _ ← WriteFile (tmpOf path) data;
  FDo (ORename (tmpOf path) path) (fun r => liftF (orFail r)).

Definition save (Dir : bytes) (f : nodes) : F unit :=
  data ← liftF (json_nodes f);
  replace (jsonPath Dir) data.

Definition Current (Dir : bytes) : F bytes :=
  FDo (OReadFile (currentPath Dir)) (fun r =>
    match r with
    | inl NotExist => liftF (Fail (Errorf "registry: no current node selected; run `mage addnode` or `mage use <peer-id>` first"))
    | inl e => liftF (Fail (ioError e))
    | inr data => liftF (Ret data)
    end).

Definition SetCurrent (Dir peerID : bytes) : F unit := replace (currentPath Dir) peerID.

(** * Operations *)

Definition Put (Dir : bytes) (info : NodeInfo) : F unit :=
  f ← load Dir;
  save Dir (<[PeerID info := info]> f).

Definition Get (Dir peerID : bytes) : F (option NodeInfo) :=
  f ← load Dir;
  mret (f !! peerID).

(** In the order in which the map is iterated. *)
Definition List (Dir : bytes) : F (list NodeInfo) :=
  f ← load Dir;
  FDo (ORange (size f)) (fun order => liftF (Ret (omap (fun i => snd <$> map_to_list f !! i) order))).

Definition Delete (Dir peerID : bytes) : F unit :=
  f ← load Dir;
  _ ← save Dir (delete peerID f);
  fafter (Current Dir) (fun cur =>
    match cur with
    | Ret cur =>
      if bytes_eqb cur peerID then
        FDo (ORemove (currentPath Dir)) (fun r =>
          match r with
          | inl NotExist | inr _ => liftF (Ret tt)
          | inl e => liftF (Fail (ioError e))
          end)
      else liftF (Ret tt)
    | Fail _ => liftF (Ret tt)
    | Panic => liftF Panic
    end).

Definition ResolveAddress (Dir peerID : bytes) : F bytes :=
  info ← Get Dir peerID;
  match info with
  | None => liftF (Fail (Errorf "registry: unknown peer id %s (not created on this machine)"))
  | Some info =>
    match ListenAddrs info with
    | [] => liftF (Fail (Errorf "registry: peer id %s has no known listen address"))
    | addr :: _ => mret addr
    end
  end.

Definition ExtractPeerID (leader : bytes) : gores bytes :=
  let leader := match cut_at Byte.x23 leader with Some (before, _) => before | None => leader end in
  if negb (IsMultiaddr leader) then Ret leader else
  maddr ← wrap_err "registry: invalid multiaddr %q: %w" (newMultiaddr leader);
  wrap_err "registry: multiaddr %q missing peer id: %w" (addrPeerID maddr).

(** * Access tokens *)

Definition accessTokenLabel : bytes := bs "libp2p-kv-raft/kvhttp-access-token/v1".

Definition AccessTokenForKeyFile (keyPath : bytes) : F bytes :=
  FDo (OReadFile keyPath) (fun r =>
    hexData ← liftF (wrap_err "registry: read key file %s: %w" (orFail r));
    raw ← liftF (wrap_err "registry: decode key file %s: %w" (hex_decode (TrimSpace hexData)));
    liftF (Ret (hex_encode (hmac_sha256 raw accessTokenLabel)))).

Definition AccessToken (Dir peerID : bytes) : F bytes :=
  info ← Get Dir peerID;
  match info with
  | None => liftF (Fail (Errorf "registry: unknown peer id %s (not created on this machine)"))
  | Some info => AccessTokenForKeyFile (KeyPath info)
  end.

End Registry.
