(* ===== verification/RegistryProps.v ===== *)
(** The registry against a map and a selection: every operation is atomic, whatever
    fails and wherever it stops. *)

From S2P Require Import Prelude SystemKeys Payloads LogRecord Txn Calendar Cron CronParse Files Registry.
#[local] Open Scope Z_scope.

(** * Replacing a file *)

(** [os.WriteFile] at a name of its own leaves the rest of the disk alone. *)
Lemma WriteFile_safe faults (I : disk -> Prop) d tmp data :
  solid d -> sole d tmp -> I d -> (forall h c d1, staged tmp h c d d1 -> I d1) ->
  safe faults I (fun d1 r =>
    (d1 = d \/ exists h c, staged tmp h c d d1) /\ r <> Panic /\
    (forall u, r = Ret u -> exists h, staged tmp h data d d1) /\ (faults = false -> r = Ret tt)) (WriteFile tmp data) d.
Proof.
  intros Hs Ht Hd HI.
  assert (Hclose : forall h c d1 w, staged tmp h c d d1 -> (w = inr tt -> c = data) -> (faults = false -> w = inr tt) -> (w = inr tt \/ w = inl OtherIO) ->
    safe faults I (fun d1 r => (d1 = d \/ exists h c, staged tmp h c d d1) /\ r <> Panic /\
      (forall u, r = Ret u -> exists h, staged tmp h data d d1) /\ (faults = false -> r = Ret tt))
      (FDo (OClose h) (fun c => liftF (_ ← orFail w; orFail c))) d1).
  { intros h c d1 w Hst Hw Hf Hc. pose proof (HI _ _ _ Hst) as Hi. split; [done|]. split; [by do 2 eexists|]. split; [|split; [|done]].
    - intros r d2 [-> ->]. split; [done|]. destruct Hc as [->| ->]; cbn.
      + rewrite Hw in Hst by done. split; [right; eauto|]. split; [done|]. split; [|done]. eauto.
      + split; [right; eauto|]. split; [done|]. split; [done|]. intros E. by apply Hf in E.
    - intros E r [= <-]. split; [done|]. destruct Hc as [->| ->]; cbn; (split; [right; eauto|]); (split; [done|]); (split; [done|]); congruence. }
  split; [done|]. split; [|split; [|split; [|done]]].
  - destruct (names d !! tmp) as [i|] eqn:E; [exists (inr i); eexists; left; eauto|].
    exists (inr (fresh (dom (contents d)))). eexists. right. split; [done|]. split; [|done]. apply not_elem_of_dom, is_fresh.
  - intros r d1 Hp. destruct r as [e|h]; [done|]. pose proof (create_staged _ _ _ _ Hs Ht Hp) as Hst. split; [by eapply HI|].
    split; [by do 2 eexists|]. split; [|split].
    + intros r d2 [-> ->]. eapply (Hclose h data); try done; [|by left]. by apply staged_append with (a := data) in Hst.
    + intros Hf r [= <-]. eapply (Hclose h []); try done; [congruence|by right].
    + intros a b ->. apply staged_append with (a := a) in Hst. split; [by eapply HI|]. intros Hf. eapply (Hclose h a); try done; [congruence|by right].
  - intros Hf r [= <-]. split; [done|]. split; [by left|]. split; [done|]. split; [done|]. congruence.
Qed.

(** After the rename *)
Lemma renamed_staged tmp path h c d d1 : staged tmp h c d d1 -> path <> tmp -> solid d ->
  let d2 := renamed tmp path h d1 in
  readAt d2 path = Some c /\ names d2 !! tmp = None /\ (forall q, q <> path -> q <> tmp -> readAt d2 q = readAt d q) /\ solid d2 /\
  (forall q, q = path \/ q = tmp \/ sole d q -> sole d2 q).
Proof.
  intros Hst Hne Hs. pose proof (staged_solid _ _ _ _ _ Hst Hs) as Hs1. unfold renamed.
  rewrite bool_decide_eq_false_2 by (rewrite (staged_names _ _ _ _ _ Hst path Hne); by apply (staged_fresh _ _ _ _ _ Hst)).
  assert (Hnames : forall q, names (set_names (fun m => <[path := h]> (delete tmp m)) d1) !! q = if decide (q = path) then Some h else if decide (q = tmp) then None else names d !! q).
  { intros q. cbn. destruct (decide (q = path)) as [->|Hq]; [by rewrite lookup_insert_eq|]. rewrite lookup_insert_ne by done.
    destruct (decide (q = tmp)) as [->|Hq']; [by rewrite lookup_delete_eq|]. rewrite lookup_delete_ne by done. by apply (staged_names _ _ _ _ _ Hst). }
  cbn zeta. split; [|split; [|split; [|split]]].
  - unfold readAt. rewrite Hnames, decide_True by done. cbn. apply (staged_content _ _ _ _ _ Hst).
  - rewrite Hnames. rewrite decide_False by done. by rewrite decide_True.
  - intros q Hq Hq'. rewrite <- (staged_readAt _ _ _ _ _ q Hst Hq'). unfold readAt. rewrite Hnames, !decide_False by done.
    by rewrite (staged_names _ _ _ _ _ Hst q Hq').
  - intros p i. rewrite Hnames. cbn. destruct (decide (p = path)); [intros [= <-]; rewrite (staged_content _ _ _ _ _ Hst); by eexists|].
    destruct (decide (p = tmp)); [done|]. rewrite <- (staged_names _ _ _ _ _ Hst p) by done. apply Hs1.
  - intros q Hq p i. rewrite !Hnames. repeat destruct (decide (_ = _)); subst; try done.
    + intros [= <-] E. by destruct (staged_fresh _ _ _ _ _ Hst p).
    + intros E [= <-]. by destruct (staged_fresh _ _ _ _ _ Hst q).
    + destruct Hq as [->|[->|Hq]]; [done..|]. apply Hq.
Qed.

(** The disk apart from [path] and its temporary file *)
Definition kept (path : bytes) (d d1 : disk) : Prop :=
  solid d1 /\ (forall q, q <> path -> q <> tmpOf path -> readAt d1 q = readAt d q) /\ (forall q, sole d q -> sole d1 q).

Lemma tmpOf_ne path : path <> tmpOf path.
Proof. unfold tmpOf. intros E. apply (f_equal length) in E. rewrite length_app in E. cbn in E. lia. Qed.

Lemma staged_kept path h c d d1 : solid d -> staged (tmpOf path) h c d d1 -> kept path d d1 /\ readAt d1 path = readAt d path.
Proof.
  intros Hs Hst. split; [|apply (staged_readAt _ _ _ _ _ _ Hst), tmpOf_ne]. split; [by eapply staged_solid|]. split.
  - intros q _ Hq. by apply (staged_readAt _ _ _ _ _ _ Hst).
  - intros q Hq. eapply staged_sole; [done|]. by right.
Qed.

(** The file is the old one or the new one all along, the new one if the call returns
    without an error, and the old one if not. *)
Lemma replace_safe faults (I : disk -> Prop) d path data :
  solid d -> sole d (tmpOf path) ->
  (forall d1, kept path d d1 -> readAt d1 path = readAt d path \/ readAt d1 path = Some data -> I d1) ->
  safe faults I (fun d1 r => kept path d d1 /\
    match r with
    | Ret _ => readAt d1 path = Some data
    | Fail _ => readAt d1 path = readAt d path /\ faults = true
    | Panic => False
    end) (replace path data) d.
Proof.
  intros Hs Ht HI. assert (Hk : kept path d d) by done.
  assert (Hst : forall h c d1, staged (tmpOf path) h c d d1 -> kept path d d1 /\ readAt d1 path = readAt d path) by (intros h c d1; by apply staged_kept).
  eapply (safe_after _ _ _ _ (WriteFile (tmpOf path) data)); [|apply (WriteFile_safe faults I d); [done|done|apply HI; [done|by left]|]].
  - intros d1 r Hi (Hd1 & HP & Hret & Hf). destruct r as [u|e|]; [|split; [done|]|done].
    + destruct (Hret u eq_refl) as [h Hh]. destruct (Hst _ _ _ Hh) as [Hk1 Hr1].
      destruct (renamed_staged _ _ _ _ _ _ Hh (tmpOf_ne path) Hs) as (H1 & H2 & H3 & H4 & H5).
      assert (Hk2 : kept path d (renamed (tmpOf path) path h d1)) by (split; [done|]; split; [done|]; intros q Hq; apply H5; auto).
      split; [done|]. split; [exists (inr tt); eexists; exists h; split; [apply (staged_name _ _ _ _ _ Hh)|done]|]. split; [|split; [|done]].
      * intros [e|u'] d2; cbn; rewrite (staged_name _ _ _ _ _ Hh); [by intros (_ & ? & _)|]. intros (i & [= <-] & ->).
        split; [apply HI; [done|by right]|]. by split.
      * intros Hft r [= <-]. by split; [done|]; split.
    + split; [|split]; [| |destruct faults; [done|]; by specialize (Hf eq_refl)].
      * destruct Hd1 as [->|(h & c & Hh)]; [done|by apply (Hst h c)].
      * destruct Hd1 as [->|(h & c & Hh)]; [done|by apply (Hst h c)].
  - intros h c d1 Hh. destruct (Hst _ _ _ Hh) as [Hk1 Hr1]. apply HI; [done|by left].
Qed.

(** * Names of the files *)

Lemma json_ends Dir : exists pre, jsonPath Dir = pre ++ bs "registry.json".
Proof. apply Join_last. split; [|done]. apply (bool_decide_unpack _). vm_compute. exact I. Qed.

Lemma current_ends Dir : exists pre, currentPath Dir = pre ++ bs "current".
Proof. apply Join_last. split; [|done]. apply (bool_decide_unpack _). vm_compute. exact I. Qed.

Lemma tmp_ends p a : (exists pre, p = pre ++ a) -> exists pre, tmpOf p = pre ++ a ++ bs ".tmp".
Proof. intros [pre ->]. exists pre. unfold tmpOf. by rewrite <- (assoc_L (++)). Qed.

(** The four files of a registry *)
Definition files (Dir : bytes) : list bytes := [jsonPath Dir; tmpOf (jsonPath Dir); currentPath Dir; tmpOf (currentPath Dir)].

Lemma files_distinct Dir : NoDup (files Dir).
Proof.
  destruct (json_ends Dir) as [x Hx], (current_ends Dir) as [y Hy]. unfold files, tmpOf. rewrite Hx, Hy. clear.
  assert (Hne : forall (x y a b : bytes), reverse a !! 0%nat <> reverse b !! 0%nat \/ reverse a !! 4%nat <> reverse b !! 4%nat ->
    is_Some (reverse a !! 4%nat) -> is_Some (reverse b !! 4%nat) -> x ++ a <> y ++ b).
  { intros x' y' a b Hab Ha Hb E. apply (f_equal reverse) in E. rewrite !reverse_app in E.
    assert (Hl : forall n, (n <= 4)%nat -> reverse a !! n = reverse b !! n).
    { intros n Hn. apply (f_equal (.!! n)) in E. rewrite !lookup_app_l in E; [done| |]; [apply lookup_lt_is_Some in Hb|apply lookup_lt_is_Some in Ha]; lia. }
    destruct Hab as [Hab|Hab]; apply Hab, Hl; lia. }
  rewrite <- !(assoc_L (++)). apply NoDup_cons. rewrite !not_elem_of_cons, NoDup_cons, !not_elem_of_cons, NoDup_cons, !not_elem_of_cons.
  repeat split; try apply not_elem_of_nil; try apply NoDup_singleton;
    (apply Hne; [vm_compute; (left; discriminate) || (right; discriminate) | by vm_compute; eexists | by vm_compute; eexists]).
Qed.

(** * The registry as a map and a selection *)

Section Registry.
Context `{RegistryEnv}.

(** What [load] makes of the content of the file. *)
Definition parsed (data : option bytes) : gores nodes :=
  match data with
  | None | Some [] => Ret ∅
  | Some data => default ∅ <$> wrap_err "registry: parse %s: %w" (json_unnodes data)
  end.

(** Strings that JSON carries as they are. *)
Definition textualInfo (info : NodeInfo) : Prop :=
  ascii (PeerID info) /\ ascii (Role info) /\ ascii (DataDir info) /\ ascii (KeyPath info) /\ Forall ascii (ListenAddrs info) /\
  ascii (LeaderPeerID info) /\ ascii (ClusterPeerID info).
Definition textual (m : nodes) : Prop := map_Forall (fun id info => ascii id /\ textualInfo info) m.

(** [encoding/json] writes such a map to a document, and reads it back. *)
Definition json_faithful : Prop :=
  forall m, textual m -> exists data, json_nodes m = Ret data /\ data <> [] /\ json_unnodes data = Ret (Some m).

(** The registry in [Dir] holds [m], and the selected node is [cur]. *)
Record holds (Dir : bytes) (d : disk) (s : nodes * option bytes) : Prop := mkHolds {
  holds_solid : solid d;
  holds_sole p : p ∈ files Dir -> sole d p;
  holds_nodes : parsed (readAt d (jsonPath Dir)) = Ret s.1;
  holds_current : readAt d (currentPath Dir) = s.2;
}.

Inductive regop : Type :=
| RPut (info : NodeInfo)
| RDelete (peerID : bytes)
| RSetCurrent (peerID : bytes)
| RGet (peerID : bytes)
| RList
| RCurrent
| RResolve (peerID : bytes).

Inductive regout : Type :=
| OutDone
| OutInfo (info : option NodeInfo)
| OutList (l : list NodeInfo)
| OutBytes (b : bytes).

Definition program (Dir : bytes) (o : regop) : F regout :=
  match o with
  | RPut info => _ ← Put Dir info; mret OutDone
  | RDelete peerID => _ ← Delete Dir peerID; mret OutDone
  | RSetCurrent peerID => _ ← SetCurrent Dir peerID; mret OutDone
  | RGet peerID => info ← Get Dir peerID; mret (OutInfo info)
  | RList => l ← List Dir; mret (OutList l)
  | RCurrent => b ← Current Dir; mret (OutBytes b)
  | RResolve peerID => b ← ResolveAddress Dir peerID; mret (OutBytes b)
  end.

(** The states an operation leads through, the first and the last included *)
Definition stages (o : regop) (s : nodes * option bytes) : list (nodes * option bytes) :=
  let '(m, cur) := s in
  match o with
  | RPut info => [(m, cur); (<[PeerID info := info]> m, cur)]
  | RDelete peerID => [(m, cur); (delete peerID m, cur); (delete peerID m, if decide (cur = Some peerID) then None else cur)]
  | RSetCurrent peerID => [(m, cur); (m, Some peerID)]
  | RGet _ | RList | RCurrent | RResolve _ => [(m, cur)]
  end.

(** What it returns; [None] for an error. *)
Definition answer (o : regop) (s : nodes * option bytes) (out : option regout) : Prop :=
  let '(m, cur) := s in
  match o with
  | RPut _ | RDelete _ | RSetCurrent _ => out = Some OutDone
  | RGet peerID => out = Some (OutInfo (m !! peerID))
  | RList => exists l, out = Some (OutList l) /\ l ≡ₚ (map_to_list m).*2
  | RCurrent => out = OutBytes <$> cur
  | RResolve peerID => out = OutBytes <$> (m !! peerID ≫= fun info => head (ListenAddrs info))
  end.

(** A call that comes to an end: the states it may leave.  Only [Delete] may overlook an
    error, that of reading the selection. *)
Definition ended (faults : bool) (o : regop) (s s' : nodes * option bytes) (r : gores regout) : Prop :=
  match r with
  | Ret out => answer o s (Some out) /\
      (last (stages o s) = Some s' \/ faults = true /\ exists peerID, o = RDelete peerID /\ s' = (delete peerID s.1, s.2))
  | Fail _ => faults = true \/ answer o s None /\ s' = s
  | Panic => False
  end.

(** ** The steps of the operations *)

Lemma current_apart Dir : currentPath Dir <> jsonPath Dir /\ currentPath Dir <> tmpOf (jsonPath Dir) /\ jsonPath Dir <> tmpOf (currentPath Dir).
Proof.
  pose proof (files_distinct Dir) as Hn. unfold files in Hn. rewrite !NoDup_cons, !not_elem_of_cons in Hn. destruct_and?. done.
Qed.

Lemma holds_kept_json Dir d d1 m cur m' : holds Dir d (m, cur) -> kept (jsonPath Dir) d d1 -> parsed (readAt d1 (jsonPath Dir)) = Ret m' -> holds Dir d1 (m', cur).
Proof.
  intros [H1 H2 H3 H4] (K1 & K2 & K3) Hp. destruct (current_apart Dir) as (C1 & C2 & C3). split; cbn; auto. by rewrite K2.
Qed.

Lemma holds_kept_current Dir d d1 m cur cur' : holds Dir d (m, cur) -> kept (currentPath Dir) d d1 -> readAt d1 (currentPath Dir) = cur' -> holds Dir d1 (m, cur').
Proof.
  intros [H1 H2 H3 H4] (K1 & K2 & K3) Hp. destruct (current_apart Dir) as (C1 & C2 & C3). split; cbn; auto. by rewrite K2.
Qed.

(** Reading a file of which the content is known *)
Lemma read_safe faults {A} (I : disk -> Prop) (Q : disk -> A -> Prop) d p k :
  solid d -> I d ->
  safe faults I Q (k (match readAt d p with Some data => inr data | None => inl NotExist end)) d ->
  (faults = true -> safe faults I Q (k (inl OtherIO)) d) ->
  safe faults I Q (FDo (OReadFile p) k) d.
Proof.
  intros Hs Hi Hk Hf. split; [done|]. split; [|split; [|split; [|done]]].
  - destruct (readAt d p) as [data|] eqn:E; [by exists (inr data), d|]. exists (inl NotExist), d. split; [done|]. split; [done|]. by apply readAt_None.
  - intros r d' [-> Hr]. destruct r as [e|data]; [destruct Hr as [-> Hr]; apply readAt_None in Hr; [|done]|]; by rewrite Hr in Hk.
  - intros E r [= <-]. by apply Hf.
Qed.

Lemma load_safe faults (I : disk -> Prop) Dir d s : holds Dir d s -> I d ->
  safe faults I (fun d' r => d' = d /\ match r with Ret m => m = s.1 | Fail _ => faults = true | Panic => False end) (load Dir) d.
Proof.
  intros Hh Hi. pose proof (holds_nodes _ _ _ Hh) as Hp. apply read_safe; [apply Hh|done| |].
  - destruct (readAt d (jsonPath Dir)) as [[|c data]|]; cbn in *; [by injection Hp as <-| |by injection Hp as <-].
    destruct (json_unnodes (c :: data)) as [[m|]|e|]; cbn in *; try done; by injection Hp as <-.
  - intros ->. by split.
Qed.

Lemma current_safe faults (I : disk -> Prop) Dir d s : holds Dir d s -> I d ->
  safe faults I (fun d' r => d' = d /\ match r with Ret c => s.2 = Some c | Fail _ => faults = true \/ s.2 = None | Panic => False end) (Current Dir) d.
Proof.
  intros Hh Hi. pose proof (holds_current _ _ _ Hh) as Hp. apply read_safe; [apply Hh|done| |].
  - rewrite <- Hp. destruct (readAt d (currentPath Dir)); cbn; auto.
  - intros ->. by split; [|split; [|left]].
Qed.

Lemma save_safe faults (I : disk -> Prop) Dir d m cur m' : json_faithful -> textual m' -> holds Dir d (m, cur) ->
  (forall d1, holds Dir d1 (m, cur) \/ holds Dir d1 (m', cur) -> I d1) ->
  safe faults I (fun d1 r => match r with Ret _ => holds Dir d1 (m', cur) | Fail _ => faults = true /\ holds Dir d1 (m, cur) | Panic => False end) (save Dir m') d.
Proof.
  intros HJ Ht Hh HI. destruct (HJ m' Ht) as (data & E1 & E2 & E3).
  assert (Hp : parsed (Some data) = Ret m'). { destruct data as [|c data]; [done|]. unfold parsed. by rewrite E3. }
  unfold save. rewrite E1. cbn [mbind F_bind liftF fafter]. eapply safe_mono; [|apply (replace_safe faults I d)].
  - intros d1 r _ [Hk Hr]. destruct r as [u|e|]; [| |done].
    + eapply holds_kept_json; [done|done|]. by rewrite Hr.
    + destruct Hr as [Hr ->]. split; [done|]. eapply holds_kept_json; [done|done|]. rewrite Hr. apply (holds_nodes _ _ _ Hh).
  - apply Hh.
  - apply (holds_sole _ _ _ Hh). unfold files. set_solver.
  - intros d1 Hk [Hr|Hr]; apply HI; [left|right]; (eapply holds_kept_json; [done|done|]); rewrite Hr; [apply (holds_nodes _ _ _ Hh)|done].
Qed.

Lemma select_safe faults (I : disk -> Prop) Dir d m cur peerID : holds Dir d (m, cur) ->
  (forall d1, holds Dir d1 (m, cur) \/ holds Dir d1 (m, Some peerID) -> I d1) ->
  safe faults I (fun d1 r => match r with Ret _ => holds Dir d1 (m, Some peerID) | Fail _ => faults = true /\ holds Dir d1 (m, cur) | Panic => False end) (SetCurrent Dir peerID) d.
Proof.
  intros Hh HI. eapply safe_mono; [|apply (replace_safe faults I d)].
  - intros d1 r _ [Hk Hr]. destruct r as [u|e|]; [| |done].
    + by eapply holds_kept_current.
    + destruct Hr as [Hr ->]. split; [done|]. eapply holds_kept_current; [done|done|]. rewrite Hr. apply (holds_current _ _ _ Hh).
  - apply Hh.
  - apply (holds_sole _ _ _ Hh). unfold files. set_solver.
  - intros d1 Hk [Hr|Hr]; apply HI; [left|right]; (eapply holds_kept_current; [done|done|]); rewrite Hr; [apply (holds_current _ _ _ Hh)|done].
Qed.

(** Without its name the selection is gone. *)
Lemma unselect_holds Dir d m cur : holds Dir d (m, cur) -> holds Dir (set_names (delete (currentPath Dir)) d) (m, None).
Proof.
  intros [H1 H2 H3 H4]. destruct (current_apart Dir) as (C1 & _). split; cbn.
  - intros p i. cbn. intros [_ E]%lookup_delete_Some. by apply (H1 p).
  - intros p Hp q i. cbn. intros [_ E]%lookup_delete_Some [_ E']%lookup_delete_Some. by apply (H2 p Hp q i).
  - unfold readAt. cbn. rewrite lookup_delete_ne by done. done.
  - unfold readAt. cbn. by rewrite lookup_delete_eq.
Qed.

Lemma unselect_safe faults (I : disk -> Prop) Dir d m cur : holds Dir d (m, cur) -> (forall d1, holds Dir d1 (m, cur) \/ holds Dir d1 (m, None) -> I d1) ->
  safe faults I (fun d1 r => match r with Ret _ => holds Dir d1 (m, None) | Fail _ => faults = true /\ holds Dir d1 (m, cur) | Panic => False end)
    (FDo (ORemove (currentPath Dir)) (fun r => match r with inl NotExist | inr _ => liftF (Ret tt) | inl e => liftF (Fail (ioError e)) end)) d.
Proof.
  intros Hh HI. split; [apply HI; by left|]. split; [|split; [|split; [|done]]].
  - destruct (names d !! currentPath Dir) eqn:E; [exists (inr tt); eexists; split; [by rewrite E; eexists|done]|by exists (inl NotExist), d].
  - intros [e|[]] d'; cbn.
    + intros (-> & E & ->). assert (Hc : holds Dir d (m, None)).
      { destruct Hh as [H1 H2 H3 H4]. split; try done. cbn. unfold readAt. by rewrite E. }
      split; [apply HI; by right|done].
    + intros [_ ->]. pose proof (unselect_holds _ _ _ _ Hh) as Hc. split; [apply HI; by right|done].
  - intros -> r [= <-]. split; [apply HI; by left|done].
Qed.

(** ** The operations *)

Definition writes (o : regop) : Prop := match o with RPut info => textualInfo info /\ ascii (PeerID info) | _ => True end.

(** All the way through, and at the end *)
Definition allowed (faults : bool) (Dir : bytes) (o : regop) (s : nodes * option bytes) {A} (out : A -> regout) : F A -> disk -> Prop :=
  safe faults (fun d' => exists s', s' ∈ stages o s /\ holds Dir d' s')
    (fun d' r => exists s', s' ∈ stages o s /\ holds Dir d' s' /\ ended faults o s s' (out <$> r)).

Lemma allowed_done faults Dir o s {A} (out : A -> regout) d s' r : s' ∈ stages o s -> holds Dir d s' -> ended faults o s s' (out <$> r) -> allowed faults Dir o s out (FDone r) d.
Proof. intros. split; eauto. Qed.

Lemma allowed_out faults Dir o s {A} (out : A -> regout) p d : allowed faults Dir o s out p d -> allowed faults Dir o s id (a ← p; mret (out a)) d.
Proof.
  intros Hp. eapply safe_after; [|exact Hp]. intros d' r _ (s' & H1 & H2 & H3).
  destruct r as [a|e|]; by apply (allowed_done faults Dir o s id d' s').
Qed.

(** Every operation but [SetCurrent] and [Current] begins with [load]. *)
Lemma allowed_load (faults : bool) (Dir : bytes) (o : regop) (m : nodes) (cur : option bytes) {A} (out : A -> regout) (d : disk) (k : nodes -> F A) :
  (m, cur) ∈ stages o (m, cur) -> holds Dir d (m, cur) -> allowed faults Dir o (m, cur) out (k m) d -> allowed faults Dir o (m, cur) out (f ← load Dir; k f) d.
Proof.
  intros Hin Hh Hk. eapply safe_after; [|by apply (load_safe faults _ Dir d (m, cur)); [done|eauto]].
  intros d' r _ [-> Hr]. destruct r as [m'|e|]; [by subst| |done]. eapply (allowed_done _ _ _ _ out); [done|done|]. by left.
Qed.

Lemma textual_insert m info : textual m -> textualInfo info -> ascii (PeerID info) -> textual (<[PeerID info := info]> m).
Proof. intros. by apply map_Forall_insert_2. Qed.
Lemma textual_delete m p : textual m -> textual (delete p m).
Proof. apply map_Forall_delete. Qed.

Lemma Put_allowed faults Dir info m cur d : json_faithful -> textual m -> writes (RPut info) -> holds Dir d (m, cur) ->
  allowed faults Dir (RPut info) (m, cur) (fun _ => OutDone) (Put Dir info) d.
Proof.
  intros HJ Ht [Hi Hp] Hh. apply allowed_load; [set_solver|done|]. eapply safe_mono; [|apply (save_safe faults _ Dir d m cur); [done|by apply textual_insert|done|]].
  - intros d1 r _ Hr. destruct r as [u|e|]; [|destruct Hr as [-> Hr]|done]; (eexists; split; [|split; [done|]]); try (cbn; set_solver); cbn; auto.
  - intros d1 [Hd|Hd]; eexists; (split; [|done]); cbn; set_solver.
Qed.

Lemma SetCurrent_allowed faults Dir peerID m cur d : holds Dir d (m, cur) ->
  allowed faults Dir (RSetCurrent peerID) (m, cur) (fun _ => OutDone) (SetCurrent Dir peerID) d.
Proof.
  intros Hh. eapply safe_mono; [|apply (select_safe faults _ Dir d m cur); [done|]].
  - intros d1 r _ Hr. destruct r as [u|e|]; [|destruct Hr as [-> Hr]|done]; (eexists; split; [|split; [done|]]); try (cbn; set_solver); cbn; auto.
  - intros d1 [Hd|Hd]; eexists; (split; [|done]); cbn; set_solver.
Qed.

Lemma Get_allowed faults Dir peerID m cur d : holds Dir d (m, cur) -> allowed faults Dir (RGet peerID) (m, cur) OutInfo (Get Dir peerID) d.
Proof. intros Hh. apply allowed_load; [set_solver|done|]. eapply (allowed_done _ _ _ _ OutInfo); [|done|]; cbn; [set_solver|]. auto. Qed.

Lemma Current_allowed faults Dir m cur d : holds Dir d (m, cur) -> allowed faults Dir RCurrent (m, cur) OutBytes (Current Dir) d.
Proof.
  intros Hh. eapply safe_mono; [|apply (current_safe faults _ Dir d (m, cur)); [done|]].
  - intros d' r _ [-> Hr]. exists (m, cur). split; [cbn; set_solver|]. split; [done|]. destruct r as [c|e|]; cbn in *; [|destruct Hr as [->| ->]|done]; subst; auto.
  - exists (m, cur). split; [cbn; set_solver|done].
Qed.

Lemma Resolve_allowed faults Dir peerID m cur d : holds Dir d (m, cur) -> allowed faults Dir (RResolve peerID) (m, cur) OutBytes (ResolveAddress Dir peerID) d.
Proof.
  intros Hh. assert (Hin : (m, cur) ∈ stages (RResolve peerID) (m, cur)) by (cbn; set_solver).
  eapply safe_after; [|eapply safe_after; [|by apply (load_safe faults _ Dir d (m, cur)); [done|eauto]]].
  - intros d' r Hi Hr. instantiate (1 := fun d' r => d' = d /\ match r with Ret i => i = m !! peerID | Fail _ => faults = true | Panic => False end) in Hr.
    destruct Hr as [-> Hr]. destruct r as [info|e|]; [subst|subst; apply (allowed_done _ _ _ _ OutBytes d (m, cur)); cbn; auto|done].
    destruct (m !! peerID) as [info|] eqn:E; [destruct (ListenAddrs info) as [|addr l] eqn:El|];
      (apply (allowed_done _ _ _ _ OutBytes d (m, cur)); [done|done|]); cbn; rewrite E; cbn; rewrite ?El; auto.
  - intros d' r Hi [-> Hr]. destruct r as [m'|e|]; [subst|subst|done]; by split.
Qed.

Lemma omap_lookup_seq {A B} (f : A -> B) pre l : omap (fun i => f <$> (pre ++ l) !! i) (seq (length pre) (length l)) = f <$> l.
Proof.
  revert pre. induction l as [|x l IH]; intros pre; cbn; [done|]. rewrite list_lookup_middle by done. cbn. f_equal.
  specialize (IH (pre ++ [x])). rewrite length_app, Nat.add_1_r, <- (assoc_L (++)) in IH. exact IH.
Qed.

Lemma List_allowed faults Dir m cur d : holds Dir d (m, cur) -> allowed faults Dir RList (m, cur) OutList (List Dir) d.
Proof.
  intros Hh. assert (Hin : (m, cur) ∈ stages RList (m, cur)) by (cbn; set_solver). apply allowed_load; [done|done|].
  split; [eauto|]. split; [by do 2 eexists|]. split; [|done].
  intros r d' [-> Hr]. apply (allowed_done _ _ _ _ OutList d (m, cur)); [done|done|]. cbn. split; [|auto]. eexists. split; [done|].
  rewrite Hr. rewrite <- (omap_lookup_seq snd [] (map_to_list m)). cbn [app length]. assert (El : length (map_to_list m) = size m) by apply length_map_to_list. by rewrite El.
Qed.

(** The first half of [Delete], and what it does with the selection *)
Lemma Delete_allowed faults Dir peerID m cur d : json_faithful -> textual m -> holds Dir d (m, cur) ->
  allowed faults Dir (RDelete peerID) (m, cur) (fun _ => OutDone) (Delete Dir peerID) d.
Proof.
  intros HJ Ht Hh. set (m' := delete peerID m). set (cur' := if decide (cur = Some peerID) then None else cur).
  assert (Hin : forall s, s = (m, cur) \/ s = (m', cur) \/ s = (m', cur') -> s ∈ stages (RDelete peerID) (m, cur)) by (intros s Hs; cbn; set_solver).
  apply allowed_load; [by apply Hin; left|done|].
  eapply safe_after; [|apply (save_safe faults _ Dir d m cur m'); [done|by apply textual_delete|done|intros d1 [Hd|Hd]; (eexists; split; [|exact Hd]); auto]].
  intros d1 r _ Hr. destruct r as [u|e|]; [|destruct Hr as [Hf Hr]; eapply (allowed_done _ _ _ _ (fun _ => OutDone) d1 (m, cur)); cbn; eauto|done].
  eapply safe_after; [|apply (current_safe faults _ Dir d1 (m', cur)); [exact Hr|exists (m', cur); auto]].
  intros d2 r _ [-> Hc]. cbn in Hc. destruct r as [c|e|]; [| |done].
  - destruct (bytes_eqb c peerID) eqn:E.
    + apply bytes_eqb_true in E as ->. assert (Ec : cur' = None) by (unfold cur'; by rewrite decide_True). rewrite Ec in Hin.
      eapply safe_mono; [|apply (unselect_safe faults _ Dir d1 m' cur); [exact Hr|intros d2 [Hd|Hd]; (eexists; split; [|exact Hd]); auto]].
      intros d2 r _ Hd. destruct r as [x|e|]; [|destruct Hd as [Hf Hd]; exists (m', cur); cbn; by auto|done]. exists (m', None). split; [auto|]. split; [done|].
      split; [done|]. left. change (Some (m', cur') = Some (m', None)). by rewrite Ec.
    + assert (Ec : cur' = cur) by (unfold cur'; rewrite decide_False; [done|]; intros ->; injection Hc as ->; by rewrite (proj2 (bytes_eqb_true c c)) in E).
      eapply (allowed_done _ _ _ _ (fun _ => OutDone) d1 (m', cur)); [eauto|done|]. cbn. split; [done|]. left. change (Some (m', cur') = Some (m', cur)). by rewrite Ec.
  - eapply (allowed_done _ _ _ _ (fun _ => OutDone) d1 (m', cur)); [eauto|done|]. cbn. split; [done|].
    destruct Hc as [Hf| ->]; [right; eauto|]. by left.
Qed.

Lemma program_allowed faults Dir o s d : json_faithful -> textual s.1 -> writes o -> holds Dir d s -> allowed faults Dir o s id (program Dir o) d.
Proof.
  destruct s as [m cur]. cbn. intros HJ Ht Hw Hh. destruct o; apply allowed_out;
    [by apply Put_allowed|by apply Delete_allowed|by apply SetCurrent_allowed|by apply Get_allowed|by apply List_allowed|by apply Current_allowed|by apply Resolve_allowed].
Qed.

(** C27 The registry is a map of nodes and a selection, and its operations are atomic, as
    long as its two files have no other name, the texts in its records are ASCII (the map
    read, and the record put), and
    the JSON package reads back what it writes of such a map.
    Whatever fails along the way, and wherever the process stops, the two files
    hold at every moment one of the states the operation leads through ([stages]:
    before and after, and for [Delete] the state with the node gone and the selection
    still there), never a half-written one; the operation can be run to its end
    from there, and when it ends it has returned what the map says and left the last state. An
    error is only returned for a fault, for an unknown peer or one without a listen
    address ([ResolveAddress]) or for a missing selection ([Current]), and only [Delete] can miss a fault: it returns no
    error when it could not read which node is selected. *)
Theorem registry_atomic faults Dir o s d d' p :
  json_faithful -> textual s.1 -> writes o -> holds Dir d s -> rtc (fstep faults) (d, program Dir o) (d', p) ->
  (exists s', s' ∈ stages o s /\ holds Dir d' s' /\ forall r, p = FDone r -> ended faults o s s' r) /\
  exists d'' r s'', rtc (fstep faults) (d', p) (d'', FDone r) /\ holds Dir d'' s'' /\ ended faults o s s'' r.
Proof.
  intros HJ Ht Hw Hh Hr. pose proof (program_allowed faults _ _ _ _ HJ Ht Hw Hh) as Ha. pose proof (safe_steps _ _ _ _ _ _ _ Ha Hr) as Hs. split.
  - destruct p as [r|op k].
    + destruct Hs as [_ (s' & H1 & H2 & H3)]. exists s'. split; [done|]. split; [done|]. intros r' [= <-]. by destruct r.
    + destruct Hs as [(s' & H1 & H2) _]. by exists s'.
  - destruct (safe_completes _ _ _ _ _ Hs) as (d'' & r & Hrun & s'' & _ & H2 & H3). exists d'', r, s''. split; [done|]. split; [done|]. by destruct r.
Qed.

End Registry.
