(* ===== verification/IpcToken.v ===== *)
(** The secret of a node's local channel (src/pkg/ipc/token.go): the first caller of the
    node or of its clients makes it, and the others read it. *)

From S2P Require Import Prelude SystemKeys Payloads LogRecord Txn Hex Calendar Cron CronParse Files Registry RegistryProps.
#[local] Open Scope Z_scope.

Definition tokenFileName : bytes := bs "ipc.token".
Definition tokenSize : nat := 32.
Definition tokenPath (dataDir : bytes) : bytes := Join [dataDir; tokenFileName].

(** What is in the token file *)
Definition tokenOf (b : bytes) : gores bytes :=
  let tok := TrimSpace b in
  if bytes_eqb tok [] then Fail (Errorf "ipc: token file %s is empty") else Ret tok.

(** From the open temporary file to the token; [os.Link] never overwrites. *)
Definition publish (path tmpPath : bytes) (tmp : nat) (tok : bytes) : F bytes :=
  FDo (OWrite tmp tok) (fun w =>
    match w with
    | inl e => FDo (OClose tmp) (fun _ => liftF (Fail (Wrapf "ipc: write temp token file %s: %w" (ioError e))))
    | inr _ =>
      FDo (OClose tmp) (fun c =>
        match c with
        | inl e => liftF (Fail (Wrapf "ipc: close temp token file %s: %w" (ioError e)))
        | inr _ =>
          FDo (OLink tmpPath path) (fun l =>
            match l with
            | inr _ => liftF (Ret tok)
            | inl AlreadyExists =>
              FDo (OReadFile path) (fun b =>
                match b with
                | inl e => liftF (Fail (Wrapf "ipc: read token file %s after losing creation race: %w" (ioError e)))
                | inr b => liftF (tokenOf b)
                end)
            | inl e => liftF (Fail (Wrapf "ipc: publish token file %s: %w" (ioError e)))
            end)
        end)
    end).

Definition generateToken (dataDir : bytes) : F bytes :=
  FDo (ORand tokenSize) (fun raw =>
    match raw with
    | inl e => liftF (Fail (Wrapf "ipc: generate token: %w" (ioError e)))
    | inr raw =>
      FDo (OCreateTemp dataDir (tokenFileName ++ bs ".tmp-")) (fun t =>
        match t with
        | inl e => liftF (Fail (Wrapf "ipc: create temp token file: %w" (ioError e)))
        | inr (tmpPath, tmp) =>
          fafter (publish (tokenPath dataDir) tmpPath tmp (hex_encode raw)) (fun r => FDo (ORemove tmpPath) (fun _ => FDone r))
        end)
    end).

Definition loadOrGenerateToken (dataDir : bytes) : F bytes :=
  FDo (OReadFile (tokenPath dataDir)) (fun b =>
    match b with
    | inr b => liftF (tokenOf b)
    | inl NotExist => generateToken dataDir
    | inl e => liftF (Fail (Wrapf "ipc: read token file %s: %w" (ioError e)))
    end).

Definition tokenForPeer `{RegistryEnv} (peerID : bytes) : F bytes :=
  reg ← wrapF "ipc: open registry: %w" Open;
  info ← wrapF "ipc: look up peer %s: %w" (Get reg peerID);
  match info with
  | None => liftF (Fail (Errorf "ipc: no registered node for peer id %s"))
  | Some info =>
    if bytes_eqb (DataDir info) [] then liftF (Fail (Errorf "ipc: no registered node for peer id %s"))
    else loadOrGenerateToken (DataDir info)
  end.
