(* ===== verification/IpcTokenProps.v ===== *)
(** Callers that race for the secret of a node: whatever fails and however their
    operations interleave, all that get a secret get the same one. *)

From S2P Require Import Prelude SystemKeys Payloads LogRecord Txn Hex Calendar Cron CronParse Files Registry RegistryProps IpcToken.
#[local] Open Scope Z_scope.
#[local] Arguments TrimSpace : simpl never.
#[local] Arguments lookup : simpl never.

(** * Several processes over one disk *)

Inductive pstep (faults : bool) {A} : disk * list (fprog A) -> disk * list (fprog A) -> Prop :=
| pstep_one d pool j p d' p' : pool !! j = Some p -> fstep faults (d, p) (d', p') -> pstep faults (d, pool) (d', <[j := p']> pool).

(** One of them runs on its own. *)
Lemma pool_run faults {A} d d' (pool : list (fprog A)) j p p' : pool !! j = Some p -> rtc (fstep faults) (d, p) (d', p') ->
  rtc (pstep faults) (d, pool) (d', <[j := p']> pool).
Proof.
  intros Hj Hr. remember (d, p) as s eqn:Es. remember (d', p') as s' eqn:Es'. revert d p Es d' p' Es' pool Hj.
  induction Hr as [s|s [d1 p1] s' H1 _ IH]; intros d p -> d' p' E pool Hj; simplify_eq; [by rewrite list_insert_id|].
  eapply rtc_l; [eapply pstep_one; [exact Hj|exact H1]|]. rewrite <- (list_insert_insert_eq pool j p' p1). apply (IH d1 p1); [done|done|].
  apply list_lookup_insert_eq. by eapply lookup_lt_Some.
Qed.

(** What a caller has: the temporary file it made, with what it wrote to it and whether
    it is the token file now, whether it knows that there is a token file, and what it
    knows to be in it. *)
Record temp : Type := mkTemp {
  tempPath : bytes;
  tempFile : nat;
  written : bytes;
  linked : bool;
}.

Record tghost : Type := mkTghost {
  own : option temp;
  present : bool;
  known : option bytes;
}.

Definition disjoint (g g' : tghost) : Prop :=
  match own g, own g' with
  | Some t, Some t' => tempPath t <> tempPath t' /\ tempFile t <> tempFile t'
  | _, _ => True
  end.

Section Token.
Context `{RegistryEnv} (faults : bool) (Dir dataDir : bytes) (registry : option bytes).
(** Whether the token file that was there at the start is blank *)
Context (blank : Prop).

Let path : bytes := tokenPath dataDir.

(** The reserved names: [path], and no other name of its file but temporary ones *)
Record base (d : disk) : Prop := mkBase {
  base_solid : solid d;
  base_registry : readAt d (jsonPath Dir) = registry;
  base_token b : readAt d path = Some b -> TrimSpace b <> [] \/ blank;
}.

Definition tempLike (p : bytes) : Prop := exists d, tempName d (tokenFileName ++ bs ".tmp-") p.

Record justified (d : disk) (g : tghost) : Prop := mkJustified {
  just_name t : own g = Some t -> names d !! tempPath t = Some (tempFile t) /\ tempLike (tempPath t);
  just_content t : own g = Some t -> contents d !! tempFile t = Some (written t);
  just_private t q : own g = Some t -> linked t = false -> names d !! q = Some (tempFile t) -> q = tempPath t;
  just_present : present g = true -> is_Some (readAt d path);
  just_known b : known g = Some b -> readAt d path = Some b;
}.

(** * What a caller may do *)

Definition weight (o : fsop) : nat := match o with OWrite _ data => S (pred (length data)) | _ => 1 end.

Definition permitted (g : tghost) (o : fsop) : Prop :=
  match o with
  | OReadFile p => p = path \/ p = jsonPath Dir
  | OCreateTemp dir pattern => own g = None /\ pattern = tokenFileName ++ bs ".tmp-"
  | OWrite h _ => exists t, own g = Some t /\ tempFile t = h /\ linked t = false
  | OLink p q => q = path /\ exists t, own g = Some t /\ tempPath t = p /\ linked t = false /\ TrimSpace (written t) <> []
  | ORemove p => exists t, own g = Some t /\ tempPath t = p
  | OClose _ | OMkdirAll _ | ORand _ => True
  | OCreate _ | ORename _ _ | ORange _ => False
  end.

(** What is known of a reply, faults apart. *)
Definition sane (g : tghost) (o : fsop) : fsreply o -> Prop :=
  match o as o return fsreply o -> Prop with
  | OReadFile p => fun r =>
      (p = jsonPath Dir -> r = match registry with Some data => inr data | None => inl NotExist end) /\
      (p = path -> match r with inr b => TrimSpace b <> [] \/ blank | inl e => e = NotExist /\ present g = false end)
  | OLink _ _ => fun r => match r with inr _ => True | inl e => e = AlreadyExists end
  | OCreateTemp _ _ | OWrite _ _ | OClose _ | OMkdirAll _ => fun r => exists a, r = inr a
  | ORand n => fun r => exists b, r = inr b /\ length b = n
  | _ => fun _ => True
  end.

Definition advance (g : tghost) (o : fsop) : fsreply o -> tghost :=
  match o as o return fsreply o -> tghost with
  | OReadFile p => fun r => match r with inr b => if decide (p = path) then mkTghost (own g) true (Some b) else g | inl _ => g end
  | OCreateTemp _ _ => fun r => match r with inr (p, i) => mkTghost (Some (mkTemp p i [] false)) (present g) (known g) | inl _ => g end
  | OWrite h data => fun r =>
      match r with
      | inr _ => mkTghost ((fun t => mkTemp (tempPath t) (tempFile t) (written t ++ data) (linked t)) <$> own g) (present g) (known g)
      | inl _ => g
      end
  | OLink p q => fun r =>
      match r with
      | inr _ => mkTghost ((fun t => mkTemp (tempPath t) (tempFile t) (written t) true) <$> own g) true (written <$> own g)
      | inl AlreadyExists => mkTghost (own g) true (known g)
      | inl _ => g
      end
  | ORemove _ => fun _ => mkTghost None (present g) (known g)
  | _ => fun _ => g
  end.

(** At most [n] steps, and then the token, an error only after a fault or for a blank file *)
Fixpoint wp (n : nat) (g : tghost) (p : F bytes) : Prop :=
  match p with
  | FDone r =>
    match r with
    | Ret t => exists b, known g = Some b /\ t = TrimSpace b
    | Fail _ => faults = true \/ blank
    | Panic => False
    end
  | FDo o k =>
    permitted g o /\
    exists m, n = (weight o + m)%nat /\
    (forall r, sane g o r -> wp m (advance g o r) (k r)) /\
    (faults = true -> forall r, fault o = Some r ->
      match o as o return (fsreply o -> F bytes) -> fsreply o -> Prop with
      | OWrite h data => fun k r => forall a b, data = a ++ b -> wp m (advance g (OWrite h a) (inr tt)) (k r)
      | o => fun k r => wp m (advance g o r) (k r)
      end k r)
  end.

(** * Every operation keeps what the callers have *)

Lemma path_ends : exists pre, path = pre ++ tokenFileName.
Proof. apply (Join_last dataDir (bs "ipc.token")). split; [|done]. apply (bool_decide_unpack _). vm_compute. exact I. Qed.

(** The name of a temporary file ends in a digit. *)
Lemma tempLike_last p : tempLike p -> exists q c, p = q ++ [c] /\ 0x30 <= byte_to_Z c <= 0x39.
Proof.
  intros (d & d' & digits & -> & _ & Hne & Hd). destruct digits as [|c digits _] using rev_ind; [done|].
  apply Forall_app in Hd as [_ Hc]. inversion_clear Hc as [|? ? Hc' _]. rename Hc' into Hc. exists (d' ++ sep :: (tokenFileName ++ bs ".tmp-") ++ digits), c. split; [|exact Hc].
  by rewrite <- (assoc_L (++) d'), <- app_comm_cons, <- !(assoc_L (++)).
Qed.

Lemma not_temp p pre name c : p = pre ++ name -> last name = Some c -> 0x39 < byte_to_Z c -> ~ tempLike p.
Proof.
  intros -> Hl Hc (q & x & E & Hx)%tempLike_last. apply (f_equal last) in E. rewrite last_snoc, last_app, Hl in E. injection E as ->. lia.
Qed.

Lemma path_not_temp : ~ tempLike path.
Proof. destruct path_ends as [pre E]. by apply (not_temp _ _ _ Byte.x6e E). Qed.

Lemma registry_not_temp : ~ tempLike (jsonPath Dir).
Proof. destruct (json_ends Dir) as [pre E]. by apply (not_temp _ _ _ Byte.x6e E). Qed.

Lemma registry_not_path : jsonPath Dir <> path.
Proof.
  destruct (json_ends Dir) as [pre ->], path_ends as [pre' ->]. intros E. apply (f_equal reverse) in E. rewrite !reverse_app in E.
  apply (f_equal (.!! 1%nat)) in E. rewrite !lookup_app_l in E by (vm_compute; lia). vm_compute in E. discriminate.
Qed.

(** A change of the disk that leaves alone all a caller has *)
Lemma justified_frame d d' g :
  justified d g ->
  (forall t, own g = Some t -> names d' !! tempPath t = names d !! tempPath t /\ contents d' !! tempFile t = contents d !! tempFile t) ->
  (forall t q, own g = Some t -> linked t = false -> q <> tempPath t -> names d' !! q = Some (tempFile t) -> names d !! q = Some (tempFile t)) ->
  (forall b, readAt d path = Some b -> readAt d' path = Some b) -> justified d' g.
Proof.
  intros [H1 H2 H3 H4 H5] Hn Hq Hp. split.
  - intros t Ht. destruct (Hn t Ht) as [-> _]. by apply H1.
  - intros t Ht. destruct (Hn t Ht) as [_ ->]. by apply H2.
  - intros t q Ht Hl E. destruct (decide (q = tempPath t)) as [|Hne]; [done|]. eapply H3; [done|done|]. by eapply Hq.
  - intros Hg. destruct (H4 Hg) as [b Hb]. rewrite (Hp b Hb). by eexists.
  - intros b Hb. apply Hp. by apply H5.
Qed.

(** What an action of a caller that has [g] leaves, to it and to the others *)
Definition outcome (d' : disk) (d : disk) (g g' : tghost) : Prop :=
  base d' /\ justified d' g' /\ forall g2, disjoint g g2 -> justified d g2 -> justified d' g2 /\ disjoint g' g2.

Lemma outcome_same d g g' : base d -> justified d g' -> own g' = own g -> outcome d d g g'.
Proof. intros Hb Hj E. split; [done|]. split; [done|]. intros g2 Hd H2. split; [done|]. unfold disjoint in *. by rewrite E. Qed.

(** The disk with one more file *)
Lemma created_other d p i q : solid d -> names d !! p = None -> contents d !! i = None -> q <> p -> readAt (created p i d) q = readAt d q.
Proof.
  intros Hs Hp Hi Hq. unfold readAt. cbn. rewrite lookup_insert_ne by done. destruct (names d !! q) as [j|] eqn:E; cbn; [|done].
  destruct (Hs q j E) as [c Hc]. rewrite lookup_insert_ne; [done|]. intros ->. congruence.
Qed.

Lemma temp_action d g dir p i : base d -> justified d g -> own g = None -> tempName dir (tokenFileName ++ bs ".tmp-") p ->
  names d !! p = None -> contents d !! i = None -> outcome (created p i d) d g (mkTghost (Some (mkTemp p i [] false)) (present g) (known g)).
Proof.
  intros [Hs Hr Ht] Hj Hown Hp Hn Hi. assert (Hlike : tempLike p) by (by exists dir).
  assert (Hother : forall q, ~ tempLike q -> readAt (created p i d) q = readAt d q) by (intros q Hq; apply created_other; [done..|]; by intros ->).
  assert (Hfresh : forall q, names d !! q <> Some i). { intros q E. destruct (Hs q i E) as [c Hc]. congruence. }
  split; [|split].
  - split.
    + intros q j. cbn. intros [[<- <-]|[Hq E]]%lookup_insert_Some; [rewrite lookup_insert_eq; by eexists|].
      destruct (decide (j = i)) as [->|Hne]; [rewrite lookup_insert_eq; by eexists|]. rewrite lookup_insert_ne by done. by apply (Hs q).
    + rewrite Hother; [done|apply registry_not_temp].
    + intros b. rewrite Hother by apply path_not_temp. apply Ht.
  - split; cbn.
    + intros t [= <-]. cbn. by rewrite lookup_insert_eq.
    + intros t [= <-]. cbn. by rewrite lookup_insert_eq.
    + intros t q [= <-] _. cbn. intros [[<- _]|[_ E]]%lookup_insert_Some; [done|]. by destruct (Hfresh q).
    + rewrite Hother by apply path_not_temp. apply (just_present _ _ Hj).
    + intros b. rewrite Hother by apply path_not_temp. apply (just_known _ _ Hj).
  - intros g2 _ H2. split.
    + apply (justified_frame d); [done| | |by rewrite Hother by apply path_not_temp].
      * intros t E. destruct (just_name _ _ H2 t E) as [En _]. pose proof (just_content _ _ H2 t E) as Ec. cbn. split.
        -- rewrite lookup_insert_ne; [done|]. congruence.
        -- rewrite lookup_insert_ne; [done|]. congruence.
      * intros t q E _ Hq. cbn. intros [[<- Ei]|[_ Eq]]%lookup_insert_Some; [|done]. pose proof (just_content _ _ H2 t E). congruence.
    + unfold disjoint. cbn. destruct (own g2) as [t|] eqn:E; [|done]. destruct (just_name _ _ H2 t E) as [En _].
      pose proof (just_content _ _ H2 t E) as Ec. split; congruence.
Qed.

Lemma append_readAt d h a q : names d !! q <> Some h -> readAt (append h a d) q = readAt d q.
Proof. intros Hq. unfold readAt. cbn. destruct (names d !! q) as [j|]; cbn; [|done]. rewrite lookup_alter_ne; congruence. Qed.

Lemma append_action d g t h a : base d -> justified d g -> own g = Some t -> tempFile t = h -> linked t = false ->
  outcome (append h a d) d g (mkTghost (Some (mkTemp (tempPath t) h (written t ++ a) false)) (present g) (known g)).
Proof.
  intros [Hs Hr Ht] Hj Ho <- Hl. destruct (just_name _ _ Hj t Ho) as [Hn Hlike].
  assert (Hother : forall q, ~ tempLike q -> readAt (append (tempFile t) a d) q = readAt d q).
  { intros q Hq. apply append_readAt. intros E. apply (just_private _ _ Hj t q Ho Hl) in E. by subst. }
  split; [|split].
  - split; [|rewrite Hother; [done|apply registry_not_temp]|intros b; rewrite Hother by apply path_not_temp; apply Ht].
    intros q j E. cbn in *. destruct (Hs q j E) as [c Hc]. destruct (decide (j = tempFile t)) as [->|Hne].
    + rewrite lookup_alter_eq, Hc. by eexists.
    + rewrite lookup_alter_ne, Hc by done. by eexists.
  - split; cbn.
    + intros t' [= <-]. by cbn.
    + intros t' [= <-]. cbn. by rewrite lookup_alter_eq, (just_content _ _ Hj t Ho).
    + intros t' q [= <-] _. cbn. by apply (just_private _ _ Hj).
    + rewrite Hother by apply path_not_temp. apply (just_present _ _ Hj).
    + intros b. rewrite Hother by apply path_not_temp. apply (just_known _ _ Hj).
  - intros g2 Hd H2. unfold disjoint in *. rewrite Ho in Hd. split; [|done].
    apply (justified_frame d); [done| |done|by rewrite Hother by apply path_not_temp].
    intros t2 E. rewrite E in Hd. destruct Hd. cbn. by rewrite lookup_alter_ne.
Qed.

Lemma link_action d g t : base d -> justified d g -> own g = Some t -> linked t = false -> TrimSpace (written t) <> [] -> names d !! path = None ->
  outcome (set_names <[path := tempFile t]> d) d g (mkTghost (Some (mkTemp (tempPath t) (tempFile t) (written t) true)) true (Some (written t))).
Proof.
  intros [Hs Hr Ht] Hj Ho Hl Hw Hn. destruct (just_name _ _ Hj t Ho) as [Htn Hlike]. pose proof (just_content _ _ Hj t Ho) as Hc.
  assert (Hpath : readAt (set_names <[path := tempFile t]> d) path = Some (written t)) by (unfold readAt; cbn; by rewrite lookup_insert_eq).
  assert (Hne : tempPath t <> path) by (intros E; rewrite E in Hlike; by apply path_not_temp).
  assert (Hnone : readAt d path = None) by (unfold readAt; by rewrite Hn).
  split; [|split].
  - split.
    + intros q j. cbn. intros [[<- <-]|[_ E]]%lookup_insert_Some; [rewrite Hc; by eexists|by apply (Hs q)].
    + unfold readAt. cbn. rewrite lookup_insert_ne; [done|]. intros E. by apply registry_not_path.
    + intros b. rewrite Hpath. intros [= <-]. by left.
  - split; cbn.
    + intros t' [= <-]. cbn. by rewrite lookup_insert_ne by done.
    + by intros t' [= <-].
    + by intros t' q [= <-].
    + rewrite Hpath. by eexists.
    + intros b [= <-]. done.
  - intros g2 Hd H2. unfold disjoint in *. rewrite Ho in Hd. split; [|done]. apply (justified_frame d); [done| | |congruence].
    + intros t2 E. cbn. destruct (just_name _ _ H2 t2 E) as [E2 _]. rewrite lookup_insert_ne; [done|]. congruence.
    + intros t2 q E Hl2 Hq. cbn. intros [[<- Ei]|[_ Eq]]%lookup_insert_Some; [|done]. rewrite E in Hd. by destruct Hd.
Qed.

Lemma remove_action d g t : base d -> justified d g -> own g = Some t ->
  outcome (set_names (delete (tempPath t)) d) d g (mkTghost None (present g) (known g)).
Proof.
  intros [Hs Hr Ht] Hj Ho. destruct (just_name _ _ Hj t Ho) as [Htn Hlike].
  assert (Hother : forall q, ~ tempLike q -> readAt (set_names (delete (tempPath t)) d) q = readAt d q).
  { intros q Hq. unfold readAt. cbn. rewrite lookup_delete_ne; [done|]. by intros <-. }
  split; [|split].
  - split; [|rewrite Hother; [done|apply registry_not_temp]|intros b; rewrite Hother by apply path_not_temp; apply Ht].
    intros q j. cbn. intros [_ E]%lookup_delete_Some. by apply (Hs q).
  - split; cbn; [done..| |].
    + rewrite Hother by apply path_not_temp. apply (just_present _ _ Hj).
    + intros b. rewrite Hother by apply path_not_temp. apply (just_known _ _ Hj).
  - intros g2 Hd H2. split; [|done]. unfold disjoint in Hd. rewrite Ho in Hd.
    apply (justified_frame d); [done| | |by rewrite Hother by apply path_not_temp].
    + intros t2 E. rewrite E in Hd. destruct Hd. cbn. by rewrite lookup_delete_ne.
    + intros t2 q E _ _. cbn. by intros [_ ?]%lookup_delete_Some.
Qed.

Lemma action d g o r d' : base d -> justified d g -> permitted g o -> performs d o r d' -> sane g o r /\ outcome d' d g (advance g o r).
Proof.
  intros Hb Hj Hp Hd. destruct o as [p|p|dir pattern|h data|h|p q|p q|p|p|n|n]; cbn in *; try done.
  - destruct Hd as [-> Hd]. split; [split|].
    + intros ->. pose proof (base_registry _ Hb) as Er. destruct r as [e|b]; [|by rewrite <- Er, Hd].
      destruct Hd as [-> Hd]. apply (readAt_None d) in Hd; [|apply Hb]. by rewrite <- Er, Hd.
    + intros ->. destruct r as [e|b]; [|by apply (base_token _ Hb)]. destruct Hd as [-> Hd]. split; [done|].
      destruct (present g) eqn:E; [|done]. destruct (just_present _ _ Hj E) as [b Eb]. apply readAt_None in Hd; [congruence|apply Hb].
    + destruct r as [e|b]; [by apply outcome_same|]. destruct (decide (p = path)) as [->|]; [|by apply outcome_same].
      apply outcome_same; [done| |done]. destruct Hj as [H1 H2 H3 H4 H5]. split; [done..| |]; cbn; [intros _; rewrite Hd; by eexists|]. by intros b' [= <-].
  - destruct Hp as [Ho ->]. destruct r as [e|[p i]]; [done|]. destruct Hd as (H1 & H2 & H3 & ->). split; [by eexists|]. by eapply temp_action.
  - destruct Hp as (t & Ho & Et & Hl). destruct Hd as [-> ->]. split; [by eexists|]. rewrite Ho. cbn. rewrite Et, Hl. by apply append_action.
  - destruct Hd as [-> ->]. split; [by eexists|]. by apply outcome_same.
  - destruct Hp as (-> & t & Ho & <- & Hl & Hw). destruct (just_name _ _ Hj t Ho) as [Htn _]. destruct r as [e|u].
    + destruct Hd as [-> [[-> Hx]|[-> Hx]]]; [|congruence]. split; [done|]. apply outcome_same; [done| |done].
      destruct Hj as [H1 H2 H3 H4 H5]. split; try done. cbn. intros _. destruct (readAt d path) eqn:E; [by eexists|].
      apply (readAt_None d) in E; [|apply Hb]. rewrite E in Hx. by destruct Hx.
    + destruct Hd as (i & Hi & Hn & ->). split; [done|]. rewrite Ho. cbn. rewrite Htn in Hi. injection Hi as <-. by apply link_action.
  - destruct Hp as (t & Ho & <-). destruct (just_name _ _ Hj t Ho) as [Htn _]. split; [done|]. destruct r as [e|u]; [destruct Hd as (_ & ? & _); congruence|].
    destruct Hd as [_ ->]. by apply remove_action.
  - destruct Hd as [-> ->]. split; [by eexists|]. by apply outcome_same.
  - destruct Hd as [-> Hd]. split; [|by apply outcome_same]. destruct r as [e|b]; [done|]. by eexists.
Qed.

Lemma fault_action d g o r : base d -> justified d g -> fault o = Some r -> outcome d d g (advance g o r).
Proof.
  intros Hb Hj Hr. destruct o; cbn in *; simplify_eq; try by apply outcome_same.
  split; [done|]. split; [|done]. destruct Hj as [H1 H2 H3 H4 H5]. by split.
Qed.

(** One step of a program is one of these actions, and one of its steps *)
Lemma wp_step n g p d p' d' : base d -> justified d g -> wp n g p -> fstep faults (d, p) (d', p') ->
  exists n' g', (n' < n)%nat /\ wp n' g' p' /\ outcome d' d g g'.
Proof.
  intros Hb Hj Hw Hs. remember (d, p) as s eqn:Es. remember (d', p') as s' eqn:Es'. revert Hw.
  destruct Hs as [d0 o k r d1 Hp|d0 o k r Hf Hr|d0 h a b k Ha Hbb]; simplify_eq; intros (Hok & m & -> & Hk & Hkf).
  - destruct (action _ _ _ _ _ Hb Hj Hok Hp) as [Hsane Hout]. exists m, (advance g o r). split; [destruct o; cbn; lia|]. auto.
  - specialize (Hkf Hf r Hr). destruct o; try (exists m; eexists; split; [cbn; lia|]; split; [exact Hkf|by apply fault_action]).
    exists m, (advance g (OWrite h []) (inr tt)). split; [cbn; lia|]. split; [by apply (Hkf [] data)|].
    destruct Hok as (t & Ho & <- & Hl). pose proof (append_action _ _ _ _ [] Hb Hj Ho eq_refl Hl) as Hout. cbn. rewrite Ho. cbn. rewrite Hl.
    by rewrite append_nil in Hout.
  - destruct Hok as (t & Ho & <- & Hl). exists (length b + m)%nat. eexists. split; [|split; [|by apply append_action]].
    + cbn. rewrite length_app. destruct a, b; cbn; try done; lia.
    + split; [by eexists|]. exists m. split; [destruct b; cbn; [done|]; lia|]. split.
      * intros r [[] ->]. specialize (Hk (inr tt) ltac:(by eexists)). cbn in *. rewrite Ho in Hk. cbn in *. rewrite Hl in Hk. by rewrite <- (assoc_L (++)).
      * intros Hf r [= <-] a' b' ->. specialize (Hkf Hf _ eq_refl (a ++ a') b' ltac:(by rewrite (assoc_L (++)))). cbn in *.
        rewrite Ho in Hkf. cbn in *. rewrite Hl in Hkf. by rewrite <- (assoc_L (++)).
Qed.

(** * All the callers *)

Record inv (d : disk) (pool : list (F bytes)) (gs : list (tghost * nat)) : Prop := mkInv {
  inv_length : length gs = length pool;
  inv_base : base d;
  inv_caller j p g n : pool !! j = Some p -> gs !! j = Some (g, n) -> wp n g p /\ justified d g;
  inv_disjoint j k g g' n n' : j <> k -> gs !! j = Some (g, n) -> gs !! k = Some (g', n') -> disjoint g g';
}.

Lemma sum_insert (l : list nat) j x y : l !! j = Some x -> (y < x)%nat -> (sum_list (<[j := y]> l) < sum_list l)%nat.
Proof.
  revert j. induction l as [|z l IH]; intros [|j]; cbn [lookup list_lookup insert list_insert sum_list sum_list_with]; [done|done|intros [= ->] Hxy; unfold id; lia|]. intros Hj Hxy. exact (proj1 (Nat.add_lt_mono_l _ _ _) (IH j Hj Hxy)).
Qed.

(** [disjoint] is symmetric. *)
Lemma disjoint_sym g g' : disjoint g g' -> disjoint g' g.
Proof. unfold disjoint. destruct (own g), (own g'); [|done..]. intros [? ?]. by split; apply not_eq_sym. Qed.

Lemma inv_step d pool gs d' pool' : inv d pool gs -> pstep faults (d, pool) (d', pool') ->
  exists gs', inv d' pool' gs' /\ (sum_list (snd <$> gs') < sum_list (snd <$> gs))%nat.
Proof.
  intros [Hl Hb Hc Hd] Hs. remember (d, pool) as s eqn:Es. remember (d', pool') as s' eqn:Es'. destruct Hs as [d0 pool0 j p d1 p' Hj Hs]. simplify_eq.
  pose proof (lookup_lt_Some _ _ _ Hj) as Hlt. assert (Hlt' : (j < length gs)%nat) by (rewrite Hl; exact Hlt). destruct (lookup_lt_is_Some_2 gs j Hlt') as [[g n] Hg].
  destruct (Hc _ _ _ _ Hj Hg) as [Hw Hjust]. destruct (wp_step _ _ _ _ _ _ Hb Hjust Hw Hs) as (n' & g' & Hn & Hw' & Hb' & Hj' & Hother).
  assert (Ho : forall k g2 n2, k <> j -> gs !! k = Some (g2, n2) -> justified d' g2 /\ disjoint g' g2).
  { intros k g2 n2 Hk Hg2. destruct (lookup_lt_is_Some_2 pool k) as [p2 Hp2]; [rewrite <- Hl; by eapply lookup_lt_Some|].
    apply Hother; [apply (Hd j k g g2 n n2); [by apply not_eq_sym|done|done]|]. by eapply Hc. }
  exists (<[j := (g', n')]> gs). split; [split|].
  - by rewrite !length_insert.
  - done.
  - intros k p2 g2 n2 Hp2 Hg2. apply list_lookup_insert_Some in Hp2 as [(<- & <- & _)|[Hk Hp2]].
    + rewrite list_lookup_insert_eq in Hg2 by exact Hlt'. by injection Hg2 as <- <-.
    + rewrite list_lookup_insert_ne in Hg2 by done. split; [by eapply Hc|]. by eapply Ho.
  - intros k l g1 g2 n1 n2 Hkl H1 H2. apply list_lookup_insert_Some in H1 as [(<- & [= <- <-] & _)|[Hk H1]], H2 as [(<- & [= <- <-] & _)|[Hk2 H2]];
      [done|eapply (Ho l); [by apply not_eq_sym|done]|apply disjoint_sym; eapply (Ho k); [by apply not_eq_sym|done]|by eapply (Hd k l)].
  - rewrite list_fmap_insert. eapply sum_insert; [|exact Hn]. by rewrite list_lookup_fmap, Hg.
Qed.

Lemma inv_steps m d pool gs d' pool' : inv d pool gs -> nsteps (pstep faults) m (d, pool) (d', pool') ->
  exists gs', inv d' pool' gs' /\ (m + sum_list (snd <$> gs') <= sum_list (snd <$> gs))%nat.
Proof.
  revert d pool gs. induction m as [|m IH]; intros d pool gs Hi Hs.
  - inversion Hs; subst. exists gs. split; [done|lia].
  - inversion Hs as [|? ? [d1 pool1] ? H1 H2]; subst. destruct (inv_step _ _ _ _ _ Hi H1) as (gs1 & Hi1 & Hlt).
    destruct (IH _ _ _ Hi1 H2) as (gs' & Hi' & Hle). exists gs'. split; [done|lia].
Qed.

(** * The callers *)

Lemma wp_more n n' g p : (n <= n')%nat -> wp n g p -> wp n' g p.
Proof.
  revert n n' g. induction p as [r|o k IH]; intros n n' g Hn; [done|]. intros (Hp & m & -> & Hk & Hf). split; [done|].
  exists (n' - weight o)%nat. split; [lia|]. split.
  - intros r Hr. eapply IH; [|by apply Hk]. lia.
  - intros Hb r Hr. specialize (Hf Hb r Hr). destruct o; try (eapply IH; [|exact Hf]; lia). intros a b E. eapply IH; [|by eapply Hf]. lia.
Qed.

Lemma tokenOf_wp n g b : TrimSpace b <> [] \/ blank -> known g = Some b -> wp n g (FDone (tokenOf b)).
Proof.
  intros Hb Hk. unfold tokenOf. destruct (bytes_eqb (TrimSpace b) []) eqn:E; cbn; [|by exists b].
  right. apply bytes_eqb_true in E. by destruct Hb.
Qed.

Lemma publish_wp raw p h : length raw = tokenSize ->
  wp 68 (mkTghost (Some (mkTemp p h [] false)) false None)
    (fafter (publish path p h (hex_encode raw)) (fun r => FDo (ORemove p) (fun _ => FDone r))).
Proof.
  intros Hraw. remember (hex_encode raw) as tok eqn:Et. assert (Htok : TrimSpace tok = tok) by (subst; apply TrimSpace_plain, hex_plain).
  assert (Hlen : length tok = 64%nat) by (subst; by rewrite hex_length, Hraw).
  assert (Hne : tok <> []) by (by intros E; rewrite E in Hlen). cbn [publish fafter].
  split; [by eexists|]. exists 4%nat. split; [unfold weight; by rewrite Hlen|]. split.
  2: { intros Hf r [= <-] a b _. cbn. split; [done|]. exists 3%nat. split; [done|]. split.
       all: intros; split; [by eexists|]; exists 2%nat; split; [done|]; split; intros; by left. }
  intros r [[] ->]. cbn. split; [done|]. exists 3%nat. split; [done|]. split.
  2: { intros Hf r [= <-]. cbn. split; [by eexists|]; exists 2%nat; split; [done|]; split; intros; by left. }
  intros r [[] ->]. cbn. split; [split; [done|]; eexists; split; [done|]; cbn; rewrite Htok; by split|]. exists 2%nat. split; [done|]. split.
  2: { intros Hf r [= <-]. cbn. split; [by eexists|]; exists 1%nat; split; [done|]; split; intros; by left. }
  intros r Hr. destruct r as [e|u]; cbn in Hr.
  - subst e. cbn. split; [by left|]. exists 1%nat. split; [done|]. split.
    + intros r [_ Hr]. specialize (Hr eq_refl). destruct r as [e|b]; [by destruct Hr|]. cbn. rewrite decide_True by done.
      split; [by eexists|]. exists O. split; [done|]. split; [intros _ _; by apply tokenOf_wp|intros _ r _; by apply tokenOf_wp].
    + intros Hf r [= <-]. cbn. split; [by eexists|]; exists O; split; [done|]; split; intros; by left.
  - cbn. split; [by eexists|]. exists 1%nat. split; [done|]. split; intros; (exists tok; by rewrite Htok).
Qed.

Definition nothing : tghost := mkTghost None false None.

Lemma loadOrGenerateToken_wp n : (71 <= n)%nat -> wp n nothing (loadOrGenerateToken dataDir).
Proof.
  intros Hn. split; [by left|]. exists (n - 1)%nat. split; [cbn; lia|]. split.
  2: { intros Hf r [= <-]. by left. }
  intros r [_ Hr]. specialize (Hr eq_refl). destruct r as [e|b].
  2: { cbn. rewrite decide_True by done. by apply tokenOf_wp. }
  destruct Hr as [-> _]. cbn. split; [done|]. exists (n - 2)%nat. split; [lia|]. split.
  2: { intros Hf r [= <-]. by left. }
  intros r (raw & -> & Hraw). cbn. split; [done|]. exists (n - 3)%nat. split; [lia|]. split.
  2: { intros Hf r [= <-]. by left. }
  intros r [[p h] ->]. apply (wp_more 68); [lia|]. by apply publish_wp.
Qed.

(** Where the registry is *)
Definition registryRoot : gores bytes :=
  if bytes_eqb (Getenv EnvHome) [] then home ← UserHomeDir; Ret (Join [home; bs ".libp2p-kv-raft"]) else Ret (Getenv EnvHome).

(** The registry says where the node keeps its files. *)
Definition registered (peerID : bytes) : Prop :=
  registryRoot = Ret Dir /\ dataDir <> [] /\
  exists m info, parsed registry = Ret m /\ m !! peerID = Some info /\ DataDir info = dataDir.

(** The way from the peer id to the data directory *)
Lemma lookup_wp peerID : registered peerID ->
  wp 72 nothing (info ← wrapF "ipc: look up peer %s: %w" (Get Dir peerID);
    match info with
    | None => liftF (Fail (Errorf "ipc: no registered node for peer id %s"))
    | Some info =>
      if bytes_eqb (DataDir info) [] then liftF (Fail (Errorf "ipc: no registered node for peer id %s"))
      else loadOrGenerateToken (DataDir info)
    end).
Proof.
  intros (_ & Hne & m & info & Hm & Hi & Hd). split; [by right|]. exists 71%nat. split; [done|]. split.
  2: { intros Hf r [= <-]. by left. }
  intros r [Hr _]. specialize (Hr eq_refl). subst r.
  assert (Hgo : wp 71 nothing (if bytes_eqb (DataDir info) [] then liftF (Fail (Errorf "ipc: no registered node for peer id %s")) else loadOrGenerateToken (DataDir info))).
  { rewrite Hd, bytes_eqb_false by done. by apply loadOrGenerateToken_wp. }
  assert (Ha : advance nothing (OReadFile (jsonPath Dir)) (match registry with Some data => inr data | None => inl NotExist end) = nothing).
  { destruct registry; [|done]. cbn. rewrite decide_False; [done|]. apply registry_not_path. }
  rewrite Ha. unfold parsed in Hm. destruct registry as [[|c data]|]; cbn in Hm |- *.
  - injection Hm as <-. by rewrite lookup_empty in Hi.
  - destruct (json_unnodes (c :: data)) as [[m'|]|e|]; cbn in Hm |- *; [| |done..]; injection Hm as <-; [|by rewrite lookup_empty in Hi]. rewrite bytes_eqb_false by done. cbn. rewrite Hi. exact Hgo.
  - injection Hm as <-. by rewrite lookup_empty in Hi.
Qed.

Lemma tokenForPeer_wp peerID : registered peerID -> wp 73 nothing (tokenForPeer peerID).
Proof.
  intros Hreg. pose proof (lookup_wp peerID Hreg) as Hgo. destruct Hreg as (Hroot & _). unfold tokenForPeer, Open, registryRoot in *.
  assert (Hmk : wp 73 nothing (reg ← wrapF "ipc: open registry: %w" (FDo (OMkdirAll Dir) (fun r => liftF (wrap_err "registry: create %s: %w" (_ ← orFail r; Ret Dir))));
     info ← wrapF "ipc: look up peer %s: %w" (Get reg peerID);
     match info with
     | None => liftF (Fail (Errorf "ipc: no registered node for peer id %s"))
     | Some info =>
       if bytes_eqb (DataDir info) [] then liftF (Fail (Errorf "ipc: no registered node for peer id %s"))
       else loadOrGenerateToken (DataDir info)
     end)).
  { split; [done|]. exists 72%nat. split; [done|]. split; [|intros Hf r [= <-]; by left]. intros r [[] ->]. exact Hgo. }
  destruct (bytes_eqb (Getenv EnvHome) []).
  - destruct UserHomeDir as [home|e|]; cbn in Hroot; [|done..]. injection Hroot as <-. exact Hmk.
  - injection Hroot as <-. exact Hmk.
Qed.

(** * The theorem *)

(** The node itself, and a client of it *)
Inductive caller : Type :=
| Serving
| Dialling (peerID : bytes).

Definition call (c : caller) : F bytes :=
  match c with
  | Serving => loadOrGenerateToken dataDir
  | Dialling peerID => tokenForPeer peerID
  end.

Definition known_node (c : caller) : Prop := match c with Serving => True | Dialling peerID => registered peerID end.

Lemma callers_start d cs : base d -> Forall known_node cs -> inv d (call <$> cs) ((fun _ => (nothing, 73%nat)) <$> cs).
Proof.
  intros Hb Hcs. split; [by rewrite !length_fmap|done| |].
  - intros j p g n. rewrite !list_lookup_fmap. destruct (cs !! j) as [c|] eqn:E; [|done]. cbn. intros [= <-] [= <- <-].
    split; [|by split]. eapply Forall_lookup_1 in Hcs; [|exact E]. destruct c; [apply loadOrGenerateToken_wp; lia|by apply tokenForPeer_wp].
  - intros j k g g' n n' _. rewrite !list_lookup_fmap. destruct (cs !! j), (cs !! k); try done. by intros [= <- <-] [= <- <-].
Qed.

Definition finished (p : F bytes) : Prop := match p with FDone _ => True | FDo _ _ => False end.

#[local] Instance finished_dec p : Decision (finished p).
Proof. destruct p; [left; exact I|right; exact id]. Defined.

Lemma pool_progress d pool : solid d -> Forall finished pool \/ exists s, pstep faults (d, pool) s.
Proof.
  intros Hs. destruct (decide (Forall finished pool)) as [|Hn]; [by left|right]. apply not_Forall_Exists, Exists_exists in Hn as (p & Hin & Hp); [|apply _].
  apply list_elem_of_lookup_1 in Hin as [j Hj]. destruct p as [r|o k]; [by destruct Hp|].
  eexists. eapply pstep_one; [exact Hj|]. by apply fstep_op, perform_ok.
Qed.

Lemma token_callers d cs n d' pool :
  base d -> Forall known_node cs -> nsteps (pstep faults) n (d, call <$> cs) (d', pool) ->
  (n <= 73 * length cs)%nat /\ length pool = length cs /\
  (forall j t, pool !! j = Some (FDone (Ret t)) -> TrimSpace <$> readAt d' path = Some t) /\
  (forall j, pool !! j <> Some (FDone Panic)) /\
  (forall j e, pool !! j = Some (FDone (Fail e)) -> faults = true \/ blank) /\
  (Forall finished pool \/ exists s, pstep faults (d', pool) s).
Proof.
  intros Hb Hcs Hs. destruct (inv_steps _ _ _ _ _ _ (callers_start d cs Hb Hcs) Hs) as (gs & [Hl Hb' Hc _] & Hle).
  assert (Hend : forall j r, pool !! j = Some (FDone r) -> exists g n, wp n g (FDone r) /\ justified d' g).
  { intros j r Hj. destruct (lookup_lt_is_Some_2 gs j) as [[g m] Hg]; [rewrite Hl; by eapply lookup_lt_Some|]. exists g, m. by eapply Hc. }
  split; [|split; [|split; [|split; [|split]]]].
  - revert Hle. rewrite <- list_fmap_compose. rewrite (sum_list_fmap_same 73 cs) by (by apply Forall_forall). lia.
  - assert (E : forall n s s', nsteps (pstep faults) n s s' -> length (snd s' : list (F bytes)) = length (snd s)).
    { clear. induction 1 as [|n s s1 s' H1 _ IH]; [done|]. rewrite IH. destruct H1. apply length_insert. }
    pose proof (E _ _ _ Hs) as El. cbn in El. by rewrite length_fmap in El.
  - intros j t Hj. destruct (Hend j _ Hj) as (g & m & (b & Hk & ->) & Hj'). by rewrite (just_known _ _ Hj' b Hk).
  - intros j Hj. by destruct (Hend j _ Hj) as (g & m & [] & _).
  - intros j e Hj. by destruct (Hend j _ Hj) as (g & m & Hf & _).
  - apply pool_progress, Hb'.
Qed.

End Token.

(** C26 The secret of a node's local channel is one secret.  Any number of callers, the node
    starting up and clients of it that the registry knows, run at
    once, their file operations interleaved in any order, writes byte by byte, and with [faults] any
    operation may fail: a caller that returns a secret returns what is
    in the token file, so that all of them have the same one and a caller that comes
    later gets it too; an error is only returned for a fault, or if the token file that was
    there before is blank; no caller waits for another, and all of them are done after
    at most 73 steps each. *)
Theorem token_callers_agree `{RegistryEnv} (faults : bool) (Dir dataDir : bytes) (d : disk) (cs : list caller) (n : nat) (d' : disk) (pool : list (F bytes)) :
  solid d -> Forall (known_node Dir dataDir (readAt d (jsonPath Dir))) cs ->
  nsteps (pstep faults) n (d, call dataDir <$> cs) (d', pool) ->
  (n <= 73 * length cs)%nat /\ length pool = length cs /\
  (forall j t, pool !! j = Some (FDone (Ret t)) -> TrimSpace <$> readAt d' (tokenPath dataDir) = Some t) /\
  (forall j, pool !! j <> Some (FDone Panic)) /\
  (forall j e, pool !! j = Some (FDone (Fail e)) -> faults = true \/ TrimSpace <$> readAt d (tokenPath dataDir) = Some []) /\
  (Forall finished pool \/ exists s, pstep faults (d', pool) s).
Proof.
  intros Hs Hcs Hn. apply (token_callers faults Dir dataDir (readAt d (jsonPath Dir)) _ d cs n d' pool); [|done..].
  split; [done..|]. intros b ->. destruct (decide (TrimSpace b = [])) as [E|]; [right; cbn; by rewrite E|by left].
Qed.
