(* ===== verification/RegistryWitnesses.v ===== *)
(** Concrete instances of the theorems on the registry and the local channel's secret. *)

From S2P Require Import Prelude SystemKeys Payloads LogRecord Txn Hex Calendar Cron CronParse Files Registry RegistryProps IpcToken IpcTokenProps.
#[local] Open Scope Z_scope.

(** A codec for the registry's map: a bit for a byte of the document *)
Fixpoint bits (p : positive) : bytes :=
  match p with
  | xH => bs "."
  | xO p => Byte.x30 :: bits p
  | xI p => Byte.x31 :: bits p
  end.

Fixpoint unbits (b : bytes) : positive :=
  match b with
  | Byte.x30 :: b => xO (unbits b)
  | Byte.x31 :: b => xI (unbits b)
  | _ => xH
  end.

Lemma unbits_bits p : unbits (bits p) = p.
Proof. induction p as [p IH|p IH|]; cbn; congruence. Qed.

#[local] Instance NodeInfo_eq_dec : EqDecision NodeInfo.
Proof. solve_decision. Defined.

#[local] Instance NodeInfo_countable : Countable NodeInfo.
Proof.
  apply (inj_countable'
    (fun i => (PeerID i, Role i, DataDir i, KeyPath i, ListenAddrs i, LeaderPeerID i, PID i, ClusterPeerID i))
    (fun '(a, b, c, d, e, f, g, h) => mkNodeInfo a b c d e f g h)).
  by intros [].
Defined.

#[local] Instance wRegistry : RegistryEnv := {
  Getenv _ := [];
  UserHomeDir := Ret (bs "/home/op");
  json_nodes m := Ret (bits (encode m));
  json_unnodes b := Ret (decode (unbits b));
  hmac_sha256 k m := k ++ m;
  Multiaddr := bytes;
  newMultiaddr := Ret;
  addrPeerID := Ret;
}.

Lemma wRegistry_faithful : json_faithful.
Proof.
  intros m _. exists (bits (encode m)). split; [done|]. split; [by destruct (encode m)|]. cbn. by rewrite unbits_bits, decode_encode.
Qed.

Definition wDir : bytes := bs "/home/op/.libp2p-kv-raft".
Definition wPeer : bytes := bs "12D3KooWNode".
Definition wInfo : NodeInfo := mkNodeInfo wPeer RoleLeader (bs "/data") (bs "/data/identity.key") [bs "/ip4/127.0.0.1/tcp/4001"] [] 17 [].
Definition wEmpty : disk := mkDisk ∅ ∅.

Lemma wEmpty_solid : solid wEmpty.
Proof. intros p i. cbn. by rewrite lookup_empty. Qed.

Lemma wEmpty_holds : holds wDir wEmpty (∅, None).
Proof. split; [apply wEmpty_solid| |done|done]. intros p _ q i. cbn. by rewrite lookup_empty. Qed.

Lemma ascii_check (s : bytes) : forallb (fun b => byte_to_Z b <? 0x80) s = true -> ascii s.
Proof. intros Hs. apply Forall_forall. intros b Hb. apply (proj1 (forallb_forall _ s)) with (x := b) in Hs; [by apply Z.ltb_lt|by apply list_elem_of_In]. Qed.

(** A node is recorded in an empty registry. *)
Lemma registry_atomic_witness :
  let '(r, d') := frun (program wDir (RPut wInfo)) wEmpty in
  (exists s', s' ∈ stages (RPut wInfo) (∅, None) /\ holds wDir d' s' /\ forall r', FDone r = FDone r' -> ended true (RPut wInfo) (∅, None) s' r') /\
  exists d'' r' s'', rtc (fstep true) (d', FDone r) (d'', FDone r') /\ holds wDir d'' s'' /\ ended true (RPut wInfo) (∅, None) s'' r'.
Proof.
  destruct (frun (program wDir (RPut wInfo)) wEmpty) as [r d'] eqn:E.
  apply (registry_atomic true wDir (RPut wInfo) (∅, None) wEmpty d' (FDone r)).
  - apply wRegistry_faithful.
  - apply map_Forall_empty.
  - split; [|by apply ascii_check]. repeat split; try (by apply ascii_check). constructor; [by apply ascii_check|constructor].
  - apply wEmpty_holds.
  - pose proof (frun_steps true (program wDir (RPut wInfo)) wEmpty wEmpty_solid) as Hr. by rewrite E in Hr.
Defined.

(** A disk with the node's record and no secret yet, and the node and a client of it *)
Definition wDocument : bytes := bits (encode ({[wPeer := wInfo]} : gmap bytes NodeInfo)).
Definition wRecorded : disk := mkDisk {[jsonPath wDir := O]} {[O := wDocument]}.
Definition wData : bytes := bs "/data".
Definition wCallers : list caller := [Serving; Dialling wPeer].

Lemma wRecorded_solid : solid wRecorded.
Proof. intros p i. cbn. intros [_ <-]%lookup_singleton_Some. rewrite lookup_singleton_eq. by eexists. Qed.

Lemma wRecorded_read : readAt wRecorded (jsonPath wDir) = Some wDocument.
Proof. unfold readAt. cbn. rewrite lookup_singleton_eq. cbn. apply lookup_singleton_eq. Qed.

Lemma wRecorded_fresh : readAt wRecorded (tokenPath wData) = None.
Proof. unfold readAt. cbn. rewrite lookup_singleton_ne; [done|]. apply registry_not_path. Qed.

Lemma wPeer_registered : registered wDir wData (Some wDocument) wPeer.
Proof.
  split; [by vm_compute|]. split; [done|]. exists {[wPeer := wInfo]}, wInfo. split; [|split; [apply lookup_singleton_eq|done]].
  unfold wDocument, parsed. destruct (bits _) eqn:E; [by destruct (encode _)|]. rewrite <- E. cbn. by rewrite unbits_bits, decode_encode.
Qed.

(** Both run, one after the other, and have the same secret. *)
Lemma token_callers_agree_witness :
  exists n d' t, nsteps (pstep false) n (wRecorded, call wData <$> wCallers) (d', [FDone (Ret t); FDone (Ret t)]) /\
  (n <= 146)%nat /\ TrimSpace <$> readAt d' (tokenPath wData) = Some t.
Proof.
  pose proof wRecorded_solid as Hs. destruct (frun (call wData Serving) wRecorded) as [r1 d1] eqn:E1.
  destruct (frun (call wData (Dialling wPeer)) d1) as [r2 d2] eqn:E2.
  assert (Hs1 : solid d1) by (pose proof (frun_solid (call wData Serving) _ Hs) as Hx; by rewrite E1 in Hx).
  assert (Hrun : rtc (pstep false) (wRecorded, call wData <$> wCallers) (d2, [FDone r1; FDone r2])).
  { etrans; [apply (pool_run false wRecorded d1 _ 0 (call wData Serving) (FDone r1)); [done|]|].
    - pose proof (frun_steps false (call wData Serving) _ Hs) as Hx. by rewrite E1 in Hx.
    - apply (pool_run false d1 d2 [FDone r1; call wData (Dialling wPeer)] 1 (call wData (Dialling wPeer)) (FDone r2)); [done|].
      pose proof (frun_steps false (call wData (Dialling wPeer)) _ Hs1) as Hx. by rewrite E2 in Hx. }
  apply rtc_nsteps in Hrun as [n Hn].
  assert (Hcs : Forall (known_node wDir wData (readAt wRecorded (jsonPath wDir))) wCallers) by (rewrite wRecorded_read; repeat constructor; apply wPeer_registered).
  destruct (token_callers_agree false wDir wData wRecorded _ _ _ _ Hs Hcs Hn) as (Hle & _ & Hret & Hp & Hf & _). rewrite wRecorded_fresh in Hf.
  destruct r1 as [t|e|]; [|by destruct (Hf 0%nat e eq_refl)|by destruct (Hp 0%nat)].
  destruct r2 as [t2|e|]; [|by destruct (Hf 1%nat e eq_refl)|by destruct (Hp 1%nat)].
  pose proof (Hret 0%nat t eq_refl) as Ht. pose proof (Hret 1%nat t2 eq_refl) as Ht2. rewrite Ht in Ht2. injection Ht2 as <-.
  exists n, d2, t. split; [exact Hn|]. split; [exact Hle|exact Ht].
Defined.
