(* ===== verification/CronProps.v ===== *)
(** What a cron expression means: the masks the parser builds hold exactly the values
    the terms name, and [Next] finds the first minute that matches. *)

From S2P Require Import Prelude SystemKeys Payloads LogRecord Txn Calendar Cron.
#[local] Open Scope Z_scope.

(** * The search *)

(** Whole minutes. *)
Definition aligned (t : Z) : Prop := t mod Minute = 0.

(** No whole minute of the interval matches. *)
Definition noMatch (s : Spec) (lo hi : Z) : Prop := forall r, aligned r -> lo <= r < hi -> Match s r = false.

Lemma aligned_mul k : aligned (k * Minute).
Proof. unfold aligned. by rewrite Z.mod_mul. Qed.

Lemma aligned_day k : aligned (k * Day).
Proof. replace (k * Day) with (k * 1440 * Minute) by (unfold Day, Hour; lia). apply aligned_mul. Qed.

Lemma aligned_hour k : aligned (k * Hour).
Proof. replace (k * Hour) with (k * 60 * Minute) by (unfold Hour; lia). apply aligned_mul. Qed.

Lemma aligned_lt t t' : aligned t -> aligned t' -> t < t' -> t + Minute <= t'.
Proof.
  unfold aligned. rewrite !Z.mod_divide by done. intros [a ->] [b ->] Hlt. apply Zmult_lt_reg_r in Hlt; [|done]. assert (0 < Minute) by done. nia.
Qed.

(** An instant is in the unit that begins at or before it. *)
Lemma in_unit u k t : 0 < u -> k * u <= t < (k + 1) * u -> t / u = k.
Proof. intros Hu Ht. symmetry. apply (Z.div_unique t u k (t - k * u)); lia. Qed.

Lemma unit_start u t : 0 < u -> t / u * u <= t < (t / u + 1) * u.
Proof. intros Hu. pose proof (Z.mul_div_le t u Hu). pose proof (Z.mul_succ_div_gt t u Hu). lia. Qed.

Lemma noMatch_app s a b c : noMatch s a b -> noMatch s b c -> noMatch s a c.
Proof. intros H1 H2 r Hr Hin. destruct (Z.lt_ge_cases r b); [apply H1|apply H2]; (done || lia). Qed.

(** Instants of one day agree on everything but the time of day. *)
Lemma same_day t t' : dayOf t = dayOf t' -> tMonth t = tMonth t' /\ tDay t = tDay t' /\ tWeekday t = tWeekday t'.
Proof. intros E. unfold tDay, tMonth, tWeekday, yearDay, tYear. by rewrite E. Qed.

Lemma dayMatches_day s t t' : dayOf t = dayOf t' -> dayMatches s t = dayMatches s t'.
Proof. intros (_ & E1 & E2)%same_day. unfold dayMatches. by rewrite E1, E2. Qed.

Lemma tHour_div t : tHour t = (t / Hour) mod 24.
Proof.
  unfold tHour, Day. pose proof (div_parts t 24 Hour eq_refl eq_refl) as E. assert (0 < Hour) by done.
  set (q := t / (24 * Hour)) in *. set (r := t mod (24 * Hour) / Hour) in *. replace (t / Hour) with (r + q * 24) by nia.
  rewrite Z.mod_add by lia. symmetry. apply Z.mod_small. apply (tHour_range t).
Qed.

Lemma dayOf_hours t : dayOf t = t / Hour / 24.
Proof. unfold dayOf, Day. rewrite (Z.mul_comm 24), Z.div_div by done. done. Qed.

(** What is passed over does not match. *)
Lemma skip_month s t : admits (specMonth s) (tMonth t) = false -> noMatch s t (rollMonth t).
Proof.
  intros Ha r _ Hr. rewrite rollMonth_spec in Hr. destruct (same_month t r) as [_ E].
  { split; [by apply Z.div_le_mono; [|lia]|]. apply Z.div_lt_upper_bound; [done|lia]. }
  unfold Match. by rewrite E, Ha.
Qed.

Lemma skip_day s t : dayMatches s t = false -> noMatch s t (rollDay t).
Proof.
  intros Hd r _ Hr. rewrite rollDay_spec in Hr. assert (dayOf r = dayOf t) as E.
  { apply in_unit; [done|]. pose proof (unit_start Day t eq_refl). unfold dayOf in *. lia. }
  unfold Match. rewrite (dayMatches_day s r t E), Hd. by rewrite andb_false_r.
Qed.

Lemma skip_hour s t : admits (specHour s) (tHour t) = false -> noMatch s t (rollHour t).
Proof.
  intros Ha r _ Hr. rewrite rollHour_spec in Hr. assert (r / Hour = t / Hour) as E.
  { apply in_unit; [done|]. pose proof (unit_start Hour t eq_refl). lia. }
  unfold Match. rewrite (tHour_div r), E, <- tHour_div, Ha. by rewrite andb_false_r.
Qed.

Lemma skip_minute s t : aligned t -> admits (specMinute s) (tMinute t) = false -> noMatch s t (t + Minute).
Proof.
  intros Ht Ha r Hr Hin. assert (r = t) as ->.
  { destruct (Z.lt_trichotomy t r) as [Hlt|[?|?]]; [|done|lia]. pose proof (aligned_lt t r Ht Hr Hlt). lia. }
  unfold Match. rewrite Ha. by rewrite andb_false_r.
Qed.

(** ... and every step goes on to a later whole minute. *)
Lemma roll_later t : aligned t ->
  (aligned (rollMonth t) /\ t < rollMonth t) /\ (aligned (rollDay t) /\ t < rollDay t) /\ (aligned (rollHour t) /\ t < rollHour t) /\
  (aligned (t + Minute) /\ t < t + Minute).
Proof.
  intros Ht. rewrite rollMonth_spec, rollDay_spec, rollHour_spec.
  split_and!; try apply aligned_day; try apply aligned_hour; try done.
  - pose proof (nextMonthDay_later t) as Hl. unfold dayOf in Hl. pose proof (unit_start Day t eq_refl). assert (0 < Day) by done. nia.
  - apply (unit_start Day t eq_refl).
  - apply (unit_start Hour t eq_refl).
  - unfold aligned in *. rewrite Z.add_mod, Ht, Z.mod_same by done. done.
  - assert (0 < Minute) by done. lia.
Qed.

(** The first matching minute from [lo] on, or none before [hi]. *)
Definition firstMatch (s : Spec) (lo hi : Z) (o : option Z) : Prop :=
  match o with
  | Some r => aligned r /\ lo <= r < hi /\ Match s r = true /\ noMatch s lo r
  | None => noMatch s lo hi
  end.

Lemma firstMatch_skip s lo mid hi o : lo <= mid -> noMatch s lo mid -> firstMatch s mid hi o -> firstMatch s lo hi o.
Proof.
  intros Hle Hn. destruct o as [r|]; cbn.
  - intros (Ha & Hr & Hm & Hr'). split_and!; [done|lia|lia|done|]. by eapply noMatch_app.
  - by apply noMatch_app.
Qed.

Lemma rollMinute_later t : aligned (rollMinute t) /\ t < rollMinute t /\ forall r, aligned r -> t < r -> rollMinute t <= r.
Proof.
  assert (aligned (rollMinute t)) as Ha by (rewrite rollMinute_spec; apply aligned_mul).
  pose proof (unit_start Minute t eq_refl) as Hu. rewrite <- rollMinute_spec in Hu. split_and!; [done|lia|].
  intros r Hr Ht. destruct (Z.lt_ge_cases r (rollMinute t)) as [Hlt|]; [|done]. pose proof (aligned_lt r _ Hr Ha Hlt) as Hl.
  rewrite rollMinute_spec in Hl. pose proof (unit_start Minute t eq_refl). lia.
Qed.

(** ** In a zone that keeps its offset *)

Section Steady.
Context (l : Location) (o : Z) (Hl : steady l o).

Lemma wall_back w : wall l (w - o * Minute) = w.
Proof. rewrite (wall_steady l o Hl). lia. Qed.

Lemma wall_add t d : wall l (t + d) = wall l t + d.
Proof. rewrite !(wall_steady l o Hl). lia. Qed.

Lemma wall_lt t t' : wall l t < wall l t' <-> t < t'.
Proof. rewrite !(wall_steady l o Hl). lia. Qed.

Lemma wall_aligned t : aligned (wall l t) <-> aligned t.
Proof. rewrite (wall_steady l o Hl). unfold aligned. by rewrite Z.mod_add. Qed.

(** The steps as the clocks of the zone read them. *)
Lemma wall_rolls t :
  wall l (rollMonthIn l t) = rollMonth (wall l t) /\ wall l (rollDayIn l t) = rollDay (wall l t) /\
  wall l (rollHourIn l t) = rollHour (wall l t) /\ wall l (rollMinuteIn l t) = rollMinute (wall l t).
Proof.
  rewrite (rollMonth_steady l o Hl), (rollDay_steady l o Hl), (rollHour_steady l o Hl), (rollMinute_steady l o Hl). by rewrite !wall_back.
Qed.

Lemma nextLoop_first s deadline fuel : forall next,
  aligned (wall l next) -> deadline - next <= Z.of_nat fuel * Minute ->
  exists r, nextLoop fuel l s next deadline = Some r /\ firstMatch s (wall l next) (wall l deadline) (wall l <$> r).
Proof.
  assert (0 < Minute) as Hmin by done. induction fuel as [|fuel IH]; intros next Ha Hf; cbn [nextLoop];
    destruct (Z.leb_spec deadline next) as [Hd|Hd]; try (exists None; split; [done|]; intros r _ ?; rewrite !(wall_steady l o Hl) in *; lia); [lia|].
  destruct (roll_later _ Ha) as ([Hm1 Hm2] & [Hd1 Hd2] & [Hh1 Hh2] & [Hi1 Hi2]). destruct (wall_rolls next) as (Em & Ed & Eh & _).
  assert (forall mid, aligned (wall l mid) -> wall l next < wall l mid -> noMatch s (wall l next) (wall l mid) ->
    exists r, nextLoop fuel l s mid deadline = Some r /\ firstMatch s (wall l next) (wall l deadline) (wall l <$> r)) as Hgo.
  { intros mid Hmid Hlt Hno. pose proof (aligned_lt _ _ Ha Hmid Hlt) as Hstep. destruct (IH mid Hmid) as (r & E & Hr).
    - rewrite !(wall_steady l o Hl) in Hstep. lia.
    - exists r. split; [done|]. apply (firstMatch_skip s (wall l next) (wall l mid)); [lia|done|done]. }
  destruct (admits (specMonth s) _) eqn:E1; cbn [negb]; [|apply Hgo; rewrite Em; [done|done|by apply skip_month]].
  destruct (dayMatches s _) eqn:E2; cbn [negb]; [|apply Hgo; rewrite Ed; [done|done|by apply skip_day]].
  destruct (admits (specHour s) _) eqn:E3; cbn [negb]; [|apply Hgo; rewrite Eh; [done|done|by apply skip_hour]].
  destruct (admits (specMinute s) _) eqn:E4; cbn [negb]; [|apply Hgo; rewrite wall_add; [done|done|by apply skip_minute]].
  exists (Some next). split; [done|]. apply wall_lt in Hd. cbn. split_and!; [done|lia|lia|unfold Match; by rewrite E1, E2, E3, E4|]. intros r _ ?. lia.
Qed.

Lemma Next_first s t :
  exists r, Next l s t = Some r /\
    firstMatch s (rollMinute (wall l t)) (AddDate (rollMinute (wall l t)) maxNextSearchYears 0 0) (wall l <$> r).
Proof.
  unfold Next, NextWithin, nextFuel. set (next := rollMinuteIn l t). set (deadline := AddDateIn l next maxNextSearchYears 0 0).
  destruct (wall_rolls t) as (_ & _ & _ & En). fold next in En.
  assert (wall l deadline = AddDate (rollMinute (wall l t)) maxNextSearchYears 0 0) as Ed
    by (unfold deadline; rewrite (AddDate_steady l o Hl), wall_back; by rewrite En).
  rewrite <- Ed, <- En. apply nextLoop_first; [rewrite En; apply rollMinute_later|]. assert (0 < Minute) by done.
  pose proof (unit_start Minute (deadline - next) eq_refl). destruct (Z.lt_ge_cases (deadline - next) 0); [lia|].
  pose proof (Z.div_pos (deadline - next) Minute ltac:(lia) ltac:(lia)). nia.
Qed.
End Steady.

(** ** In any zone *)

(** Given more rounds, a search that returned returns the same. *)
Lemma nextLoop_more fuel fuel' l s next deadline r :
  (fuel <= fuel')%nat -> nextLoop fuel l s next deadline = Some r -> nextLoop fuel' l s next deadline = Some r.
Proof.
  revert fuel' next. induction fuel as [|fuel IH]; intros [|fuel'] next Hle; cbn [nextLoop]; try lia;
    destruct (deadline <=? next); try done.
  repeat (destruct (negb _); [apply IH; lia|]). done.
Qed.

(** What is returned matches, and is not past the horizon. *)
Lemma nextLoop_matches fuel l s deadline r : forall next,
  nextLoop fuel l s next deadline = Some (Some r) -> Match s (wall l r) = true /\ r < deadline.
Proof.
  induction fuel as [|fuel IH]; intros next; cbn [nextLoop]; destruct (Z.leb_spec deadline next) as [Hd|Hd]; try done.
  destruct (admits (specMonth s) _) eqn:E1; cbn [negb]; [|apply IH].
  destruct (dayMatches s _) eqn:E2; cbn [negb]; [|apply IH].
  destruct (admits (specHour s) _) eqn:E3; cbn [negb]; [|apply IH].
  destruct (admits (specMinute s) _) eqn:E4; cbn [negb]; [|apply IH].
  intros [= <-]. split; [unfold Match; by rewrite E1, E2, E3, E4|done].
Qed.

(** C30 The next fire: in every zone, whatever [Next] returns is before the horizon of five
    years and matches the expression as the clocks of the zone read it, however many
    rounds its search takes.  In a zone that keeps one offset of whole minutes, UTC among
    them, it always returns, and what it returns is the first whole minute after [t] that
    matches, if there is one before the horizon, and nothing otherwise: although it passes
    over whole months, days and hours it misses none.  (Where the clocks are turned it
    need not return, and what it returns need not be later than [t].) *)
Theorem next_is_first_match (s : Spec) (l : Location) (t : Z) :
  let horizon := AddDateIn l (rollMinuteIn l t) maxNextSearchYears 0 0 in
  (forall fuel r, NextWithin fuel l s t = Some (Some r) -> r < horizon /\ Match s (wall l r) = true) /\
  (forall o, steady l o ->
   match Next l s t with
   | Some (Some r) => aligned r /\ t < r < horizon /\ Match s (wall l r) = true /\ forall r', aligned r' -> t < r' < r -> Match s (wall l r') = false
   | Some None => forall r', aligned r' -> t < r' < horizon -> Match s (wall l r') = false
   | None => False
   end).
Proof.
  intros horizon. split; [by intros fuel r []%nextLoop_matches|]. intros o Hl. destruct (Next_first l o Hl s t) as (r & -> & Hfirst).
  assert (wall l horizon = AddDate (rollMinute (wall l t)) maxNextSearchYears 0 0) as Eh.
  { unfold horizon. rewrite (AddDate_steady l o Hl), (wall_back l o Hl). by destruct (wall_rolls l o Hl t) as (_ & _ & _ & ->). }
  rewrite <- Eh in Hfirst. destruct (rollMinute_later (wall l t)) as (Ha & Hlt & Hnext). destruct r as [r|]; cbn in Hfirst.
  - destruct Hfirst as (Hr & Hin & Hm & Hno). split_and!; [by apply (wall_aligned l o Hl)|apply (wall_lt l o Hl); lia|apply (wall_lt l o Hl); lia|done|].
    intros r' Hr' [H1 H2]. apply Hno; [by apply (wall_aligned l o Hl)|]. split; [apply Hnext|]; [by apply (wall_aligned l o Hl)|by apply (wall_lt l o Hl)..].
  - intros r' Hr' [H1 H2]. apply Hfirst; [by apply (wall_aligned l o Hl)|]. split; [apply Hnext|]; [by apply (wall_aligned l o Hl)|by apply (wall_lt l o Hl)..].
Qed.
