(* ===== verification/Scheduler.v ===== *)
(** The command scheduler (src/examples/croncmd: croncmd.go, scheduler.go, history.go, and
    the in-process store of store.go): schedules, fires and the operations on
    them as programs over the store's interface. *)

From S2P Require Import Prelude Store SystemKeys Payloads LogRecord Txn Calendar Cron.
#[local] Open Scope Z_scope.

(** * Data *)

Record Schedule : Type := mkSchedule {
  ScheduleID : bytes;
  ScheduleSpec : bytes;
  ScheduleCommand : bytes;
  ScheduleInputs : bytes;
  ScheduleLocation : bytes;
  Disabled : bool;
  Comment : bytes;
}.

Definition set_Disabled (b : bool) (s : Schedule) : Schedule :=
  mkSchedule (ScheduleID s) (ScheduleSpec s) (ScheduleCommand s) (ScheduleInputs s) (ScheduleLocation s) b (Comment s).

(** [At] in nanoseconds since the epoch, as every instant. *)
Record Fire : Type := mkFire {
  FireSchedule : bytes;
  FireCommand : bytes;
  At : Z;
  InstanceID : bytes;
}.

(** The instant of Go's zero [time.Time]. *)
Definition zeroTime : Z := tDate 1 1 1 0 0 0.

(** [a.Sub(b)], saturating. *)
Definition Sub (a b : Z) : Z := Z.max (- 2 ^ 63) (Z.min (2 ^ 63 - 1) (a - b)).

(** What the scheduler takes from elsewhere: the zone database and JSON. *)
Class CronEnv : Type := {
  LoadLocation : bytes -> gores Location;
  json_schedule : Schedule -> gores bytes;
  json_unschedule : bytes -> gores Schedule;
  json_fire : Fire -> gores bytes;
  json_unfire : bytes -> option Fire;
}.

(** * Programs over a store *)

(** What the hooks are told. *)
Inductive note : Type :=
| OnFire (s : Schedule) (fire : Z) (instanceID : bytes)
| OnSkip (s : Schedule) (fire : Z) (reason : bytes)
| OnError (err : error).

(** The methods of [Store] and [Submitter], the clock and the hooks.  A submission names
    the fire it is for; the submitter sees the command and the inputs. *)
Inductive op : Type :=
| OGet (key : bytes)
| OScan (prefix : bytes)
| OPut (key value : bytes)
| ODelete (key : bytes)
| OClaim (key value : bytes)
| OSubmit (s : Schedule) (fire : Z)
| ONow
| ONote (n : note).

Definition reply (o : op) : Type :=
  match o with
  | OGet _ => gores (option bytes)
  | OScan _ => gores (list (bytes * bytes))
  | OPut _ _ | ODelete _ => gores unit
  | OClaim _ _ => gores bool
  | OSubmit _ _ => gores bytes
  | ONow => Z
  | ONote _ => unit
  end.

(** [Spin] is a loop that does not end. *)
Inductive prog (A : Type) : Type :=
| Done (a : A)
| Do (o : op) (k : reply o -> prog A)
| Spin.
Arguments Done {A} a.
Arguments Do {A} o k.
Arguments Spin {A}.

(** Any result of the first program goes to the second. *)
Fixpoint after {A B} (p : prog A) (k : A -> prog B) : prog B :=
  match p with
  | Done a => k a
  | Do o c => Do o (fun r => after (c r) k)
  | Spin => Spin
  end.

(** Programs that return a value or an error. *)
Definition P (A : Type) : Type := prog (gores A).
#[global] Instance P_ret : MRet P := fun A a => Done (Ret a).
#[global] Instance P_bind : MBind P := fun A B f p =>
  after p (fun r => match r with Ret a => f a | Fail e => Done (Fail e) | Panic => Done Panic end).

Definition liftP {A} (r : gores A) : P A := Done r.
Definition wrapP {A} (fmt : String.string) (p : P A) : P A := after p (fun r => Done (wrap_err fmt r)).
Arguments wrapP {A} fmt%_string_scope p.

Definition sGet (key : bytes) : P (option bytes) := Do (OGet key) Done.
Definition sScan (prefix : bytes) : P (list (bytes * bytes)) := Do (OScan prefix) Done.
Definition sPut (key value : bytes) : P unit := Do (OPut key value) Done.
Definition sDelete (key : bytes) : P unit := Do (ODelete key) Done.
Definition sClaim (key value : bytes) : P bool := Do (OClaim key value) Done.
Definition tell {A} (n : note) (p : P A) : P A := Do (ONote n) (fun _ => p).

(** [s.report(err)] of a result, whatever it is *)
Definition report {A B} (r : gores A) (p : P B) : P B :=
  match r with
  | Fail err => tell (OnError err) p
  | Ret _ => p
  | Panic => liftP Panic
  end.
Fixpoint reportAll {B} (errs : list error) (p : P B) : P B :=
  match errs with
  | [] => p
  | err :: errs' => tell (OnError err) (reportAll errs' p)
  end.

(** * The catalog *)

Definition DefaultKeyPrefix : bytes := bs "cron/".
Definition schedulePart : bytes := bs "schedule/".
Definition watermarkPart : bytes := bs "watermark/".
Definition claimPart : bytes := bs "claim/".

Definition slash : byte := Byte.x2f.

(** [prefix()] of [Catalog] and of [Scheduler] *)
Definition prefix (KeyPrefix : bytes) : bytes := if bytes_eqb KeyPrefix [] then DefaultKeyPrefix else KeyPrefix.

Definition scheduleKey (KeyPrefix id : bytes) : bytes := prefix KeyPrefix ++ schedulePart ++ id.
Definition watermarkKey (KeyPrefix id : bytes) : bytes := prefix KeyPrefix ++ watermarkPart ++ id.
Definition claimKey (KeyPrefix id : bytes) (fire : Z) : bytes := prefix KeyPrefix ++ claimPart ++ id ++ [slash] ++ formatMinute fire.

Section Cron.
Context `{CronEnv}.

Definition location (s : Schedule) : gores Location :=
  if bytes_eqb (TrimSpace (ScheduleLocation s)) [] then Ret UTC
  else wrap_err "croncmd: schedule %s: unknown location %q: %w" (LoadLocation (ScheduleLocation s)).

Definition validate (s : Schedule) : gores unit :=
  if bytes_eqb (TrimSpace (ScheduleID s)) [] then Fail (Errorf "croncmd: a schedule needs an id") else
  if bool_decide (slash ∈ ScheduleID s) then Fail (Errorf "croncmd: schedule id %q must not contain '/'") else
  if bytes_eqb (TrimSpace (ScheduleCommand s)) [] then Fail (Errorf "croncmd: schedule %s needs a command id") else
  _ ← ParseSpec (ScheduleSpec s);
  _ ← location s;
  Ret tt.

Definition parsed (s : Schedule) : gores (Spec * Location) :=
  spec ← ParseSpec (ScheduleSpec s);
  loc ← location s;
  Ret (spec, loc).

Definition Catalog_Put (KeyPrefix : bytes) (s : Schedule) : P unit :=
  _ ← liftP (validate s);
  encoded ← liftP (wrap_err "croncmd: encode schedule %s: %w" (json_schedule s));
  sPut (scheduleKey KeyPrefix (ScheduleID s)) encoded.

Definition Catalog_Get (KeyPrefix id : bytes) : P Schedule :=
  value ← sGet (scheduleKey KeyPrefix id);
  match value with
  | None => liftP (Fail (Errorf "croncmd: no schedule %s"))
  | Some value => liftP (wrap_err "croncmd: schedule %s does not parse: %w" (json_unschedule value))
  end.

(** The records that can be used, and the reasons why the others cannot. *)
Fixpoint usable (pairs : list (bytes * bytes)) : gores (list Schedule * list error) :=
  match pairs with
  | [] => Ret ([], [])
  | (_, value) :: pairs' =>
    '(schedules, skipped) ← usable pairs';
    match s ← wrap_err "croncmd: schedule at %s does not parse: %w" (json_unschedule value); _ ← validate s; Ret s with
    | Ret s => Ret (s :: schedules, skipped)
    | Fail err => Ret (schedules, err :: skipped)
    | Panic => Panic
    end
  end.

Definition Catalog_List (KeyPrefix : bytes) : P (list Schedule * list error) :=
  pairs ← sScan (prefix KeyPrefix ++ schedulePart);
  liftP (usable pairs).

Definition Catalog_Delete (KeyPrefix id : bytes) : P unit :=
  _ ← sDelete (scheduleKey KeyPrefix id);
  sDelete (watermarkKey KeyPrefix id).

Definition Catalog_SetEnabled (KeyPrefix id : bytes) (enabled : bool) : P unit :=
  s ← Catalog_Get KeyPrefix id;
  Catalog_Put KeyPrefix (set_Disabled (negb enabled) s).

(** [count] of the fires after [cursor]; [None] if a search does not return. *)
Fixpoint nextFires (count : nat) (spec : Spec) (loc : Location) (cursor : Z) : option (list Z) :=
  match count with
  | O => Some []
  | S count' =>
    match Next loc spec cursor with
    | None => None
    | Some None => Some []
    | Some (Some fire) => cons fire <$> nextFires count' spec loc fire
    end
  end.

(** A negative count panics in [make]. *)
Definition NextFires (s : Schedule) (from count : Z) : option (gores (list Z)) :=
  match parsed s with
  | Ret (spec, loc) => if count <? 0 then Some Panic else Ret <$> nextFires (Z.to_nat count) spec loc from
  | Fail err => Some (Fail err)
  | Panic => Some Panic
  end.

(** ** The fires of the past *)

(** From the last pair on, at most [limit] (all if it is not positive). *)
Fixpoint decodeFires (pairs : list (bytes * bytes)) (limit found : Z) : list Fire :=
  match pairs with
  | [] => []
  | (_, value) :: pairs' =>
    match json_unfire value with
    | Some fire =>
      if At fire =? zeroTime then decodeFires pairs' limit found else
      fire :: (if (0 <? limit) && (found + 1 =? limit) then [] else decodeFires pairs' limit (found + 1))
    | None => decodeFires pairs' limit found
    end
  end.

Definition Catalog_Fires (KeyPrefix scheduleID : bytes) (limit : Z) : P (list Fire) :=
  pairs ← wrapP "croncmd: read fires: %w"
            (sScan (prefix KeyPrefix ++ claimPart ++ if bytes_eqb scheduleID [] then [] else scheduleID ++ [slash]));
  mret (decodeFires (reverse pairs) limit 0).

(** * The scheduler *)

Definition DefaultInterval : Z := 20 * Second.
Definition DefaultCatchUp : Z := Hour.
Definition DefaultRetain : Z := 14 * 24 * Hour.
Definition DefaultPruneInterval : Z := Hour.
Definition maxFiresPerSchedulePerTick : nat := 1000.

Record Scheduler : Type := mkScheduler {
  KeyPrefix : bytes;
  Interval : Z;
  CatchUp : Z;
  Retain : Z;
  PruneInterval : Z;
  RetryFailedSubmit : bool;
}.

Definition interval (c : Scheduler) : Z := if Interval c <=? 0 then DefaultInterval else Interval c.
Definition catchUp (c : Scheduler) : Z := if CatchUp c <=? 0 then DefaultCatchUp else CatchUp c.

(** At least twice the window, in 64 bits. *)
Definition retain (c : Scheduler) : Z :=
  let r := if Retain c <=? 0 then DefaultRetain else Retain c in
  let floor := s64 (u64 (2 * catchUp c)) in
  if r <? floor then floor else r.
Definition pruneInterval (c : Scheduler) : Z := if PruneInterval c <=? 0 then DefaultPruneInterval else PruneInterval c.

Definition SkipStale : bytes := bs "older than the catch-up window".
Definition SkipClaimed : bytes := bs "claimed by another scheduler".

Definition putWatermark (c : Scheduler) (id : bytes) (at_ : Z) : P unit :=
  sPut (watermarkKey (KeyPrefix c) id) (formatRFC3339 at_).

(** Where the pass starts; [None] for a schedule seen for the first time. *)
Definition window (c : Scheduler) (s : Schedule) (now : Z) : P (option Z) :=
  value ← sGet (watermarkKey (KeyPrefix c) (ScheduleID s));
  match value with
  | None => mret None
  | Some value =>
    match parseRFC3339 value with
    | None => tell (OnError (Errorf "croncmd: watermark for %s does not parse (%q), starting from now: %w")) (mret (Some now))
    | Some mark => mret (Some (if now <? mark then now else mark))
    end
  end.

(** [fire]: claim, submit, and record what it became. *)
Definition fireOne (c : Scheduler) (s : Schedule) (at_ : Z) : P unit :=
  let key := claimKey (KeyPrefix c) (ScheduleID s) at_ in
  let claim := mkFire (ScheduleID s) (ScheduleCommand s) at_ [] in
  encoded ← liftP (wrap_err "croncmd: encode claim for %s: %w" (json_fire claim));
  claimed ← sClaim key encoded;
  if negb claimed then tell (OnSkip s at_ SkipClaimed) (mret tt) else
  Do (OSubmit s at_) (fun r =>
    match r with
    | Ret instanceID =>
      let done : P unit := tell (OnFire s at_ instanceID) (mret tt) in
      match json_fire (mkFire (ScheduleID s) (ScheduleCommand s) at_ instanceID) with
      | Ret encoded => after (sPut key encoded) (fun w => report w done)
      | Fail _ => done
      | Panic => liftP Panic
      end
    | r =>
      let failed : P unit := liftP (wrap_err "croncmd: submit %s for schedule %s: %w" (_ ← r; Ret tt)) in
      if RetryFailedSubmit c then after (sDelete key) (fun w => report w failed) else failed
    end).

(** The loop of [runSchedule]; returns where the watermark goes. *)
Fixpoint fireLoop (left : nat) (c : Scheduler) (s : Schedule) (spec : Spec) (loc : Location) (now cursor advanceTo : Z) : P Z :=
  match left with
  | O => mret advanceTo
  | S left' =>
    match Next loc spec cursor with
    | None => Spin
    | Some None => mret advanceTo
    | Some (Some fire) =>
      if now <? fire then mret advanceTo else
      after (fireOne c s fire) (fun r =>
        match r with
        | Ret _ => fireLoop left' c s spec loc now fire (match left' with O => fire | S _ => advanceTo end)
        | Fail err => after (putWatermark c (ScheduleID s) (fire - Minute)) (fun w => report w (liftP (Fail err)))
        | Panic => liftP Panic
        end)
    end
  end.

Definition runSchedule (c : Scheduler) (s : Schedule) (now : Z) : P unit :=
  '(spec, loc) ← liftP (parsed s);
  from ← window c s now;
  match from with
  | None => putWatermark c (ScheduleID s) now
  | Some from =>
    let stale := now - catchUp c in
    let go (from : Z) : P unit :=
      advanceTo ← fireLoop maxFiresPerSchedulePerTick c s spec loc now from now;
      putWatermark c (ScheduleID s) advanceTo in
    if from <? stale then tell (OnSkip s from SkipStale) (go stale) else go from
  end.

Fixpoint runAll (c : Scheduler) (schedules : list Schedule) (now : Z) : P unit :=
  match schedules with
  | [] => mret tt
  | s :: schedules' =>
    if Disabled s then runAll c schedules' now else
    after (runSchedule c s now) (fun r => report r (runAll c schedules' now))
  end.

(** The time after the last slash. *)
Fixpoint afterLastSlash (key : bytes) : option bytes :=
  match key with
  | [] => None
  | x :: key' =>
    match afterLastSlash key' with
    | Some t => Some t
    | None => if byte_eqb x slash then Some key' else None
    end
  end.
Definition claimKeyTime (key : bytes) : option Z :=
  t ← afterLastSlash key;
  if bytes_eqb t [] then None else parseMinute t.

Fixpoint prunePairs (pairs : list (bytes * bytes)) (cutoff : Z) : P unit :=
  match pairs with
  | [] => mret tt
  | (key, _) :: pairs' =>
    match claimKeyTime key with
    | Some fire =>
      if fire <? cutoff then after (sDelete key) (fun w => report w (prunePairs pairs' cutoff))
      else prunePairs pairs' cutoff
    | None => prunePairs pairs' cutoff
    end
  end.

Definition pruneClaims (c : Scheduler) (now : Z) : P unit :=
  pairs ← wrapP "croncmd: prune claims: %w" (sScan (prefix (KeyPrefix c) ++ claimPart));
  prunePairs pairs (now - retain c).

(** One pass; [lastPrune] is the scheduler's own state, and what is returned is the next. *)
Definition Tick (c : Scheduler) (lastPrune : Z) : P Z :=
  '(schedules, skipped) ← wrapP "croncmd: tick: %w" (Catalog_List (KeyPrefix c));
  reportAll skipped (Do ONow (fun now =>
    _ ← runAll c schedules now;
    if (lastPrune =? zeroTime) || (pruneInterval c <=? Sub now lastPrune)
    then after (pruneClaims c now) (fun r => report r (mret now))
    else mret lastPrune)).
End Cron.

(** * The in-process store *)

(** [ctx] is the error of the context, [None] while it is live. *)
Definition HasPrefix (s p : bytes) : bool := bool_decide (is_Some (cut_prefix p s)).

Definition memory_Get (ctx : option error) (key : bytes) (t : table) : table * gores (option bytes) :=
  match ctx with Some err => (t, Fail err) | None => (t, Ret (t !! key)) end.
Definition memory_Scan (ctx : option error) (p : bytes) (t : table) : table * gores (list (bytes * bytes)) :=
  match ctx with Some err => (t, Fail err) | None => (t, Ret (select (fun k => HasPrefix k p) t)) end.
Definition memory_Put (ctx : option error) (key value : bytes) (t : table) : table * gores unit :=
  match ctx with Some err => (t, Fail err) | None => (<[key := value]> t, Ret tt) end.
Definition memory_Delete (ctx : option error) (key : bytes) (t : table) : table * gores unit :=
  match ctx with Some err => (t, Fail err) | None => (delete key t, Ret tt) end.
Definition memory_Claim (ctx : option error) (key value : bytes) (t : table) : table * gores bool :=
  match ctx with
  | Some err => (t, Fail err)
  | None =>
    match t !! key with
    | Some _ => (t, Ret false)
    | None => (<[key := value]> t, Ret true)
    end
  end.

(** The methods of the interface, by their operation. *)
Definition memoryStore (ctx : option error) (o : op) : option (table -> table * reply o) :=
  match o as o return option (table -> table * reply o) with
  | OGet key => Some (memory_Get ctx key)
  | OScan p => Some (memory_Scan ctx p)
  | OPut key value => Some (memory_Put ctx key value)
  | ODelete key => Some (memory_Delete ctx key)
  | OClaim key value => Some (memory_Claim ctx key value)
  | OSubmit _ _ | ONow | ONote _ => None
  end.
