(* ===== verification/SchedulerProps.v ===== *)
(** Many schedulers, one store: however their operations interleave, fail or get lost,
    no fire is submitted twice. *)

From S2P Require Import Prelude Store SystemKeys Payloads LogRecord Txn Calendar Cron CronProps Scheduler.
#[local] Open Scope Z_scope.

(** * Several processes over one store *)

Record world : Type := mkWorld {
  kv : table;
  clock : Z;
  submissions : list (Schedule * Z);
}.

Definition set_kv (t : table) (w : world) : world := mkWorld t (clock w) (submissions w).
Definition set_clock (t : Z) (w : world) : world := mkWorld (kv w) t (submissions w).
Definition submit (s : Schedule) (fire : Z) (w : world) : world := mkWorld (kv w) (clock w) (submissions w ++ [(s, fire)]).

(** The reply by which an operation fails. *)
Definition failure (err : error) (o : op) : option (reply o) :=
  match o as o return option (reply o) with
  | OGet _ | OScan _ | OPut _ _ | ODelete _ | OClaim _ _ | OSubmit _ _ => Some (Fail err)
  | ONow | ONote _ => None
  end.

(** What a running program has read from the clock, and the claim it has won and not
    used yet. *)
Record ghost : Type := mkGhost {
  reading : option Z;
  token : option bytes;
}.

Definition fresh : ghost := mkGhost None None.

Definition advance (g : ghost) (o : op) : reply o -> ghost :=
  match o as o return reply o -> ghost with
  | ONow => fun now => mkGhost (Some now) (token g)
  | OClaim key _ => fun r => match r with Ret true => mkGhost (reading g) (Some key) | _ => g end
  | OSubmit _ _ => fun _ => mkGhost (reading g) None
  | _ => fun _ => g
  end.

(** A process: its configuration, its own state, and the program it is in the middle of. *)
Record process : Type := mkProcess {
  config : Scheduler;
  lastPrune : Z;
  running : option (P Z);
  progress : ghost;
}.

Definition start (c : Scheduler) : process := mkProcess c zeroTime None fresh.
Definition continue (p : P Z) (g : ghost) (th : process) : process := mkProcess (config th) (lastPrune th) (Some p) g.

Section Processes.
Context `{CronEnv}.

(** What a process does: ticks, and an operator's edits. *)
Inductive task : Type :=
| DoTick
| DoPut (s : Schedule)
| DoDelete (id : bytes)
| DoSetEnabled (id : bytes) (enabled : bool)
| DoFires (id : bytes) (limit : Z).

Definition program (c : Scheduler) (last : Z) (t : task) : P Z :=
  match t with
  | DoTick => Tick c last
  | DoPut s => _ ← Catalog_Put (KeyPrefix c) s; mret last
  | DoDelete id => _ ← Catalog_Delete (KeyPrefix c) id; mret last
  | DoSetEnabled id enabled => _ ← Catalog_SetEnabled (KeyPrefix c) id enabled; mret last
  | DoFires id limit => _ ← Catalog_Fires (KeyPrefix c) id limit; mret last
  end.

Definition begin (t : task) (th : process) : process :=
  mkProcess (config th) (lastPrune th) (Some (program (config th) (lastPrune th) t)) fresh.
Definition finish (r : gores Z) (th : process) : process :=
  mkProcess (config th) (match r with Ret last => last | _ => lastPrune th end) None fresh.

(** The key prefix and the catch-up window the schedulers have in common; a clock is at
    most [behind] behind real time, or [ahead] ahead of it, and a pass
    does not go on longer than that with what it read. *)
Context (pre : bytes) (window behind ahead : Z).

Definition agreed (c : Scheduler) : Prop := prefix (KeyPrefix c) = pre /\ catchUp c = window /\ RetryFailedSubmit c = false.

Definition timely (w : world) (g : ghost) : Prop :=
  match reading g with
  | None => True
  | Some now => clock w - behind <= now <= clock w + ahead
  end.

(** One operation.  A store operation may fail before or after it takes effect, and a
    submission that failed may have been accepted. *)
Inductive performs (w : world) : forall o : op, reply o -> world -> Prop :=
| perf_store o f t r : memoryStore None o = Some f -> f (kv w) = (t, r) -> performs w o r (set_kv t w)
| perf_failed o err r : failure err o = Some r -> performs w o r w
| perf_lost o f t r err r' : memoryStore None o = Some f -> f (kv w) = (t, r) -> failure err o = Some r' -> performs w o r' (set_kv t w)
| perf_submit s fire r : performs w (OSubmit s fire) r (submit s fire w)
| perf_now now : clock w - behind <= now <= clock w + ahead -> fourDigits (now - window) -> fourDigits now -> performs w ONow now w
| perf_note n : performs w (ONote n) tt w.

Inductive step : world * list process -> world * list process -> Prop :=
| step_clock w pool t : clock w <= t -> step (w, pool) (set_clock t w, pool)
| step_begin w l th l' t : running th = None -> step (w, l ++ th :: l') (w, l ++ begin t th :: l')
| step_op w w' l th l' o k r :
    running th = Some (Do o k) -> timely w (progress th) -> performs w o r w' ->
    step (w, l ++ th :: l') (w', l ++ continue (k r) (advance (progress th) o r) th :: l')
| step_finish w l th l' r : running th = Some (Done r) -> step (w, l ++ th :: l') (w, l ++ finish r th :: l')
| step_join w pool c : agreed c -> step (w, pool) (w, pool ++ [start c])
| step_crash w l th l' : step (w, l ++ th :: l') (w, l ++ l').

(** * What the programs may do *)

Definition isClaimKey (key : bytes) : Prop := exists rest, key = pre ++ claimPart ++ rest.

Definition permitted (g : ghost) (o : op) : Prop :=
  match o with
  | ODelete key => isClaimKey key -> exists now fire, reading g = Some now /\ claimKeyTime key = Some fire /\ fire < now - 2 * window
  | OClaim key _ => token g = None /\ isClaimKey key /\ exists now, reading g = Some now /\ (forall fire, claimKeyTime key = Some fire -> now - window < fire)
  | OSubmit s fire => token g = Some (pre ++ claimPart ++ ScheduleID s ++ [slash] ++ formatMinute fire)
  | ONow => token g = None
  | _ => True
  end.

(** What is known of a reply. *)
Definition sane (o : op) : reply o -> Prop :=
  match o as o return reply o -> Prop with
  | ONow => fun now => fourDigits (now - window) /\ fourDigits now
  | _ => fun _ => True
  end.

Fixpoint wp {A} (g : ghost) (p : prog A) (Q : ghost -> A -> Prop) : Prop :=
  match p with
  | Done a => Q g a
  | Do o k => permitted g o /\ forall r, sane o r -> wp (advance g o r) (k r) Q
  | Spin => True
  end.

Lemma wp_mono {A} (p : prog A) : forall g (Q Q' : ghost -> A -> Prop), (forall g a, Q g a -> Q' g a) -> wp g p Q -> wp g p Q'.
Proof. induction p as [a|o k IH|]; cbn; [auto| |done]. intros g Q Q' HQ [Hp Hk]. split; [done|]. intros r Hr. by apply (IH r _ Q); [|apply Hk]. Qed.

Lemma wp_after {A B} (p : prog A) (k : A -> prog B) : forall g Q, wp g p (fun g a => wp g (k a) Q) -> wp g (after p k) Q.
Proof. induction p as [a|o c IH|]; cbn; [auto| |done]. intros g Q [Hp Hk]. split; [done|]. intros r Hr. by apply IH, Hk. Qed.

(** Programs that leave the ghost state as it is. *)
Definition calm {A} (g : ghost) (p : prog A) : Prop := wp g p (fun g' _ => g' = g).

Lemma calm_done {A} g (a : A) : calm g (Done a).
Proof. done. Qed.
Lemma calm_after {A B} g (p : prog A) (k : A -> prog B) : calm g p -> (forall a, calm g (k a)) -> calm g (after p k).
Proof. intros Hp Hk. apply wp_after. eapply wp_mono; [|exact Hp]. intros ? a ->. apply Hk. Qed.
Lemma calm_bind {A B} g (p : P A) (f : A -> P B) : calm g p -> (forall a, calm g (f a)) -> calm g (p ≫= f).
Proof. intros Hp Hf. apply calm_after; [done|]. intros [a| |]; [apply Hf|done..]. Qed.
Lemma calm_lift {A B} g (r : gores A) (f : A -> P B) : (forall a, r = Ret a -> calm g (f a)) -> calm g (liftP r ≫= f).
Proof. intros Hf. destruct r as [a| |]; [by apply Hf|done..]. Qed.
Lemma calm_wrap {A} g fmt (p : P A) : calm g p -> calm g (wrapP fmt p).
Proof. intros Hp. by apply calm_after. Qed.
Lemma calm_get g key : calm g (sGet key).
Proof. done. Qed.
Lemma calm_scan g p : calm g (sScan p).
Proof. done. Qed.
Lemma calm_put g key value : calm g (sPut key value).
Proof. done. Qed.
Lemma calm_tell {A} g n (p : P A) : calm g p -> calm g (tell n p).
Proof. done. Qed.
Lemma calm_report {A B} g (r : gores A) (p : P B) : calm g p -> calm g (report r p).
Proof. by destruct r. Qed.
Lemma calm_reportAll {B} g errs (p : P B) : calm g p -> calm g (reportAll errs p).
Proof. intros Hp. induction errs as [|e errs IH]; [done|]. by apply calm_tell. Qed.
Lemma calm_delete g key : permitted g (ODelete key) -> calm g (sDelete key).
Proof. done. Qed.
End Processes.

(** * Claim keys *)

Lemma afterLastSlash_none b : slash ∉ b -> afterLastSlash b = None.
Proof.
  induction b as [|x b IH]; intros Hb; [done|]. apply not_elem_of_cons in Hb as [Hx Hb]. cbn. rewrite IH by done.
  destruct (byte_eqb x slash) eqn:E; [by apply byte_eqb_true in E|done].
Qed.

Lemma afterLastSlash_app a b : slash ∉ b -> afterLastSlash (a ++ slash :: b) = Some b.
Proof.
  intros Hb. induction a as [|x a IH]; cbn [app afterLastSlash].
  - rewrite afterLastSlash_none by done. by rewrite byte_eqb_refl.
  - by rewrite IH.
Qed.

Lemma fixed_without c w u : byte_to_Z c < 0x30 -> c ∉ fixed w u.
Proof. intros Hc Hin. pose proof (fixed_digits w u) as Hf. rewrite Forall_forall in Hf. specialize (Hf _ Hin). lia. Qed.

Lemma formatMinute_without at_ : fourDigits at_ -> slash ∉ formatMinute at_.
Proof.
  intros Hy. unfold formatMinute. rewrite appendInt_fixed by (unfold fourDigits in Hy; cbn; lia).
  rewrite !not_elem_of_app. split_and!; try (by apply fixed_without); by intros ?%list_elem_of_singleton.
Qed.

Lemma claimKey_time p id at_ : fourDigits at_ -> aligned at_ -> claimKeyTime (p ++ claimPart ++ id ++ [slash] ++ formatMinute at_) = Some at_.
Proof.
  intros Hy Ha. unfold claimKeyTime. replace (p ++ claimPart ++ id ++ [slash] ++ formatMinute at_) with ((p ++ claimPart ++ id) ++ slash :: formatMinute at_) by (by rewrite <- !app_assoc).
  rewrite afterLastSlash_app by (by apply formatMinute_without). cbn [mbind option_bind].
  pose proof (minute_roundtrip at_ Hy) as E. destruct (bytes_eqb (formatMinute at_) []) eqn:E0; [apply bytes_eqb_true in E0; by rewrite E0 in E|].
  rewrite E. f_equal. unfold aligned in Ha. pose proof (Z.div_mod at_ Minute ltac:(done)). lia.
Qed.

(** * The programs keep to it *)

(** The zones in the database keep one offset, of whole minutes. *)
Class SteadyZones `{CronEnv} : Prop := {
  zone_steady name loc : LoadLocation name = Ret loc -> exists o, steady loc o;
}.

Lemma location_steady `{SteadyZones} s loc : location s = Ret loc -> exists o, steady loc o.
Proof.
  unfold location. destruct (bytes_eqb _ []); [intros [= <-]; exists 0; apply UTC_steady|].
  destruct (LoadLocation _) as [l| |] eqn:E; cbn; [|done..]. intros [= <-]. by apply zone_steady in E.
Qed.

Lemma parsed_steady `{SteadyZones} s spec loc : parsed s = Ret (spec, loc) -> exists o, steady loc o.
Proof.
  unfold parsed. destruct (ParseSpec _) as [sp| |]; cbn; [|done..]. destruct (location s) as [l| |] eqn:E; cbn; [|done..].
  intros [= _ <-]. by apply location_steady in E.
Qed.

Lemma Next_later loc o spec t r : steady loc o -> Next loc spec t = Some (Some r) -> t < r /\ aligned r /\ Match spec (wall loc r) = true.
Proof.
  intros Hl E. destruct (Next_first loc o Hl spec t) as (r' & E' & Hf). rewrite E in E'. injection E' as <-. cbn in Hf.
  destruct (rollMinute_later (wall loc t)) as (_ & Hlt & _). destruct Hf as (Ha & Hr & Hm & _).
  split; [apply (wall_lt loc o Hl); lia|]. split; [by apply (wall_aligned loc o Hl)|done].
Qed.

Section Protocol.
Context `{SteadyZones} (pre : bytes) (window : Z).
Context (window_small : 0 < window < 2 ^ 62).

#[local] Abbreviation calm := (calm pre window).
#[local] Abbreviation wp := (wp pre window).
#[local] Abbreviation permitted := (permitted pre window).

(** Claims are kept for two windows. *)
Lemma retain_floor c : agreed pre window c -> 2 * window <= retain c.
Proof.
  intros (_ & Hw & _). unfold retain. rewrite Hw. assert (s64 (u64 (2 * window)) = 2 * window) as ->.
  { unfold s64, u64. destruct (Z.ltb_spec ((2 * window) mod 2 ^ 64) (2 ^ 63)); Z.div_mod_to_equations; lia. }
  destruct (Z.ltb_spec (if Retain c <=? 0 then DefaultRetain else Retain c) (2 * window)); lia.
Qed.

Lemma calm_delete_other g part id : head part <> head claimPart -> part <> [] -> calm g (sDelete (pre ++ part ++ id)).
Proof.
  intros Hp Hne. apply calm_delete. intros [rest E]. apply app_inv_head in E. exfalso. apply Hp.
  destruct part as [|x part]; [done|]. unfold claimPart in *. cbn in *. congruence.
Qed.

(** Firing: the claim is for a minute of the window, the submission is of the claim won. *)
Lemma calm_fire c s at_ now :
  agreed pre window c -> now - window < at_ -> aligned at_ -> fourDigits at_ -> calm (mkGhost (Some now) None) (fireOne c s at_).
Proof.
  intros (Hpre & _ & Hretry) Hat Ha Hy. unfold fireOne. apply calm_bind; [done|]. intros encoded.
  unfold claimKey. rewrite Hpre. set (key := pre ++ claimPart ++ ScheduleID s ++ [slash] ++ formatMinute at_).
  split.
  { split; [done|]. split; [by eexists|]. exists now. split; [done|]. intros f Hf. unfold key in Hf. rewrite claimKey_time in Hf by done. by injection Hf as <-. }
  intros r _. destruct r as [[|]| |]; [|done..]. split; [done|]. intros r _. destruct r as [instanceID| |]; cbn [negb]; [|by rewrite Hretry..].
  cbn [advance reading]. change (calm (mkGhost (Some now) None)
    match json_fire (mkFire (ScheduleID s) (ScheduleCommand s) at_ instanceID) with
    | Ret encoded => after (sPut key encoded) (fun w => report w (tell (OnFire s at_ instanceID) (mret tt)))
    | Fail _ => tell (OnFire s at_ instanceID) (mret tt)
    | Panic => liftP Panic
    end). destruct (json_fire _); [|done..]. apply calm_after; [done|]. intros. by apply calm_report.
Qed.

Lemma calm_fireLoop c s spec loc now left :
  (exists o, steady loc o) -> agreed pre window c -> fourDigits (now - window) -> fourDigits now -> forall cursor advanceTo, now - window <= cursor ->
  calm (mkGhost (Some now) None) (fireLoop left c s spec loc now cursor advanceTo).
Proof.
  intros [o Hl] Hc Hy Hy'. induction left as [|left IH]; intros cursor advanceTo Hcur; cbn [fireLoop]; [done|].
  destruct (Next loc spec cursor) as [[fire|]|] eqn:E; [|done..]. destruct (Z.ltb_spec now fire); [done|].
  destruct (Next_later loc o spec cursor fire Hl E) as (Hlt & Ha & _). apply calm_after.
  - apply calm_fire; [done|lia|done|]. apply (fourDigits_between (now - window) now); [done|done|lia].
  - intros [[]| |]; [apply IH; lia| |done]. apply calm_after; [done|]. intros w. by apply calm_report.
Qed.

Lemma calm_runSchedule c s now :
  agreed pre window c -> fourDigits (now - window) -> fourDigits now -> calm (mkGhost (Some now) None) (runSchedule c s now).
Proof.
  intros Hc Hy Hy'. unfold runSchedule. apply calm_lift. intros [spec loc] Ep%parsed_steady.
  apply calm_bind.
  { apply calm_bind; [done|]. intros [value|]; [|done]. by destruct (parseRFC3339 value). }
  intros [from|]; [|done]. destruct Hc as (Hpre & Hw & Hr). rewrite Hw.
  destruct (Z.ltb_spec from (now - window)); [apply calm_tell|]; (apply calm_bind; [apply calm_fireLoop; [done|done|done|done|lia]|done]).
Qed.

Lemma calm_runAll c schedules now :
  agreed pre window c -> fourDigits (now - window) -> fourDigits now -> calm (mkGhost (Some now) None) (runAll c schedules now).
Proof.
  intros Hc Hy Hy'. induction schedules as [|s l IH]; cbn [runAll]; [done|]. destruct (Disabled s); [done|].
  apply calm_after; [by apply calm_runSchedule|]. intros r. by apply calm_report.
Qed.

(** Pruning: only claims older than two windows. *)
Lemma calm_prunePairs pairs cutoff now g :
  cutoff <= now - 2 * window -> reading g = Some now -> calm g (prunePairs pairs cutoff).
Proof.
  intros Hc Hg. induction pairs as [|[key v] pairs IH]; cbn [prunePairs]; [done|].
  destruct (claimKeyTime key) as [fire|] eqn:E; [|done]. destruct (Z.ltb_spec fire cutoff); [|done].
  apply calm_after; [|intros; by apply calm_report]. apply calm_delete. intros _. exists now, fire. split_and!; [done|done|lia].
Qed.

Definition restful {A} (p : prog A) : Prop := wp fresh p (fun g _ => token g = None).

Lemma calm_restful {A} (p : prog A) : calm fresh p -> restful p.
Proof. apply wp_mono. by intros ? _ ->. Qed.

Lemma Tick_restful c last : agreed pre window c -> restful (Tick c last).
Proof.
  intros Hc. unfold Tick. apply wp_after. eapply wp_mono; [|apply calm_wrap, calm_bind; [done|done]].
  intros g [[schedules skipped]| |] ->; [|done..]. induction skipped as [|err skipped IH]; [|by split].
  cbn [reportAll]. split; [done|]. intros now [Hy Hy']. cbn [advance].
  apply wp_after. eapply wp_mono; [|by apply calm_runAll]. intros g [[]| |] ->; [|done..].
  eapply wp_mono with (Q := fun g _ => g = mkGhost (Some now) None); [by intros ? ? ->|].
  destruct (_ || _); [|done]. apply calm_after; [|intros; by apply calm_report].
  apply calm_bind; [apply calm_wrap; done|]. intros pairs. apply calm_prunePairs with now; [|done]. pose proof (retain_floor c Hc). lia.
Qed.

Lemma program_restful c last t : agreed pre window c -> restful (program c last t).
Proof.
  intros Hc. destruct t as [|s|id|id enabled|id limit]; cbn [program]; [by apply Tick_restful|..]; apply calm_restful, calm_bind; try done.
  - apply calm_bind; [done|]. intros _. by apply calm_bind.
  - unfold Catalog_Delete, scheduleKey, watermarkKey. destruct Hc as (-> & _ & _). apply calm_bind; [|intros _]; by apply calm_delete_other.
  - unfold Catalog_SetEnabled. apply calm_bind; [apply calm_bind; [done|by intros [value|]]|]. intros s.
    apply calm_bind; [done|]. intros _. by apply calm_bind.
  - apply calm_bind; [by apply calm_wrap|done].
Qed.
End Protocol.

(** * The invariant *)

Section Once.
Context `{SteadyZones} (pre : bytes) (window behind ahead : Z).
Context (window_small : 0 < window < 2 ^ 62) (slack : behind + ahead <= window).

#[local] Abbreviation step := (step pre window behind ahead).
#[local] Abbreviation performs := (performs window behind ahead).

Definition fireKey (e : Schedule * Z) : bytes := pre ++ claimPart ++ ScheduleID e.1 ++ [slash] ++ formatMinute e.2.

(** The claims used, and the claims won and not used yet. *)
Definition tokens (pool : list process) : list bytes := omap (fun th => token (progress th)) pool.
Definition held (w : world) (pool : list process) : list bytes := map fireKey (submissions w) ++ tokens pool.

(** Such a claim is on record, or too old for anyone to make it again. *)
Definition accounted (w : world) (key : bytes) : Prop :=
  isClaimKey pre key /\ (is_Some (kv w !! key) \/ exists fire, claimKeyTime key = Some fire /\ fire < clock w + ahead - 2 * window).

Definition processOk (th : process) : Prop :=
  agreed pre window (config th) /\
  match running th with
  | None => token (progress th) = None
  | Some p => wp pre window (progress th) p (fun g _ => token g = None)
  end.

Record invariant (w : world) (pool : list process) : Prop := {
  inv_once : NoDup (held w pool);
  inv_accounted : Forall (accounted w) (held w pool);
  inv_processes : Forall processOk pool;
}.

(** What an operation can have done. *)
Definition effect (w : world) (o : op) (w' : world) : reply o -> Prop :=
  match o as o return reply o -> Prop with
  | OClaim key v => fun r => submissions w' = submissions w /\ (forall k, is_Some (kv w !! k) -> is_Some (kv w' !! k)) /\
                             (r = Ret true -> kv w !! key = None /\ is_Some (kv w' !! key))
  | ODelete key => fun _ => submissions w' = submissions w /\ forall k, k <> key -> kv w' !! k = kv w !! k
  | OSubmit s fire => fun _ => kv w' = kv w /\ (submissions w' = submissions w \/ submissions w' = submissions w ++ [(s, fire)])
  | _ => fun _ => submissions w' = submissions w /\ forall k, is_Some (kv w !! k) -> is_Some (kv w' !! k)
  end.

Lemma performs_effect w o r w' : performs w o r w' -> sane window o r /\ clock w' = clock w /\ effect w o w' r.
Proof.
  assert (forall t k v, is_Some ((t : table) !! k) -> is_Some (<[v.1 := v.2]> t !! k)) as Hins.
  { intros t k [a b] Hk. cbn. destruct (decide (a = k)) as [->|]; [by rewrite lookup_insert_eq|by rewrite lookup_insert_ne]. }
  destruct 1 as [o f t r Ef Et|o err r Er|o f t r err r' Ef Et Er|s fire r|now Hn Hy Hy'|n]; cbn; auto.
  all: destruct o; cbn in *; simplify_eq; cbn in *; unfold memory_Get, memory_Scan, memory_Put, memory_Delete, memory_Claim in *; simplify_eq;
    split_and!; auto; try (intros; by apply (Hins _ _ (_, _))); try (intros; by rewrite lookup_delete_ne); try done.
  all: destruct (kv w !! key) eqn:E; simplify_eq; auto; try discriminate; try (intros; by apply (Hins _ _ (_, _))); try (split; [done|]; by rewrite lookup_insert_eq).
Qed.

Lemma accounted_later w w' key :
  clock w <= clock w' -> (is_Some (kv w !! key) -> is_Some (kv w' !! key)) -> accounted w key -> accounted w' key.
Proof. intros Hc Hk [Hi [Hs|(f & Hf & Hlt)]]; (split; [done|]); [left; auto|right]. exists f. split; [done|lia]. Qed.

Lemma tokens_middle l th l' : tokens (l ++ th :: l') ≡ₚ option_list (token (progress th)) ++ tokens l ++ tokens l'.
Proof. unfold tokens. rewrite omap_app. cbn [omap list_omap]. destruct (token (progress th)); cbn; solve_Permutation. Qed.

Lemma held_middle w l th l' : held w (l ++ th :: l') ≡ₚ option_list (token (progress th)) ++ held w (l ++ l').
Proof. unfold held. rewrite tokens_middle. unfold tokens. rewrite omap_app. solve_Permutation. Qed.

Lemma inv_held w pool l : NoDup l -> Forall (accounted w) l -> l ≡ₚ held w pool -> Forall processOk pool -> invariant w pool.
Proof. intros Hn Ha Hp Hok. split; [by rewrite <- Hp|by rewrite <- Hp|done]. Qed.

(** A process replaced by one that is in order too and holds what it held. *)
Lemma inv_replace w w' l th th' l' :
  invariant w (l ++ th :: l') -> submissions w' = submissions w -> clock w <= clock w' ->
  (forall k, accounted w k -> accounted w' k) -> token (progress th') = token (progress th) -> processOk th' -> invariant w' (l ++ th' :: l').
Proof.
  intros [Hn Ha Hok] Hs Hc Hacc Ht Hth.
  assert (held w' (l ++ th' :: l') ≡ₚ held w (l ++ th :: l')) as Hp by (rewrite !held_middle, Ht; unfold held; by rewrite Hs).
  split; [by rewrite Hp|rewrite Hp; by eapply Forall_impl|]. apply Forall_app in Hok as [H1 [_ H2]%Forall_cons]. apply Forall_app. split; [done|]. by constructor.
Qed.

(** A process that goes on from one of its operations. *)
Lemma continue_ok th o k r :
  processOk th -> running th = Some (Do o k) -> sane window o r -> processOk (continue (k r) (advance (progress th) o r) th).
Proof. intros [Hc Hw] Er Hr. rewrite Er in Hw. destruct Hw as [_ Hk]. split; [done|]. by apply Hk. Qed.

Lemma middle_ok w l th l' : invariant w (l ++ th :: l') -> processOk th.
Proof. intros Hinv. apply (proj1 (Forall_forall _ _) (inv_processes _ _ Hinv)). apply elem_of_app. right. left. Qed.

(** Nobody claims again what is held: it is on record, or out of the window. *)
Lemma claim_free w g key : accounted w key -> timely behind ahead w g -> kv w !! key = None ->
  (exists now, reading g = Some now /\ forall fire, claimKeyTime key = Some fire -> now - window < fire) -> False.
Proof.
  intros [_ [[x Hx]|(f & Hf & Hlt)]] Ht Habs (now & Hnow & Hwin); [congruence|]. unfold timely in Ht. rewrite Hnow in Ht. specialize (Hwin f Hf). lia.
Qed.

Lemma inv_claim w w' l th l' key v k r :
  invariant w (l ++ th :: l') -> running th = Some (Do (OClaim key v) k) -> timely behind ahead w (progress th) -> performs w (OClaim key v) r w' ->
  invariant w' (l ++ continue (k r) (advance (progress th) (OClaim key v) r) th :: l').
Proof.
  intros Hinv Er Ht (Hsane & Hclock & Hs & Hkv & Hwon)%performs_effect.
  pose proof (middle_ok _ _ _ _ Hinv) as Hth. pose proof (continue_ok _ _ _ _ Hth Er Hsane) as Hth'.
  destruct Hth as [_ Hw]. rewrite Er in Hw. destruct Hw as [(Htok & Hck & Hwin) _].
  assert (forall x, accounted w x -> accounted w' x) as Hacc by (intros x; apply accounted_later; [lia|apply Hkv]).
  assert (r = Ret true \/ r <> Ret true) as [->|Hne] by (destruct r as [[|]| |]; (by left) || by right).
  2: { eapply inv_replace; [done|done|lia|done| |done]. cbn. by destruct r as [[|]| |]. }
  destruct (Hwon eq_refl) as [Habs Hpres]. destruct Hinv as [Hn Ha Hok].
  rewrite held_middle, Htok in Hn. rewrite held_middle, Htok in Ha. cbn [option_list app] in Hn, Ha.
  apply Forall_app in Hok as [H1 [_ H2]%Forall_cons].
  apply (inv_held _ _ (key :: held w (l ++ l'))).
  - constructor; [|done]. intros Hin. rewrite Forall_forall in Ha. by eapply (claim_free w (progress th) key); [apply Ha|..].
  - constructor; [by split; [|left]|by eapply Forall_impl].
  - rewrite held_middle. cbn. unfold held. by rewrite Hs.
  - apply Forall_app. split; [done|]. by constructor.
Qed.

Lemma inv_submit w w' l th l' s fire k r :
  invariant w (l ++ th :: l') -> running th = Some (Do (OSubmit s fire) k) -> performs w (OSubmit s fire) r w' ->
  invariant w' (l ++ continue (k r) (advance (progress th) (OSubmit s fire) r) th :: l').
Proof.
  intros Hinv Er (Hsane & Hclock & Hkv & Hs)%performs_effect.
  pose proof (middle_ok _ _ _ _ Hinv) as Hth. pose proof (continue_ok _ _ _ _ Hth Er Hsane) as Hth'.
  destruct Hth as [_ Hw]. rewrite Er in Hw. destruct Hw as [Htok _]. cbn in Htok.
  assert (forall x, accounted w x -> accounted w' x) as Hacc by (intros x; apply accounted_later; [lia|by rewrite Hkv]).
  destruct Hinv as [Hn Ha Hok]. rewrite held_middle, Htok in Hn. rewrite held_middle, Htok in Ha. cbn [option_list app] in Hn, Ha.
  apply Forall_app in Hok as [H1 [_ H2]%Forall_cons]. apply Forall_cons in Ha as [Ha1 Ha2].
  destruct Hs as [Hs|Hs].
  - apply (inv_held _ _ (held w (l ++ l'))); [by apply NoDup_cons in Hn as [_ ?]|by eapply Forall_impl| |].
    + rewrite held_middle. cbn. unfold held. by rewrite Hs.
    + apply Forall_app. split; [done|]. by constructor.
  - apply (inv_held _ _ (fireKey (s, fire) :: held w (l ++ l'))); [done|constructor; [by apply Hacc|by eapply Forall_impl]| |].
    + rewrite held_middle. cbn. unfold held. rewrite Hs, map_app. cbn. solve_Permutation.
    + apply Forall_app. split; [done|]. by constructor.
Qed.

(** Pruning removes what nobody can claim any more. *)
Lemma accounted_deleted w w' g key x :
  clock w' = clock w -> timely behind ahead w g -> permitted pre window g (ODelete key) -> (forall k, k <> key -> kv w' !! k = kv w !! k) ->
  accounted w x -> accounted w' x.
Proof.
  intros Hclock Ht Hp Hkv Hx. destruct (decide (x = key)) as [->|Hne]; [|apply (accounted_later w); [lia|by rewrite Hkv|done]].
  split; [apply Hx|]. right. destruct (Hp (proj1 Hx)) as (now & fire & Hnow & Hf & Hlt). exists fire. split; [done|].
  unfold timely in Ht. rewrite Hnow in Ht. lia.
Qed.

Lemma inv_op w w' l th l' o k r :
  invariant w (l ++ th :: l') -> running th = Some (Do o k) -> timely behind ahead w (progress th) -> performs w o r w' ->
  invariant w' (l ++ continue (k r) (advance (progress th) o r) th :: l').
Proof.
  intros Hinv Er Ht Hperf. pose proof (performs_effect _ _ _ _ Hperf) as (Hsane & Hclock & Heff).
  pose proof (middle_ok _ _ _ _ Hinv) as Hth. pose proof (continue_ok _ _ _ _ Hth Er Hsane) as Hth'.
  assert (permitted pre window (progress th) o) as Hp by (destruct Hth as [_ Hw]; rewrite Er in Hw; apply Hw).
  destruct o; try (by apply (inv_claim w)); try (by apply (inv_submit w)).
  4: { destruct Heff as [Hs Hkv]. eapply inv_replace; [done|done|lia| |done|done]. intros x. by eapply accounted_deleted. }
  all: destruct Heff as [Hs Hkv]; eapply inv_replace; [done|done|lia| |done|done]; intros x; apply accounted_later; [lia|apply Hkv].
Qed.

Lemma invariant_step w pool w' pool' : step (w, pool) (w', pool') -> invariant w pool -> invariant w' pool'.
Proof.
  intros Hstep Hinv.
  inversion Hstep as [? ? t Hc|? l th l' t Er|? ? l th l' o k r Er Ht Hp|? l th l' r Er|? ? c Hc|? l th l']; subst.
  - destruct Hinv as [Hn Ha Hok]. split; [done| |done]. eapply Forall_impl; [exact Ha|]. intros x. by apply accounted_later.
  - pose proof (middle_ok _ _ _ _ Hinv) as [Hc Htok]. rewrite Er in Htok. eapply inv_replace; [done|done|lia|done|by rewrite Htok|].
    split; [done|]. by apply program_restful.
  - by eapply inv_op.
  - pose proof (middle_ok _ _ _ _ Hinv) as [Hc Htok]. rewrite Er in Htok. cbn in Htok. eapply inv_replace; [done|done|lia|done|by rewrite Htok|]. by split.
  - destruct Hinv as [Hn Ha Hok]. assert (held w' (pool ++ [start c]) = held w' pool) as E.
    { unfold held, tokens. rewrite omap_app. cbn. by rewrite app_nil_r. }
    split; [by rewrite E|by rewrite E|]. apply Forall_app. split; [done|]. by constructor; [|constructor].
  - destruct Hinv as [Hn Ha Hok]. rewrite held_middle in Hn. rewrite held_middle in Ha.
    apply NoDup_app in Hn as (_ & _ & Hn). apply Forall_app in Ha as [_ Ha]. split; [done|done|].
    apply Forall_app in Hok as [H1 [_ H2]%Forall_cons]. by apply Forall_app.
Qed.

Lemma invariant_run x y : rtc step x y -> invariant x.1 x.2 -> invariant y.1 y.2.
Proof. induction 1 as [|[w pool] [w' pool'] z Hs _ IH]; [done|]. intros Hinv. by apply IH, (invariant_step w pool). Qed.
End Once.

(** C28 At most one submission per fire: let any number of schedulers, with the same key
    prefix and catch-up window and without retries, tick over one store while
    operators edit, remove and re-create schedules; let them join and crash at
    any moment, their operations interleave, fail, or take effect although they
    report an error, and prune old claims.  If no pass works with a reading of
    the clock that is off by more than the window allows, or outside the years 0 to 9999, and
    every zone the
    schedulers can load keeps one offset of whole minutes, as UTC does, then no
    minute of a schedule is ever submitted twice.  (In a zone that turns its
    clocks back, [Next] may return a minute before the window, whose claim has
    been pruned: see [repeated_hour_goes_back].) *)
Theorem fires_at_most_once `{SteadyZones} (pre : bytes) (window behind ahead : Z) (w0 w : world) (pool0 pool : list process) :
  0 < window < 2 ^ 62 -> behind + ahead <= window ->
  submissions w0 = [] -> (forall th, th ∈ pool0 -> exists c, agreed pre window c /\ th = start c) ->
  rtc (step pre window behind ahead) (w0, pool0) (w, pool) ->
  NoDup (map (fun e => (ScheduleID e.1, e.2)) (submissions w)).
Proof.
  intros Hw Hs Hsub Hpool Hrun. destruct (invariant_run pre window behind ahead Hw Hs _ _ Hrun) as [Hn _ _].
  - assert (held pre w0 pool0 = []) as E.
    { unfold held, tokens. rewrite Hsub. cbn. clear Hrun. induction pool0 as [|th pool0 IH]; [done|].
      destruct (Hpool th ltac:(left)) as (c & _ & ->). cbn. apply IH. intros th Hth. apply Hpool. by right. }
    split; cbn [fst snd]; [rewrite E; constructor|rewrite E; constructor|]. apply Forall_forall. intros th (c & Hc & ->)%Hpool. by split.
  - cbn [fst snd] in Hn. unfold held in Hn. apply NoDup_app in Hn as [Hn _].
    apply (NoDup_fmap_1 (fun e => pre ++ claimPart ++ e.1 ++ [slash] ++ formatMinute e.2)). rewrite <- list_fmap_compose. exact Hn.
Qed.
