(* ===== verification/SchedulerRun.v ===== *)
(** One pass of one scheduler, undisturbed: it submits exactly the fires that are due
    and not yet claimed.  At the end, zones that turn their clocks: where the search of
    src/examples/croncmd/spec.go goes back, and where it does not end. *)

From S2P Require Import Prelude Store SystemKeys Payloads LogRecord Txn Calendar Cron CronProps Scheduler SchedulerProps.
#[local] Open Scope Z_scope.

#[local] Opaque Next AddDate rollMinute parseRFC3339 formatRFC3339 formatMinute ParseSpec.

Lemma catchUp_pos c : 0 < catchUp c.
Proof. unfold catchUp. destruct (Z.leb_spec (CatchUp c) 0); [done|lia]. Qed.

(** * Running a program *)

(** Claims can be encoded. *)
Class FireCodec `{CronEnv} : Prop := {
  json_fire_ok f : fourDigits (At f) -> exists b, json_fire f = Ret b;
}.

Section Run.
Context (instance : Schedule -> Z -> bytes).

Definition onStore {A} (f : table -> table * A) (w : world) : world * A := let '(t, r) := f (kv w) in (set_kv t w, r).

(** The in-process store, a clock that stands still during a pass, and a submitter that
    accepts. *)
Definition serve (o : op) : world -> world * reply o :=
  match o as o return world -> world * reply o with
  | OGet key => onStore (memory_Get None key)
  | OScan p => onStore (memory_Scan None p)
  | OPut key value => onStore (memory_Put None key value)
  | ODelete key => onStore (memory_Delete None key)
  | OClaim key value => onStore (memory_Claim None key value)
  | OSubmit s fire => fun w => (submit s fire w, Ret (instance s fire))
  | ONow => fun w => (w, clock w)
  | ONote _ => fun w => (w, tt)
  end.

(** [None] for a program that does not return. *)
Fixpoint run {A} (p : prog A) (w : world) : option (world * A) :=
  match p with
  | Done a => Some (w, a)
  | Do o k => let '(w', r) := serve o w in run (k r) w'
  | Spin => None
  end.

Lemma run_after {A B} (p : prog A) (k : A -> prog B) w w' a : run p w = Some (w', a) -> run (after p k) w = run (k a) w'.
Proof.
  revert w. induction p as [b|o c IH|]; intros w; cbn; [by intros [= -> ->]| |done]. destruct (serve o w) as [w1 r]. apply IH.
Qed.

Lemma run_bind {A B} (p : P A) (f : A -> P B) w w' a : run p w = Some (w', Ret a) -> run (p ≫= f) w = run (f a) w'.
Proof. intros E. unfold mbind, P_bind. by rewrite (run_after _ _ _ _ _ E). Qed.

(** * One schedule *)

Section Pass.
Context `{HE : CronEnv} {HZ : SteadyZones} {HF : FireCodec} (c : Scheduler) (now : Z).
Context (year_from : fourDigits (now - catchUp c)) (year_to : fourDigits now) (window_pos : 0 < catchUp c).

Abbreviation pre := (prefix (KeyPrefix c)).
Abbreviation keyOf s := (claimKey (KeyPrefix c) (ScheduleID s)).

(** What a pass over [s] has done: submitted the fires [ms], each of which had not been
    claimed; claims are only added, one for each of them; nothing else has
    changed but the schedule's watermark. *)
Record passed (s : Schedule) (due : Z -> Prop) (w w' : world) (ms : list Z) : Prop := {
  ps_clock : clock w' = clock w;
  ps_submitted : submissions w' = submissions w ++ map (pair s) ms;
  ps_due m : m ∈ ms -> due m /\ kv w !! keyOf s m = None;
  ps_kept k : is_Some (kv w !! k) -> is_Some (kv w' !! k);
  ps_claimed k : isClaimKey pre k -> kv w !! k = None -> (is_Some (kv w' !! k) <-> exists m, m ∈ ms /\ k = keyOf s m);
  ps_rest k : ~ isClaimKey pre k -> k <> watermarkKey (KeyPrefix c) (ScheduleID s) -> kv w' !! k = kv w !! k;
}.

Lemma passed_refl s due w : passed s due w w [].
Proof. split; try done; [by rewrite app_nil_r|by intros ? ?%elem_of_nil|]. intros k _ ->. split; [by intros []|by intros (? & ?%elem_of_nil & _)]. Qed.

Lemma passed_trans s (due due' : Z -> Prop) w w1 w2 ms ms' :
  passed s due w w1 ms -> passed s due' w1 w2 ms' -> passed s (fun m => due m \/ due' m) w w2 (ms ++ ms').
Proof.
  intros [H1 H2 H3 H4 H5 H6] [G1 G2 G3 G4 G5 G6]. split.
  - by rewrite G1.
  - by rewrite G2, H2, map_app, app_assoc.
  - intros m [Hm|Hm]%elem_of_app; [destruct (H3 m Hm); auto|]. destruct (G3 m Hm) as [Hd Hn]. split; [auto|].
    destruct (kv w !! keyOf s m) eqn:E; [|done]. destruct (H4 (keyOf s m)) as [x Hx]; [by rewrite E|]. congruence.
  - auto.
  - intros k Hk Hn. destruct (kv w1 !! k) as [x|] eqn:E.
    + split; [|intros _; apply G4; by rewrite E]. intros _. destruct (H5 k Hk Hn) as [(m & Hm & ->) _]; [by rewrite E|]. exists m. split; [|done]. apply elem_of_app. by left.
    + rewrite (G5 k Hk E). split; intros (m & Hm & ->); exists m; (split; [|done]); [apply elem_of_app; by right|].
      apply elem_of_app in Hm as [Hm|Hm]; [|done]. destruct (H5 _ Hk Hn) as [_ Hp]. destruct Hp as [x Hx]; [by exists m|]. congruence.
  - intros k Hk Hne. by rewrite G6, H6.
Qed.

Lemma passed_weaken s (due due' : Z -> Prop) w w' ms : (forall m, due m -> due' m) -> passed s due w w' ms -> passed s due' w w' ms.
Proof. intros Hd [H1 H2 H3 H4 H5 H6]. split; auto. intros m Hm. destruct (H3 m Hm). auto. Qed.

Lemma claimKey_is_claim s m : isClaimKey pre (keyOf s m).
Proof. by eexists. Qed.

Lemma watermark_not_claim id : ~ isClaimKey pre (watermarkKey (KeyPrefix c) id).
Proof. intros [rest E]. unfold watermarkKey in E. by apply app_inv_head in E. Qed.

Lemma is_Some_insert (t : table) k k' v : is_Some (t !! k) -> is_Some (<[k' := v]> t !! k).
Proof. intros Hk. destruct (decide (k' = k)) as [->|]; [by rewrite lookup_insert_eq|by rewrite lookup_insert_ne]. Qed.

Lemma run_fire s m w :
  fourDigits m -> exists w', run (fireOne c s m) w = Some (w', Ret tt) /\ is_Some (kv w' !! keyOf s m) /\
    passed s (eq m) w w' match kv w !! keyOf s m with Some _ => [] | None => [m] end.
Proof.
  intros Hy. unfold fireOne. destruct (json_fire_ok (mkFire (ScheduleID s) (ScheduleCommand s) m []) Hy) as [b ->].
  destruct (json_fire_ok (mkFire (ScheduleID s) (ScheduleCommand s) m (instance s m)) Hy) as [b' E'].
  cbn. unfold onStore, memory_Claim. destruct (kv w !! keyOf s m) as [x|] eqn:E.
  - cbn. eexists. split; [done|]. unfold set_kv. cbn. split; [by rewrite E|]. destruct w. apply passed_refl.
  - cbn. rewrite E'. cbn. eexists. split; [done|]. cbn. split; [by rewrite lookup_insert_eq|]. rewrite insert_insert_eq. split; cbn.
    + done.
    + done.
    + by intros m' ->%list_elem_of_singleton.
    + intros k Hk. by apply is_Some_insert.
    + intros k Hk Hn. destruct (decide (k = keyOf s m)) as [->|Hne].
      * rewrite lookup_insert_eq. split; [|done]. intros _. exists m. split; [left|done].
      * rewrite lookup_insert_ne by done. rewrite Hn. split; [by intros []|]. by intros (m' & ->%list_elem_of_singleton & ->).
    + intros k Hk _. rewrite lookup_insert_ne; [done|]. intros <-. apply Hk, claimKey_is_claim.
Qed.

Lemma run_mark s at_ w :
  exists w', run (putWatermark c (ScheduleID s) at_) w = Some (w', Ret tt) /\ passed s (fun _ => False) w w' [].
Proof.
  eexists. split; [done|]. cbn. split; cbn; try done; [by rewrite app_nil_r|by intros ? ?%elem_of_nil|intros; by apply is_Some_insert| |].
  - intros k Hk Hn. rewrite lookup_insert_ne, Hn; [|intros <-; by apply watermark_not_claim in Hk]. split; [by intros []|by intros (? & ?%elem_of_nil & _)].
  - intros k _ Hne. by rewrite lookup_insert_ne.
Qed.

(** The fires between [from] and now: the minutes that match, as the clocks of the zone read. *)
Definition dueIn (loc : Location) (spec : Spec) (from m : Z) : Prop := aligned m /\ from < m <= now /\ Match spec (wall loc m) = true.

Lemma div_lt_aligned a b : a < b -> aligned b -> a / Minute < b / Minute.
Proof. intros Hab Hb. unfold aligned in Hb. apply Z.div_lt_upper_bound; [done|]. pose proof (Z.div_mod b Minute ltac:(done)). lia. Qed.

(** Nothing that is due is passed over. *)
Lemma Next_misses_none loc o spec cursor m : steady loc o -> dueIn loc spec cursor m -> now - cursor <= 1000 * Minute ->
  exists fire, Next loc spec cursor = Some (Some fire) /\ cursor < fire <= m.
Proof.
  intros Hl (Ha & Hm & Hmatch) Hnear. destruct (Next_first loc o Hl spec cursor) as (r & E & Hf).
  destruct (rollMinute_later (wall loc cursor)) as (_ & Hroll1 & Hroll). apply (wall_aligned loc o Hl) in Ha.
  pose proof (proj2 (wall_lt loc o Hl cursor m) ltac:(lia)) as Hlt. specialize (Hroll (wall loc m) Ha Hlt).
  destruct r as [fire|]; cbn in Hf.
  - destruct Hf as (_ & Hr & _ & Hno). exists fire. split; [done|]. split; [apply (wall_lt loc o Hl); lia|]. destruct (Z.le_gt_cases fire m) as [|Hgt]; [done|].
    apply (wall_lt loc o Hl) in Hgt. rewrite Hno in Hmatch; [done|done|lia].
  - exfalso. rewrite Hf in Hmatch; [done|done|]. split; [done|]. change maxNextSearchYears with 5. pose proof (AddDate_years (rollMinute (wall loc cursor))).
    assert (1000 * Minute < 1825 * Day) by done. rewrite !(wall_steady loc o Hl) in *. lia.
Qed.

Lemma Next_returns loc o spec cursor : steady loc o -> exists r, Next loc spec cursor = Some r.
Proof. intros Hl. destruct (Next_first loc o Hl spec cursor) as (r & E & _). eauto. Qed.

Lemma run_fireLoop s spec loc o left : steady loc o -> forall cursor advanceTo w, now - catchUp c <= cursor ->
  exists w' adv ms, run (fireLoop left c s spec loc now cursor advanceTo) w = Some (w', Ret adv) /\ passed s (dueIn loc spec cursor) w w' ms /\
    (now - cursor <= 1000 * Minute -> now / Minute - cursor / Minute <= Z.of_nat left ->
     forall m, dueIn loc spec cursor m -> is_Some (kv w' !! keyOf s m)).
Proof.
  intros Hl. induction left as [|left IH]; intros cursor advanceTo w Hcur; cbn [fireLoop].
  { exists w, advanceTo, []. split; [done|]. split; [apply passed_refl|]. intros _ Hle m (Ha & Hm & _). exfalso.
    pose proof (div_lt_aligned cursor m ltac:(lia) Ha). pose proof (Z.div_le_mono m now Minute ltac:(done) ltac:(lia)). lia. }
  destruct (Next_returns loc o spec cursor Hl) as [[fire|] E]; rewrite E.
  2: { exists w, advanceTo, []. split; [done|]. split; [apply passed_refl|]. intros Hnear _ m Hm.
       destruct (Next_misses_none loc o spec cursor m Hl Hm Hnear) as (f & Ef & _). congruence. }
  destruct (Z.ltb_spec now fire) as [Hlt|Hle].
  { exists w, advanceTo, []. split; [done|]. split; [apply passed_refl|]. intros Hnear _ m Hm.
    destruct (Next_misses_none loc o spec cursor m Hl Hm Hnear) as (f & Ef & Hf). destruct Hm as (_ & Hm & _). simplify_eq. lia. }
  destruct (Next_later loc o spec cursor fire Hl E) as (Hr & Ha & Hmatch).
  destruct (run_fire s fire w) as (w1 & E1 & Hp1 & Hpass1); [apply (fourDigits_between (now - catchUp c) now); [done|done|lia]|].
  rewrite (run_after _ _ _ _ _ E1).
  destruct (IH fire (match left with O => fire | S _ => advanceTo end) w1 ltac:(lia)) as (w2 & adv & ms & E2 & Hpass2 & Hcov).
  rewrite E2. exists w2, adv, (match kv w !! keyOf s fire with Some _ => [] | None => [fire] end ++ ms). split; [done|]. split.
  - eapply passed_weaken; [|by eapply passed_trans]. intros m [<-|(Hma & Hmr & Hmm)]; split_and!; (done || lia).
  - intros Hnear Hcount m Hm. destruct (Z.lt_trichotomy m fire) as [Hlt|[->|Hgt]].
    + destruct (Next_misses_none loc o spec cursor m Hl Hm Hnear) as (f & Ef & Hf). simplify_eq. lia.
    + by apply (ps_kept _ _ _ _ _ Hpass2).
    + apply Hcov; [lia| |]; [pose proof (div_lt_aligned cursor fire ltac:(lia) Ha); lia|]. destruct Hm as (Hma & Hmr & Hmm). split_and!; [done|lia|lia|done].
Qed.

(** Where a pass over [s] starts: at its watermark, or the window's start if that is
    later; a schedule without a watermark has not been seen yet. *)
Definition startAt (w : world) (s : Schedule) : option Z :=
  v ← kv w !! watermarkKey (KeyPrefix c) (ScheduleID s);
  Some (Z.max (match parseRFC3339 v with None => now | Some mark => Z.min mark now end) (now - catchUp c)).

Definition dueAt (w : world) (s : Schedule) (loc : Location) (spec : Spec) (m : Z) : Prop :=
  match startAt w s with
  | None => False
  | Some from => dueIn loc spec from m
  end.

Lemma run_window s w : run (window c s now) w = Some (w, Ret (v ← kv w !! watermarkKey (KeyPrefix c) (ScheduleID s);
  Some (match parseRFC3339 v with None => now | Some mark => Z.min mark now end))).
Proof.
  unfold window. destruct w as [t cl su]. cbn. unfold onStore, memory_Get, set_kv. cbn. destruct (t !! _) as [v|]; cbn; [|done].
  destruct (parseRFC3339 v) as [mark|]; cbn; [|done]. do 4 f_equal. destruct (Z.ltb_spec now mark); lia.
Qed.

Lemma run_schedule s spec loc w :
  parsed s = Ret (spec, loc) ->
  exists w' ms, run (runSchedule c s now) w = Some (w', Ret tt) /\ passed s (dueAt w s loc spec) w w' ms /\
    (catchUp c < 1000 * Minute -> forall m, dueAt w s loc spec m -> is_Some (kv w' !! keyOf s m)).
Proof.
  intros Hp. destruct (parsed_steady s spec loc Hp) as [o Hl]. unfold runSchedule, liftP. rewrite Hp.
  erewrite run_bind by done. cbv beta iota. erewrite run_bind by apply run_window. unfold dueAt, startAt.
  destruct (kv w !! watermarkKey (KeyPrefix c) (ScheduleID s)) as [v|]; cbn [mbind option_bind].
  2: { destruct (run_mark s now w) as (w' & E' & Hp'). exists w', []. split; [done|]. split; [by eapply passed_weaken; [|exact Hp']|done]. }
  set (from := match parseRFC3339 v with None => now | Some mark => Z.min mark now end).
  assert (forall start, Z.max from (now - catchUp c) = start -> exists w' ms,
    run (advanceTo ← fireLoop maxFiresPerSchedulePerTick c s spec loc now start now; putWatermark c (ScheduleID s) advanceTo) w = Some (w', Ret tt) /\
    passed s (dueIn loc spec start) w w' ms /\ (catchUp c < 1000 * Minute -> forall m, dueIn loc spec start m -> is_Some (kv w' !! keyOf s m))) as Hgo.
  { intros start Hstart. destruct (run_fireLoop s spec loc o maxFiresPerSchedulePerTick Hl start now w ltac:(lia)) as (w1 & adv & ms & E1 & Hp1 & Hcov).
    erewrite run_bind by exact E1. destruct (run_mark s adv w1) as (w2 & -> & Hp2). exists w2, ms. split; [done|]. split.
    - eapply passed_weaken; [|rewrite <- (app_nil_r ms); by eapply passed_trans]. by intros m [?|[]].
    - intros Hw m Hm. apply (ps_kept _ _ _ _ _ Hp2). apply Hcov; [lia| |done]. change (Z.of_nat maxFiresPerSchedulePerTick) with 1000.
      pose proof (Z.div_mod now Minute ltac:(done)). pose proof (Z.div_mod start Minute ltac:(done)).
      pose proof (Z.mod_pos_bound now Minute ltac:(done)). pose proof (Z.mod_pos_bound start Minute ltac:(done)). assert (0 < Minute) by done. nia. }
  destruct (Z.ltb_spec from (now - catchUp c)); [cbn [tell run serve]|]; (destruct (Hgo _ eq_refl) as (w' & ms & E & Hpass & Hcov); exists w', ms;
    rewrite <- E; split; [do 4 f_equal; lia|by split]).
Qed.

(** * All of them *)

Lemma validate_parsed s : validate s = Ret tt -> (slash ∉ ScheduleID s) /\ exists spec loc, parsed s = Ret (spec, loc).
Proof.
  unfold validate, parsed. destruct (bytes_eqb _ []); [done|]. destruct (bool_decide (slash ∈ ScheduleID s)) eqn:Eb; [done|]. apply bool_decide_eq_false in Eb.
  destruct (bytes_eqb _ []); [done|]. destruct (ParseSpec _) as [spec| |]; cbn; [|done..]. destruct (location s) as [loc| |]; cbn; [|done..]. eauto.
Qed.

Lemma usable_valid pairs schedules skipped : usable pairs = Ret (schedules, skipped) -> Forall (fun s => validate s = Ret tt) schedules.
Proof.
  revert schedules skipped. induction pairs as [|[k v] pairs IH]; intros schedules skipped; cbn; [intros [= <- <-]; constructor|].
  destruct (usable pairs) as [[l e]| |]; cbn; [|done..]. specialize (IH l e eq_refl).
  destruct (wrap_err _ _) as [s| |]; cbn; [|by intros [= <- <-]|done]. destruct (validate s) as [[]| |] eqn:Ev; cbn; [| |done].
  - intros [= <- <-]. by constructor.
  - by intros [= <- <-].
Qed.

Lemma claimKey_inj s s' m m' :
  slash ∉ ScheduleID s -> slash ∉ ScheduleID s' -> fourDigits m -> fourDigits m' -> aligned m -> aligned m' ->
  keyOf s m = keyOf s' m' -> ScheduleID s = ScheduleID s' /\ m = m'.
Proof.
  intros _ _ Hy Hy' Ha Ha' E. pose proof (claimKey_time pre (ScheduleID s) m Hy Ha) as Ht. unfold claimKey in E. rewrite E, claimKey_time in Ht by done.
  injection Ht as ->. split; [|done]. apply app_inv_head, app_inv_head in E. rewrite !app_assoc in E. by apply app_inv_tail, app_inv_tail in E.
Qed.

(** A schedule's fires have its claim keys, in the years the keys can name. *)
Lemma dueAt_year w s loc spec m : dueAt w s loc spec m -> fourDigits m /\ aligned m.
Proof.
  unfold dueAt. unfold startAt. destruct (kv w !! _) as [v|]; cbn; [|done]. intros (Ha & Hm & _). split; [|done].
  apply (fourDigits_between (now - catchUp c) now); [done|done|lia].
Qed.

Lemma dueAt_same w w' s loc spec m :
  kv w' !! watermarkKey (KeyPrefix c) (ScheduleID s) = kv w !! watermarkKey (KeyPrefix c) (ScheduleID s) -> dueAt w' s loc spec m <-> dueAt w s loc spec m.
Proof. intros E. unfold dueAt, startAt. by rewrite E. Qed.

(** What the passes over all schedules have done. *)
Record swept (schedules : list Schedule) (w w' : world) (new : list (Schedule * Z)) : Prop := {
  sw_clock : clock w' = clock w;
  sw_submitted : submissions w' = submissions w ++ new;
  sw_due s m : (s, m) ∈ new -> s ∈ schedules /\ Disabled s = false /\ kv w !! keyOf s m = None /\ exists spec loc, parsed s = Ret (spec, loc) /\ dueAt w s loc spec m;
  sw_kept k : is_Some (kv w !! k) -> is_Some (kv w' !! k);
  sw_claimed k : isClaimKey pre k -> kv w !! k = None -> is_Some (kv w' !! k) -> exists s m, (s, m) ∈ new /\ k = keyOf s m;
  sw_covered s spec loc m : s ∈ schedules -> Disabled s = false -> parsed s = Ret (spec, loc) -> catchUp c < 1000 * Minute -> dueAt w s loc spec m ->
    is_Some (kv w' !! keyOf s m);
}.

Lemma watermark_ne s s' : ScheduleID s <> ScheduleID s' -> watermarkKey (KeyPrefix c) (ScheduleID s) <> watermarkKey (KeyPrefix c) (ScheduleID s').
Proof. intros Hne E. unfold watermarkKey in E. apply app_inv_head, app_inv_head in E. done. Qed.

(** One schedule's pass, and then the others'. *)
Lemma swept_cons s spec loc schedules w w1 w2 ms new :
  ScheduleID s ∉ map ScheduleID schedules -> Disabled s = false -> parsed s = Ret (spec, loc) ->
  passed s (dueAt w s loc spec) w w1 ms -> (catchUp c < 1000 * Minute -> forall m, dueAt w s loc spec m -> is_Some (kv w1 !! keyOf s m)) ->
  swept schedules w1 w2 new -> swept (s :: schedules) w w2 (map (pair s) ms ++ new).
Proof.
  intros Hid Hen Hp [H1 H2 H3 H4 H5 H6] Hcov [G1 G2 G3 G4 G5 G6].
  assert (forall s', s' ∈ schedules -> kv w1 !! watermarkKey (KeyPrefix c) (ScheduleID s') = kv w !! watermarkKey (KeyPrefix c) (ScheduleID s')) as Hwm.
  { intros s' Hs'. apply H6; [apply watermark_not_claim|]. apply watermark_ne. intros E. apply Hid. rewrite <- E. by apply list_elem_of_fmap_2. }
  split.
  - by rewrite G1.
  - by rewrite G2, H2, app_assoc.
  - intros s' m [Hin|Hin]%elem_of_app.
    + apply list_elem_of_fmap in Hin as (m' & [= -> ->] & Hm). destruct (H3 m' Hm) as [Hd Hn]. split_and!; [left|done|done|]. by exists spec, loc.
    + destruct (G3 s' m Hin) as (Hs & Hd & Hn & sp & l & Hp' & Hdue). split_and!; [by right|done| |].
      * destruct (kv w !! keyOf s' m) eqn:E; [|done]. destruct (H4 (keyOf s' m)) as [x Hx]; [by rewrite E|]. congruence.
      * exists sp, l. split; [done|]. rewrite dueAt_same in Hdue; [done|by apply Hwm].
  - auto.
  - intros k Hk Hn Hs. destruct (kv w1 !! k) as [x|] eqn:E.
    + destruct (H5 k Hk Hn) as [(m & Hm & ->) _]; [by rewrite E|]. exists s, m. split; [|done]. apply elem_of_app. left. by apply list_elem_of_fmap_2.
    + destruct (G5 k Hk E Hs) as (s' & m & Hin & ->). exists s', m. split; [|done]. apply elem_of_app. by right.
  - intros s' sp l m [->|Hs']%elem_of_cons Hen' Hp' Hw Hdue.
    + rewrite Hp in Hp'. injection Hp' as <- <-. apply G4. by apply Hcov.
    + apply (G6 s' sp l m); [done..|]. apply (dueAt_same w w1); [by apply Hwm|done].
Qed.

Lemma run_all schedules : NoDup (map ScheduleID schedules) -> Forall (fun s => validate s = Ret tt) schedules -> forall w,
  exists w' new, run (runAll c schedules now) w = Some (w', Ret tt) /\ swept schedules w w' new.
Proof.
  intros Hnd Hv. induction Hv as [|s schedules Hs Hv IH]; intros w; cbn [runAll].
  - exists w, []. split; [done|]. split; try done; [by rewrite app_nil_r|by intros ? ? ?%elem_of_nil|by intros ? _ -> []|by intros ? ? ? ? ?%elem_of_nil].
  - cbn in Hnd. apply NoDup_cons in Hnd as [Hid Hnd]. destruct (Disabled s) eqn:Ed.
    + destruct (IH Hnd w) as (w' & new & E & [G1 G2 G3 G4 G5 G6]). exists w', new. split; [done|]. split; try done.
      * intros s' m Hin. destruct (G3 s' m Hin) as (? & ? & ? & ?). split_and!; [by right|done..].
      * intros s' sp l m [->|Hin]%elem_of_cons ?; [congruence|by apply G6].
    + destruct (validate_parsed s Hs) as (_ & spec & loc & Hp). destruct (run_schedule s spec loc w Hp) as (w1 & ms & E1 & Hpass & Hcov).
      destruct (IH Hnd w1) as (w2 & new & E2 & Hsw). exists w2, (map (pair s) ms ++ new). split; [|by eapply swept_cons].
      by rewrite (run_after _ _ _ _ _ E1).
Qed.

(** Pruning submits nothing. *)
Lemma run_prunePairs pairs cutoff : forall w, exists w', run (prunePairs pairs cutoff) w = Some (w', Ret tt) /\ submissions w' = submissions w.
Proof.
  induction pairs as [|[k v] pairs IH]; intros w; cbn [prunePairs]; [by eexists|]. destruct (claimKeyTime k) as [f|]; [|apply IH].
  destruct (f <? cutoff); [|apply IH]. cbn. destruct (IH (set_kv (delete k (kv w)) w)) as (w' & E & Hs). eexists. split; [exact E|done].
Qed.

Lemma run_reportAll {B} errs (p : P B) w : run (reportAll errs p) w = run p w.
Proof. by induction errs. Qed.
End Pass.

Lemma swept_exact `{HE : CronEnv} {HZ : SteadyZones} {HF : FireCodec} c now schedules w w' new :
  fourDigits (now - catchUp c) -> fourDigits now -> NoDup (map ScheduleID schedules) -> Forall (fun s => validate s = Ret tt) schedules ->
  swept c now schedules w w' new -> catchUp c < 1000 * Minute ->
  forall s spec loc m, s ∈ schedules -> Disabled s = false -> parsed s = Ret (spec, loc) ->
  (s, m) ∈ new <-> dueAt c now w s loc spec m /\ kv w !! claimKey (KeyPrefix c) (ScheduleID s) m = None.
Proof.
  intros Hy Hy' Hnd Hv Hsw Hw s spec loc m Hs Hen Hp. split.
  - intros Hin. destruct (sw_due _ _ _ _ _ _ Hsw s m Hin) as (_ & _ & Hn & sp & l & Hp' & Hd). rewrite Hp in Hp'. by injection Hp' as <- <-.
  - intros [Hd Hn]. pose proof (sw_covered _ _ _ _ _ _ Hsw s spec loc m Hs Hen Hp Hw Hd) as Hpres.
    destruct (sw_claimed _ _ _ _ _ _ Hsw _ (claimKey_is_claim c s m) Hn Hpres) as (s' & m' & Hin & E).
    destruct (sw_due _ _ _ _ _ _ Hsw s' m' Hin) as (Hs' & _ & _ & sp & l & _ & Hd').
    rewrite Forall_forall in Hv. destruct (validate_parsed s (Hv s Hs)) as [Hsl _]. destruct (validate_parsed s' (Hv s' Hs')) as [Hsl' _].
    apply dueAt_year in Hd as [? ?]; [|done..]. apply dueAt_year in Hd' as [? ?]; [|done..].
    destruct (claimKey_inj c s s' m m') as [Hid ->]; [done..|].
    apply list_elem_of_lookup in Hs as [i Hi]. apply list_elem_of_lookup in Hs' as [j Hj].
    assert (i = j) as -> by (eapply NoDup_lookup; [exact Hnd|by rewrite list_lookup_fmap, Hi|rewrite list_lookup_fmap, Hj; cbn; by rewrite Hid]). congruence.
Qed.

End Run.

(** * A run is an execution *)

Lemma onStore_pair {A} (f : table -> table * A) w : onStore f w = (set_kv (f (kv w)).1 w, (f (kv w)).2).
Proof. unfold onStore. by destruct (f (kv w)). Qed.

(** Served by the in-process store, a process alone takes the steps of its program. *)
Lemma serve_performs (instance : Schedule -> Z -> bytes) (window behind ahead : Z) (o : op) (w : world) :
  0 <= behind -> 0 <= ahead -> fourDigits (clock w - window) -> fourDigits (clock w) ->
  performs window behind ahead w o (serve instance o w).2 (serve instance o w).1 /\ clock (serve instance o w).1 = clock w.
Proof.
  intros Hb Ha Hy Hy'. destruct (memoryStore None o) as [f|] eqn:Ef.
  - assert (serve instance o w = (set_kv (f (kv w)).1 w, (f (kv w)).2)) as ->.
    { destruct o; try done; injection Ef as <-; cbn [serve]; by rewrite onStore_pair. }
    cbn [fst snd]. split; [|done]. destruct (f (kv w)) as [t r] eqn:E. by eapply perf_store.
  - destruct o; try done; cbn; (split; [|done]); [apply perf_submit|apply perf_now; [lia|done|done]|apply perf_note].
Qed.

Lemma run_steps `{CronEnv} (instance : Schedule -> Z -> bytes) (pre : bytes) (window behind ahead : Z) (p : P Z) l th l' w' r' : forall w g,
  0 <= behind -> 0 <= ahead -> fourDigits (clock w - window) -> fourDigits (clock w) -> (reading g = None \/ reading g = Some (clock w)) ->
  run instance p w = Some (w', r') ->
  exists g', rtc (step pre window behind ahead) (w, l ++ continue p g th :: l') (w', l ++ continue (Done r') g' th :: l') /\ clock w' = clock w.
Proof.
  intros w g Hb Ha. revert w g. induction p as [r|o k IH|]; intros w g Hy Hy' Hg E; [injection E as <- <-; by exists g| |done].
  destruct (serve_performs instance window behind ahead o w) as [Hp Hc]; [done..|]. cbn [run] in E. destruct (serve instance o w) as [w1 r] eqn:Es. cbn [fst snd] in *.
  destruct (IH r w1 (advance g o r)) as (g' & Hr & Hc'); [by rewrite Hc|by rewrite Hc| |done|].
  { destruct o; cbn in *; simplify_eq; auto; try (by rewrite Hc). destruct r as [[|]| |]; cbn; by rewrite Hc. }
  exists g'. split; [|by rewrite Hc', Hc]. eapply rtc_l; [|exact Hr].
  apply (step_op pre window behind ahead w w1 l (continue (Do o k) g th) l' o k r); [done| |done].
  unfold timely. cbn. destruct Hg as [-> | ->]; [done|lia].
Qed.

(** A whole task, from start to finish. *)
Lemma task_steps `{CronEnv} (instance : Schedule -> Z -> bytes) (pre : bytes) (window behind ahead : Z) (t : task) l th l' w w' r :
  0 <= behind -> 0 <= ahead -> fourDigits (clock w - window) -> fourDigits (clock w) -> running th = None ->
  run instance (program (config th) (lastPrune th) t) w = Some (w', r) ->
  rtc (step pre window behind ahead) (w, l ++ th :: l') (w', l ++ finish r th :: l').
Proof.
  intros Hb Ha Hy Hy' Hr E. destruct (run_steps instance pre window behind ahead _ l th l' w' r w fresh Hb Ha Hy Hy' ltac:(by left) E) as (g & Hs & _).
  eapply rtc_l; [by apply (step_begin _ _ _ _ w l th l' t)|].
  eapply rtc_r; [exact Hs|]. by apply (step_finish pre window behind ahead w' l (continue (Done r) g th) l' r).
Qed.


(** * Zones that turn their clocks *)

#[local] Transparent Next AddDate rollMinute parseRFC3339 formatRFC3339 formatMinute ParseSpec.

(** One round of the search, if it goes on. *)
Definition nextStep (l : Location) (s : Spec) (next deadline : Z) : option Z :=
  if deadline <=? next then None
  else if negb (admits (specMonth s) (tMonth (wall l next))) then Some (rollMonthIn l next)
  else if negb (dayMatches s (wall l next)) then Some (rollDayIn l next)
  else if negb (admits (specHour s) (tHour (wall l next))) then Some (rollHourIn l next)
  else if negb (admits (specMinute s) (tMinute (wall l next))) then Some (next + Minute)
  else None.

Fixpoint nextSteps (n : nat) (l : Location) (s : Spec) (next deadline : Z) : option Z :=
  match n with
  | O => Some next
  | S n' => next' ← nextStep l s next deadline; nextSteps n' l s next' deadline
  end.

Lemma nextLoop_steps n l s deadline fuel : forall next cursor,
  nextSteps n l s next deadline = Some cursor -> nextLoop (n + fuel) l s next deadline = nextLoop fuel l s cursor deadline.
Proof.
  induction n as [|n IH]; intros next cursor; cbn [nextSteps]; [by intros [= ->]|].
  intros (next' & E & Hn)%bind_Some. cbn [Nat.add nextLoop]. unfold nextStep in E.
  destruct (deadline <=? next); [done|]. repeat (destruct (negb _); [injection E as <-; by apply IH|]). done.
Qed.

(** A search that comes to a place from which a step leads back to it does not end. *)
Lemma nextLoop_stuck n l s deadline start cursor :
  nextSteps n l s start deadline = Some cursor -> nextStep l s cursor deadline = Some cursor ->
  forall fuel, nextLoop fuel l s start deadline = None.
Proof.
  intros Hlead Hstep. assert (forall fuel, nextLoop fuel l s cursor deadline = None) as Hstuck.
  { intros fuel. induction fuel as [|fuel IH].
    - unfold nextStep in Hstep. cbn. by destruct (deadline <=? cursor).
    - change (S fuel) with (1 + fuel)%nat. rewrite (nextLoop_steps 1 l s deadline fuel cursor cursor); [done|]. cbn [nextSteps]. by rewrite Hstep. }
  intros fuel. destruct (nextLoop fuel l s start deadline) as [r|] eqn:E; [|done].
  apply (nextLoop_more fuel (n + fuel)) in E; [|lia]. by rewrite (nextLoop_steps n l s deadline fuel start cursor Hlead), Hstuck in E.
Qed.

(** America/New_York from 2025-03-09 on: until 2025-11-02T06:00Z four hours behind UTC,
    then five. *)
Definition newYork : Location :=
  mkLocation (fun sec => if sec <? 1762063200 then (-14400, 1741503600, 1762063200) else (-18000, 1762063200, 1772953200)).

(** America/Havana from 2024-11-03 on: until 2025-03-09T05:00Z five hours behind, then
    four; no clock there reads midnight on that day. *)
Definition havana : Location :=
  mkLocation (fun sec => if sec <? 1741496400 then (-18000, 1730610000, 1741496400) else (-14400, 1741496400, 1762059600)).

Definition specOf (expr : bytes) : Spec := match ParseSpec expr with Ret s => s | _ => mkSpec [] 0 0 0 0 0 false false end.

Definition nineDaily : Spec := Eval vm_compute in specOf (bs "0 9 * * *").
Definition mondays : Spec := Eval vm_compute in specOf (bs "0 12 * * 1").
Definition everyMinute : Spec := Eval vm_compute in specOf (bs "* * * * *").

(** "* * * * *" in New York: in the hour that comes twice, [time.Date] takes the clock to
    mean its first occurrence, and the first minute "strictly after" six is one that has
    passed an hour ago. *)
Theorem repeated_hour_goes_back :
  ParseSpec (bs "* * * * *") = Ret everyMinute /\
  Next newYork everyMinute (tDate 2025 11 2 6 0 0) = Some (Some (tDate 2025 11 2 5 1 0)).
Proof.
  split; [vm_compute; reflexivity|]. unfold Next. apply (nextLoop_more 1); [unfold nextFuel; lia|]. vm_compute. reflexivity.
Qed.

(** "0 9 * * *" in New York: from the fire before the clocks are turned back, the search
    comes to the second one o'clock, and from there the next hour is that one o'clock
    again. *)
Lemma nine_daily_spins fuel : NextWithin fuel newYork nineDaily (tDate 2025 11 1 13 0 0) = None.
Proof.
  apply (nextLoop_stuck 75 newYork nineDaily _ _ (tDate 2025 11 2 6 0 0)); vm_compute; reflexivity.
Qed.

Theorem repeated_hour_never_ends :
  ParseSpec (bs "0 9 * * *") = Ret nineDaily /\ forall fuel, NextWithin fuel newYork nineDaily (tDate 2025 11 1 13 0 0) = None.
Proof. split; [vm_compute; reflexivity|]. apply nine_daily_spins. Qed.

(** "0 12 * * 1" in Havana: [time.Date] puts the midnight that does not come at eleven in
    the evening of the day before, where the search for a Monday is already. *)
Theorem skipped_midnight_never_ends :
  ParseSpec (bs "0 12 * * 1") = Ret mondays /\ forall fuel, NextWithin fuel havana mondays (tDate 2025 3 8 17 0 0) = None.
Proof.
  split; [vm_compute; reflexivity|]. intros fuel.
  apply (nextLoop_stuck 1 havana mondays _ _ (tDate 2025 3 9 4 0 0)); vm_compute; reflexivity.
Qed.

Lemma run_after_none {A B} instance (p : prog A) (k : A -> prog B) w : run instance p w = None -> run instance (after p k) w = None.
Proof. revert w. induction p as [a|o f IH|]; intros w; cbn; [done| |done]. destruct (serve instance o w) as [w1 r]. apply IH. Qed.

(** A pass over such a schedule, with its watermark on the fire before the clocks are
    turned back, does not return, and no schedule after it in the catalog has its turn. *)
Theorem pass_never_returns `{CronEnv} (instance : Schedule -> Z -> bytes) (c : Scheduler) (s : Schedule) (others : list Schedule) (w : world) (v : bytes) :
  let mark := tDate 2025 11 1 13 0 0 in
  Disabled s = false -> parsed s = Ret (nineDaily, newYork) -> kv w !! watermarkKey (KeyPrefix c) (ScheduleID s) = Some v ->
  parseRFC3339 v = Some mark -> mark <= clock w <= mark + catchUp c ->
  run instance (runAll c (s :: others) (clock w)) w = None.
Proof.
  intros mark Hd Hp Hv Hm Hnow. cbn [runAll]. rewrite Hd.
  assert (run instance (runSchedule c s (clock w)) w = None) as E.
  { unfold runSchedule, liftP. rewrite Hp. erewrite run_bind by done. cbv beta iota. erewrite run_bind by apply run_window.
    rewrite Hv. cbn [mbind option_bind]. rewrite Hm. cbv zeta beta iota. rewrite Z.min_l by lia.
    destruct (Z.ltb_spec mark (clock w - catchUp c)); [lia|].
    cbn [fireLoop maxFiresPerSchedulePerTick]. unfold maxFiresPerSchedulePerTick. unfold Next.
    rewrite nine_daily_spins. done. }
  by apply run_after_none.
Qed.
