(* ===== verification/CronStore.v ===== *)
(** The scheduler's store on a node (src/examples/croncmd/store.go): each method of the
    interface through a session of the client library, and that it does to the
    replicated table what the in-process store does to its map. *)

From S2P Require Import Prelude Store StoreLogic SystemKeys Payloads LogRecord Txn Fsm FsmSpec FsmProps FsmInvariants FsmOps Events Stream Quota Session Node Acl Forward Dial Join Execute Remote Channel Handler HandlerProps ForwardProps ReadProps RemoteProps Ipc IpcProps IpcNode Client ClientProps Calendar Cron Scheduler.
#[local] Open Scope Z_scope.

(** * The store *)

(** [nsResolve] is asked for a session on every call, if there is one; otherwise the
    session is opened at the first call, and kept. *)
Record nodeStore : Type := mkNodeStore {
  nsPeer : bytes;
  nsResolve : option (C Session);
  nsSess : option Session;
}.

Definition Node_ (peer : bytes) : nodeStore := mkNodeStore peer None None.
Definition Session_ (s : Session) : nodeStore := mkNodeStore [] None (Some s).
Definition Sessions (resolve : C Session) : nodeStore := mkNodeStore [] (Some resolve) None.

Definition N (A : Type) : Type := nodeStore -> client -> nodeStore * client * gores A.

Section NodeStore.
Context `{Env}.

Definition session : N Session := fun n c =>
  match nsResolve n with
  | Some resolve => let '(c', r) := resolve c in (n, c', r)
  | None =>
    match nsSess n with
    | Some s => (n, c, Ret s)
    | None =>
      if bytes_eqb (nsPeer n) [] then (n, c, Fail (Errorf "croncmd: this store has neither a session nor a peer id")) else
      match wrapC "croncmd: open node %s: %w" (Open (nsPeer n)) c with
      | (c', Ret s) => (mkNodeStore (nsPeer n) None (Some s), c', Ret s)
      | (c', r) => (n, c', r)
      end
    end
  end.

(** What every method does with its session. *)
Definition withSession {A} (f : Session -> C A) : N A := fun n c =>
  match session n c with
  | (n', c', Ret s) => let '(c'', r) := f s c' in (n', c'', r)
  | (n', c', Fail e) => (n', c', Fail e)
  | (n', c', Panic) => (n', c', Panic)
  end.

Definition node_Get (key : bytes) : N (option bytes) :=
  withSession (fun s =>
    found ← wrapC "croncmd: get %s: %w" (Session_ScanRange s key key 1 0 RangeOrderAsc);
    mret (match found with [] => None | (_, value) :: _ => Some value end)).

(** The smallest key after every key that starts with the prefix: its last byte that can
    be incremented is, and what follows is dropped. *)
Fixpoint prefixSucc (p : bytes) : option bytes :=
  match p with
  | [] => None
  | b :: p' =>
    match prefixSucc p' with
    | Some e => Some (b :: e)
    | None => if byte_eqb b Byte.xff then None else Some [byte_of_Z (byte_to_Z b + 1)]
    end
  end.
Definition prefixEnd (p : bytes) : bytes :=
  match prefixSucc p with
  | Some e => e
  | None => replicate 8 Byte.xff
  end.

Definition node_Scan (p : bytes) : N (list (bytes * bytes)) :=
  withSession (fun s =>
    found ← wrapC "croncmd: scan %s: %w" (Session_ScanRange s p (prefixEnd p) 0 0 RangeOrderAsc);
    mret (filter (fun kv => HasPrefix kv.1 p = true) found)).

Definition node_Put (key value : bytes) : N unit :=
  withSession (fun s => wrapC "croncmd: put %s: %w" (Session_Set s key value)).

Definition node_Delete (key : bytes) : N unit :=
  withSession (fun s => wrapC "croncmd: delete %s: %w" (Session_Txn s [mkTxnOp TxnOpDelete key []])).

Definition node_Claim (key value : bytes) : N bool :=
  withSession (fun s => wrapC "croncmd: claim %s: %w" (Session_CompareAndSwap s key [] value true)).
End NodeStore.

(** * Prefixes *)

Lemma HasPrefix_iff k p : HasPrefix k p = true <-> exists rest, k = p ++ rest.
Proof.
  unfold HasPrefix. rewrite bool_decide_eq_true. revert k. induction p as [|x p IH]; intros k; cbn.
  - split; [by exists k|by intros]. 
  - destruct k as [|y k]; [split; [by intros []|by intros []]|]. destruct (byte_eqb x y) eqn:E.
    + apply byte_eqb_true in E as ->. rewrite IH. split; intros [rest Hr]; exists rest; [by rewrite Hr|by injection Hr].
    + split; [by intros []|]. intros [rest [= -> _]]. by rewrite byte_eqb_refl in E.
Qed.

Lemma prefixSucc_above p e rest : prefixSucc p = Some e -> bytes_le (p ++ rest) e = true.
Proof.
  revert e. induction p as [|b p IH]; intros e; cbn; [done|]. destruct (prefixSucc p) as [e'|].
  - intros [= <-]. specialize (IH e' eq_refl). cbn [app bytes_le]. by rewrite !Z.ltb_irrefl.
  - destruct (byte_eqb b Byte.xff) eqn:E; [done|]. intros [= <-]. cbn [app bytes_le].
    assert (byte_to_Z b < 255) as Hb.
    { pose proof (byte_to_Z_range b). assert (byte_to_Z b <> byte_to_Z Byte.xff) as Hne; [|change (byte_to_Z Byte.xff) with 255 in Hne; lia].
      intros Eb. apply byte_to_Z_inj in Eb as ->. by rewrite byte_eqb_refl in E. }
    pose proof (byte_to_Z_range b). rewrite byte_to_of_Z, Z.mod_small by lia. by rewrite (proj2 (Z.ltb_lt _ _)) by lia.
Qed.

(** The keys that start with a prefix are in the range that is scanned for it. *)
Lemma prefix_select p t : prefixSucc p <> None ->
  filter (fun kv : row => HasPrefix kv.1 p = true) (select (in_range p (prefixEnd p)) t) = select (fun k => HasPrefix k p) t.
Proof.
  intros Hp. unfold select. rewrite list_filter_filter. apply list_filter_iff. intros [k v]. cbn. rewrite !Is_true_true. split; [tauto|].
  intros Hk. split; [done|]. apply HasPrefix_iff in Hk as [rest ->]. unfold in_range, prefixEnd. destruct (prefixSucc p) as [e|] eqn:E; [|done].
  rewrite (prefixSucc_above p e rest E), prefix_bytes_le; [done|by exists rest].
Qed.

Lemma point_select key t : select (in_range key key) t = match t !! key with Some v => [(key, v)] | None => [] end.
Proof.
  assert (forall k v, (k, v) ∈ select (in_range key key) t <-> k = key /\ t !! key = Some v) as Hin.
  { intros k v. rewrite elem_of_select. unfold in_range. rewrite andb_true_iff. split.
    - intros (Hk & H1 & H2). pose proof (bytes_le_antisym _ _ H1 H2). by subst.
    - intros [-> Hk]. by rewrite bytes_le_refl. }
  pose proof (NoDup_select_keys (in_range key key) t) as Hnd. destruct (select (in_range key key) t) as [|[k v] l] eqn:E.
  - destruct (t !! key) as [v|] eqn:Ek; [|done]. exfalso. by apply (not_elem_of_nil (key, v)), Hin.
  - assert (k = key /\ t !! key = Some v) as [-> ->] by (apply Hin; left). destruct l as [|[k' v'] l]; [done|]. exfalso.
    assert (k' = key) as -> by (apply (Hin k' v'); right; left). cbn in Hnd. apply NoDup_cons in Hnd as [Hnot _]. apply Hnot. left.
Qed.

(** * Refinement *)

Section Refinement.
Context `{Env} (public_half : bytes -> bytes) (HW : WireCodec) (HK : NodeKeys public_half).

(** The methods by their operation. *)
Definition nodeOp (o : op) : option (nodeStore -> client -> nodeStore * client * reply o) :=
  match o as o return option (nodeStore -> client -> nodeStore * client * reply o) with
  | OGet key => Some (node_Get key)
  | OScan p => Some (node_Scan p)
  | OPut key value => Some (node_Put key value)
  | ODelete key => Some (node_Delete key)
  | OClaim key value => Some (node_Claim key value)
  | OSubmit _ _ | ONow | ONote _ => None
  end.

Definition fitsTxn (ops : list TxnOpSpec) : Prop :=
  (exists m, NewTxn ops = Ret m /\ encodable (Body m)) /\
  (forall e, errors_is e ErrCompareFailed = true -> encodable (E_error (Ok (Error e))) /\ Contains (Error e) CompareFailedMarker = true).

(** Keys outside the reserved spaces, and messages that fit the wire format. *)
Definition acceptable (t : table) (o : op) : Prop :=
  match o with
  | OGet key => key <> [] /\ pagesFit t key key
  | OScan p => prefixSucc p <> None /\ pagesFit t p (prefixEnd p)
  | OPut key value => unreserved key /\ blen key + 4 + blen value < 2 ^ 32 /\ exists m, NewSet key value = Ret m /\ encodable (Body m)
  | ODelete key => unreserved key /\ key <> [] /\ blen key <= 0xFFFF /\ fitsTxn [mkTxnOp TxnOpDelete key []]
  | OClaim key value => unreserved key /\ key <> [] /\ blen key <= 0xFFFF /\ blen value <= 0xFFFF /\
      fitsTxn [mkTxnOp TxnOpCompareAbsent key []; mkTxnOp TxnOpSet key value]
  | OSubmit _ _ | ONow | ONote _ => False
  end.

Lemma scan_run s c start stop limit :
  ready s c -> healthy (nstore (cnode c)) -> pagesFit (committed (nstore (cnode c))) start stop -> start <> [] -> 0 <= limit < 2 ^ 63 ->
  exists c', Session_ScanRange s start stop limit 0 RangeOrderAsc c =
    (c', Ret (ClientProps.window limit 0 false (select (in_range start stop) (committed (nstore (cnode c)))))) /\ committed (nstore (cnode c')) = committed (nstore (cnode c)).
Proof.
  intros Hr Hh Hp Hs Hl. destruct (ScanRange_run public_half HW HK s (committed (nstore (cnode c))) start stop RangeOrderAsc limit 0 false c)
    as (c' & E & Hsc); [by split|done| |done|done|done|].
  - unfold in_range. by destruct start.
  - exists c'. split; [done|]. by destruct Hsc.
Qed.

Lemma claim_run s c key value ts index rest : ready s c -> committing (cnode c) ts index rest -> acceptable (committed (nstore (cnode c))) (OClaim key value) ->
  exists c' r, Session_CompareAndSwap s key [] value true c = (c', Ret r) /\
    memory_Claim None key value (committed (nstore (cnode c))) = (committed (nstore (cnode c')), Ret r).
Proof.
  intros Hr Hc (Hu & Hk & Hl & Hv & (m & Hm & He) & Herr).
  destruct (compare_and_swap_swaps public_half HW HK s key [] value true m c ts index rest) as (c' & E & Hcom); [done..|].
  exists c'. eexists. split; [exact E|]. unfold memory_Claim. rewrite Hcom. destruct (committed (nstore (cnode c)) !! key) as [x|] eqn:Ek.
  - by rewrite bool_decide_false.
  - by rewrite bool_decide_true.
Qed.

Lemma delete_run s c key ts index rest : ready s c -> committing (cnode c) ts index rest -> acceptable (committed (nstore (cnode c))) (ODelete key) ->
  exists c', Session_Txn s [mkTxnOp TxnOpDelete key []] c = (c', Ret tt) /\ committed (nstore (cnode c')) = delete key (committed (nstore (cnode c))).
Proof.
  intros Hr Hc (Hu & Hk & Hl & (m & Hm & He) & Herr). set (ops := [mkTxnOp TxnOpDelete key []]) in *.
  assert (Forall takes ops) as Ht by (apply Forall_singleton; split; [by split|split; [by split|exact Hu]]).
  destruct (Txn_run public_half s ops m c ts index rest) as (c' & E & Hcom); [done|done|done|done| |done|done|].
  { intros payload Ep. assert (Forall op_fits ops) as Hfit by (eapply Forall_impl; [exact Ht|by intros ? [? _]]).
    apply payload_size in Ep; [|done]. change (blen ops) with 1 in Ep. lia. }
  rewrite bool_decide_true in E, Hcom by (by apply Forall_singleton). exists c'. by split.
Qed.

Lemma withSession_run {A} (f : Session -> C A) s c : withSession f (Session_ s) c = (Session_ s, (f s c).1, (f s c).2).
Proof. unfold withSession, session. cbn. by destruct (f s c). Qed.
End Refinement.

(** The store on a node refines the one in memory: over a session of a leader that
    answers and commits, each method of the scheduler's store returns what the
    in-process store would, on the table the cluster has agreed on, and leaves
    that table as the in-process store would leave its map; a claim in
    particular creates the key if and only if it is absent. *)
Theorem node_store_refines_memory `{Env} (public_half : bytes -> bytes) (HW : WireCodec) (HK : NodeKeys public_half) (s : Session) (c : client)
    (ts index : Z) (rest : list apply_reply) (o : op) (memory : table -> table * reply o) (node : nodeStore -> client -> nodeStore * client * reply o) :
  ready s c -> committing (cnode c) ts index rest -> acceptable (committed (nstore (cnode c))) o ->
  memoryStore None o = Some memory -> nodeOp o = Some node ->
  exists c' r, node (Session_ s) c = (Session_ s, c', r) /\ memory (committed (nstore (cnode c))) = (committed (nstore (cnode c')), r).
Proof.
  intros Hr Hc Ha Hm Hn. pose proof (cm_healthy _ _ _ _ Hc) as Hh. destruct o as [key|p|key value|key|key value| | |]; try done; injection Hm as <-; injection Hn as <-.
  - destruct Ha as [Hk Hp]. destruct (scan_run public_half HW HK s c key key 1) as (c' & E & Hcom); [done..|].
    unfold node_Get. rewrite withSession_run. unfold wrapC, mbind, C_bind. rewrite E. cbn. eexists c', _. split; [done|].
    unfold memory_Get. rewrite Hcom, point_select. by destruct (committed (nstore (cnode c)) !! key).
  - destruct Ha as [Hk Hp]. destruct (scan_run public_half HW HK s c p (prefixEnd p) 0) as (c' & E & Hcom); [done..|by destruct p|done|].
    unfold node_Scan. rewrite withSession_run. unfold wrapC, mbind, C_bind. rewrite E. cbn. eexists c', _. split; [done|].
    unfold memory_Scan. by rewrite Hcom, drop_0, prefix_select.
  - destruct Ha as (Hu & Hs & m & Hm & He). destruct (Set_run public_half s key value m c ts index rest) as (c' & E & Hcom); [done..|].
    unfold node_Put. rewrite withSession_run. unfold wrapC. rewrite E. cbn. exists c', (Ret tt). split; [done|]. by rewrite Hcom.
  - destruct (delete_run public_half HW HK s c key ts index rest Hr Hc Ha) as (c' & E & Hcom).
    unfold node_Delete. rewrite withSession_run. unfold wrapC. rewrite E. cbn. exists c', (Ret tt). split; [done|]. by rewrite Hcom.
  - destruct (claim_run public_half HW HK s c key value ts index rest Hr Hc Ha) as (c' & r & E & Hmem).
    unfold node_Claim. rewrite withSession_run. unfold wrapC. rewrite E. cbn. by exists c', (Ret r).
Qed.
