(* ===== verification/Witnesses.v ===== *)
(** Concrete runs: every property with hypotheses is instantiated on an input
    that satisfies them, with the third-party functions instantiated by small
    concrete ones. *)

From S2P Require Import Prelude Store StoreLogic Snapshot SystemKeys Payloads LogRecord Txn Hex Fsm FsmSpec FsmProps FsmInvariants FsmOps Events Stream Quota Session Node Acl Forward Dial Join Execute Remote Channel Handler HandlerProps NodeInvariants NodeSafety ForwardProps JoinProps ReadProps ExecuteProps ChannelProps RemoteProps Ipc IpcProps IpcNode Client ClientProps.
From Stdlib Require Import QArith_base.
#[local] Open Scope Z_scope.

(** * A cluster of one member *)

(** The node "n0"; a peer id is its own text, every signature checks, and the
    wire format knows the messages the runs exchange. *)
Fixpoint toyFields (fs : list bytes) : bytes :=
  match fs with
  | [] => []
  | f :: fs' => be_bytes 2 (blen f) ++ f ++ toyFields fs'
  end.

Fixpoint toyParse (k : nat) (b : bytes) : list bytes :=
  match k with
  | O => []
  | S k' => let len := Z.to_nat (be_value (take 2 b)) in take len (drop 2 b) :: toyParse k' (drop len (drop 2 b))
  end.

Definition toyFrame (tag : byte) (id crc : Z) (fs : list bytes) : gores bytes :=
  if bool_decide (0 <= id < 2 ^ 16 /\ 0 <= crc < 2 ^ 32 /\ Forall (fun f => blen f < 2 ^ 16) fs)
  then Ret (tag :: be_bytes 2 id ++ be_bytes 4 crc ++ toyFields fs) else Fail (Errorf "range").

Definition toyMarshal (m : Msg) : gores bytes :=
  match m with
  | mkMsg id crc (Ok sig) E_leave => toyFrame Byte.x00 id crc [sig]
  | mkMsg id crc (Ok sig) (E_channelOpen (Ok a) (Ok b)) => toyFrame Byte.x01 id crc [sig; a; b]
  | mkMsg id crc (Ok sig) (E_listRange (Ok a) (Ok b) (Ok c) (Ok d)) => toyFrame Byte.x02 id crc [sig; a; b; c; d]
  | mkMsg id crc (Ok sig) (E_set (Ok a) (Ok b)) => toyFrame Byte.x03 id crc [sig; a; b]
  | mkMsg id crc (Ok sig) (E_getFieldByKey (Ok a) (Ok b)) => toyFrame Byte.x04 id crc [sig; a; b]
  | mkMsg id crc (Ok sig) (E_error (Ok a)) => toyFrame Byte.x05 id crc [sig; a]
  | mkMsg id crc (Ok sig) (E_txn (Ok [mkTxnOpMsg o1 (Ok k1) (Ok v1); mkTxnOpMsg o2 (Ok k2) (Ok v2)])) =>
    toyFrame Byte.x06 id crc [sig; [o1]; k1; v1; [o2]; k2; v2]
  | mkMsg id crc (Ok sig) (E_getPrivateKey (Ok a)) => toyFrame Byte.x07 id crc [sig; a]
  | mkMsg id crc (Ok sig) (E_joinRequestTicket (Ok a) (Ok b)) => toyFrame Byte.x08 id crc [sig; a; b]
  | _ => Fail (Errorf "body")
  end.

Definition toyUnmarshal (buf : bytes) : gores Msg :=
  match buf with
  | [] => Fail (Errorf "short")
  | tag :: r =>
    let id := be_value (take 2 r) in
    let crc := be_value (take 4 (drop 2 r)) in
    match tag, toyParse 7 (drop 4 (drop 2 r)) with
    | Byte.x00, sig :: _ => Ret (mkMsg id crc (Ok sig) E_leave)
    | Byte.x01, sig :: a :: b :: _ => Ret (mkMsg id crc (Ok sig) (E_channelOpen (Ok a) (Ok b)))
    | Byte.x02, sig :: a :: b :: c :: d :: _ => Ret (mkMsg id crc (Ok sig) (E_listRange (Ok a) (Ok b) (Ok c) (Ok d)))
    | Byte.x03, sig :: a :: b :: _ => Ret (mkMsg id crc (Ok sig) (E_set (Ok a) (Ok b)))
    | Byte.x04, sig :: a :: b :: _ => Ret (mkMsg id crc (Ok sig) (E_getFieldByKey (Ok a) (Ok b)))
    | Byte.x05, sig :: a :: _ => Ret (mkMsg id crc (Ok sig) (E_error (Ok a)))
    | Byte.x06, [sig; [o1]; k1; v1; [o2]; k2; v2] =>
      Ret (mkMsg id crc (Ok sig) (E_txn (Ok [mkTxnOpMsg o1 (Ok k1) (Ok v1); mkTxnOpMsg o2 (Ok k2) (Ok v2)])))
    | Byte.x07, sig :: a :: _ => Ret (mkMsg id crc (Ok sig) (E_getPrivateKey (Ok a)))
    | Byte.x08, sig :: a :: b :: _ => Ret (mkMsg id crc (Ok sig) (E_joinRequestTicket (Ok a) (Ok b)))
    | _, _ => Fail (Errorf "tag")
    end
  end.

Definition toyRecord (v : bytes) : LogRecord := mkRecord [] [] 0 [] [] v.

#[local] Instance toy : Env := {|
  peerID := bs "n0";
  ed25519Pub := replicate 32 Byte.x01;
  ed25519Priv := replicate 64 Byte.x02;
  HostAddrs _ := [bs "/ip4/10.0.0.1"];
  IsIPLoopback _ := false;
  RequireConfirmForJoin := false;
  buildInfo := mkVersionInfo (bs "c") false (bs "t") (bs "g") (bs "l");
  peer_Decode s := if bool_decide (s = []) then Fail (Errorf "peer") else Ret s;
  peer_PublicKey _ := Ret (replicate 32 Byte.x01);
  ResolveAddress a := Ret a;
  NewMultiaddr a := Ret a;
  AddrInfoFromP2pAddr a := Ret (mkAddrInfo a [a]);
  IsPublicAddr _ := false;
  RelayPeers := [];
  Error e := if errors_is e ErrCompareFailed then bs "kvfsm: txn: compare failed" else bs "error";
  json_join addr sf := sf :: addr;
  json_unjoin v := match v with sf :: addr => Ret (addr, sf) | [] => Fail (Errorf "json") end;
  json_record r := Ret (Narrative r);
  json_unrecord v := Ret (toyRecord v);
  json_unbootstrap v := match v with sf :: addr => Ret (addr, sf) | [] => Fail (Errorf "json") end;
  AllowN _ _ _ _ _ := true;
  ptrData _ _ := Ok [];
  json_poke c i := Ret (c ++ i);
  Canonicalize m := Ret (be_bytes 2 (Id m) ++ be_bytes 4 (Crc32 m));
  ed25519_sign _ _ := replicate 64 Byte.x00;
  ed25519_verify _ _ _ := true;
  Marshal := toyMarshal;
  Unmarshal := toyUnmarshal;
|}.

Lemma toyParse_fields f fs rest k :
  blen f < 2 ^ 16 -> toyParse (S k) (toyFields (f :: fs) ++ rest) = f :: toyParse k (toyFields fs ++ rest).
Proof.
  intros Hf. cbn [toyParse toyFields]. rewrite <- !app_assoc, take_app_length', drop_app_length' by (by rewrite length_be_bytes).
  cbv zeta. rewrite be_value_bytes, Z.mod_small by (pose proof (blen_nonneg f); lia).
  unfold blen. by rewrite Nat2Z.id, take_app_length, drop_app_length.
Qed.

Lemma toy_unmarshal m buf : toyMarshal m = Ret buf -> toyUnmarshal buf = Ret m.
Proof.
  assert (forall tag id crc fs b, toyFrame tag id crc fs = Ret b -> exists r, b = tag :: r /\ be_value (take 2 r) = id /\
    be_value (take 4 (drop 2 r)) = crc /\ drop 4 (drop 2 r) = toyFields fs ++ [] /\ Forall (fun f => blen f < 2 ^ 16) fs) as Hf.
  { intros tag id crc fs b. unfold toyFrame. case_bool_decide as Hr; [|done]. destruct Hr as (Hi & Hc & Hfs). intros [= <-].
    exists (be_bytes 2 id ++ be_bytes 4 crc ++ toyFields fs). split; [done|]. rewrite !drop_app_length', !take_app_length', !be_value_bytes by (by rewrite length_be_bytes).
    rewrite !Z.mod_small, app_nil_r by lia. done. }
  destruct m as [id crc [sig|] body]; [|done]. unfold toyMarshal.
  intros E. destruct body; try done; cbn beta iota in E;
    repeat (match type of E with match ?p with _ => _ end = _ => destruct p end; try done);
    apply Hf in E as (r & -> & Hi & Hc & Hd & Hfs); unfold toyUnmarshal; rewrite Hi, Hc, Hd;
    repeat (apply Forall_cons in Hfs as [? Hfs]; rewrite toyParse_fields by done); done.
Qed.

(** Decidable facts about concrete data, by computation. *)
Ltac evaluate := by (apply (bool_decide_unpack _); vm_compute).

(** * Tables *)

(** A command "c" targeted at "n0", linked to the group "g" that "p1" is in. *)
Definition toyCommand : bytes := put16 1 ++ bs "c" ++ bs "n0".
Definition toyTable : table := list_to_map [
  (GroupKey (bs "g"), EncodeGroupPayload (bs "gname") false);
  (CommandKey (bs "c"), toyCommand);
  (relation_key KindGroupCommand (bs "c") (bs "g"), []);
  (relation_key KindPeerGroup (bs "p1") (bs "g"), []);
  (JoinInviteKey (bs "tok"), [SuffrageLearner]);
  (ExecInviteKey (bs "xtok"), EncodeExecInviteRecord (bs "c") (bs "{}") 5);
  (SystemKey KindClusterJoin StatusPending (bs "p2"), bs "meta")].
Definition toyWorld : world := mkWorld toyTable None [].

Definition entry (op : byte) (key value : bytes) : Log := mkLog (EncodeCommand op key value) 1.

Lemma apply_fault_atomic_witness :
  exists w' r, Apply (entry OpConsumeInvite (JoinInviteKey (bs "tok")) []) (mkWorld toyTable None [false; true]) = (w', r) /\
    pending w' = None /\ no_panic r /\
    ((committed w', r) = applySpec (entry OpConsumeInvite (JoinInviteKey (bs "tok")) []) toyTable \/
     (~ healthy (mkWorld toyTable None [false; true]) /\ is_fail r = true /\ committed w' = toyTable)).
Proof. by apply (apply_fault_atomic _ (mkWorld toyTable None [false; true])). Defined.


Lemma command_acl_spec_witness : (IsPermittedForCommand Store (bs "c") (bs "p1") toyWorld).2 = Ret true.
Proof.
  apply (command_acl_spec (bs "c") (bs "p1") toyWorld); [by vm_compute..|constructor|].
  exists (bs "g"). split; [by eexists|right; by eexists].
Defined.

Definition casOps : list TxnOpSpec := [mkTxnOp TxnOpCompareAbsent (bs "k") []; mkTxnOp TxnOpSet (bs "k") (bs "v")].
Definition casPayload : bytes := match EncodeTxnPayload casOps with Ret b => b | _ => [] end.

Lemma txn_compare_and_swap_witness :
  (Apply (entry OpTxn [] casPayload) toyWorld).2 = Ret [] /\
  committed (Apply (entry OpTxn [] casPayload) toyWorld).1 = fold_left execOp casOps toyTable.
Proof.
  destruct (txn_compare_and_swap (entry OpTxn [] casPayload) toyWorld [] casPayload casOps) as (H1 & _ & H2 & _);
    [by vm_compute..|].
  assert ((Apply (entry OpTxn [] casPayload) toyWorld).2 = Ret []) as E.
  { apply H2; [constructor|]. repeat constructor. }
  split; [done|]. by apply H1.
Defined.

Lemma exec_invite_redemption_witness :
  let l := entry OpConsumeExecInvite (ExecInviteKey (bs "xtok")) (bs "p1") in
  (Apply l toyWorld).2 = Ret (EncodeExecInviteRecord (bs "c") (bs "{}") 5) /\
  committed (Apply l toyWorld).1 = delete (ExecInviteKey (bs "xtok")) toyTable.
Proof.
  destruct (exec_invite_redemption (entry OpConsumeExecInvite (ExecInviteKey (bs "xtok")) (bs "p1")) toyWorld (bs "xtok")
    (bs "p1") (EncodeExecInviteRecord (bs "c") (bs "{}") 5) (bs "c") (bs "{}") 5) as [H _]; [by vm_compute..|].
  assert ((Apply (entry OpConsumeExecInvite (ExecInviteKey (bs "xtok")) (bs "p1")) toyWorld).2 =
    Ret (EncodeExecInviteRecord (bs "c") (bs "{}") 5)) as E by (by vm_compute).
  split; [done|]. by apply (H _ E).
Defined.

Lemma join_invite_one_shot_witness :
  let l := entry OpConsumeInvite (JoinInviteKey (bs "tok")) [] in
  toyTable !! JoinInviteKey (bs "tok") = Some [SuffrageLearner] /\
  is_fail (Apply l (applyAll [entry OpSet (bs "k") (bs "v")] (Apply l toyWorld).1).1).2 = true.
Proof.
  eapply (join_invite_one_shot (entry OpConsumeInvite (JoinInviteKey (bs "tok")) []) _ _ toyWorld (bs "tok") [] []);
    [by vm_compute..|].
  constructor; [|constructor]. intros (op & key & value & Hc & H).
  change (Ret (OpSet, bs "k", bs "v") = Ret (op, key, value)) in Hc. injection Hc as <- <- <-.
  destruct H as [[_ [=]]|[[[=] _]|[[[=] _]|[[=] _]]]].
Defined.

(** ** Command requests *)

Definition requestKey (commandID : bytes) : bytes :=
  match BuildKey (CommandRequestLogKind commandID) (bs "u1") 7 (replicate 8 Byte.x00) with Ret k => k | _ => [] end.
Definition requestValue (author : bytes) : bytes :=
  match EncodeCommandRequestApplyPayload author (bs "rec") with Ret v => v | _ => [] end.

Lemma command_request_authorised_witness :
  exists author record commandID,
    DecodeCommandRequestApplyPayload (requestValue (bs "p1")) = Ret (author, record) /\
    (exists unitID ts, ParseKey (requestKey (bs "c")) = Ret (CommandRequestLogKind commandID, unitID, ts)) /\
    (exists g, linked toyTable commandID g /\ (public toyTable g \/ member toyTable author g)).
Proof.
  destruct (command_request_authorised (entry OpAppendCommandRequest (requestKey (bs "c")) (requestValue (bs "p1"))) toyWorld
    (requestKey (bs "c")) (requestValue (bs "p1"))) as (author & record & commandID & H1 & H2 & H3 & _);
    [by vm_compute..|]. by exists author, record, commandID.
Defined.

(** The command every cluster starts with, open to everyone. *)
Definition publicWorld : world := mkWorld (list_to_map [
  (GroupKey DefaultPublicGroupID, EncodeGroupPayload DefaultPublicGroupID true);
  (relation_key KindGroupCommand DefaultPublicCommandID DefaultPublicGroupID, [])]) None [].

Lemma public_access_exceeds_cap_witness :
  let l := entry OpAppendCommandRequest (requestKey DefaultPublicCommandID) (requestValue (bs "p9")) in
  count_prefix AllPeerGroupsPrefix (committed (Apply l publicWorld).1) =
  count_prefix AllPeerGroupsPrefix (committed publicWorld) + 2.
Proof.
  apply (public_access_exceeds_cap
    (entry OpAppendCommandRequest (requestKey DefaultPublicCommandID) (requestValue (bs "p9"))) publicWorld
    (requestKey DefaultPublicCommandID) (requestValue (bs "p9")) (bs "p9") (bs "rec")); [by vm_compute..| | |].
  - by exists (bs "u1"), 7.
  - intros [v [=]].
  - intros [v [=]].
Defined.

(** ** Deletions, confirmations and puts *)

Lemma cascade_group_exact_witness :
  let l := entry OpCascadeDelete (GroupKey (bs "g")) [] in
  committed (Apply l toyWorld).1 !! relation_key KindPeerGroup (bs "p1") (bs "g") = None /\
  committed (Apply l toyWorld).1 !! CommandKey (bs "c") = Some toyCommand.
Proof.
  split.
  - apply (cascade_group_exact (entry OpCascadeDelete (GroupKey (bs "g")) []) toyWorld (bs "g") []); [by vm_compute..|].
    right. exists (bs "p1"). split; [by vm_compute|by right].
  - change (Some toyCommand) with (toyTable !! CommandKey (bs "c")).
    apply (cascade_group_exact (entry OpCascadeDelete (GroupKey (bs "g")) []) toyWorld (bs "g") []); [by vm_compute..|].
    intros (a & _ & [[=]|[=]]).
Defined.

Lemma cascade_command_exact_witness :
  let l := entry OpCascadeDelete (CommandKey (bs "c")) [] in
  (Apply l toyWorld).2 = Ret [] /\
  committed (Apply l toyWorld).1 !! relation_key KindGroupCommand (bs "c") (bs "g") = None.
Proof.
  destruct (cascade_command_exact (entry OpCascadeDelete (CommandKey (bs "c")) []) toyWorld (bs "c") []
    (relation_key KindGroupCommand (bs "c") (bs "g"))) as [H1 H2]; [by vm_compute..|].
  assert ((Apply (entry OpCascadeDelete (CommandKey (bs "c")) []) toyWorld).2 = Ret []) as E by (apply H2; constructor).
  split; [done|]. apply (H1 E). right. by exists (bs "g").
Defined.

Lemma confirm_moves_record_witness :
  let from := SystemKey KindClusterJoin StatusPending (bs "p2") in
  let to := SystemKey KindClusterJoin StatusConfirmed (bs "p2") in
  let l := entry OpConfirm from to in
  committed (Apply l toyWorld).1 !! from = None /\
  exists v, toyTable !! from = Some v /\ committed (Apply l toyWorld).1 !! to = Some v.
Proof.
  destruct (confirm_moves_record
    (entry OpConfirm (SystemKey KindClusterJoin StatusPending (bs "p2")) (SystemKey KindClusterJoin StatusConfirmed (bs "p2")))
    toyWorld _ _ [] eq_refl eq_refl ltac:(done)) as [H _].
  destruct (H ltac:(by vm_compute)) as (H1 & H2 & _). exact (conj H1 H2).
Defined.

(** A command that has a form, and a put that renames it without one. *)
Definition specced : bytes :=
  match EncodeCommandPayloadWithSpec (bs "c") (bs "n0") (bs "spec") with Ret v => v | _ => [] end.
Definition specWorld : world := mkWorld {[CommandKey (bs "c") := specced]} None [].

Lemma command_spec_preserved_witness :
  let value := put16 1 ++ bs "d" ++ bs "n0" in
  exists stored, committed (Apply (entry OpSet (CommandKey (bs "c")) value) specWorld).1 =
      <[CommandKey (bs "c") := stored]> (committed specWorld) /\
    DecodeCommandPayloadFull stored = Ret (bs "d", bs "n0", bs "spec").
Proof.
  destruct (command_spec_preserved (entry OpSet (CommandKey (bs "c")) (put16 1 ++ bs "d" ++ bs "n0")) specWorld (bs "c")
    (put16 1 ++ bs "d" ++ bs "n0")) as (stored & H1 & _ & _ & H2); [by vm_compute..|].
  exists stored. split; [done|].
  apply (H2 specced (Some (bs "spec")) (bs "d") (bs "n0")); by vm_compute.
Defined.

(** ** Reachable tables *)

Definition groupEntry : Log := entry OpSet (GroupKey (bs "g")) (EncodeGroupPayload (bs "gname") false).

Lemma groupEntry_sound : sound_log groupEntry.
Proof. intros op key value Hd. vm_compute in Hd. injection Hd as <- <- <-. by split. Qed.

Lemma toy_reachable : reachable (committed (Apply groupEntry (mkWorld ∅ None [])).1).
Proof. apply reach_apply; [constructor|done|apply groupEntry_sound]. Qed.

Lemma list_caps_invariant_witness :
  count_prefix (SystemKey KindGroup catalogStatusPlaceholder []) (committed (applyAll [groupEntry] (mkWorld ∅ None [])).1) <= list_limit KindGroup.
Proof. apply list_caps_invariant; [done|done|apply Forall_singleton, groupEntry_sound|done]. Defined.

Lemma group_names_invariant_witness :
  names_unique (committed (Apply groupEntry (mkWorld ∅ None [])).1).
Proof. apply group_names_invariant, toy_reachable. Defined.

(** * Snapshots *)

Definition smallDump : bytes := match (Persist map_to_list specWorld).2 with Ret d => d | _ => [] end.

Lemma snapshot_roundtrip_witness :
  (Restore smallDump toyWorld).2 = Ret tt /\ committed (Restore smallDump toyWorld).1 = committed specWorld.
Proof.
  apply (snapshot_roundtrip map_to_list (fun t => reflexivity _) specWorld toyWorld); [|by vm_compute..|constructor].
  apply map_Forall_singleton. by vm_compute.
Defined.

Lemma restore_atomic_witness :
  pending (Restore (bs "junk") toyWorld).1 = None /\
  (((Restore (bs "junk") toyWorld).2 = Ret tt /\
      committed (Restore (bs "junk") toyWorld).1 = list_to_map (parse_rows 5 (bs "junk")).1) \/
   (is_fail (Restore (bs "junk") toyWorld).2 = true /\ committed (Restore (bs "junk") toyWorld).1 = toyTable)).
Proof. by apply (restore_atomic (bs "junk") toyWorld). Defined.

(** * Codecs *)

Lemma scan_bounds_exact_witness :
  in_range (ScanBounds (bs "k") (bs "u") 5 9).1 (ScanBounds (bs "k") (bs "u") 5 9).2
    (kindUnitPrefix (bs "k") (bs "u") ++ putTs 7 ++ replicate 8 Byte.x11) = true.
Proof.
  apply (scan_bounds_exact (bs "k") (bs "u") (bs "k") (bs "u") (replicate 8 Byte.x11) _ 5 9 7);
    [by vm_compute..|split_and!; [done|done|lia|lia]].
Defined.

Lemma log_keys_chronological_witness :
  bytes_le (kindUnitPrefix (bs "k") (bs "u") ++ putTs 255 ++ [Byte.xff])
           (kindUnitPrefix (bs "k") (bs "u") ++ putTs 256 ++ [Byte.x00]) = true.
Proof.
  apply (log_keys_chronological (bs "k") (bs "u") [Byte.xff] [Byte.x00] _ _ 255 256); [by vm_compute..|left; lia].
Defined.

Lemma log_key_roundtrip_witness :
  ParseKey (requestKey (bs "c")) = Ret (CommandRequestLogKind (bs "c"), bs "u1", 7).
Proof.
  destruct (log_key_roundtrip (CommandRequestLogKind (bs "c")) (bs "u1") (replicate 8 Byte.x00) (requestKey (bs "c")) 7)
    as [H _]. apply H; by vm_compute.
Defined.

Lemma command_payload_roundtrip_witness : DecodeCommandPayloadFull specced = Ret (bs "c", bs "n0", bs "spec").
Proof. apply (command_payload_roundtrip (bs "c") (bs "n0") (bs "spec") specced). by vm_compute. Defined.

Lemma exec_invite_record_roundtrip_witness :
  DecodeExecInviteRecord (EncodeExecInviteRecord (bs "c") (bs "{}") 5) = Ret (bs "c", bs "{}", 5).
Proof. apply exec_invite_record_roundtrip; [by vm_compute|lia]. Defined.

Lemma txn_payload_roundtrip_witness : DecodeTxnPayload casPayload = Ret casOps.
Proof. destruct (txn_payload_roundtrip casOps casPayload) as [H _]. apply H. by vm_compute. Defined.

Lemma txn_string_roundtrip_witness : ParseTxnOpsString (showTxnOps casOps) = Ret casOps.
Proof.
  apply (txn_string_roundtrip casOps []); [done|]. unfold casOps.
  repeat apply Forall_cons_2; [..|constructor]; unfold showable, op_valid, plain; split_and!; try evaluate.
  all: first [by intros|by intros [[=]|[=]]].
Defined.

Lemma group_command_key_roundtrip_witness :
  ParseGroupCommandKey (relation_key KindGroupCommand (bs "c") (bs "g")) = Ret (bs "c", bs "g").
Proof. apply (group_command_key_roundtrip (bs "c") (bs "g")). by vm_compute. Defined.

Lemma channel_frame_roundtrip_witness :
  let priv := replicate 64 Byte.x02 in
  exists crc sig, SignChannelChunk ed25519_sign priv Byte.x01 (bs "chunk") = Ret (crc, sig) /\
    DecodeChannelFrame (EncodeChannelFrame Byte.x01 crc sig (bs "chunk")) = Ret (Byte.x01, crc, sig, bs "chunk") /\
    VerifyChannelChunk ed25519_verify ed25519Pub Byte.x01 (bs "chunk") crc sig = Ret tt.
Proof.
  eexists _, _. split; [by vm_compute|].
  apply (channel_frame_roundtrip ed25519_sign ed25519_verify (fun _ => ed25519Pub) ltac:(done) ltac:(done)
    (replicate 64 Byte.x02)); by vm_compute.
Defined.

Definition leaveMsg : Msg := mkMsg 3 0 (Ok []) E_leave.
Definition leaveBuf : bytes :=
  match Encode Canonicalize ed25519_sign Marshal leaveMsg (Some ed25519Priv) with Ret b => b | _ => [] end.

Lemma envelope_roundtrip_witness :
  exists m' crc sig, Decode Canonicalize Unmarshal leaveBuf = Ret (m', crc, sig) /\ Id m' = 3 /\ Body m' = E_leave /\
    Verify Canonicalize ed25519_verify ed25519Pub m' crc sig = Ret tt.
Proof.
  apply (envelope_roundtrip Canonicalize ed25519_sign ed25519_verify (fun _ => ed25519Pub) Marshal Unmarshal
    ltac:(done) ltac:(done) toy_unmarshal leaveMsg ed25519Priv leaveBuf); by vm_compute.
Defined.

Lemma join_line_roundtrip_witness :
  parseJoinRequest (joinLine (bs "p1") (bs "/ip4/10.0.0.2") Nonvoter [Byte.xab]) =
    Ret (mkJoinRequest (bs "p1") (bs "/ip4/10.0.0.2") Nonvoter [Byte.xab]).
Proof.
  apply join_line_roundtrip; [unfold plain; evaluate..|done|done|done|by vm_compute].
Defined.

(** * Nodes *)

Definition leaderRaft : Raft := mkRaft Leader (bs "n0") (Some [mkServer Voter (bs "n0") (bs "/ip4/10.0.0.1")]).
Definition followerRaft : Raft := mkRaft Follower (bs "n0") (Some [mkServer Voter (bs "n0") (bs "/ip4/10.0.0.1")]).

(** A host that reaches nobody, with the default quotas. *)
Definition quietIo : io :=
  mkIo [] [] [] [] [] [] [] newChannelTable (trackerOf (channelQuotaLimits (mkQuotaConfig 0%Q 0 0%Q 0))).

Definition nodeWith (w : world) (rf : Raft) (applies : list apply_reply) (net : list net_reply) : node :=
  mkNode w ∅ (Some rf) [] [] [] [] applies [] net [] 0 quietIo [].

Definition toyLeader : node := nodeWith toyWorld leaderRaft [Committed [] 1 1] [].

(** The operator, and a peer that is in no group. *)
Definition operator : callerIdentity := mkCaller (replicate 32 Byte.x01) [].
Definition stranger : callerIdentity := mkCaller (replicate 32 Byte.x01) (bs "p7").
Definition signature : bytes := replicate 64 Byte.x00.

Lemma stranger_not_authorised t :
  t !! relation_key KindPeerGroup (bs "p7") ReservedGroupCluster = None ->
  t !! relation_key KindPeerGroup (bs "p7") ReservedGroupRemote = None ->
  t !! relation_key KindPeerGroup (bs "p7") (bs "n0") = None ->
  ~ authorised t (bs "p7") ReservedGroupRemote.
Proof. intros H1 H2 H3 [[v E]|[[v E]|[v E]]]; [congruence..|]. change peerID with (bs "n0") in E. congruence. Qed.

Lemma stranger_confined_witness :
  let m := newMsg (E_permitRequest KindClusterJoin (Ok (bs "p7")) (Ok (bs "meta"))) in
  exists new, ncalls (handleShmEvent m 0 signature stranger toyLeader).1 = [] ++ new /\ Forall (stranger_call (bs "p7")) new.
Proof.
  apply (stranger_confined (newMsg (E_permitRequest KindClusterJoin (Ok (bs "p7")) (Ok (bs "meta")))) 0 signature stranger toyLeader);
    [by vm_compute..|].
  by apply stranger_not_authorised.
Defined.

Lemma nonvoter_confined_witness :
  let m := newMsg (E_set (Ok (bs "k")) (Ok (bs "v"))) in
  exists new, ncalls (handleShmEvent m 0 signature stranger toyLeader).1 = [] ++ new /\ Forall (member_call (bs "p7")) new.
Proof.
  apply (nonvoter_confined (newMsg (E_set (Ok (bs "k")) (Ok (bs "v")))) 0 signature stranger toyLeader); by vm_compute.
Defined.

(** A record of the execution log, read by the stranger. *)
Definition execKey : bytes :=
  match BuildKey CommandExecLogKind (bs "u1") 7 (replicate 8 Byte.x00) with Ret k => k | _ => [] end.
Definition logNode : node := nodeWith (mkWorld {[execKey := bs "rec"]} None []) leaderRaft [] [].
Definition readMsg : Msg := newMsg (E_getFieldByKey (Ok execKey) (Ok [])).

Lemma stranger_reads_confined_witness :
  exists k v, Ok execKey = Ok k /\ Ok (bs "rec") = Ok v /\ committed (nstore logNode) !! k = Some v /\
    log_readable (committed (nstore logNode)) (bs "p7") k.
Proof.
  apply (stranger_reads_confined readMsg (SetBody (E_getFieldByKey (Ok execKey) (Ok (bs "rec"))) readMsg) 0 signature
    stranger logNode); [done| |by vm_compute].
  by apply stranger_not_authorised.
Defined.

Lemma response_matches_request_witness :
  Id (SetBody (E_getFieldByKey (Ok execKey) (Ok (bs "rec"))) readMsg) = Id readMsg.
Proof.
  apply (response_matches_request readMsg (SetBody (E_getFieldByKey (Ok execKey) (Ok (bs "rec"))) readMsg) 0 signature
    stranger logNode). by vm_compute.
Defined.

Lemma leader_write_then_read_witness :
  let m1 := newMsg (E_set (Ok (bs "k")) (Ok (bs "v"))) in
  let m2 := newMsg (E_getFieldByKey (Ok (bs "k")) (Ok [])) in
  let '(n1, r1) := handleShmEvent m1 0 signature operator toyLeader in
  r1 = Ret m1 /\ committed (nstore n1) = <[bs "k" := bs "v"]> toyTable /\
  (handleShmEvent m2 0 signature operator n1).2 = Ret (SetBody (E_getFieldByKey (Ok (bs "k")) (Ok (bs "v"))) m2).
Proof.
  apply (leader_write_then_read (newMsg (E_set (Ok (bs "k")) (Ok (bs "v")))) (newMsg (E_getFieldByKey (Ok (bs "k")) (Ok [])))
    0 0 signature signature (bs "k") (bs "v") (Ok []) operator toyLeader 1 1 []); try (by vm_compute).
  intros b r [= <- <-]. by split.
Defined.

Lemma toy_returns : @EnvReturns toy.
Proof.
  constructor; try done; cbn.
  - intros s. by case_bool_decide.
  - by intros [].
  - by intros [].
  - intros m. unfold toyMarshal, toyFrame. repeat case_match; done.
  - intros b. unfold toyUnmarshal. repeat case_match; done.
Qed.

Lemma toy_listens : HostListens.
Proof. done. Qed.

Lemma serve_never_panics_witness :
  calm (serve (ForwardedSet (Ret (bs "junk"))) toyLeader).1 /\
  no_panic (serve (ForwardedSet (Ret (bs "junk"))) toyLeader).2.
Proof. by apply (serve_never_panics toy_returns toy_listens (ForwardedSet (Ret (bs "junk"))) toyLeader). Defined.

(** A leader that starts empty serves a forwarded write and a bad notification. *)
Definition emptyLeader : node := nodeWith (mkWorld ∅ None []) leaderRaft [Committed [] 1 1] [].
Definition traffic : list inbound :=
  [ForwardedSet (Ret (EncodeCommand OpSet (bs "k") (bs "v"))); Notification (Ret (bs "junk"))].

Lemma node_invariant_witness : node_inv (serveAll traffic emptyLeader).
Proof.
  apply (node_invariant traffic emptyLeader).
  - apply Forall_cons_2; [|by apply Forall_cons_2]. intros b op key value <-%(inj Ret) Hd.
    rewrite decode_EncodeCommand in Hd by (by vm_compute). injection Hd as <- <- <-. by split.
  - replace (ncalls (serveAll traffic emptyLeader)) with [Proposed (EncodeCommand OpSet (bs "k") (bs "v"))] by (by vm_compute).
    apply Forall_singleton. intros cmd [= <-]. by vm_compute.
  - constructor; [reflexivity|apply reach_empty|by vm_compute|apply Forall_singleton, Forall_nil; exact I|apply Forall_nil; exact I|
      split; [by apply map_Forall_empty|by vm_compute]].
Defined.

(** ** Forwarding *)

Definition forwarded : bytes := EncodeCommand OpSet (bs "k") (bs "v").
Definition leaderAnswer : bytes := match (handleForwardSetStream (Ret forwarded) toyLeader).2 with Ret b => b | _ => [] end.
Definition toyFollower : node := nodeWith toyWorld followerRaft [] [Reply leaderAnswer []].

Lemma forwarded_write_faithful_witness :
  (handleForwardSetStream (Ret forwarded) toyLeader).1 = (handleOpForward OpSet (bs "k") (bs "v") false toyLeader).1 /\
  match (handleOpForward OpSet (bs "k") (bs "v") false toyLeader).2 with
  | Ret index => (handleOpForward OpSet (bs "k") (bs "v") true toyFollower).2 = Ret (u64 index)
  | _ => is_fail (handleOpForward OpSet (bs "k") (bs "v") true toyFollower).2 = true
  end.
Proof.
  apply (forwarded_write_faithful toyFollower toyLeader _ OpSet (bs "k") (bs "v") (bs "n0") (bs "n0") leaderAnswer [] []);
    [by vm_compute|by vm_compute|by left|by vm_compute|done| |done].
  apply injective_projections; [done|by vm_compute].
Defined.

Lemma forward_txn_bypass_witness :
  let txn := match EncodeTxnPayload [mkTxnOp TxnOpSet (relation_key KindPeerGroup (bs "p7") ReservedGroupCluster) []] with
             | Ret b => b | _ => [] end in
  member (committed (nstore (handleForwardSetStream (Ret (EncodeCommand OpTxn [] txn)) toyLeader).1)) (bs "p7") ReservedGroupCluster.
Proof. by eapply (forward_txn_bypass toyLeader (bs "p7") _ 1 1 []); [..|constructor|vm_compute|vm_compute|vm_compute|vm_compute]. Defined.

(** ** Admission *)

(** "p5" joins with the invite "tok", which is for a learner, asking to vote. *)
Definition voterRequest : joinRequest := mkJoinRequest (bs "p5") (bs "/ip4/10.0.0.5") Voter (bs "tok").

Lemma invite_decides_admission_witness :
  exists more, ncalls (admitOrLodgeJoin voterRequest toyLeader).1 =
    [] ++ Proposed (EncodeCommand OpConsumeInvite (JoinInviteKey (bs "tok")) []) ::
          AddServer Nonvoter (bs "p5") (bs "/ip4/10.0.0.5") :: more.
Proof.
  pose proof (invite_decides_admission voterRequest toyLeader [] 1 1 [] eq_refl (Forall_nil_2 _) eq_refl ltac:(by vm_compute)) as H.
  destruct (admitOrLodgeJoin voterRequest toyLeader) as [n' line]. exact H.
Defined.

Definition syncNode : node :=
  nodeWith toyWorld leaderRaft [Committed [] 1 1; Committed [] 1 2; Committed [] 1 3; Committed [] 1 4] [].

Lemma member_groups_follow_role_witness :
  member (committed (nstore (syncMemberGroups (bs "p5") RoleLearner syncNode).1)) (bs "p5") ReservedGroupLearner.
Proof.
  destruct (member_groups_follow_role syncNode (bs "p5") RoleLearner (1, 1) (1, 2) (1, 3) (1, 4)) as (_ & H & _);
    [by vm_compute|by vm_compute|by vm_compute|]. by apply H.
Defined.

(** "p7" registers its own id and asks to be a learner. *)
Definition learnerNode : node := set_registry {[1 := bs "p7"]} toyLeader.
Definition learnerMsg : Msg := newMsg (E_addLearner 1 (Ok (bs "/ip4/10.0.0.7"))).

Lemma add_learner_is_self_witness :
  exists new, ncalls (handleShmEvent learnerMsg 0 signature stranger learnerNode).1 = [] ++ new /\
    Forall (learner_call (bs "p7")) new.
Proof. by apply (add_learner_is_self learnerMsg 0 1 signature (Ok (bs "/ip4/10.0.0.7")) stranger learnerNode). Defined.

(** * Channels *)

Definition pub1 : bytes := replicate 32 Byte.x01.
Definition idleStream (incoming : bytes) : stream := mkStream [] [] false (mkReader incoming None) (bs "10.0.0.2").
Definition idleSession : channelSession := newChannelSession (idleStream []) (bs "p1") pub1 (mkRing [] false []) 0.
Definition channelNode (s : channelSession) : node :=
  set_io (set_channels (register (bs "ch") s newChannelTable) quietIo) toyLeader.

Lemma toy_trusts : Trusts toy toy pub1.
Proof. by constructor. Qed.

Lemma ring_roundtrip_witness :
  let r' := (WriteChunk Byte.x01 (bs "ab") (mkRing [] false [])).1 in
  chunks_read (ringReader r') [(Byte.x01, bs "ab")] (mkReader [] (ended (ringReader r'))).
Proof.
  apply (ring_roundtrip [(Byte.x01, bs "ab")] (mkRing [] false [])); [done|].
  apply written_cons; [by vm_compute|by split|]. apply written_nil.
Defined.

Lemma ring_timeout_desync_witness :
  exists rest, ReadChunk (ringReader (WriteChunk Byte.x02 (bs "next")
      (WriteChunk Byte.x01 (bs "lost") (mkRing [] false [5%nat; 0%nat])).1).1) =
    Done (Byte.x01, take 4 (chunkHeader Byte.x02 (bs "next") ++ bs "next")) rest.
Proof.
  apply (ring_timeout_desync Byte.x01 Byte.x02 (bs "lost") (bs "next") 5 []); try done; try (by vm_compute); cbn; lia.
Defined.

(** Two chunks that arrive in three pieces. *)
Definition sentNode (c : byte * bytes) (n : node) : node := (dispatchChannelSend (bs "ch") c.1 c.2 n).1.
Definition sent1 : node := sentNode (Byte.x00, bs "one") (channelNode idleSession).
Definition sent2 : node := sentNode (Byte.x01, bs "two") sent1.
Definition sentBytes : bytes := match sessionAt (bs "ch") sent2 with Some s => outgoing (chStream s) | None => [] end.

Lemma toy_allow peer ip cost now q : (allow (@AllowN toy) peer ip cost now q).2 = true.
Proof. unfold allow, charge. cbn [AllowN toy]. by destruct (_ && _), (_ && _). Qed.

Lemma channel_delivery_witness :
  exists b' sb', arriveAll toy (bs "ch") [(5, take 3 sentBytes); (6, []); (7, drop 3 sentBytes)] (channelNode idleSession) = (b', Ret tt) /\
    sessionAt (bs "ch") b' = Some sb' /\ inboxOutcome toy [5; 6; 7] idleSession (channelQuota quietIo) [(Byte.x00, bs "one"); (Byte.x01, bs "two")] sb' /\
    inbox sb' = [mkChunk Byte.x00 (bs "one"); mkChunk Byte.x01 (bs "two")].
Proof.
  destruct (channel_delivery toy toy pub1 toy_trusts (bs "ch") (bs "ch") [(Byte.x00, bs "one"); (Byte.x01, bs "two")]
    [(5, take 3 sentBytes); (6, []); (7, drop 3 sentBytes)] (channelNode idleSession) sent2 (channelNode idleSession) idleSession
    (default idleSession (sessionAt (bs "ch") sent2)) idleSession) as (b' & sb' & E & Es & Hi).
  - by vm_compute.
  - apply (sends_cons _ _ _ _ (channelNode idleSession) sent1 sent2); [apply injective_projections; [reflexivity|by vm_compute]|].
    apply (sends_cons _ _ _ _ sent1 sent2 sent2); [apply injective_projections; [reflexivity|by vm_compute]|apply sends_nil].
  - by vm_compute.
  - by vm_compute.
  - by vm_compute.
  - by constructor.
  - by vm_compute.
  - exists b', sb'. split; [done|]. split; [done|]. split; [exact Hi|].
    destruct Hi as [(_ & _ & -> & _)|[_ _ (k & c & q & _ & _ & (now & _ & Hr) & _)]]; [by vm_compute|].
    exfalso. by rewrite toy_allow in Hr.
Defined.

Lemma channel_inbox_authentic_witness :
  exists s' cs, sessionAt (bs "ch") (channelArrive (bs "ch") sentBytes None (channelNode idleSession)).1 = Some s' /\
    inbox s' = latest ([] ++ cs) /\ Forall (authentic pub1) cs.
Proof.
  destruct (channel_inbox_authentic (bs "ch") sentBytes None (channelNode idleSession) idleSession) as (_ & s' & cs & H1 & _ & H2 & H3 & _);
    [by vm_compute..|]. exists s', cs. exact (conj H1 (conj H2 H3)).
Defined.

(** "p1", a member, opens a channel. *)
Definition memberWorld : world := mkWorld {[relation_key KindPeerGroup (bs "p1") ReservedGroupCluster := []]} None [].
Definition openBuf : bytes :=
  match Encode Canonicalize ed25519_sign Marshal (newMsg (E_channelOpen (Ok []) (Ok (bs "p1")))) (Some ed25519Priv) with
  | Ret b => b | _ => [] end.
Definition openStream : stream := idleStream (framePrefix openBuf ++ openBuf).
Definition openNode : node :=
  mkNode memberWorld ∅ (Some leaderRaft) [] [] [] [] [] [] [] [Some [Byte.xab]] 0
    (set_rings [Some (mkRing [] false [])] quietIo) [].
Definition openedSession : channelSession := default idleSession (sessionAt (bs "ab") (handleChannelStream openStream openNode).1).

Lemma channel_open_authorised_witness :
  chPeer openedSession = bs "p1" /\ authorised (committed memberWorld) (chPeer openedSession) ReservedGroupChannel.
Proof.
  split; [by vm_compute|].
  destruct (channel_open_authorised openStream openNode (bs "ab") openedSession) as (buf & rest & m & crc & sig & name & H);
    [by vm_compute..|apply H].
Defined.

(** An upload ring with two chunks, then a second one. *)
Definition uploadSession : channelSession := setUploadRing (mkReader [] None) idleSession.

Lemma toy_forwards : Forwards.
Proof. by constructor. Qed.

Lemma upload_forwards_witness :
  exists n' s', uploadArrive (bs "ch") 0 (ringBytes [(Byte.x00, bs "one"); (Byte.x01, bs "two")]) (Some io_EOF)
      (channelNode uploadSession) = (n', Ret tt) /\
    sessionAt (bs "ch") n' = Some s' /\ uploadDrained s' = true /\
    outgoing (chStream s') = wire [(Byte.x00, bs "one"); (Byte.x01, bs "two")].
Proof.
  destruct (upload_forwards toy_forwards (bs "ch") 0 [(Byte.x00, bs "one"); (Byte.x01, bs "two")] (channelNode uploadSession)
    uploadSession) as (n' & s' & H1 & H2 & H3 & _ & H4 & _).
  - by vm_compute.
  - by vm_compute.
  - by split.
  - by vm_compute.
  - by repeat apply Forall_cons_2; [vm_compute..|apply Forall_nil].
  - exists n', s'. exact (conj H1 (conj H2 (conj H3 H4))).
Defined.

Definition drainedSession : channelSession := set_uploads_of true [] true idleSession.
Definition readyNode : node :=
  set_io (set_uploads [Some (mkReader [] (Some io_EOF))] (nio (channelNode drainedSession))) toyLeader.

Lemma second_data_ready_panics_witness : (dispatchChannelDataReady (bs "ch") readyNode).2 = Panic.
Proof. by apply (second_data_ready_panics (bs "ch") readyNode drainedSession []). Defined.

(** * Reading another cluster's log *)

Definition logTable : table := {[execKey := bs "rec"]}.
Definition logBounds : bytes * bytes := ScanBounds CommandExecLogKind (bs "u1") 0 100.
Definition toyReply (lo : bytes) : bytes :=
  match Encode Canonicalize ed25519_sign Marshal (query logBounds.2 lo) (Some ed25519Priv) with
  | Ret buf => match (handleClientStream (Ret buf) (Some (Ret ed25519Pub)) (bs "p7") logNode).2 with Ret (Some r) => r | _ => [] end
  | _ => []
  end.
Definition queryNode : node :=
  set_net [Reply (toyReply logBounds.1) []; Reply (toyReply (execKey ++ [Byte.x00])) []] toyLeader.

Lemma toy_peers : Peers toy toy (fun _ => ed25519Pub).
Proof. constructor; try done. apply toy_unmarshal. Qed.

Lemma toy_answers lo :
  match Encode Canonicalize ed25519_sign Marshal (query logBounds.2 lo) (Some ed25519Priv) with
  | Ret buf => match (handleClientStream (Ret buf) (Some (Ret ed25519Pub)) (bs "p7") logNode).2 with Ret (Some r) => true | _ => false end
  | _ => false
  end = true -> answers toy toy (fun _ => ed25519Pub) logTable logBounds.2 (bs "p7") lo (toyReply lo).
Proof.
  unfold toyReply. destruct (Encode _ _ _ _ _) as [buf| |] eqn:E; [|done..].
  destruct ((handleClientStream _ _ _ _).2) as [[r|]| |] eqn:Eh; [|done..]. intros _.
  exists logNode, buf. split; [by constructor|]. split; [reflexivity|]. split; [exact E|exact Eh].
Qed.

Lemma remote_log_paging_witness :
  (queryPages 3 (bs "n1") logBounds.1 logBounds.2 0 [] queryNode).2 = Ret [toyRecord (bs "rec")].
Proof.
  apply (remote_log_paging toy toy (fun _ => ed25519Pub) toy_peers logTable (bs "p7") (bs "n1") (bs "u1") 0 100 0
    [toyRecord (bs "rec")] queryNode).
  - apply (served_row toy toy _ logTable logBounds.2 (bs "p7") logBounds.1 execKey (bs "rec") [] (toyReply logBounds.1));
      [by vm_compute|apply toy_answers; by vm_compute|].
    apply (served_end toy toy _ logTable logBounds.2 (bs "p7") (execKey ++ [Byte.x00]) (toyReply (execKey ++ [Byte.x00])) []);
      [by vm_compute|apply toy_answers; by vm_compute].
  - change (select _ _) with (select (in_range logBounds.1 logBounds.2) logTable).
    replace (select (in_range logBounds.1 logBounds.2) logTable) with [(execKey, bs "rec")] by (by vm_compute).
    by repeat constructor.
Defined.

(** * The local transport *)

#[local] Instance toy_wire : WireCodec.
Proof. constructor. apply toy_unmarshal. Qed.

(** A handler that answers with the request, and two calls: one of a message the
    operator signs, one of bytes signed before. *)
Definition echo : Handler := fun m _ _ => mret (mkMsg (Id m) 0 (Ok []) (Body m)).
Definition leaveMsg4 : Msg := mkMsg 4 0 (Ok []) E_leave.
Definition rawBuf : bytes :=
  match Encode Canonicalize ed25519_sign Marshal leaveMsg4 (Some ed25519Priv) with Ret b => b | _ => [] end.
Definition twoCalls : list turn :=
  undisturbed leaveMsg (Some ed25519Priv) ++
  [BeginRaw rawBuf; CallerWrite; ServerOpen; CallerFinish; ServerRead; ServerHandle; ServerCreate; CallerOpen; ServerWrite;
   ServerFinish; ServerOpen; ServerRead; CallerRead].
Definition afterTwo : system := match ipcRun echo twoCalls (start toyLeader) with Some st => st | None => start toyLeader end.

Lemma afterTwo_run : ipcRun echo twoCalls (start toyLeader) = Some afterTwo.
Proof. unfold afterTwo. destruct (ipcRun _ _ _) eqn:E; [done|]. by vm_compute in E. Qed.

Lemma ipc_calls_atomic_witness :
  map (fun o => Id o.1) (outcomes afterTwo) = [3; 4] /\
  (forall m resp, (m, Ret resp) ∈ outcomes afterTwo -> exists c, c ∈ served afterTwo /\ same m (sReq c) /\ same (sResp c) resp) /\
  map (fun c => Id (sReq c)) (served afterTwo) `sublist_of` map (fun c => Id c.2) (issued afterTwo) /\
  NoDup (map (fun c => Id (sReq c)) (served afterTwo)) /\
  ran echo toyLeader (served afterTwo) (theNode afterTwo).
Proof.
  split; [by vm_compute|]. apply (ipc_calls_atomic toy_wire echo toyLeader twoCalls); [exact afterTwo_run|].
  by apply (bool_decide_unpack _); vm_compute.
Defined.

Lemma ipc_call_completes_witness :
  exists st' c resp', ipcRun echo (undisturbed leaveMsg (Some ed25519Priv)) (start toyLeader) = Some st' /\ idle st' /\
    theNode st' = toyLeader /\ served st' = [c] /\ same leaveMsg (sReq c) /\
    outcomes st' = [(leaveMsg, Ret resp')] /\ Body resp' = E_leave.
Proof.
  apply (ipc_call_completes toy_wire echo leaveMsg (Some ed25519Priv) (start toyLeader) leaveBuf toyLeader leaveMsg leaveBuf);
    [by split|done|by vm_compute| |by vm_compute].
  intros m' crc sig E. vm_compute in E. injection E as <- <- <-. reflexivity.
Defined.

Lemma ipc_id_reuse_loses_request_witness :
  exists st' c resp',
    ipcRun echo (undisturbed leaveMsg (Some ed25519Priv) ++
      [BeginCall leaveMsg (Some ed25519Priv); CallerWrite; CallerFinish; CallerOpen; CallerRead]) (start toyLeader) = Some st' /\
    served st' = [c] /\ same leaveMsg (sReq c) /\ theNode st' = toyLeader /\
    outcomes st' = [(leaveMsg, Ret resp'); (leaveMsg, Ret resp')].
Proof.
  apply (ipc_id_reuse_loses_request toy_wire echo leaveMsg leaveMsg (Some ed25519Priv) (start toyLeader) leaveBuf leaveBuf toyLeader
    leaveMsg leaveBuf); [by split|done|done|by vm_compute|by vm_compute| |by vm_compute].
  intros m' crc sig E. vm_compute in E. injection E as <- <- <-. reflexivity.
Defined.

#[local] Instance toy_keys : NodeKeys (fun _ => ed25519Pub).
Proof. by constructor. Qed.

Definition encoded (m : Msg) : bytes :=
  match Encode Canonicalize ed25519_sign Marshal m (Some ed25519Priv) with Ret b => b | _ => [] end.

Lemma operator_write_then_read_witness :
  let m1 := mkMsg 5 0 (Ok []) (E_set (Ok (bs "k")) (Ok (bs "v"))) in
  let m2 := mkMsg 6 0 (Ok []) (E_getFieldByKey (Ok (bs "k")) (Ok [])) in
  exists st' c1 c2 r1 r2,
    ipcRun localHandler (undisturbed m1 (Some ed25519Priv) ++ undisturbed m2 (Some ed25519Priv)) (start toyLeader) = Some st' /\ idle st' /\
    served st' = [c1; c2] /\ outcomes st' = [(m1, Ret r1); (m2, Ret r2)] /\
    Body r1 = E_set (Ok (bs "k")) (Ok (bs "v")) /\ Body r2 = E_getFieldByKey (Ok (bs "k")) (Ok (bs "v")) /\
    committed (nstore (theNode st')) = <[bs "k" := bs "v"]> toyTable.
Proof.
  intros m1 m2. apply (operator_write_then_read (fun _ => ed25519Pub) toy_wire toy_keys m1 m2 (bs "k") (bs "v") (encoded m1) (encoded m2)
    (encoded (mkMsg 6 0 (Ok []) (E_getFieldByKey (Ok (bs "k")) (Ok (bs "v"))))) (Ok []) (start toyLeader) 1 1 []);
    try (by vm_compute).
  intros b r [= <- <-]. by split.
Defined.

(** * The client library *)

Definition toySession : Client.Session := mkSession (bs "n0") ed25519Priv.
Definition toyClient (n : node) : client := mkClient n true None [Some 7; Some 0; Some 8] [].

Lemma toy_ready n : ready toySession (toyClient n).
Proof. by repeat constructor. Qed.

Lemma toyFrame_ok tag id crc fs :
  0 <= id < 2 ^ 16 -> 0 <= crc < 2 ^ 32 -> Forall (fun f => blen f < 2 ^ 16) fs -> exists b, toyFrame tag id crc fs = Ret b.
Proof. intros. unfold toyFrame. rewrite bool_decide_true by done. eauto. Qed.

(** What the toy format can hold it can hold under any id. *)
Lemma toy_encodable e :
  (forall id crc, 0 <= id < 2 ^ 16 -> 0 <= crc < 2 ^ 32 -> exists b, toyMarshal (mkMsg id crc (Ok (replicate 64 Byte.x00)) e) = Ret b) ->
  encodable e.
Proof.
  intros Ht id Hid. destruct (Ht id (crc32_ieee (be_bytes 2 id ++ be_bytes 4 0)) Hid) as [b E]; [apply crc32_range|].
  exists b. exact E.
Qed.

Lemma toy_list_encodable lo hi k v :
  blen lo < 2 ^ 16 -> blen hi < 2 ^ 16 -> blen k < 2 ^ 16 -> blen v < 2 ^ 16 -> encodable (E_listRange (Ok lo) (Ok hi) (Ok k) (Ok v)).
Proof. intros. apply toy_encodable. intros id crc Hi Hc. apply toyFrame_ok; [done..|]. by repeat constructor. Qed.

Definition scanTable : table := list_to_map [(bs "a", bs "1"); (bs "b", bs "2"); (bs "c", bs "3")].
Definition scanNode : node := nodeWith (mkWorld scanTable None []) leaderRaft [] [].

(** The pages of a small table fit. *)
Lemma toy_pages (t : table) start stop :
  Forall (fun r : row => blen r.1 < 100 /\ blen r.2 < 100) (rows t) -> blen start < 200 -> blen stop < 200 -> pagesFit t start stop.
Proof.
  intros Hr Hst Hsp. assert (forall lo hi k v, (k, v) ∈ select (in_range lo hi) t -> blen k < 100 /\ blen v < 100) as Hs.
  { intros lo hi k v [_ Hin]%list_elem_of_filter. rewrite Forall_forall in Hr. exact (Hr (k, v) Hin). }
  intros lo Hlo. assert (blen lo < 200) as Hl.
  { destruct Hlo as [->|(k & v & Hk%Hs & ->)]; [done|]. rewrite blen_app. change (blen [Byte.x00]) with 1. lia. }
  assert (blen (@nil byte) = 0) as Hn by done.
  split; [apply toy_list_encodable; lia|]. unfold page. destruct (select (in_range lo stop) t) as [|[k v] rest] eqn:E; [apply toy_list_encodable; lia|].
  destruct (Hs lo stop k v) as [? ?]; [rewrite E; by left|]. apply toy_list_encodable; lia.
Qed.

Lemma scan_pages : pagesFit scanTable (bs "a") (bs "z").
Proof. apply toy_pages; [evaluate|done|done]. Qed.

Lemma scan_range_window_witness :
  exists c', Session_ScanRange toySession (bs "a") (bs "z") 2 1 (bs "desc") (toyClient scanNode) = (c', Ret [(bs "b", bs "2"); (bs "a", bs "1")]) /\
    scanning toySession scanTable c'.
Proof.
  apply (scan_range_window (fun _ => ed25519Pub) toy_wire toy_keys toySession scanTable (bs "a") (bs "z") (bs "desc") 2 1 true (toyClient scanNode));
    [constructor; [apply toy_ready|by vm_compute|done]|exact scan_pages|done|lia|lia|done].
Defined.

Definition swapMsg : Msg :=
  newMsg (E_txn (Ok [mkTxnOpMsg TxnOpCompareAbsent (Ok (bs "k")) (Ok []); mkTxnOpMsg TxnOpSet (Ok (bs "k")) (Ok (bs "v"))])).

Lemma compare_and_swap_swaps_witness :
  exists c', Session_CompareAndSwap toySession (bs "k") [] (bs "v") true (toyClient toyLeader) = (c', Ret true) /\
    committed (nstore (cnode c')) = <[bs "k" := bs "v"]> toyTable.
Proof.
  apply (compare_and_swap_swaps (fun _ => ed25519Pub) toy_wire toy_keys toySession (bs "k") [] (bs "v") true swapMsg (toyClient toyLeader) 1 1 []);
    [apply toy_ready|constructor; by vm_compute| |done|done|done|done|done| |].
  - intros b r [= <- <-]. by split.
  - apply toy_encodable. intros id crc Hi Hc. apply toyFrame_ok; [done..|]. by repeat constructor.
  - intros e He. cbn [Error toy]. rewrite He. split; [|done].
    apply toy_encodable. intros id crc Hi Hc. apply toyFrame_ok; [done..|]. by repeat constructor.
Defined.

Definition twoMessages : list (Msg * option bytes) :=
  [(mkMsg 5 0 (Ok []) (E_set (Ok (bs "k")) (Ok (bs "v"))), Some ed25519Priv);
   (mkMsg 6 0 (Ok []) (E_getFieldByKey (Ok (bs "k")) (Ok [])), Some ed25519Priv)].

Definition afterCalls : client * list Msg :=
  match calls twoMessages (toyClient toyLeader) with (c, Ret l) => (c, l) | (c, _) => (c, []) end.

Lemma afterCalls_run : calls twoMessages (toyClient toyLeader) = (afterCalls.1, Ret afterCalls.2).
Proof. unfold afterCalls. destruct (calls _ _) as [c [l| |]] eqn:E; [done|by vm_compute in E..]. Qed.

Lemma transport_implements_calls_witness :
  exists st', ipcRun localHandler (concat (map (fun p => undisturbed p.1 p.2) twoMessages)) (start toyLeader) = Some st' /\ idle st' /\
    theNode st' = cnode afterCalls.1 /\ outcomes st' = zip_with (fun p resp => (p.1, Ret resp)) twoMessages afterCalls.2.
Proof.
  apply (transport_implements_calls toy_wire twoMessages (toyClient toyLeader) afterCalls.1 afterCalls.2 (start toyLeader));
    [by split|done|done|done|by vm_compute|exact afterCalls_run].
Defined.
