(* ===== verification/CronWitnesses.v ===== *)
(** Concrete runs of the scheduler: its properties on an hourly backup, two schedulers
    and a cluster of one member. *)

From S2P Require Import Prelude Store StoreLogic Snapshot SystemKeys Payloads LogRecord Txn Fsm FsmSpec FsmProps FsmInvariants FsmOps Events Stream Quota Session Node Acl Forward Dial Join Execute Remote Channel Handler HandlerProps NodeInvariants NodeSafety ForwardProps JoinProps ReadProps ExecuteProps ChannelProps RemoteProps Ipc IpcProps IpcNode Client ClientProps Witnesses Calendar Cron CronParse CronProps Scheduler SchedulerProps SchedulerRun CronStore.
#[local] Open Scope Z_scope.

(** * Expressions *)

(** [*/15,7 9-17 1 * 01-05/2] *)
Definition officeHours : expression :=
  Expr (Term Star (Some (Num 2 15)), [Term (Single (Num 1 7)) None])
       (Term (Between (Num 1 9) (Num 2 17)) None, [])
       (Term (Single (Num 1 1)) None, [])
       (Term Star None, [])
       (Term (Between (Num 2 1) (Num 2 5)) (Some (Num 1 2)), []).

Lemma parse_spec_meaning_witness :
  showExpr officeHours = bs "*/15,7 9-17 1 * 01-05/2" /\
  exists s, ParseSpec (showExpr officeHours) = Ret s /\ specText s = showExpr officeHours /\ forall t, Match s t = means officeHours t.
Proof.
  split; [reflexivity|]. apply (parse_spec_meaning officeHours). unfold exprOk, fieldOk, termOk, numberOk. cbn.
  repeat first [apply Forall_cons | apply Forall_nil | split | exact I]; (lia || (cbn; lia) || (vm_compute; discriminate)).
Defined.

(** * Schedules *)

Definition backup : Schedule := mkSchedule (bs "backup") (bs "0 * * * *") (bs "run-backup") [] [] false [].

(** Half past five hours ahead of UTC. *)
Definition kolkata : Location := mkLocation (fun _ => (19800, - 2 ^ 63, 2 ^ 63 - 1)).

Lemma kolkata_steady : steady kolkata 330.
Proof. done. Qed.

(** One record, whose text names it, and one zone. *)
#[export] Instance toyCron : CronEnv := {|
  LoadLocation l := if bytes_eqb l (bs "Asia/Kolkata") then Ret kolkata else Fail (Errorf "unknown time zone");
  json_schedule s := Ret (ScheduleID s);
  json_unschedule v := if bytes_eqb v (bs "backup") then Ret backup else Fail (Errorf "json");
  json_fire f := Ret (FireSchedule f ++ formatMinute (At f) ++ InstanceID f);
  json_unfire _ := None;
|}.

Lemma toyZones : SteadyZones.
Proof. split. intros name loc. cbn. destruct (bytes_eqb name _); [|done]. intros [= <-]. exists 330. apply kolkata_steady. Qed.

Lemma toyFires : FireCodec.
Proof. split. intros f _. by eexists. Qed.

Definition toyScheduler : Scheduler := mkScheduler [] 0 0 0 0 false.

(** Ten past two; the last pass was at half past one. *)
Definition tenPastTwo : Z := tDate 2024 3 1 2 10 0.
Definition two : Z := tDate 2024 3 1 2 0 0.
Definition cronTable : table :=
  <[bs "cron/schedule/backup" := bs "backup"]> (<[bs "cron/watermark/backup" := bs "2024-03-01T01:30:00Z"]> ∅).
Definition cronWorld : SchedulerProps.world := SchedulerProps.mkWorld cronTable tenPastTwo [].
Definition toyInstance (s : Schedule) (fire : Z) : bytes := bs "i1".

Definition tickOnce (w : SchedulerProps.world) : SchedulerProps.world * gores Z :=
  default (w, Panic) (run toyInstance (Tick toyScheduler zeroTime) w).
Definition afterTick : SchedulerProps.world := (tickOnce cronWorld).1.

Lemma in_years t : 0 <= tYear t <= 9999 -> fourDigits t.
Proof. done. Qed.


(** Both schedulers tick; the second finds the fire claimed. *)
Definition afterTwo : SchedulerProps.world := (tickOnce afterTick).1.

Lemma fires_at_most_once_witness :
  exists pool, rtc (step (bs "cron/") Hour Minute Minute) (cronWorld, [SchedulerProps.start toyScheduler; SchedulerProps.start toyScheduler]) (afterTwo, pool) /\
    map (fun e => (ScheduleID e.1, e.2)) (SchedulerProps.submissions afterTwo) = [(bs "backup", two)] /\
    NoDup (map (fun e => (ScheduleID e.1, e.2)) (SchedulerProps.submissions afterTwo)).
Proof.
  assert (fourDigits (tenPastTwo - Hour) /\ fourDigits tenPastTwo) as [Hy Hy'] by (split; apply in_years; vm_compute; split; discriminate).
  pose proof (task_steps toyInstance (bs "cron/") Hour Minute Minute DoTick [] (SchedulerProps.start toyScheduler) [SchedulerProps.start toyScheduler] cronWorld
    afterTick (tickOnce cronWorld).2 ltac:(done) ltac:(done) Hy Hy' eq_refl ltac:(vm_compute; reflexivity)) as H1.
  assert (clock afterTick = tenPastTwo) as Hc by (vm_compute; reflexivity).
  set (first := finish _ _) in H1.
  pose proof (task_steps toyInstance (bs "cron/") Hour Minute Minute DoTick [first] (SchedulerProps.start toyScheduler) [] afterTick
    afterTwo (tickOnce afterTick).2 ltac:(done) ltac:(done) ltac:(by rewrite Hc) ltac:(by rewrite Hc) eq_refl ltac:(vm_compute; reflexivity)) as H2.
  clearbody first. set (second := finish _ _) in H2. clearbody second. cbn [app] in H1, H2.
  pose proof (rtc_trans _ _ _ H1 H2) as H12. clear H1 H2.
  assert (forall th, th ∈ [SchedulerProps.start toyScheduler; SchedulerProps.start toyScheduler] ->
    exists c, agreed (bs "cron/") Hour c /\ th = SchedulerProps.start c) as Hpool.
  { intros th Hth. exists toyScheduler. split; [split; [reflexivity|split; reflexivity]|]. apply elem_of_cons in Hth as [->|Hth]; [reflexivity|]. apply list_elem_of_singleton in Hth as ->. reflexivity. }
  exists [first; second]. split; [exact H12|]. split; [vm_compute; reflexivity|].
  exact (fires_at_most_once (H0 := toyZones) (bs "cron/") Hour Minute Minute cronWorld afterTwo _ [first; second]
    ltac:(split; reflexivity) ltac:(discriminate) eq_refl Hpool H12).
Defined.

(** The first minute of an hour in Kolkata after two in UTC is at half past. *)
Definition hourly : Spec := Eval vm_compute in match ParseSpec (bs "0 * * * *") with Ret s => s | _ => mkSpec [] 0 0 0 0 0 false false end.

Lemma next_is_first_match_witness :
  Next kolkata hourly two = Some (Some (two + 30 * Minute)) /\ Match hourly (wall kolkata (two + 30 * Minute)) = true /\
  forall r', aligned r' -> two < r' < two + 30 * Minute -> Match hourly (wall kolkata r') = false.
Proof.
  pose proof (proj2 (next_is_first_match hourly kolkata two) 330 kolkata_steady) as H. revert H.
  assert (Next kolkata hourly two = Some (Some (two + 30 * Minute))) as -> by (vm_compute; reflexivity).
  intros (_ & _ & Hm & Hr). split; [reflexivity|]. exact (conj Hm Hr).
Defined.

(** * The store on a node *)

#[local] Existing Instance toy.

Definition claimMsg : Msg :=
  newMsg (E_txn (Ok [mkTxnOpMsg TxnOpCompareAbsent (Ok (bs "cron/claim/x")) (Ok []); mkTxnOpMsg TxnOpSet (Ok (bs "cron/claim/x")) (Ok (bs "v"))])).

Lemma node_store_refines_memory_witness :
  exists c' r, node_Claim (bs "cron/claim/x") (bs "v") (Session_ toySession) (toyClient toyLeader) = (Session_ toySession, c', r) /\
    memory_Claim None (bs "cron/claim/x") (bs "v") (committed (nstore (cnode (toyClient toyLeader)))) = (committed (nstore (cnode c')), r).
Proof.
  apply (node_store_refines_memory (fun _ => ed25519Pub) toy_wire toy_keys toySession (toyClient toyLeader) 1 1 [] (OClaim (bs "cron/claim/x") (bs "v")));
    [apply toy_ready|constructor; by vm_compute| |reflexivity|reflexivity].
  split; [intros b r [= <- <-]; by split|]. split; [done|]. split; [done|]. split; [done|]. split.
  - exists claimMsg. split; [reflexivity|]. apply toy_encodable. intros id crc Hi Hc. apply toyFrame_ok; [done..|]. by repeat constructor.
  - intros e He. cbn [Error toy]. rewrite He. split; [|done].
    apply toy_encodable. intros id crc Hi Hc. apply toyFrame_ok; [done..|]. by repeat constructor.
Defined.
