(* ===== verification/Kvctl.v ===== *)
(** The operator's side (src/pkg/kvctl): the commands on the node that is currently
    selected in the machine's registry, each over the client library.  Starting
    and stopping node processes, backups and channels are not part of it. *)

From S2P Require Import Prelude Store StoreLogic SystemKeys Payloads LogRecord Txn Hex Fsm Events Stream Quota Session Node Acl Forward Dial Join Execute Remote Channel Handler Ipc IpcNode Calendar Cron Files Registry Client.
#[local] Open Scope Z_scope.

(** * The operator's process *)

(** What it prints and reports, and the commands its handler was run for. *)
Record CommandRequest : Type := mkRequest {
  RequestInstanceID : bytes;
  RequestCommandID : bytes;
  RequestedBy : bytes;
  RequestInputs : bytes;
  RequestedAt : Z;
}.

Inductive kevent : Type :=
| Printed (text : bytes)
| Reported (err : error)
| HandlerRun (req : CommandRequest).

(** The machine's disk, the node's side of the calls, the clock and how far it moves
    between readings, the random source ([None]: it fails), and the events. *)
Record kctl : Type := mkKctl {
  kdisk : disk;
  kclient : client;
  kclock : Z;
  kticks : list Z;
  krandom : list (option bytes);
  kevents : list kevent;
}.

Definition K (A : Type) : Type := kctl -> kctl * gores A.
#[global] Instance K_ret : MRet K := fun A a k => (k, Ret a).
#[global] Instance K_bind : MBind K := fun A B f m k =>
  match m k with
  | (k', Ret a) => f a k'
  | (k', Fail e) => (k', Fail e)
  | (k', Panic) => (k', Panic)
  end.

Definition liftK {A} (r : gores A) : K A := fun k => (k, r).
Definition wrapK {A} (fmt : String.string) (m : K A) : K A := fun k => match m k with (k', r) => (k', wrap_err fmt r) end.
Arguments wrapK {A} fmt%_string_scope m.

(** Any result of the first goes to the second. *)
Definition tryK {A B} (m : K A) (f : gores A -> K B) : K B := fun k => match m k with (k', r) => f r k' end.

(** File operations as they succeed. *)
Definition onDisk {A} (p : F A) : K A := fun k =>
  let '(r, d) := frun p (kdisk k) in (mkKctl d (kclient k) (kclock k) (kticks k) (krandom k) (kevents k), r).

Definition onClient {A} (m : C A) : K A := fun k =>
  let '(c, r) := m (kclient k) in (mkKctl (kdisk k) c (kclock k) (kticks k) (krandom k) (kevents k), r).

(** [time.Now] *)
Definition Now : K Z := fun k =>
  match kticks k with
  | [] => (k, Ret (kclock k))
  | t :: ts => (mkKctl (kdisk k) (kclient k) (kclock k + t) ts (krandom k) (kevents k), Ret (kclock k))
  end.

(** [rand.Read] of [n] bytes *)
Definition randRead (n : Z) : K bytes := fun k =>
  match krandom k with
  | [] => (k, Ret (replicate (Z.to_nat n) Byte.x00))
  | r :: rs =>
    (mkKctl (kdisk k) (kclient k) (kclock k) (kticks k) rs (kevents k),
     match r with
     | Some b => Ret (take (Z.to_nat n) (b ++ replicate (Z.to_nat n) Byte.x00))
     | None => Fail ErrIO
     end)
  end.

Definition emit (e : kevent) : K unit := fun k =>
  (mkKctl (kdisk k) (kclient k) (kclock k) (kticks k) (krandom k) (kevents k ++ [e]), Ret tt).

(** ** Maps of strings *)

Fixpoint fieldAt (fields : list (bytes * bytes)) (name : bytes) : bytes :=
  match fields with
  | [] => []
  | (k, v) :: fields' => if bytes_eqb k name then v else fieldAt fields' name
  end.
Definition setField (name value : bytes) (fields : list (bytes * bytes)) : list (bytes * bytes) :=
  (name, value) :: filter (fun f => f.1 <> name) fields.

(** JSON of the notifications and of a relay node's metadata, and whether a process id
    is alive. *)
Class KvctlEnv : Type := {
  json_note : bytes -> bytes -> bytes -> gores bytes;
  json_bootstrap : bytes -> byte -> bytes;
  isAlive : Z -> bool;
}.

Section Kvctl.
Context `{Env} `{OtherTag} `{RegistryEnv} `{KvctlEnv}.

(** * The selected node *)

Definition currentPeer : K bytes := onDisk (dir ← Registry.Open; Registry.Current dir).

Definition openCurrentSession : K (Session * bytes) :=
  peerID ← currentPeer;
  sess ← wrapK "kvctl: open session: %w" (onClient (Client.Open peerID));
  mret (sess, peerID).

Definition Use (peerID : bytes) : K unit :=
  onDisk (dir ← Registry.Open;
          info ← Registry.Get dir peerID;
          match info with
          | None => liftF (Fail (Errorf "use: unknown peer id %s (not created on this machine)"))
          | Some _ => Registry.SetCurrent dir peerID
          end).

Definition AccessToken (peerID : bytes) : K bytes := onDisk (dir ← Registry.Open; Registry.AccessToken dir peerID).

(** ** Keys and values (kvctl.go, range_scan.go) *)

(** A one-shot call on the selected node *)
Definition onCurrent {A} (fmt : String.string) (f : bytes -> C A) : K A :=
  peerID ← currentPeer;
  wrapK fmt (onClient (f peerID)).
#[local] Arguments onCurrent {A} fmt%_string_scope f.

Definition Set_ (key value : bytes) : K unit := onCurrent "set: %w" (fun p => Client.Set_ p key value).
Definition GetFrom (peerID key : bytes) : K bytes := wrapK "get: %w" (onClient (Client.Get peerID key)).
Definition Get (key : bytes) : K bytes := peerID ← currentPeer; GetFrom peerID key.

Definition CompareAndSwap (key expected value : bytes) (absent : bool) : K unit :=
  swapped ← onCurrent "compare and swap: %w" (fun p => Client.CompareAndSwap p key expected value absent);
  emit (Printed (if (swapped : bool) then bs "swapped " ++ key ++ [Byte.x0a]
                 else if absent then bs "not swapped: " ++ key ++ bs " already exists" ++ [Byte.x0a]
                 else bs "not swapped: " ++ key ++ bs " no longer holds the expected value" ++ [Byte.x0a])).

Definition Txn_ (ops : bytes) : K unit :=
  parsed ← liftK (ParseTxnOpsString ops);
  onCurrent "txn: %w" (fun p => Client.Txn_ p parsed).

Definition RequestPermit (kind : byte) (target metadata : bytes) : K unit :=
  onCurrent "request permit: %w" (fun p => Client.RequestPermit p kind target metadata).
Definition RevokePermit (kind : byte) (target : bytes) : K unit :=
  onCurrent "revoke permit: %w" (fun p => Client.RevokePermit p kind target).
Definition Execute (destPeerID value : bytes) : K unit := onCurrent "execute: %w" (fun p => Client.Execute_ p destPeerID value).
Definition PollExecute : K (option (bytes * bytes)) := onCurrent "poll execute: %w" (fun p => Client.PollExecute p).

Definition RangeScanFrom (peerID start stop : bytes) (limit skip : Z) (order : bytes) : K (list (bytes * bytes)) :=
  wrapK "rangescan: %w" (onClient (s ← Client.Open peerID; Session_ScanRange s start stop limit skip order)).
Definition RangeScan (start stop : bytes) (limit skip : Z) (order : bytes) : K (list (bytes * bytes)) :=
  peerID ← currentPeer;
  RangeScanFrom peerID start stop limit skip order.

(** ** Ranges, one pair after the other *)

(** The loop every listing has: the next pair, what to do with it, and on from the key
    after it until there is none or the body is done. *)
Fixpoint eachPair {A} (fuel : nat) (next : bytes -> K (option (bytes * bytes))) (body : A -> bytes -> bytes -> K (A * bool)) (lo : bytes) (a : A) : K A :=
  match fuel with
  | O => liftK (Fail (Errorf "fuel"))
  | S fuel' =>
    r ← next lo;
    match r with
    | None => mret a
    | Some (key, value) =>
      '(a, enough) ← body a key value;
      if (enough : bool) then mret a else eachPair fuel' next body (key ++ [Byte.x00]) a
    end
  end.

(** As many turns as the node has rows, and one. *)
Definition eachRow {A} (next : bytes -> K (option (bytes * bytes))) (body : A -> bytes -> bytes -> K (A * bool)) (lo : bytes) (a : A) : K A :=
  fun k => eachPair (scanFuel (kclient k)) next body lo a k.

Definition nextOf (fmt : String.string) (s : Session) (hi lo : bytes) : K (option (bytes * bytes)) :=
  wrapK fmt (onClient (Session_ListRange s lo hi)).
#[local] Arguments nextOf fmt%_string_scope s hi lo.

(** A body that only looks at the pair *)
Definition look {A} (f : A -> bytes -> bytes -> gores A) (a : A) (key value : bytes) : K (A * bool) :=
  a ← liftK (f a key value); mret (a, false).

(** ** The members of a cluster (cluster_list.go) *)

Record ClusterMember : Type := mkClusterMember {
  memberPeerID : bytes;
  memberRole : bytes;
}.

Definition systemKeyIDOffset : Z := 3.

Definition member (members : list ClusterMember) (key value : bytes) : gores (list ClusterMember) :=
  if blen key <? 3 then Fail (Errorf "listnodes: malformed cluster-member key %x") else
  peerID ← slice_from key 3;
  '(_, role) ← wrap_err "listnodes: decode member record for %s: %w" (DecodeClusterMemberPayload value);
  Ret (members ++ [mkClusterMember peerID (RoleName role)]).

(** Every turn opens a session of its own. *)
Definition ListClusterMembers (localPeerID : bytes) : K (list ClusterMember) :=
  info ← onDisk (dir ← Registry.Open; Registry.Get dir localPeerID);
  match info with
  | None => liftK (Fail (Errorf "listnodes: unknown peer id %s (not created on this machine)"))
  | Some info =>
    if (PID info =? 0) || negb (isAlive (PID info))
    then liftK (Fail (Errorf "listnodes: node %s does not appear to be running; start it first")) else
    let '(lo, hi) := ClusterMemberKeyBounds in
    members ← eachRow (fun lo => wrapK "listnodes: %w" (onClient (Client.ListRange localPeerID lo hi))) (look member) lo [];
    mret (merge_sort (fun a b => bytes_le (memberPeerID a) (memberPeerID b)) members)
  end.

Definition voterCountWarning (localPeerID : bytes) : K bytes :=
  tryK (ListClusterMembers localPeerID) (fun r =>
    match r with
    | Ret members =>
      let voters := filter (fun m => memberRole m = bs "leader" \/ memberRole m = bs "voter") members in
      mret (if negb (blen voters =? 2) then []
            else bs "warning: this cluster now has exactly 2 voters -- zero fault tolerance, losing either one loses quorum immediately (mage kick can't help, it needs quorum too; see cmd/kvrecover for offline recovery if that happens). Prefer 3+ voters." ++ [Byte.x0a])
    | Fail _ => mret []
    | Panic => liftK Panic
    end).

Definition ConfirmPermit (kind : byte) (target : bytes) : K unit :=
  peerID ← currentPeer;
  _ ← wrapK "confirm permit: %w" (onClient (Client.ConfirmPermit peerID kind target));
  if byte_eqb kind KindClusterJoin then warning ← voterCountWarning peerID; emit (Printed warning) else mret tt.

(** ** Records of the log (kvctl.go, catalog.go) *)

Definition newRand : K bytes := randRead (Z.of_nat RandSize).

(** What is written: the key and the record *)
Definition recordAt (kind unitID author : bytes) (fields : list (bytes * bytes)) (narrative : bytes) : K (bytes * bytes) :=
  rnd ← newRand;
  ts ← Now;
  key ← liftK (BuildKey kind unitID ts rnd);
  value ← liftK (json_record (mkRecord kind unitID ts author fields narrative));
  mret (key, value).

Definition appendRecord (s : Session) (kind unitID authorPeerID : bytes) (fields : list (bytes * bytes)) (narrative : bytes) : K unit :=
  wrapK "kvctl: %w" (
    '(key, value) ← recordAt kind unitID authorPeerID fields narrative;
    onClient (Session_LogAppend s key value)).

Definition LogAppend (kind unitID : bytes) (fields : list (bytes * bytes)) (narrative : bytes) : K unit :=
  peerID ← currentPeer;
  wrapK "log append: %w" (
    '(key, value) ← recordAt kind unitID peerID fields narrative;
    onClient (Client.LogAppend peerID key value)).

(** At most [limit] records, if it is positive *)
Definition collect (limit : Z) (records : list LogRecord) (_ value : bytes) : K (list LogRecord * bool) :=
  rec ← liftK (wrap_err "log query: decode record: %w" (json_unrecord value));
  let records := records ++ [rec] in
  mret (records, (0 <? limit) && (limit <=? blen records)).

Definition LogQuery (kind unitID : bytes) (start stop limit : Z) : K (list LogRecord) :=
  peerID ← currentPeer;
  s ← wrapK "log query: %w" (onClient (Client.Open peerID));
  let '(lo, hi) := ScanBounds kind unitID start stop in
  eachRow (nextOf "log query: %w" s hi) (collect limit) lo [].

(** The revisions of one unit: the last one, and the time and the author of the first *)
Record revisionHistory : Type := mkHistory {
  latest : LogRecord;
  createdAt : Z;
  createdBy : bytes;
}.

Definition revise (h : option revisionHistory) (_ value : bytes) : gores (option revisionHistory) :=
  rec ← json_unrecord value;
  Ret (Some (match h with
             | None => mkHistory rec (Timestamp rec) (AuthorPeerID rec)
             | Some h => mkHistory rec (createdAt h) (createdBy h)
             end)).

(** [None]: not found *)
Definition scanRevisions (s : Session) (kind unitID : bytes) : K (option revisionHistory) :=
  now ← Now;
  let '(lo, hi) := ScanBounds kind unitID 0 now in
  eachRow (fun lo => onClient (Session_ListRange s lo hi)) (look revise) lo None.

Definition maxCatalogIDLen : Z := 256.

Definition kindPrefixBounds (kind : bytes) : bytes * bytes :=
  let prefix := KindPrefix kind in
  (prefix, prefix ++ pad_ff (Z.to_nat (2 + maxCatalogIDLen + 8 + 8))).

Definition unitOf (ids : list bytes) (key _ : bytes) : gores (list bytes) :=
  '(_, unitID, _) ← ParseKey key;
  Ret (if bool_decide (unitID ∈ ids) then ids else ids ++ [unitID]).

Definition listUnitIDs (s : Session) (kind : bytes) : K (list bytes) :=
  let '(lo, hi) := kindPrefixBounds kind in
  eachRow (fun lo => onClient (Session_ListRange s lo hi)) (look unitOf) lo [].

(** ** The catalog (catalog.go) *)

Definition validateCatalogID (id : bytes) : gores unit :=
  if bytes_eqb id [] then Fail (Errorf "kvctl: id must not be empty") else
  if maxCatalogIDLen <? blen id then Fail (Errorf "kvctl: id exceeds %d bytes") else Ret tt.

(** A call of a session on the selected node *)
Definition inSession {A} (fmt : String.string) (f : Session -> C A) : K A :=
  '(s, _) ← openCurrentSession;
  wrapK fmt (onClient (f s)).
#[local] Arguments inSession {A} fmt%_string_scope f.

(** The error of [Get] is replaced by one of its own. *)
Definition stored (notFound : String.string) (s : Session) (key : bytes) : K bytes :=
  tryK (onClient (Session_Get s key)) (fun r =>
    match r with
    | Ret value => mret value
    | Fail _ => liftK (Fail (Errorf notFound))
    | Panic => liftK Panic
    end).
#[local] Arguments stored notFound%_string_scope s key.

Record Group : Type := mkGroup {
  GroupID : bytes;
  GroupName : bytes;
  Public : bool;
}.

Definition PutGroup (id name : bytes) (public : bool) : K unit :=
  _ ← liftK (validateCatalogID id);
  inSession "kvctl: put group: %w" (fun s => Session_PutGroup s id name public).
Definition DeleteGroup (id : bytes) : K unit := inSession "kvctl: delete group: %w" (fun s => Session_DeleteGroup s id).

Definition GetGroup (id : bytes) : K Group :=
  '(s, _) ← openCurrentSession;
  value ← stored "kvctl: group %s not found" s (GroupKey id);
  '(name, public) ← liftK (wrap_err "kvctl: decode group %s: %w" (DecodeGroupPayload value));
  mret (mkGroup id name public).

Definition groupRow (groups : list Group) (key value : bytes) : gores (list Group) :=
  if blen key <? systemKeyIDOffset then Fail (Errorf "kvctl: malformed group key %x") else
  '(name, public) ← wrap_err "kvctl: decode group %x: %w" (DecodeGroupPayload value);
  id ← slice_from key systemKeyIDOffset;
  Ret (groups ++ [mkGroup id name public]).

Definition ListGroups : K (list Group) :=
  '(s, _) ← openCurrentSession;
  let '(lo, hi) := GroupKeyBounds in
  eachRow (nextOf "kvctl: list groups: %w" s hi) (look groupRow) lo [].

Record Command : Type := mkCommand {
  CommandID : bytes;
  CommandName : bytes;
  CommandPeerID : bytes;
  CommandSpec : bytes;
}.

Definition PutCommandWithSpec (id name peerID spec : bytes) : K unit :=
  _ ← liftK (validateCatalogID id);
  inSession "kvctl: put command: %w" (fun s => Session_PutCommandWithSpec s id name peerID spec).
Definition PutCommand (id name peerID : bytes) : K unit := PutCommandWithSpec id name peerID [].
Definition ClearCommandSpec (id name peerID : bytes) : K unit :=
  _ ← liftK (validateCatalogID id);
  inSession "kvctl: clear command spec: %w" (fun s => Session_ClearCommandSpec s id name peerID).
Definition DeleteCommand (id : bytes) : K unit := inSession "kvctl: delete command: %w" (fun s => Session_DeleteCommand s id).

Definition GetCommand (id : bytes) : K Command :=
  '(s, _) ← openCurrentSession;
  value ← stored "kvctl: command %s not found" s (CommandKey id);
  '(name, peerID, spec) ← liftK (wrap_err "kvctl: decode command %s: %w" (DecodeCommandPayloadFull value));
  mret (mkCommand id name peerID spec).

Definition commandRow (commands : list Command) (key value : bytes) : gores (list Command) :=
  if blen key <? systemKeyIDOffset then Fail (Errorf "kvctl: malformed command key %x") else
  id ← slice_from key systemKeyIDOffset;
  '(name, peerID, spec) ← wrap_err "kvctl: list commands: decode %s: %w" (DecodeCommandPayloadFull value);
  Ret (commands ++ [mkCommand id name peerID spec]).

Definition ListCommands : K (list Command) :=
  '(s, _) ← openCurrentSession;
  let '(lo, hi) := CommandKeyBounds in
  eachRow (nextOf "kvctl: list commands: %w" s hi) (look commandRow) lo [].

Record Station : Type := mkStation {
  StationPeerID : bytes;
  StationName : bytes;
  Attrs : bytes;
}.

Definition PutStation (peerID name attrs : bytes) : K unit :=
  if bytes_eqb peerID [] then liftK (Fail (Errorf "kvctl: station peer_id must not be empty")) else
  inSession "kvctl: put station: %w" (fun s => Session_PutStation s peerID name attrs).
Definition DeleteStation (peerID : bytes) : K unit := inSession "kvctl: delete station: %w" (fun s => Session_DeleteStation s peerID).

Definition GetStation (peerID : bytes) : K Station :=
  '(s, _) ← openCurrentSession;
  value ← stored "kvctl: station %s not found" s (StationKey peerID);
  '(name, attrs) ← liftK (wrap_err "kvctl: decode station %s: %w" (DecodeStationPayload value));
  mret (mkStation peerID name attrs).

Definition stationRow (stations : list Station) (key value : bytes) : gores (list Station) :=
  if blen key <? systemKeyIDOffset then Fail (Errorf "kvctl: malformed station key %x") else
  peerID ← slice_from key systemKeyIDOffset;
  '(name, attrs) ← wrap_err "kvctl: list stations: decode %s: %w" (DecodeStationPayload value);
  Ret (stations ++ [mkStation peerID name attrs]).

Definition ListStations : K (list Station) :=
  '(s, _) ← openCurrentSession;
  let '(lo, hi) := StationKeyBounds in
  eachRow (nextOf "kvctl: list stations: %w" s hi) (look stationRow) lo [].

Definition CreateGroupCommand (commandID groupID : bytes) : K unit :=
  inSession "kvctl: create group-command: %w" (fun s => Session_PutGroupCommand s commandID groupID).
Definition DeleteGroupCommand (commandID groupID : bytes) : K unit :=
  inSession "kvctl: delete group-command: %w" (fun s => Session_DeleteGroupCommand s commandID groupID).

Definition relationGroup (parse : bytes -> gores (bytes * bytes)) (ids : list bytes) (key _ : bytes) : gores (list bytes) :=
  '(_, groupID) ← parse key; Ret (ids ++ [groupID]).

Definition ListGroupsForCommand (commandID : bytes) : K (list bytes) :=
  '(s, _) ← openCurrentSession;
  '(lo, hi) ← liftK (GroupCommandBounds commandID);
  eachRow (nextOf "kvctl: list groups for command: %w" s hi) (look (relationGroup ParseGroupCommandKey)) lo [].

Definition AddPeerToGroup (peerID groupID : bytes) : K unit :=
  inSession "kvctl: add peer to group: %w" (fun s => Session_PutPeerGroup s peerID groupID).
Definition RemovePeerFromGroup (peerID groupID : bytes) : K unit :=
  inSession "kvctl: remove peer from group: %w" (fun s => Session_DeletePeerGroup s peerID groupID).

Definition ListGroupsForPeer (peerID : bytes) : K (list bytes) :=
  '(s, _) ← openCurrentSession;
  '(lo, hi) ← liftK (PeerGroupBounds peerID);
  eachRow (nextOf "kvctl: list groups for peer: %w" s hi) (look (relationGroup ParsePeerGroupKey)) lo [].

(** A key of the node is there; an error of the call counts as its absence. *)
Definition present (s : Session) (key : bytes) : K (option bytes) :=
  tryK (onClient (Session_Get s key)) (fun r =>
    match r with
    | Ret value => mret (Some value)
    | Fail _ => mret None
    | Panic => liftK Panic
    end).

(** One of the command's groups: public, or the peer's own *)
Definition groupPermits (s : Session) (peerID : bytes) (_ : bool) (key _ : bytes) : K (bool * bool) :=
  '(_, groupID) ← liftK (ParseGroupCommandKey key);
  group ← present s (GroupKey groupID);
  public ← match group with
           | Some value =>
             match DecodeGroupPayload value with
             | Ret (_, public) => mret public
             | Fail _ => mret false
             | Panic => liftK Panic
             end
           | None => mret false
           end;
  if (public : bool) then mret (true, true) else
  peerGroupKey ← liftK (PeerGroupKey peerID groupID);
  own ← present s peerGroupKey;
  mret (match own with Some _ => (true, true) | None => (false, false) end).

Definition isPermittedForCommand (s : Session) (peerID commandID : bytes) : K bool :=
  '(lo, hi) ← liftK (GroupCommandBounds commandID);
  eachRow (fun lo => onClient (Session_ListRange s lo hi)) (groupPermits s peerID) lo false.

End Kvctl.
