(* ===== verification/Dispatch.v ===== *)
(** Commands and who runs them (src/pkg/kvctl/dispatch.go): requests, the execution log,
    and the loop that runs a handler for every request without a result. *)

From S2P Require Import Prelude Store StoreLogic SystemKeys Payloads LogRecord Txn Hex Fsm Events Stream Quota Session Node Acl Forward Dial Join Execute Remote Channel Handler Ipc IpcNode Calendar Cron Files Registry Client Kvctl.
#[local] Open Scope Z_scope.

(** * The dispatcher, over the command log it works on *)

Definition CommandStatusRunning : bytes := bs "running".

Abbreviation fieldMap := (list (bytes * bytes)) (only parsing).
Abbreviation result := (list (bytes * bytes) * bytes)%type (only parsing).

(** Terminal results and progress: the latest entry decides. *)
Definition handledBy (entries : list LogRecord) : bool :=
  match last entries with
  | None => false
  | Some rec => negb (bytes_eqb (fieldAt (RecordFields rec) (bs "status")) CommandStatusRunning)
  end.

(** What the dispatcher needs: the requests of a command, the log of an instance up to
    now, an entry appended for it, whether a notification is waiting, and
    the handler, of which a panic has become an error result. *)
Class CommandLog (M : Type -> Type) : Type := {
  listRequests : bytes -> M (gores (list CommandRequest));
  queryLog : bytes -> M (gores (list LogRecord));
  appendResult : bytes -> bytes -> fieldMap -> bytes -> M (gores unit);
  pollNote : M (gores bool);
  runHandler : CommandRequest -> M result;
  report : error -> M unit;
}.

Section Dispatcher.
Context {M : Type -> Type} `{!MRet M, !MBind M, !CommandLog M}.

Definition commandRequestAlreadyHandled (instanceID : bytes) : M (gores bool) :=
  entries ← queryLog instanceID;
  mret (handledBy <$> entries).

(** One request of a pass *)
Definition dispatchOne (req : CommandRequest) : M (gores unit) :=
  handled ← commandRequestAlreadyHandled (RequestInstanceID req);
  match handled with
  | Panic => mret Panic
  | Fail err => _ ← report (Wrapf "kvctl: run command dispatcher: check %s: %w" err); mret (Ret tt)
  | Ret true => mret (Ret tt)
  | Ret false =>
    '(fields, narrative) ← runHandler req;
    r ← appendResult (RequestedBy req) (RequestInstanceID req) fields narrative;
    match r with
    | Panic => mret Panic
    | Fail err => _ ← report (Wrapf "kvctl: run command dispatcher: append command log for %s: %w" err); mret (Ret tt)
    | Ret _ => mret (Ret tt)
    end
  end.

Fixpoint dispatchAll (reqs : list CommandRequest) : M (gores unit) :=
  match reqs with
  | [] => mret (Ret tt)
  | req :: reqs' =>
    r ← dispatchOne req;
    match r with
    | Ret _ => dispatchAll reqs'
    | r => mret r
    end
  end.

Definition dispatchPendingCommandRequests (commandID : bytes) : M (gores unit) :=
  reqs ← listRequests commandID;
  match reqs with
  | Panic => mret Panic
  | Fail err => _ ← report (Wrapf "kvctl: run command dispatcher: list command requests: %w" err); mret (Ret tt)
  | Ret reqs => dispatchAll reqs
  end.

(** The cases of the loop's [select] *)
Inductive wakeup : Type :=
| Stop
| RescanTick
| PollTick.

Definition wake (commandID : bytes) (w : wakeup) : M (gores unit) :=
  match w with
  | Stop => mret (Ret tt)
  | RescanTick => dispatchPendingCommandRequests commandID
  | PollTick =>
    ok ← pollNote;
    match ok with
    | Panic => mret Panic
    | Fail err => _ ← report (Wrapf "kvctl: run command dispatcher: poll execute: %w" err); mret (Ret tt)
    | Ret true => dispatchPendingCommandRequests commandID
    | Ret false => mret (Ret tt)
    end
  end.

(** The loop, as far as the tickers have fired *)
Fixpoint dispatchLoop (commandID : bytes) (ws : list wakeup) : M (gores unit) :=
  match ws with
  | [] | Stop :: _ => mret (Ret tt)
  | w :: ws' =>
    r ← wake commandID w;
    match r with
    | Ret _ => dispatchLoop commandID ws'
    | r => mret r
    end
  end.

Definition RunCommandDispatcher (commandID : bytes) (ws : list wakeup) : M (gores unit) :=
  r ← dispatchPendingCommandRequests commandID;
  match r with
  | Ret _ => dispatchLoop commandID ws
  | r => mret r
  end.

End Dispatcher.

(** * The command log of the selected node *)

(** A computation that does not fail by itself *)
Definition KM (A : Type) : Type := kctl -> kctl * A.
#[global] Instance KM_ret : MRet KM := fun A a k => (k, a).
#[global] Instance KM_bind : MBind KM := fun A B f m k => match m k with (k', a) => f a k' end.

(** What a handler does on the machine, and the fields and the text of its result;
    [None] if it panics *)
Abbreviation CommandHandler := (CommandRequest -> KM (option result)) (only parsing).

Section Kvctl.
Context `{Env} `{OtherTag} `{RegistryEnv} `{KvctlEnv}.

Definition execIndexRoleRequester : bytes := bs "r".
Definition execIndexRoleTarget : bytes := bs "t".

Definition appendCommandExecIndex (s : Session) (peerID instanceID commandID requesterPeerID role : bytes) : K unit :=
  appendRecord s (CommandExecIndexKind peerID) instanceID requesterPeerID [(bs "command_id", commandID); (bs "role", role)] [].

Definition newInstanceID : K bytes :=
  b ← wrapK "kvctl: generate instance id: %w" (randRead 16);
  mret (hex_encode b).

Definition recordToCommandRequest (h : revisionHistory) : CommandRequest :=
  let rec := latest h in
  mkRequest (UnitID rec) (fieldAt (RecordFields rec) (bs "command_id")) (AuthorPeerID rec) (fieldAt (RecordFields rec) (bs "inputs")) (Timestamp rec).

(** A notification that may get lost *)
Definition poke (dest : bytes) (note : gores bytes) : K unit :=
  match note with
  | Ret note => tryK (Kvctl.Execute dest note) (fun r => match r with Panic => liftK Panic | _ => mret tt end)
  | Fail _ => mret tt
  | Panic => liftK Panic
  end.

Definition SubmitCommand (commandID inputsJSON : bytes) : K bytes :=
  '(s, requesterPeerID) ← openCurrentSession;
  ok ← wrapK "kvctl: submit command: %w" (isPermittedForCommand s requesterPeerID commandID);
  if negb (ok : bool) then liftK (Fail (Errorf "kvctl: %s is not permitted to submit command %s")) else
  value ← stored "kvctl: command %s not found" s (CommandKey commandID);
  '(_, targetPeerID) ← liftK (wrap_err "kvctl: submit command: decode %s: %w" (DecodeCommandPayload value));
  if blen targetPeerID =? 0 then liftK (Fail (Errorf "kvctl: command %s has no target peer; set one with `mage updatecommand %s <name> <peerID>`")) else
  instanceID ← newInstanceID;
  let fields := (bs "command_id", commandID) :: (if bytes_eqb inputsJSON [] then [] else [(bs "inputs", inputsJSON)]) in
  _ ← wrapK "kvctl: submit command: %w" (appendRecord s (CommandRequestLogKind commandID) instanceID requesterPeerID fields []);
  _ ← wrapK "kvctl: submit command: %w" (appendCommandExecIndex s requesterPeerID instanceID commandID requesterPeerID execIndexRoleRequester);
  _ ← (if bytes_eqb targetPeerID requesterPeerID then mret tt else
       wrapK "kvctl: submit command: %w" (appendCommandExecIndex s targetPeerID instanceID commandID requesterPeerID execIndexRoleTarget));
  _ ← poke targetPeerID (json_note (bs "cmd_req") commandID instanceID);
  mret instanceID.

Definition GetCommandRequest (commandID instanceID : bytes) : K CommandRequest :=
  '(s, _) ← openCurrentSession;
  h ← wrapK "kvctl: get command request: %w" (scanRevisions s (CommandRequestLogKind commandID) instanceID);
  match h with
  | None => liftK (Fail (Errorf "kvctl: command request %s not found for command %s"))
  | Some h => mret (recordToCommandRequest h)
  end.

(** The latest revisions of the units, in the order of their ids' first keys *)
Fixpoint requestsOf (s : Session) (kind : bytes) (ids : list bytes) (requests : list CommandRequest) : K (list CommandRequest) :=
  match ids with
  | [] => mret requests
  | id :: ids' =>
    h ← wrapK "kvctl: list command requests: %w" (scanRevisions s kind id);
    requestsOf s kind ids' (match h with Some h => requests ++ [recordToCommandRequest h] | None => requests end)
  end.

Definition ListCommandRequests (commandID : bytes) : K (list CommandRequest) :=
  '(s, _) ← openCurrentSession;
  ids ← wrapK "kvctl: list command requests: %w" (listUnitIDs s (CommandRequestLogKind commandID));
  requestsOf s (CommandRequestLogKind commandID) ids [].

(** ** Executions of a peer *)

Definition maxExecutionsByPeer : Z := 200.

Record CommandExecution : Type := mkExecution {
  ExecInstanceID : bytes;
  ExecCommandID : bytes;
  ExecRequestedBy : bytes;
  ExecTargetPeerID : bytes;
  ExecRole : bytes;
  ExecRequestedAt : Z;
}.

Definition targetPeerIDForCommand (commandID : bytes) : K bytes :=
  tryK (GetCommand commandID) (fun r =>
    match r with
    | Ret cmd => mret (CommandPeerID cmd)
    | Fail _ => mret []
    | Panic => liftK Panic
    end).

(** The last of them, at most [maxExecutionsByPeer] *)
Definition execution (peerID : bytes) (window : list CommandExecution) (_ value : bytes) : K (list CommandExecution * bool) :=
  rec ← liftK (wrap_err "kvctl: list executions by peer: decode: %w" (json_unrecord value));
  let commandID := fieldAt (RecordFields rec) (bs "command_id") in
  exec ← (if bytes_eqb (fieldAt (RecordFields rec) (bs "role")) execIndexRoleTarget
          then mret (mkExecution (UnitID rec) commandID (AuthorPeerID rec) peerID (bs "target") (Timestamp rec))
          else target ← targetPeerIDForCommand commandID;
               mret (mkExecution (UnitID rec) commandID (AuthorPeerID rec) target (bs "requester") (Timestamp rec)));
  let window := window ++ [exec] in
  mret (if maxExecutionsByPeer <? blen window then drop 1 window else window, false).

Definition ListExecutionsByPeer (peerID : bytes) : K (list CommandExecution) :=
  if bytes_eqb peerID [] then liftK (Fail (Errorf "kvctl: ListExecutionsByPeer: peerID must not be empty")) else
  '(s, _) ← openCurrentSession;
  let '(lo, hi) := kindPrefixBounds (CommandExecIndexKind peerID) in
  window ← eachRow (nextOf "kvctl: list executions by peer: %w" s hi) (execution peerID) lo [];
  mret (reverse window).

(** ** The execution log *)

Definition AppendCommandLog (requesterPeerID instanceID : bytes) (fields : fieldMap) (narrative : bytes) : K unit :=
  if bytes_eqb instanceID [] then liftK (Fail (Errorf "kvctl: instance id must not be empty")) else
  _ ← LogAppend CommandExecLogKind instanceID fields narrative;
  if bytes_eqb requesterPeerID [] then mret tt else poke requesterPeerID (json_note (bs "cmd_log") [] instanceID).

Definition ReportProgress (requesterPeerID instanceID : bytes) (fields : fieldMap) (narrative : bytes) : K unit :=
  AppendCommandLog requesterPeerID instanceID (setField (bs "status") CommandStatusRunning fields) narrative.

Definition QueryCommandLog (instanceID : bytes) (start stop limit : Z) : K (list LogRecord) :=
  LogQuery CommandExecLogKind instanceID start stop limit.

Definition keepLatest (_ : option LogRecord) (_ value : bytes) : gores (option LogRecord) :=
  rec ← wrap_err "kvctl: latest command log: decode: %w" (json_unrecord value);
  Ret (Some rec).

Definition LatestCommandLog (instanceID : bytes) : K LogRecord :=
  if bytes_eqb instanceID [] then liftK (Fail (Errorf "kvctl: LatestCommandLog: instanceID must not be empty")) else
  '(s, _) ← openCurrentSession;
  now ← Now;
  let '(lo, hi) := ScanBounds CommandExecLogKind instanceID 0 now in
  rec ← eachRow (nextOf "kvctl: latest command log: %w" s hi) (look keepLatest) lo None;
  match rec with
  | None => liftK (Fail (Errorf "kvctl: no command log entries for instance %s"))
  | Some rec => mret rec
  end.

(** A panic of the handler becomes an error result. *)
Definition runCommandHandlerSafely (handler : CommandHandler) (req : CommandRequest) : KM result :=
  _ ← (emit (HandlerRun req) : KM (gores unit));
  r ← handler req;
  mret (match r with
        | Some result => result
        | None => ([(bs "status", bs "error")], bs "handler panic: %v")
        end).

(** The dispatcher on the selected node; [time.Now] bounds what it sees of a log. *)
#[global] Instance nodeLog (handler : CommandHandler) : CommandLog KM := {
  listRequests commandID := ListCommandRequests commandID;
  queryLog instanceID := ((now ← Now; QueryCommandLog instanceID 0 now 0) : K (list LogRecord));
  appendResult requester instanceID fields narrative := AppendCommandLog requester instanceID fields narrative;
  pollNote := ((note ← Kvctl.PollExecute; mret (bool_decide (is_Some note))) : K bool);
  runHandler req := runCommandHandlerSafely handler req;
  report err := fun k => ((emit (Reported err) k).1, tt);
}.

End Kvctl.
