(* ===== verification/DispatchProps.v ===== *)
(** The dispatcher on a command log whose calls may fail: how often it runs a handler,
    and what it leaves behind (src/pkg/kvctl/dispatch.go). *)

From S2P Require Import Prelude Store StoreLogic SystemKeys Payloads LogRecord Txn Hex Fsm Events Stream Quota Session Node Acl Forward Dial Join Execute Remote Channel Handler Ipc IpcNode Calendar Cron Files Registry Client Kvctl Dispatch.
#[local] Open Scope Z_scope.

(** * A command log with faults *)

(** What comes of a call: it works, it fails, or it takes effect and fails all the same
    (an answer that got lost). *)
Inductive fate : Type := Works | Fails | Unsure.

(** Meanwhile others submit requests; [notes] says for a poll whether one is waiting. *)
Record turn : Type := mkTurn {
  arrive : list CommandRequest;
  fateOf : fate;
  notes : bool;
}.

(** The machine the dispatcher runs on: what its clock reads, and the random bytes it
    draws, at its n-th call. *)
Class Machine : Type := {
  clockAt : nat -> Z;
  saltAt : nat -> bytes;
}.

(** The clock goes forward from call to call, and is not before 1970. *)
Definition advancing `{Machine} : Prop := forall n, 0 <= clockAt n < clockAt (S n).

(** The requests submitted so far, the entries of each instance, with the random end of
    their keys and in the order of their keys, and of the past: the
    instances the handler was run for, and those whose result was not written.
    Every call of the dispatcher takes a turn of the weather; when there are
    no more, calls work. *)
Record cmdlog : Type := mkCmdlog {
  submitted : list CommandRequest;
  entries : gmap bytes (list (bytes * LogRecord));
  ran : list bytes;
  unrecorded : list bytes;
  weather : list turn;
  calls : nat;
}.

Definition L (A : Type) : Type := cmdlog -> cmdlog * A.
#[global] Instance L_ret : MRet L := fun A a l => (l, a).
#[global] Instance L_bind : MBind L := fun A B f m l => match m l with (l', a) => f a l' end.

Definition nextTurn : L (fate * bool) := fun l =>
  match weather l with
  | [] => (mkCmdlog (submitted l) (entries l) (ran l) (unrecorded l) [] (S (calls l)), (Works, false))
  | w :: ws => (mkCmdlog (submitted l ++ arrive w) (entries l) (ran l) (unrecorded l) ws (S (calls l)), (fateOf w, notes w))
  end.

Definition entriesOf (l : cmdlog) (id : bytes) : list (bytes * LogRecord) := default [] (entries l !! id).

(** An entry takes its place by its time, then by its random bytes; one under the same
    key is replaced. *)
Fixpoint insertEntry (e : bytes * LogRecord) (es : list (bytes * LogRecord)) : list (bytes * LogRecord) :=
  match es with
  | [] => [e]
  | x :: es' =>
    if Timestamp e.2 <? Timestamp x.2 then e :: es
    else if Timestamp x.2 <? Timestamp e.2 then x :: insertEntry e es'
    else if bytes_lt e.1 x.1 then e :: es
    else if bytes_lt x.1 e.1 then x :: insertEntry e es'
    else e :: es'
  end.

Definition markRun (id : bytes) : L unit := fun l => (mkCmdlog (submitted l) (entries l) (ran l ++ [id]) (unrecorded l) (weather l) (calls l), tt).
Definition markUnrecorded (id : bytes) : L unit := fun l => (mkCmdlog (submitted l) (entries l) (ran l) (unrecorded l ++ [id]) (weather l) (calls l), tt).

(** The ids an entry can be written for *)
Definition writable (id : bytes) : bool := negb (bytes_eqb id []) && (blen id <=? maxFieldLen).

(** A handler: the progress it reports on the way, and its result *)
Abbreviation worker := (CommandRequest -> list (list (bytes * bytes) * bytes) * (list (bytes * bytes) * bytes)) (only parsing).

Section Log.
Context `{Machine}.

(** The clock at the last call *)
Definition time (l : cmdlog) : Z := clockAt (calls l).

Definition addEntry (id : bytes) (fields : fieldMap) (narrative : bytes) : L unit := fun l =>
  let e := (saltAt (calls l), mkRecord CommandExecLogKind id (time l) [] fields narrative) in
  (mkCmdlog (submitted l) (<[id := insertEntry e (entriesOf l id)]> (entries l)) (ran l) (unrecorded l) (weather l) (calls l), tt).

Fixpoint progress (id : bytes) (reports : list (list (bytes * bytes) * bytes)) : L unit :=
  match reports with
  | [] => mret tt
  | (fields, narrative) :: reports' =>
    '(f, _) ← nextTurn;
    _ ← match (if writable id then f else Fails) with Fails => mret tt | _ => addEntry id (setField (bs "status") CommandStatusRunning fields) narrative end;
    progress id reports'
  end.

Definition asks {A} (f : cmdlog -> A) : L A := fun l => (l, f l).

(** A call that reads *)
Definition reading {A} (f : cmdlog -> A) : L (gores A) :=
  '(o, _) ← nextTurn;
  asks (fun l => match o with Works => Ret (f l) | _ => Fail ErrIO end).

(** The call that writes a result *)
Definition writing (id : bytes) (fields : fieldMap) (narrative : bytes) : L (gores unit) :=
  '(o, _) ← nextTurn;
  let o := if writable id then o else Fails in
  _ ← match o with Fails => markUnrecorded id | _ => addEntry id fields narrative end;
  mret (match o with Works => Ret tt | _ => Fail ErrIO end).

Definition polling : L (gores bool) :=
  '(o, note) ← nextTurn;
  mret (match o with Works => Ret note | _ => Fail ErrIO end).

Definition working (work : worker) (req : CommandRequest) : L result :=
  _ ← markRun (RequestInstanceID req);
  _ ← progress (RequestInstanceID req) (work req).1;
  mret (work req).2.

(** What a query up to now tells: the requests of a command, the entries of an instance *)
Definition upToNow (l : cmdlog) (t : Z) : bool := (0 <=? t) && (t <=? time l).
Definition requestsFor (commandID : bytes) (l : cmdlog) : list CommandRequest :=
  filter (fun req => RequestCommandID req = commandID /\ upToNow l (RequestedAt req) = true) (submitted l).
Definition logOf (id : bytes) (l : cmdlog) : list LogRecord :=
  snd <$> filter (fun e => upToNow l (Timestamp e.2) = true) (entriesOf l id).

#[global] Instance faultyLog (work : worker) : CommandLog L := {
  listRequests commandID := reading (requestsFor commandID);
  queryLog id := reading (logOf id);
  appendResult _ id fields narrative := writing id fields narrative;
  pollNote := polling;
  runHandler req := working work req;
  report _ := mret tt;
}.

(** * Vocabulary *)

(** No entry is of the future. *)
Definition punctual (l : cmdlog) : Prop := forall id, Forall (fun e => 0 <= Timestamp e.2 <= time l) (entriesOf l id).

Definition handled (l : cmdlog) (id : bytes) : bool := handledBy (entriesOf l id).*2.
Definition times (id : bytes) (ids : list bytes) : Z := blen (filter (fun x => x = id) ids).

(** Every result is terminal. *)
Definition finishes (work : worker) : Prop :=
  forall req, fieldAt (work req).2.1 (bs "status") <> CommandStatusRunning.

(** [l'] is [l] after calls that wrote nothing. *)
Record quiet (l l' : cmdlog) : Prop := {
  qu_submitted : submitted l `prefix_of` submitted l';
  qu_entries : entries l' = entries l;
  qu_ran : ran l' = ran l;
  qu_unrecorded : unrecorded l' = unrecorded l;
  qu_weather : weather l' `suffix_of` weather l;
  qu_calls : (calls l <= calls l')%nat;
}.

(** [l'] is [l] after some dispatching of a command: per instance, every run of the handler
    since is accounted for by a result that was not written or by the instance being
    handled now; what was handled stays as it was; only submitted requests of the command
    were run; and a new result is what the handler returned for such a request. *)
Record dispatched (work : worker) (commandID : bytes) (l l' : cmdlog) : Prop := {
  di_submitted : submitted l `prefix_of` submitted l';
  di_weather : weather l' `suffix_of` weather l;
  di_calls : (calls l <= calls l')%nat;
  di_punctual : punctual l -> punctual l';
  di_runs id : times id (ran l') + times id (unrecorded l) + Z.b2z (handled l id) = times id (ran l) + times id (unrecorded l') + Z.b2z (handled l' id);
  di_handled id : handled l id = true -> entriesOf l' id = entriesOf l id /\ times id (ran l') = times id (ran l);
  di_ran id : id ∈ ran l' -> id ∈ ran l \/ exists req, req ∈ submitted l' /\ RequestCommandID req = commandID /\ RequestInstanceID req = id;
  di_result id : handled l id = false -> handled l' id = true ->
    exists req salt rec, req ∈ submitted l' /\ RequestCommandID req = commandID /\ RequestInstanceID req = id /\
      last (entriesOf l' id) = Some (salt, rec) /\ (RecordFields rec, Narrative rec) = (work req).2;
}.

Lemma times_app id l1 l2 : times id (l1 ++ l2) = times id l1 + times id l2.
Proof. unfold times, blen. rewrite filter_app, length_app. lia. Qed.

Lemma times_one id x : times id [x] = Z.b2z (bool_decide (x = id)).
Proof. unfold times. rewrite filter_cons, filter_nil. case_decide; by case_bool_decide. Qed.

#[global] Instance quiet_preorder : PreOrder quiet.
Proof. split; [by constructor|]. intros l1 l2 l3 [] []. constructor; try congruence; (by etrans) || lia. Qed.

Lemma prefix_in {A} (x : A) (k k' : list A) : k `prefix_of` k' -> x ∈ k -> x ∈ k'.
Proof. intros [r ->] Hx. apply elem_of_app. by left. Qed.

#[global] Instance dispatched_preorder work commandID : PreOrder (dispatched work commandID).
Proof.
  split; [intros l; constructor; auto; congruence|]. intros l1 l2 l3 [S1 W1 C1 P1 R1 H1 I1 E1] [S2 W2 C2 P2 R2 H2 I2 E2]. constructor.
  - by etrans.
  - by etrans.
  - lia.
  - auto.
  - intros id. specialize (R1 id). specialize (R2 id). lia.
  - intros id Hh. destruct (H1 id Hh) as [A1 B1]. destruct (H2 id) as [A2 B2]; [by unfold handled; rewrite A1|]. by split; congruence.
  - intros id [Hin|Hin]%I2; [|by right]. destruct (I1 id Hin) as [?|(req & Hs & Hr)]; [by left|]. right. exists req. split; [by eapply prefix_in|done].
  - intros id Hf Ht. destruct (handled l2 id) eqn:E; [|by apply E2].
    destruct (H2 id E) as [-> _]. destruct (E1 id Hf E) as (req & salt & rec & Hin & Hrest). exists req, salt, rec. split; [by eapply prefix_in|done].
Qed.

Section Clock.
Context (Hclock : advancing).

Lemma clockAt_le n m : (n <= m)%nat -> clockAt n <= clockAt m.
Proof. induction 1 as [|m _ IH]; [done|]. specialize (Hclock m). lia. Qed.

Lemma punctual_later l l' : (calls l <= calls l')%nat -> entries l' = entries l -> punctual l -> punctual l'.
Proof.
  intros Hc He Hp id. unfold entriesOf. rewrite He. eapply Forall_impl; [apply Hp|]. cbn. intros e Ht.
  pose proof (clockAt_le _ _ Hc). unfold time in *. lia.
Qed.

Lemma quiet_dispatched work commandID l l' : quiet l l' -> dispatched work commandID l l'.
Proof.
  intros [S E R U W C]. assert (forall id, handled l' id = handled l id /\ entriesOf l' id = entriesOf l id) as Hh.
  { intros id. unfold handled, entriesOf. by rewrite E. }
  constructor; [done|done|done|by apply punctual_later| | | |].
  - intros id. destruct (Hh id) as [-> _]. rewrite R, U. lia.
  - intros id _. destruct (Hh id) as [_ ->]. by rewrite R.
  - intros id Hin. rewrite R in Hin. by left.
  - intros id Hf Ht. destruct (Hh id). congruence.
Qed.

(** With the clock going forward, a query sees every entry, and an entry comes last. *)
Lemma logOf_all l id : punctual l -> logOf id l = (entriesOf l id).*2.
Proof.
  intros Hp. unfold logOf. f_equal. specialize (Hp id). induction Hp as [|e es He Hes IH]; [done|].
  rewrite filter_cons_True; [by rewrite IH|]. unfold upToNow. destruct (Z.leb_spec 0 (Timestamp e.2)), (Z.leb_spec (Timestamp e.2) (time l)); (done || lia).
Qed.

Lemma insertEntry_last e es : Forall (fun x => Timestamp x.2 < Timestamp e.2) es -> insertEntry e es = es ++ [e].
Proof.
  induction 1 as [|x es Hx _ IH]; [done|]. cbn. destruct (Z.ltb_spec (Timestamp e.2) (Timestamp x.2)); [lia|].
  destruct (Z.ltb_spec (Timestamp x.2) (Timestamp e.2)); [by rewrite IH|lia].
Qed.

(** * One request *)

Lemma nextTurn_quiet l l' x : nextTurn l = (l', x) -> quiet l l' /\ (calls l < calls l')%nat.
Proof.
  unfold nextTurn. destruct (weather l) as [|w ws] eqn:E; intros [= <- <-]; (split; [|cbn; lia]); constructor; cbn; try done; try lia.
  - by rewrite E.
  - by eexists.
  - rewrite E. by exists [w].
Qed.

Lemma reading_run {A} (f : cmdlog -> A) l :
  exists l' r, reading f l = (l', r) /\ quiet l l' /\ (r = Ret (f l') \/ r = Fail ErrIO).
Proof.
  unfold reading, mbind, L_bind. destruct (nextTurn l) as [l' [o n]] eqn:E. apply nextTurn_quiet in E as [E _].
  exists l'. destruct o; eexists; (split; [reflexivity|]); auto.
Qed.

Lemma polling_run l : exists l' r, polling l = (l', r) /\ quiet l l' /\ (r = Fail ErrIO \/ exists b, r = Ret b).
Proof.
  unfold polling, mbind, L_bind. destruct (nextTurn l) as [l' [o n]] eqn:E. apply nextTurn_quiet in E as [E _].
  exists l'. destruct o; eexists; (split; [reflexivity|]); eauto.
Qed.

Lemma entriesOf_insert l id id' es sub rn un ws n :
  entriesOf (mkCmdlog sub (<[id := es]> (entries l)) rn un ws n) id' = if bool_decide (id' = id) then es else entriesOf l id'.
Proof. unfold entriesOf. cbn. case_bool_decide; subst; [by rewrite lookup_insert_eq|by rewrite lookup_insert_ne]. Qed.

(** Every entry is of an earlier call. *)
Definition past (l : cmdlog) : Prop := forall id, Forall (fun e => 0 <= Timestamp e.2 < time l) (entriesOf l id).

Lemma turn_past l l' : quiet l l' -> (calls l < calls l')%nat -> punctual l -> past l'.
Proof.
  intros [_ He _ _ _ _] Hc Hp id. unfold entriesOf. rewrite He. eapply Forall_impl; [apply Hp|]. cbn. intros e Ht.
  pose proof (clockAt_le _ _ Hc). specialize (Hclock (calls l)). unfold time in *. lia.
Qed.

(** Only the entries of [id] have changed. *)
Record touched (id : bytes) (l l' : cmdlog) : Prop := {
  to_submitted : submitted l `prefix_of` submitted l';
  to_weather : weather l' `suffix_of` weather l;
  to_calls : (calls l <= calls l')%nat;
  to_ran : ran l' = ran l;
  to_unrecorded : unrecorded l' = unrecorded l;
  to_entries id' : id' <> id -> entriesOf l' id' = entriesOf l id';
}.

#[global] Instance touched_preorder id : PreOrder (touched id).
Proof.
  split; [by constructor|]. intros l1 l2 l3 [] []. constructor; try congruence; [by etrans..|lia|].
  intros id' Hne. by rewrite to_entries1, to_entries0.
Qed.

Lemma quiet_touched id l l' : quiet l l' -> touched id l l'.
Proof. intros []. constructor; try done. intros id' _. unfold entriesOf. by rewrite qu_entries0. Qed.

Lemma addEntry_touched id fields narrative l l' : past l -> addEntry id fields narrative l = (l', tt) ->
  touched id l l' /\ punctual l' /\ exists salt rec, last (entriesOf l' id) = Some (salt, rec) /\ RecordFields rec = fields /\ Narrative rec = narrative.
Proof.
  intros Hp [= <-]. set (e := (saltAt (calls l), _)). rewrite insertEntry_last by (eapply Forall_impl; [apply Hp|cbn; lia]).
  assert (0 <= time l) as H0 by apply Hclock. split; [|split].
  - constructor; try done. intros id' Hne. rewrite entriesOf_insert. by rewrite bool_decide_false.
  - intros id'. rewrite entriesOf_insert. unfold time at 1. cbn [calls]. fold (time l).
    assert (Forall (fun e => 0 <= Timestamp e.2 <= time l) (entriesOf l id')) as Hall by (eapply Forall_impl; [apply Hp|cbn; lia]).
    case_bool_decide; subst; [|done]. apply Forall_app. split; [done|]. constructor; [cbn; lia|done].
  - rewrite entriesOf_insert, bool_decide_true by done. rewrite last_snoc. by do 2 eexists.
Qed.

Lemma handled_last l id salt rec : last (entriesOf l id) = Some (salt, rec) ->
  handled l id = negb (bytes_eqb (fieldAt (RecordFields rec) (bs "status")) CommandStatusRunning).
Proof. intros E. unfold handled, handledBy. by rewrite fmap_last, E. Qed.

Lemma fieldAt_set name value fields : fieldAt (setField name value fields) name = value.
Proof. unfold setField. cbn [fieldAt]. by rewrite bytes_eqb_refl. Qed.

(** Progress does not make an instance look handled. *)
Lemma progress_run id reports : forall l l', progress id reports l = (l', tt) -> punctual l -> handled l id = false ->
  touched id l l' /\ punctual l' /\ handled l' id = false.
Proof.
  induction reports as [|[fields narrative] reports IH]; intros l l' Hp Hl Hh; cbn [progress] in Hp; [by injection Hp as <-|].
  unfold mbind at 1, L_bind at 1 in Hp. destruct (nextTurn l) as [l1 [o n]] eqn:E1. apply nextTurn_quiet in E1 as [E1 Hc1].
  assert (handled l1 id = false) as Hh1 by (revert Hh; unfold handled, entriesOf; by rewrite (qu_entries _ _ E1)).
  pose proof (punctual_later _ _ (qu_calls _ _ E1) (qu_entries _ _ E1) Hl) as Hl1. pose proof (turn_past _ _ E1 Hc1 Hl) as Hpast.
  unfold mbind, L_bind in Hp.
  assert (forall l2, addEntry id (setField (bs "status") CommandStatusRunning fields) narrative l1 = (l2, tt) -> progress id reports l2 = (l', tt) ->
    touched id l l' /\ punctual l' /\ handled l' id = false) as Hadd.
  { intros l2 Ea Hp2. destruct (addEntry_touched _ _ _ _ _ Hpast Ea) as (Ht & Hl2 & salt & rec & El & Hf & _). destruct (IH l2 l' Hp2 Hl2) as [Ht2 Hh2].
    - rewrite (handled_last _ _ _ _ El), Hf, fieldAt_set. by rewrite bytes_eqb_refl.
    - split; [|done]. etrans; [by apply quiet_touched|]. by etrans. }
  assert (progress id reports l1 = (l', tt) -> touched id l l' /\ punctual l' /\ handled l' id = false) as Hnone.
  { intros Hp1. destruct (IH l1 l' Hp1 Hl1 Hh1) as [Ht Hh2]. split; [|done]. etrans; [by apply quiet_touched|]. done. }
  destruct (writable id); [destruct o|]; first [by apply Hnone | by eapply Hadd].
Qed.

(** A run of the handler for an instance that is not handled: its result is not written,
    or it is and the instance is handled. *)
Lemma run_accounted work commandID req l l' (id := RequestInstanceID req) :
  submitted l `prefix_of` submitted l' -> weather l' `suffix_of` weather l -> (calls l <= calls l')%nat -> punctual l' ->
  ran l' = ran l ++ [id] -> req ∈ submitted l' -> RequestCommandID req = commandID ->
  (forall id', id' <> id -> entriesOf l' id' = entriesOf l id') -> handled l id = false ->
  (unrecorded l' = unrecorded l ++ [id] /\ handled l' id = false \/
   unrecorded l' = unrecorded l /\ handled l' id = true /\
     exists salt rec, last (entriesOf l' id) = Some (salt, rec) /\ (RecordFields rec, Narrative rec) = (work req).2) ->
  dispatched work commandID l l'.
Proof.
  intros Hs Hw Hcalls Hpun Hran Hin Hcmd Hother Hh Hcase.
  assert (forall id', id' <> id -> handled l' id' = handled l id') as Hoh by (intros id' Hne; unfold handled; by rewrite Hother).
  constructor; [done|done|done|done| | | |].
  - intros id'. rewrite Hran, times_app, times_one. destruct (decide (id' = id)) as [->|Hne].
    + rewrite bool_decide_true, Hh by done. destruct Hcase as [[-> ->]|(-> & -> & _)]; cbn; [|lia].
      rewrite times_app, times_one, bool_decide_true by done. cbn. lia.
    + rewrite bool_decide_false, Hoh by congruence. destruct Hcase as [[-> _]|(-> & _)]; cbn; [|lia].
      rewrite times_app, times_one, bool_decide_false by congruence. cbn. lia.
  - intros id' Hh'. assert (id' <> id) as Hne by (intros ->; congruence). split; [by apply Hother|].
    rewrite Hran, times_app, times_one, bool_decide_false by congruence. cbn. lia.
  - intros id'. rewrite Hran, elem_of_app, list_elem_of_singleton. intros [?| ->]; [by left|]. right. by exists req.
  - intros id' Hf' Ht'. destruct (decide (id' = id)) as [->|Hne]; [|rewrite Hoh in Ht' by done; congruence].
    destruct Hcase as [[_ ?]|(_ & _ & salt & rec & Hl & Hr)]; [congruence|]. by exists req, salt, rec.
Qed.

Lemma terminal work req (l : cmdlog) id salt rec : finishes work ->
  last (entriesOf l id) = Some (salt, rec) -> RecordFields rec = (work req).2.1 -> handled l id = true.
Proof.
  intros Hfin El Hf. rewrite (handled_last _ _ _ _ El), Hf. destruct (bytes_eqb _ _) eqn:E; [|done].
  by apply bytes_eqb_true, Hfin in E.
Qed.

(** Running the handler for a request that is not handled, and writing its result *)
Lemma run_and_write work commandID req l : finishes work -> punctual l -> handled l (RequestInstanceID req) = false ->
  req ∈ submitted l -> RequestCommandID req = commandID ->
  forall l1 res l2 r, working work req l = (l1, res) -> writing (RequestInstanceID req) res.1 res.2 l1 = (l2, r) ->
    dispatched work commandID l l2 /\ (r = Ret tt \/ r = Fail ErrIO) /\ (r = Ret tt -> handled l2 (RequestInstanceID req) = true /\ unrecorded l2 = unrecorded l).
Proof.
  intros Hfin Hl Hh Hin Hcmd l1 res l2 r Hw Hr. set (id := RequestInstanceID req) in *.
  unfold working, mbind, L_bind in Hw. cbn [markRun] in Hw. fold id in Hw.
  destruct (progress id (work req).1 _) as [l1' []] eqn:Ep. injection Hw as <- <-.
  set (l0 := mkCmdlog _ _ _ _ _ _) in Ep. destruct (progress_run id _ l0 l1' Ep Hl Hh) as (Ht & Hl1' & Hh1).
  unfold writing, mbind, L_bind in Hr. destruct (nextTurn l1') as [l1 [o n]] eqn:Et. apply nextTurn_quiet in Et as [Et Hc].
  assert (handled l1 id = false) as Hh2 by (revert Hh1; unfold handled, entriesOf; by rewrite (qu_entries _ _ Et)).
  pose proof (punctual_later _ _ (qu_calls _ _ Et) (qu_entries _ _ Et) Hl1') as Hl1. pose proof (turn_past _ _ Et Hc Hl1') as Hpast.
  assert (touched id l0 l1) as Ht1 by (etrans; [exact Ht|by apply quiet_touched]).
  assert (forall l3, touched id l0 l3 -> req ∈ submitted l3) as Hin3 by (intros l3 [Hs _ _ _ _ _]; by eapply prefix_in).
  assert (l2 = mkCmdlog (submitted l1) (entries l1) (ran l1) (unrecorded l1 ++ [id]) (weather l1) (calls l1) /\ r = Fail ErrIO \/
    addEntry id (work req).2.1 (work req).2.2 l1 = (l2, tt) /\ (r = Ret tt \/ r = Fail ErrIO)) as [(-> & ->)|[Ea Hrr]].
  { destruct (writable id), o; cbn in Hr; injection Hr as <- <-; first [left; by split | right; split; [reflexivity|by auto]]. }
  - split; [|split; [by right|done]]. pose proof (Hin3 _ Ht1). destruct Ht1 as [S W C R U E]. apply (run_accounted work commandID req); try done.
    left. cbn. by rewrite U.
  - destruct (addEntry_touched _ _ _ _ _ Hpast Ea) as (Ht2 & Hl2 & salt & rec & El & Hf & Hn). assert (touched id l0 l2) as Ht3 by by etrans.
    assert (handled l2 id = true) as Hh3 by by eapply terminal. pose proof (Hin3 _ Ht3). destruct Ht3 as [S W C R U E]. split; [|by split].
    apply (run_accounted work commandID req); try done. right. split; [done|]. split; [done|]. exists salt, rec. split; [done|].
    rewrite Hf, Hn. by destruct (work req).2.
Qed.

(** * Passes and the loop *)

Lemma L_bind_run {A B} (m : L A) (f : A -> L B) l l' a : m l = (l', a) -> (m ≫= f) l = f a l'.
Proof. intros E. unfold mbind, L_bind. by rewrite E. Qed.

Section Loop.
Context (work : worker) (Hfin : finishes work) (commandID : bytes).
#[local] Existing Instance faultyLog.

(** A request the pass has in hand *)
Definition pending (req : CommandRequest) (l : cmdlog) : Prop := req ∈ submitted l /\ RequestCommandID req = commandID.

Lemma pending_later req l l' : submitted l `prefix_of` submitted l' -> pending req l -> pending req l'.
Proof. intros Hs [Hin Hc]. split; [by eapply prefix_in|done]. Qed.

Lemma dispatchOne_run req l : pending req l -> punctual l ->
  exists l', dispatchOne (CommandLog0 := faultyLog work) req l = (l', Ret tt) /\ dispatched work commandID l l'.
Proof.
  intros Hin Hl. unfold dispatchOne, commandRequestAlreadyHandled, mbind, L_bind. cbn [queryLog faultyLog].
  destruct (reading_run (logOf (RequestInstanceID req)) l) as (l1 & r1 & -> & Hq & Hr1). cbn.
  apply (pending_later _ _ l1 (qu_submitted _ _ Hq)) in Hin as [Hin Hcmd].
  apply (quiet_dispatched work commandID) in Hq. pose proof (di_punctual _ _ _ _ Hq Hl) as Hl1. destruct Hr1 as [->| ->]; cbn; [|by exists l1].
  rewrite (logOf_all _ _ Hl1). fold (handled l1 (RequestInstanceID req)). destruct (handled l1 (RequestInstanceID req)) eqn:Hh; [by exists l1|].
  destruct (working work req l1) as [l2 [fields narrative]] eqn:Ew. destruct (writing (RequestInstanceID req) fields narrative l2) as [l3 r3] eqn:Er.
  destruct (run_and_write work commandID req l1 Hfin Hl1 Hh Hin Hcmd l2 (fields, narrative) l3 r3 Ew Er) as (Hd & Hr & _).
  exists l3. split; [|by etrans]. by destruct Hr as [->| ->].
Qed.

(** From here on calls work. *)
Definition calm (l : cmdlog) : Prop := Forall (fun w => fateOf w = Works) (weather l).

Lemma calm_suffix l l' : calm l -> weather l' `suffix_of` weather l -> calm l'.
Proof. unfold calm. intros Hc [k Hk]. rewrite Hk in Hc. by apply Forall_app in Hc as [_ Hc]. Qed.

Lemma nextTurn_calm l l' o n : calm l -> nextTurn l = (l', (o, n)) -> o = Works.
Proof. unfold calm, nextTurn. destruct (weather l) as [|w ws]; [by intros _ [= _ <- _]|]. intros [Hw _]%Forall_cons [= _ <- _]. done. Qed.

Lemma stays_handled l l' id : dispatched work commandID l l' -> handled l id = true -> handled l' id = true.
Proof. intros Hd Hh. destruct (di_handled _ _ _ _ Hd id Hh) as [E _]. unfold handled in *. by rewrite E. Qed.

(** A handler run for an instance, and its result written, while calls work *)
Lemma write_calm req l l2 res l3 r : calm l -> punctual l -> handled l (RequestInstanceID req) = false -> writable (RequestInstanceID req) = true ->
  working work req l = (l2, res) -> writing (RequestInstanceID req) res.1 res.2 l2 = (l3, r) -> r = Ret tt.
Proof.
  intros Hc Hl Hh Hw Ew Er. assert (calm l2) as Hc2.
  { apply (calm_suffix l); [done|]. unfold working, mbind, L_bind in Ew. cbn [markRun] in Ew.
    destruct (progress _ _ _) as [l2' []] eqn:Ep. injection Ew as <- _. apply progress_run in Ep as (Ht & _); [exact (to_weather _ _ _ Ht)|exact Hl|exact Hh]. }
  unfold writing, mbind, L_bind in Er. destruct (nextTurn l2) as [l2' [o2 n2]] eqn:E2. rewrite (nextTurn_calm _ _ _ _ Hc2 E2), Hw in Er.
  by injection Er as _ <-.
Qed.

Lemma dispatchOne_calm req l l' : calm l -> pending req l -> punctual l -> writable (RequestInstanceID req) = true ->
  dispatchOne (CommandLog0 := faultyLog work) req l = (l', Ret tt) ->
  handled l' (RequestInstanceID req) = true /\ unrecorded l' = unrecorded l.
Proof.
  intros Hc Hin Hl Hw. unfold dispatchOne, commandRequestAlreadyHandled, mbind, L_bind. cbn [queryLog faultyLog].
  unfold reading, mbind, L_bind. destruct (nextTurn l) as [l1 [o n]] eqn:E. rewrite (nextTurn_calm _ _ _ _ Hc E). apply nextTurn_quiet in E as [E _]. cbn.
  apply (pending_later _ _ l1 (qu_submitted _ _ E)) in Hin as [Hin Hcmd].
  pose proof (punctual_later _ _ (qu_calls _ _ E) (qu_entries _ _ E) Hl) as Hl1. pose proof (calm_suffix _ _ Hc (qu_weather _ _ E)) as Hc1.
  rewrite (logOf_all _ _ Hl1). fold (handled l1 (RequestInstanceID req)). rewrite <- (qu_unrecorded _ _ E).
  destruct (handled l1 (RequestInstanceID req)) eqn:Hh; [by intros [= <-]|].
  destruct (working work req l1) as [l2 [fields narrative]] eqn:Ew. destruct (writing (RequestInstanceID req) fields narrative l2) as [l3 r3] eqn:Er.
  destruct (run_and_write work commandID req l1 Hfin Hl1 Hh Hin Hcmd l2 (fields, narrative) l3 r3 Ew Er) as (Hd & _ & Hh3).
  rewrite (write_calm req l1 l2 (fields, narrative) l3 r3 Hc1 Hl1 Hh Hw Ew Er) in *. intros [= <-]. by apply Hh3.
Qed.

Lemma dispatchAll_run reqs : forall l, Forall (fun req => pending req l) reqs -> punctual l ->
  exists l', dispatchAll (CommandLog0 := faultyLog work) reqs l = (l', Ret tt) /\ dispatched work commandID l l'.
Proof.
  induction reqs as [|req reqs IH]; intros l Hsub Hl; cbn [dispatchAll]; [by exists l|]. apply Forall_cons in Hsub as [Hreq Hsub].
  destruct (dispatchOne_run req l) as (l1 & E & Hd); [done..|]. rewrite (L_bind_run _ _ _ _ _ E).
  destruct (IH l1) as (l2 & E2 & Hd2); [|by apply Hd|].
  { eapply Forall_impl; [exact Hsub|]. intros r. apply pending_later, Hd. }
  exists l2. split; [done|by etrans].
Qed.

Lemma dispatchAll_calm reqs : forall l l', calm l -> Forall (fun req => pending req l) reqs -> punctual l ->
  Forall (fun req => writable (RequestInstanceID req) = true) reqs ->
  dispatchAll (CommandLog0 := faultyLog work) reqs l = (l', Ret tt) ->
  (forall req, req ∈ reqs -> handled l' (RequestInstanceID req) = true) /\ unrecorded l' = unrecorded l.
Proof.
  induction reqs as [|r reqs IH]; intros l l' Hc Hsub Hl Hw; cbn [dispatchAll]; [intros [= <-]; split; [by intros req ?%elem_of_nil|done]|].
  apply Forall_cons in Hsub as [Hreq Hsub]. apply Forall_cons in Hw as [Hwr Hw].
  destruct (dispatchOne_run r l) as (l1 & E & Hd); [done..|]. rewrite (L_bind_run _ _ _ _ _ E).
  assert (Forall (fun req => pending req l1) reqs) as Hsub1 by (eapply Forall_impl; [exact Hsub|]; intros x; apply pending_later, Hd).
  pose proof (di_punctual _ _ _ _ Hd Hl) as Hl1. destruct (dispatchOne_calm r l l1) as [Hh Hu]; [done..|]. intros Hall.
  destruct (IH l1 l') as [Hh2 Hu2]; [apply (calm_suffix l); [done|apply Hd]|done..|]. split; [|congruence].
  intros req [->|Hin]%elem_of_cons; [|by apply Hh2]. destruct (dispatchAll_run reqs l1 Hsub1 Hl1) as (l2 & E2 & Hd2).
  rewrite E2 in Hall. injection Hall as <-. by apply (stays_handled l1).
Qed.

Lemma listed_pending l : Forall (fun req => pending req l) (requestsFor commandID l).
Proof. apply Forall_forall. intros req ((Hc & _) & Hin)%list_elem_of_filter. by split. Qed.

Lemma pass_run l : punctual l ->
  exists l', dispatchPendingCommandRequests (CommandLog0 := faultyLog work) commandID l = (l', Ret tt) /\ dispatched work commandID l l'.
Proof.
  intros Hl. unfold dispatchPendingCommandRequests. destruct (reading_run (requestsFor commandID) l) as (l1 & r & E1 & Hq & Hr).
  rewrite (L_bind_run _ _ _ _ _ E1). apply (quiet_dispatched work commandID) in Hq. destruct Hr as [->| ->]; [|by exists l1].
  destruct (dispatchAll_run (requestsFor commandID l1) l1) as (l2 & E & Hd); [apply listed_pending|by apply Hq|]. exists l2. split; [done|by etrans].
Qed.

Lemma pass_calm l l' : calm l -> punctual l -> (forall req, pending req l \/ (exists t, t ∈ weather l /\ req ∈ arrive t) -> writable (RequestInstanceID req) = true) ->
  dispatchPendingCommandRequests (CommandLog0 := faultyLog work) commandID l = (l', Ret tt) ->
  (forall req, pending req l -> 0 <= RequestedAt req <= time l -> handled l' (RequestInstanceID req) = true) /\ unrecorded l' = unrecorded l.
Proof.
  intros Hc Hl Hw. unfold dispatchPendingCommandRequests.
  destruct (nextTurn l) as [l1 [o n]] eqn:E. pose proof (nextTurn_calm _ _ _ _ Hc E) as ->.
  assert (reading (requestsFor commandID) l = (l1, Ret (requestsFor commandID l1))) as Er by (unfold reading; by rewrite (L_bind_run _ _ _ _ _ E)).
  rewrite (L_bind_run _ _ _ _ _ Er).
  assert (Forall (fun req => writable (RequestInstanceID req) = true) (requestsFor commandID l1)) as Hw1.
  { apply Forall_forall. intros req ((Hcmd & _) & Hin)%list_elem_of_filter. apply Hw. unfold nextTurn in E. destruct (weather l) as [|w ws]; injection E as <- _; cbn in Hin.
    - left. by split.
    - apply elem_of_app in Hin as [Hin|Hin]; [left; by split|right]. exists w. split; [left|done]. }
  apply nextTurn_quiet in E as [E _]. intros Hall.
  destruct (dispatchAll_calm (requestsFor commandID l1) l1 l') as [Hh Hu];
    [by apply (calm_suffix l); [|apply E]|apply listed_pending|by apply (punctual_later l); [apply E..|]|done|done|].
  split; [|by rewrite Hu; apply E]. intros req [Hin Hcmd] Hat. apply Hh, list_elem_of_filter. split; [|by eapply prefix_in; [apply E|]].
  split; [done|]. pose proof (clockAt_le _ _ (qu_calls _ _ E)) as Hle. unfold upToNow. unfold time in *.
  destruct (Z.leb_spec 0 (RequestedAt req)), (Z.leb_spec (RequestedAt req) (clockAt (calls l1))); (done || lia).
Qed.

Lemma wake_run w l : punctual l ->
  exists l', wake (CommandLog0 := faultyLog work) commandID w l = (l', Ret tt) /\ dispatched work commandID l l'.
Proof.
  intros Hl. destruct w; cbn [wake]; [by exists l|by apply pass_run|]. destruct (polling_run l) as (l1 & r & E1 & Hq & Hr).
  rewrite (L_bind_run _ _ _ _ _ E1). apply (quiet_dispatched work commandID) in Hq. destruct Hr as [->|[[|] ->]]; [by exists l1| |by exists l1].
  destruct (pass_run l1) as (l2 & E & Hd); [by apply Hq|]. exists l2. split; [done|by etrans].
Qed.

Lemma loop_run ws : forall l, punctual l ->
  exists l', dispatchLoop (CommandLog0 := faultyLog work) commandID ws l = (l', Ret tt) /\ dispatched work commandID l l'.
Proof.
  induction ws as [|w ws IH]; intros l Hl; cbn [dispatchLoop]; [by exists l|].
  destruct (wake_run w l Hl) as (l1 & E & Hd). destruct (IH l1) as (l2 & E2 & Hd2); [by apply Hd|].
  destruct w; [by exists l| |]; rewrite (L_bind_run _ _ _ _ _ E); (exists l2; split; [done|by etrans]).
Qed.
End Loop.
End Clock.
End Log.

(** A clock that is set back after the first result has been written: the next pass does
    not see the result, and the handler is run again although nothing failed. *)
Definition setBack : Machine := {| clockAt n := if (n <? 4)%nat then 100 + Z.of_nat n else 50 + Z.of_nat n; saltAt _ := [] |}.

Theorem clock_back_runs_again :
  let req := mkRequest (bs "i1") (bs "c") (bs "p1") [] 4 in
  let work (_ : CommandRequest) := ([] : list (list (bytes * bytes) * bytes), ([(bs "status", bs "ok")], [] : bytes)) in
  let '(l, r) := RunCommandDispatcher (CommandLog0 := faultyLog (H := setBack) work) (bs "c") [RescanTick] (mkCmdlog [req] ∅ [] [] [] 0) in
  r = Ret tt /\ ran l = [bs "i1"; bs "i1"] /\ unrecorded l = [].
Proof. by vm_compute. Qed.


(** C18 Exactly once: on a machine whose clock goes forward from each call to the next,
    with a log none of whose entries is of the future, and for a handler none of whose
    results says "running": when the node's calls work and instance ids are not empty or
    longer than 65535 bytes, whatever is
    submitted meanwhile and however the loop is woken, every request for the command that
    was there at the start, and is not dated later by its submitter's clock, is handled in
    the end, and its handler has been run exactly
    once, or not at all if it was handled before. *)
Theorem dispatcher_exactly_once `{Machine} (work : worker) (commandID : bytes) (ws : list wakeup) (l : cmdlog) (req : CommandRequest) :
  advancing -> finishes work -> punctual l -> calm l ->
  (forall r, r ∈ submitted l \/ (exists t, t ∈ weather l /\ r ∈ arrive t) -> writable (RequestInstanceID r) = true) ->
  req ∈ submitted l -> RequestCommandID req = commandID -> 0 <= RequestedAt req <= time l ->
  exists l', RunCommandDispatcher (CommandLog0 := faultyLog work) commandID ws l = (l', Ret tt) /\
    handled l' (RequestInstanceID req) = true /\
    times (RequestInstanceID req) (ran l') = times (RequestInstanceID req) (ran l) + (if handled l (RequestInstanceID req) then 0 else 1).
Proof.
  intros Hclock Hfin Hl Hc Hw Hin Hcmd Hat. unfold RunCommandDispatcher. destruct (pass_run Hclock work Hfin commandID l Hl) as (l1 & E1 & Hd1).
  destruct (loop_run Hclock work Hfin commandID ws l1) as (l2 & E2 & Hd2); [by apply Hd1|]. rewrite (L_bind_run _ _ _ _ _ E1).
  destruct (pass_calm Hclock work Hfin commandID l l1 Hc Hl) as [Hh1 Hu1]; [intros r [[Hr _]|Hr]; apply Hw; auto|done|].
  specialize (Hh1 req (conj Hin Hcmd) Hat).
  exists l2. split; [done|]. split; [by apply (stays_handled work commandID l1)|]. destruct (di_handled _ _ _ _ Hd2 _ Hh1) as [_ ->].
  pose proof (di_runs _ _ _ _ Hd1 (RequestInstanceID req)) as Hr. rewrite Hu1, Hh1 in Hr. destruct (handled l (RequestInstanceID req)); cbn in Hr; lia.
Qed.
