(* ===== verification/Tickets.v ===== *)
(** Invites, tickets and the smaller commands of the operator (src/pkg/kvctl: execinvite.go,
    joininvite.go, joinrequest.go, relaynode.go, publicaccess.go, dialcommand.go, ownaddr.go, version.go).
    A ticket is a signed message of its own that travels outside the cluster. *)

From S2P Require Import Prelude Store StoreLogic SystemKeys Payloads LogRecord Txn Hex Base64 Fsm Events Stream Quota Session Node Acl Forward Dial Join Execute Remote Channel Handler Ipc IpcNode Calendar Cron Files Registry Client Kvctl.
#[local] Open Scope Z_scope.

Section Tickets.
Context `{Env} `{OtherTag} `{RegistryEnv} `{KvctlEnv}.

(** * Relay nodes (relaynode.go) *)

Record RelayNode : Type := mkRelayNode {
  relayPeerID : bytes;
  relayMultiaddr : bytes;
  relayPriority : byte;
}.

Definition relayNodePeerID (addr : bytes) : gores bytes :=
  maddr ← wrap_err "kvctl: invalid relay node address %q: %w" (NewMultiaddr addr);
  info ← wrap_err "kvctl: relay node address %q missing peer id: %w" (AddrInfoFromP2pAddr maddr);
  Ret (infoID info).

Definition AddRelayNode (addr : bytes) (priority : byte) : K unit :=
  pid ← liftK (relayNodePeerID addr);
  wrapK "kvctl: add relay node: %w" (Kvctl.RequestPermit KindBootstrapNode pid (json_bootstrap addr priority)).
Definition ConfirmRelayNode (addr : bytes) : K unit :=
  pid ← liftK (relayNodePeerID addr);
  wrapK "kvctl: confirm relay node: %w" (Kvctl.ConfirmPermit KindBootstrapNode pid).
Definition RemoveRelayNode (addr : bytes) : K unit :=
  pid ← liftK (relayNodePeerID addr);
  wrapK "kvctl: remove relay node: %w" (Kvctl.RevokePermit KindBootstrapNode pid).

Definition GetRelayNode (addr : bytes) : K RelayNode :=
  pid ← liftK (relayNodePeerID addr);
  '(s, _) ← openCurrentSession;
  value ← stored "kvctl: relay node %s not found" s (SystemKey KindBootstrapNode StatusConfirmed pid);
  '(addr', priority) ← liftK (wrap_err "kvctl: decode relay node %s: %w" (json_unbootstrap value));
  mret (mkRelayNode pid addr' priority).

Definition relayRow (nodes : list RelayNode) (key value : bytes) : gores (list RelayNode) :=
  if blen key <? systemKeyIDOffset then Fail (Errorf "kvctl: malformed relay node key %x") else
  '(addr, priority) ← wrap_err "kvctl: decode relay node %x: %w" (json_unbootstrap value);
  id ← slice_from key systemKeyIDOffset;
  Ret (nodes ++ [mkRelayNode id addr priority]).

(** [sort.SliceStable] by priority: after the last one that is not above it *)
Fixpoint insertRelay (n : RelayNode) (l : list RelayNode) : list RelayNode :=
  match l with
  | [] => [n]
  | m :: l' => if byte_to_Z (relayPriority n) <? byte_to_Z (relayPriority m) then n :: l else m :: insertRelay n l'
  end.
Definition byPriority (l : list RelayNode) : list RelayNode := fold_left (fun acc n => insertRelay n acc) l [].

Definition ListRelayNodes : K (list RelayNode) :=
  '(s, _) ← openCurrentSession;
  let '(lo, hi) := BootstrapNodeKeyBounds in
  nodes ← eachRow (nextOf "kvctl: list relay nodes: %w" s hi) (look relayRow) lo [];
  mret (byPriority nodes).

(** * Tickets *)

(** ["before name after"] *)
Definition around (before name after : String.string) : String.string := String.append before (String.append name after).
#[local] Arguments around (before name after)%_string_scope.

(** The message as text *)
Definition signTicket (what : String.string) (m : gores Msg) : K bytes :=
  m ← liftK (wrap_err (around "" what ": %w") m);
  priv ← wrapK (around "" what ": fetch signing key: %w") (onClient GetPrivateKey);
  wire ← liftK (wrap_err (around "" what ": sign: %w") (Encode Canonicalize ed25519_sign Marshal m (Some priv)));
  mret (b64_encode wire).
#[local] Arguments signTicket what%_string_scope m.

(** The address and the token of a ticket that is signed by the peer its address names.
    [body] is the accessor, and fails on a message of another kind; [article] and [signer] are words of
    the errors. *)
Definition openTicket (article what signer : String.string) (body : Event -> option (field * field)) (ticket : bytes) : gores (bytes * bytes) :=
  wire ← wrap_err (around "invalid " what ": %w") (b64_decode ticket);
  '(m, crc, sig) ← wrap_err (around "decode " what ": %w") (Decode Canonicalize Unmarshal wire);
  match body (Body m) with
  | None => Fail (Errorf (around "not " (around article what "") " (event %s)"))
  | Some (addr, token) =>
    addr ← wrap_err (around "decode " what ": %w") (rd addr);
    token ← wrap_err (around "decode " what ": %w") (rd token);
    signerID ← wrap_err (around "" what ": %w") (relayNodePeerID addr);
    signerPub ← wrap_err (around (around "" what ": extract ") signer " public key: %w") (peer_PublicKey signerID);
    _ ← wrap_err (around "" what ": %w") (Verify Canonicalize ed25519_verify signerPub m crc sig);
    Ret (addr, token)
  end.
#[local] Arguments openTicket (article what signer)%_string_scope body ticket.

Definition joinTicketBody (e : Event) : option (field * field) := match e with E_joinTicket addr token => Some (addr, token) | _ => None end.
Definition execTicketBody (e : Event) : option (field * field) := match e with E_execTicket addr token => Some (addr, token) | _ => None end.
Definition joinRequestTicketBody (e : Event) : option (field * field) := match e with E_joinRequestTicket addr token => Some (addr, token) | _ => None end.

(** ["<addr>#<tokenHex>"] *)
Definition withToken (addr token : bytes) : bytes := addr ++ bs "#" ++ hex_encode token.

(** ** Join invites (joininvite.go) *)

Definition CreateJoinInvite (suffrage : byte) : K bytes :=
  token ← wrapK "generate invite token: %w" (randRead JoinInviteTokenSize);
  _ ← inSession "create join invite: %w" (fun s => Session_CreateJoinInvite s token suffrage);
  mret (hex_encode token).

Definition RevokeJoinInvite (tokenHex : bytes) : K unit :=
  token ← liftK (wrap_err "invalid invite token %q: %w" (hex_decode tokenHex));
  inSession "revoke join invite: %w" (fun s => Session_RevokeJoinInvite s token).

Definition CreateJoinInviteTicket (suffrage : byte) : K bytes :=
  token ← wrapK "generate invite token: %w" (randRead JoinInviteTokenSize);
  '(s, _) ← openCurrentSession;
  _ ← wrapK "create join invite ticket: %w" (onClient (Session_CreateJoinInvite s token suffrage));
  addr ← wrapK "create join invite ticket: get own addr: %w" (onClient (Session_GetOwnAddr s));
  signTicket "create join invite ticket" (NewJoinTicket addr token).

Definition VerifyJoinInviteTicket (ticket : bytes) : gores bytes :=
  '(addr, token) ← openTicket "a " "join invite ticket" "issuer" joinTicketBody ticket;
  Ret (withToken addr token).

(** ** Exec invites (execinvite.go) *)

Definition CreateExecInvite (commandID inputsJSON : bytes) (ttlSeconds : Z) : K bytes :=
  token ← wrapK "generate exec invite token: %w" (randRead ExecInviteTokenSize);
  _ ← inSession "create exec invite: %w" (fun s => Session_CreateExecInvite s token commandID inputsJSON ttlSeconds);
  mret (hex_encode token).

Definition RevokeExecInvite (tokenHex : bytes) : K unit :=
  token ← liftK (wrap_err "invalid exec invite token %q: %w" (hex_decode tokenHex));
  inSession "revoke exec invite: %w" (fun s => Session_RevokeExecInvite s token).

Definition RedeemExecInvite (sourceAddrAndToken : bytes) : K bytes :=
  match cut_at Byte.x23 sourceAddrAndToken with
  | None => liftK (Fail (Errorf "expected <sourceAddr>#<tokenHex>, got %q"))
  | Some (sourceAddr, tokenHex) =>
    token ← liftK (wrap_err "invalid exec invite token %q: %w" (hex_decode tokenHex));
    inSession "redeem exec invite: %w" (fun s => Session_RedeemExecInvite s sourceAddr token)
  end.

Definition CreateExecInviteTicket (commandID inputsJSON : bytes) (ttlSeconds : Z) : K bytes :=
  token ← wrapK "generate exec invite token: %w" (randRead ExecInviteTokenSize);
  '(s, _) ← openCurrentSession;
  _ ← wrapK "create exec invite ticket: %w" (onClient (Session_CreateExecInvite s token commandID inputsJSON ttlSeconds));
  addr ← wrapK "create exec invite ticket: get own addr: %w" (onClient (Session_GetOwnAddr s));
  signTicket "create exec invite ticket" (NewExecTicket addr token).

Definition RedeemExecInviteTicket (ticket : bytes) : K bytes :=
  '(sourceAddr, token) ← liftK (openTicket "an " "exec invite ticket" "issuer" execTicketBody ticket);
  inSession "redeem exec invite: %w" (fun s => Session_RedeemExecInvite s sourceAddr token).

(** ** Join requests (joinrequest.go) *)

Definition CreateJoinRequest : K bytes :=
  token ← inSession "create join request: %w" Session_CreateJoinRequest;
  mret (hex_encode token).

Definition CancelJoinRequest (tokenHex : bytes) : K unit :=
  token ← liftK (wrap_err "invalid join request token %q: %w" (hex_decode tokenHex));
  inSession "cancel join request: %w" (fun s => Session_CancelJoinRequest s token).

Definition RecruitPeer (ticket : bytes) (suffrage : byte) : K bytes := inSession "recruit peer: %w" (fun s => Session_Recruit s ticket suffrage).

Definition CreateJoinRequestTicket : K bytes :=
  '(s, _) ← openCurrentSession;
  token ← wrapK "create join request ticket: %w" (onClient (Session_CreateJoinRequest s));
  addr ← wrapK "create join request ticket: get own addr: %w" (onClient (Session_GetOwnAddr s));
  signTicket "create join request ticket" (NewJoinRequestTicket addr token).

Definition RedeemJoinRequestTicket (ticket : bytes) (suffrage : byte) : K bytes :=
  '(addr, token) ← liftK (openTicket "a " "join request ticket" "requester" joinRequestTicketBody ticket);
  inSession "recruit peer: %w" (fun s => Session_Recruit s (withToken addr token) suffrage).

(** * Public access, other clusters, and the node itself *)

Definition RequestPublicAccess (targetAddr note : bytes) : K bytes :=
  inSession "request public access: %w" (fun s => Session_PublicAccess s targetAddr note).

Definition EnablePublicAccess : K unit :=
  '(s, _) ← openCurrentSession;
  _ ← wrapK "enable public access: create public group: %w" (onClient (Session_PutGroup s DefaultPublicGroupID (bs "Public") true));
  _ ← wrapK "enable public access: create public command: %w" (onClient (Session_PutCommand s DefaultPublicCommandID (bs "Public Access") []));
  wrapK "enable public access: link command to group: %w" (onClient (Session_PutGroupCommand s DefaultPublicCommandID DefaultPublicGroupID)).

Definition DialSubmitCommand (targetAddr commandID inputsJSON note : bytes) : K bytes :=
  inSession "dial submit command: %w" (fun s => Session_DialSubmitCommand s targetAddr commandID inputsJSON note).
Definition DialQueryCommandLog (targetAddr instanceID : bytes) (since until limit : Z) : K (list LogRecord) :=
  inSession "dial query command log: %w" (fun s => Session_DialQueryCommandLog s targetAddr instanceID since until limit).

Definition GetOwnAddr : K bytes := inSession "get own addr: %w" Session_GetOwnAddr.
Definition Version : K VersionInfo := inSession "get version: %w" Session_GetVersion.

End Tickets.
