(* ===== verification/KvctlProps.v ===== *)
(** The operator's commands against the table of the node they talk to: what the
    listings collect, and that the local check of a command's permissions is
    the state machine's. *)

From S2P Require Import Prelude Store StoreLogic SystemKeys Payloads LogRecord Txn Hex Base64 Fsm FsmSpec FsmProps FsmInvariants FsmOps Events Stream Quota Session Node Acl Forward Dial Join Execute Remote Channel Handler HandlerProps NodeInvariants ForwardProps JoinProps ReadProps ExecuteProps NodeSafety ChannelProps RemoteProps Ipc IpcProps IpcNode Calendar Cron Files Registry Client ClientProps Kvctl Dispatch Tickets.
#[local] Open Scope Z_scope.

(** * Programs of the operator *)

Definition withClient (c : client) (k : kctl) : kctl := mkKctl (kdisk k) c (kclock k) (kticks k) (krandom k) (kevents k).

Lemma onClient_run {A} (m : C A) k c r : m (kclient k) = (c, r) -> onClient m k = (withClient c k, r).
Proof. intros E. unfold onClient. by rewrite E. Qed.

Lemma K_bind_Ret {A B} (m : K A) (f : A -> K B) k k' a : m k = (k', Ret a) -> (m ≫= f) k = f a k'.
Proof. intros E. unfold mbind, K_bind. by rewrite E. Qed.

Lemma K_bind_inv {A B} (m : K A) (f : A -> K B) k k' b : (m ≫= f) k = (k', Ret b) -> exists k1 a, m k = (k1, Ret a) /\ f a k1 = (k', Ret b).
Proof. unfold mbind, K_bind. destruct (m k) as [k1 [a|e|]]; [|done..]. eauto. Qed.

Lemma wrapK_Ret {A} fmt (m : K A) k k' a : wrapK fmt m k = (k', Ret a) <-> m k = (k', Ret a).
Proof. unfold wrapK. destruct (m k) as [k1 [b|e|]]; cbn; split; congruence. Qed.

Lemma onClient_inv {A} (m : C A) k k' a : onClient m k = (k', Ret a) -> exists c, m (kclient k) = (c, Ret a) /\ k' = withClient c k.
Proof. unfold onClient. destruct (m (kclient k)) as [c r]. intros [= <- ->]. eauto. Qed.

(** ** Reading one key *)

Section Session.
Context `{Env} `{OtherTag} (public_half : bytes -> bytes) (HW : WireCodec) (HK : NodeKeys public_half).

(** The messages about a key fit the wire format. *)
Definition getFits (t : table) (key : bytes) : Prop :=
  encodable (E_getFieldByKey (Ok key) (Ok [])) /\
  match t !! key with
  | Some v => encodable (E_getFieldByKey (Ok key) (Ok v))
  | None => encodable (Body (errorMsg 0 ErrNotFound))
  end.

Lemma errorMsg_shape id err : exists text, errorMsg id err = mkMsg id 0 (Ok []) (E_error (Ok text)).
Proof. unfold errorMsg, NewError. destruct (checkValueSize (Error err)); by eexists. Qed.

Lemma errorMsg_same_body id id' err : Body (errorMsg id err) = Body (errorMsg id' err).
Proof. unfold errorMsg. by destruct (NewError (Error err)). Qed.

Lemma get_settled m key n : healthy (nstore n) -> Body m = E_getFieldByKey (Ok key) (Ok []) ->
  exists n' resp, settled m n = (n', Ret resp) /\
    match committed (nstore n) !! key with
    | Some v => Body resp = E_getFieldByKey (Ok key) (Ok v) /\ Signature resp = Signature m
    | None => resp = errorMsg (Id m) ErrNotFound
    end /\ healthy (nstore n') /\ committed (nstore n') = committed (nstore n).
Proof.
  intros Hh HB. unfold settled, dispatch. rewrite HB. unfold onGetFieldByKey, handleGet, mbind, D_bind, onStore. cbn [liftD rd].
  destruct (reads_get Store key _ (nstore n) eq_refl) as (w' & r & -> & Hc & _ & Hh' & Hr). cbn [view Store] in Hr.
  destruct Hr as [->|[Hf _]]; [|done]. destruct (committed (nstore n) !! key) as [v|]; cbn; eexists _, _; split_and!; eauto.
Qed.

(** A session's [Get] returns what the table holds, and fails without panic otherwise. *)
Lemma Get_run s t key c : scanning s t c -> getFits t key ->
  exists c' r, Session_Get s key c = (c', r) /\ scanning s t c' /\
    match t !! key with Some v => r = Ret v | None => exists e, r = Fail e end.
Proof.
  intros [Hr Hh Ht] [He1 He2]. unfold Session_Get, request. unfold mbind at 1, C_bind at 1. unfold mbind at 1, C_bind at 1, liftC.
  cbn [NewGetFieldByKey wrap_err]. unfold mbind at 1, C_bind at 1, wrapC.
  destruct (call_run public_half s (newMsg (E_getFieldByKey (Ok key) (Ok []))) c
    (fun n' e => match t !! key with Some v => e = E_getFieldByKey (Ok key) (Ok v) | None => exists text, e = E_error (Ok text) end /\
                 healthy (nstore n') /\ committed (nstore n') = t) []) as (c' & r & -> & (Hb & Hh' & Ht') & Hr');
    [done|done|done| |].
  { intros m' Hb. destruct (get_settled m' key (cnode c) Hh Hb) as (n' & resp & Es & Hbr & Hh' & Ht').
    rewrite Ht in Hbr, Ht'. exists n', resp. split; [done|]. destruct (t !! key) as [v|].
    - destruct Hbr as [Hbr Hs]. rewrite Hbr, Hs. split; [by split_and!|]. split; [done|]. eauto.
    - subst resp. destruct (errorMsg_shape (Id m') ErrNotFound) as [text E]. rewrite (errorMsg_same_body 0 (Id m')) in He2. rewrite E in *. cbn in *.
      split; [by split_and!; eauto|]. split; [done|]. eauto. }
  cbn [wrap_err]. unfold mbind at 1, C_bind at 1, respErr, Which.
  assert (scanning s t c') as Hsc by (by constructor).
  exists c'. destruct (t !! key) as [v|].
  - exists (Ret v). rewrite Hb, bool_decide_false by done. cbn. by rewrite Hb.
  - destruct Hb as [text Hb]. rewrite Hb. rewrite bool_decide_true by done. eauto 6.
Qed.
End Session.

(** ** The loops *)

(** What a loop over rows computes: the body's result on each row until it has enough. *)
Fixpoint foldRows {A} (step : A -> bytes -> bytes -> gores (A * bool)) (rows : list row) (a : A) : gores A :=
  match rows with
  | [] => Ret a
  | (key, value) :: rows' =>
    '(a, enough) ← step a key value;
    if (enough : bool) then Ret a else foldRows step rows' a
  end.

(** The loop over the rows from [lo] on, with a body that keeps [P] and does what
    [step] says, is the fold of [step]. *)
Section Loop.
Context {A : Type} (P : kctl -> Prop) (t : table) (start stop : bytes).
Context (next : bytes -> K (option (bytes * bytes))) (body : A -> bytes -> bytes -> K (A * bool)) (step : A -> bytes -> bytes -> gores (A * bool)).

Definition reached (lo : bytes) : Prop := lo = start \/ exists k v, (k, v) ∈ select (in_range start stop) t /\ lo = k ++ [Byte.x00].

Hypothesis next_runs : forall lo k, P k -> reached lo -> exists k', next lo k = (k', Ret (head (select (in_range lo stop) t))) /\ P k'.
Hypothesis body_runs : forall a key value k, P k -> (key, value) ∈ select (in_range start stop) t ->
  exists k', body a key value k = (k', step a key value) /\ P k'.

Lemma eachPair_run rest : forall fuel lo a k,
  P k -> reached lo -> select (in_range lo stop) t = rest -> rest ⊆ select (in_range start stop) t -> (length rest < fuel)%nat ->
  exists k', eachPair fuel next body lo a k = (k', foldRows step rest a) /\ P k'.
Proof.
  induction rest as [|[key value] rest IH]; intros [|fuel] lo a k HP Hlo Hsel Hsub Hfuel; try (cbn in Hfuel; lia); cbn [eachPair foldRows];
    destruct (next_runs lo k HP Hlo) as (k1 & E1 & HP1); rewrite Hsel in E1; cbn [head] in E1; rewrite (K_bind_Ret _ _ _ _ _ E1).
  { by exists k1. }
  assert ((key, value) ∈ select (in_range start stop) t) as Hin by (apply Hsub; by left).
  destruct (body_runs a key value k1 HP1 Hin) as (k2 & E2 & HP2). unfold mbind at 1, K_bind at 1. rewrite E2.
  destruct (step a key value) as [[a' [|]]|e|]; cbn [mbind gores_bind]; [by exists k2| |by exists k2..].
  apply (IH fuel (key ++ [Byte.x00]) a' k2); [done| | | |cbn in Hfuel; lia].
  - right. by exists key, value.
  - by apply (select_after lo stop t key value).
  - intros x Hx. apply Hsub. by right.
Qed.

Lemma eachRow_run a k : P k -> committed (nstore (cnode (kclient k))) = t ->
  exists k', eachRow next body start a k = (k', foldRows step (select (in_range start stop) t) a) /\ P k'.
Proof.
  intros HP Ht. apply eachPair_run; [done|by left|done|done|]. unfold scanFuel. rewrite Ht, length_select.
  pose proof (map_filter_subseteq (fun kv : row => Is_true (in_range start stop kv.1)) t) as Hsz. apply map_subseteq_size in Hsz. lia.
Qed.
End Loop.

(** Two ranges with the same keys of the table select the same rows. *)
Lemma select_agree (p q : bytes -> bool) (t : table) : (forall k v, t !! k = Some v -> p k = q k) -> select p t = select q t.
Proof.
  intros Hpq. unfold select. assert (forall r, r ∈ rows t -> p r.1 = q r.1) as Hr.
  { intros [k v] Hin. apply elem_of_rows in Hin. by apply (Hpq k v). }
  induction (rows t) as [|r l IH]; [done|]. rewrite !filter_cons. pose proof (Hr r ltac:(by left)) as E.
  rewrite IH by (intros r' Hin; apply Hr; by right). do 2 case_decide; congruence.
Qed.

(** ** The local check of a command's permissions *)

Section Acl.
Context `{Env} `{OtherTag} (public_half : bytes -> bytes) (HW : WireCodec) (HK : NodeKeys public_half).

Definition permitsStep (t : table) (peerID : bytes) (_ : bool) (key _ : bytes) : gores (bool * bool) :=
  '(_, groupID) ← ParseGroupCommandKey key;
  if publicGroup t groupID then Ret (true, true) else
  peerGroupKey ← PeerGroupKey peerID groupID;
  Ret (if bool_decide (is_Some (t !! peerGroupKey)) then (true, true) else (false, false)).

Lemma anyPermits_fold t peerID rows : foldRows (permitsStep t peerID) rows false = anyPermits t peerID rows.
Proof.
  induction rows as [|[k v] rows IH]; [done|]. cbn [foldRows anyPermits]. unfold permitsStep at 2.
  destruct (ParseGroupCommandKey k) as [[c g]| |]; cbn [mbind gores_bind]; [|done..]. destruct (publicGroup t g); [done|].
  destruct (PeerGroupKey peerID g) as [pk| |]; cbn [mbind gores_bind]; [|done..]. by destruct (bool_decide (is_Some (t !! pk))).
Qed.

(** [present] sees exactly the keys of the table. *)
Lemma present_run s t key k : scanning s t (kclient k) -> getFits t key ->
  exists k', present s key k = (k', Ret (t !! key)) /\ scanning s t (kclient k').
Proof.
  intros Hs Hf. destruct (Get_run public_half HW HK s t key _ Hs Hf) as (c' & r & E & Hs' & Hr).
  unfold present, tryK. rewrite (onClient_run _ _ _ _ E). exists (withClient c' k). split; [|done].
  destruct (t !! key) as [v|]; [by subst r|by destruct Hr as [e ->]].
Qed.

(** The keys a peer's check may ask for *)
Definition aclFits (t : table) (commandID peerID : bytes) : Prop :=
  forall g, linked t commandID g -> getFits t (GroupKey g) /\ getFits t (relation_key KindPeerGroup peerID g).

Lemma groupPermits_run s t commandID peerID a key value k :
  blen commandID <= 0xFFFF -> scanning s t (kclient k) -> aclFits t commandID peerID ->
  (exists g, key = relation_key KindGroupCommand commandID g /\ linked t commandID g) ->
  exists k', groupPermits s peerID a key value k = (k', permitsStep t peerID a key value) /\ scanning s t (kclient k').
Proof.
  intros Hc Hs Hf (g & -> & Hl). destruct (Hf g Hl) as [Hfg Hfp]. unfold groupPermits, permitsStep.
  rewrite ParseGroupCommandKey_key by done. unfold mbind at 1, K_bind at 1, liftK at 1. cbn [mbind gores_bind].
  destruct (present_run s t (GroupKey g) k Hs Hfg) as (k1 & E1 & Hs1). rewrite (K_bind_Ret _ _ _ _ _ E1).
  assert ((match t !! GroupKey g with
           | Some value => match DecodeGroupPayload value with Ret (_, public) => mret public | Fail _ => mret false | Panic => liftK Panic end
           | None => mret false end : K bool) k1 = (k1, Ret (publicGroup t g))) as E2.
  { unfold publicGroup. destruct (t !! GroupKey g) as [v|]; [|done]. pose proof (DecodeGroupPayload_safe v).
    by destruct (DecodeGroupPayload v) as [[n b]| |]. }
  rewrite (K_bind_Ret _ _ _ _ _ E2). destruct (publicGroup t g); [by exists k1|].
  unfold mbind at 1, K_bind at 1, liftK at 1. unfold PeerGroupKey. destruct (Z.ltb_spec 0xFFFF (blen peerID)); [by exists k1|].
  destruct (present_run s t _ k1 Hs1 Hfp) as (k2 & E3 & Hs2). fold (relation_key KindPeerGroup peerID g).
  cbn [mbind gores_bind]. rewrite (K_bind_Ret _ _ _ _ _ E3). exists k2. split; [|done].
  by destruct (t !! relation_key KindPeerGroup peerID g).
Qed.

(** Within 64 bytes of padding: the groups the client's range covers *)
Definition groupsInRange (t : table) (commandID : bytes) : Prop := forall g, linked t commandID g -> bytes_le g (pad_ff 64) = true.

Lemma command_range t commandID : groupsInRange t commandID ->
  let p := relation_key KindGroupCommand commandID [] in
  select (in_range p (p ++ pad_ff 64)) t = select (in_prefix_range p) t.
Proof.
  intros Hg p. apply select_agree. intros k v Hk. apply eq_iff_eq_true. rewrite in_prefix_range_spec. split.
  - apply padded_range_prefix.
  - intros [g ->]. rewrite padded_range. apply Hg. exists v. rewrite <- Hk. f_equal. subst p. unfold relation_key. by rewrite app_nil_r, <- !app_assoc.
Qed.
End Acl.

(** A session's [ListRange], in a loop over a range whose pages fit *)
Lemma next_runs_session `{Env} `{OtherTag} (public_half : bytes -> bytes) (HW : WireCodec) (HK : NodeKeys public_half) s t start stop :
  pagesFit t start stop -> (in_range start stop [] = true -> t !! [] = None) ->
  forall lo k, scanning s t (kclient k) -> reached t start stop lo ->
    exists k', onClient (Session_ListRange s lo stop) k = (k', Ret (head (select (in_range lo stop) t))) /\ scanning s t (kclient k').
Proof.
  intros Hp Hnil lo k Hs Hlo. destruct (Hp lo Hlo) as [He1 He2].
  destruct (ListRange_run public_half s t lo stop (kclient k) Hs He1 He2) as (c' & E & Hs').
  { intros key v Hin ->. apply elem_of_select in Hin as [Hk Hin]. rewrite Hnil in Hk; [done|].
    unfold in_range in *. apply andb_true_iff in Hin as [Hle Hst]. apply andb_true_iff. split; [|done].
    destruct Hlo as [->|(k' & v' & _ & ->)]; [done|]. by destruct k'. }
  rewrite (onClient_run _ _ _ _ E). by exists (withClient c' k).
Qed.

(** C19 The operator's own check of a command's permissions is the state
    machine's: asked about the same table, over any number of calls of a session
    with the node none of which has the id of the one before it (the node takes such a request
    for the one it has answered), [isPermittedForCommand] of the client returns what
    [IsPermittedForCommand] returns inside the node, errors included, provided
    the messages fit the wire format and no linked group's id lies beyond the
    64 bytes of padding that end the client's range. *)
Theorem local_acl_agrees `{Env} `{OtherTag} (public_half : bytes -> bytes) (HW : WireCodec) (HK : NodeKeys public_half)
    (s : Session) (t : table) (commandID peerID : bytes) (k : kctl) :
  scanning s t (kclient k) -> aclFits t commandID peerID -> groupsInRange t commandID ->
  (forall lo hi, GroupCommandBounds commandID = Ret (lo, hi) -> pagesFit t lo hi) ->
  exists k', isPermittedForCommand s peerID commandID k =
    (k', (IsPermittedForCommand Store commandID peerID (nstore (cnode (kclient k)))).2) /\ scanning s t (kclient k').
Proof.
  intros Hs Hf Hg Hp. assert ((IsPermittedForCommand Store commandID peerID (nstore (cnode (kclient k)))).2 = permitted commandID peerID t) as ->.
  { destruct (IsPermittedForCommand_gates Store _ commandID peerID (nstore (cnode (kclient k))) eq_refl) as (w' & r & -> & _ & _ & _ & Hr). cbn [snd view Store] in *.
    rewrite (sc_table _ _ _ Hs) in Hr. destruct Hr as [->|[Hh _]]; [done|]. by destruct (Hh (sc_healthy _ _ _ Hs)). }
  unfold isPermittedForCommand, permitted. unfold GroupCommandBounds in *.
  destruct (decide (blen commandID <= 0xFFFF)) as [Hc|Hc]; cycle 1.
  { unfold GroupCommandKey. destruct (Z.ltb_spec 0xFFFF (blen commandID)); [|lia]. by exists k. }
  rewrite GroupCommandKey_ok in * by done. cbn [mbind gores_bind] in *. rewrite <- anyPermits_fold, <- command_range by done.
  specialize (Hp _ _ eq_refl). unfold mbind at 1, K_bind at 1, liftK at 1.
  apply (eachRow_run (fun k => scanning s t (kclient k)) t); [| |done|apply Hs].
  - apply (next_runs_session public_half HW HK); done.
  - intros a key value k1 Hs1 Hin. rewrite command_range in Hin by done. apply command_rows in Hin as (g & -> & Hk); [|done].
    apply (groupPermits_run public_half HW HK s t commandID); [done..|]. exists g. split; [done|]. by exists value.
Qed.

(** * Opening a session *)

Section Open.
Context `{Env} (HW : WireCodec).

Lemma decoded_signature buf m crc sig : Decode Canonicalize Unmarshal buf = Ret (m, crc, sig) -> Signature m = Ok sig.
Proof.
  unfold Decode. destruct (Unmarshal buf) as [root| |]; [|done..]. cbn. destruct (Signature root) as [s|] eqn:Es; [|done]. cbn.
  destruct (crc32Of _ root) as [c| |]; [cbn|done..]. destruct (negb _); [done|]. by intros [= <- _ <-].
Qed.

(** The operator's request for the node's key is not verified. *)
Lemma key_request m crc sig n : Body m = E_getPrivateKey (Ok []) ->
  localHandler m crc sig n = (n, Ret (SetBody (E_getPrivateKey (Ok ed25519Priv)) m)).
Proof.
  intros Hb. unfold localHandler, handleShmEvent, handleRequest, refuseRemote, checkSignature, gate, Which. rewrite Hb. cbn [isRemote localCaller negb].
  unfold mbind, D_bind, tryD, dispatch. by rewrite Hb.
Qed.

(** A node that answers and holds the table [t], and ids that change from call to call;
    and room for the node's key in a message *)
Record serving (t : table) (c : client) : Prop := {
  sv_up : cup c = true;
  sv_fates : cfates c = [];
  sv_healthy : healthy (nstore (cnode c));
  sv_table : committed (nstore (cnode c)) = t;
  sv_ids : changingIDs (fst <$> clast c) (crand c);
}.
Definition keyFits : Prop :=
  (forall id, 0 <= id < 2 ^ 16 -> exists buf, Encode Canonicalize ed25519_sign Marshal (mkMsg id 0 (Ok []) (E_getPrivateKey (Ok []))) None = Ret buf) /\
  encodable (E_getPrivateKey (Ok ed25519Priv)).

Lemma GetPrivateKey_run t c : serving t c -> keyFits -> exists c', GetPrivateKey c = (c', Ret ed25519Priv) /\ serving t c'.
Proof.
  intros [Hup Hf Hh Ht Hids] [He1 He2]. unfold GetPrivateKey.
  unfold mbind at 1, C_bind at 1, liftC at 1. cbn [NewGetPrivateKey wrap_err]. unfold mbind at 1, C_bind at 1, newID.
  pose proof (drawID_range (fst <$> clast c) (crand c)) as Hid. destruct (drawID_changes _ _ Hids) as [Hne Hds].
  destruct (drawID (fst <$> clast c) (crand c)) as [ds id]. cbn [fst snd] in *.
  destruct (He1 id Hid) as [buf E]. unfold mbind at 1, C_bind at 1, wrapC, Call. unfold mbind at 1, C_bind at 1, liftC at 1.
  change (SetId id (newMsg (E_getPrivateKey (Ok [])))) with (mkMsg id 0 (Ok []) (E_getPrivateKey (Ok []))). rewrite E. cbn [wrap_err].
  unfold mbind at 1, C_bind at 1, nextFate. cbn [cfates]. rewrite Hf. unfold mbind at 1, C_bind at 1, nodeServes. cbn [cup cnode]. rewrite Hup.
  destruct (encode_carries _ _ _ E) as (m' & crc & sig & Ed & [Hi Hb]). rewrite Ed. cbn [Id Body] in Hi, Hb.
  rewrite staleResponse_None by (cbn [clast]; by rewrite <- Hi).
  unfold answer, mbind at 1, D_bind at 1. rewrite key_request by done. unfold liftD.
  destruct (encodable_msg (SetId (Id m') (SetBody (E_getPrivateKey (Ok ed25519Priv)) m')) sig) as [rbuf Er];
    [done|by cbn; rewrite <- Hi|by apply decoded_signature in Ed|]. rewrite Er.
  destruct (encode_carries _ _ _ Er) as (r & crc' & sig'' & Edr & [_ Hbr]). unfold mbind, C_bind, liftC, mret, C_ret. rewrite Edr. cbn [wrap_err].
  cbn [Body SetId SetBody] in Hbr. unfold respErr, Which. rewrite <- Hbr, bool_decide_false by done. cbn [rd wrap_err].
  eexists. split; [reflexivity|]. constructor; [done..|]. cbn. by rewrite <- Hi.
Qed.

Lemma Open_run peer t c : serving t c -> keyFits ->
  exists c', Client.Open peer c = (c', Ret (mkSession peer ed25519Priv)) /\ scanning (mkSession peer ed25519Priv) t c'.
Proof.
  intros Hs Hk. destruct (GetPrivateKey_run t c Hs Hk) as (c' & E & [Hup Hf Hh Ht Hids]). exists c'. split; [|by constructor].
  unfold Client.Open, mbind, C_bind, wrapC. by rewrite E.
Qed.
End Open.

(** * Records of the log *)

Section Records.
Context `{Env} `{OtherTag} `{RegistryEnv} `{KvctlEnv} (public_half : bytes -> bytes) (HW : WireCodec) (HK : NodeKeys public_half).

(** The node selected in the registry *)
Definition selects (peer : bytes) (k : kctl) : Prop := exists d, frun (dir ← Registry.Open; Registry.Current dir) (kdisk k) = (Ret peer, d).

(** The rows decode to these records. *)
Definition decodes (rows : list row) (recs : list LogRecord) : Prop := Forall2 (fun kv rec => json_unrecord kv.2 = Ret rec) rows recs.

Definition collectStep (limit : Z) (records : list LogRecord) (_ value : bytes) : gores (list LogRecord * bool) :=
  rec ← wrap_err "log query: decode record: %w" (json_unrecord value);
  Ret (records ++ [rec], (0 <? limit) && (limit <=? blen (records ++ [rec]))).

Lemma collect_fold limit rows recs : decodes rows recs -> forall acc, (0 < limit -> blen acc < limit) ->
  foldRows (collectStep limit) rows acc = Ret (acc ++ stillWanted limit (blen acc) recs).
Proof.
  unfold stillWanted. induction 1 as [|[k v] rec rows recs Hd _ IH]; intros acc Hacc; cbn [foldRows].
  { rewrite take_nil. by destruct (0 <? limit); rewrite app_nil_r. }
  cbn [snd] in Hd. unfold collectStep at 2. rewrite Hd. cbn [wrap_err mbind gores_bind].
  assert (blen (acc ++ [rec]) = blen acc + 1) as Hlen by (unfold blen; rewrite length_app; cbn; lia). rewrite Hlen.
  assert (0 <= blen acc) by (unfold blen; lia). destruct (Z.ltb_spec 0 limit) as [Hl|Hl]; cbn [andb].
  - specialize (Hacc Hl). destruct (Z.leb_spec limit (blen acc + 1)).
    + replace (Z.to_nat (limit - blen acc)) with 1%nat by lia. cbn. by rewrite take_0.
    + rewrite IH by lia. rewrite Hlen, <- app_assoc. f_equal. f_equal.
      replace (Z.to_nat (limit - blen acc)) with (S (Z.to_nat (limit - (blen acc + 1)))) by lia. done.
  - rewrite IH by lia. by rewrite <- app_assoc.
Qed.

Lemma log_range_nonempty kind unitID start stop : in_range (ScanBounds kind unitID start stop).1 (ScanBounds kind unitID start stop).2 [] = false.
Proof. done. Qed.

Lemma LogQuery_run peer t kind unitID start stop limit recs k :
  selects peer k -> serving t (kclient k) -> keyFits ->
  pagesFit t (ScanBounds kind unitID start stop).1 (ScanBounds kind unitID start stop).2 ->
  decodes (select (in_range (ScanBounds kind unitID start stop).1 (ScanBounds kind unitID start stop).2) t) recs ->
  exists k', LogQuery kind unitID start stop limit k = (k', Ret (stillWanted limit 0 recs)) /\ serving t (kclient k') /\ kevents k' = kevents k.
Proof.
  intros [d Hd] Hs Hkf Hp Hdec. unfold LogQuery.
  assert (currentPeer k = (mkKctl d (kclient k) (kclock k) (kticks k) (krandom k) (kevents k), Ret peer)) as E1 by (unfold currentPeer, onDisk; by rewrite Hd).
  rewrite (K_bind_Ret _ _ _ _ _ E1). set (k1 := mkKctl _ _ _ _ _ _) in *.
  destruct (Open_run HW peer t (kclient k1) Hs Hkf) as (c' & Eo & Hsc).
  assert (wrapK "log query: %w" (onClient (Client.Open peer)) k1 = (withClient c' k1, Ret (mkSession peer ed25519Priv))) as E2
    by (apply wrapK_Ret, onClient_run, Eo).
  rewrite (K_bind_Ret _ _ _ _ _ E2). destruct (ScanBounds kind unitID start stop) as [lo hi] eqn:Eb. cbn [fst snd] in *.
  set (s := mkSession peer ed25519Priv) in *.
  destruct (eachRow_run (fun k' => scanning s t (kclient k') /\ kevents k' = kevents k) t lo hi (nextOf "log query: %w" s hi) (collect limit) (collectStep limit))
    with (a := @nil LogRecord) (k := withClient c' k1) as (k' & E & Hsc' & Hev).
  - intros lo' k2 [Hs2 He2] Hr. pose proof (log_range_nonempty kind unitID start stop) as Hne. rewrite Eb in Hne. cbn [fst snd] in Hne.
    destruct (next_runs_session public_half HW HK s t lo hi Hp ltac:(congruence) lo' k2 Hs2 Hr) as (k3 & E3 & Hs3).
    exists k3. split; [by apply wrapK_Ret|]. split; [done|]. apply onClient_inv in E3 as (c3 & _ & ->). done.
  - intros a key value k2 HP _. exists k2. split; [|done]. unfold collect, collectStep, mbind, K_bind, liftK.
    by destruct (wrap_err _ (json_unrecord value)).
  - done.
  - apply Hsc.
  - exists k'. rewrite E, (collect_fold limit _ recs) by (done || (change (blen []) with 0; lia)). split; [done|]. split; [|done].
    destruct Hsc' as [[] ? ?]. by constructor.
Qed.
End Records.

Lemma Now_run k : exists k', Now k = (k', Ret (kclock k)) /\ kdisk k' = kdisk k /\ kclient k' = kclient k /\ kevents k' = kevents k.
Proof. unfold Now. destruct (kticks k) as [|t ts]; by eexists. Qed.

Lemma KM_bind_run {A B} (m : KM A) (f : A -> KM B) k k' a : m k = (k', a) -> (m ≫= f) k = f a k'.
Proof. intros E. unfold mbind, KM_bind. by rewrite E. Qed.

(** The dispatcher's check is about the instance's log: on the
    selected node, the request is taken as handled exactly when the last record of
    the instance with a timestamp up to now has a status other than running;
    and a request that is handled is passed over, with no handler run and nothing
    written. *)
Theorem node_skips_handled `{Env} `{OtherTag} `{RegistryEnv} `{KvctlEnv} (public_half : bytes -> bytes) (HW : WireCodec) (HK : NodeKeys public_half)
    (handler : CommandRequest -> KM (option (list (bytes * bytes) * bytes))) (peer : bytes) (t : table) (req : CommandRequest) (recs : list LogRecord) (k : kctl) :
  let bounds := ScanBounds CommandExecLogKind (RequestInstanceID req) 0 (kclock k) in
  selects peer k -> serving t (kclient k) -> keyFits -> pagesFit t bounds.1 bounds.2 -> decodes (select (in_range bounds.1 bounds.2) t) recs ->
  exists k', commandRequestAlreadyHandled (CommandLog0 := nodeLog handler) (RequestInstanceID req) k = (k', Ret (handledBy recs)) /\
    serving t (kclient k') /\ kevents k' = kevents k /\
    (handledBy recs = true -> dispatchOne (CommandLog0 := nodeLog handler) req k = (k', Ret tt)).
Proof.
  intros bounds Hsel Hs Hkf Hp Hdec. destruct (Now_run k) as (k0 & E0 & Hd0 & Hc0 & He0).
  destruct (LogQuery_run public_half HW HK peer t CommandExecLogKind (RequestInstanceID req) 0 (kclock k) 0 recs k0) as (k' & E & Hs' & He');
    [by unfold selects; rewrite Hd0|by rewrite Hc0|done..|].
  assert (queryLog (CommandLog := nodeLog handler) (RequestInstanceID req) k = (k', Ret recs)) as Eq
    by (cbn [queryLog nodeLog]; rewrite (K_bind_Ret _ _ _ _ _ E0); exact E).
  assert (commandRequestAlreadyHandled (CommandLog0 := nodeLog handler) (RequestInstanceID req) k = (k', Ret (handledBy recs))) as Ec
    by (unfold commandRequestAlreadyHandled; by rewrite (KM_bind_run _ _ _ _ _ Eq)).
  exists k'. split; [done|]. split; [done|]. split; [congruence|]. intros Hh. unfold dispatchOne. by rewrite (KM_bind_run _ _ _ _ _ Ec), Hh.
Qed.
