(* ===== verification/TicketsProps.v ===== *)
(** Tickets: what one that is accepted vouches for, and that the tickets a node signs are
    accepted (src/pkg/kvctl: execinvite.go, joininvite.go, joinrequest.go). *)

From S2P Require Import Prelude Store StoreLogic SystemKeys Payloads LogRecord Txn Hex Base64 Fsm FsmSpec FsmProps FsmInvariants FsmOps Events Stream Quota Session Node Acl Forward Dial Join Execute Remote Channel Handler HandlerProps NodeInvariants ForwardProps JoinProps ReadProps ExecuteProps NodeSafety ChannelProps RemoteProps Ipc IpcProps IpcNode Calendar Cron Files Registry Client ClientProps Kvctl Dispatch Tickets KvctlProps.
#[local] Open Scope Z_scope.

#[local] Arguments Decode : simpl never.
#[local] Arguments Encode : simpl never.

Lemma bind_Ret {A B} (r : gores A) (f : A -> gores B) b : (r ≫= f) = Ret b -> exists a, r = Ret a /\ f a = Ret b.
Proof. destruct r as [a|e|]; [|done..]. eauto. Qed.

(** What verification checks *)
Lemma Verify_Ret `{Env} pub m crc sig : Verify Canonicalize ed25519_verify pub m crc sig = Ret tt ->
  exists payload, Canonicalize (mkMsg (Id m) crc (Ok []) (Body m)) = Ret payload /\ ed25519_verify pub payload sig = true.
Proof.
  unfold Verify, signedPayload, marshalWithCrcAndEmptySig. destruct (negb _); [done|]. destruct (negb _); [done|].
  intros (payload & Hp & Hv)%bind_Ret. apply bind_Ret in Hp as (s & _ & Hp%wrap_err_Ret). exists payload. split; [done|].
  by destruct (ed25519_verify pub payload sig).
Qed.

(** C20 An accepted ticket is vouched for by the peer it names: a text
    [openTicket] accepts is base64 of a message with a valid checksum and of the
    right kind, it returns the address and the token of that message, and the
    signature over the message's content, the two included, verifies under the
    public key of the peer the address names. *)
Theorem ticket_authentic `{Env} (article what signer : String.string) (body : Event -> option (field * field)) (ticket addr token : bytes) :
  openTicket article what signer body ticket = Ret (addr, token) ->
  exists wire m crc sig signerID pub payload,
    b64_decode ticket = Ret wire /\ Decode Canonicalize Unmarshal wire = Ret (m, crc, sig) /\ body (Body m) = Some (Ok addr, Ok token) /\
    relayNodePeerID addr = Ret signerID /\ peer_PublicKey signerID = Ret pub /\
    Canonicalize (mkMsg (Id m) crc (Ok []) (Body m)) = Ret payload /\ ed25519_verify pub payload sig = true.
Proof.
  unfold openTicket. intros (wire & E1%wrap_err_Ret & E)%bind_Ret. apply bind_Ret in E as ([[m crc] sig] & E2%wrap_err_Ret & E).
  destruct (body (Body m)) as [[fa ft]|] eqn:Eb; [|done].
  apply bind_Ret in E as (a & Ea%wrap_err_Ret & E). apply bind_Ret in E as (tk & Et%wrap_err_Ret & E).
  apply bind_Ret in E as (id & Ei%wrap_err_Ret & E). apply bind_Ret in E as (pub & Ep%wrap_err_Ret & E).
  apply bind_Ret in E as ([] & Ev%wrap_err_Ret & [= <- <-]). apply Verify_Ret in Ev as (payload & Hp & Hv).
  exists wire, m, crc, sig, id, pub, payload. split_and!; try done. rewrite Eb. destruct fa, ft; cbn in Ea, Et; congruence.
Qed.

(** A ticket opens to what was put into it: on a node that answers,
    signing a ticket message for an address that names this node succeeds, and the
    text opens, as a ticket of its kind, to exactly the address and the token. *)
Theorem ticket_roundtrip `{Env} `{OtherTag} `{RegistryEnv} `{KvctlEnv} (public_half : bytes -> bytes) (HW : WireCodec) (HK : NodeKeys public_half)
    (article what signer : String.string) (body : Event -> option (field * field)) (e : Event) (addr token signerID : bytes) (t : table) (k : kctl) :
  body e = Some (Ok addr, Ok token) -> relayNodePeerID addr = Ret signerID -> peer_PublicKey signerID = Ret ed25519Pub ->
  serving t (kclient k) -> keyFits -> encodable e ->
  exists k' ticket, signTicket what (Ret (newMsg e)) k = (k', Ret ticket) /\ serving t (kclient k') /\
    openTicket article what signer body ticket = Ret (addr, token).
Proof.
  intros Hb Hid Hpub Hs Hk He. destruct (GetPrivateKey_run HW t (kclient k) Hs Hk) as (c' & Ec & Hs').
  destruct (He 0 ltac:(lia)) as [wire Ew]. destruct (decoded_verifies public_half _ _ Ew) as (m' & crc & sig & Ed & [_ Hbm] & _ & Hv).
  exists (withClient c' k), (b64_encode wire). split; [|split; [done|]].
  - unfold signTicket. unfold mbind at 1, K_bind at 1, liftK at 1. cbn [wrap_err].
    assert (wrapK (around "" what ": fetch signing key: %w") (onClient GetPrivateKey) k = (withClient c' k, Ret ed25519Priv)) as E
      by (apply wrapK_Ret, onClient_run, Ec).
    rewrite (K_bind_Ret _ _ _ _ _ E). unfold mbind, K_bind, liftK. change (newMsg e) with (mkMsg 0 0 (Ok []) e). by rewrite Ew.
  - unfold openTicket. rewrite b64_roundtrip. cbn [wrap_err mbind gores_bind]. rewrite Ed. cbn [wrap_err mbind gores_bind].
    cbn [Body] in Hbm. rewrite <- Hbm, Hb. cbn [rd wrap_err mbind gores_bind]. rewrite Hid. cbn [wrap_err mbind gores_bind].
    rewrite Hpub. cbn [wrap_err mbind gores_bind]. by rewrite Hv.
Qed.
