(* ===== verification/KvctlWitnesses.v ===== *)
(** Concrete instances of the theorems on the operator's commands, the dispatcher and
    tickets. *)

From S2P Require Import Prelude Store StoreLogic SystemKeys Payloads LogRecord Txn Hex Base64 Fsm FsmSpec FsmProps FsmInvariants FsmOps Events Stream Quota Session Node Acl Forward Dial Join Execute Remote Channel Handler HandlerProps NodeInvariants ForwardProps JoinProps ReadProps ExecuteProps NodeSafety ChannelProps RemoteProps Ipc IpcProps IpcNode Calendar Cron Files Registry Client ClientProps Kvctl Dispatch Tickets KvctlProps DispatchProps TicketsProps Witnesses RegistryWitnesses.
#[local] Open Scope Z_scope.

#[local] Existing Instances toy toy_wire toy_keys wRegistry.
#[local] Instance wTag : OtherTag := { ptrText _ _ := Ok []; ptrFields _ _ := Ok []; dirtyBit _ := false }.
#[local] Instance wKvctl : KvctlEnv := { json_note _ c i := Ret (c ++ i); json_bootstrap a p := p :: a; isAlive _ := true }.

(** The operator of [toyLeader], who has selected it *)
Definition wSelected : disk := (frun (dir ← Registry.Open; Registry.SetCurrent dir (bs "n0")) wEmpty).2.
Definition wOperator (n : node) : kctl := mkKctl wSelected (toyClient n) 10 [] [] [].

Lemma wSelects n : selects (bs "n0") (wOperator n).
Proof. eexists. vm_compute. reflexivity. Qed.

Lemma toy_encodable_fields e tag fs :
  (forall id crc, toyMarshal (mkMsg id crc (Ok (replicate 64 Byte.x00)) e) = toyFrame tag id crc (replicate 64 Byte.x00 :: fs)) ->
  Forall (fun f => blen f < 2 ^ 16) fs -> encodable e.
Proof. intros Hm Hf. apply toy_encodable. intros id crc Hi Hc. rewrite Hm. apply toyFrame_ok; [done..|]. by constructor. Qed.

Lemma toy_getFits t key : blen key < 2 ^ 16 -> (forall v, t !! key = Some v -> blen v < 2 ^ 16) -> getFits t key.
Proof.
  intros Hk Hv. split; [by apply (toy_encodable_fields _ Byte.x04 [key; []]); [done|repeat constructor]|].
  destruct (t !! key) as [v|]; [apply (toy_encodable_fields _ Byte.x04 [key; v]); [done|repeat constructor; auto]|].
  apply (toy_encodable_fields _ Byte.x05 [bs "error"]); [done|by repeat constructor].
Qed.

Lemma toy_keyFits : keyFits.
Proof.
  split; [|apply (toy_encodable_fields _ Byte.x07 [replicate 64 Byte.x02]); [done|by repeat constructor]].
  intros id Hid. destruct (toyFrame_ok Byte.x07 id (crc32_ieee (be_bytes 2 id ++ be_bytes 4 0)) [replicate 64 Byte.x00; []]) as [b E];
    [done|apply crc32_range|by repeat constructor|]. exists b. exact E.
Qed.

Lemma toy_serving n t : nstore n = mkWorld t None [] -> serving t (toyClient n).
Proof. intros E. constructor; cbn; rewrite ?E; done || by constructor. Qed.

(** The only group linked to "c" is "g". *)
Lemma toy_linked g : linked toyTable (bs "c") g -> g = bs "g".
Proof.
  unfold linked, toyTable. cbn [list_to_map foldr]. rewrite !lookup_insert_is_Some. cbn [fst snd].
  intros Hl. repeat (destruct Hl as [E|[_ Hl]]; [try (by vm_compute in E)|]).
  - unfold relation_key in E. cbn in E. by injection E as <-.
  - destruct Hl as [v Hl]. by rewrite lookup_empty in Hl.
Qed.

Lemma local_acl_agrees_witness :
  (exists k', isPermittedForCommand toySession (bs "p1") (bs "c") (wOperator toyLeader) = (k', Ret true) /\ scanning toySession toyTable (kclient k')).
Proof.
  destruct (local_acl_agrees (fun _ => ed25519Pub) toy_wire toy_keys toySession toyTable (bs "c") (bs "p1") (wOperator toyLeader)) as (k' & E & Hs).
  - constructor; [apply toy_ready|by constructor|done].
  - intros g ->%toy_linked. split; (apply toy_getFits; [by vm_compute|]); intros v Hv; vm_compute in Hv; by injection Hv as <-.
  - intros g ->%toy_linked. by vm_compute.
  - intros lo hi [= <- <-]. apply toy_pages; [evaluate|by vm_compute|by vm_compute].
  - exists k'. split; [|exact Hs]. rewrite E. by vm_compute.
Defined.

(** The log of the instance "i1" has one entry without a status, written at 5. *)
Definition wLogKey : bytes := match BuildKey CommandExecLogKind (bs "i1") 5 (replicate RandSize Byte.x07) with Ret k => k | _ => [] end.
Definition wLogTable : table := {[wLogKey := bs "done"]}.
Definition wLogNode : node := nodeWith (mkWorld wLogTable None []) leaderRaft [] [].
Definition wRequest : CommandRequest := mkRequest (bs "i1") (bs "c") (bs "p1") [] 4.

Lemma node_skips_handled_witness :
  exists k', commandRequestAlreadyHandled (CommandLog0 := nodeLog (fun _ k => (k, None))) (bs "i1") (wOperator wLogNode) = (k', Ret true) /\
    serving wLogTable (kclient k') /\ kevents k' = [] /\
    (true = true -> dispatchOne (CommandLog0 := nodeLog (fun _ k => (k, None))) wRequest (wOperator wLogNode) = (k', Ret tt)).
Proof.
  apply (node_skips_handled (fun _ => ed25519Pub) toy_wire toy_keys (fun _ k => (k, None)) (bs "n0") wLogTable wRequest [toyRecord (bs "done")] (wOperator wLogNode)).
  - apply wSelects.
  - by apply toy_serving.
  - apply toy_keyFits.
  - apply toy_pages; [evaluate|by vm_compute|by vm_compute].
  - assert (select (in_range (ScanBounds CommandExecLogKind (bs "i1") 0 10).1 (ScanBounds CommandExecLogKind (bs "i1") 0 10).2) wLogTable
      = [(wLogKey, bs "done")]) as E by evaluate.
    change (decodes (select (in_range (ScanBounds CommandExecLogKind (bs "i1") 0 10).1 (ScanBounds CommandExecLogKind (bs "i1") 0 10).2) wLogTable) [toyRecord (bs "done")]).
    rewrite E. by repeat constructor.
Defined.

(** A handler that reports once and finishes; one append that gets lost *)
Definition wWork (req : CommandRequest) : list (list (bytes * bytes) * bytes) * (list (bytes * bytes) * bytes) :=
  ([([], bs "half way")], ([(bs "status", bs "ok")], RequestInputs req)).
Definition wTurns : list turn := [mkTurn [] Works false; mkTurn [] Works false; mkTurn [] Works false; mkTurn [] Fails false].
Definition wCmdlog (ts : list turn) : cmdlog := mkCmdlog [wRequest] ∅ [] [] ts 0.
#[local] Instance wMachine : Machine := {| clockAt n := 10 + Z.of_nat n; saltAt _ := [] |}.

Lemma wAdvancing : advancing.
Proof. intros n. cbn. lia. Qed.

Lemma wPunctual ts : punctual (wCmdlog ts).
Proof. intros id. unfold entriesOf. cbn. rewrite lookup_empty. constructor. Qed.


Lemma dispatcher_exactly_once_witness :
  exists l', RunCommandDispatcher (CommandLog0 := faultyLog wWork) (bs "c") [RescanTick; PollTick] (wCmdlog []) = (l', Ret tt) /\
    handled l' (bs "i1") = true /\ times (bs "i1") (ran l') = 0 + 1.
Proof.
  apply (dispatcher_exactly_once wWork (bs "c") [RescanTick; PollTick] (wCmdlog []) wRequest);
    [apply wAdvancing|by intros req|apply wPunctual|constructor| |by left|done|by vm_compute].
  intros r [->%list_elem_of_singleton|(t & ?%elem_of_nil & _)]; by vm_compute.
Defined.

Definition wTicketEvent : Event := E_joinRequestTicket (Ok (bs "/p2p/n0")) (Ok [Byte.x01; Byte.x02]).

Lemma wTicket_encodable : encodable wTicketEvent.
Proof. apply (toy_encodable_fields _ Byte.x08 [bs "/p2p/n0"; [Byte.x01; Byte.x02]]); [done|by repeat constructor]. Qed.

Lemma ticket_roundtrip_witness :
  exists k' ticket, signTicket "ticket" (Ret (newMsg wTicketEvent)) (wOperator toyLeader) = (k', Ret ticket) /\ serving toyTable (kclient k') /\
    openTicket "a " "ticket" "requester" joinRequestTicketBody ticket = Ret (bs "/p2p/n0", [Byte.x01; Byte.x02]).
Proof.
  apply (ticket_roundtrip (fun _ => ed25519Pub) toy_wire toy_keys "a " "ticket" "requester" joinRequestTicketBody wTicketEvent (bs "/p2p/n0") [Byte.x01; Byte.x02]
    (bs "/p2p/n0") toyTable (wOperator toyLeader)); [done|done|done|by apply toy_serving|apply toy_keyFits|apply wTicket_encodable].
Defined.

Definition wTicket : bytes := b64_encode (encoded (newMsg wTicketEvent)).

Lemma ticket_authentic_witness :
  exists wire m crc sig signerID pub payload,
    b64_decode wTicket = Ret wire /\ Decode Canonicalize Unmarshal wire = Ret (m, crc, sig) /\
    joinRequestTicketBody (Body m) = Some (Ok (bs "/p2p/n0"), Ok [Byte.x01; Byte.x02]) /\
    relayNodePeerID (bs "/p2p/n0") = Ret signerID /\ peer_PublicKey signerID = Ret pub /\
    Canonicalize (mkMsg (Id m) crc (Ok []) (Body m)) = Ret payload /\ ed25519_verify pub payload sig = true.
Proof. apply (ticket_authentic "a " "ticket" "requester" joinRequestTicketBody wTicket). by vm_compute. Defined.
