(* ===== verification/RelRecord.v ===== *)
(** Entities, keys and records of the relation store (src/examples/relations: entity.go,
    record.go): four-byte entities, nine-byte keys whose byte order is the order
    of what they name, and signed records. *)

From S2P Require Import Prelude SystemKeys Payloads LogRecord Txn Hex.
#[local] Open Scope Z_scope.

(** * Entities *)

Record Entity : Type := mkEntity {
  ELog : byte;
  EPage : byte;
  EType : byte;
  EID : byte;
}.

#[global] Instance Entity_eq_dec : EqDecision Entity.
Proof. solve_decision. Defined.
#[global] Instance Entity_countable : Countable Entity.
Proof.
  refine (inj_countable' (fun e => [byte_to_Z (ELog e); byte_to_Z (EPage e); byte_to_Z (EType e); byte_to_Z (EID e)])
    (fun l => match l with [a; b; c; d] => mkEntity (byte_of_Z a) (byte_of_Z b) (byte_of_Z c) (byte_of_Z d) | _ => mkEntity Byte.x00 Byte.x00 Byte.x00 Byte.x00 end) _).
  intros [a b c d]. cbn. by rewrite !byte_of_to_Z.
Defined.

Definition EntityLen : Z := 4.
Definition KeyLen : Z := 1 + 2 * EntityLen.

Definition Zero : Entity := mkEntity Byte.x00 Byte.x00 Byte.x00 Byte.x00.
Definition IsZero (e : Entity) : bool := bool_decide (e = Zero).

Definition Bytes (e : Entity) : bytes := [ELog e; EPage e; EType e; EID e].

(** [fmt.Sprintf("%02x.%02x.%02x.%02x", ...)] *)
Definition EntityString (e : Entity) : bytes :=
  hex_encode [ELog e] ++ bs "." ++ hex_encode [EPage e] ++ bs "." ++ hex_encode [EType e] ++ bs "." ++ hex_encode [EID e].

(** The 32-bit number the four bytes spell *)
Definition EntityValue (e : Entity) : Z :=
  Z.lor (Z.lor (Z.lor (Z.shiftl (byte_to_Z (ELog e)) 24) (Z.shiftl (byte_to_Z (EPage e)) 16)) (Z.shiftl (byte_to_Z (EType e)) 8)) (byte_to_Z (EID e)).

Definition EntityFromValue (v : Z) : Entity :=
  mkEntity (byte_of_Z (Z.shiftr v 24)) (byte_of_Z (Z.shiftr v 16)) (byte_of_Z (Z.shiftr v 8)) (byte_of_Z v).

Definition Compare (e o : Entity) : Z :=
  if EntityValue e <? EntityValue o then -1 else if EntityValue o <? EntityValue e then 1 else 0.

Definition Next (e : Entity) : option Entity :=
  if EntityValue e =? 2 ^ 32 - 1 then None else Some (EntityFromValue (u32 (EntityValue e + 1))).

Definition DecodeEntity (b : bytes) : gores Entity :=
  if blen b <? EntityLen then Fail (Errorf "relations: entity needs %d bytes, got %d") else
  log ← idx b 0; page ← idx b 1; typ ← idx b 2; id ← idx b 3;
  Ret (mkEntity log page typ id).

(** * Keys *)

Definition NamespaceRelation : byte := Byte.x10.
Definition NamespaceIndex : byte := Byte.x11.
Definition NamespacePresence : byte := Byte.x12.

Definition EntityKey (ns : byte) (a b : Entity) : bytes := ns :: Bytes a ++ Bytes b.

Definition ParseEntityKey (k : bytes) : gores (byte * Entity * Entity) :=
  if negb (blen k =? KeyLen) then Fail (Errorf "relations: key must be %d bytes, got %d") else
  fst ← slice k 1 (1 + EntityLen);
  first ← DecodeEntity fst;
  snd ← slice_from k (1 + EntityLen);
  second ← DecodeEntity snd;
  ns ← idx k 0;
  Ret (ns, first, second).

Definition DeclarationKey (e : Entity) : bytes := EntityKey NamespaceRelation e Zero.
Definition RelationKey (a b : Entity) : bytes := EntityKey NamespaceRelation a b.
Definition IndexKey (a b : Entity) : bytes := EntityKey NamespaceIndex b a.

Definition maxEntity : Entity := mkEntity Byte.xff Byte.xff Byte.xff Byte.xff.
Definition firstTarget : Entity := mkEntity Byte.x00 Byte.x00 Byte.x00 Byte.x01.

Definition RelationBoundsIn (a from to : Entity) : bytes * bytes :=
  let from := if Compare from firstTarget <? 0 then firstTarget else from in
  (EntityKey NamespaceRelation a from, EntityKey NamespaceRelation a to).
Definition RelationBounds (a : Entity) : bytes * bytes := RelationBoundsIn a firstTarget maxEntity.

Definition BacklinkBoundsIn (b from to : Entity) : bytes * bytes := (EntityKey NamespaceIndex b from, EntityKey NamespaceIndex b to).
Definition BacklinkBounds (b : Entity) : bytes * bytes := BacklinkBoundsIn b Zero maxEntity.

Definition TypeBounds (log page typ : byte) : bytes * bytes :=
  (EntityKey NamespaceRelation (mkEntity log page typ Byte.x00) Zero, EntityKey NamespaceRelation (mkEntity log page typ Byte.xff) maxEntity).

Definition NamespaceBounds (ns : byte) : bytes * bytes := (EntityKey ns Zero Zero, EntityKey ns maxEntity maxEntity).

(** * Records *)

Definition RecordVersion : byte := Byte.x01.
Definition maxFieldLen : Z := 0xFFFF.

Definition offKind : Z := 1.
Definition offAuthor : Z := 2.
Definition offCreated : Z := offAuthor + EntityLen.
Definition headerLen : Z := offCreated + 8.

(** Created in nanoseconds since the epoch; absent data and signature are empty. *)
Record Record_ : Type := mkRec {
  RKind : byte;
  RAuthor : Entity;
  RCreated : Z;
  RName : bytes;
  RData : bytes;
  RSignature : bytes;
}.

Definition ErrUnsigned : error := Errorf "relations: record is unsigned".
Definition ErrBadSignature : error := Errorf "relations: signature does not verify".

Definition SignedPayload (key unsigned : bytes) : bytes := key ++ unsigned.

(** What is signed of a record: all but the signature *)
Definition recordBody (r : Record_) : bytes :=
  [RecordVersion; RKind r] ++ Bytes (RAuthor r) ++ be_bytes 8 (u64 (RCreated r)) ++
  put16 (u16 (blen (RName r))) ++ RName r ++ put16 (u16 (blen (RData r))) ++ RData r.

Definition takeField (b : bytes) (off : Z) : gores (bytes * Z) :=
  if blen b <? off + 2 then Fail (Errorf "relations: record truncated before %s length") else
  n ← read16 b off;
  let off := off + 2 in
  if blen b <? off + n then Fail (Errorf "relations: record truncated inside %s: want %d bytes, have %d") else
  f ← slice b off (off + n);
  Ret (f, off + n).

Definition DecodeRecord (b : bytes) : gores (Record_ * bytes) :=
  if blen b <? headerLen + 2 then Fail (Errorf "relations: record too short: %d bytes") else
  version ← idx b 0;
  if negb (byte_eqb version RecordVersion) then Fail (Errorf "relations: unknown record version %d (this build understands %d)") else
  kind ← idx b offKind;
  authorBytes ← slice b offAuthor offCreated;
  author ← DecodeEntity authorBytes;
  created ← read_be b offCreated headerLen;
  '(name, off) ← takeField b headerLen;
  '(data, off) ← takeField b off;
  unsigned ← slice b 0 off;
  '(sig, off) ← takeField b off;
  if negb (off =? blen b) then Fail (Errorf "relations: record has %d trailing bytes") else
  Ret (mkRec kind author (s64 created) name data sig, unsigned).

(** [ed25519.Sign], [ed25519.Verify] and [sha256.Sum256], whose result is an array *)
Class RelEnv : Type := {
  rel_sign : bytes -> bytes -> bytes;
  rel_verify : bytes -> bytes -> bytes -> bool;
  rel_sha256 : bytes -> bytes;
}.

Definition sha256_Size : nat := 32.
Definition Sum256 `{RelEnv} (b : bytes) : bytes := take sha256_Size (rel_sha256 b ++ replicate sha256_Size Byte.x00).

Section Signed.
Context `{RelEnv}.

(** [Record.Encode]; [None] for a nil key *)
Definition EncodeRecord (r : Record_) (key : bytes) (priv : option bytes) : gores bytes :=
  if negb (blen key =? KeyLen) then Fail (Errorf "relations: encode: key must be %d bytes, got %d") else
  if maxFieldLen <? blen (RName r) then Fail (Errorf "relations: encode: name too long: %d bytes") else
  if maxFieldLen <? blen (RData r) then Fail (Errorf "relations: encode: data too long: %d bytes") else
  let body := recordBody r in
  let sig := match priv with Some priv => rel_sign priv (SignedPayload key body) | None => RSignature r end in
  Ret (body ++ put16 (u16 (blen sig)) ++ sig).

Definition VerifyRecord (r : Record_) (key unsigned pub : bytes) : gores unit :=
  if blen (RSignature r) =? 0 then Fail ErrUnsigned else
  if negb (blen pub =? PublicKeySize) then Fail (Errorf "relations: verify: public key must be %d bytes, got %d") else
  if negb (rel_verify pub (SignedPayload key unsigned) (RSignature r)) then Fail ErrBadSignature else Ret tt.

(** The first four bytes of the hash, with zero nudged to one *)
Definition TextBucket (text : bytes) : Entity :=
  match Sum256 text with
  | log :: page :: typ :: id :: _ =>
    let e := mkEntity log page typ id in
    if IsZero e then mkEntity log page typ Byte.x01 else e
  | _ => Zero
  end.

Definition PresenceKey (owner : Entity) (text : bytes) : bytes := EntityKey NamespacePresence owner (TextBucket text).
End Signed.

(** * Entities and keys: lemmas *)

Lemma Bytes_inj a b : Bytes a = Bytes b -> a = b.
Proof. destruct a, b. unfold Bytes. cbn. congruence. Qed.

Lemma blen_Bytes e : blen (Bytes e) = EntityLen.
Proof. done. Qed.
#[export] Hint Rewrite blen_Bytes : lengths.

Lemma DecodeEntity_Bytes e r : DecodeEntity (Bytes e ++ r) = Ret e.
Proof. destruct e as [x0 x1 x2 x3]. unfold DecodeEntity, Bytes, EntityLen. cbn [ELog EPage EType EID app]. by codec. Qed.

Lemma DecodeEntity_Ret b e : DecodeEntity b = Ret e -> exists r, b = Bytes e ++ r.
Proof.
  unfold DecodeEntity. destruct (Z.ltb_spec (blen b) EntityLen) as [|Hl]; [done|].
  destruct b as [|x0 [|x1 [|x2 [|x3 b]]]]; try (by cbn in Hl).
  unfold EntityLen in *. codec. intros [= <-]. by exists b.
Qed.

Lemma DecodeEntity_ok b : EntityLen <= blen b -> exists e, DecodeEntity b = Ret e.
Proof.
  intros Hl. destruct b as [|x0 [|x1 [|x2 [|x3 b]]]]; try (by cbn in Hl). exists (mkEntity x0 x1 x2 x3). exact (DecodeEntity_Bytes (mkEntity x0 x1 x2 x3) b).
Qed.

Lemma blen_EntityKey ns a b : blen (EntityKey ns a b) = KeyLen.
Proof. done. Qed.

Lemma ParseEntityKey_key ns a b : ParseEntityKey (EntityKey ns a b) = Ret (ns, a, b).
Proof. by destruct a, b. Qed.

Lemma ParseEntityKey_Ret k ns a b : ParseEntityKey k = Ret (ns, a, b) -> k = EntityKey ns a b.
Proof.
  unfold ParseEntityKey. destruct (Z.eqb_spec (blen k) KeyLen) as [Hl|]; [cbn [negb]|done].
  do 9 (destruct k as [|? k]; [done|]). destruct k as [|? k]; [|rewrite !blen_cons in Hl; pose proof (blen_nonneg k); unfold KeyLen, EntityLen in Hl; lia].
  cbn. by intros [= <- <- <-].
Qed.

Lemma EntityKey_inj ns a b ns' a' b' : EntityKey ns a b = EntityKey ns' a' b' -> ns = ns' /\ a = a' /\ b = b'.
Proof. intros E. pose proof (ParseEntityKey_key ns a b) as Hk. rewrite E, ParseEntityKey_key in Hk. by simplify_eq. Qed.

(** The numbers the entities spell, and their order *)
Lemma EntityValue_be e : EntityValue e = be_value (Bytes e).
Proof.
  destruct e as [a b c d]. unfold EntityValue, Bytes, be_value. cbn [fold_left ELog EPage EType EID]. unfold be_step.
  rewrite !Z.shiftl_0_l, Z.lor_0_l, !Z.shiftl_lor, !Z.shiftl_shiftl by lia. done.
Qed.

Lemma EntityValue_range e : 0 <= EntityValue e < 2 ^ 32.
Proof. rewrite EntityValue_be. exact (be_value_range (Bytes e)). Qed.

Lemma Bytes_FromValue v : Bytes (EntityFromValue v) = be_bytes 4 v.
Proof. unfold EntityFromValue, Bytes. cbn. by rewrite ?Z.shiftr_0_r. Qed.

Lemma EntityValue_FromValue v : 0 <= v < 2 ^ 32 -> EntityValue (EntityFromValue v) = v.
Proof. intros Hv. rewrite EntityValue_be, Bytes_FromValue, be_value_bytes. by apply Z.mod_small. Qed.

Lemma FromValue_EntityValue e : EntityFromValue (EntityValue e) = e.
Proof. apply Bytes_inj. rewrite Bytes_FromValue, EntityValue_be. exact (be_bytes_value (Bytes e)). Qed.

Lemma EntityValue_inj a b : EntityValue a = EntityValue b -> a = b.
Proof. intros E. by rewrite <- (FromValue_EntityValue a), E, FromValue_EntityValue. Qed.

(** Keys compare as the numbers do. *)
Lemma bytes_le_entities a b x y : bytes_le (Bytes a ++ x) (Bytes b ++ y) = (EntityValue a <? EntityValue b) || ((EntityValue a =? EntityValue b) && bytes_le x y).
Proof.
  pose proof (bytes_le_be 4 (EntityValue a) (EntityValue b) x y) as Hb.
  rewrite <- !Bytes_FromValue, !FromValue_EntityValue in Hb. rewrite Hb by apply EntityValue_range.
  destruct (Z.ltb_spec (EntityValue a) (EntityValue b)), (Z.ltb_spec (EntityValue b) (EntityValue a)), (Z.eqb_spec (EntityValue a) (EntityValue b)); try lia; done.
Qed.

(** * Records: lemmas *)

(** A record within the limits of its fields *)
Record fits (r : Record_) : Prop := {
  fit_created : int64 (RCreated r);
  fit_name : blen (RName r) <= maxFieldLen;
  fit_data : blen (RData r) <= maxFieldLen;
}.

Definition sealed (r : Record_) : bytes := recordBody r ++ put16 (u16 (blen (RSignature r))) ++ RSignature r.

Lemma takeField_at p f r : blen f <= maxFieldLen -> takeField (p ++ put16 (u16 (blen f)) ++ f ++ r) (blen p) = Ret (f, blen p + 2 + blen f).
Proof.
  intros Hf. pose proof (blen_nonneg f). unfold takeField, maxFieldLen, u16 in *. rewrite (Z.mod_small (blen f)) by lia.
  rewrite (proj2 (Z.ltb_ge _ _)) by lens. codec. done.
Qed.

Definition recordHeader (r : Record_) : bytes := [RecordVersion; RKind r] ++ Bytes (RAuthor r) ++ be_bytes 8 (u64 (RCreated r)).

Lemma blen_header r : blen (recordHeader r) = headerLen.
Proof. done. Qed.

Lemma recordBody_header r : recordBody r = recordHeader r ++ put16 (u16 (blen (RName r))) ++ RName r ++ put16 (u16 (blen (RData r))) ++ RData r.
Proof. unfold recordBody, recordHeader. by rewrite <- !app_assoc. Qed.

Lemma u64_s64 z : 0 <= z < 2 ^ 64 -> u64 (s64 z) = z /\ int64 (s64 z).
Proof. unfold int64, s64, u64. intros Hz. destruct (Z.ltb_spec z (2 ^ 63)); Z.div_mod_to_equations; lia. Qed.

(** The fixed part of a record *)
Lemma read_header r rest (v := recordHeader r ++ rest) :
  idx v 0 = Ret RecordVersion /\ idx v offKind = Ret (RKind r) /\ slice v offAuthor offCreated = Ret (Bytes (RAuthor r)) /\
  read_be v offCreated headerLen = Ret (u64 (RCreated r)).
Proof.
  subst v. unfold recordHeader. rewrite <- !app_assoc. split; [by codec|]. split; [by unfold offKind; codec|]. split.
  - apply (slice_mid [RecordVersion; RKind r] (Bytes (RAuthor r))); done.
  - rewrite app_assoc. apply (read_be_be ([RecordVersion; RKind r] ++ Bytes (RAuthor r)) 8); [done|done|]. unfold u64. apply Z.mod_pos_bound. lia.
Qed.

(** Decoding inverts encoding ... *)
Lemma DecodeRecord_sealed r : fits r -> blen (RSignature r) <= maxFieldLen -> DecodeRecord (sealed r) = Ret (r, recordBody r).
Proof.
  intros [Hc Hn Hd] Hs. set (rest := put16 (u16 (blen (RName r))) ++ RName r ++ put16 (u16 (blen (RData r))) ++ RData r ++ put16 (u16 (blen (RSignature r))) ++ RSignature r).
  assert (sealed r = recordHeader r ++ rest) as E by (unfold sealed, rest; rewrite recordBody_header; by rewrite <- !app_assoc).
  pose proof (read_header r rest) as (R0 & R1 & R2 & R3). cbv zeta in *. rewrite <- E in R0, R1, R2, R3.
  assert (takeField (sealed r) headerLen = Ret (RName r, headerLen + 2 + blen (RName r))) as T1.
  { rewrite E, <- (blen_header r). by apply takeField_at. }
  assert (takeField (sealed r) (headerLen + 2 + blen (RName r)) = Ret (RData r, headerLen + 2 + blen (RName r) + 2 + blen (RData r))) as T2.
  { rewrite E. unfold rest. set (p := recordHeader r ++ put16 (u16 (blen (RName r))) ++ RName r).
    replace (headerLen + 2 + blen (RName r)) with (blen p) by (subst p; rewrite !blen_app, blen_put16, blen_header; lia).
    replace (recordHeader r ++ put16 (u16 (blen (RName r))) ++ RName r ++ put16 (u16 (blen (RData r))) ++ RData r ++ put16 (u16 (blen (RSignature r))) ++ RSignature r)
      with (p ++ put16 (u16 (blen (RData r))) ++ RData r ++ put16 (u16 (blen (RSignature r))) ++ RSignature r) by (subst p; by rewrite <- !app_assoc).
    by apply takeField_at. }
  assert (blen (recordBody r) = headerLen + 2 + blen (RName r) + 2 + blen (RData r)) as Hlen
    by (rewrite recordBody_header, !blen_app, !blen_put16, blen_header; lia).
  assert (slice (sealed r) 0 (blen (recordBody r)) = Ret (recordBody r)) as T3 by (unfold sealed; apply slice_hd; done).
  assert (takeField (sealed r) (blen (recordBody r)) = Ret (RSignature r, blen (recordBody r) + 2 + blen (RSignature r))) as T4.
  { unfold sealed. rewrite <- (app_nil_r (RSignature r)) at 2. by apply takeField_at. }
  assert (blen (sealed r) = blen (recordBody r) + 2 + blen (RSignature r)) as Hl by (unfold sealed; rewrite !blen_app, blen_put16; lia).
  unfold DecodeRecord. pose proof (blen_nonneg (RName r)). pose proof (blen_nonneg (RData r)). pose proof (blen_nonneg (RSignature r)).
  rewrite (proj2 (Z.ltb_ge _ _)) by lia. rewrite R0. cbn [mbind gores_bind]. change (byte_eqb RecordVersion RecordVersion) with true. cbn [negb].
  rewrite R1. cbn [mbind gores_bind]. rewrite R2. cbn [mbind gores_bind]. rewrite <- (app_nil_r (Bytes _)), DecodeEntity_Bytes. cbn [mbind gores_bind].
  rewrite R3. cbn [mbind gores_bind]. rewrite T1. cbn [mbind gores_bind]. rewrite T2. cbn [mbind gores_bind]. rewrite <- Hlen, T3. cbn [mbind gores_bind].
  rewrite T4. cbn [mbind gores_bind]. rewrite <- Hl, Z.eqb_refl. cbn [negb]. rewrite s64_u64 by done. by destruct r.
Qed.

Lemma app_blen_inj (a b c d : bytes) : a ++ b = c ++ d -> blen a = blen c -> a = c /\ b = d.
Proof. intros E Hl. apply app_inj_1; [unfold blen in Hl; lia|done]. Qed.

Lemma same_prefix (v p q r s : bytes) : v = p ++ r -> v = q ++ s -> blen p = blen q -> p = q.
Proof. intros -> E Hl. by apply app_blen_inj in E as [-> _]. Qed.

Lemma takeField_Ret b off f off' : takeField b off = Ret (f, off') ->
  exists p r, b = p ++ (put16 (u16 (blen f)) ++ f) ++ r /\ blen p = off /\ off' = off + 2 + blen f /\ blen f <= maxFieldLen.
Proof.
  unfold takeField. destruct (Z.ltb_spec (blen b) (off + 2)); [done|]. intros E. destruct (read16 b off) as [n| |] eqn:Er; [|done..].
  cbn [mbind gores_bind] in E. destruct (Z.ltb_spec (blen b) (off + 2 + n)); [done|].
  destruct (slice b (off + 2) (off + 2 + n)) as [f'| |] eqn:Es; [|done..]. injection E as <- <-.
  apply read16_inv in Er as (p & r & -> & Hp & Hn). apply slice_inv in Es as (p' & r' & Eb & Hp' & Hf).
  rewrite app_assoc in Eb. apply app_blen_inj in Eb as [<- ->]; [|rewrite blen_app, blen_put16; lia].
  assert (blen f' = n) as Hlen by lia. exists p, r'. unfold u16. rewrite Hlen, Z.mod_small by lia. unfold maxFieldLen.
  split; [by rewrite <- !app_assoc|]. lia.
Qed.

(** ... and every text that decodes is the encoding of its record. *)
Lemma DecodeRecord_Ret v r u : DecodeRecord v = Ret (r, u) ->
  v = sealed r /\ u = recordBody r /\ fits r /\ blen (RSignature r) <= maxFieldLen.
Proof.
  unfold DecodeRecord. destruct (Z.ltb_spec (blen v) (headerLen + 2)); [done|]. intros E.
  destruct (idx v 0) as [ver| |] eqn:E0; [|done..]. cbn [mbind gores_bind] in E. destruct (byte_eqb ver RecordVersion) eqn:Ev; [cbn [negb] in E|done].
  apply bool_decide_eq_true in Ev as ->.
  destruct (idx v offKind) as [kind| |] eqn:E1; [|done..]. cbn [mbind gores_bind] in E.
  destruct (slice v offAuthor offCreated) as [ab| |] eqn:E2; [|done..]. cbn [mbind gores_bind] in E.
  destruct (DecodeEntity ab) as [author| |] eqn:E3; [|done..]. cbn [mbind gores_bind] in E.
  destruct (read_be v offCreated headerLen) as [created| |] eqn:E4; [|done..]. cbn [mbind gores_bind] in E.
  destruct (takeField v headerLen) as [[name off1]| |] eqn:T1; [|done..]. cbn [mbind gores_bind] in E.
  destruct (takeField v off1) as [[data off2]| |] eqn:T2; [|done..]. cbn [mbind gores_bind] in E.
  destruct (slice v 0 off2) as [un| |] eqn:E5; [|done..]. cbn [mbind gores_bind] in E.
  destruct (takeField v off2) as [[sig off3]| |] eqn:T3; [|done..]. cbn [mbind gores_bind] in E.
  destruct (Z.eqb_spec off3 (blen v)) as [Hoff|]; [cbn [negb] in E|done]. injection E as <- <-.
  (* the fields, one after the other *)
  apply takeField_Ret in T1 as (p1 & r1 & V1 & P1 & O1 & B1). apply takeField_Ret in T2 as (p2 & r2 & V2 & P2 & O2 & B2).
  apply takeField_Ret in T3 as (p3 & r3 & V3 & P3 & O3 & B3).
  assert (forall f, blen (put16 (u16 (blen f)) ++ f) = 2 + blen f) as Hb by (intros f; by rewrite blen_app, blen_put16).
  assert (r3 = []) as ->.
  { assert (blen v = off3 + blen r3) as Hv by (rewrite V3, !blen_app, blen_put16; lia). destruct r3; [done|]. rewrite blen_cons in Hv. pose proof (blen_nonneg r3). lia. }
  assert (p2 = p1 ++ put16 (u16 (blen name)) ++ name) as ->
    by (apply (same_prefix v _ _ _ _ V2 ltac:(by rewrite V1, app_assoc)); rewrite blen_app, Hb; lia).
  assert (p3 = (p1 ++ put16 (u16 (blen name)) ++ name) ++ put16 (u16 (blen data)) ++ data) as ->
    by (apply (same_prefix v _ _ _ _ V3 ltac:(by rewrite V2, app_assoc)); rewrite blen_app, Hb; lia).
  (* the header *)
  destruct (DecodeEntity_Ret _ _ E3) as [ra Ea]. apply slice_inv in E2 as (pa & rb & Va & Pa & Ba).
  assert (ra = []) as ->.
  { rewrite Ea, blen_app, blen_Bytes in Ba. unfold offCreated in Ba. destruct ra; [done|]. rewrite blen_cons in Ba. pose proof (blen_nonneg ra). lia. }
  rewrite app_nil_r in Ea. subst ab. unfold read_be in E4. destruct (slice v offCreated headerLen) as [cb| |] eqn:E6; [|done..]. injection E4 as <-.
  apply slice_inv in E6 as (pc & rc & Vc & Pc & Bc). change (headerLen - offCreated) with 8 in Bc.
  apply idx_inv in E0 as (q0 & s0 & V0 & Q0), E1 as (q1 & s1 & Vk & Q1). destruct q0; [|rewrite blen_cons in Q0; pose proof (blen_nonneg q0); lia].
  assert (pa = [RecordVersion; kind]) as ->.
  { apply (same_prefix v _ _ (Bytes author ++ rb) s1 Va); [|by rewrite Pa]. rewrite Vk. destruct q1 as [|x [|y q1]]; [done| |].
    - rewrite V0 in Vk. cbn in Vk. injection Vk as <- _. done.
    - rewrite !blen_cons in Q1. pose proof (blen_nonneg q1). unfold offKind in Q1. lia. }
  assert (pc = [RecordVersion; kind] ++ Bytes author) as -> by (apply (same_prefix v _ _ _ _ Vc ltac:(by rewrite Va, app_assoc)); by rewrite Pc).
  assert (p1 = ([RecordVersion; kind] ++ Bytes author) ++ cb) as ->
    by (apply (same_prefix v _ _ _ _ V1 ltac:(by rewrite Vc, app_assoc)); rewrite P1, blen_app, Bc; done).
  set (rec := mkRec kind author (s64 (be_value cb)) name data sig).
  pose proof (be_value_range cb) as Hr. rewrite Bc in Hr. change (8 * 8) with 64 in Hr. destruct (u64_s64 _ Hr) as [Hu Hi].
  assert (recordBody rec = (([RecordVersion; kind] ++ Bytes author) ++ cb) ++ (put16 (u16 (blen name)) ++ name) ++ put16 (u16 (blen data)) ++ data) as Hbody.
  { unfold recordBody, rec. cbn [RKind RAuthor RCreated RName RData]. rewrite Hu.
    assert (be_bytes 8 (be_value cb) = cb) as -> by (replace 8%nat with (length cb) by (unfold blen in Bc; lia); apply be_bytes_value).
    by rewrite <- !app_assoc. }
  split; [unfold sealed; rewrite Hbody, V3; cbn [RSignature rec]; by rewrite app_nil_r, <- !app_assoc|]. split; [|by split; [constructor|]].
  apply slice_inv in E5 as (pu & ru & Vu & Pu & Bu). destruct pu; [|rewrite blen_cons in Pu; pose proof (blen_nonneg pu); lia].
  rewrite app_nil_l in Vu. rewrite Hbody. apply (same_prefix v _ _ ru (put16 (u16 (blen sig)) ++ sig) Vu).
  - rewrite V3, app_nil_r. by rewrite <- !app_assoc.
  - rewrite Bu, O2, O1, <- P1, !blen_app, !blen_put16. lia.
Qed.

(** Records delimit themselves. *)
Lemma field_delimited f g x y : blen f <= maxFieldLen -> blen g <= maxFieldLen ->
  put16 (u16 (blen f)) ++ f ++ x = put16 (u16 (blen g)) ++ g ++ y -> f = g /\ x = y.
Proof.
  unfold maxFieldLen, u16. intros Hf Hg E. pose proof (blen_nonneg f). pose proof (blen_nonneg g). rewrite !Z.mod_small in E by lia.
  apply app_blen_inj in E as [El E]; [|by rewrite !blen_put16].
  assert (blen f = blen g) as Hl.
  { rewrite (put16_be (blen f)), (put16_be (blen g)) in El. apply (f_equal be_value) in El. rewrite !be_value_bytes in El. rewrite (Z.mod_small (blen f)), (Z.mod_small (blen g)) in El by (cbn; lia). exact El. }
  by apply app_blen_inj in E.
Qed.

Lemma sealed_delimited r1 r2 x y : fits r1 -> blen (RSignature r1) <= maxFieldLen -> fits r2 -> blen (RSignature r2) <= maxFieldLen ->
  sealed r1 ++ x = sealed r2 ++ y -> r1 = r2 /\ x = y.
Proof.
  intros [C1 N1 D1] S1 [C2 N2 D2] S2. unfold sealed. rewrite !recordBody_header, <- !app_assoc. intros E.
  apply app_blen_inj in E as [Eh E]; [|by rewrite !blen_header].
  apply field_delimited in E as [En E]; [|done..]. apply field_delimited in E as [Ed E]; [|done..]. apply field_delimited in E as [Es ->]; [|done..].
  split; [|done]. unfold recordHeader in Eh. apply app_blen_inj in Eh as [[= Ek] Eh]; [|done].
  apply app_blen_inj in Eh as [Ea%Bytes_inj Ec]; [|done]. apply (f_equal be_value) in Ec. rewrite !be_value_bytes in Ec. change (8 * Z.of_nat 8) with 64 in Ec.
  assert (u64 (RCreated r1) = u64 (RCreated r2)) as Eu by (unfold u64 in *; rewrite !Z.mod_mod in Ec by lia; done).
  apply (f_equal s64) in Eu. rewrite !s64_u64 in Eu by done.
  destruct r1, r2. cbn in *. congruence.
Qed.

Lemma decoded_delimited v w r s u u' x y : DecodeRecord v = Ret (r, u) -> DecodeRecord w = Ret (s, u') -> v ++ x = w ++ y -> v = w /\ x = y.
Proof.
  intros (-> & _ & Hf & Hs)%DecodeRecord_Ret (-> & _ & Hf' & Hs')%DecodeRecord_Ret E.
  apply sealed_delimited in E as [-> ->]; [done..|]. done.
Qed.

(** What is encoded decodes to the record with its signature. *)
Definition signed `{RelEnv} (r : Record_) (key : bytes) (priv : option bytes) : Record_ :=
  mkRec (RKind r) (RAuthor r) (RCreated r) (RName r) (RData r)
    (match priv with Some p => rel_sign p (SignedPayload key (recordBody r)) | None => RSignature r end).

Lemma EncodeRecord_Ret `{RelEnv} r key priv v : EncodeRecord r key priv = Ret v ->
  v = sealed (signed r key priv) /\ blen key = KeyLen /\ blen (RName r) <= maxFieldLen /\ blen (RData r) <= maxFieldLen.
Proof.
  unfold EncodeRecord. destruct (Z.eqb_spec (blen key) KeyLen); [cbn [negb]|done].
  destruct (Z.ltb_spec maxFieldLen (blen (RName r))); [done|]. destruct (Z.ltb_spec maxFieldLen (blen (RData r))); [done|].
  intros [= <-]. by split_and!.
Qed.

(** The record a store writes reads back as it was written. *)
Lemma record_roundtrip `{RelEnv} (r : Record_) (key : bytes) (priv : option bytes) (v : bytes) :
  int64 (RCreated r) -> blen (RSignature (signed r key priv)) <= maxFieldLen -> EncodeRecord r key priv = Ret v ->
  DecodeRecord v = Ret (signed r key priv, recordBody r).
Proof.
  intros Hc Hs (-> & _ & Hn & Hd)%EncodeRecord_Ret. rewrite DecodeRecord_sealed; [done| |done]. by constructor.
Qed.
