(* ===== verification/RelStore.v ===== *)
(** The relation store (src/examples/relations: backend.go, store.go): declarations,
    relations in both directions and the allocation of entities, as programs over
    one atomic write and one ordered read. *)

From S2P Require Import Prelude Store SystemKeys Payloads LogRecord Txn Hex RelRecord.
#[local] Open Scope Z_scope.

(** * The backend *)

Inductive OpKind : Type := OpSet | OpDelete | OpCompare | OpCompareAbsent.

Record Op : Type := mkOp {
  opKind : OpKind;
  opKey : bytes;
  opValue : bytes;
}.

Definition ErrConflict : error := Errorf "relations: precondition failed, nothing applied".

Inductive bop : Type :=
| BApply (ops : list Op)
| BScan (start stop : bytes) (limit : Z)
| BNow.

Definition breply (o : bop) : Type :=
  match o with
  | BApply _ => gores unit
  | BScan _ _ _ => gores (list (bytes * bytes))
  | BNow => Z
  end.

(** Programs over a backend and a clock *)
Inductive bprog (A : Type) : Type :=
| BDone (a : A)
| BDo (o : bop) (k : breply o -> bprog A).
Arguments BDone {A} a.
Arguments BDo {A} o k.

Fixpoint bafter {A B} (p : bprog A) (k : A -> bprog B) : bprog B :=
  match p with
  | BDone a => k a
  | BDo o c => BDo o (fun r => bafter (c r) k)
  end.

(** ** In memory *)

Definition holdsFor (t : table) (op : Op) : gores unit :=
  match opKind op with
  | OpCompare =>
    match t !! opKey op with
    | Some cur => if bytes_eqb cur (opValue op) then Ret tt else Fail (Wrapf "%w: compare on key %x" ErrConflict)
    | None => Fail (Wrapf "%w: compare on key %x" ErrConflict)
    end
  | OpCompareAbsent =>
    match t !! opKey op with
    | Some _ => Fail (Wrapf "%w: key %x already exists" ErrConflict)
    | None => Ret tt
    end
  | OpSet | OpDelete => Ret tt
  end.

Fixpoint checkOps (t : table) (ops : list Op) : gores unit :=
  match ops with
  | [] => Ret tt
  | op :: ops' => _ ← holdsFor t op; checkOps t ops'
  end.

Definition perform (t : table) (op : Op) : table :=
  match opKind op with
  | OpSet => <[opKey op := opValue op]> t
  | OpDelete => delete (opKey op) t
  | OpCompare | OpCompareAbsent => t
  end.

Definition memory_Apply (ops : list Op) (t : table) : table * gores unit :=
  match checkOps t ops with
  | Ret _ => (fold_left perform ops t, Ret tt)
  | Fail e => (t, Fail e)
  | Panic => (t, Panic)
  end.

Definition memory_Scan (start stop : bytes) (limit : Z) (t : table) : list (bytes * bytes) :=
  let pairs := select (in_range start stop) t in
  if (0 <? limit) && (limit <? blen pairs) then take (Z.to_nat limit) pairs else pairs.

(** A program alone with a memory; the clock is read from a list. *)
Fixpoint brun {A} (p : bprog A) (t : table) (clock : list Z) : table * list Z * A :=
  match p with
  | BDone a => (t, clock, a)
  | BDo o k =>
    match o return (breply o -> bprog A) -> table * list Z * A with
    | BApply ops => fun k => let '(t', r) := memory_Apply ops t in brun (k r) t' clock
    | BScan start stop limit => fun k => brun (k (Ret (memory_Scan start stop limit t))) t clock
    | BNow => fun k => brun (k (hd 0 clock)) t (tail clock)
    end k
  end.

(** * Programs of a journal *)

Record TermInfo : Type := mkTermInfo {
  Term : Entity;
  Field : Entity;
  Text : bytes;
}.

(** What a column holds *)
Definition InputKind : Type := byte.

(** What a journal remembers of the dictionary *)
Record cache : Type := mkCache {
  cFields : gmap bytes Entity;
  cFieldNames : gmap Entity bytes;
  cVocab : gmap Entity (gmap bytes Entity);
  cTerms : gmap Entity TermInfo;
  cInputs : gmap Entity byte;
}.

Definition J (A : Type) : Type := cache -> bprog (cache * gores A).
#[global] Instance J_ret : MRet J := fun A a c => BDone (c, Ret a).
#[global] Instance J_bind : MBind J := fun A B f m c =>
  bafter (m c) (fun '(c', r) =>
    match r with
    | Ret a => f a c'
    | Fail e => BDone (c', Fail e)
    | Panic => BDone (c', Panic)
    end).

Definition liftJ {A} (r : gores A) : J A := fun c => BDone (c, r).
Definition wrapJ {A} (fmt : String.string) (m : J A) : J A := fun c => bafter (m c) (fun '(c', r) => BDone (c', wrap_err fmt r)).
Arguments wrapJ {A} fmt%_string_scope m.
Definition tryJ {A B} (m : J A) (f : gores A -> J B) : J B := fun c => bafter (m c) (fun '(c', r) => f r c').
Definition failJ {A} (fmt : String.string) : J A := liftJ (Fail (Errorf fmt)).
Arguments failJ {A} fmt%_string_scope.

Definition jApply (ops : list Op) : J unit := fun c => BDo (BApply ops) (fun r => BDone (c, r)).
Definition jScan (start stop : bytes) (limit : Z) : J (list (bytes * bytes)) := fun c => BDo (BScan start stop limit) (fun r => BDone (c, r)).
Definition jNow : J Z := fun c => BDo BNow (fun now => BDone (c, Ret now)).
Definition jCache : J cache := fun c => BDone (c, Ret c).
Definition jRemember (f : cache -> cache) : J unit := fun c => BDone (f c, Ret tt).

(** * The store *)

Definition TypeAllocator : byte := Byte.xff.
Definition allocRetries : nat := 8.
Definition ErrTypeSpaceFull : error := Errorf "relations: no free id left for this type".
Definition KindDeclaration : byte := Byte.x00.
Definition counterClosed : byte := Byte.x01.

(** [priv] is [None] for a nil key. *)
Record Store_ : Type := mkStore {
  SLog : byte;
  SAuthor : Entity;
  priv : option bytes;
}.

Record Relation : Type := mkRelation {
  RelA : Entity;
  RelB : Entity;
  RelRecord : Record_;
  relKey : bytes;
  relUnsigned : bytes;
  relValue : bytes;
}.

(** An allocation ends with an entity, or with the one another writer has interned the
    text as ([errAlreadyInterned]). *)
Inductive interned (A : Type) : Type :=
| Fresh (a : A)
| AlreadyInterned (e : Entity).
Arguments Fresh {A} a.
Arguments AlreadyInterned {A} e.

Section Store.
Context `{RelEnv} (s : Store_).

Definition encodeAt (key : bytes) (kind : byte) (name data : bytes) (created : Z) : gores bytes :=
  EncodeRecord (mkRec kind (SAuthor s) created name data []) key (priv s).

Definition encode (key : bytes) (kind : byte) (name data : bytes) : J bytes :=
  now ← jNow;
  liftJ (encodeAt key kind name data now).

Definition get (key : bytes) : J (option bytes) :=
  pairs ← jScan key key 1;
  mret (snd <$> head pairs).

Definition read (key : bytes) (a b : Entity) : J (option Relation) :=
  raw ← get key;
  match raw with
  | None => mret None
  | Some raw =>
    '(rec, unsigned) ← liftJ (wrap_err "relations: read %x: %w" (DecodeRecord raw));
    mret (Some (mkRelation a b rec key unsigned raw))
  end.

Definition Declaration (e : Entity) : J (option Relation) := read (DeclarationKey e) e Zero.
Definition Lookup (a b : Entity) : J (option Relation) := read (RelationKey a b) a b.

(** [created] is [None] for the zero time. *)
Definition DeclareOps (e : Entity) (kind : byte) (name data : bytes) (created : option Z) : J (list Op) :=
  if IsZero e then failJ "relations: declare: the zero entity is the declaration placeholder, not an entity" else
  created ← match created with Some created => mret created | None => jNow end;
  value ← liftJ (encodeAt (DeclarationKey e) kind name data created);
  mret [mkOp OpSet (DeclarationKey e) value].

(** [Store.Declare] *)
Definition DeclareEntity (e : Entity) (kind : byte) (name data : bytes) : J unit :=
  ops ← DeclareOps e kind name data None;
  jApply ops.

Definition DeclareActor (e : Entity) (name pub : bytes) : J unit :=
  if negb (blen pub =? PublicKeySize) then failJ "relations: declare actor: public key must be %d bytes, got %d" else
  DeclareEntity e KindDeclaration name pub.

Definition LinkOps (a b : Entity) (kind : byte) (data : bytes) : J (list Op) :=
  if IsZero a || IsZero b then failJ "relations: link: neither side may be the zero entity (use Declare for %s)" else
  if bool_decide (a = b) then failJ "relations: link: %s cannot relate to itself" else
  fwd ← encode (RelationKey a b) kind [] data;
  rev ← encode (IndexKey a b) kind [] data;
  mret [mkOp OpSet (RelationKey a b) fwd; mkOp OpSet (IndexKey a b) rev].

Definition Link (a b : Entity) (kind : byte) (data : bytes) : J unit :=
  ops ← LinkOps a b kind data;
  jApply ops.

Definition Unlink (a b : Entity) : J unit :=
  jApply [mkOp OpDelete (RelationKey a b) []; mkOp OpDelete (IndexKey a b) []].

(** ** Counters *)

Definition counterOf (page typ : byte) : Entity := mkEntity (SLog s) page TypeAllocator typ.

(** The next free id (0: the page is full) and the flags *)
Definition decodeCounter (raw : bytes) : gores (byte * byte) :=
  '(rec, _) ← wrap_err "relations: counter %s: %w" (DecodeRecord raw);
  match RData rec with
  | [next] => Ret (next, Byte.x00)
  | [next; flags] => Ret (next, flags)
  | _ => Fail (Errorf "relations: counter %s has a %d-byte payload, want 1 or 2")
  end.

(** [flags&counterClosed != 0] *)
Definition isClosed (flags : byte) : bool := Z.testbit (byte_to_Z flags) 0.

Definition PageAllocated (page typ : byte) : J (byte * bool) :=
  raw ← get (DeclarationKey (counterOf page typ));
  match raw with
  | None => mret (Byte.x00, false)
  | Some raw =>
    '(next, _) ← liftJ (decodeCounter raw);
    mret (if byte_eqb next Byte.x00 then Byte.xff else byte_of_Z (byte_to_Z next - 1), true)
  end.

Definition LastAllocated (page typ : byte) : J byte :=
  '(last, _) ← PageAllocated page typ;
  mret last.

Definition ClosePageOps (page typ : byte) : J (list Op) :=
  let counterKey := DeclarationKey (counterOf page typ) in
  raw ← get counterKey;
  '(next, pre) ←
    match raw with
    | None => mret (Byte.x01, mkOp OpCompareAbsent counterKey [])
    | Some raw =>
      '(used, flags) ← liftJ (decodeCounter raw);
      if isClosed flags then failJ "relations: page %d of log %d is already closed for type %#x" else
      mret (used, mkOp OpCompare counterKey raw)
    end;
  value ← encode counterKey KindDeclaration [] [next; counterClosed];
  mret [pre; mkOp OpSet counterKey value].

Definition PageIsClosed (page typ : byte) : J bool :=
  raw ← get (DeclarationKey (counterOf page typ));
  match raw with
  | None => mret false
  | Some raw => '(_, flags) ← liftJ (decodeCounter raw); mret (isClosed flags)
  end.

(** ** Allocation *)

(** [from], [from + 1], ..., 255 *)
Definition bytesFrom (from : byte) : list byte := map byte_of_Z (seqZ (byte_to_Z from) (256 - byte_to_Z from)).

(** The first of the ids whose entity is not declared *)
Fixpoint freeID (page typ : byte) (ids : list byte) : J (option byte) :=
  match ids with
  | [] => mret None
  | id :: ids' =>
    exists_ ← get (DeclarationKey (mkEntity (SLog s) page typ id));
    match exists_ with
    | None => mret (Some id)
    | Some _ => freeID page typ ids'
    end
  end.

(** What a page has to offer: go on to the next one, a lost race, or the end. *)
Inductive pageResult : Type :=
| NextPage
| LostRace
| Allocated (r : interned Entity).

Definition allocateOn (typ kind : byte) (name data : bytes) (extra : Entity -> J (interned (list Op))) (page : byte) : J pageResult :=
  let counterKey := DeclarationKey (counterOf page typ) in
  raw ← get counterKey;
  counter ←
    match raw with
    | None => mret (Some (Byte.x01, mkOp OpCompareAbsent counterKey []))
    | Some raw =>
      '(used, flags) ← liftJ (decodeCounter raw);
      mret (if isClosed flags || byte_eqb used Byte.x00 then None else Some (used, mkOp OpCompare counterKey raw))
    end;
  match counter with
  | None => mret NextPage
  | Some (next, pre) =>
    free ← freeID page typ (bytesFrom next);
    match free with
    | None => mret NextPage
    | Some next =>
      let after := if byte_to_Z next <? 0xFF then byte_of_Z (byte_to_Z next + 1) else Byte.x00 in
      counterValue ← encode counterKey KindDeclaration [] [after; Byte.x00];
      let e := mkEntity (SLog s) page typ next in
      declValue ← encode (DeclarationKey e) kind name data;
      more ← extra e;
      match more with
      | AlreadyInterned existing => mret (Allocated (AlreadyInterned existing))
      | Fresh more =>
        tryJ (jApply ([pre; mkOp OpCompareAbsent (DeclarationKey e) []; mkOp OpSet counterKey counterValue; mkOp OpSet (DeclarationKey e) declValue] ++ more)) (fun r =>
          match r with
          | Ret _ => mret (Allocated (Fresh e))
          | Fail err => if errors_is err ErrConflict then mret LostRace else liftJ (Fail err)
          | Panic => liftJ Panic
          end)
      end
    end
  end.

(** [None]: no page has a free id. *)
Fixpoint allocatePages (typ kind : byte) (name data : bytes) (extra : Entity -> J (interned (list Op))) (pages : list byte) : J (option pageResult) :=
  match pages with
  | [] => mret None
  | page :: pages' =>
    r ← allocateOn typ kind name data extra page;
    match r with
    | NextPage => allocatePages typ kind name data extra pages'
    | r => mret (Some r)
    end
  end.

Fixpoint allocateAttempts (attempts : nat) (page typ kind : byte) (name data : bytes) (extra : Entity -> J (interned (list Op))) : J (interned Entity) :=
  match attempts with
  | O => failJ "relations: allocate: lost %d allocation races in a row on type %#x"
  | S attempts' =>
    r ← allocatePages typ kind name data extra (bytesFrom page);
    match r with
    | Some (Allocated e) => mret e
    | Some _ => allocateAttempts attempts' page typ kind name data extra
    | None => liftJ (Fail (Wrapf "%w: type %#x, pages %d..255 of log %d" ErrTypeSpaceFull))
    end
  end.

Definition AllocateWith (page typ kind : byte) (name data : bytes) (extra : Entity -> J (interned (list Op))) : J (interned Entity) :=
  if byte_eqb typ Byte.x00 then failJ "relations: allocate: type 0 is not usable (it would collide with the zero entity)" else
  if byte_eqb typ TypeAllocator then failJ "relations: allocate: type %#x is reserved for allocator counters" else
  allocateAttempts allocRetries page typ kind name data extra.

Definition noExtra (_ : Entity) : J (interned (list Op)) := mret (Fresh []).

Definition Allocate (page typ kind : byte) (name data : bytes) : J Entity :=
  r ← AllocateWith page typ kind name data noExtra;
  mret (match r with Fresh e | AlreadyInterned e => e end).

(** ** Listings *)

Record Range : Type := mkRange {
  From : Entity;
  To : Entity;
  Limit : Z;
}.
Definition everything : Range := mkRange Zero Zero 0.

Definition upper (r : Range) : Entity := if IsZero (To r) then maxEntity else To r.

Definition Resume (r : Range) (last : Entity) : option Range :=
  match Next last with
  | None => None
  | Some next => if 0 <? Compare next (upper r) then None else Some (mkRange next (To r) (Limit r))
  end.

Fixpoint decodePairs (pairs : list (bytes * bytes)) (flip : bool) : gores (list Relation) :=
  match pairs with
  | [] => Ret []
  | (k, v) :: pairs' =>
    '(_, first, second) ← ParseEntityKey k;
    '(rec, unsigned) ← wrap_err "relations: decode %x: %w" (DecodeRecord v);
    rest ← decodePairs pairs' flip;
    Ret ((if flip then mkRelation second first rec k unsigned v else mkRelation first second rec k unsigned v) :: rest)
  end.

Definition RelationsRange (a : Entity) (r : Range) : J (list Relation) :=
  let '(start, stop) := RelationBoundsIn a (From r) (upper r) in
  pairs ← jScan start stop (Limit r);
  liftJ (decodePairs pairs false).
Definition Relations (a : Entity) : J (list Relation) := RelationsRange a everything.

Definition BacklinksRange (b : Entity) (r : Range) : J (list Relation) :=
  let '(start, stop) := BacklinkBoundsIn b (From r) (upper r) in
  pairs ← jScan start stop (Limit r);
  liftJ (decodePairs pairs true).
Definition Backlinks (b : Entity) : J (list Relation) := BacklinksRange b everything.

Definition ListPage (page typ : byte) : J (list Relation) :=
  let '(start, stop) := TypeBounds (SLog s) page typ in
  pairs ← jScan start stop 0;
  rels ← liftJ (decodePairs pairs false);
  mret (filter (fun rel => RelB rel = Zero) rels).

Fixpoint listPages (typ : byte) (pages : list byte) (all : list Relation) : J (list Relation) :=
  match pages with
  | [] => mret all
  | p :: pages' =>
    raw ← get (DeclarationKey (counterOf p typ));
    match raw with
    | None => mret all
    | Some _ => page ← ListPage p typ; listPages typ pages' (all ++ page)
    end
  end.
Definition List_ (fromPage typ : byte) : J (list Relation) := listPages typ (bytesFrom fromPage) [].

Definition OfKind (rels : list Relation) (kind : byte) : list Relation := filter (fun r => RKind (RelRecord r) = kind) rels.

Definition Verify_ (rel : Relation) : J unit :=
  if blen (RSignature (RelRecord rel)) =? 0 then liftJ (Fail ErrUnsigned) else
  actor ← Declaration (RAuthor (RelRecord rel));
  match actor with
  | None => failJ "relations: verify: author %s is not declared"
  | Some actor => liftJ (VerifyRecord (RelRecord rel) (relKey rel) (relUnsigned rel) (RData (RelRecord actor)))
  end.

End Store.
