(* ===== verification/RelChain.v ===== *)
(** The chain of events of a log book (src/examples/relations/chain.go): every change
    is an event whose digest covers the event before it, the head records the
    last one, and a verifier replays them all. *)

From S2P Require Import Prelude Store SystemKeys Payloads LogRecord Txn Hex RelRecord RelStore.
#[local] Open Scope Z_scope.

(** * The book's own entities and kinds *)

Definition TypeField : byte := Byte.x01.
Definition TypeTerm : byte := Byte.x02.
Definition TypeEntry : byte := Byte.x03.
Definition TypeActor : byte := Byte.x04.
Definition TypePage : byte := Byte.x07.
Definition TypeChain : byte := Byte.xfe.

Definition KindTermOf : byte := Byte.x01.
Definition KindCell : byte := Byte.x02.
Definition KindQuantity : byte := Byte.x03.
Definition KindPresence : byte := Byte.x05.
Definition KindSuperseded : byte := Byte.x06.
Definition KindVoided : byte := Byte.x07.
Definition KindSupersedes : byte := Byte.x08.
Definition KindChainLink : byte := Byte.x09.
Definition KindChainHead : byte := Byte.x0b.
Definition KindRemark : byte := Byte.x0c.
Definition KindCountersign : byte := Byte.x0d.
Definition KindPageSignoff : byte := Byte.x0e.
Definition KindFieldState : byte := Byte.x0f.

Definition SchemaPage : byte := Byte.x00.
Definition FirstEntryPage : byte := Byte.x01.

Definition eventLine : byte := Byte.x01.
Definition eventStrike : byte := Byte.x02.
Definition eventCountersign : byte := Byte.x03.
Definition eventSignoff : byte := Byte.x04.
Definition eventDeclare : byte := Byte.x05.
Definition eventFieldState : byte := Byte.x06.

Definition mutableEvent (tag : byte) : bool := byte_eqb tag eventDeclare || byte_eqb tag eventFieldState.

Definition ChainDigestLen : Z := 32.
Definition chainLinkHeadLen : Z := ChainDigestLen + 1 + 2 * EntityLen.
Definition chainHeadLen : Z := ChainDigestLen + 8.
Definition maxChainSeq : Z := 2 ^ 32 - 1.
Definition genesisDigest : bytes := replicate 32 Byte.x00.

Definition EventAnchor (s : Store_) : Entity := mkEntity (SLog s) SchemaPage TypeChain Byte.x00.
Definition ChainHead (s : Store_) : Entity := mkEntity (SLog s) SchemaPage TypeChain Byte.x01.
Definition StatusMarkerOf (log : byte) : Entity := mkEntity log SchemaPage TypeEntry Byte.x00.
Definition StatusMarker (s : Store_) : Entity := StatusMarkerOf (SLog s).
Definition PageEntityOf (log page : byte) : Entity := mkEntity log page TypePage Byte.x00.
Definition PageEntity (s : Store_) (page : byte) : Entity := PageEntityOf (SLog s) page.

(** * Digests *)

Definition eventPreamble (previous : bytes) (seq : Z) (tag : byte) : bytes := previous ++ be_bytes 8 (u64 seq) ++ [tag].

Definition pair_le (a b : bytes * bytes) : Prop := Is_true (bytes_le a.1 b.1).
#[global] Instance pair_le_dec : RelDecision pair_le.
Proof. intros a b. unfold pair_le. apply _. Defined.

Definition recordText (p : bytes * bytes) : bytes := p.1 ++ p.2.

(** What is hashed of a line, and of any other event *)
Definition linePreimage (previous : bytes) (seq : Z) (entry : Entity) (records : list (bytes * bytes)) : bytes :=
  eventPreamble previous seq eventLine ++ DeclarationKey entry ++ concat (map recordText (merge_sort pair_le records)).
Definition recordPreimage (previous : bytes) (seq : Z) (tag : byte) (key value : bytes) : bytes :=
  eventPreamble previous seq tag ++ key ++ value.

(** ["fixed anchors a line points at for bookkeeping rather than content"] *)
Definition isSentinel (e : Entity) : bool := byte_eqb (EType e) TypeChain || (byte_eqb (EType e) TypeEntry && byte_eqb (EID e) Byte.x00).

(** [op.Kind == OpSet && len(op.Key) == KeyLen && op.Key[0] == NamespaceRelation] *)
Definition setsRelation (op : Op) : bool :=
  match opKind op with OpSet => true | _ => false end && (blen (opKey op) =? KeyLen) && match opKey op with ns :: _ => byte_eqb ns NamespaceRelation | [] => false end.

Definition isContent (entry : Entity) (op : Op) : bool :=
  setsRelation op &&
  match ParseEntityKey (opKey op) with
  | Ret (_, a, b) => bool_decide (a = entry) && negb (isSentinel b)
  | _ => false
  end.

Definition contentRecords (entry : Entity) (ops : list Op) : list (bytes * bytes) :=
  map (fun op => (opKey op, opValue op)) (filter (fun op => Is_true (isContent entry op)) ops).

(** The relation an operation writes that is an event of its own *)
Definition standaloneRecord (line : Entity) (op : Op) : gores (option (Entity * Entity * Record_)) :=
  if negb (setsRelation op) then Ret None else
  '(_, a, b) ← ParseEntityKey (opKey op);
  if IsZero b || bool_decide (a = line) || byte_eqb (EType a) TypeChain || byte_eqb (EType b) TypeChain then Ret None else
  '(rec, _) ← DecodeRecord (opValue op);
  Ret (Some (a, b, rec)).

Definition eventTagFor (kind : byte) : option byte :=
  if byte_eqb kind KindSuperseded || byte_eqb kind KindVoided then Some eventStrike
  else if byte_eqb kind KindCountersign then Some eventCountersign
  else if byte_eqb kind KindPageSignoff then Some eventSignoff
  else None.

(** ** The names a rename moved between *)

Definition encodeRenameTail (from to : bytes) : gores bytes :=
  if (maxFieldLen <? blen from) || (maxFieldLen <? blen to) then Fail (Errorf "relations: rename: a name longer than %d bytes cannot be chained") else
  Ret (put16 (u16 (blen from)) ++ from ++ to).

Definition decodeRenameTail (tail : bytes) : gores (bytes * bytes) :=
  if blen tail <? 2 then Fail (Errorf "relations: chain: a rename event carries %d bytes, want at least 2") else
  n ← read16 tail 0;
  if blen tail <? 2 + n then Fail (Errorf "relations: chain: a rename event is truncated inside the old name") else
  from ← slice tail 2 (2 + n);
  to ← slice_from tail (2 + n);
  Ret (from, to).

(** * Writing *)

Record mutableSpec : Type := mkMutable {
  specTag : byte;
  specSubject : Entity;
  specParty : Entity;
  specTail : bytes;
}.

(** The events of one transaction so far: the digest and the number the next one gets,
    the head as it was read, and the records of the links *)
Record chainBuilder : Type := mkBuilder {
  prev : bytes;
  seq : Z;
  headRaw : option bytes;
  chainOps : list Op;
}.

Definition decodeHead (raw : bytes) : gores (bytes * Z) :=
  '(rec, _) ← wrap_err "relations: chain head: %w" (DecodeRecord raw);
  if negb (blen (RData rec) =? chainHeadLen) then Fail (Errorf "relations: chain head carries %d bytes, want %d") else
  digest ← slice (RData rec) 0 ChainDigestLen;
  count ← read_be (RData rec) ChainDigestLen chainHeadLen;
  Ret (digest, count).

Section Chain.
Context `{RelEnv} (s : Store_).

Definition lineDigest (previous : bytes) (seq : Z) (entry : Entity) (records : list (bytes * bytes)) : bytes :=
  Sum256 (linePreimage previous seq entry records).
Definition recordDigest (previous : bytes) (seq : Z) (tag : byte) (key value : bytes) : bytes :=
  Sum256 (recordPreimage previous seq tag key value).

Definition newChainBuilder : J chainBuilder :=
  raw ← get (DeclarationKey (ChainHead s));
  match raw with
  | None => mret (mkBuilder genesisDigest 1 None [])
  | Some raw =>
    '(digest, count) ← liftJ (decodeHead raw);
    mret (mkBuilder digest (u64 (count + 1)) (Some raw) [])
  end.

(** The payload of a link *)
Definition linkPayload (digest : bytes) (tag : byte) (subject party : Entity) (tail : bytes) : bytes :=
  digest ++ [tag] ++ Bytes subject ++ Bytes party ++ tail.

Definition addEvent (b : chainBuilder) (tag : byte) (subject party : Entity) (digest tail : bytes) : J chainBuilder :=
  if maxChainSeq <? seq b then failJ "relations: chain: this log has run out of event sequence numbers (%d)" else
  ops ← LinkOps s (EventAnchor s) (EntityFromValue (seq b)) KindChainLink (linkPayload digest tag subject party tail);
  mret (mkBuilder digest (u64 (seq b + 1)) (headRaw b) (chainOps b ++ ops)).

Definition addLine (b : chainBuilder) (entry : Entity) (content : list Op) : J chainBuilder :=
  addEvent b eventLine entry Zero (lineDigest (prev b) (seq b) entry (contentRecords entry content)) [].
Definition addRecord (b : chainBuilder) (tag : byte) (subject party : Entity) (key value : bytes) : J chainBuilder :=
  addEvent b tag subject party (recordDigest (prev b) (seq b) tag key value) [].
Definition addMutable (b : chainBuilder) (spec : mutableSpec) : J chainBuilder :=
  addEvent b (specTag spec) (specSubject spec) (specParty spec)
    (recordDigest (prev b) (seq b) (specTag spec) (RelationKey (specSubject spec) (specParty spec)) (specTail spec)) (specTail spec).

Definition finish (b : chainBuilder) : J (list Op) :=
  match chainOps b with
  | [] => mret []
  | ops =>
    let headKey := DeclarationKey (ChainHead s) in
    let pre := match headRaw b with Some raw => mkOp OpCompare headKey raw | None => mkOp OpCompareAbsent headKey [] end in
    head ← DeclareOps s (ChainHead s) KindChainHead [] (prev b ++ be_bytes 8 (u64 (seq b - 1))) None;
    mret (ops ++ [pre] ++ head)
  end.

Fixpoint addMutables (b : chainBuilder) (specs : list mutableSpec) : J chainBuilder :=
  match specs with
  | [] => mret b
  | spec :: specs' => b ← addMutable b spec; addMutables b specs'
  end.

Fixpoint addStandalone (b : chainBuilder) (line : Entity) (covered : list bytes) (ops : list Op) : J chainBuilder :=
  match ops with
  | [] => mret b
  | op :: ops' =>
    if bool_decide (opKey op ∈ covered) then addStandalone b line covered ops' else
    standalone ← liftJ (standaloneRecord line op);
    match standalone with
    | None => addStandalone b line covered ops'
    | Some (subject, party, rec) =>
      match eventTagFor (RKind rec) with
      | None => failJ "relations: chain: record kind %#x on %s -> %s has no event tag; it would go unchained"
      | Some tag =>
        b ← addRecord b tag subject party (opKey op) (opValue op);
        addStandalone b line covered ops'
      end
    end
  end.

(** [line] is [Zero] when the transaction writes no line. *)
Definition chainEventOps (line : Entity) (ops : list Op) (mutable : list mutableSpec) : J (list Op) :=
  b ← newChainBuilder;
  b ← (if IsZero line then mret b else addLine b line ops);
  b ← addMutables b mutable;
  let covered := map (fun spec => RelationKey (specSubject spec) (specParty spec)) mutable in
  b ← addStandalone b line covered ops;
  finish b.

(** * Reading *)

Record Event : Type := mkEvent {
  Seq : Z;
  Subject : Entity;
  Party : Entity;
  Digest : bytes;
  Tag : byte;
  Tail : bytes;
  link : Relation;
}.

Definition EventKind (e : Event) : bytes :=
  let tag := Tag e in
  if byte_eqb tag eventLine then bs "line"
  else if byte_eqb tag eventStrike then bs "strike"
  else if byte_eqb tag eventCountersign then bs "countersign"
  else if byte_eqb tag eventSignoff then bs "signoff"
  else if byte_eqb tag eventDeclare then bs "rename"
  else if byte_eqb tag eventFieldState then bs "vocabulary"
  else bs "event(%d)".

Definition EventAt (e : Event) : Z := RCreated (RelRecord (link e)).
Definition EventBy (e : Event) : Entity := RAuthor (RelRecord (link e)).

Definition EventRename (e : Event) : option (bytes * bytes) :=
  if negb (byte_eqb (Tag e) eventDeclare) then None else
  match decodeRenameTail (Tail e) with Ret names => Some names | _ => None end.

Definition decodeEvent (rel : Relation) : gores Event :=
  let data := RData (RelRecord rel) in
  if blen data <? chainLinkHeadLen then Fail (Errorf "relations: chain: event %d carries %d bytes, want at least %d") else
  rest ← slice_from data (ChainDigestLen + 1);
  subject ← DecodeEntity rest;
  rest ← slice_from data (ChainDigestLen + 1 + EntityLen);
  party ← DecodeEntity rest;
  digest ← slice data 0 ChainDigestLen;
  tag ← idx data ChainDigestLen;
  tail ← slice_from data chainLinkHeadLen;
  Ret (mkEvent (EntityValue (RelB rel)) subject party digest tag tail rel).

Fixpoint decodeEvents (rels : list Relation) : gores (list Event) :=
  match rels with
  | [] => Ret []
  | rel :: rels' => e ← decodeEvent rel; es ← decodeEvents rels'; Ret (e :: es)
  end.

Definition Events (r : Range) : J (list Event) :=
  rels ← RelationsRange (EventAnchor s) r;
  liftJ (decodeEvents (OfKind rels KindChainLink)).

Definition readHead : J (option (bytes * Z)) :=
  raw ← get (DeclarationKey (ChainHead s));
  match raw with
  | None => mret None
  | Some raw => head ← liftJ (decodeHead raw); mret (Some head)
  end.

(** [signatureChecker]: the keys of the authors met so far *)
Definition verifyWith (keys : gmap Entity bytes) (rel : Relation) : J (gmap Entity bytes) :=
  let author := RAuthor (RelRecord rel) in
  '(keys, pub) ←
    match keys !! author with
    | Some pub => mret (keys, pub)
    | None =>
      actor ← Declaration author;
      match actor with
      | None => failJ "author %s is not declared"
      | Some actor => mret (<[author := RData (RelRecord actor)]> keys, RData (RelRecord actor))
      end
    end;
  _ ← liftJ (VerifyRecord (RelRecord rel) (relKey rel) (relUnsigned rel) pub);
  mret keys.

Fixpoint lineRecords (keys : gmap Entity bytes) (rels : list Relation) (records : list (bytes * bytes)) : J (gmap Entity bytes * list (bytes * bytes)) :=
  match rels with
  | [] => mret (keys, records)
  | rel :: rels' =>
    if isSentinel (RelB rel) || byte_eqb (RKind (RelRecord rel)) KindCountersign then lineRecords keys rels' records else
    keys ← wrapJ "relation to %s: %w" (verifyWith keys rel);
    lineRecords keys rels' (records ++ [(relKey rel, relValue rel)])
  end.

Definition lineContent (keys : gmap Entity bytes) (entry : Entity) : J (gmap Entity bytes * list (bytes * bytes)) :=
  decl ← Declaration entry;
  match decl with
  | None => failJ "it has a chain link but no declaration"
  | Some decl =>
    keys ← wrapJ "declaration: %w" (verifyWith keys decl);
    rels ← Relations entry;
    lineRecords keys rels []
  end.

(** ** Every line the allocator handed out is chained *)

Definition leftoverLines (chained : gset Entity) : gores unit :=
  if bool_decide (chained = ∅) then Ret tt else Fail (Errorf "relations: chain: line %s is chained but was never allocated a line id").

Fixpoint chainedOn (page : byte) (ids : list byte) (chained : gset Entity) : gores (gset Entity) :=
  match ids with
  | [] => Ret chained
  | id :: ids' =>
    let entry := mkEntity (SLog s) page TypeEntry id in
    if bool_decide (entry ∈ chained) then chainedOn page ids' (chained ∖ {[entry]})
    else Fail (Errorf "relations: chain: line %s is missing -- the allocator handed out its id, but no event wrote it")
  end.

Fixpoint checkPages (pages : list byte) (chained : gset Entity) : J unit :=
  match pages with
  | [] => liftJ (leftoverLines chained)
  | page :: pages' =>
    '(last, reached) ← PageAllocated s page TypeEntry;
    if negb (reached : bool) then liftJ (leftoverLines chained) else
    chained ← liftJ (chainedOn page (map byte_of_Z (seqZ 1 (byte_to_Z last))) chained);
    checkPages pages' chained
  end.

Definition checkEveryLineIsChained (chained : gset Entity) : J unit := checkPages (bytesFrom FirstEntryPage) chained.

(** ** Records that can change again *)

Definition matchesMutableState (event : Event) (record : Relation) : gores unit :=
  if byte_eqb (Tag event) eventDeclare then
    '(_, want) ← decodeRenameTail (Tail event);
    if bytes_eqb (RName (RelRecord record)) want then Ret tt
    else Fail (Errorf "%s is named %q, but the last rename (event %d) set it to %q -- it has been renamed with no record of it")
  else if byte_eqb (Tag event) eventFieldState then
    match Tail event, RData (RelRecord record) with
    | [want], [state] => if byte_eqb state want then Ret tt else Fail (Errorf "the vocabulary of %s is in a state the chain does not record (event %d)")
    | _, _ => Fail (Errorf "the vocabulary of %s is in a state the chain does not record (event %d)")
    end
  else Ret tt.

Fixpoint checkMutables (keys : gmap Entity bytes) (events : list Event) : J unit :=
  match events with
  | [] => mret tt
  | event :: events' =>
    record ← Lookup (Subject event) (Party event);
    match record with
    | None => failJ "relations: chain: event %d records a %s on %s, but that record is gone -- it has been removed"
    | Some record =>
      keys ← wrapJ "relations: chain: %s on %s: %w" (verifyWith keys record);
      _ ← liftJ (wrap_err "relations: chain: %s" (matchesMutableState event record));
      checkMutables keys events'
    end
  end.

Definition checkMutableState (keys : gmap Entity bytes) (latest : gmap bytes Event) : J unit := checkMutables keys (map_to_list latest).*2.

(** ** The replay *)

Record replay : Type := mkReplay {
  rpPrevious : bytes;
  rpKeys : gmap Entity bytes;
  rpLatest : gmap bytes Event;
}.

(** The digest an event should have *)
Definition wantedDigest (rp : replay) (event : Event) : J (bytes * gmap Entity bytes * gmap bytes Event) :=
  if byte_eqb (Tag event) eventLine then
    '(keys, records) ← wrapJ "relations: chain: event %d: line %s: %w" (lineContent (rpKeys rp) (Subject event));
    mret (lineDigest (rpPrevious rp) (Seq event) (Subject event) records, keys, rpLatest rp)
  else if mutableEvent (Tag event) then
    let key := RelationKey (Subject event) (Party event) in
    mret (recordDigest (rpPrevious rp) (Seq event) (Tag event) key (Tail event), rpKeys rp, <[key := event]> (rpLatest rp))
  else
    record ← Lookup (Subject event) (Party event);
    match record with
    | None => failJ "relations: chain: event %d records a %s on %s, but that record is gone -- it has been removed"
    | Some record =>
      keys ← wrapJ "relations: chain: event %d (%s on %s): %w" (verifyWith (rpKeys rp) record);
      mret (recordDigest (rpPrevious rp) (Seq event) (Tag event) (relKey record) (relValue record), keys, rpLatest rp)
    end.

Definition replayOne (i : Z) (event : Event) (rp : replay) : J replay :=
  if negb (Seq event =? i + 1) then failJ "relations: chain: event %d is missing -- the next one recorded is %d, a %s on %s" else
  keys ← wrapJ "relations: chain: event %d (%s on %s): chain link: %w" (verifyWith (rpKeys rp) (link event));
  '(want, keys, latest) ← wantedDigest (mkReplay (rpPrevious rp) keys (rpLatest rp)) event;
  if negb (bytes_eqb want (Digest event))
  then failJ "relations: chain: event %d (%s on %s) does not match its digest -- it, or something before it, has been changed or removed" else
  mret (mkReplay (Digest event) keys latest).

Fixpoint replayAll (i : Z) (events : list Event) (rp : replay) : J replay :=
  match events with
  | [] => mret rp
  | event :: events' => rp ← replayOne i event rp; replayAll (i + 1) events' rp
  end.

Definition lineEvents (events : list Event) : gset Entity := list_to_set (Subject <$> filter (fun e => Tag e = eventLine) events).

(** The number of events checked *)
Definition VerifyChain : J Z :=
  events ← Events everything;
  head ← readHead;
  match head with
  | None => if 0 <? blen events then failJ "relations: chain: %d events are chained but the log has no head record" else mret 0
  | Some (headDigest, headCount) =>
    _ ← checkEveryLineIsChained (lineEvents events);
    rp ← replayAll 0 events (mkReplay genesisDigest ∅ ∅);
    if negb (blen events =? headCount) then failJ "relations: chain: the head counts %d events, %d are chained -- %d have been removed" else
    if negb (bytes_eqb (rpPrevious rp) headDigest) then failJ "relations: chain: the replayed chain does not end at the head the log records" else
    _ ← checkMutableState (rpKeys rp) (rpLatest rp);
    mret (blen events)
  end.

End Chain.
