(* ===== verification/RelRun.v ===== *)
(** Programs of a journal that only read (src/examples/relations): what they answer is
    a function of the table, and they leave the table, the clock and the cache
    as they were. *)

From S2P Require Import Prelude Store SystemKeys Payloads LogRecord Txn Hex RelRecord RelStore RelChain.
#[local] Open Scope Z_scope.

Create HintDb quiet.

Lemma brun_after {A B} (p : bprog A) (k : A -> bprog B) t clock :
  brun (bafter p k) t clock = (let '(t', clock', a) := brun p t clock in brun (k a) t' clock').
Proof.
  revert t clock. induction p as [a|o c IH]; intros t clock; [done|]. destruct o; cbn; [|by rewrite IH..].
  destruct (memory_Apply ops t) as [t' r]. by rewrite IH.
Qed.

Definition emptyCache : cache := mkCache ∅ ∅ ∅ ∅ ∅.

(** The answer of a program on a table *)
Definition look {A} (m : J A) (t : table) : gores A := (brun (m emptyCache) t []).2.2.

(** It only reads. *)
Definition quiet {A} (m : J A) : Prop := forall c t clock, brun (m c) t clock = (t, clock, (c, look m t)).

Lemma quiet_intro {A} (m : J A) (f : table -> gores A) : (forall c t clock, brun (m c) t clock = (t, clock, (c, f t))) -> quiet m /\ forall t, look m t = f t.
Proof. intros E. assert (forall t, look m t = f t) as Hl by (intros t; unfold look; by rewrite E). split; [|done]. intros c t clock. by rewrite E, Hl. Qed.

Lemma quiet_lift {A} (r : gores A) : quiet (liftJ r).
Proof. by apply (quiet_intro _ (fun _ => r)). Qed.
Lemma look_lift {A} (r : gores A) t : look (liftJ r) t = r.
Proof. done. Qed.

Lemma quiet_ret {A} (a : A) : quiet (mret a : J A).
Proof. by apply (quiet_intro _ (fun _ => Ret a)). Qed.
Lemma look_ret {A} (a : A) t : look (mret a) t = Ret a.
Proof. done. Qed.

Lemma quiet_fail {A} fmt : quiet (failJ fmt : J A).
Proof. apply quiet_lift. Qed.
Lemma look_fail {A} fmt t : look (failJ fmt : J A) t = Fail (Errorf fmt).
Proof. done. Qed.

Lemma quiet_scan start stop limit : quiet (jScan start stop limit).
Proof. by apply (quiet_intro _ (fun t => Ret (memory_Scan start stop limit t))). Qed.
Lemma look_scan start stop limit t : look (jScan start stop limit) t = Ret (memory_Scan start stop limit t).
Proof. done. Qed.

Lemma bind_run {A B} (m : J A) (f : A -> J B) c t clock : quiet m ->
  brun ((m ≫= f) c) t clock = match look m t with
    | Ret a => brun (f a c) t clock
    | Fail e => (t, clock, (c, Fail e))
    | Panic => (t, clock, (c, Panic)) end.
Proof. intros Hq. unfold mbind, J_bind. rewrite brun_after, Hq. by destruct (look m t). Qed.

Lemma look_bind {A B} (m : J A) (f : A -> J B) t : quiet m -> look (m ≫= f) t = (a ← look m t; look (f a) t).
Proof. intros Hq. unfold look at 1. rewrite bind_run by done. by destruct (look m t). Qed.

Lemma quiet_bind {A B} (m : J A) (f : A -> J B) : quiet m -> (forall a, quiet (f a)) -> quiet (m ≫= f).
Proof.
  intros Hq Hf c t clock. rewrite bind_run, look_bind by done. destruct (look m t); cbn; [apply Hf|done..].
Qed.

Lemma wrap_run {A} fmt (m : J A) c t clock : quiet m -> brun (wrapJ fmt m c) t clock = (t, clock, (c, wrap_err fmt (look m t))).
Proof. intros Hq. unfold wrapJ. by rewrite brun_after, Hq. Qed.
Lemma quiet_wrap {A} fmt (m : J A) : quiet m -> quiet (wrapJ fmt m).
Proof. intros Hq. apply (quiet_intro _ (fun t => wrap_err fmt (look m t))). intros. by apply wrap_run. Qed.
Lemma look_wrap {A} fmt (m : J A) t : quiet m -> look (wrapJ fmt m) t = wrap_err fmt (look m t).
Proof. intros Hq. unfold look at 1. by rewrite wrap_run. Qed.

#[export] Hint Resolve quiet_lift quiet_ret quiet_fail quiet_scan quiet_wrap : quiet.
#[export] Hint Extern 2 (quiet (_ ≫= _)) => (apply quiet_bind; [|intros]) : quiet.
#[export] Hint Extern 1 (quiet (match ?x with _ => _ end)) => destruct x : quiet.
#[export] Hint Extern 3 (quiet (let '(_, _) := ?x in _)) => destruct x : quiet.

(** What a bind that succeeds went through *)
Lemma look_bind_Ret {A B} (m : J A) (f : A -> J B) t b : quiet m -> look (m ≫= f) t = Ret b ->
  exists a, look m t = Ret a /\ look (f a) t = Ret b.
Proof. intros Hq. rewrite look_bind by done. destruct (look m t) as [a| |]; [|done..]. intros E. by exists a. Qed.

Lemma look_wrap_Ret {A} fmt (m : J A) t a : quiet m -> look (wrapJ fmt m) t = Ret a -> look m t = Ret a.
Proof. intros Hq. rewrite look_wrap by done. by destruct (look m t). Qed.

(** ** The readers of the store and of the chain *)
Section Readers.
Context `{RelEnv} (s : Store_).

Lemma quiet_get key : quiet (get key).
Proof. unfold get. eauto with quiet. Qed.

Lemma quiet_read key a b : quiet (read key a b).
Proof. unfold read. pose proof quiet_get. eauto 10 with quiet. Qed.
Lemma quiet_Lookup a b : quiet (Lookup a b).
Proof. apply quiet_read. Qed.
Lemma quiet_Declaration e : quiet (Declaration e).
Proof. apply quiet_read. Qed.
Lemma quiet_RelationsRange a r : quiet (RelationsRange a r).
Proof. unfold RelationsRange. destruct (RelationBoundsIn _ _ _). eauto with quiet. Qed.
Lemma quiet_PageAllocated page typ : quiet (PageAllocated s page typ).
Proof. unfold PageAllocated. pose proof quiet_get. eauto 10 with quiet. Qed.
#[local] Hint Resolve quiet_get quiet_Lookup quiet_Declaration quiet_RelationsRange quiet_PageAllocated : quiet.

Lemma quiet_Events r : quiet (Events s r).
Proof. unfold Events. eauto with quiet. Qed.
Lemma quiet_readHead : quiet (readHead s).
Proof. unfold readHead. eauto 10 with quiet. Qed.
Lemma quiet_verifyWith keys rel : quiet (verifyWith keys rel).
Proof. unfold verifyWith. eauto 10 with quiet. Qed.
#[local] Hint Resolve quiet_verifyWith : quiet.
Lemma quiet_lineRecords keys rels records : quiet (lineRecords keys rels records).
Proof. revert keys records. induction rels as [|rel rels IH]; intros keys records; cbn; eauto 10 with quiet. Qed.
#[local] Hint Resolve quiet_lineRecords : quiet.
Lemma quiet_lineContent keys entry : quiet (lineContent keys entry).
Proof. unfold lineContent, Relations. eauto 10 with quiet. Qed.
Lemma quiet_checkPages pages chained : quiet (checkPages s pages chained).
Proof. revert chained. induction pages as [|page pages IH]; intros chained; cbn; eauto 10 with quiet. Qed.
Lemma quiet_checkMutables keys events : quiet (checkMutables keys events).
Proof. revert keys. induction events as [|event events IH]; intros keys; cbn; eauto 12 with quiet. Qed.
#[local] Hint Resolve quiet_Events quiet_readHead quiet_lineContent quiet_checkPages quiet_checkMutables : quiet.
Lemma quiet_wantedDigest rp event : quiet (wantedDigest rp event).
Proof. unfold wantedDigest. eauto 10 with quiet. Qed.
#[local] Hint Resolve quiet_wantedDigest : quiet.
Lemma quiet_replayOne i event rp : quiet (replayOne i event rp).
Proof. unfold replayOne. eauto 10 with quiet. Qed.
#[local] Hint Resolve quiet_replayOne : quiet.
Lemma quiet_replayAll i events rp : quiet (replayAll i events rp).
Proof. revert i rp. induction events as [|event events IH]; intros i rp; cbn; eauto with quiet. Qed.
#[local] Hint Resolve quiet_replayAll : quiet.
Lemma quiet_VerifyChain : quiet (VerifyChain s).
Proof. unfold VerifyChain, checkEveryLineIsChained, checkMutableState. eauto 15 with quiet. Qed.
End Readers.

#[export] Hint Resolve quiet_get quiet_read quiet_Lookup quiet_Declaration quiet_RelationsRange quiet_PageAllocated quiet_Events quiet_readHead
  quiet_verifyWith quiet_lineRecords quiet_lineContent quiet_checkPages quiet_checkMutables quiet_wantedDigest quiet_replayOne quiet_replayAll quiet_VerifyChain : quiet.
