(* ===== verification/RelChainProps.v ===== *)
(** What a log book that verifies shows (src/examples/relations/chain.go, VerifyChain):
    its head digest commits to everything that was ever written in it. *)

From S2P Require Import Prelude Store SystemKeys Payloads LogRecord Txn Hex RelRecord RelStore RelChain RelRun.
#[local] Open Scope Z_scope.

Lemma Forall2_elem_l {A B} (P : A -> B -> Prop) l k x : Forall2 P l k -> x ∈ l -> exists y, y ∈ k /\ P x y.
Proof. intros Hf [i Hi]%list_elem_of_lookup. apply (Forall2_lookup_l _ _ _ _ _ Hf) in Hi as (y & Hy & Hp). exists y. split; [by eapply list_elem_of_lookup_2|done]. Qed.
Lemma Forall2_elem_r {A B} (P : A -> B -> Prop) l k y : Forall2 P l k -> y ∈ k -> exists x, x ∈ l /\ P x y.
Proof. intros Hf%Forall2_flip Hy. by apply (Forall2_elem_l _ _ _ _ Hf). Qed.

(** * The abstract book *)

(** What an event says happened: a line was written with these records, a record that
    stands was written, or one that may change again was changed. *)
Inductive fact : Type :=
| LineWritten (entry : Entity) (records : list (bytes * bytes))
| RecordWritten (tag : byte) (subject party : Entity) (value : bytes)
| RecordChanged (tag : byte) (subject party : Entity) (tail : bytes).

#[global] Instance fact_eq_dec : EqDecision fact.
Proof. solve_decision. Defined.

(** What its digest covers *)
Definition preimage (previous : bytes) (seq : Z) (f : fact) : bytes :=
  match f with
  | LineWritten entry records => eventPreamble previous seq eventLine ++ DeclarationKey entry ++ concat (map recordText records)
  | RecordWritten tag a b value => recordPreimage previous seq tag (RelationKey a b) value
  | RecordChanged tag a b tail => recordPreimage previous seq tag (RelationKey a b) tail
  end.

(** A fact as an event can state it: its tag tells its kind, and its records decode. *)
Definition decodes (v : bytes) : Prop := exists r, DecodeRecord v = Ret r.
Definition stated (f : fact) : Prop :=
  match f with
  | LineWritten _ records => Forall (fun kv => blen kv.1 = KeyLen /\ decodes kv.2) records
  | RecordWritten tag _ _ _ => tag <> eventLine /\ mutableEvent tag = false
  | RecordChanged tag _ _ _ => mutableEvent tag = true
  end.

Section Digests.
Context `{RelEnv}.

Definition chainStep (p : bytes * Z) (f : fact) : bytes * Z := (Sum256 (preimage p.1 (p.2 + 1) f), p.2 + 1).
Definition chainFrom (p : bytes * Z) (facts : list fact) : bytes * Z := fold_left chainStep facts p.
(** The digest a book with these facts ends with *)
Definition chainDigest (facts : list fact) : bytes := (chainFrom (genesisDigest, 0) facts).1.

(** Everything that was hashed on the way *)
Fixpoint preimagesFrom (p : bytes * Z) (facts : list fact) : list bytes :=
  match facts with
  | [] => []
  | f :: facts' => preimage p.1 (p.2 + 1) f :: preimagesFrom (chainStep p f) facts'
  end.
Definition preimages (facts : list fact) : list bytes := preimagesFrom (genesisDigest, 0) facts.

(** Among these texts the hash has no collision, and none of them hashes to the digest
    a chain starts from. *)
Definition collision_free (texts : list bytes) : Prop :=
  (forall x y, x ∈ texts -> y ∈ texts -> Sum256 x = Sum256 y -> x = y) /\ (forall x, x ∈ texts -> Sum256 x <> genesisDigest).

Lemma length_Sum256 b : blen (Sum256 b) = 32.
Proof. unfold Sum256, blen, sha256_Size. rewrite length_take, length_app, length_replicate. lia. Qed.

Lemma preimagesFrom_app p f1 f2 : preimagesFrom p (f1 ++ f2) = preimagesFrom p f1 ++ preimagesFrom (chainFrom p f1) f2.
Proof. revert p. induction f1 as [|f f1 IH]; intros p; cbn; [done|]. by rewrite IH. Qed.
Lemma preimages_snoc fs f : preimages (fs ++ [f]) = preimages fs ++ [preimage (chainDigest fs) ((chainFrom (genesisDigest, 0) fs).2 + 1) f].
Proof. unfold preimages. by rewrite preimagesFrom_app. Qed.
Lemma chainDigest_snoc fs f : chainDigest (fs ++ [f]) = Sum256 (preimage (chainDigest fs) ((chainFrom (genesisDigest, 0) fs).2 + 1) f).
Proof. unfold chainDigest, chainFrom. by rewrite fold_left_app. Qed.
Lemma length_chainDigest fs : blen (chainDigest fs) = 32.
Proof. induction fs as [|f fs _] using rev_ind; [done|]. rewrite chainDigest_snoc. apply length_Sum256. Qed.

(** A line's text splits into its records in one way. *)
Lemma concat_records_inj r1 r2 : Forall (fun kv : bytes * bytes => blen kv.1 = KeyLen /\ decodes kv.2) r1 ->
  Forall (fun kv : bytes * bytes => blen kv.1 = KeyLen /\ decodes kv.2) r2 -> concat (map recordText r1) = concat (map recordText r2) -> r1 = r2.
Proof.
  intros W1 W2 E. revert r2 W2 E. induction W1 as [|[k1 v1] r1 [L1 [[d1 u1] D1]] W1 IH]; intros [|[k2 v2] r2] W2 E; [done| | |].
  - exfalso. apply Forall_cons in W2 as [[L2 _] _]. destruct k2; [done|discriminate].
  - exfalso. cbn in L1. destruct k1; [done|discriminate].
  - apply Forall_cons in W2 as [[L2 [[d2 u2] D2]] W2]. cbn in *. unfold recordText in E. cbn in E. rewrite <- !app_assoc in E.
    apply app_blen_inj in E as [-> E]; [|lia]. apply (decoded_delimited _ _ _ _ _ _ _ _ D1 D2) in E as [-> E]. f_equal. by apply IH.
Qed.

(** The text that is hashed tells the fact and the digest before it. *)
Lemma preimage_inj p1 n1 f1 p2 n2 f2 : blen p1 = 32 -> blen p2 = 32 -> stated f1 -> stated f2 ->
  preimage p1 n1 f1 = preimage p2 n2 f2 -> p1 = p2 /\ f1 = f2.
Proof.
  intros L1 L2 W1 W2 E.
  set (tagOf := fun f => match f with LineWritten _ _ => eventLine | RecordWritten tag _ _ _ | RecordChanged tag _ _ _ => tag end).
  set (keyOf := fun f => match f with LineWritten e _ => DeclarationKey e | RecordWritten _ a b _ | RecordChanged _ a b _ => RelationKey a b end).
  set (restOf := fun f => match f with LineWritten _ rs => concat (map recordText rs) | RecordWritten _ _ _ v | RecordChanged _ _ _ v => v end).
  assert (forall p n f, preimage p n f = p ++ be_bytes 8 (u64 n) ++ [tagOf f] ++ keyOf f ++ restOf f) as Hp.
  { intros p n []; unfold preimage, recordPreimage, eventPreamble; rewrite <- !app_assoc; done. }
  rewrite !Hp in E. apply app_blen_inj in E as [-> E]; [|lia]. apply app_blen_inj in E as [_ E]; [|done].
  apply app_blen_inj in E as [[= Et] E]; [|done]. apply app_blen_inj in E as [Ek Er]; [|by destruct f1, f2]. split; [done|].
  destruct f1, f2; unfold tagOf, keyOf, restOf in *; cbn [stated] in *; apply EntityKey_inj in Ek as (_ & Ea & Eb); subst; try done;
    try (destruct W1; congruence); try (destruct W2; congruence).
  by rewrite (concat_records_inj records records0).
Qed.

(** A digest commits to the facts: without a collision, one digest is one book. *)
Lemma chainDigest_inj f1 f2 : Forall stated f1 -> Forall stated f2 -> collision_free (preimages f1 ++ preimages f2) ->
  chainDigest f1 = chainDigest f2 -> f1 = f2.
Proof.
  revert f2. induction f1 as [|x f1 IH] using rev_ind; intros f2 W1 W2 [Hc Hz] E; destruct f2 as [|y f2 _] using rev_ind; [done| | |].
  - exfalso. rewrite chainDigest_snoc in E. rewrite preimages_snoc in Hz. symmetry in E. revert E. apply Hz. set_solver.
  - exfalso. rewrite chainDigest_snoc in E. rewrite preimages_snoc in Hz. revert E. apply Hz. set_solver.
  - rewrite !chainDigest_snoc in E. rewrite !preimages_snoc in Hc, Hz. apply Hc in E; [|set_solver..].
    apply Forall_app in W1 as [W1 X]. apply Forall_app in W2 as [W2 Y]. apply Forall_cons in X as [X _], Y as [Y _].
    apply (preimage_inj _ _ _ _ _ _ (length_chainDigest _) (length_chainDigest _) X Y) in E as [E ->].
    rewrite (IH f2); [done..| |done]. split; intros; [apply Hc|apply Hz]; try done; rewrite !elem_of_app in *; tauto.
Qed.
End Digests.

(** * A book as it stands *)

Section Book.
Context `{RelEnv} (s : Store_).

(** The records of a line that its digest covers *)
Definition covered (rel : Relation) : bool := negb (isSentinel (RelB rel) || byte_eqb (RKind (RelRecord rel)) KindCountersign).
Definition lineText (rels : list Relation) : list (bytes * bytes) :=
  map (fun rel => (relKey rel, relValue rel)) (filter (fun rel => Is_true (covered rel)) rels).

(** What an event of the book tells *)
Definition factOf (t : table) (e : Event) : gores fact :=
  if byte_eqb (Tag e) eventLine then
    rels ← look (Relations (Subject e)) t;
    Ret (LineWritten (Subject e) (merge_sort pair_le (lineText rels)))
  else if mutableEvent (Tag e) then Ret (RecordChanged (Tag e) (Subject e) (Party e) (Tail e))
  else
    record ← look (Lookup (Subject e) (Party e)) t;
    match record with
    | Some record => Ret (RecordWritten (Tag e) (Subject e) (Party e) (relValue record))
    | None => Fail (Errorf "no record")
    end.

Fixpoint factsOf (t : table) (events : list Event) : gores (list fact) :=
  match events with
  | [] => Ret []
  | e :: events' => f ← factOf t e; fs ← factsOf t events'; Ret (f :: fs)
  end.

Definition history (t : table) : gores (list fact) :=
  events ← look (Events s everything) t;
  factsOf t events.

(** A record signed with the key its author is declared with *)
Definition signedIn (t : table) (rel : Relation) : Prop :=
  exists actor, look (Declaration (RAuthor (RelRecord rel))) t = Ret (Some actor) /\
    VerifyRecord (RelRecord rel) (relKey rel) (relUnsigned rel) (RData (RelRecord actor)) = Ret tt.

Definition signedEvent (t : table) (e : Event) : Prop :=
  signedIn t (link e) /\
  (Tag e = eventLine -> exists decl rels, look (Declaration (Subject e)) t = Ret (Some decl) /\ signedIn t decl /\
     look (Relations (Subject e)) t = Ret rels /\ Forall (signedIn t) (filter (fun rel => Is_true (covered rel)) rels)) /\
  (Tag e <> eventLine -> mutableEvent (Tag e) = false -> exists record, look (Lookup (Subject e) (Party e)) t = Ret (Some record) /\ signedIn t record).

(** What a record that changes says now *)
Definition saysNow (t : table) (tag : byte) (a b : Entity) (tail : bytes) : Prop :=
  exists record, look (Lookup a b) t = Ret (Some record) /\ signedIn t record /\
    (tag = eventDeclare -> exists from, decodeRenameTail tail = Ret (from, RName (RelRecord record))) /\
    (tag = eventFieldState -> exists state, tail = [state] /\ RData (RelRecord record) = [state]).

Definition lastChange (facts : list fact) (tag : byte) (a b : Entity) (tail : bytes) : Prop :=
  exists before after, facts = before ++ RecordChanged tag a b tail :: after /\ forall tag' tail', RecordChanged tag' a b tail' ∉ after.

(** ** The keys a verifier remembers *)
Definition keysOK (t : table) (keys : gmap Entity bytes) : Prop :=
  map_Forall (fun a pub => exists actor, look (Declaration a) t = Ret (Some actor) /\ RData (RelRecord actor) = pub) keys.

Lemma verifyWith_Ret t keys rel keys' : look (verifyWith keys rel) t = Ret keys' -> keysOK t keys -> signedIn t rel /\ keysOK t keys'.
Proof.
  unfold verifyWith. intros E Hk. apply look_bind_Ret in E as ([keys0 pub] & Ep & E); [|eauto 10 with quiet].
  apply look_bind_Ret in E as ([] & Ev & E); [|eauto with quiet]. rewrite look_lift in Ev. rewrite look_ret in E. injection E as <-.
  destruct (keys !! RAuthor (RelRecord rel)) as [pub'|] eqn:Ek.
  - rewrite look_ret in Ep. injection Ep as <- <-. destruct (Hk _ _ Ek) as (actor & Ha & Hp). split; [|done]. exists actor. by rewrite Hp.
  - apply look_bind_Ret in Ep as ([actor|] & Ea & Ep); [| |eauto with quiet]; [|done]. rewrite look_ret in Ep. injection Ep as <- <-.
    split; [by exists actor|]. apply map_Forall_insert_2; [by exists actor|done].
Qed.

Lemma lineRecords_Ret t keys rels records keys' records' : look (lineRecords keys rels records) t = Ret (keys', records') -> keysOK t keys ->
  keysOK t keys' /\ records' = records ++ lineText rels /\ Forall (signedIn t) (filter (fun rel => Is_true (covered rel)) rels).
Proof.
  revert keys records. induction rels as [|rel rels IH]; intros keys records E Hk.
  - injection E as <- <-. unfold lineText. by rewrite app_nil_r.
  - cbn [lineRecords] in E. unfold lineText. rewrite filter_cons.
    assert (isSentinel (RelB rel) || byte_eqb (RKind (RelRecord rel)) KindCountersign = negb (covered rel)) as Ec by (unfold covered; by rewrite negb_involutive).
    rewrite Ec in E. destruct (covered rel); cbn [negb] in E.
    + rewrite decide_True by done. apply look_bind_Ret in E as (keys0 & Ev & E); [|eauto with quiet]. apply look_wrap_Ret in Ev; [|eauto with quiet].
      apply verifyWith_Ret in Ev as [Hs Hk0]; [|done]. apply IH in E as (Hk' & -> & Hall); [|done]. split; [done|]. rewrite <- app_assoc. split; [done|]. by constructor.
    + rewrite decide_False by (intros []). by apply IH in E.
Qed.

(** ** Listings decode *)
Definition wellRead (rel : Relation) : Prop := blen (relKey rel) = KeyLen /\ DecodeRecord (relValue rel) = Ret (RelRecord rel, relUnsigned rel).

Lemma decodePairs_Ret pairs flip rels : decodePairs pairs flip = Ret rels -> Forall wellRead rels.
Proof.
  revert rels. induction pairs as [|[k v] pairs IH]; intros rels E; cbn in E; [by injection E as <-|].
  destruct (ParseEntityKey k) as [[[ns a] b]| |] eqn:Ek; [|done..]. cbn in E. destruct (DecodeRecord v) as [[rec u]| |] eqn:Ev; [|done..]. cbn in E.
  destruct (decodePairs pairs flip) as [rest| |]; [|done..]. cbn in E. injection E as <-. apply ParseEntityKey_Ret in Ek as ->.
  constructor; [|by apply IH]. by destruct flip.
Qed.

Lemma Relations_wellRead t a rels : look (Relations a) t = Ret rels -> Forall wellRead rels.
Proof.
  unfold Relations, RelationsRange. destruct (RelationBoundsIn _ _ _). intros (pairs & _ & E)%look_bind_Ret; [|eauto with quiet].
  rewrite look_lift in E. by eapply decodePairs_Ret.
Qed.

Lemma lineText_stated rels : Forall wellRead rels -> Forall (fun kv : bytes * bytes => blen kv.1 = KeyLen /\ decodes kv.2) (merge_sort pair_le (lineText rels)).
Proof.
  intros Hw. rewrite merge_sort_Permutation. unfold lineText. apply Forall_map, Forall_forall. intros rel [_ Hr]%list_elem_of_filter.
  rewrite Forall_forall in Hw. destruct (Hw rel Hr) as [Hl Hd]. split; [done|]. by eexists.
Qed.

Lemma Lookup_key t a b rel : look (Lookup a b) t = Ret (Some rel) -> relKey rel = RelationKey a b.
Proof.
  unfold Lookup, read. intros ([raw|] & _ & E)%look_bind_Ret; [| |eauto with quiet]; [|done].
  apply look_bind_Ret in E as ([rec u] & _ & E); [|eauto with quiet]. by injection E as <-.
Qed.

(** ** The replay *)

Lemma mutable_not_line e : Tag e = eventLine -> mutableEvent (Tag e) = false.
Proof. by intros ->. Qed.

(** The digest an event should have is the one of its fact. *)
Lemma wantedDigest_Ret t rp e want keys latest : look (wantedDigest rp e) t = Ret (want, keys, latest) -> keysOK t (rpKeys rp) ->
  exists f, factOf t e = Ret f /\ stated f /\ want = Sum256 (preimage (rpPrevious rp) (Seq e) f) /\ keysOK t keys /\
    latest = (if mutableEvent (Tag e) then <[RelationKey (Subject e) (Party e) := e]> (rpLatest rp) else rpLatest rp) /\
    (signedIn t (link e) -> signedEvent t e).
Proof.
  unfold wantedDigest, factOf, signedEvent. intros E Hk. destruct (byte_eqb (Tag e) eventLine) eqn:Et.
  - apply bool_decide_eq_true in Et. rewrite (mutable_not_line _ Et). apply look_bind_Ret in E as ([keys0 records] & Ec & E); [|eauto with quiet].
    injection E as <- <- <-. apply look_wrap_Ret in Ec; [|eauto with quiet]. unfold lineContent in Ec.
    apply look_bind_Ret in Ec as ([decl|] & Ed & Ec); [| |eauto with quiet]; [|done]. apply look_bind_Ret in Ec as (keys1 & Ev & Ec); [|eauto with quiet].
    apply look_wrap_Ret in Ev; [|eauto with quiet]. apply verifyWith_Ret in Ev as [Hs Hk1]; [|done].
    apply look_bind_Ret in Ec as (rels & Er & Ec); [|unfold Relations; eauto with quiet]. apply lineRecords_Ret in Ec as (Hk0 & -> & Hall); [|done].
    rewrite Er. eexists. split; [done|]. split; [by eapply lineText_stated, Relations_wellRead|]. split; [done|]. split; [done|]. split; [done|].
    intros Hl. split; [done|]. split; [|done]. intros _. by exists decl, rels.
  - apply bool_decide_eq_false in Et. destruct (mutableEvent (Tag e)) eqn:Em.
    + injection E as <- <- <-. eexists. split_and!; [done..|]. by intros Hl.
    + apply look_bind_Ret in E as ([record|] & Er & E); [| |eauto with quiet]; [|done]. apply look_bind_Ret in E as (keys0 & Ev & E); [|eauto with quiet].
      injection E as <- <- <-. apply look_wrap_Ret in Ev; [|eauto with quiet]. apply verifyWith_Ret in Ev as [Hs Hk1]; [|done].
      rewrite Er. cbn. eexists. split; [done|]. split; [done|]. split; [unfold recordDigest, preimage; by rewrite (Lookup_key _ _ _ _ Er)|].
      split; [done|]. split; [done|]. intros Hl. split; [done|]. split; [done|]. intros _ _. by exists record.
Qed.

Definition noteLatest (latest : gmap bytes Event) (e : Event) : gmap bytes Event :=
  if mutableEvent (Tag e) then <[RelationKey (Subject e) (Party e) := e]> latest else latest.

Lemma replayOne_Ret t i e rp rp' : look (replayOne i e rp) t = Ret rp' -> keysOK t (rpKeys rp) ->
  exists f, factOf t e = Ret f /\ stated f /\ rpPrevious rp' = Sum256 (preimage (rpPrevious rp) (i + 1) f) /\ keysOK t (rpKeys rp') /\
    rpLatest rp' = noteLatest (rpLatest rp) e /\ signedEvent t e.
Proof.
  unfold replayOne. destruct (Z.eqb_spec (Seq e) (i + 1)) as [<-|]; cbn [negb]; [|done]. intros E Hk.
  apply look_bind_Ret in E as (keys & Ev & E); [|eauto with quiet]. apply look_wrap_Ret in Ev; [|eauto with quiet]. apply verifyWith_Ret in Ev as [Hs Hk1]; [|done].
  apply look_bind_Ret in E as ([[want keys'] latest] & Ew & E); [|eauto with quiet].
  apply wantedDigest_Ret in Ew as (f & Hf & Hst & -> & Hk' & -> & Hse); [|done].
  destruct (bytes_eqb _ (Digest e)) eqn:Ed; [|done]. apply bool_decide_eq_true in Ed. injection E as <-. cbn in *.
  exists f. split_and!; [done..|by apply Hse].
Qed.

Lemma replayAll_Ret t i events rp rp' : look (replayAll i events rp) t = Ret rp' -> keysOK t (rpKeys rp) ->
  exists facts, factsOf t events = Ret facts /\ Forall stated facts /\ rpPrevious rp' = (chainFrom (rpPrevious rp, i) facts).1 /\ keysOK t (rpKeys rp') /\
    rpLatest rp' = fold_left noteLatest events (rpLatest rp) /\ Forall (signedEvent t) events.
Proof.
  revert i rp. induction events as [|e events IH]; intros i rp E Hk; [injection E as <-; by exists []|].
  cbn [replayAll] in E. apply look_bind_Ret in E as (rp1 & E1 & E); [|eauto with quiet].
  apply replayOne_Ret in E1 as (f & Hf & Hs & Hp & Hk1 & Hl & Hse); [|done]. apply IH in E as (facts & Hfs & Hss & Hp' & Hk' & Hl' & Hses); [|done].
  exists (f :: facts). cbn. rewrite Hf. cbn. rewrite Hfs. cbn. split_and!; [done|by constructor| |done| |by constructor].
  - rewrite Hp', Hp. done.
  - by rewrite Hl', Hl.
Qed.

Lemma factsOf_Forall2 t events facts : factsOf t events = Ret facts -> Forall2 (fun e f => factOf t e = Ret f) events facts.
Proof.
  revert facts. induction events as [|e events IH]; intros facts E; cbn in E; [injection E as <-; constructor|].
  destruct (factOf t e) as [f| |] eqn:Ef; [|done..]. cbn in E. destruct (factsOf t events) as [fs| |]; [|done..]. injection E as <-. constructor; [done|by apply IH].
Qed.

(** A fact tells which event it is of. *)
Lemma factOf_line t e f entry : factOf t e = Ret f -> (Tag e = eventLine /\ Subject e = entry) <-> exists records, f = LineWritten entry records.
Proof.
  unfold factOf. intros E. destruct (byte_eqb (Tag e) eventLine) eqn:Et.
  - apply bool_decide_eq_true in Et. destruct (look _ t) as [rels| |]; [|done..]. injection E as <-. split; [intros [_ <-]; by eexists|]. by intros [records [= -> _]].
  - apply bool_decide_eq_false in Et. split; [by intros []|]. intros [records ->]. destruct (mutableEvent _); [done|]. by destruct (look _ t) as [[]| |].
Qed.
Lemma factOf_changed t e f tag a b tail : factOf t e = Ret f ->
  (mutableEvent (Tag e) = true /\ Tag e = tag /\ Subject e = a /\ Party e = b /\ Tail e = tail) <-> f = RecordChanged tag a b tail.
Proof.
  unfold factOf. intros E. destruct (byte_eqb (Tag e) eventLine) eqn:Et.
  - apply bool_decide_eq_true in Et. rewrite (mutable_not_line _ Et). destruct (look _ t); [|done..]. injection E as <-. intuition congruence.
  - destruct (mutableEvent (Tag e)); [injection E as <-; intuition congruence|]. destruct (look _ t) as [[]| |]; [injection E as <-; intuition congruence|done..].
Qed.

(** ** The lines the allocator handed out *)
Fixpoint handedOut (t : table) (pages : list byte) : gores (list Entity) :=
  match pages with
  | [] => Ret []
  | page :: pages' =>
    '(last, reached) ← look (PageAllocated s page TypeEntry) t;
    if negb (reached : bool) then Ret [] else
    rest ← handedOut t pages';
    Ret (map (mkEntity (SLog s) page TypeEntry) (map byte_of_Z (seqZ 1 (byte_to_Z last))) ++ rest)
  end.

Lemma chainedOn_Ret page ids chained chained' : chainedOn s page ids chained = Ret chained' -> chained = list_to_set (map (mkEntity (SLog s) page TypeEntry) ids) ∪ chained'.
Proof.
  revert chained. induction ids as [|id ids IH]; intros chained E; cbn in E; [injection E as <-; set_solver|].
  case_bool_decide as Hin; [|done]. apply IH in E. cbn. rewrite <- (assoc_L (∪)), <- E. by apply union_difference_singleton_L.
Qed.

Lemma leftoverLines_Ret t chained : look (liftJ (leftoverLines chained)) t = Ret tt -> chained = list_to_set [].
Proof. rewrite look_lift. unfold leftoverLines. by case_bool_decide. Qed.

Lemma checkPages_Ret t pages chained : look (checkPages s pages chained) t = Ret tt -> exists lines, handedOut t pages = Ret lines /\ chained = list_to_set lines.
Proof.
  revert chained. induction pages as [|page pages IH]; intros chained E; cbn [checkPages] in E.
  - exists []. split; [done|]. by eapply leftoverLines_Ret.
  - apply look_bind_Ret in E as ([last reached] & Ep & E); [|eauto with quiet]. cbn. rewrite Ep. cbn. destruct reached; cbn [negb] in *.
    + apply look_bind_Ret in E as (chained' & Ec & E); [|eauto with quiet]. rewrite look_lift in Ec. apply chainedOn_Ret in Ec.
      apply IH in E as (lines & -> & ->). eexists. split; [done|]. rewrite list_to_set_app_L. done.
    + exists []. split; [done|]. by eapply leftoverLines_Ret.
Qed.

Lemma lineEvents_facts t events facts entry : factsOf t events = Ret facts -> entry ∈ lineEvents events <-> exists records, LineWritten entry records ∈ facts.
Proof.
  intros Hf%factsOf_Forall2. unfold lineEvents. rewrite elem_of_list_to_set, list_elem_of_fmap. setoid_rewrite list_elem_of_filter. split.
  - intros (e & -> & Ht & He). apply (Forall2_elem_l _ _ _ _ Hf) in He as (f & Hin & Ef).
    destruct (proj1 (factOf_line _ _ _ (Subject e) Ef) (conj Ht eq_refl)) as [records ->]. by exists records.
  - intros [records Hin]. apply (Forall2_elem_r _ _ _ _ Hf) in Hin as (e & He & Ef).
    destruct (proj2 (factOf_line _ _ _ entry Ef) ltac:(by eexists)) as [Ht <-]. by exists e.
Qed.

(** ** The records that change *)
Lemma checkMutables_Ret t keys events : look (checkMutables keys events) t = Ret tt -> keysOK t keys ->
  Forall (fun e => saysNow t (Tag e) (Subject e) (Party e) (Tail e)) events.
Proof.
  revert keys. induction events as [|e events IH]; intros keys E Hk; [constructor|]. cbn [checkMutables] in E.
  apply look_bind_Ret in E as ([record|] & Er & E); [| |eauto with quiet]; [|done]. apply look_bind_Ret in E as (keys' & Ev & E); [|eauto with quiet].
  apply look_wrap_Ret in Ev; [|eauto with quiet]. apply verifyWith_Ret in Ev as [Hs Hk']; [|done].
  apply look_bind_Ret in E as ([] & Em & E); [|eauto with quiet]. constructor; [|by eapply IH]. rewrite look_lift in Em.
  exists record. split; [done|]. split; [done|]. unfold matchesMutableState in Em. split.
  - intros Ht. rewrite Ht in Em. cbn in Em. destruct (decodeRenameTail (Tail e)) as [[from want]| |]; [|done..]. cbn in Em. exists from.
    destruct (bytes_eqb _ want) eqn:Ew; [|done]. by apply bool_decide_eq_true in Ew as ->.
  - intros Ht. rewrite Ht in Em. cbn in Em. destruct (Tail e) as [|want []], (RData (RelRecord record)) as [|state []]; try done.
    exists want. destruct (byte_eqb state want) eqn:Ew; [|done]. by apply bool_decide_eq_true in Ew as ->.
Qed.

Lemma noteLatest_other t latest events facts a b : Forall2 (fun e f => factOf t e = Ret f) events facts ->
  (forall tag tail, RecordChanged tag a b tail ∉ facts) -> fold_left noteLatest events latest !! RelationKey a b = latest !! RelationKey a b.
Proof.
  intros Hf Hn. revert latest. induction Hf as [|e f events facts Ef Hf IH]; intros latest; [done|]. cbn.
  rewrite IH by (intros tag tail Hin; apply (Hn tag tail); by right). unfold noteLatest. destruct (mutableEvent (Tag e)) eqn:Em; [|done].
  apply lookup_insert_ne. intros (_ & Ea & Eb)%EntityKey_inj. apply (Hn (Tag e) (Tail e)).
  rewrite (proj1 (factOf_changed _ _ _ (Tag e) a b (Tail e) Ef)) by done. by left.
Qed.

Lemma latest_lastChange t events facts tag a b tail : factsOf t events = Ret facts -> lastChange facts tag a b tail ->
  exists e, fold_left noteLatest events ∅ !! RelationKey a b = Some e /\ Tag e = tag /\ Subject e = a /\ Party e = b /\ Tail e = tail.
Proof.
  intros Hf%factsOf_Forall2 (before & after & -> & Hn). apply Forall2_app_inv_r in Hf as (ev1 & ev2 & _ & Hf2 & ->).
  apply Forall2_cons_inv_r in Hf2 as (e & ev3 & Ef & Hf3 & ->).
  destruct (proj2 (factOf_changed _ _ _ tag a b tail Ef) eq_refl) as (Hm & Ht & <- & <- & Htl).
  exists e. rewrite fold_left_app. cbn. rewrite (noteLatest_other _ _ _ _ _ _ Hf3 Hn). unfold noteLatest. rewrite Hm. by rewrite lookup_insert_eq.
Qed.

(** * What a verified book shows *)

Record verified (t : table) (n : Z) (facts : list fact) : Prop := {
  vf_history : history t = Ret facts;
  vf_count : n = blen facts;
  vf_stated : Forall stated facts;
  vf_head : look (readHead s) t = Ret (Some (chainDigest facts, n));
  vf_signed : exists events, look (Events s everything) t = Ret events /\ Forall (signedEvent t) events;
  vf_lines : exists lines, handedOut t (bytesFrom FirstEntryPage) = Ret lines /\ forall entry, entry ∈ lines <-> exists records, LineWritten entry records ∈ facts;
  vf_now : forall tag a b tail, lastChange facts tag a b tail -> saysNow t tag a b tail;
}.

Lemma VerifyChain_look t n : look (VerifyChain s) t = Ret n ->
  (look (readHead s) t = Ret None /\ look (Events s everything) t = Ret [] /\ n = 0) \/ exists facts, verified t n facts.
Proof.
  unfold VerifyChain. intros E. apply look_bind_Ret in E as (events & Ee & E); [|eauto with quiet].
  apply look_bind_Ret in E as ([[headDigest headCount]|] & Eh & E); [| |eauto with quiet].
  - right. apply look_bind_Ret in E as ([] & El & E); [|unfold checkEveryLineIsChained; eauto with quiet]. apply checkPages_Ret in El as (lines & Hl & Hlines).
    apply look_bind_Ret in E as (rp & Er & E); [|eauto with quiet]. apply replayAll_Ret in Er as (facts & Hf & Hst & Hp & Hk & Hla & Hse); [|apply map_Forall_empty].
    destruct (Z.eqb_spec (blen events) headCount) as [<-|]; [cbn [negb] in E|done].
    destruct (bytes_eqb (rpPrevious rp) headDigest) eqn:Ed; [cbn [negb] in E|done]. apply bool_decide_eq_true in Ed as <-.
    apply look_bind_Ret in E as ([] & Em & E); [|unfold checkMutableState; eauto with quiet]. injection E as <-. apply checkMutables_Ret in Em; [|done].
    assert (blen events = blen facts) as Hlen by (unfold blen; by rewrite (Forall2_length _ _ _ (factsOf_Forall2 _ _ _ Hf))).
    exists facts. constructor; [unfold history; rewrite Ee; done|done|done|by rewrite Eh, Hp|by exists events| |].
    + exists lines. split; [done|]. intros entry. rewrite <- (lineEvents_facts _ _ _ _ Hf), Hlines. by rewrite elem_of_list_to_set.
    + intros tag a b tail Hc. destruct (latest_lastChange _ _ _ _ _ _ _ Hf Hc) as (e & He & <- & <- & <- & <-).
      rewrite Hla in Em. rewrite Forall_forall in Em. apply Em, list_elem_of_fmap. exists (RelationKey (Subject e) (Party e), e). split; [done|]. by apply elem_of_map_to_list.
  - left. destruct (Z.ltb_spec 0 (blen events)); [done|]. injection E as <-. destruct events as [|e events]; [done|]. rewrite blen_cons in *. pose proof (blen_nonneg events). lia.
Qed.

(** C22 Verification is sound: a log book that [VerifyChain] accepts, when its log has a head,
    is what the chain says it is. The events, in order, tell a list of facts (the lines
    written with all their records, the strikes, countersignatures and sign-offs with
    theirs, and the renames and vocabulary changes); the recorded head is the digest of
    exactly these facts and counts them; every link and every record an event is about
    is signed with the key its author is declared with; the lines told of are exactly
    the ones the allocator handed out; and every record that has been changed says what
    its last change set it to. The call changes nothing. *)
Theorem verify_chain_sound (t t' : table) (clock clock' : list Z) (c c' : cache) (n : Z) :
  brun (VerifyChain s c) t clock = (t', clock', (c', Ret n)) ->
  t' = t /\ clock' = clock /\ c' = c /\
  ((look (readHead s) t = Ret None /\ look (Events s everything) t = Ret [] /\ n = 0) \/ exists facts, verified t n facts).
Proof.
  rewrite quiet_VerifyChain. intros [= -> -> -> E]. split_and!; [done..|]. by apply VerifyChain_look.
Qed.

(** C21 A head digest commits to the facts of its chain: two tables that both verify with
    the same recorded head digest tell the same events, in the same order and with the
    same facts -- of the lines, strikes, countersignatures, sign-offs and changes the
    chain tells, none is added, removed, reordered or changed -- and every renamed entity
    and every switched vocabulary reads the same in both. This holds as long as the hash
    has no collision among the texts that were hashed for these two books (and none of
    them hashes to the digest a chain starts from). Records no event tells of are not
    covered: every line must be in the chain, but a strike or a signature need not be,
    see [unchained_strike_verifies]. *)
Theorem chain_tamper_evident (t1 t2 : table) (n1 n2 k1 k2 : Z) (f1 f2 : list fact) (digest : bytes) :
  look (VerifyChain s) t1 = Ret n1 -> look (VerifyChain s) t2 = Ret n2 ->
  look (readHead s) t1 = Ret (Some (digest, k1)) -> look (readHead s) t2 = Ret (Some (digest, k2)) ->
  history t1 = Ret f1 -> history t2 = Ret f2 -> collision_free (preimages f1 ++ preimages f2) ->
  f1 = f2 /\ n1 = n2 /\
  (forall a b tail, lastChange f1 eventDeclare a b tail -> exists r1 r2, look (Lookup a b) t1 = Ret (Some r1) /\ look (Lookup a b) t2 = Ret (Some r2) /\
     RName (RelRecord r1) = RName (RelRecord r2)) /\
  (forall a b tail, lastChange f1 eventFieldState a b tail -> exists r1 r2, look (Lookup a b) t1 = Ret (Some r1) /\ look (Lookup a b) t2 = Ret (Some r2) /\
     RData (RelRecord r1) = RData (RelRecord r2)).
Proof.
  intros E1 E2 H1 H2 F1 F2 Hc. apply VerifyChain_look in E1 as [(E & _)|[g1 V1]]; [by rewrite E in H1|]. apply VerifyChain_look in E2 as [(E & _)|[g2 V2]]; [by rewrite E in H2|].
  destruct V1 as [Hh1 -> Hs1 Hd1 _ _ N1], V2 as [Hh2 -> Hs2 Hd2 _ _ N2]. rewrite F1 in Hh1. injection Hh1 as <-. rewrite F2 in Hh2. injection Hh2 as <-.
  assert (f1 = f2) as <- by (apply chainDigest_inj; [done..|congruence]). split; [done|]. split; [done|]. split.
  - intros a b tail Hl. destruct (N1 _ _ _ _ Hl) as (r1 & L1 & _ & R1 & _), (N2 _ _ _ _ Hl) as (r2 & L2 & _ & R2 & _).
    exists r1, r2. destruct (R1 eq_refl) as [x X], (R2 eq_refl) as [y Y]. split_and!; [done..|congruence].
  - intros a b tail Hl. destruct (N1 _ _ _ _ Hl) as (r1 & L1 & _ & _ & R1), (N2 _ _ _ _ Hl) as (r2 & L2 & _ & _ & R2).
    exists r1, r2. destruct (R1 eq_refl) as (x & X & X'), (R2 eq_refl) as (y & Y & Y'). split_and!; [done..|congruence].
Qed.

End Book.
