(* ===== verification/RelJournal.v ===== *)
(** The log book (src/examples/relations: journal.go, vocabulary.go): columns, the
    interned dictionary, renames and lines, as programs over the relation store. *)

From S2P Require Import Prelude Store SystemKeys Payloads LogRecord Txn Hex RelRecord RelStore RelChain.
#[local] Open Scope Z_scope.

Definition InputTerm : InputKind := Byte.x00.
Definition InputNumber : InputKind := Byte.x01.
Definition InputText : InputKind := Byte.x02.

Definition InputKind_String (k : InputKind) : bytes :=
  if byte_eqb k InputTerm then bs "term" else if byte_eqb k InputNumber then bs "number" else if byte_eqb k InputText then bs "text" else bs "input(%d)".

Definition ParseInputKind (s : bytes) : gores InputKind :=
  if bytes_eqb s (bs "term") || bytes_eqb s [] then Ret InputTerm
  else if bytes_eqb s (bs "number") then Ret InputNumber
  else if bytes_eqb s (bs "text") then Ret InputText
  else Fail (Errorf "relations: %q is not a column type (want term, number or text)").

(** One column of a line to be written; [resolved] is the interned term. *)
Record Cell : Type := mkCell {
  CField : Entity;
  CText : bytes;
  CNumber : Z;
  CNumeric : bool;
  CFree : bool;
  resolved : Entity;
}.

Definition TermCell (field : Entity) (text : bytes) : Cell := mkCell field text 0 false false Zero.
Definition QuantityCell (field : Entity) (n : Z) : Cell := mkCell field [] n true false Zero.
Definition RemarkCell (field : Entity) (text : bytes) : Cell := mkCell field text 0 false true Zero.

Definition cellInput (c : Cell) : InputKind := if CNumeric c then InputNumber else if CFree c then InputText else InputTerm.

(** * What is remembered of the dictionary *)

Definition NewJournal : cache := mkCache ∅ ∅ ∅ ∅ ∅.

Definition rememberField (name : bytes) (e : Entity) (c : cache) : cache :=
  mkCache (<[name := e]> (cFields c)) (<[e := name]> (cFieldNames c)) (cVocab c) (cTerms c) (cInputs c).
Definition rememberInput (field : Entity) (kind : InputKind) (c : cache) : cache :=
  mkCache (cFields c) (cFieldNames c) (cVocab c) (cTerms c) (<[field := kind]> (cInputs c)).

Definition rememberTerm (info : TermInfo) (c : cache) : cache :=
  let words := default ∅ (cVocab c !! Field info) in
  mkCache (cFields c) (cFieldNames c) (<[Field info := <[Text info := Term info]> words]> (cVocab c)) (<[Term info := info]> (cTerms c)) (cInputs c).

Definition cachedField (name : bytes) : J (option Entity) := c ← jCache; mret (cFields c !! name).
Definition cachedTerm (field : Entity) (text : bytes) : J (option Entity) := c ← jCache; mret (default ∅ (cVocab c !! field) !! text).

Definition renameCached (e owner : Entity) (old text : bytes) (c : cache) : cache :=
  if byte_eqb (EType e) TypeField then
    mkCache (<[text := e]> (delete old (cFields c))) (<[e := text]> (cFieldNames c)) (cVocab c) (cTerms c) (cInputs c)
  else if byte_eqb (EType e) TypeTerm then
    let vocab := match cVocab c !! owner with Some words => <[owner := <[text := e]> (delete old words)]> (cVocab c) | None => cVocab c end in
    mkCache (cFields c) (cFieldNames c) vocab (<[e := mkTermInfo e owner text]> (cTerms c)) (cInputs c)
  else c.

(** * Presence buckets *)

Definition packEntities (entities : list Entity) : bytes := concat (map Bytes entities).
Fixpoint unpackEntities (data : bytes) : list Entity :=
  match data with
  | log :: page :: typ :: id :: rest => mkEntity log page typ id :: unpackEntities rest
  | _ => []
  end.

Section Journal.
Context `{RelEnv} (s : Store_).

Definition fieldOwner : Entity := mkEntity (SLog s) SchemaPage TypeField Byte.x00.
Definition actorOwner : Entity := mkEntity (SLog s) SchemaPage TypeActor Byte.x00.

(** The bucket as stored, and the entities it lists *)
Definition bucket (owner : Entity) (text : bytes) : J (option bytes * list Entity) :=
  raw ← get (PresenceKey owner text);
  match raw with
  | None => mret (None, [])
  | Some raw =>
    '(rec, _) ← liftJ (wrap_err "relations: presence bucket for %q under %s: %w" (DecodeRecord raw));
    if negb (blen (RData rec) mod EntityLen =? 0) then failJ "relations: presence bucket for %q under %s holds %d bytes, not a whole number of entities" else
    mret (Some raw, unpackEntities (RData rec))
  end.

Fixpoint resolveBucket (owner : Entity) (text : bytes) (candidates : list Entity) : J (option Entity) :=
  match candidates with
  | [] => mret None
  | candidate :: candidates' =>
    decl ← Declaration candidate;
    match decl with
    | None => failJ "relations: presence index names %s, which is not declared"
    | Some decl =>
      _ ← (if byte_eqb (EType candidate) TypeTerm then jRemember (rememberTerm (mkTermInfo candidate owner (RName (RelRecord decl)))) else mret tt);
      if bytes_eqb (RName (RelRecord decl)) text then mret (Some candidate) else resolveBucket owner text candidates'
    end
  end.

Definition presencePre (key : bytes) (raw : option bytes) : Op :=
  match raw with Some raw => mkOp OpCompare key raw | None => mkOp OpCompareAbsent key [] end.

(** What goes into the transaction that creates an interned entity *)
Definition internOps (owner : Entity) (text : bytes) (link : option (Entity -> J (list Op))) (e : Entity) : J (interned (list Op)) :=
  '(raw, candidates) ← bucket owner text;
  existing ← resolveBucket owner text candidates;
  match existing with
  | Some existing => mret (AlreadyInterned existing)
  | None =>
    let key := PresenceKey owner text in
    value ← encode s key KindPresence [] (packEntities (candidates ++ [e]));
    more ← match link with None => mret [] | Some link => link e end;
    mret (Fresh ([presencePre key raw; mkOp OpSet key value] ++ more))
  end.

Definition intern (owner : Entity) (typ : byte) (text data : bytes) (link : option (Entity -> J (list Op))) : J Entity :=
  '(_, candidates) ← bucket owner text;
  found ← resolveBucket owner text candidates;
  match found with
  | Some e => mret e
  | None =>
    r ← AllocateWith s SchemaPage typ KindDeclaration text data (internOps owner text link);
    mret (match r with Fresh e | AlreadyInterned e => e end)
  end.

(** * Vocabularies that may be closed *)

Definition vocabularyOpen : byte := Byte.x00.
Definition vocabularyClosed : byte := Byte.x01.
Definition ErrFieldClosed : error := Errorf "relations: this column's vocabulary is closed".

(** The state and the record as stored *)
Definition vocabularyState (field : Entity) : J (option (byte * bytes)) :=
  raw ← get (RelationKey field (StatusMarker s));
  match raw with
  | None => mret None
  | Some raw =>
    '(rec, _) ← liftJ (DecodeRecord raw);
    match RData rec with
    | [state] => if byte_eqb (RKind rec) KindFieldState then mret (Some (state, raw)) else failJ "relations: %s has a status record of kind %#x, want a vocabulary state"
    | _ => failJ "relations: %s has a status record of kind %#x, want a vocabulary state"
    end
  end.

Definition vocabularyGuardOps (field : Entity) : J (list Op) :=
  st ← vocabularyState field;
  let key := RelationKey field (StatusMarker s) in
  match st with
  | None => mret [mkOp OpCompareAbsent key []]
  | Some (state, raw) =>
    if byte_eqb state vocabularyClosed then liftJ (Fail (Wrapf "%w: %s" ErrFieldClosed))
    else mret [mkOp OpCompare key raw]
  end.

Definition FieldIsClosed (field : Entity) : J bool :=
  st ← vocabularyState field;
  mret (match st with Some (state, _) => byte_eqb state vocabularyClosed | None => false end).

Fixpoint setVocabularyAttempts (attempts : nat) (field : Entity) (want : byte) : J unit :=
  match attempts with
  | O => failJ "relations: vocabulary of %s lost %d races in a row"
  | S attempts' =>
    st ← vocabularyState field;
    if match st with Some (state, _) => byte_eqb state want | None => false end then failJ "relations: vocabulary of %s is already %s" else
    if match st with None => byte_eqb want vocabularyOpen | Some _ => false end then failJ "relations: vocabulary of %s was never closed" else
    let key := RelationKey field (StatusMarker s) in
    let pre := match st with Some (_, raw) => mkOp OpCompare key raw | None => mkOp OpCompareAbsent key [] end in
    ops ← LinkOps s field (StatusMarker s) KindFieldState [want];
    let ops := pre :: ops in
    chain ← chainEventOps s Zero ops [mkMutable eventFieldState field (StatusMarker s) [want]];
    tryJ (jApply (ops ++ chain)) (fun r =>
      match r with
      | Ret _ => mret tt
      | Fail err => if errors_is err ErrConflict then setVocabularyAttempts attempts' field want else liftJ (Fail err)
      | Panic => liftJ Panic
      end)
  end.

Definition setVocabulary (field : Entity) (want : byte) : J unit :=
  if negb (byte_eqb (EType field) TypeField) then failJ "relations: vocabulary: %s is not a column" else
  decl ← Declaration field;
  match decl with
  | None => failJ "relations: vocabulary: %s is not a column this log has declared"
  | Some _ => setVocabularyAttempts allocRetries field want
  end.
Definition CloseField (field : Entity) : J unit := setVocabulary field vocabularyClosed.
Definition ReopenField (field : Entity) : J unit := setVocabulary field vocabularyOpen.

(** * Columns and terms *)

Definition FieldInput (field : Entity) : J InputKind :=
  c ← jCache;
  match cInputs c !! field with
  | Some kind => mret kind
  | None =>
    if negb (byte_eqb (EType field) TypeField) then failJ "relations: %s is not a column" else
    decl ← Declaration field;
    match decl with
    | None => failJ "relations: column %s is not declared"
    | Some decl =>
      let kind := match RData (RelRecord decl) with kind :: _ => kind | [] => InputTerm end in
      _ ← jRemember (rememberInput field kind);
      mret kind
    end
  end.

Definition checkFieldInput (field : Entity) (want : InputKind) : J unit :=
  got ← FieldInput field;
  if negb (byte_eqb got want) then failJ "relations: column %q already holds %s, not %s" else mret tt.

Definition field_ (name : bytes) (input : InputKind) (declared : bool) : J Entity :=
  if bytes_eqb name [] then failJ "relations: field name must not be empty" else
  cached ← cachedField name;
  match cached with
  | Some e => _ ← (if declared then checkFieldInput e input else mret tt); mret e
  | None =>
    e ← intern fieldOwner TypeField name [input] None;
    _ ← (if declared then checkFieldInput e input else mret tt);
    _ ← jRemember (rememberField name e);
    mret e
  end.
Definition JField (name : bytes) : J Entity := field_ name InputTerm false.
Definition DefineField (name : bytes) (input : InputKind) : J Entity := field_ name input true.

Definition fieldName (field : Entity) : J bytes :=
  c ← jCache;
  match cFieldNames c !! field with
  | Some name => mret name
  | None =>
    decl ← Declaration field;
    match decl with
    | None => failJ "relations: field %s is referenced but not declared"
    | Some decl => _ ← jRemember (rememberField (RName (RelRecord decl)) field); mret (RName (RelRecord decl))
    end
  end.

Definition termLink (field term : Entity) : J (list Op) :=
  ops ← LinkOps s term field KindTermOf [];
  guard ← vocabularyGuardOps field;
  mret (ops ++ guard).

Definition JTerm (field : Entity) (text : bytes) : J Entity :=
  if negb (byte_eqb (EType field) TypeField) then failJ "relations: term: %s is not a field" else
  if bytes_eqb text [] then failJ "relations: term text must not be empty" else
  cached ← cachedTerm field text;
  match cached with
  | Some e => mret e
  | None =>
    term ← intern field TypeTerm text [] (Some (termLink field));
    _ ← jRemember (rememberTerm (mkTermInfo term field text));
    mret term
  end.

(** * Renames *)

Definition ErrTextAlreadyInterned : error := Errorf "relations: another entity already holds this text".

Definition internOwner (e : Entity) : J Entity :=
  if byte_eqb (EType e) TypeField then mret fieldOwner
  else if byte_eqb (EType e) TypeTerm then
    rels ← Relations e;
    match OfKind rels KindTermOf with
    | [] => failJ "relations: %s belongs to no field"
    | owner :: _ => mret (RelB owner)
    end
  else failJ "relations: only columns and terms are interned; %s is neither".

Definition renameOps (e owner : Entity) (old text : bytes) (rec : Record_) : J (list Op) :=
  let oldKey := PresenceKey owner old in
  let newKey := PresenceKey owner text in
  '(newRaw, newCandidates) ← bucket owner text;
  holder ← resolveBucket owner text newCandidates;
  if match holder with Some holder => negb (bool_decide (holder = e)) | None => false end
  then liftJ (Fail (Wrapf "%w: %q is %s" ErrTextAlreadyInterned)) else
  '(oldRaw, oldCandidates) ← bucket owner old;
  let remaining := filter (fun candidate => candidate <> e) oldCandidates in
  ops ←
    (if bytes_eqb oldKey newKey then
      value ← encode s newKey KindPresence [] (packEntities (remaining ++ [e]));
      mret [mkOp OpCompare oldKey (default [] oldRaw); mkOp OpSet newKey value]
    else
      removal ←
        (if blen remaining =? blen oldCandidates then mret []
        else match remaining with
          | [] => mret [mkOp OpCompare oldKey (default [] oldRaw); mkOp OpDelete oldKey []]
          | _ =>
            value ← encode s oldKey KindPresence [] (packEntities remaining);
            mret [mkOp OpCompare oldKey (default [] oldRaw); mkOp OpSet oldKey value]
          end);
      value ← encode s newKey KindPresence [] (packEntities (newCandidates ++ [e]));
      mret (removal ++ [presencePre newKey newRaw; mkOp OpSet newKey value]));
  declOps ← DeclareOps s e (RKind rec) text (RData rec) (Some (RCreated rec));
  mret (ops ++ declOps).

Fixpoint renameAttempts (attempts : nat) (e owner : Entity) (text : bytes) : J unit :=
  match attempts with
  | O => failJ "relations: rename: %s lost %d races in a row"
  | S attempts' =>
    decl ← Declaration e;
    match decl with
    | None => failJ "relations: rename: %s is not declared"
    | Some decl =>
      let old := RName (RelRecord decl) in
      if bytes_eqb old text then mret tt else
      ops ← renameOps e owner old text (RelRecord decl);
      tail ← liftJ (encodeRenameTail old text);
      chain ← chainEventOps s Zero ops [mkMutable eventDeclare e Zero tail];
      tryJ (jApply (ops ++ chain)) (fun r =>
        match r with
        | Ret _ => jRemember (renameCached e owner old text)
        | Fail err => if errors_is err ErrConflict then renameAttempts attempts' e owner text else liftJ (Fail err)
        | Panic => liftJ Panic
        end)
    end
  end.

Definition Rename (e : Entity) (text : bytes) : J unit :=
  if bytes_eqb text [] then failJ "relations: rename: text must not be empty" else
  owner ← internOwner e;
  renameAttempts allocRetries e owner text.

(** * Lines *)

(** Every cell is checked against its column; terms are interned. *)
Fixpoint resolveCells (seen : gset Entity) (cells : list Cell) : J (list Cell) :=
  match cells with
  | [] => mret []
  | c :: cells' =>
    if negb (byte_eqb (EType (CField c)) TypeField) then failJ "relations: append: %s is not a field" else
    if bool_decide (CField c ∈ seen) then failJ "relations: append: field %s given twice in one entry" else
    let seen := {[CField c]} ∪ seen in
    want ← FieldInput (CField c);
    if negb (byte_eqb (cellInput c) want) then failJ "relations: append: column %s holds %s, but this cell is %s" else
    if CNumeric c && CFree c then failJ "relations: append: cell for field %s is both a number and free text" else
    c ←
      (if CNumeric c then mret c
      else if CFree c then if bytes_eqb (CText c) [] then failJ "relations: append: remark for field %s must not be empty" else mret c
      else term ← JTerm (CField c) (CText c); mret (mkCell (CField c) (CText c) (CNumber c) (CNumeric c) (CFree c) term));
    rest ← resolveCells seen cells';
    mret (c :: rest)
  end.

Definition cellLink (c : Cell) : Entity * byte * bytes :=
  if CNumeric c then (CField c, KindQuantity, be_bytes 8 (u64 (CNumber c)))
  else if CFree c then (CField c, KindRemark, CText c)
  else (resolved c, KindCell, []).

Fixpoint cellOps (entry : Entity) (cells : list Cell) : J (list Op) :=
  match cells with
  | [] => mret []
  | c :: cells' =>
    let '(target, kind, data) := cellLink c in
    ops ← LinkOps s entry target kind data;
    rest ← cellOps entry cells';
    mret (ops ++ rest)
  end.

(** What goes into the transaction that allocates a line *)
Definition lineOps (cells : list Cell) (extra : option (Entity -> J (list Op))) (entry : Entity) : J (interned (list Op)) :=
  ops ← cellOps entry cells;
  more ← match extra with None => mret [] | Some extra => extra entry end;
  let ops := ops ++ more in
  chain ← chainEventOps s entry ops [];
  mret (Fresh (ops ++ chain)).

Definition appendLine (cells : list Cell) (extra : option (Entity -> J (list Op))) : J Entity :=
  match cells with
  | [] => failJ "relations: append: an entry needs at least one cell"
  | _ =>
    cells ← resolveCells ∅ cells;
    r ← AllocateWith s FirstEntryPage TypeEntry KindDeclaration [] [] (lineOps cells extra);
    mret (match r with Fresh e | AlreadyInterned e => e end)
  end.
Definition Append (cells : list Cell) : J Entity := appendLine cells None.

(** * Reading back *)

Definition resolveTerm (term : Entity) : J TermInfo :=
  c ← jCache;
  match cTerms c !! term with
  | Some info => mret info
  | None =>
    decl ← Declaration term;
    match decl with
    | None => failJ "relations: term %s is referenced but not declared"
    | Some decl =>
      rels ← Relations term;
      match OfKind rels KindTermOf with
      | [] => failJ "relations: term %s belongs to no field"
      | owner :: _ =>
        let info := mkTermInfo term (RelB owner) (RName (RelRecord decl)) in
        _ ← jRemember (rememberTerm info);
        mret info
      end
    end
  end.

Record RowCell : Type := mkRowCell {
  RowField : Entity;
  RowFieldName : bytes;
  RowTerm : Entity;
  RowText : bytes;
  RowNumber : Z;
  RowNumeric : bool;
  RowFree : bool;
}.

Fixpoint rowCells (rels : list Relation) : J (list RowCell) :=
  match rels with
  | [] => mret []
  | rel :: rels' =>
    let kind := RKind (RelRecord rel) in
    let data := RData (RelRecord rel) in
    cell ←
      (if byte_eqb kind KindCell then
        info ← resolveTerm (RelB rel);
        name ← fieldName (Field info);
        mret [mkRowCell (Field info) name (Term info) (Text info) 0 false false]
      else if byte_eqb kind KindRemark then
        name ← fieldName (RelB rel);
        mret [mkRowCell (RelB rel) name Zero data 0 false true]
      else if byte_eqb kind KindQuantity then
        if negb (blen data =? 8) then failJ "relations: row: quantity on %s has %d bytes, want 8" else
        name ← fieldName (RelB rel);
        mret [mkRowCell (RelB rel) name Zero [] (s64 (be_value data)) true false]
      else mret []);
    rest ← rowCells rels';
    mret (cell ++ rest)
  end.

Definition Row (entry : Entity) : J (list RowCell) :=
  if negb (byte_eqb (EType entry) TypeEntry) then failJ "relations: row: %s is not an entry" else
  rels ← Relations entry;
  rowCells rels.

Definition EntriesWithIn (term : Entity) (r : Range) : J (list Entity) :=
  rels ← BacklinksRange term r;
  mret (map RelA (OfKind rels KindCell)).
Definition EntriesWith (term : Entity) : J (list Entity) := EntriesWithIn term everything.

Definition EntryPages (from to : byte) : Range := mkRange (mkEntity (SLog s) from TypeEntry Byte.x00) (mkEntity (SLog s) to TypeEntry Byte.xff) 0.

Fixpoint vocabularyTerms (field : Entity) (rels : list Relation) : J (list TermInfo) :=
  match rels with
  | [] => mret []
  | rel :: rels' =>
    decl ← Declaration (RelA rel);
    match decl with
    | None => failJ "relations: vocabulary: term %s is linked to %s but not declared"
    | Some decl =>
      let info := mkTermInfo (RelA rel) field (RName (RelRecord decl)) in
      _ ← jRemember (rememberTerm info);
      rest ← vocabularyTerms field rels';
      mret (info :: rest)
    end
  end.
Definition Vocabulary (field : Entity) : J (list TermInfo) :=
  rels ← Backlinks field;
  vocabularyTerms field (OfKind rels KindTermOf).

Definition Page_ (page : byte) : J (list Entity) :=
  decls ← ListPage s page TypeEntry;
  mret (map RelA decls).

Definition Fields : J (list Entity) :=
  decls ← List_ s SchemaPage TypeField;
  _ ← jRemember (fun c => fold_left (fun c d => rememberField (RName (RelRecord d)) (RelA d) c) decls c);
  mret (map RelA decls).

Record VocabularyState : Type := mkVocabularyState {
  VSField : Entity;
  VSName : bytes;
  VSClosed : bool;
  VSBy : Entity;
  VSAt : Z;
}.

Fixpoint closedFieldsOf (rels : list Relation) : J (list VocabularyState) :=
  match rels with
  | [] => mret []
  | rel :: rels' =>
    match RData (RelRecord rel) with
    | [state] =>
      if negb (byte_eqb state vocabularyClosed) then closedFieldsOf rels' else
      name ← fieldName (RelA rel);
      rest ← closedFieldsOf rels';
      mret (mkVocabularyState (RelA rel) name true (RAuthor (RelRecord rel)) (RCreated (RelRecord rel)) :: rest)
    | _ => closedFieldsOf rels'
    end
  end.
Definition ClosedFields : J (list VocabularyState) :=
  rels ← Backlinks (StatusMarker s);
  closedFieldsOf (OfKind rels KindFieldState).

End Journal.
