(* ===== verification/RelSign.v ===== *)
(** Striking, endorsing and closing (src/examples/relations: corrections.go,
    countersign.go, signoff.go, signed.go), and signatures made elsewhere. *)

From S2P Require Import Prelude Store SystemKeys Payloads LogRecord Txn Hex RelRecord RelStore RelChain RelJournal.
#[local] Open Scope Z_scope.

(** * Strikes *)

Definition ErrAlreadyStruck : error := Errorf "relations: this line has already been superseded or voided".
Definition maxCorrectionChain : nat := 1000.

Inductive EntryState : Type := StateLive | StateSuperseded | StateVoided.
#[global] Instance EntryState_eq_dec : EqDecision EntryState.
Proof. solve_decision. Defined.

Definition EntryState_String (st : EntryState) : bytes :=
  match st with StateLive => bs "live" | StateSuperseded => bs "superseded" | StateVoided => bs "voided" end.

(** [At] is 0 for a live line. *)
Record EntryStatus : Type := mkStatus {
  ESEntry : Entity;
  ESState : EntryState;
  ESReplacement : Entity;
  ESReason : Entity;
  ESAuthor : Entity;
  ESAt : Z;
}.
Definition Live (st : EntryStatus) : bool := match ESState st with StateLive => true | _ => false end.

Definition decodeStrike (rel : Relation) : gores EntryStatus :=
  let rec := RelRecord rel in
  if negb (blen (RData rec) =? EntityLen) then Fail (Errorf "relations: status of %s carries a %d-byte payload, want %d") else
  payload ← DecodeEntity (RData rec);
  if byte_eqb (RKind rec) KindSuperseded then
    if IsZero payload then Fail (Errorf "relations: %s is superseded by no line") else
    Ret (mkStatus (RelA rel) StateSuperseded payload Zero (RAuthor rec) (RCreated rec))
  else if byte_eqb (RKind rec) KindVoided then Ret (mkStatus (RelA rel) StateVoided Zero payload (RAuthor rec) (RCreated rec))
  else Fail (Errorf "relations: %s has an unknown status kind %#x").

Section Strikes.
Context `{RelEnv} (s : Store_).

Definition Status (entry : Entity) : J EntryStatus :=
  if negb (byte_eqb (EType entry) TypeEntry) then failJ "relations: status: %s is not a line" else
  rel ← Lookup entry (StatusMarker s);
  match rel with
  | None => mret (mkStatus entry StateLive Zero Zero Zero 0)
  | Some rel => liftJ (decodeStrike rel)
  end.

Definition strikeOps (entry : Entity) (kind : byte) (payload : bytes) : J (list Op) :=
  ops ← LinkOps s entry (StatusMarker s) kind payload;
  mret (mkOp OpCompareAbsent (RelationKey entry (StatusMarker s)) [] :: ops).

Definition isLine (entry : Entity) : bool := byte_eqb (EType entry) TypeEntry && negb (byte_eqb (EID entry) Byte.x00).

Definition checkStrikeable (entry : Entity) : J unit :=
  if negb (isLine entry) then failJ "relations: %s is not a line" else
  decl ← Declaration entry;
  match decl with
  | None => failJ "relations: %s is not a line this log has written"
  | Some _ =>
    status ← Status entry;
    if negb (Live status) then liftJ (Fail (Wrapf "%w: %s is %s" ErrAlreadyStruck)) else mret tt
  end.

Definition explainStrikeConflict {A} (entry : Entity) (err : error) : J A :=
  if negb (errors_is err ErrConflict) then liftJ (Fail err) else
  tryJ (Status entry) (fun r =>
    match r with
    | Ret status => liftJ (Fail (if negb (Live status) then Wrapf "%w: %s is %s" ErrAlreadyStruck else err))
    | Fail _ => liftJ (Fail err)
    | Panic => liftJ Panic
    end).

Definition correctionOps (superseded entry : Entity) : J (list Op) :=
  _ ← checkStrikeable superseded;
  ops ← strikeOps superseded KindSuperseded (Bytes entry);
  back ← LinkOps s entry superseded KindSupersedes [];
  mret (ops ++ back).

Definition Correct (superseded : Entity) (cells : list Cell) : J Entity :=
  _ ← checkStrikeable superseded;
  tryJ (appendLine s cells (Some (correctionOps superseded))) (fun r =>
    match r with
    | Ret replacement => mret replacement
    | Fail err => explainStrikeConflict superseded err
    | Panic => liftJ Panic
    end).

Fixpoint voidAttempts (attempts : nat) (entry reason : Entity) : J unit :=
  match attempts with
  | O => failJ "relations: void: %s lost %d races in a row"
  | S attempts' =>
    ops ← strikeOps entry KindVoided (Bytes reason);
    chain ← chainEventOps s Zero ops [];
    tryJ (jApply (ops ++ chain)) (fun r =>
      match r with
      | Ret _ => mret tt
      | Fail err =>
        if negb (errors_is err ErrConflict) then liftJ (Fail err) else
        _ ← checkStrikeable entry;
        voidAttempts attempts' entry reason
      | Panic => liftJ Panic
      end)
  end.

Definition checkReason (reason : Entity) : J unit :=
  if IsZero reason then mret tt else
  if negb (byte_eqb (EType reason) TypeTerm) then failJ "relations: void: reason %s is not a dictionary term" else
  decl ← Declaration reason;
  match decl with
  | None => failJ "relations: void: reason %s is not declared"
  | Some _ => mret tt
  end.

Definition Void (entry reason : Entity) : J unit :=
  _ ← checkStrikeable entry;
  _ ← checkReason reason;
  voidAttempts allocRetries entry reason.

Fixpoint strikesOf (rels : list Relation) : gores (list EntryStatus) :=
  match rels with
  | [] => Ret []
  | rel :: rels' =>
    let kind := RKind (RelRecord rel) in
    if byte_eqb kind KindSuperseded || byte_eqb kind KindVoided then
      status ← decodeStrike rel; rest ← strikesOf rels'; Ret (status :: rest)
    else strikesOf rels'
  end.
Definition Corrections : J (list EntryStatus) :=
  rels ← Backlinks (StatusMarker s);
  liftJ (strikesOf rels).

Definition LivePage (page : byte) : J (list Entity) :=
  lines ← Page_ s page;
  struck ← Corrections;
  mret (filter (fun line => line ∉ map ESEntry struck) lines).

(** ** The versions of a line *)

(** [room] is what is left of [maxCorrectionChain]. *)
Fixpoint walkBack (room : nat) (seen : gset Entity) (cursor : Entity) (older : list Entity) : J (gset Entity * list Entity) :=
  rels ← Relations cursor;
  match OfKind rels KindSupersedes with
  | [] => mret (seen, older)
  | previous :: _ =>
    let cursor := RelB previous in
    if bool_decide (cursor ∈ seen) then failJ "relations: history: %s supersedes a line already in its own chain" else
    match room with
    | O => failJ "relations: history: chain longer than %d lines"
    | S room' => walkBack room' ({[cursor]} ∪ seen) cursor (older ++ [cursor])
    end
  end.

Fixpoint walkForward (room : nat) (seen : gset Entity) (cursor : Entity) (chain : list Entity) : J (list Entity) :=
  status ← Status cursor;
  match ESState status with
  | StateSuperseded =>
    let cursor := ESReplacement status in
    if bool_decide (cursor ∈ seen) then failJ "relations: history: %s is replaced by a line already in its own chain" else
    match room with
    | O => failJ "relations: history: chain longer than %d lines"
    | S room' => walkForward room' ({[cursor]} ∪ seen) cursor (chain ++ [cursor])
    end
  | _ => mret chain
  end.

Definition History (entry : Entity) : J (list Entity) :=
  if negb (byte_eqb (EType entry) TypeEntry) then failJ "relations: history: %s is not a line" else
  '(seen, older) ← walkBack maxCorrectionChain {[entry]} entry [];
  let chain := reverse older ++ [entry] in
  walkForward (maxCorrectionChain - length chain) seen entry chain.

Definition Latest (entry : Entity) : J Entity :=
  chain ← History entry;
  match last chain with
  | Some e => mret e
  | None => liftJ Panic
  end.

(** * Countersignatures *)

Definition ErrAlreadyCountersigned : error := Errorf "relations: this actor has already countersigned this line".

Definition CountersignedBy (entry actor : Entity) : J bool :=
  rel ← Lookup entry actor;
  mret (match rel with Some _ => true | None => false end).

Definition checkCountersignable (entry actor : Entity) : J unit :=
  if negb (isLine entry) then failJ "relations: countersign: %s is not a line" else
  if IsZero actor then failJ "relations: countersign: this store has no actor to sign as" else
  actorDecl ← Declaration actor;
  if match actorDecl with Some decl => negb (blen (RData (RelRecord decl)) =? PublicKeySize) | None => true end
  then failJ "relations: countersign: %s is not declared with a public key, so nobody could check the endorsement" else
  decl ← Declaration entry;
  match decl with
  | None => failJ "relations: countersign: %s is not a line this log has written"
  | Some decl =>
    if bool_decide (RAuthor (RelRecord decl) = actor) then failJ "relations: countersign: %s wrote this line; a second signature from the same actor endorses nothing" else
    status ← Status entry;
    if negb (Live status) then liftJ (Fail (Wrapf "%w: %s is %s" ErrAlreadyStruck)) else
    already ← CountersignedBy entry actor;
    if (already : bool) then liftJ (Fail (Wrapf "%w: %s on %s" ErrAlreadyCountersigned)) else mret tt
  end.

Fixpoint countersignAttempts (attempts : nat) (entry actor : Entity) (write : list Op) : J unit :=
  match attempts with
  | O => failJ "relations: countersign: %s lost %d races in a row"
  | S attempts' =>
    let ops := [mkOp OpCompareAbsent (RelationKey entry actor) []; mkOp OpCompareAbsent (RelationKey entry (StatusMarker s)) []] ++ write in
    chain ← chainEventOps s Zero ops [];
    tryJ (jApply (ops ++ chain)) (fun r =>
      match r with
      | Ret _ => mret tt
      | Fail err =>
        if negb (errors_is err ErrConflict) then liftJ (Fail err) else
        _ ← checkCountersignable entry actor;
        countersignAttempts attempts' entry actor write
      | Panic => liftJ Panic
      end)
  end.

Definition countersign (entry actor : Entity) (write : list Op) : J unit :=
  _ ← checkCountersignable entry actor;
  countersignAttempts allocRetries entry actor write.

Definition Countersign (entry : Entity) : J unit :=
  ops ← LinkOps s entry (SAuthor s) KindCountersign [];
  countersign entry (SAuthor s) ops.

Record Countersignature : Type := mkCountersignature {
  CSEntry : Entity;
  CSActor : Entity;
  CSName : bytes;
  CSAt : Z;
}.

Fixpoint countersignaturesOf (entry : Entity) (rels : list Relation) : J (list Countersignature) :=
  match rels with
  | [] => mret []
  | rel :: rels' =>
    decl ← Declaration (RelB rel);
    match decl with
    | None => failJ "relations: countersignatures: %s endorsed %s but is not declared"
    | Some decl =>
      rest ← countersignaturesOf entry rels';
      mret (mkCountersignature entry (RelB rel) (RName (RelRecord decl)) (RCreated (RelRecord rel)) :: rest)
    end
  end.
Definition Countersignatures (entry : Entity) : J (list Countersignature) :=
  if negb (byte_eqb (EType entry) TypeEntry) then failJ "relations: countersignatures: %s is not a line" else
  rels ← Relations entry;
  countersignaturesOf entry (OfKind rels KindCountersign).

(** * Closed pages *)

Definition ErrPageSignedOff : error := Errorf "relations: this page has already been signed off".

Record PageSignoff : Type := mkSignoff {
  PSPage : byte;
  PSBy : Entity;
  PSName : bytes;
  PSAt : Z;
  PSLines : byte;
}.

Definition PageStatus (page : byte) : J (option PageSignoff) :=
  rel ← Lookup (PageEntity s page) (StatusMarker s);
  match rel with
  | None => mret None
  | Some rel =>
    let rec := RelRecord rel in
    if negb (byte_eqb (RKind rec) KindPageSignoff) then failJ "relations: page %d has a status record of kind %#x, want a sign-off" else
    match RData rec with
    | [lines] =>
      decl ← Declaration (RAuthor rec);
      let name := match decl with Some decl => RName (RelRecord decl) | None => [] end in
      mret (Some (mkSignoff page (RAuthor rec) name (RCreated rec) lines))
    | _ => failJ "relations: page %d's sign-off carries %d bytes, want 1"
    end
  end.

Definition checkSignable (page : byte) : J unit :=
  status ← PageStatus page;
  match status with
  | Some _ => liftJ (Fail (Wrapf "%w: page %d" ErrPageSignedOff))
  | None =>
    closed ← PageIsClosed s page TypeEntry;
    if (closed : bool) then liftJ (Fail (Wrapf "%w: page %d is closed to further lines" ErrPageSignedOff)) else mret tt
  end.

Fixpoint signOffAttempts (attempts : nat) (page : byte) (write : list Op) : J unit :=
  match attempts with
  | O => failJ "relations: sign off: page %d lost %d races in a row"
  | S attempts' =>
    closeOps ← ClosePageOps s page TypeEntry;
    let ops := [mkOp OpCompareAbsent (RelationKey (PageEntity s page) (StatusMarker s)) []] ++ closeOps ++ write in
    chain ← chainEventOps s Zero ops [];
    tryJ (jApply (ops ++ chain)) (fun r =>
      match r with
      | Ret _ => mret tt
      | Fail err =>
        if negb (errors_is err ErrConflict) then liftJ (Fail err) else
        _ ← checkSignable page;
        signOffAttempts attempts' page write
      | Panic => liftJ Panic
      end)
  end.

Definition signOffPage (page : byte) (write : list Op) : J unit :=
  _ ← checkSignable page;
  signOffAttempts allocRetries page write.

Definition SignOffPage (page : byte) : J unit :=
  if byte_to_Z page <? byte_to_Z FirstEntryPage then failJ "relations: sign off: page %d is not a page of entries" else
  lines ← LastAllocated s page TypeEntry;
  write ← LinkOps s (PageEntity s page) (StatusMarker s) KindPageSignoff [lines];
  signOffPage page write.

Fixpoint signoffsOf (rels : list Relation) : J (list PageSignoff) :=
  match rels with
  | [] => mret []
  | rel :: rels' =>
    signoff ← PageStatus (EPage (RelA rel));
    rest ← signoffsOf rels';
    mret (match signoff with Some signoff => signoff :: rest | None => rest end)
  end.
Definition SignedOffPages : J (list PageSignoff) :=
  rels ← Backlinks (StatusMarker s);
  signoffsOf (OfKind rels KindPageSignoff).

(** * Signatures made elsewhere *)

Record SignedLink : Type := mkSignedLink {
  SLA : Entity;
  SLB : Entity;
  SLForward : bytes;
  SLIndex : bytes;
}.

(** [created] is [None] for the zero time, which reads the clock. *)
Definition SignLink (a b : Entity) (kind : byte) (data : bytes) (author : Entity) (priv : bytes) (created : option Z) : J SignedLink :=
  if IsZero a || IsZero b then failJ "relations: sign link: neither side may be the zero entity" else
  if negb (blen priv =? PrivateKeySize) then failJ "relations: sign link: a private key is %d bytes, got %d" else
  created ← match created with Some created => mret created | None => jNow end;
  let rec := mkRec kind author created [] data [] in
  forward ← liftJ (EncodeRecord rec (RelationKey a b) (Some priv));
  index ← liftJ (EncodeRecord rec (IndexKey a b) (Some priv));
  mret (mkSignedLink a b forward index).

Definition sameRecord (a b : Record_) : bool :=
  byte_eqb (RKind a) (RKind b) && bool_decide (RAuthor a = RAuthor b) && (RCreated a =? RCreated b) && bytes_eqb (RName a) (RName b) && bytes_eqb (RData a) (RData b).

Definition SignedLink_Verify (l : SignedLink) (pub : bytes) : gores Record_ :=
  if IsZero (SLA l) || IsZero (SLB l) then Fail (Errorf "relations: signed link: neither side may be the zero entity") else
  '(forward, forwardUnsigned) ← wrap_err "relations: signed link: forward record: %w" (DecodeRecord (SLForward l));
  '(index, indexUnsigned) ← wrap_err "relations: signed link: index record: %w" (DecodeRecord (SLIndex l));
  if negb (sameRecord forward index) then Fail (Errorf "relations: signed link: the two directions are not the same record") else
  _ ← wrap_err "relations: signed link: forward record: %w" (VerifyRecord forward (RelationKey (SLA l) (SLB l)) forwardUnsigned pub);
  _ ← wrap_err "relations: signed link: index record: %w" (VerifyRecord index (IndexKey (SLA l) (SLB l)) indexUnsigned pub);
  Ret forward.

Definition SignedLink_Ops (l : SignedLink) : list Op :=
  [mkOp OpSet (RelationKey (SLA l) (SLB l)) (SLForward l); mkOp OpSet (IndexKey (SLA l) (SLB l)) (SLIndex l)].

Definition Actor (name pub : bytes) : J Entity :=
  if bytes_eqb name [] then failJ "relations: actor name must not be empty" else
  if negb (blen pub =? PublicKeySize) then failJ "relations: actor: public key must be %d bytes, got %d" else
  actor ← intern s (actorOwner s) TypeActor name pub None;
  decl ← Declaration actor;
  match decl with
  | None => failJ "relations: actor %s is not declared"
  | Some decl => if negb (bytes_eqb (RData (RelRecord decl)) pub) then failJ "relations: actor %q is already declared with a different key" else mret actor
  end.

Definition actorKey (actor : Entity) : J bytes :=
  if negb (byte_eqb (EType actor) TypeActor) then failJ "relations: %s is not an actor" else
  decl ← Declaration actor;
  match decl with
  | None => failJ "relations: actor %s is not declared, so nothing could check its signature"
  | Some decl =>
    if negb (blen (RData (RelRecord decl)) =? PublicKeySize) then failJ "relations: actor %s is declared without a public key" else mret (RData (RelRecord decl))
  end.

Definition CountersignWith (entry : Entity) (l : SignedLink) : J unit :=
  if negb (bool_decide (SLA l = entry)) then failJ "relations: countersign: this endorsement is for %s, not %s" else
  let actor := SLB l in
  pub ← actorKey actor;
  rec ← liftJ (SignedLink_Verify l pub);
  if negb (byte_eqb (RKind rec) KindCountersign) then failJ "relations: countersign: this record is kind %#x, not an endorsement" else
  if negb (bool_decide (RAuthor rec = actor)) then failJ "relations: countersign: the record is authored by %s, not by the endorser %s" else
  countersign entry actor (SignedLink_Ops l).

Definition SignOffPageWith (page : byte) (l : SignedLink) : J unit :=
  if byte_to_Z page <? byte_to_Z FirstEntryPage then failJ "relations: sign off: page %d is not a page of entries" else
  if negb (bool_decide (SLA l = PageEntity s page)) || negb (bool_decide (SLB l = StatusMarker s)) then failJ "relations: sign off: this record is not a sign-off of page %d" else
  '(forward, _) ← liftJ (DecodeRecord (SLForward l));
  pub ← actorKey (RAuthor forward);
  rec ← liftJ (SignedLink_Verify l pub);
  if negb (byte_eqb (RKind rec) KindPageSignoff) then failJ "relations: sign off: this record is kind %#x, not a sign-off" else
  match RData rec with
  | [signedFor] =>
    lines ← LastAllocated s page TypeEntry;
    if negb (byte_eqb signedFor lines) then failJ "relations: sign off: this was signed for a page of %d lines, and it now holds %d -- sign it again" else
    signOffPage page (SignedLink_Ops l)
  | _ => failJ "relations: sign off: the record carries %d bytes, want the line count"
  end.

End Strikes.
