(* ===== verification/RelIssue.v ===== *)
(** Which transactions a program of a journal can issue (src/examples/relations), whatever
    it reads and whatever is answered: the basis for reasoning about writers that
    share one store. *)

From S2P Require Import Prelude Store SystemKeys Payloads LogRecord Txn Hex RelRecord RelStore RelChain RelJournal RelSign.
#[local] Open Scope Z_scope.

(** On every path, with any replies, each transaction satisfies [P] and the result [Q]. *)
Fixpoint wp {A} (P : list Op -> Prop) (p : bprog A) (Q : A -> Prop) : Prop :=
  match p with
  | BDone a => Q a
  | BDo o k => match o with BApply ops => P ops | _ => True end /\ forall r, wp P (k r) Q
  end.

(** The same for a journal's programs; the result matters when there is one. *)
Definition wpj {A} (P : list Op -> Prop) (m : J A) (Q : A -> Prop) : Prop :=
  forall c, wp P (m c) (fun cr => match cr.2 with Ret a => Q a | _ => True end).

Lemma wpi_mono {A} P (p : bprog A) (Q Q' : A -> Prop) : (forall a, Q a -> Q' a) -> wp P p Q -> wp P p Q'.
Proof. intros Hq. induction p as [a|o k IH]; cbn; [apply Hq|]. intros [Hp Hk]. split; [done|]. intros r. by apply IH. Qed.

Lemma wpi_after {A B} P (p : bprog A) (k : A -> bprog B) Q : wp P p (fun a => wp P (k a) Q) -> wp P (bafter p k) Q.
Proof. induction p as [a|o c IH]; cbn; [done|]. intros [Hp Hc]. split; [done|]. intros r. by apply IH. Qed.

Section Rules.
Context (P : list Op -> Prop).

Lemma wpj_mono {A} (m : J A) (Q Q' : A -> Prop) : (forall a, Q a -> Q' a) -> wpj P m Q -> wpj P m Q'.
Proof. intros Hq Hm c. eapply wpi_mono; [|apply Hm]. intros [c' []]; cbn; auto. Qed.

Lemma wpj_bind {A B} (m : J A) (f : A -> J B) Q : wpj P m (fun a => wpj P (f a) Q) -> wpj P (m ≫= f) Q.
Proof. intros Hm c. apply wpi_after. eapply wpi_mono; [|apply Hm]. intros [c' []]; cbn; auto. Qed.

Lemma wpj_any {A B} (m : J A) (f : A -> J B) Q : wpj P m (fun _ => True) -> (forall a, wpj P (f a) Q) -> wpj P (m ≫= f) Q.
Proof. intros Hm Hf. apply wpj_bind. by eapply wpj_mono; [|exact Hm]. Qed.

Lemma wpj_lift {A} (r : gores A) (Q : A -> Prop) : (forall a, r = Ret a -> Q a) -> wpj P (liftJ r) Q.
Proof. intros Hr c. cbn. destruct r; cbn; auto. Qed.
Lemma wpj_ret {A} (a : A) (Q : A -> Prop) : Q a -> wpj P (mret a) Q.
Proof. by intros Hq c. Qed.
Lemma wpj_fail {A} fmt (Q : A -> Prop) : wpj P (failJ fmt) Q.
Proof. by intros c. Qed.
Lemma wpj_err {A} e (Q : A -> Prop) : wpj P (liftJ (Fail e)) Q.
Proof. by intros c. Qed.
Lemma wpj_panic {A} (Q : A -> Prop) : wpj P (liftJ Panic) Q.
Proof. by intros c. Qed.
Lemma wpj_scan start stop limit : wpj P (jScan start stop limit) (fun _ => True).
Proof. intros c. cbn. split; [done|]. by intros [] . Qed.
Lemma wpj_now : wpj P jNow (fun _ => True).
Proof. by intros c. Qed.
Lemma wpj_cache : wpj P jCache (fun _ => True).
Proof. by intros c. Qed.
Lemma wpj_remember f : wpj P (jRemember f) (fun _ => True).
Proof. by intros c. Qed.
Lemma wpj_apply ops : P ops -> wpj P (jApply ops) (fun _ => True).
Proof. intros Hp c. cbn. split; [done|]. by intros []. Qed.
Lemma wpj_wrap {A} fmt (m : J A) Q : wpj P m Q -> wpj P (wrapJ fmt m) Q.
Proof. intros Hm c. apply wpi_after. eapply wpi_mono; [|apply Hm]. by intros [c' []]. Qed.
Lemma wpj_try {A B} (m : J A) (f : gores A -> J B) Q : wpj P m (fun _ => True) -> (forall r, wpj P (f r) Q) -> wpj P (tryJ m f) Q.
Proof. intros Hm Hf c. apply wpi_after. eapply wpi_mono; [|apply Hm]. intros [c' r] _. apply Hf. Qed.
End Rules.

Create HintDb issues.
#[export] Hint Resolve wpj_ret wpj_fail wpj_err wpj_panic wpj_scan wpj_now wpj_cache wpj_remember wpj_wrap : issues.
#[export] Hint Extern 1 (wpj _ (liftJ _) _) => (apply wpj_lift; done) : issues.
#[export] Hint Extern 2 (wpj _ (_ ≫= _) _) => (apply wpj_any; [|intros]) : issues.
#[export] Hint Extern 1 (wpj _ (match ?x with _ => _ end) _) => destruct x : issues.
#[export] Hint Extern 3 (wpj _ (let '(_, _) := ?x in _) _) => destruct x : issues.

(** ** Programs that only read *)
Section Readers.
Context `{RelEnv} (s : Store_) (P : list Op -> Prop).

Lemma issue_get key : wpj P (get key) (fun _ => True).
Proof. unfold get. eauto with issues. Qed.
#[local] Hint Resolve issue_get : issues.
Lemma issue_read key a b : wpj P (read key a b) (fun _ => True).
Proof. unfold read. eauto 10 with issues. Qed.
Lemma issue_Declaration e : wpj P (Declaration e) (fun _ => True).
Proof. apply issue_read. Qed.
Lemma issue_Lookup a b : wpj P (Lookup a b) (fun _ => True).
Proof. apply issue_read. Qed.
Lemma issue_RelationsRange a r : wpj P (RelationsRange a r) (fun _ => True).
Proof. unfold RelationsRange. destruct (RelationBoundsIn _ _ _). eauto with issues. Qed.
Lemma issue_Relations a : wpj P (Relations a) (fun _ => True).
Proof. apply issue_RelationsRange. Qed.
#[local] Hint Resolve issue_Declaration issue_Lookup issue_Relations : issues.
Lemma issue_PageAllocated page typ : wpj P (PageAllocated s page typ) (fun _ => True).
Proof. unfold PageAllocated. eauto 10 with issues. Qed.
#[local] Hint Resolve issue_PageAllocated : issues.
Lemma issue_LastAllocated page typ : wpj P (LastAllocated s page typ) (fun _ => True).
Proof. unfold LastAllocated. eauto 10 with issues. Qed.
Lemma issue_PageIsClosed page typ : wpj P (PageIsClosed s page typ) (fun _ => True).
Proof. unfold PageIsClosed. eauto 10 with issues. Qed.
#[local] Hint Resolve issue_PageIsClosed : issues.
Lemma issue_freeID page typ ids : wpj P (freeID s page typ ids) (fun _ => True).
Proof. induction ids as [|id ids IH]; cbn; eauto 10 with issues. Qed.
Lemma issue_bucket owner text : wpj P (bucket owner text) (fun _ => True).
Proof. unfold bucket. eauto 12 with issues. Qed.
Lemma issue_resolveBucket owner text candidates : wpj P (resolveBucket owner text candidates) (fun _ => True).
Proof. induction candidates as [|candidate candidates IH]; cbn; eauto 12 with issues. Qed.
Lemma issue_vocabularyState field : wpj P (vocabularyState s field) (fun _ => True).
Proof. unfold vocabularyState. eauto 12 with issues. Qed.
Lemma issue_FieldInput field : wpj P (FieldInput field) (fun _ => True).
Proof. unfold FieldInput. eauto 15 with issues. Qed.
#[local] Hint Resolve issue_FieldInput issue_vocabularyState : issues.
Lemma issue_checkFieldInput field want : wpj P (checkFieldInput field want) (fun _ => True).
Proof. unfold checkFieldInput. eauto 15 with issues. Qed.
Lemma issue_Status entry : wpj P (Status s entry) (fun _ => True).
Proof. unfold Status. eauto 12 with issues. Qed.
#[local] Hint Resolve issue_Status : issues.
Lemma issue_checkStrikeable entry : wpj P (checkStrikeable s entry) (fun _ => True).
Proof. unfold checkStrikeable. eauto 12 with issues. Qed.
Lemma issue_explainStrikeConflict {A} entry err (Q : A -> Prop) : wpj P (explainStrikeConflict s entry err) Q.
Proof. unfold explainStrikeConflict. destruct (negb _); [eauto with issues|]. apply wpj_try; [eauto with issues|]. intros []; eauto with issues. Qed.
Lemma issue_CountersignedBy entry actor : wpj P (CountersignedBy entry actor) (fun _ => True).
Proof. unfold CountersignedBy. eauto 12 with issues. Qed.
#[local] Hint Resolve issue_CountersignedBy : issues.
Lemma issue_checkCountersignable entry actor : wpj P (checkCountersignable s entry actor) (fun _ => True).
Proof. unfold checkCountersignable. eauto 25 with issues. Qed.
Lemma issue_PageStatus page : wpj P (PageStatus s page) (fun _ => True).
Proof. unfold PageStatus. eauto 15 with issues. Qed.
#[local] Hint Resolve issue_PageStatus : issues.
Lemma issue_checkSignable page : wpj P (checkSignable s page) (fun _ => True).
Proof. unfold checkSignable. eauto 15 with issues. Qed.
Lemma issue_actorKey actor : wpj P (actorKey actor) (fun _ => True).
Proof. unfold actorKey. eauto 15 with issues. Qed.
Lemma issue_checkReason reason : wpj P (checkReason reason) (fun _ => True).
Proof. unfold checkReason. eauto 15 with issues. Qed.
End Readers.

#[export] Hint Resolve issue_get issue_read issue_Declaration issue_Lookup issue_RelationsRange issue_Relations issue_PageAllocated issue_LastAllocated issue_PageIsClosed
  issue_freeID issue_bucket issue_resolveBucket issue_vocabularyState issue_FieldInput issue_checkFieldInput issue_Status issue_checkStrikeable issue_explainStrikeConflict
  issue_CountersignedBy issue_checkCountersignable issue_PageStatus issue_checkSignable issue_actorKey issue_checkReason : issues.
