(* ===== verification/RelChainTxn.v ===== *)
(** The transactions that extend the chain (src/examples/relations/chain.go): whatever a
    writer has read, a transaction of a log book either leaves the chain alone or
    extends it from the head it compares with. *)

From S2P Require Import Prelude Store SystemKeys Payloads LogRecord Txn Hex RelRecord RelStore RelChain RelRun RelChainProps RelJournal RelSign RelIssue.
#[local] Open Scope Z_scope.

(** The parts of an event's link that its fact tells *)
Definition factTag (f : fact) : byte := match f with LineWritten _ _ => eventLine | RecordWritten tag _ _ _ | RecordChanged tag _ _ _ => tag end.
Definition factSubject (f : fact) : Entity := match f with LineWritten e _ => e | RecordWritten _ a _ _ | RecordChanged _ a _ _ => a end.
Definition factParty (f : fact) : Entity := match f with LineWritten _ _ => Zero | RecordWritten _ _ b _ | RecordChanged _ _ b _ => b end.
Definition factTail (f : fact) : bytes := match f with RecordChanged _ _ _ tail => tail | _ => [] end.

Definition linkKey (s : Store_) (seq : Z) : bytes := RelationKey (EventAnchor s) (EntityFromValue seq).
Definition headKey (s : Store_) : bytes := DeclarationKey (ChainHead s).

(** A stored link: a record of the right kind with the digest and what the fact tells *)
Definition linkValue (digest : bytes) (f : fact) (value : bytes) : Prop :=
  exists rec u, DecodeRecord value = Ret (rec, u) /\ RKind rec = KindChainLink /\ RData rec = linkPayload digest (factTag f) (factSubject f) (factParty f) (factTail f).

Section Txn.
Context `{RelEnv} (s : Store_).

(** The links of consecutive facts *)
Inductive linksOf : bytes * Z -> list fact -> list Op -> Prop :=
| lo_nil p : linksOf p [] []
| lo_cons p f facts fwd rev ops :
    0 <= p.2 < maxChainSeq -> EventAnchor s <> EntityFromValue (p.2 + 1) -> linkValue (chainStep p f).1 f fwd -> linksOf (chainStep p f) facts ops ->
    linksOf p (f :: facts) (mkOp OpSet (linkKey s (p.2 + 1)) fwd :: mkOp OpSet (IndexKey (EventAnchor s) (EntityFromValue (p.2 + 1))) rev :: ops).

(** The head a transaction starts from, by what it compares the head record with *)
Definition startsAt (cmp : Op) (p : bytes * Z) : Prop :=
  (cmp = mkOp OpCompareAbsent (headKey s) [] /\ p = (genesisDigest, 0)) \/
  (exists raw, cmp = mkOp OpCompare (headKey s) raw /\ decodeHead raw = Ret p).

(** The chain's part of a transaction *)
Inductive chained : list Op -> Prop :=
| ch_none : chained []
| ch_some p facts links cmp head :
    startsAt cmp p -> facts <> [] -> linksOf p facts links -> decodeHead head = Ret (chainFrom p facts) ->
    chained (links ++ [cmp; mkOp OpSet (headKey s) head]).

(** Keys that belong to the chain *)
Definition chainKey (k : bytes) : Prop := k = headKey s \/ exists e, k = RelationKey (EventAnchor s) e /\ e <> Zero.

(** An operation that leaves the chain's records alone, at a key of the store's shape *)
Definition aside (op : Op) : Prop := match opKind op with OpSet | OpDelete => ~ chainKey (opKey op) /\ blen (opKey op) = KeyLen | _ => True end.

Definition journalTxn (ops : list Op) : Prop := exists own chain, ops = own ++ chain /\ Forall aside own /\ chained chain.

(** ** Building the links *)

Lemma encodeAt_Ret key kind name data created v : (forall p m, blen (rel_sign p m) <= maxFieldLen) -> encodeAt s key kind name data created = Ret v ->
  exists rec u, DecodeRecord v = Ret (rec, u) /\ RKind rec = kind /\ RName rec = name /\ RData rec = data.
Proof.
  intros Hs E. unfold encodeAt in E. apply EncodeRecord_Ret in E as (-> & _ & Hn & Hd). cbn in Hn, Hd.
  set (r := signed _ key (priv s)). set (r' := mkRec (RKind r) (RAuthor r) (s64 (u64 (RCreated r))) (RName r) (RData r) (RSignature r)).
  assert (0 <= u64 (RCreated r) < 2 ^ 64) as Hu by (unfold u64; apply Z.mod_pos_bound; lia). destruct (u64_s64 _ Hu) as [Hu1 Hu2].
  assert (sealed r = sealed r') as -> by (unfold sealed, recordBody, r'; cbn [RKind RAuthor RCreated RName RData RSignature]; by rewrite Hu1).
  exists r', (recordBody r'). split; [|done]. apply DecodeRecord_sealed; [by constructor|].
  unfold r', r, signed. cbn [RSignature]. destruct (priv s); [apply Hs|done].
Qed.

Lemma linksOf_snoc p facts ops f fwd rev : linksOf p facts ops ->
  0 <= (chainFrom p facts).2 < maxChainSeq -> EventAnchor s <> EntityFromValue ((chainFrom p facts).2 + 1) -> linkValue (chainStep (chainFrom p facts) f).1 f fwd ->
  linksOf p (facts ++ [f]) (ops ++ [mkOp OpSet (linkKey s ((chainFrom p facts).2 + 1)) fwd; mkOp OpSet (IndexKey (EventAnchor s) (EntityFromValue ((chainFrom p facts).2 + 1))) rev]).
Proof.
  induction 1 as [p|p f0 facts fwd0 rev0 ops Hr Ha Hv Hl IH]; intros Hr' Ha' Hv'.
  - cbn. constructor; [done..|constructor].
  - cbn. constructor; [done..|]. by apply IH.
Qed.

Context (sign_size : forall p m, blen (rel_sign p m) <= maxFieldLen).

(** A builder has chained these facts from that head. *)
Record builds (p : bytes * Z) (facts : list fact) (b : chainBuilder) : Prop := {
  bl_seq : 0 <= (chainFrom p facts).2 < 2 ^ 64;
  bl_at : prev b = (chainFrom p facts).1 /\ seq b = u64 ((chainFrom p facts).2 + 1);
  bl_start : (headRaw b = None /\ p = (genesisDigest, 0)) \/ (exists raw, headRaw b = Some raw /\ decodeHead raw = Ret p);
  bl_links : linksOf p facts (chainOps b);
}.
Definition building (b : chainBuilder) : Prop := exists p facts, builds p facts b.

Lemma decodeHead_range raw d n : decodeHead raw = Ret (d, n) -> 0 <= n < 2 ^ 64 /\ blen d = 32.
Proof.
  unfold decodeHead. destruct (DecodeRecord raw) as [[rec u]| |]; [|done..]. cbn [wrap_err mbind gores_bind].
  destruct (Z.eqb_spec (blen (RData rec)) chainHeadLen) as [Hl|]; [cbn [negb]|done].
  destruct (slice (RData rec) 0 ChainDigestLen) as [dg| |] eqn:Ed; [|done..]. cbn [mbind gores_bind]. unfold read_be.
  destruct (slice (RData rec) ChainDigestLen chainHeadLen) as [cb| |] eqn:Ec; [|done..]. cbn. intros [= <- <-].
  apply slice_inv in Ed as (p1 & r1 & _ & _ & B1), Ec as (p2 & r2 & _ & _ & B2). split; [|exact B1].
  pose proof (be_value_range cb) as Hr. rewrite B2 in Hr. exact Hr.
Qed.

Lemma issue_newChainBuilder P : wpj P (newChainBuilder s) building.
Proof.
  unfold newChainBuilder. apply wpj_any; [eauto with issues|]. intros [raw|].
  - apply wpj_bind, wpj_lift. intros [digest count] E. apply wpj_ret. destruct (decodeHead_range _ _ _ E) as [Hr _].
    exists (digest, count), []. constructor; [done|done| |constructor]. right. by exists raw.
  - apply wpj_ret. exists (genesisDigest, 0), []. constructor; [done|done| |constructor]. by left.
Qed.

Lemma issue_encode P key kind name data : wpj P (encode s key kind name data)
  (fun v => exists rec u, DecodeRecord v = Ret (rec, u) /\ RKind rec = kind /\ RName rec = name /\ RData rec = data).
Proof. unfold encode. apply wpj_any; [eauto with issues|]. intros now. apply wpj_lift. intros v E. by eapply encodeAt_Ret. Qed.

Lemma issue_LinkOps P a b kind data : wpj P (LinkOps s a b kind data) (fun ops => exists fwd rev,
  ops = [mkOp OpSet (RelationKey a b) fwd; mkOp OpSet (IndexKey a b) rev] /\ a <> Zero /\ b <> Zero /\ a <> b /\
  exists rec u, DecodeRecord fwd = Ret (rec, u) /\ RKind rec = kind /\ RName rec = [] /\ RData rec = data).
Proof.
  unfold LinkOps, IsZero. case_bool_decide; [apply wpj_fail|]. case_bool_decide; [apply wpj_fail|]. cbn [orb]. case_bool_decide; [apply wpj_fail|].
  apply wpj_bind. eapply wpj_mono; [|apply issue_encode]. intros fwd Hf. apply wpj_bind. eapply wpj_mono; [|apply issue_encode]. intros rev _.
  apply wpj_ret. by exists fwd, rev.
Qed.

(** One more event *)
Lemma issue_addEvent P b p facts f tag subject party digest tail : builds p facts b ->
  tag = factTag f -> subject = factSubject f -> party = factParty f -> tail = factTail f -> digest = Sum256 (preimage (prev b) (seq b) f) ->
  wpj P (addEvent s b tag subject party digest tail) (fun b' => builds p (facts ++ [f]) b' /\ headRaw b' = headRaw b).
Proof.
  intros [Hr [Hp Hq] Hs Hl] -> -> -> -> ->. unfold addEvent. destruct (Z.ltb_spec maxChainSeq (seq b)) as [|Hm]; [apply wpj_fail|].
  apply wpj_bind. eapply wpj_mono; [|apply issue_LinkOps]. intros ops (fwd & rev & -> & _ & Hz & Ha & rec & u & Hd & Hk & _ & Hdat). apply wpj_ret.
  assert (seq b = (chainFrom p facts).2 + 1 /\ 0 <= (chainFrom p facts).2 < maxChainSeq) as [Hseq Hrange].
  { unfold maxChainSeq in *. rewrite Hq in *. unfold u64 in *. destruct (decide ((chainFrom p facts).2 + 1 = 2 ^ 64)) as [E|E].
    - exfalso. apply Hz. rewrite E. done.
    - rewrite Z.mod_small in * by lia. lia. }
  assert (chainFrom p (facts ++ [f]) = chainStep (chainFrom p facts) f) as Hcf by (unfold chainFrom; by rewrite fold_left_app).
  split; [|done]. constructor; cbn [prev seq headRaw chainOps]; [rewrite Hcf; cbn; unfold maxChainSeq in Hrange; lia| |done|].
  - rewrite Hcf. unfold chainStep. cbn [fst snd]. rewrite Hp, Hseq. by split.
  - rewrite Hseq in Ha. unfold linkKey. rewrite Hseq. apply linksOf_snoc; [done..|]. exists rec, u. split_and!; [done..|]. rewrite Hdat. unfold chainStep. by rewrite Hp, Hseq.
Qed.

Lemma issue_addLine P b entry content p facts : builds p facts b ->
  wpj P (addLine s b entry content) (fun b' => builds p (facts ++ [LineWritten entry (merge_sort pair_le (contentRecords entry content))]) b').
Proof. intros Hb. eapply wpj_mono; [|eapply (issue_addEvent _ _ _ _ (LineWritten entry _) _ _ _ _ _ Hb); done]. by intros b' []. Qed.

Lemma issue_addMutables P specs b p facts : builds p facts b -> wpj P (addMutables s b specs) (fun b' => exists facts', builds p (facts ++ facts') b').
Proof.
  revert b facts. induction specs as [|spec specs IH]; intros b facts Hb; cbn [addMutables].
  - apply wpj_ret. exists []. by rewrite app_nil_r.
  - apply wpj_bind. eapply wpj_mono; [|eapply (issue_addEvent _ _ _ _ (RecordChanged (specTag spec) (specSubject spec) (specParty spec) (specTail spec)) _ _ _ _ _ Hb); done].
    intros b' [Hb' _]. eapply wpj_mono; [|by apply IH]. intros b'' [facts' Hb'']. rewrite <- app_assoc in Hb''. by eexists.
Qed.

Lemma standaloneRecord_Ret line op a b rec : standaloneRecord line op = Ret (Some (a, b, rec)) -> opKey op = RelationKey a b.
Proof.
  unfold standaloneRecord. destruct (setsRelation op) eqn:Es; [cbn [negb]|done]. destruct (ParseEntityKey (opKey op)) as [[[ns x] y]| |] eqn:Ep; [|done..]. cbn [mbind gores_bind].
  destruct (_ || _); [done|]. destruct (DecodeRecord _) as [[r u]| |]; [|done..]. cbn. intros [= <- <- <-]. apply ParseEntityKey_Ret in Ep as Ek.
  unfold setsRelation in Es. rewrite Ek in Es. unfold EntityKey in Es. apply andb_true_iff in Es as [_ Es]. apply bool_decide_eq_true in Es as ->. done.
Qed.

Lemma issue_addStandalone P line covered ops b p facts : builds p facts b -> wpj P (addStandalone s b line covered ops) (fun b' => exists facts', builds p (facts ++ facts') b').
Proof.
  revert b facts. induction ops as [|op ops IH]; intros b facts Hb; cbn [addStandalone].
  - apply wpj_ret. exists []. by rewrite app_nil_r.
  - case_bool_decide; [by apply IH|]. apply wpj_bind, wpj_lift. intros [[[subject party] rec]|] E; [|by apply IH].
    destruct (eventTagFor (RKind rec)) as [tag|]; [|apply wpj_fail]. apply wpj_bind. unfold addRecord. rewrite (standaloneRecord_Ret _ _ _ _ _ E).
    eapply wpj_mono; [|eapply (issue_addEvent _ _ _ _ (RecordWritten tag subject party (opValue op)) _ _ _ _ _ Hb); done].
    intros b' [Hb' _]. eapply wpj_mono; [|by apply IH]. intros b'' [facts' Hb'']. rewrite <- app_assoc in Hb''. by eexists.
Qed.

Lemma linksOf_nil p facts : linksOf p facts [] -> facts = [].
Proof. by inversion 1. Qed.

Lemma linksOf_length p facts ops : linksOf p facts ops -> facts <> [] -> (chainFrom p facts).2 <= maxChainSeq /\ blen (chainFrom p facts).1 = 32.
Proof.
  induction 1 as [p|p f facts fwd rev ops Hr Ha Hv Hl IH]; [done|]. intros _. destruct facts as [|g facts]; [|by apply IH].
  cbn. split; [lia|apply length_Sum256].
Qed.

Lemma decodeHead_encoded d n v rec u : blen d = 32 -> 0 <= n < 2 ^ 64 -> DecodeRecord v = Ret (rec, u) -> RData rec = d ++ be_bytes 8 n -> decodeHead v = Ret (d, n).
Proof.
  intros Hd Hn Hv Hdat. unfold decodeHead. rewrite Hv. cbn [wrap_err mbind gores_bind]. rewrite Hdat, blen_app, Hd. rewrite (blen_be_bytes 8). cbn [negb Z.eqb].
  change (32 + Z.of_nat 8 =? chainHeadLen) with true. cbn [negb]. rewrite (slice_hd d (be_bytes 8 n) 0 ChainDigestLen) by done. cbn [mbind gores_bind].
  rewrite <- (app_nil_r (be_bytes 8 n)). rewrite (read_be_be d 8 n [] ChainDigestLen chainHeadLen); done.
Qed.

Lemma issue_DeclareOps P e kind name data created : wpj P (DeclareOps s e kind name data created) (fun ops => exists v, ops = [mkOp OpSet (DeclarationKey e) v] /\ e <> Zero /\
  exists rec u, DecodeRecord v = Ret (rec, u) /\ RKind rec = kind /\ RName rec = name /\ RData rec = data).
Proof.
  unfold DeclareOps, IsZero. case_bool_decide; [apply wpj_fail|]. apply wpj_any; [destruct created; eauto with issues|]. intros now.
  apply wpj_bind, wpj_lift. intros v E. apply wpj_ret. exists v. split; [done|]. split; [done|]. by eapply encodeAt_Ret.
Qed.

Lemma issue_finish P b : building b -> wpj P (finish s b) chained.
Proof.
  intros (p & facts & [Hr [Hp Hq] Hs Hl]). unfold finish. destruct (chainOps b) as [|op ops] eqn:Eo; [apply wpj_ret; constructor|].
  assert (facts <> []) as Hne by (intros ->; by inversion Hl). destruct (linksOf_length _ _ _ Hl Hne) as [Hm Hlen].
  apply wpj_bind. eapply wpj_mono; [|apply issue_DeclareOps]. intros head (v & -> & _ & rec & u & Hd & _ & _ & Hdat). apply wpj_ret.
  assert (u64 (seq b - 1) = (chainFrom p facts).2) as Hu.
  { rewrite Hq. unfold u64, maxChainSeq in *. rewrite (Z.mod_small ((chainFrom p facts).2 + 1)) by lia. rewrite Z.mod_small by lia. lia. }
  rewrite Hu, Hp in Hdat. refine (ch_some p facts (op :: ops) _ v _ Hne Hl _).
  - destruct Hs as [[-> ->]|(raw & -> & Hraw)]; [left; done|right; by exists raw].
  - rewrite (decodeHead_encoded _ _ _ _ _ Hlen Hr Hd Hdat). by destruct (chainFrom p facts).
Qed.

Lemma issue_chainEventOps P line ops mutable : wpj P (chainEventOps s line ops mutable) chained.
Proof.
  unfold chainEventOps. apply wpj_bind. eapply wpj_mono; [|apply issue_newChainBuilder]. intros b [p [facts Hb]]. apply wpj_bind.
  assert (wpj P (if IsZero line then mret b else addLine s b line ops) (fun b' => exists facts', builds p facts' b')) as Hline.
  { destruct (IsZero line); [apply wpj_ret; by exists facts|]. eapply wpj_mono; [|by apply issue_addLine]. intros b' Hb'. by eexists. }
  eapply wpj_mono; [|exact Hline]. intros b1 [facts1 Hb1]. apply wpj_bind. eapply wpj_mono; [|by apply issue_addMutables]. intros b2 [facts2 Hb2].
  apply wpj_bind. eapply wpj_mono; [|by apply issue_addStandalone]. intros b3 [facts3 Hb3]. apply issue_finish. by eexists _, _.
Qed.

End Txn.
