(* ===== verification/RelWriters.v ===== *)
(** Writers that share one log book (src/examples/relations): every operation of a journal
    issues only transactions that leave the chain alone or extend it. *)

From S2P Require Import Prelude Store SystemKeys Payloads LogRecord Txn Hex RelRecord RelStore RelChain RelRun RelChainProps RelJournal RelSign RelIssue RelChainTxn.
#[local] Open Scope Z_scope.

(** An operation at a time *)
Ltac asides := repeat (first [apply Forall_nil_2 | apply Forall_cons_2]).

Section Writer.
Context `{RelEnv} (s : Store_) (sign_size : forall p m, blen (rel_sign p m) <= maxFieldLen).

Abbreviation issues m := (wpj (journalTxn s) m (fun _ => True)).

(** ** Operations that are not the chain's *)

Lemma aside_key op ns a b : opKey op = EntityKey ns a b -> ns <> NamespaceRelation \/ EType a <> TypeChain -> aside s op.
Proof.
  intros Ek Hd. unfold aside. destruct (opKind op); try done; rewrite Ek; (split; [|done]; intros [E|(e & E & _)]; apply EntityKey_inj in E as (-> & -> & _)); by destruct Hd.
Qed.
Lemma aside_cmp op : opKind op = OpCompare \/ opKind op = OpCompareAbsent -> aside s op.
Proof. unfold aside. by intros [-> | ->]. Qed.

Lemma journalTxn_own own ops : Forall (aside s) own -> journalTxn s ops -> journalTxn s (own ++ ops).
Proof. intros Ho (own' & chain & -> & Ho' & Hc). exists (own ++ own'), chain. rewrite <- app_assoc. split; [done|]. split; [|done]. by apply Forall_app. Qed.
Lemma journalTxn_chain own chain : Forall (aside s) own -> chained s chain -> journalTxn s (own ++ chain).
Proof. intros Ho Hc. by exists own, chain. Qed.
Lemma journalTxn_aside own : Forall (aside s) own -> journalTxn s own.
Proof. intros Ho. exists own, []. rewrite app_nil_r. split_and!; [done..|constructor]. Qed.

Lemma own_LinkOps P a b kind data : EType a <> TypeChain -> wpj P (LinkOps s a b kind data) (Forall (aside s)).
Proof.
  intros Ha. eapply wpj_mono; [|by apply issue_LinkOps]. intros ops (fwd & rev & -> & _). asides.
  - eapply aside_key; [done|by right].
  - eapply aside_key; [done|by left].
Qed.
Lemma own_DeclareOps P e kind name data created : EType e <> TypeChain -> wpj P (DeclareOps s e kind name data created) (Forall (aside s)).
Proof. intros Ha. eapply wpj_mono; [|by apply issue_DeclareOps]. intros ops (v & -> & _). asides. eapply aside_key; [done|by right]. Qed.
Lemma wpj_encode P key kind name data : wpj P (encode s key kind name data) (fun _ => True).
Proof. by eapply wpj_mono; [|by apply issue_encode]. Qed.
Lemma own_presence owner text kind value : aside s (mkOp kind (PresenceKey owner text) value).
Proof. eapply aside_key; [done|by left]. Qed.
Lemma own_presencePre owner text raw : aside s (presencePre (PresenceKey owner text) raw).
Proof. destruct raw; by apply aside_cmp; auto. Qed.
Lemma own_counter page typ kind value : aside s (mkOp kind (DeclarationKey (counterOf s page typ)) value).
Proof. eapply aside_key; [done|]. right. done. Qed.
#[local] Hint Resolve own_presence own_presencePre own_counter wpj_encode : issues.

(** ** Allocation *)

Lemma own_allocateOn typ kind name data extra page : typ <> TypeChain ->
  (forall e, EType e = typ -> wpj (journalTxn s) (extra e) (fun r => match r with Fresh ops => journalTxn s ops | AlreadyInterned _ => True end)) ->
  issues (allocateOn s typ kind name data extra page).
Proof.
  intros Ht He. unfold allocateOn. apply wpj_any; [eauto with issues|]. intros raw. eapply wpj_bind, (wpj_mono _ _ (fun c => match c with Some (_, pre) => aside s pre | None => True end)).
  2:{ destruct raw as [raw|]; [|apply wpj_ret; apply aside_cmp; by right]. apply wpj_bind, wpj_lift. intros [used flags] _. apply wpj_ret. destruct (_ || _); [done|]. apply aside_cmp. by left. }
  intros [[next pre]|] Hpre; [|eauto with issues]. apply wpj_any; [eauto with issues|]. intros [next'|]; [|eauto with issues].
  apply wpj_any; [eauto with issues|]. intros cv. apply wpj_any; [eauto with issues|]. intros dv. apply wpj_bind. eapply wpj_mono; [|by apply He].
  intros [more|existing]; [|eauto with issues]. intros Hm. apply wpj_try.
  - apply wpj_apply. apply journalTxn_own; [|done]. asides; [done|by apply aside_cmp; right|apply own_counter|].
    eapply aside_key; [done|]. by right.
  - intros [|err|]; eauto with issues.
Qed.

Lemma own_AllocateWith page typ kind name data extra : typ <> TypeChain ->
  (forall e, EType e = typ -> wpj (journalTxn s) (extra e) (fun r => match r with Fresh ops => journalTxn s ops | AlreadyInterned _ => True end)) ->
  issues (AllocateWith s page typ kind name data extra).
Proof.
  intros Ht He. unfold AllocateWith. do 2 (destruct (byte_eqb _ _); [eauto with issues|]).
  assert (forall pages, issues (allocatePages s typ kind name data extra pages)) as Hp.
  { induction pages as [|p pages IH]; cbn [allocatePages]; [eauto with issues|]. apply wpj_any; [by apply own_allocateOn|]. intros []; eauto with issues. }
  generalize allocRetries. induction n as [|n IH]; cbn [allocateAttempts]; [eauto with issues|]. apply wpj_any; [done|]. intros [[]|]; eauto with issues.
Qed.

(** ** Interning *)

Lemma own_internOps owner text link e : (forall f, link = Some f -> wpj (journalTxn s) (f e) (Forall (aside s))) ->
  wpj (journalTxn s) (internOps s owner text link e) (fun r => match r with Fresh ops => journalTxn s ops | AlreadyInterned _ => True end).
Proof.
  intros Hl. unfold internOps. apply wpj_any; [eauto with issues|]. intros [raw candidates]. apply wpj_any; [eauto with issues|]. intros [existing|]; [eauto with issues|].
  apply wpj_any; [eauto with issues|]. intros value. apply wpj_bind, (wpj_mono _ _ (Forall (aside s))).
  - intros more Hm. apply wpj_ret, journalTxn_aside, Forall_app. split; [|done]. asides; eauto with issues.
  - destruct link as [f|]; [by apply Hl|]. apply wpj_ret. constructor.
Qed.

Lemma own_intern owner typ text data link : typ <> TypeChain -> (forall f e, link = Some f -> EType e = typ -> wpj (journalTxn s) (f e) (Forall (aside s))) ->
  issues (intern s owner typ text data link).
Proof.
  intros Ht Hl. unfold intern. apply wpj_any; [eauto with issues|]. intros [raw candidates]. apply wpj_any; [eauto with issues|]. intros [e|]; [eauto with issues|].
  apply wpj_any; [|eauto with issues]. apply own_AllocateWith; [done|]. intros e He. apply own_internOps. intros f Hf. by apply Hl.
Qed.

Lemma own_termLink field term : EType term = TypeTerm -> wpj (journalTxn s) (termLink s field term) (Forall (aside s)).
Proof.
  intros Ht. unfold termLink. apply wpj_bind. eapply wpj_mono; [|apply own_LinkOps; by rewrite Ht]. intros ops Ho. apply wpj_bind, (wpj_mono _ _ (Forall (aside s))).
  - intros guard Hg. apply wpj_ret. by apply Forall_app.
  - unfold vocabularyGuardOps. apply wpj_any; [eauto with issues|]. intros [[state raw]|]; [|apply wpj_ret; asides; by apply aside_cmp; auto].
    destruct (byte_eqb _ _); [eauto with issues|]. apply wpj_ret. asides. apply aside_cmp. by left.
Qed.

Lemma own_field name input declared : issues (field_ s name input declared).
Proof.
  unfold field_. destruct (bytes_eqb _ _); [eauto with issues|]. apply wpj_any; [unfold cachedField; eauto with issues|]. intros [e|]; [eauto 10 with issues|].
  apply wpj_any; [by apply own_intern|]. eauto 10 with issues.
Qed.

Lemma own_Term field text : issues (JTerm s field text).
Proof.
  unfold JTerm. do 2 (destruct (_ : bool); [eauto with issues|]). apply wpj_any; [unfold cachedTerm; eauto with issues|]. intros [e|]; [eauto with issues|].
  apply wpj_any; [|eauto with issues]. apply own_intern; [done|]. intros f e [= <-] He. by apply own_termLink.
Qed.

Lemma own_Actor name pub : issues (Actor s name pub).
Proof.
  unfold Actor. do 2 (destruct (_ : bool); [eauto with issues|]). apply wpj_any; [by apply own_intern|]. eauto 10 with issues.
Qed.

(** ** Vocabularies and renames *)

(** Apply with the chain's part, and try again on a conflict *)
Lemma own_retry own chain (again : J unit) : Forall (aside s) own -> chained s chain -> issues again ->
  issues (tryJ (jApply (own ++ chain)) (fun r => match r with Ret _ => mret tt | Fail err => if errors_is err ErrConflict then again else liftJ (Fail err) | Panic => liftJ Panic end)).
Proof. intros Ho Hc Ha. apply wpj_try; [apply wpj_apply; by apply journalTxn_chain|]. intros [|err|]; eauto with issues. Qed.

Lemma own_retry_checked own chain (check again : J unit) : Forall (aside s) own -> chained s chain -> issues check -> issues again ->
  issues (tryJ (jApply (own ++ chain)) (fun r => match r with Ret _ => mret tt | Fail err => if negb (errors_is err ErrConflict) then liftJ (Fail err) else (_ ← check; again) | Panic => liftJ Panic end)).
Proof. intros Ho Hc Hk Ha. apply wpj_try; [apply wpj_apply; by apply journalTxn_chain|]. intros [|err|]; eauto with issues. Qed.

Lemma own_setVocabulary field want : issues (setVocabulary s field want).
Proof.
  unfold setVocabulary. destruct (byte_eqb (EType field) TypeField) eqn:Et; cbn [negb]; [|eauto with issues]. apply bool_decide_eq_true in Et.
  apply wpj_any; [eauto with issues|]. intros [decl|]; [|eauto with issues].
  generalize allocRetries. induction n as [|n IH]; cbn [setVocabularyAttempts]; [eauto with issues|]. apply wpj_any; [eauto with issues|]. intros st.
  destruct (match st with Some (state, _) => _ | None => false end); [eauto with issues|]. destruct (match st with None => _ | Some _ => false end); [eauto with issues|].
  apply wpj_bind. eapply wpj_mono; [|apply own_LinkOps; by rewrite Et]. intros ops Ho. apply wpj_bind. eapply wpj_mono; [|by apply issue_chainEventOps].
  intros chain Hc. apply own_retry; [|done|done]. apply Forall_cons_2; [|done]. destruct st as [[]|]; by apply aside_cmp; auto.
Qed.

Lemma own_renameOps e owner old text rec : EType e <> TypeChain -> wpj (journalTxn s) (renameOps s e owner old text rec) (Forall (aside s)).
Proof.
  intros He. unfold renameOps. apply wpj_any; [eauto with issues|]. intros [newRaw newCandidates]. apply wpj_any; [eauto with issues|]. intros holder.
  destruct (match holder with Some _ => _ | None => false end); [eauto with issues|]. apply wpj_any; [eauto with issues|]. intros [oldRaw oldCandidates].
  apply wpj_bind, (wpj_mono _ _ (Forall (aside s))).
  - intros ops Ho. apply wpj_bind. eapply wpj_mono; [|by apply own_DeclareOps]. intros declOps Hd. apply wpj_ret. by apply Forall_app.
  - destruct (bytes_eqb _ _).
    + apply wpj_any; [eauto with issues|]. intros value. apply wpj_ret. asides; eauto with issues.
    + apply wpj_bind, (wpj_mono _ _ (Forall (aside s))).
      * intros removal Hr. apply wpj_any; [eauto with issues|]. intros value. apply wpj_ret, Forall_app. split; [done|]. asides; eauto with issues.
      * destruct (_ =? _); [apply wpj_ret; asides|]. destruct (filter _ _) as [|x l].
        -- apply wpj_ret. asides; eauto with issues.
        -- apply wpj_any; [eauto with issues|]. intros value. apply wpj_ret. asides; eauto with issues.
Qed.

Lemma own_Rename e text : issues (Rename s e text).
Proof.
  unfold Rename. destruct (bytes_eqb _ _); [eauto with issues|]. apply wpj_bind, (wpj_mono _ _ (fun _ => EType e <> TypeChain)).
  - intros owner He. generalize allocRetries. induction n as [|n IH]; cbn [renameAttempts]; [eauto with issues|]. apply wpj_any; [eauto with issues|].
    intros [decl|]; [|eauto with issues]. destruct (bytes_eqb _ _); [eauto with issues|]. apply wpj_bind. eapply wpj_mono; [|by apply own_renameOps]. intros ops Ho.
    apply wpj_any; [eauto with issues|]. intros tail. apply wpj_bind. eapply wpj_mono; [|by apply issue_chainEventOps]. intros chain Hc.
    apply wpj_try; [apply wpj_apply; by apply journalTxn_chain|]. intros [|err|]; eauto with issues.
  - unfold internOwner. destruct (byte_eqb (EType e) TypeField) eqn:E1; [apply bool_decide_eq_true in E1; apply wpj_ret; by rewrite E1|].
    destruct (byte_eqb (EType e) TypeTerm) eqn:E2; [|eauto with issues]. apply bool_decide_eq_true in E2. apply wpj_any; [eauto with issues|]. intros rels.
    destruct (OfKind rels KindTermOf); [eauto with issues|]. apply wpj_ret. by rewrite E2.
Qed.

(** ** Lines *)

Lemma own_resolveCells seen cells : issues (resolveCells s seen cells).
Proof.
  revert seen. induction cells as [|c cells IH]; intros seen; cbn [resolveCells]; [eauto with issues|].
  destruct (negb _); [eauto with issues|]. destruct (bool_decide _); [eauto with issues|]. apply wpj_any; [eauto with issues|]. intros want.
  destruct (negb _); [eauto with issues|]. destruct (_ && _); [eauto with issues|]. apply wpj_any; [|eauto with issues].
  pose proof own_Term. eauto 10 with issues.
Qed.

Lemma own_cellOps entry cells : EType entry = TypeEntry -> wpj (journalTxn s) (cellOps s entry cells) (Forall (aside s)).
Proof.
  intros He. induction cells as [|c cells IH]; cbn [cellOps]; [apply wpj_ret; constructor|]. destruct (cellLink c) as [[target kind] data].
  apply wpj_bind. eapply wpj_mono; [|apply own_LinkOps; by rewrite He]. intros ops Ho. apply wpj_bind. eapply wpj_mono; [|exact IH]. intros rest Hr. apply wpj_ret. by apply Forall_app.
Qed.

Lemma own_appendLine cells extra : (forall f e, extra = Some f -> EType e = TypeEntry -> wpj (journalTxn s) (f e) (Forall (aside s))) -> issues (appendLine s cells extra).
Proof.
  intros Hx. unfold appendLine. destruct cells as [|c cells]; [eauto with issues|]. apply wpj_any; [apply own_resolveCells|]. intros cells'.
  apply wpj_any; [|eauto with issues]. apply own_AllocateWith; [done|]. intros e He. unfold lineOps. apply wpj_bind. eapply wpj_mono; [|by apply own_cellOps]. intros ops Ho.
  apply wpj_bind, (wpj_mono _ _ (Forall (aside s))).
  - intros more Hm. apply wpj_bind. eapply wpj_mono; [|by apply issue_chainEventOps]. intros chain Hc. apply wpj_ret, journalTxn_chain; [by apply Forall_app|done].
  - destruct extra as [f|]; [by apply Hx|]. apply wpj_ret. constructor.
Qed.

(** ** Strikes, endorsements and closed pages *)

Lemma isLine_type entry : isLine entry = true -> EType entry <> TypeChain.
Proof. unfold isLine. intros [Ht%bool_decide_eq_true _]%andb_true_iff. by rewrite Ht. Qed.

Lemma own_strikeOps entry kind payload : isLine entry = true -> wpj (journalTxn s) (strikeOps s entry kind payload) (Forall (aside s)).
Proof.
  intros Hi%isLine_type. unfold strikeOps. apply wpj_bind. eapply wpj_mono; [|by apply own_LinkOps]. intros ops Ho. apply wpj_ret.
  apply Forall_cons_2; [|done]. apply aside_cmp. by right.
Qed.

(** What is struck or endorsed is a line. *)
Lemma checkStrikeable_line P entry : wpj P (checkStrikeable s entry) (fun _ => isLine entry = true).
Proof. unfold checkStrikeable. destruct (isLine entry); cbn [negb]; [|eauto with issues]. eapply (wpj_mono _ _ (fun _ => True)); [done|]. eauto 12 with issues. Qed.
Lemma checkCountersignable_line P entry actor : wpj P (checkCountersignable s entry actor) (fun _ => isLine entry = true).
Proof. unfold checkCountersignable. destruct (isLine entry); cbn [negb]; [|eauto with issues]. eapply (wpj_mono _ _ (fun _ => True)); [done|]. eauto 25 with issues. Qed.

Lemma own_Correct superseded cells : issues (Correct s superseded cells).
Proof.
  unfold Correct. apply wpj_bind. eapply wpj_mono; [|apply checkStrikeable_line]. intros ? Hi. cbn in Hi. apply wpj_try.
  - apply own_appendLine. intros f e [= <-] He. unfold correctionOps. apply wpj_any; [eauto with issues|]. intros _.
    apply wpj_bind. eapply wpj_mono; [|by apply own_strikeOps]. intros ops Ho. apply wpj_bind. eapply wpj_mono; [|apply own_LinkOps; by rewrite He]. intros back Hb.
    apply wpj_ret. by apply Forall_app.
  - intros [|err|]; eauto with issues.
Qed.

Lemma own_Void entry reason : issues (Void s entry reason).
Proof.
  unfold Void. apply wpj_bind. eapply wpj_mono; [|apply checkStrikeable_line]. intros ? Hi. cbn in Hi. apply wpj_any; [eauto with issues|]. intros _.
  generalize allocRetries. induction n as [|n IH]; cbn [voidAttempts]; [eauto with issues|]. apply wpj_bind. eapply wpj_mono; [|by apply own_strikeOps]. intros ops Ho.
  apply wpj_bind. eapply wpj_mono; [|by apply issue_chainEventOps]. intros chain Hc. apply own_retry_checked; eauto with issues.
Qed.

Lemma own_countersign entry actor write : (isLine entry = true -> Forall (aside s) write) -> issues (countersign s entry actor write).
Proof.
  intros Hw. unfold countersign. apply wpj_bind. eapply wpj_mono; [|apply checkCountersignable_line]. intros ? Hi. cbn in Hi.
  generalize allocRetries. induction n as [|n IH]; cbn [countersignAttempts]; [eauto with issues|].
  apply wpj_bind. eapply wpj_mono; [|by apply issue_chainEventOps]. intros chain Hc. apply own_retry_checked; [|done|eauto with issues|done].
  apply Forall_app. split; [|by apply Hw]. asides; apply aside_cmp; by right.
Qed.

Lemma own_Countersign entry : issues (Countersign s entry).
Proof.
  unfold Countersign. apply wpj_bind. eapply wpj_mono; [|by apply issue_LinkOps]. intros ops (fwd & rev & -> & _). apply own_countersign.
  intros Hi%isLine_type. asides; (eapply aside_key; [done|auto]).
Qed.

Lemma own_SignedLink_Ops l : EType (SLA l) <> TypeChain -> Forall (aside s) (SignedLink_Ops l).
Proof. intros Ha. unfold SignedLink_Ops. asides; eapply aside_key; [done|by right|done|by left]. Qed.

Lemma own_CountersignWith entry l : issues (CountersignWith s entry l).
Proof.
  unfold CountersignWith. case_bool_decide as Ea; cbn [negb]; [|eauto with issues]. apply wpj_any; [eauto with issues|]. intros pub.
  apply wpj_any; [eauto with issues|]. intros rec. do 2 (destruct (negb _); [eauto with issues|]). apply own_countersign.
  intros Hi%isLine_type. apply own_SignedLink_Ops. by rewrite Ea.
Qed.

Lemma own_signOffPage page write : Forall (aside s) write -> issues (signOffPage s page write).
Proof.
  intros Hw. unfold signOffPage. apply wpj_any; [eauto with issues|]. intros _.
  generalize allocRetries. induction n as [|n IH]; cbn [signOffAttempts]; [eauto with issues|]. apply wpj_bind, (wpj_mono _ _ (Forall (aside s))).
  - intros closeOps Hcl. apply wpj_bind. eapply wpj_mono; [|by apply issue_chainEventOps]. intros chain Hc. apply own_retry_checked; [|done|eauto with issues|done].
    apply Forall_cons_2; [apply aside_cmp; by right|]. by apply Forall_app.
  - unfold ClosePageOps. apply wpj_any; [eauto with issues|]. intros raw. apply wpj_bind, (wpj_mono _ _ (fun np => aside s np.2)).
    + intros [next pre] Hp. apply wpj_any; [eauto with issues|]. intros value. apply wpj_ret. asides; [done|apply own_counter].
    + destruct raw as [raw|]; [|apply wpj_ret; apply aside_cmp; by right]. apply wpj_bind, wpj_lift. intros [used flags] _.
      destruct (isClosed flags); [eauto with issues|]. apply wpj_ret. apply aside_cmp. by left.
Qed.

Lemma own_SignOffPage page : issues (SignOffPage s page).
Proof.
  unfold SignOffPage. destruct (_ <? _); [eauto with issues|]. apply wpj_any; [eauto with issues|]. intros lines.
  apply wpj_bind. eapply wpj_mono; [|by apply own_LinkOps]. intros write Hw. by apply own_signOffPage.
Qed.

Lemma own_SignOffPageWith page l : issues (SignOffPageWith s page l).
Proof.
  unfold SignOffPageWith. destruct (_ <? _); [eauto with issues|]. case_bool_decide as Ea; cbn [negb orb]; [|eauto with issues].
  destruct (negb _); [eauto with issues|]. apply wpj_any; [eauto with issues|]. intros [forward u]. apply wpj_any; [eauto with issues|]. intros pub.
  apply wpj_any; [eauto with issues|]. intros rec. destruct (negb _); [eauto with issues|]. destruct (RData rec) as [|signedFor []]; [eauto with issues| |eauto with issues].
  apply wpj_any; [eauto with issues|]. intros lines. destruct (negb _); [eauto with issues|]. apply own_signOffPage, own_SignedLink_Ops. by rewrite Ea.
Qed.

End Writer.
