(* ===== verification/RelConc.v ===== *)
(** Any number of writers on one log book, interleaved in any way (src/examples/relations):
    the events stay one chain without gaps, and none is ever changed. *)

From S2P Require Import Prelude Store SystemKeys Payloads LogRecord Txn Hex RelRecord RelStore RelChain RelRun RelChainProps RelJournal RelSign RelIssue RelChainTxn RelWriters.
#[local] Open Scope Z_scope.

(** * The machine *)

(** The operations of a journal that write *)
Inductive call : Type :=
| CField (name : bytes)
| CDefineField (name : bytes) (input : InputKind)
| CTerm (field : Entity) (text : bytes)
| CActor (name pub : bytes)
| CRename (e : Entity) (text : bytes)
| CCloseField (field : Entity)
| CReopenField (field : Entity)
| CAppend (cells : list Cell)
| CCorrect (superseded : Entity) (cells : list Cell)
| CVoid (entry reason : Entity)
| CCountersign (entry : Entity)
| CCountersignWith (entry : Entity) (l : SignedLink)
| CSignOffPage (page : byte)
| CSignOffPageWith (page : byte) (l : SignedLink).

Definition ignore {A} (m : J A) : J unit := _ ← m; mret tt.

Definition runCall `{RelEnv} (s : Store_) (q : call) : J unit :=
  match q with
  | CField name => ignore (JField s name)
  | CDefineField name input => ignore (DefineField s name input)
  | CTerm field text => ignore (JTerm s field text)
  | CActor name pub => ignore (Actor s name pub)
  | CRename e text => Rename s e text
  | CCloseField field => CloseField s field
  | CReopenField field => ReopenField s field
  | CAppend cells => ignore (Append s cells)
  | CCorrect superseded cells => ignore (Correct s superseded cells)
  | CVoid entry reason => Void s entry reason
  | CCountersign entry => Countersign s entry
  | CCountersignWith entry l => CountersignWith s entry l
  | CSignOffPage page => SignOffPage s page
  | CSignOffPageWith page l => SignOffPageWith s page l
  end.

Definition thread : Type := bprog (cache * gores unit).

(** How the store may answer: truthfully, or with an error -- a transaction reported as
    failed may or may not have been applied. *)
Inductive answers (t : table) : forall o, breply o -> table -> Prop :=
| an_apply ops : answers t (BApply ops) (memory_Apply ops t).2 (memory_Apply ops t).1
| an_refused ops e : answers t (BApply ops) (Fail e) t
| an_lost ops e : answers t (BApply ops) (Fail e) (memory_Apply ops t).1
| an_scan start stop limit : answers t (BScan start stop limit) (Ret (memory_Scan start stop limit t)) t
| an_scan_failed start stop limit e : answers t (BScan start stop limit) (Fail e) t
| an_now now : answers t BNow now t.

(** A writer of the book of this log starts an operation, with whatever it remembers of
    the dictionary, or one that is running makes its next call. *)
Inductive step `{RelEnv} (log : byte) : table * list thread -> table * list thread -> Prop :=
| st_start t threads s q c : SLog s = log -> step log (t, threads) (t, threads ++ [runCall s q c])
| st_call t threads i o k r t' : threads !! i = Some (BDo o k) -> answers t o r t' -> step log (t, threads) (t', <[i := k r]> threads).

(** * The chain in the store *)

Section Chain.
Context `{RelEnv} (s : Store_).

Definition linksAre (t : table) (facts : list fact) : Prop :=
  forall e, e <> Zero -> match facts !! Z.to_nat (EntityValue e - 1) with
    | Some f => exists v, t !! RelationKey (EventAnchor s) e = Some v /\ linkValue (chainDigest (take (Z.to_nat (EntityValue e)) facts)) f v
    | None => t !! RelationKey (EventAnchor s) e = None
    end.

Definition headIs (t : table) (facts : list fact) : Prop :=
  match t !! headKey s with
  | None => facts = []
  | Some raw => decodeHead raw = Ret (chainFrom (genesisDigest, 0) facts)
  end.

(** No other key lies among the links. *)
Definition tidy (t : table) : Prop :=
  forall k v, t !! k = Some v -> (let '(start, stop) := RelationBoundsIn (EventAnchor s) Zero maxEntity in in_range start stop k) = true -> blen k = KeyLen.

Record chainIs (t : table) (facts : list fact) : Prop := {
  ci_links : linksAre t facts;
  ci_head : headIs t facts;
  ci_bound : blen facts <= maxChainSeq;
  ci_tidy : tidy t;
}.

Lemma chainFrom_count p facts : (chainFrom p facts).2 = p.2 + blen facts.
Proof. revert p. induction facts as [|f facts IH]; intros p; [cbn; unfold blen; cbn; lia|]. cbn [chainFrom fold_left]. change (fold_left chainStep facts (chainStep p f)) with (chainFrom (chainStep p f) facts). rewrite IH, blen_cons. cbn. lia. Qed.

Lemma Zero_value e : e <> Zero <-> 1 <= EntityValue e.
Proof.
  pose proof (EntityValue_range e). split.
  - intros Hne. destruct (decide (EntityValue e = 0)) as [E|]; [|lia]. exfalso. apply Hne. apply EntityValue_inj. by rewrite E.
  - intros Hv ->. change (EntityValue Zero) with 0 in Hv. lia.
Qed.

Lemma linkKey_chain e : e <> Zero -> chainKey s (RelationKey (EventAnchor s) e).
Proof. intros He. right. by exists e. Qed.

(** Operations aside from the chain keep its records. *)
Lemma aside_kept ops t k : Forall (aside s) ops -> chainKey s k -> fold_left perform ops t !! k = t !! k.
Proof.
  intros Ho Hk. revert t. induction Ho as [|op ops Hop Ho IH]; intros t; [done|]. cbn. rewrite IH. unfold perform, aside in *. destruct (opKind op); [| |done|done].
  - apply lookup_insert_ne. intros <-. by destruct Hop.
  - apply lookup_delete_ne. intros <-. by destruct Hop.
Qed.

Lemma aside_tidy ops t : Forall (aside s) ops -> tidy t -> tidy (fold_left perform ops t).
Proof.
  intros Ho. revert t. induction Ho as [|op ops Hop Ho IH]; intros t Ht; [done|]. cbn. apply IH. unfold perform, aside in *. destruct (opKind op); [| |done|done]; intros k v Hk Hr.
  - apply lookup_insert_Some in Hk as [[<- _]|[_ Hk]]; [by destruct Hop|by eapply Ht].
  - apply lookup_delete_Some in Hk as [_ Hk]. by eapply Ht.
Qed.

Lemma not_chain_index a b : ~ chainKey s (IndexKey a b).
Proof. intros [E|(e & E & _)]; by apply EntityKey_inj in E as [? _]. Qed.
Lemma head_not_link e : headKey s <> RelationKey (EventAnchor s) e.
Proof. by intros (_ & E & _)%EntityKey_inj. Qed.

(** One link more *)
Lemma linksAre_snoc t facts f fwd rev (n := blen facts) : linksAre t facts -> n < maxChainSeq -> linkValue (chainDigest (facts ++ [f])) f fwd ->
  linksAre (perform (perform t (mkOp OpSet (linkKey s (n + 1)) fwd)) (mkOp OpSet (IndexKey (EventAnchor s) (EntityFromValue (n + 1))) rev)) (facts ++ [f]).
Proof.
  intros Hl Hn Hv e He. pose proof (blen_nonneg facts) as Hn0. fold n in Hn0. unfold maxChainSeq in Hn. cbn [perform opKind opKey opValue].
  assert (EntityValue (EntityFromValue (n + 1)) = n + 1) as Hfv by (apply EntityValue_FromValue; lia). apply Zero_value in He as He1.
  rewrite lookup_insert_ne by (intros E; by apply EntityKey_inj in E as [? _]). destruct (decide (EntityValue e = n + 1)) as [Ev|Ev].
  - assert (e = EntityFromValue (n + 1)) as -> by (apply EntityValue_inj; congruence). rewrite Hfv.
    replace (Z.to_nat (n + 1 - 1)) with (length facts) by (unfold n, blen; lia). rewrite list_lookup_middle by done. exists fwd. unfold linkKey.
    rewrite lookup_insert_eq. split; [done|]. rewrite take_ge; [done|]. rewrite length_app. cbn. unfold n, blen. lia.
  - unfold linkKey. rewrite lookup_insert_ne by (intros (_ & _ & E)%EntityKey_inj; apply Ev; by rewrite <- E). specialize (Hl e He).
    destruct (Z.lt_ge_cases (EntityValue e) (n + 1)) as [Hlt|Hge].
    + rewrite lookup_app_l by (unfold n, blen in Hlt; lia). rewrite take_app_le by (unfold n, blen in Hlt; lia). exact Hl.
    + rewrite lookup_ge_None_2 by (rewrite length_app; cbn; unfold n, blen in *; lia). rewrite lookup_ge_None_2 in Hl by (unfold n, blen in *; lia). done.
Qed.

Lemma links_kept p more ops t k : linksOf s p more ops -> (forall j, 0 <= p.2 < j -> j < 2 ^ 32 -> k <> linkKey s j) -> (forall a b, k <> IndexKey a b) -> fold_left perform ops t !! k = t !! k.
Proof.
  intros Hl. revert t. induction Hl as [p|p f more fwd rev ops Hr Hna Hv Hl IH]; intros t Hk Hi; [done|]. cbn [fold_left]. rewrite IH; [|cbn; intros; apply Hk; lia|done].
  cbn. unfold maxChainSeq in Hr. rewrite lookup_insert_ne, lookup_insert_ne; [done| |]; apply not_eq_sym; [apply Hk; lia|apply Hi].
Qed.

Lemma linksOf_links p facts more ops t : linksOf s p more ops -> p = chainFrom (genesisDigest, 0) facts -> linksAre t facts -> blen facts <= maxChainSeq -> tidy t ->
  linksAre (fold_left perform ops t) (facts ++ more) /\ blen (facts ++ more) <= maxChainSeq /\ tidy (fold_left perform ops t).
Proof.
  intros Hl. revert facts t. induction Hl as [p|p f more fwd rev ops Hr Hna Hv Hl IH]; intros facts t -> Ha Hb Ht; [by rewrite app_nil_r|].
  cbn [fold_left]. replace (facts ++ f :: more) with ((facts ++ [f]) ++ more) by (by rewrite <- app_assoc).
  pose proof (chainFrom_count (genesisDigest, 0) facts) as Hcnt. change ((genesisDigest, 0).2) with 0 in Hcnt. rewrite Z.add_0_l in Hcnt.
  assert (chainStep (chainFrom (genesisDigest, 0) facts) f = chainFrom (genesisDigest, 0) (facts ++ [f])) as Hst by (unfold chainFrom; by rewrite fold_left_app).
  rewrite Hcnt in *. apply IH.
  - exact Hst.
  - apply linksAre_snoc; [done|lia|]. rewrite Hst in Hv. exact Hv.
  - rewrite blen_app. unfold blen at 2. cbn. lia.
  - cbn. intros k v Hk Hrg. apply lookup_insert_Some in Hk as [[<- _]|[_ Hk]]; [done|]. apply lookup_insert_Some in Hk as [[<- _]|[_ Hk]]; [done|by eapply Ht].
Qed.

Lemma checkOps_holds t ops op : checkOps t ops = Ret tt -> op ∈ ops -> holdsFor t op = Ret tt.
Proof.
  induction ops as [|op' ops IH]; intros E Hin; [by apply not_elem_of_nil in Hin|]. cbn in E. destruct (holdsFor t op') as [[]| |] eqn:Eh; [|done..]. cbn in E.
  apply elem_of_cons in Hin as [->|Hin]; [done|]. by apply IH.
Qed.

(** The head a transaction that goes through has compared with is the current one. *)
Lemma startsAt_head t facts cmp p : headIs t facts -> startsAt s cmp p -> holdsFor t cmp = Ret tt -> p = chainFrom (genesisDigest, 0) facts.
Proof.
  unfold headIs. intros Hh [[-> ->]|(raw & -> & Hd)] Hc; unfold holdsFor in Hc; cbn in Hc.
  - destruct (t !! headKey s); [done|]. by rewrite Hh.
  - destruct (t !! headKey s) as [cur|]; [|done]. destruct (bytes_eqb cur raw) eqn:E; [|done]. apply bool_decide_eq_true in E as ->. congruence.
Qed.

Definition linksKept (t t' : table) : Prop := forall e v, e <> Zero -> t !! RelationKey (EventAnchor s) e = Some v -> t' !! RelationKey (EventAnchor s) e = Some v.

Lemma linksKept_refl t : linksKept t t.
Proof. by intros e v. Qed.

(** The next event's number would be the anchor's own. *)
Definition frozen (facts : list fact) : Prop := blen facts + 1 = EntityValue (EventAnchor s).

Lemma chained_apply t facts ops t0 : chainIs t facts -> chained s ops -> checkOps t0 ops = Ret tt -> t0 !! headKey s = t !! headKey s ->
  exists more, chainIs (fold_left perform ops t) (facts ++ more) /\ linksKept t (fold_left perform ops t) /\ (frozen facts -> more = []).
Proof.
  intros [Hl Hh Hb Ht] Hc Hck Hk. destruct Hc as [|p more links cmp head Hs Hne Hlo Hd]; [exists []; rewrite app_nil_r; split_and!; [by constructor|apply linksKept_refl|done]|].
  assert (headIs t0 facts) as Hh0 by (unfold headIs; by rewrite Hk).
  pose proof (startsAt_head _ _ _ _ Hh0 Hs (checkOps_holds _ _ _ Hck ltac:(rewrite elem_of_app; right; by left))) as Hp. exists more.
  rewrite fold_left_app. destruct (linksOf_links p facts more links t Hlo Hp Hl Hb Ht) as (Hl' & Hb' & Ht'). set (t1 := fold_left perform links t) in *.
  assert (fold_left perform [cmp; mkOp OpSet (headKey s) head] t1 = <[headKey s := head]> t1) as ->.
  { cbn. f_equal. destruct Hs as [[-> _]|(raw & -> & _)]; done. }
  split_and!; [constructor|..].
  - intros e He. specialize (Hl' e He). by rewrite lookup_insert_ne by apply head_not_link.
  - unfold headIs. rewrite lookup_insert_eq, Hd, Hp. unfold chainFrom. by rewrite fold_left_app.
  - done.
  - intros k v Hkv Hr. apply lookup_insert_Some in Hkv as [[<- _]|[_ Hkv]]; [done|by eapply Ht'].
  - intros e v He Hv. rewrite lookup_insert_ne by apply head_not_link. unfold t1. rewrite (links_kept p more links t); [done|done| |].
    + intros j Hj1 Hj2 (_ & _ & ->)%EntityKey_inj. specialize (Hl _ He). rewrite EntityValue_FromValue in Hl by lia.
      rewrite Hp, chainFrom_count in Hj1. cbn in Hj1. rewrite lookup_ge_None_2 in Hl by (unfold blen in Hj1; lia). congruence.
    + by intros a b [? _]%EntityKey_inj.
  - unfold frozen. intros Hfr. exfalso. inversion Hlo as [|p' f facts' fwd rev ops' Hr Hna Hv Hl'']; subst; [done|]. apply Hna.
    rewrite chainFrom_count. cbn [snd]. rewrite Z.add_0_l, Hfr. by rewrite FromValue_EntityValue.
Qed.

Lemma checkOps_app t a b : checkOps t (a ++ b) = Ret tt -> checkOps t b = Ret tt.
Proof. induction a as [|op a IH]; [done|]. cbn. destruct (holdsFor t op); [|done..]. cbn. apply IH. Qed.

(** A transaction of a journal keeps the chain and every link there is. *)
Lemma journalTxn_apply t facts ops : chainIs t facts -> journalTxn s ops ->
  exists more, chainIs (memory_Apply ops t).1 (facts ++ more) /\ linksKept t (memory_Apply ops t).1 /\ (frozen facts -> more = []).
Proof.
  intros Hi (own & chain & -> & Ho & Hc). unfold memory_Apply. destruct (checkOps t (own ++ chain)) as [[]| |] eqn:Eck; cbn [fst]; [|exists []; rewrite app_nil_r; split_and!; [done|apply linksKept_refl|done]..].
  apply checkOps_app in Eck. rewrite fold_left_app. set (t1 := fold_left perform own t).
  assert (forall k, chainKey s k -> t1 !! k = t !! k) as Hk by (intros k; by apply aside_kept).
  assert (chainIs t1 facts) as Hi1.
  { destruct Hi as [Hl Hh Hb Ht]. constructor; [| |done|by apply aside_tidy].
    - intros e He. rewrite Hk by (by apply linkKey_chain). by apply Hl.
    - unfold headIs. rewrite Hk by (by left). done. }
  destruct (chained_apply t1 facts chain t Hi1 Hc Eck) as (more & Hi2 & Hkept & Hfr); [symmetry; apply Hk; by left|]. exists more. split; [done|]. split; [|done].
  intros e v He Hv. apply Hkept; [done|]. rewrite Hk; [done|]. by apply linkKey_chain.
Qed.

End Chain.

(** * Every interleaving *)

Section Machine.
Context `{RelEnv} (sign_size : forall p m, blen (rel_sign p m) <= maxFieldLen).

Lemma wpj_ignore {A} P (m : J A) : wpj P m (fun _ => True) -> wpj P (ignore m) (fun _ => True).
Proof. intros Hm. unfold ignore. eauto with issues. Qed.

Lemma own_runCall s q : wpj (journalTxn s) (runCall s q) (fun _ => True).
Proof.
  destruct q; cbn [runCall]; try apply wpj_ignore;
    eauto using own_field, own_Term, own_Actor, own_Rename, own_setVocabulary, own_Correct, own_Void, own_Countersign, own_CountersignWith, own_SignOffPage, own_SignOffPageWith.
  by apply own_appendLine.
Qed.

Lemma wp_weaken {A} (P P' : list Op -> Prop) (p : bprog A) Q : (forall ops, P ops -> P' ops) -> wp P p Q -> wp P' p Q.
Proof. intros Hp. induction p as [a|o k IH]; cbn; [done|]. intros [Ho Hk]. split; [destruct o; auto|]. intros r. by apply IH. Qed.

(** The chain is the log's, whoever writes. *)
Lemma linksOf_log s s' p facts ops : SLog s = SLog s' -> linksOf s p facts ops -> linksOf s' p facts ops.
Proof.
  intros E. assert (EventAnchor s = EventAnchor s') as Ea by (unfold EventAnchor; by rewrite E).
  induction 1 as [p|p f facts fwd rev ops Hr Hna Hv Hl IH]; [constructor|]. unfold linkKey. rewrite Ea in *. by apply lo_cons.
Qed.
Lemma journalTxn_log s s' ops : SLog s = SLog s' -> journalTxn s ops -> journalTxn s' ops.
Proof.
  intros E (own & chain & -> & Ho & Hc). assert (EventAnchor s = EventAnchor s') as Ea by (unfold EventAnchor; by rewrite E).
  assert (headKey s = headKey s') as Eh by (unfold headKey, ChainHead; by rewrite E). exists own, chain. split; [done|]. split.
  - eapply Forall_impl; [exact Ho|]. intros op. unfold aside, chainKey. by rewrite Ea, Eh.
  - destruct Hc as [|p facts links cmp head Hs Hne Hl Hd]; [constructor|]. rewrite Eh. apply (ch_some _ p facts); [|done|by eapply linksOf_log|done].
    unfold startsAt in *. by rewrite <- Eh.
Qed.

(** Threads that stay within the rules *)
Definition disciplined (s : Store_) (p : thread) : Prop := wp (journalTxn s) p (fun _ => True).

Lemma runCall_disciplined s s' q c : SLog s' = SLog s -> disciplined s (runCall s' q c).
Proof. intros E. eapply wp_weaken; [intros ops; by apply (journalTxn_log s')|]. eapply wpi_mono; [|apply own_runCall]. done. Qed.

Lemma step_chain s t threads t' threads' facts : step (SLog s) (t, threads) (t', threads') -> chainIs s t facts -> Forall (disciplined s) threads ->
  exists more, chainIs s t' (facts ++ more) /\ linksKept s t t' /\ (frozen s facts -> more = []) /\ Forall (disciplined s) threads'.
Proof.
  intros Hst Hi Hd. inversion Hst as [t0 ths s' q c E|t0 ths i o k r t1 Hth Han]; simplify_eq.
  - exists []. rewrite app_nil_r. split; [done|]. split; [apply linksKept_refl|]. split; [done|]. apply Forall_app. split; [done|]. apply Forall_singleton. by apply runCall_disciplined.
  - assert (disciplined s (BDo o k)) as Hdo by (rewrite Forall_lookup in Hd; by eapply Hd). destruct Hdo as [Ho Hk].
    assert (Forall (disciplined s) (<[i := k r]> threads)) as Hd' by (apply Forall_insert; [done|apply Hk]).
    destruct Han; try (exists []; rewrite app_nil_r; split; [done|]; split; [apply linksKept_refl|done]);
      (destruct (journalTxn_apply s t facts ops Hi Ho) as (more & Hi' & Hkept & Hfr); exists more; by split_and!).
Qed.

Lemma steps_chain s t threads t' threads' facts : rtc (step (SLog s)) (t, threads) (t', threads') -> chainIs s t facts -> Forall (disciplined s) threads ->
  exists more, chainIs s t' (facts ++ more) /\ linksKept s t t' /\ (frozen s facts -> more = []).
Proof.
  intros Hr. remember (t, threads) as x eqn:Ex. remember (t', threads') as y eqn:Ey. revert t threads facts Ex.
  induction Hr as [x|x [t1 ths1] y Hst Hr IH]; intros t threads facts -> Hi Hd.
  - simplify_eq. exists []. rewrite app_nil_r. split_and!; [done|apply linksKept_refl|done].
  - destruct (step_chain _ _ _ _ _ _ Hst Hi Hd) as (more1 & Hi1 & Hk1 & Hf1 & Hd1). destruct (IH Ey t1 ths1 _ eq_refl Hi1 Hd1) as (more2 & Hi2 & Hk2 & Hf2).
    exists (more1 ++ more2). rewrite app_assoc. split; [done|]. split; [intros e v He Hv; apply Hk2; [done|]; by apply Hk1|].
    intros Hfr. rewrite (Hf1 Hfr) in *. rewrite app_nil_r in Hf2. by rewrite (Hf2 Hfr).
Qed.

Lemma chainIs_empty s : chainIs s ∅ [].
Proof. constructor; [by intros e He|done|done|]. by intros k v Hk. Qed.

End Machine.
