(* ===== verification/RelConcProps.v ===== *)
(** What a reader of a shared log book sees (src/examples/relations): the events of a
    chain, numbered without gaps, up to the head. *)

From S2P Require Import Prelude Store SystemKeys Payloads LogRecord Txn Hex RelRecord RelStore RelChain RelRun RelChainProps RelJournal RelSign RelIssue RelChainTxn RelWriters RelConc.
#[local] Open Scope Z_scope.

Section Reader.
Context `{RelEnv} (s : Store_).

(** The number, digest and statement of an event *)
Definition eventView (e : Event) : Z * bytes * (byte * Entity * Entity * bytes) := (Seq e, Digest e, (Tag e, Subject e, Party e, Tail e)).
Definition factView (facts : list fact) (i : Z) : Z * bytes * (byte * Entity * Entity * bytes) :=
  let f := nth (Z.to_nat (i - 1)) facts (LineWritten Zero []) in
  (i, chainDigest (take (Z.to_nat i) facts), (factTag f, factSubject f, factParty f, factTail f)).

Definition linksBounds : bytes * bytes := RelationBoundsIn (EventAnchor s) Zero maxEntity.

Lemma in_linksBounds k : in_range linksBounds.1 linksBounds.2 k = true -> blen k = KeyLen -> exists e, k = RelationKey (EventAnchor s) e /\ e <> Zero.
Proof.
  intros [H1 H2]%andb_true_iff Hl. unfold linksBounds, RelationBoundsIn in *. cbn [fst snd] in *. change (Compare Zero firstTarget <? 0) with true in *. cbn iota in *.
  set (p := NamespaceRelation :: Bytes (EventAnchor s)) in *.
  assert (forall e, EntityKey NamespaceRelation (EventAnchor s) e = p ++ Bytes e) as Hp by done. rewrite !Hp in *.
  assert (p `prefix_of` k) as [r ->] by (eapply between_prefix; [| |exact H1|exact H2]; by eexists).
  rewrite blen_app in Hl. change (blen p) with 5 in Hl. destruct r as [|x0 [|x1 [|x2 [|x3 [|x4 r]]]]]; try (by cbn in Hl); [|rewrite !blen_cons in Hl; pose proof (blen_nonneg r); unfold KeyLen, EntityLen in Hl; lia].
  exists (mkEntity x0 x1 x2 x3). split; [done|]. intros E. change [x0; x1; x2; x3] with (Bytes (mkEntity x0 x1 x2 x3)) in H1. rewrite E in H1.
  rewrite bytes_le_app in H1. by vm_compute in H1.
Qed.

Lemma linkKey_in e : e <> Zero -> in_range linksBounds.1 linksBounds.2 (RelationKey (EventAnchor s) e) = true.
Proof.
  intros He%Zero_value. unfold linksBounds, RelationBoundsIn, in_range. cbn [fst snd]. change (Compare Zero firstTarget <? 0) with true. cbn iota.
  set (p := NamespaceRelation :: Bytes (EventAnchor s)). assert (forall e, RelationKey (EventAnchor s) e = p ++ Bytes e) as Hp by done.
  assert (forall e, EntityKey NamespaceRelation (EventAnchor s) e = p ++ Bytes e) as Hp' by done. rewrite Hp, !Hp', !bytes_le_app.
  assert (forall a b, bytes_le (Bytes a) (Bytes b) = (EntityValue a <=? EntityValue b)) as Hb.
  { intros a b. rewrite <- (app_nil_r (Bytes a)), <- (app_nil_r (Bytes b)), bytes_le_entities. cbn [bytes_le]. rewrite andb_true_r.
    destruct (Z.ltb_spec (EntityValue a) (EntityValue b)), (Z.eqb_spec (EntityValue a) (EntityValue b)), (Z.leb_spec (EntityValue a) (EntityValue b)); cbn; lia. }
  rewrite !Hb. apply andb_true_iff. pose proof (EntityValue_range e). split; apply Z.leb_le; [exact He|]. change (EntityValue maxEntity) with (2 ^ 32 - 1). lia.
Qed.

(** The links in order *)
Definition storedLinks (t : table) (n : Z) : list (bytes * bytes) := map (fun i => (linkKey s i, default [] (t !! linkKey s i))) (seqZ 1 n).

Lemma linkKey_le i j : 0 <= i < 2 ^ 32 -> 0 <= j < 2 ^ 32 -> bytes_le (linkKey s i) (linkKey s j) = (i <=? j).
Proof.
  intros Hi Hj. unfold linkKey. set (p := NamespaceRelation :: Bytes (EventAnchor s)). assert (forall e, RelationKey (EventAnchor s) e = p ++ Bytes e) as Hp by done.
  rewrite !Hp, bytes_le_app, <- (app_nil_r (Bytes (EntityFromValue i))), <- (app_nil_r (Bytes (EntityFromValue j))), bytes_le_entities, !EntityValue_FromValue by done.
  cbn [bytes_le]. rewrite andb_true_r. destruct (Z.ltb_spec i j), (Z.eqb_spec i j), (Z.leb_spec i j); cbn; lia.
Qed.

Lemma storedLinks_sorted (t : table) n m : 0 <= m -> m + n <= 2 ^ 32 -> StronglySorted key_le (map (fun i => (linkKey s i, default [] (t !! linkKey s i))) (seqZ m n)).
Proof.
  destruct (Z.le_gt_cases 0 n) as [Hn|Hn]; [|intros _ _; rewrite seqZ_nil by lia; constructor]. revert m. pattern n. apply natlike_ind; [|intros k Hk IH|done]; intros m Hm Hb.
  - rewrite seqZ_nil by lia. constructor.
  - rewrite seqZ_cons by lia. rewrite Z.pred_succ. cbn [map]. constructor; [apply IH; lia|]. apply Forall_map, Forall_forall. intros j Hj%elem_of_seqZ.
    unfold key_le. cbn [fst]. rewrite linkKey_le by lia. apply Is_true_true, Z.leb_le. lia.
Qed.

Lemma linkKey_inj i j : 0 <= i < 2 ^ 32 -> 0 <= j < 2 ^ 32 -> linkKey s i = linkKey s j -> i = j.
Proof. intros Hi Hj (_ & _ & E)%EntityKey_inj. by rewrite <- (EntityValue_FromValue i), E, EntityValue_FromValue. Qed.

Lemma linkValue_at t facts i : linksAre s t facts -> blen facts <= maxChainSeq -> 1 <= i <= blen facts ->
  exists f v, facts !! Z.to_nat (i - 1) = Some f /\ t !! linkKey s i = Some v /\ linkValue (chainDigest (take (Z.to_nat i) facts)) f v.
Proof.
  intros Hl Hb Hi. unfold maxChainSeq in Hb. assert (EntityValue (EntityFromValue i) = i) as Hv by (apply EntityValue_FromValue; lia).
  specialize (Hl (EntityFromValue i) ltac:(apply Zero_value; lia)). rewrite Hv in Hl. destruct (lookup_lt_is_Some_2 facts (Z.to_nat (i - 1))) as [f Hf]; [unfold blen in Hi; lia|].
  rewrite Hf in Hl. destruct Hl as (v & Hk & Hval). by exists f, v.
Qed.

(** A scan of the events finds exactly the links. *)
Lemma scan_links t facts : chainIs s t facts -> memory_Scan linksBounds.1 linksBounds.2 0 t = storedLinks t (blen facts).
Proof.
  intros [Hl _ Hb Ht]. unfold memory_Scan. cbn [Z.ltb Z.compare andb]. pose proof Hb as Hb'. unfold maxChainSeq in Hb'.
  apply (StronglySorted_unique_strong key_le); [|apply select_sorted|apply storedLinks_sorted; lia|].
  - intros [k1 v1] [k2 v2] H1 H2 L1 L2. unfold key_le in *. cbn in *. assert (k1 = k2) as -> by (apply bytes_le_antisym; by apply Is_true_true).
    apply elem_of_select in H1 as [Hk1 _]. apply list_elem_of_fmap in H2 as (i & E & _). apply pair_eq in E as [-> ->]. by rewrite Hk1.
  - apply NoDup_Permutation.
    + apply NoDup_fmap_1 with (f := fst), NoDup_select_keys.
    + apply NoDup_fmap_2_strong; [|apply NoDup_seqZ]. intros i j Hi%elem_of_seqZ Hj%elem_of_seqZ E%(f_equal fst). cbn [fst] in E. apply linkKey_inj in E; [done|lia|lia].
    + intros [k v]. rewrite elem_of_select. unfold storedLinks. rewrite list_elem_of_fmap. setoid_rewrite elem_of_seqZ. split.
      * intros [Hk Hr]. destruct (in_linksBounds k Hr ltac:(by eapply Ht)) as (e & -> & He). apply Zero_value in He as He1. exists (EntityValue e).
        unfold linkKey. rewrite FromValue_EntityValue, Hk. split; [done|]. specialize (Hl e He).
        destruct (facts !! Z.to_nat (EntityValue e - 1)) as [f|] eqn:Ef; [|congruence]. apply lookup_lt_Some in Ef. unfold blen. lia.
      * intros (i & E & Hi). apply pair_eq in E as [-> ->]. destruct (linkValue_at _ _ i Hl Hb ltac:(lia)) as (f & v & _ & Hk & _). rewrite Hk. split; [done|].
        apply linkKey_in, Zero_value. rewrite EntityValue_FromValue by lia. lia.
Qed.

Lemma decodeEvent_payload rel digest tag subject party tail : blen digest = 32 -> RData (RelRecord rel) = linkPayload digest tag subject party tail ->
  exists e, decodeEvent rel = Ret e /\ eventView e = (EntityValue (RelB rel), digest, (tag, subject, party, tail)).
Proof.
  intros Hd Hp. unfold decodeEvent. rewrite Hp. unfold linkPayload. change ChainDigestLen with 32 in *.
  assert (blen (digest ++ [tag] ++ Bytes subject ++ Bytes party ++ tail) = 41 + blen tail) as Hlen.
  { rewrite !blen_app, Hd, !blen_Bytes. unfold EntityLen. change (blen [tag]) with 1. lia. }
  pose proof (blen_nonneg tail). rewrite Hlen. change chainLinkHeadLen with 41. rewrite (proj2 (Z.ltb_ge _ _)) by lia.
  assert (slice_from (digest ++ [tag] ++ Bytes subject ++ Bytes party ++ tail) (32 + 1) = Ret (Bytes subject ++ Bytes party ++ tail)) as ->.
  { rewrite app_assoc. apply slice_from_end. rewrite blen_app, Hd. done. }
  cbn [mbind gores_bind]. rewrite DecodeEntity_Bytes. cbn [mbind gores_bind].
  assert (slice_from (digest ++ [tag] ++ Bytes subject ++ Bytes party ++ tail) (32 + 1 + EntityLen) = Ret (Bytes party ++ tail)) as ->.
  { rewrite app_assoc, (app_assoc _ (Bytes subject)). apply slice_from_end. rewrite !blen_app, Hd. done. }
  cbn [mbind gores_bind]. rewrite DecodeEntity_Bytes. cbn [mbind gores_bind].
  rewrite slice_hd by done. cbn [mbind gores_bind].
  assert (idx (digest ++ [tag] ++ Bytes subject ++ Bytes party ++ tail) 32 = Ret tag) as -> by (by apply idx_mid).
  cbn [mbind gores_bind].
  assert (slice_from (digest ++ [tag] ++ Bytes subject ++ Bytes party ++ tail) 41 = Ret tail) as ->.
  { rewrite app_assoc, (app_assoc _ (Bytes subject)), (app_assoc _ (Bytes party)). apply slice_from_end. rewrite !blen_app, Hd. done. }
  by eexists.
Qed.

Lemma decode_links t facts l : linksAre s t facts -> blen facts <= maxChainSeq -> Forall (fun i => 1 <= i <= blen facts) l ->
  exists rels events, decodePairs (map (fun i => (linkKey s i, default [] (t !! linkKey s i))) l) false = Ret rels /\ OfKind rels KindChainLink = rels /\
    decodeEvents rels = Ret events /\ map eventView events = map (factView facts) l.
Proof.
  intros Hl Hb. induction 1 as [|i l Hi Hall IH]; [by exists [], []|]. destruct IH as (rels & events & Hd & Hk & He & Hm).
  destruct (linkValue_at _ _ i Hl Hb Hi) as (f & v & Hf & Hv & rec & u & Hdec & Hkind & Hdata). unfold maxChainSeq in Hb.
  set (rel := mkRelation (EventAnchor s) (EntityFromValue i) rec (linkKey s i) u v).
  destruct (decodeEvent_payload rel _ _ _ _ _ (length_chainDigest _) Hdata) as (e & Hde & Hview).
  exists (rel :: rels), (e :: events). cbn [map decodePairs]. assert (ParseEntityKey (linkKey s i) = Ret (NamespaceRelation, EventAnchor s, EntityFromValue i)) as -> by apply ParseEntityKey_key.
  cbn [mbind gores_bind]. rewrite Hv. change (default [] (Some v)) with v.
  rewrite Hdec. cbn [wrap_err mbind gores_bind]. rewrite Hd. cbn [mbind gores_bind]. split; [done|]. split.
  - unfold OfKind. rewrite filter_cons. rewrite decide_True by done. by f_equal.
  - cbn [decodeEvents]. rewrite Hde. cbn [mbind gores_bind]. rewrite He. cbn [mbind gores_bind]. split; [done|]. cbn [map]. rewrite Hm. f_equal.
    rewrite Hview. unfold factView. cbn [RelB rel]. rewrite EntityValue_FromValue by lia. by rewrite (nth_lookup_Some _ _ _ _ Hf).
Qed.

(** The events a reader finds are the facts, numbered from one. *)
Lemma chain_events t facts : chainIs s t facts ->
  exists events, look (Events s everything) t = Ret events /\ map eventView events = map (factView facts) (seqZ 1 (blen facts)).
Proof.
  intros Hi. pose proof (scan_links t facts Hi) as Hs. destruct Hi as [Hl Hh Hb Ht].
  destruct (decode_links t facts (seqZ 1 (blen facts)) Hl Hb) as (rels & events & Hd & Hk & He & Hm); [apply Forall_forall; intros i Hi%elem_of_seqZ; lia|].
  exists events. split; [|done]. unfold Events. rewrite look_bind by eauto with quiet. unfold RelationsRange.
  change (RelationBoundsIn (EventAnchor s) (From everything) (upper everything)) with (linksBounds.1, linksBounds.2). cbv beta iota. rewrite look_bind, look_scan by eauto with quiet.
  change (Limit everything) with 0. rewrite Hs. cbn [mbind gores_bind]. rewrite look_lift. unfold storedLinks. rewrite Hd. cbn [mbind gores_bind]. rewrite look_lift, Hk. exact He.
Qed.

(** The head a reader finds is the end of the chain. *)
Lemma memory_get (t : table) k : memory_Scan k k 1 t = match t !! k with Some v => [(k, v)] | None => [] end.
Proof.
  assert (forall x, in_range k k x = true <-> x = k) as Hr.
  { intros x. unfold in_range. rewrite andb_true_iff. split; [intros []; by apply bytes_le_antisym|]. intros ->. by rewrite bytes_le_refl. }
  assert (select (in_range k k) t = match t !! k with Some v => [(k, v)] | None => [] end) as Hsel.
  { destruct (t !! k) as [v|] eqn:Ek.
    - apply Permutation_singleton_r, NoDup_Permutation; [apply NoDup_fmap_1 with (f := fst), NoDup_select_keys|apply NoDup_singleton|].
      intros [x y]. rewrite elem_of_select, Hr, list_elem_of_singleton. split; [intros [Hx ->]; congruence|]. by intros [= -> ->].
    - apply elem_of_nil_inv. intros [x y] [Hx ->%Hr]%elem_of_select. congruence. }
  unfold memory_Scan. rewrite Hsel. by destruct (t !! k).
Qed.

Lemma look_get t k : look (get k) t = Ret (t !! k).
Proof. unfold get. rewrite look_bind, look_scan by eauto with quiet. cbn [mbind gores_bind]. rewrite look_ret, memory_get. by destruct (t !! k). Qed.

Lemma chain_head t facts : chainIs s t facts -> (facts = [] /\ look (readHead s) t = Ret None) \/ look (readHead s) t = Ret (Some (chainDigest facts, blen facts)).
Proof.
  intros [_ Hh _ _]. unfold readHead. rewrite look_bind, look_get by eauto with quiet. unfold headIs, headKey in *. cbn [mbind gores_bind].
  destruct (t !! DeclarationKey (ChainHead s)) as [raw|]; [right|by left]. rewrite look_bind, look_lift, Hh by eauto with quiet. cbn [mbind gores_bind]. rewrite look_ret.
  unfold chainDigest. rewrite (surjective_pairing (chainFrom _ facts)) at 1. by rewrite (chainFrom_count (genesisDigest, 0)).
Qed.

End Reader.

(** What a reader finds in a table with these facts *)
Definition showsChain `{RelEnv} (s : Store_) (t : table) (facts : list fact) : Prop :=
  (exists events, look (Events s everything) t = Ret events /\ map eventView events = map (factView facts) (seqZ 1 (blen facts))) /\
  ((facts = [] /\ look (readHead s) t = Ret None) \/ look (readHead s) t = Ret (Some (chainDigest facts, blen facts))).

(** C23 The chain never forks: any number of writers, each with its own key and its own memory
    of the dictionary, run any operations of a journal on one log book -- columns,
    terms, renames, vocabularies, lines, corrections, strikes, endorsements and page
    sign-offs -- interleaved call by call in any way, with reads and transactions that
    may be reported as failed (a failed one may still have been applied). If the book
    held a chain of events, then afterwards it holds that chain with more events after
    it: a reader finds the events numbered from one without a gap, each with the digest
    of what it tells over the digest before it, the head is the last digest and the
    count, and every link that was there is still there, byte for byte. *)
Theorem chain_never_forks `{RelEnv} (s : Store_) (t t' : table) (threads' : list thread) (facts : list fact) :
  (forall p m, blen (rel_sign p m) <= maxFieldLen) ->
  chainIs s t facts -> rtc (step (SLog s)) (t, []) (t', threads') ->
  exists more, chainIs s t' (facts ++ more) /\ showsChain s t' (facts ++ more) /\ linksKept s t t'.
Proof.
  intros Hsz Hi Hr. destruct (steps_chain Hsz s _ _ _ _ _ Hr Hi) as (more & Hi' & Hk & _); [constructor|]. exists more. split; [done|]. split; [|done].
  split; [by apply chain_events|by apply chain_head].
Qed.

(** C25 A book freezes: event numbers and entities share one number space, and the anchor that
    the links hang off is the entity with number [log * 2^24 + 0xFE00]. Once a book holds
    one event fewer than that -- 65023 for log 0 -- the next link would relate the anchor
    to itself, which the store refuses: whatever the writers do from then on, no event is
    ever added, although the limit the code states and checks for is 2^32 - 1. *)
Theorem chain_freezes `{RelEnv} (s : Store_) (t t' : table) (threads' : list thread) (facts : list fact) :
  (forall p m, blen (rel_sign p m) <= maxFieldLen) ->
  chainIs s t facts -> blen facts + 1 = byte_to_Z (SLog s) * 2 ^ 24 + 0xFE00 -> rtc (step (SLog s)) (t, []) (t', threads') ->
  chainIs s t' facts /\ showsChain s t' facts /\ blen facts < maxChainSeq.
Proof.
  intros Hsz Hi Hn Hr. assert (EntityValue (EventAnchor s) = byte_to_Z (SLog s) * 2 ^ 24 + 0xFE00) as Hv.
  { rewrite EntityValue_be. change (Bytes (EventAnchor s)) with [SLog s; SchemaPage; TypeChain; Byte.x00]. unfold be_value. cbn [fold_left]. rewrite !be_step_arith. change (byte_to_Z SchemaPage) with 0.
    change (byte_to_Z TypeChain) with 254. change (byte_to_Z Byte.x00) with 0. lia. }
  destruct (steps_chain Hsz s _ _ _ _ _ Hr Hi) as (more & Hi' & _ & Hf); [constructor|]. rewrite (Hf ltac:(unfold frozen; lia)), app_nil_r in Hi'. split; [done|]. split.
  - split; [by apply chain_events|by apply chain_head].
  - pose proof (byte_to_Z_range (SLog s)). unfold maxChainSeq. lia.
Qed.

(** A writer on its own *)
Lemma solo_run `{RelEnv} log (p : thread) t clock threads : rtc (step log) (t, threads ++ [p]) ((brun p t clock).1.1, threads ++ [BDone (brun p t clock).2]).
Proof.
  revert t clock. induction p as [a|o k IH]; intros t clock; [apply rtc_refl|].
  assert (forall r t', answers t o r t' -> step log (t, threads ++ [BDo o k]) (t', threads ++ [k r])) as Hst.
  { intros r t' Ha. assert ((<[length threads := k r]> (threads ++ [BDo o k]) : list thread) = threads ++ [k r]) as <-.
    { rewrite (insert_app_r_alt (A := thread)) by done. by rewrite Nat.sub_diag. }
    eapply st_call; [|exact Ha]. by apply list_lookup_middle. }
  destruct o; cbn [brun].
  - pose proof (an_apply t ops) as Ha. destruct (memory_Apply ops t) as [t1 r]. eapply rtc_l; [by apply Hst|]. apply IH.
  - eapply rtc_l; [apply Hst, an_scan|]. apply IH.
  - eapply rtc_l; [apply Hst, an_now|]. apply IH.
Qed.
