(* ===== verification/RelSchedule.v ===== *)
(** Schedules of writers on a shared log book that can be run (src/examples/relations), and
    a small instance of the cryptography to run them with. *)

From S2P Require Import Prelude Store SystemKeys Payloads LogRecord Txn Hex RelRecord RelStore RelChain RelRun RelChainProps RelJournal RelSign RelIssue RelChainTxn RelWriters RelConc RelConcProps.
#[local] Open Scope Z_scope.

(** * Schedules *)

(** One call of a thread, answered truthfully; the clock stands still. *)
Definition turn (i : nat) (cfg : table * list thread) : table * list thread :=
  let '(t, threads) := cfg in
  match threads !! i with
  | Some (BDo o k) =>
    match o return (breply o -> thread) -> table * list thread with
    | BApply ops => fun k => let '(t', r) := memory_Apply ops t in (t', <[i := k r]> threads)
    | BScan start stop limit => fun k => (t, <[i := k (Ret (memory_Scan start stop limit t))]> threads)
    | BNow => fun k => (t, <[i := k 0]> threads)
    end k
  | _ => (t, threads)
  end.

Definition turns (schedule : list nat) (cfg : table * list thread) : table * list thread := fold_left (fun cfg i => turn i cfg) schedule cfg.

Lemma turn_steps `{RelEnv} log i cfg : rtc (step log) cfg (turn i cfg).
Proof.
  destruct cfg as [t threads]. unfold turn. destruct (threads !! i) as [[a|o k]|] eqn:Ei; [apply rtc_refl| |apply rtc_refl].
  destruct o.
  - pose proof (an_apply t ops) as Ha. destruct (memory_Apply ops t) as [t' r]. apply rtc_once. by eapply st_call.
  - apply rtc_once. by eapply st_call, an_scan.
  - apply rtc_once. by eapply st_call, an_now.
Qed.

Lemma turns_steps `{RelEnv} log schedule cfg : rtc (step log) cfg (turns schedule cfg).
Proof. revert cfg. induction schedule as [|i schedule IH]; intros cfg; [apply rtc_refl|]. cbn. etransitivity; [apply turn_steps|apply IH]. Qed.

Definition start `{RelEnv} (s : Store_) (q : call) (cfg : table * list thread) : table * list thread := (cfg.1, cfg.2 ++ [runCall s q NewJournal]).

Lemma start_steps `{RelEnv} log s q cfg : SLog s = log -> rtc (step log) cfg (start s q cfg).
Proof. intros E. destruct cfg as [t threads]. apply rtc_once. by apply st_start. Qed.

(** * Small cryptography *)

(** A signature is the key and a checksum; the digest is a checksum of 32 bytes. *)
Definition checksum (b : bytes) : Z := fold_left (fun acc x => (acc * 257 + byte_to_Z x + 1) mod (2 ^ 255 - 19)) b 7.
#[global] Instance smallCrypto : RelEnv := {|
  rel_sign := fun key m => take 32 key ++ be_bytes 8 (checksum m);
  rel_verify := fun pub m sig => bytes_eqb sig (take 32 pub ++ be_bytes 8 (checksum m));
  rel_sha256 := fun b => be_bytes 32 (checksum b);
|}.

Lemma small_signatures p m : blen (rel_sign p m) <= maxFieldLen.
Proof. cbn. rewrite blen_app. rewrite (blen_be_bytes 8). unfold blen, maxFieldLen. rewrite length_take. lia. Qed.

Definition keyOf (x : byte) : bytes := replicate 32 x.
Definition actorAt (id : byte) : Entity := mkEntity Byte.x00 SchemaPage TypeActor id.
Definition storeOf (id : byte) : Store_ := mkStore Byte.x00 (actorAt id) (Some (keyOf id)).
Definition operator : Store_ := storeOf Byte.x01.
Definition supervisor : Store_ := storeOf Byte.x02.

Definition runAlone (s : Store_) (q : call) (t : table) : table := (brun (runCall s q NewJournal) t []).1.1.
Definition machine : Entity := mkEntity Byte.x00 SchemaPage TypeField Byte.x01.
Definition aLine : call := CAppend [TermCell machine (bs "lathe")].

(** Two actors, a column, one line *)
Definition book : table :=
  runAlone operator aLine (runAlone operator (CField (bs "machine")) (runAlone operator (CActor (bs "bob") (keyOf Byte.x02)) (runAlone operator (CActor (bs "alice") (keyOf Byte.x01)) ∅))).

(** The supervisor signs the page off with the operator writing a line in between: the
    sign-off has read how many lines there are and not yet closed the page. *)
Definition raced : table * list thread :=
  turns (replicate 60 0%nat) (turns (replicate 60 1%nat) (start operator aLine (turns [0%nat] (start supervisor (CSignOffPage FirstEntryPage) (book, []))))).

Definition finished (th : thread) : option (gores unit) := match th with BDone (_, r) => Some r | _ => None end.

(** A page can be signed off with a line count it does not have. The
    sign-off reads the count once, before it reads the counter it compares with, and
    keeps it over retries: with one line written in between, both operations succeed, the
    sign-off says one line, the page is closed with two, and the book verifies. *)
Theorem signoff_count_stale :
  rtc (step Byte.x00) (book, []) raced /\ map finished raced.2 = [Some (Ret tt); Some (Ret tt)] /\
  (exists signoff, look (PageStatus supervisor FirstEntryPage) raced.1 = Ret (Some signoff) /\ PSLines signoff = Byte.x01) /\
  look (LastAllocated supervisor FirstEntryPage TypeEntry) raced.1 = Ret Byte.x02 /\ look (PageIsClosed supervisor FirstEntryPage TypeEntry) raced.1 = Ret true /\
  look (VerifyChain operator) raced.1 = Ret 3.
Proof.
  split.
  - unfold raced. etransitivity; [by apply (start_steps Byte.x00 supervisor (CSignOffPage FirstEntryPage))|]. etransitivity; [apply (turns_steps Byte.x00 [0%nat])|].
    etransitivity; [by apply (start_steps Byte.x00 operator aLine)|]. etransitivity; [apply (turns_steps Byte.x00 (replicate 60 1%nat))|]. apply turns_steps.
  - split; [by vm_compute|]. split; [eexists; split; by vm_compute|]. split_and!; by vm_compute.
Qed.

(** A second line, and what somebody with access to the store and no key does to take it
    out again: the line, its link and its mirrors are deleted, the counter and the head
    are written back without a signature. *)
Definition twoLines : table := runAlone operator aLine book.
Definition secondLine : Entity := mkEntity Byte.x00 FirstEntryPage TypeEntry Byte.x02.
Definition theTerm : Entity := mkEntity Byte.x00 SchemaPage TypeTerm Byte.x01.
Definition unsignedRecord (kind : byte) (data : bytes) : bytes := sealed (mkRec kind Zero 0 [] data []).
Definition firstDigest : bytes := match look (readHead operator) book with Ret (Some (digest, _)) => digest | _ => [] end.
Definition tearOut : list Op :=
  [mkOp OpDelete (DeclarationKey secondLine) []; mkOp OpDelete (RelationKey secondLine theTerm) []; mkOp OpDelete (IndexKey secondLine theTerm) [];
   mkOp OpDelete (linkKey operator 2) []; mkOp OpDelete (IndexKey (EventAnchor operator) (EntityFromValue 2)) [];
   mkOp OpSet (DeclarationKey (counterOf operator FirstEntryPage TypeEntry)) (unsignedRecord KindDeclaration [Byte.x02; Byte.x00]);
   mkOp OpSet (headKey operator) (unsignedRecord KindChainHead (firstDigest ++ be_bytes 8 1))].

(** The end of a book can be torn out without a key: [VerifyChain] does not check the
    signature of the head (nor of the counters), so after the last line has been removed
    with deletions and unsigned records only, the book verifies with one event less. *)
Theorem truncation_undetected :
  look (VerifyChain operator) twoLines = Ret 2 /\ look (VerifyChain operator) (fold_left perform tearOut twoLines) = Ret 1 /\
  look (Declaration secondLine) (fold_left perform tearOut twoLines) = Ret None /\
  Forall (fun op => opKind op = OpDelete \/ exists rec u, DecodeRecord (opValue op) = Ret (rec, u) /\ RSignature rec = []) tearOut.
Proof.
  split; [by vm_compute|]. split; [by vm_compute|]. split; [by vm_compute|].
  repeat (apply Forall_cons_2; [first [left; reflexivity|right; eexists _, _; split; [vm_compute; reflexivity|reflexivity]]|]). apply Forall_nil_2.
Qed.

(** A line can be struck without a key and without a trace in the chain: [VerifyChain] asks
    of every line for its event, and of no strike, so an unsigned record that strikes a
    line leaves the events, the head and the verdict as they were, and the line reads as
    voided. *)
Definition firstLine : Entity := mkEntity Byte.x00 FirstEntryPage TypeEntry Byte.x01.
Definition strikeOut : Op := mkOp OpSet (RelationKey firstLine (StatusMarker operator)) (unsignedRecord KindVoided (Bytes Zero)).

Theorem unchained_strike_verifies :
  let t := perform book strikeOut in
  look (VerifyChain operator) book = Ret 1 /\ look (VerifyChain operator) t = Ret 1 /\
  look (readHead operator) t = look (readHead operator) book /\ look (Events operator everything) t = look (Events operator everything) book /\
  ESState <$> look (Status operator firstLine) book = Ret StateLive /\ ESState <$> look (Status operator firstLine) t = Ret StateVoided.
Proof. split_and!; by vm_compute. Qed.
