(* ===== verification/RelWitnesses.v ===== *)
(** Runs of the log book model on small instances (src/examples/relations). *)

From S2P Require Import Prelude Store SystemKeys Payloads LogRecord Txn Hex RelRecord RelStore RelChain RelRun RelChainProps RelJournal RelSign RelIssue RelChainTxn RelWriters RelConc RelConcProps RelSchedule.
#[local] Open Scope Z_scope.

(** * A book with one event of every kind *)

Definition line1 : Entity := mkEntity Byte.x00 FirstEntryPage TypeEntry Byte.x01.
Definition line2 : Entity := mkEntity Byte.x00 FirstEntryPage TypeEntry Byte.x02.
Definition fullBook : table :=
  fold_left (fun t '(s, q) => runAlone s q t)
    [(supervisor, CCountersign line1); (operator, CCorrect line1 [TermCell machine (bs "mill")]); (operator, CRename machine (bs "tool"));
     (operator, CCloseField machine); (supervisor, CSignOffPage FirstEntryPage)] book.

(** The same with another column in the dictionary *)
Definition laterBook : table := runAlone operator (CField (bs "shift")) fullBook.

Definition factsIn (t : table) : list fact := match history operator t with Ret facts => facts | _ => [] end.

(** Every operation takes effect, and the book verifies. *)
Example fullBook_verifies : look (VerifyChain operator) fullBook = Ret 7 /\ map factTag (factsIn fullBook) =
  [eventLine; eventCountersign; eventLine; eventStrike; eventDeclare; eventFieldState; eventSignoff].
Proof. by vm_compute. Qed.

(** A line that was struck cannot be struck again, and its versions are found from either. *)
Example strike_once : (brun (Void operator line1 Zero NewJournal) fullBook []).2.2 = Fail (Wrapf "%w: %s is %s" ErrAlreadyStruck) /\
  (brun (History operator line1 NewJournal) fullBook []).2.2 = Ret [line1; line2] /\ (brun (History operator line2 NewJournal) fullBook []).2.2 = Ret [line1; line2].
Proof. by vm_compute. Qed.

Lemma verify_chain_sound_witness :
  exists facts, verified operator fullBook 7 facts.
Proof.
  assert (brun (VerifyChain operator NewJournal) fullBook [] = (fullBook, [], (NewJournal, Ret 7))) as E.
  { rewrite quiet_VerifyChain, (proj1 fullBook_verifies). exact eq_refl. }
  destruct (verify_chain_sound operator _ _ _ _ _ _ _ E) as (_ & _ & _ & [(_ & _ & E7)|Hv]); [discriminate E7|exact Hv].
Defined.

(** ** Two copies of a book *)

Definition collision_freeb (texts : list bytes) : bool :=
  let hashed := map (fun x => (Sum256 x, x)) texts in
  forallb (fun x => forallb (fun y => implb (bytes_eqb x.1 y.1) (bytes_eqb x.2 y.2)) hashed && negb (bytes_eqb x.1 genesisDigest)) hashed.

Lemma collision_freeb_sound texts : collision_freeb texts = true -> collision_free texts.
Proof.
  unfold collision_freeb. rewrite forallb_forall. intros Hc.
  assert (forall x, x ∈ texts -> In (Sum256 x, x) (map (fun x => (Sum256 x, x)) texts)) as Hin by (intros x Hx%list_elem_of_In; apply in_map_iff; by exists x).
  split.
  - intros x y Hx Hy E. specialize (Hc _ (Hin x Hx)). apply andb_true_iff in Hc as [Hc _]. rewrite forallb_forall in Hc. specialize (Hc _ (Hin y Hy)). cbn [fst snd] in Hc.
    unfold bytes_eqb in Hc. rewrite (bool_decide_eq_true_2 _ E) in Hc. by apply bool_decide_eq_true in Hc.
  - intros x Hx E. specialize (Hc _ (Hin x Hx)). apply andb_true_iff in Hc as [_ Hc]. cbn [fst] in Hc. unfold bytes_eqb in Hc. by rewrite (bool_decide_eq_true_2 _ E) in Hc.
Qed.

Lemma chain_tamper_evident_witness :
  factsIn fullBook = factsIn laterBook /\ length (factsIn fullBook) = 7%nat.
Proof.
  split; [|by vm_compute].
  refine (proj1 (chain_tamper_evident operator fullBook laterBook 7 7 7 7 (factsIn fullBook) (factsIn laterBook) (chainDigest (factsIn fullBook)) _ _ _ _ _ _ _));
    [vm_compute; reflexivity..|]. apply collision_freeb_sound. vm_compute. reflexivity.
Defined.

(** ** Interleaved writers *)

(** ** Interleaved writers *)

Lemma chain_never_forks_witness :
  exists more, chainIs operator raced.1 more /\ showsChain operator raced.1 more /\ linksKept operator book raced.1.
Proof.
  assert (chainIs operator ∅ [] /\ rtc (step (SLog operator)) (book, []) (raced.1, raced.2)) as [H0 Hr].
  { split; [apply chainIs_empty|]. rewrite <- surjective_pairing. exact (proj1 signoff_count_stale). }
  assert (forall q s t, SLog s = Byte.x00 -> (exists facts, chainIs operator t facts) -> exists facts, chainIs operator (runAlone s q t) facts) as Halone.
  { intros q s t Es [facts Hi]. destruct (chain_never_forks operator t (runAlone s q t) [BDone (brun (runCall s q NewJournal) t []).2] facts small_signatures Hi) as (more & Hm & _);
      [|by eexists]. etransitivity; [exact (start_steps Byte.x00 s q (t, []) Es)|]. exact (solo_run Byte.x00 (runCall s q NewJournal) t [] []). }
  destruct (Halone aLine operator (runAlone operator (CField (bs "machine")) (runAlone operator (CActor (bs "bob") (keyOf Byte.x02)) (runAlone operator (CActor (bs "alice") (keyOf Byte.x01)) ∅))))
    as [facts Hi]; [done| |].
  { apply Halone; [done|]. apply Halone; [done|]. apply Halone; [done|]. by exists []. }
  destruct (chain_never_forks operator book raced.1 raced.2 facts small_signatures Hi Hr) as (more & H1 & H2 & H3). by exists (facts ++ more).
Defined.

(** ** A long book *)

(** Link and head records as a store without a key writes them *)
Definition plain (kind : byte) (data : bytes) : bytes := sealed (mkRec kind Zero 0 [] data []).
Lemma plain_decodes kind data : blen data <= maxFieldLen -> DecodeRecord (plain kind data) = Ret (mkRec kind Zero 0 [] data [], recordBody (mkRec kind Zero 0 [] data [])).
Proof. intros Hd. by apply DecodeRecord_sealed; [constructor|]. Qed.

Lemma long_book n : 0 <= n < 0xFE00 -> exists t facts, chainIs operator t facts /\ blen facts = n.
Proof.
  intros [Hn Hm]. revert Hm. pattern n. apply natlike_ind; [| |done]; clear n Hn.
  { intros _. exists ∅, []. split; [apply chainIs_empty|done]. }
  intros n Hn IH Hm. destruct IH as (t & facts & Hi & Hf); [lia|]. set (f := LineWritten line1 []). set (p := chainFrom (genesisDigest, 0) facts).
  assert (p.2 = n) as Hp2 by (unfold p; rewrite chainFrom_count; cbn; lia).
  set (link := mkOp OpSet (linkKey operator (p.2 + 1)) (plain KindChainLink (linkPayload (chainStep p f).1 (factTag f) (factSubject f) (factParty f) (factTail f)))).
  set (cmp := match t !! headKey operator with Some raw => mkOp OpCompare (headKey operator) raw | None => mkOp OpCompareAbsent (headKey operator) [] end).
  set (head := plain KindChainHead ((chainStep p f).1 ++ be_bytes 8 (p.2 + 1))).
  set (ops := [link; mkOp OpSet (IndexKey (EventAnchor operator) (EntityFromValue (p.2 + 1))) []] ++ [cmp; mkOp OpSet (headKey operator) head]).
  assert (blen (chainStep p f).1 = 32) as Hd by apply length_Sum256.
  destruct (chained_apply operator t facts ops t Hi) as (more & Hi' & _).
  - apply (ch_some operator p [f]); [|done| |].
    + destruct Hi as [_ Hh _ _]. unfold headIs, cmp in *. destruct (t !! headKey operator) as [raw|]; [right; by exists raw|]. left. split; [done|]. unfold p. by rewrite Hh.
    + constructor; [unfold maxChainSeq; lia| | |constructor].
      * intros E%(f_equal EntityValue). rewrite EntityValue_FromValue in E by lia. change (EntityValue (EventAnchor operator)) with 0xFE00 in E. lia.
      * eexists _, _. split; [apply plain_decodes|done]. unfold linkPayload. rewrite !blen_app, Hd. done.
    + eapply decodeHead_encoded; [done|cbn; lia|apply plain_decodes|done]. rewrite blen_app, Hd, (blen_be_bytes 8). unfold maxFieldLen. lia.
  - cbn [ops app checkOps link holdsFor opKind mbind gores_bind]. unfold cmp. unfold holdsFor. destruct (t !! headKey operator) as [raw|] eqn:Eh; cbn [opKind opKey opValue]; rewrite Eh.
    + unfold bytes_eqb. by rewrite bool_decide_eq_true_2.
    + done.
  - done.
  - exists (fold_left perform ops t), (facts ++ more). split; [done|]. destruct Hi' as [_ Hh' _ _]. unfold headIs in Hh'.
    assert (fold_left perform ops t !! headKey operator = Some head) as E by (cbn; apply lookup_insert_eq). rewrite E in Hh'.
    assert (decodeHead head = Ret ((chainStep p f).1, p.2 + 1)) as Hdh.
    { eapply decodeHead_encoded; [done|lia|apply plain_decodes|done]. rewrite blen_app, Hd, (blen_be_bytes 8). unfold maxFieldLen. lia. }
    rewrite Hdh in Hh'. injection Hh' as Hh'. apply (f_equal snd) in Hh'. rewrite chainFrom_count in Hh'. cbn [snd] in Hh'. lia.
Qed.

Lemma chain_freezes_witness :
  exists t facts, chainIs operator t facts /\ blen facts = 65023 /\ forall q, chainIs operator (runAlone operator q t) facts.
Proof.
  destruct (long_book 65023) as (t & facts & Hi & Hf); [lia|]. exists t, facts. split; [done|]. split; [done|]. intros q.
  refine (proj1 (chain_freezes operator t (runAlone operator q t) [BDone (brun (runCall operator q NewJournal) t []).2] facts small_signatures Hi _ _)); [rewrite Hf; reflexivity|].
  etransitivity; [exact (start_steps Byte.x00 operator q (t, []) eq_refl)|]. exact (solo_run Byte.x00 (runCall operator q NewJournal) t [] []).
Defined.
