(* ===== verification/RelNode.v ===== *)
(** The relation store on a node (src/examples/relations/node.go): each call of the backend
    through a session of the client library, and that it does to the replicated table
    what the backend in memory does to its map. *)

From S2P Require Import Prelude Store StoreLogic SystemKeys Payloads LogRecord Txn Fsm FsmSpec FsmProps FsmInvariants FsmOps Events Stream Quota Session Node Acl Forward Dial Join Execute Remote Channel Handler HandlerProps ForwardProps ReadProps RemoteProps Ipc IpcProps IpcNode Client ClientProps Hex RelRecord RelStore.
#[local] Open Scope Z_scope.

(** The session is opened at the first call, and kept. *)
Record relNode : Type := mkRelNode {
  rnPeer : bytes;
  rnSess : option Session;
}.

Definition OnNode (peer : bytes) : relNode := mkRelNode peer None.
Definition OnSession (s : Session) : relNode := mkRelNode [] (Some s).

Definition R (A : Type) : Type := relNode -> client -> relNode * client * gores A.

Section NodeBackend.
Context `{Env}.

Definition rel_session : R Session := fun n c =>
  match rnSess n with
  | Some s => (n, c, Ret s)
  | None =>
    if bytes_eqb (rnPeer n) [] then (n, c, Fail (Errorf "relations: this backend has neither a session nor a peer id")) else
    match wrapC "relations: open node %s: %w" (Open (rnPeer n)) c with
    | (c', Ret s) => (mkRelNode (rnPeer n) (Some s), c', Ret s)
    | (c', r) => (n, c', r)
    end
  end.

Definition onSession {A} (f : Session -> C A) : R A := fun n c =>
  match rel_session n c with
  | (n', c', Ret s) => let '(c'', r) := f s c' in (n', c'', r)
  | (n', c', Fail e) => (n', c', Fail e)
  | (n', c', Panic) => (n', c', Panic)
  end.

Definition opSpec (op : RelStore.Op) : TxnOpSpec :=
  mkTxnOp (match opKind op with OpSet => TxnOpSet | OpDelete => TxnOpDelete | OpCompare => TxnOpCompare | OpCompareAbsent => TxnOpCompareAbsent end) (opKey op) (opValue op).

Definition rel_Apply (ops : list RelStore.Op) : R unit :=
  onSession (fun s c =>
    match Session_Txn s (map opSpec ops) c with
    | (c', Fail e) => (c', Fail (if errors_is e ErrCompareFailed then Wrapf "%w: %s" ErrConflict else e))
    | (c', r) => (c', r)
    end).

Definition rel_Scan (start stop : bytes) (limit : Z) : R (list (bytes * bytes)) :=
  onSession (fun s => Session_ScanRange s start stop limit 0 RangeOrderAsc).

End NodeBackend.

(** * The two backends agree *)

Lemma compareHolds_spec t op : compareHolds t (opSpec op) = true <-> holdsFor t op = Ret tt.
Proof.
  destruct op as [[] key v]; unfold holdsFor; cbn [opKind opKey opValue]; [done|done| |].
  - change (compareHolds t (opSpec (mkOp OpCompare key v))) with (bool_decide (t !! key = Some v)). rewrite bool_decide_eq_true.
    destruct (t !! key) as [cur|]; [|done]. unfold bytes_eqb. case_bool_decide as E; [by rewrite E|]. split; [congruence|done].
  - change (compareHolds t (opSpec (mkOp OpCompareAbsent key v))) with (bool_decide (t !! key = None)). rewrite bool_decide_eq_true. by destruct (t !! key).
Qed.

Lemma checkOps_all t ops : checkOps t ops = Ret tt <-> Forall (fun op => compareHolds t op = true) (map opSpec ops).
Proof.
  induction ops as [|op ops IH]; [by split|]. cbn [checkOps map]. rewrite Forall_cons, <- IH, compareHolds_spec.
  destruct (holdsFor t op) as [[]| |]; cbn; [|split; [done|by intros []]..]. split; [done|by intros []].
Qed.

(** A check that fails is a conflict. *)
Lemma checkOps_conflict t ops : checkOps t ops = Ret tt \/ exists e, checkOps t ops = Fail e /\ errors_is e ErrConflict = true.
Proof.
  induction ops as [|op ops IH]; [by left|]. cbn [checkOps].
  assert (holdsFor t op = Ret tt \/ exists e, holdsFor t op = Fail e /\ errors_is e ErrConflict = true) as [->|(e & -> & He)]; [|done|right; by exists e].
  unfold holdsFor. destruct (opKind op); [by left|by left| |]; destruct (t !! opKey op); try destruct (bytes_eqb _ _); try (by left); right; eexists; split; done.
Qed.

Lemma perform_spec t ops : fold_left execOp (map opSpec ops) t = fold_left perform ops t.
Proof. revert t. induction ops as [|op ops IH]; intros t; [done|]. cbn [map fold_left]. rewrite IH. f_equal. unfold perform, execOp, opSpec. by destruct (opKind op). Qed.

(** What a transaction must satisfy to be put on the wire and taken by a node: the keys of
    this store, values that fit, a message that can be encoded *)
Definition sendable `{Env} (ops : list RelStore.Op) : Prop :=
  Forall (fun op => exists ns a b, opKey op = EntityKey ns a b /\ ns <> SystemKeyPrefix /\ ns <> LogKeyPrefix) ops /\
  Forall (fun op => blen (opValue op) <= 0xFFFF) ops /\ blen ops <= 0x7FFF /\
  (exists m, NewTxn (map opSpec ops) = Ret m /\ encodable (Body m)) /\
  (forall e, errors_is e ErrCompareFailed = true -> encodable (E_error (Ok (Error e))) /\ Contains (Error e) CompareFailedMarker = true).

(** The result of a call, up to which conflict it was *)
Definition sameOutcome (r r' : gores unit) : Prop :=
  match r, r' with
  | Ret _, Ret _ => True
  | Fail e, Fail e' => errors_is e ErrConflict = true /\ errors_is e' ErrConflict = true
  | _, _ => False
  end.

Section Refinement.
Context `{Env} (public_half : bytes -> bytes) (HW : WireCodec) (HK : NodeKeys public_half).

Lemma onSession_run {A} (f : Session -> C A) s c : onSession f (OnSession s) c = (OnSession s, (f s c).1, (f s c).2).
Proof. unfold onSession, rel_session. cbn. by destruct (f s c). Qed.

Lemma sendable_takes ops : sendable ops -> Forall takes (map opSpec ops).
Proof.
  intros (Hk & Hv & _). apply Forall_map, Forall_forall. intros op Hop. rewrite Forall_forall in Hk, Hv. destruct (Hk op Hop) as (ns & a & b & E & Hs & Hl).
  specialize (Hv op Hop). split; [split; [cbn; by rewrite E|done]|]. split; [split; [cbn; by rewrite E|by unfold opSpec; destruct (opKind op)]|].
  cbn. rewrite E. by intros x r [= <- _].
Qed.

Lemma rel_Apply_run s c ts index rest ops : ready s c -> committing (cnode c) ts index rest -> sendable ops ->
  exists c' r, rel_Apply ops (OnSession s) c = (OnSession s, c', r) /\
    committed (nstore (cnode c')) = (memory_Apply ops (committed (nstore (cnode c)))).1 /\ sameOutcome (memory_Apply ops (committed (nstore (cnode c)))).2 r.
Proof.
  intros Hr Hc Hs. pose proof (sendable_takes _ Hs) as Ht. destruct Hs as (_ & _ & Hlen & (m & Hm & He) & Herr). set (t := committed (nstore (cnode c))).
  destruct (Txn_run public_half s (map opSpec ops) m c ts index rest) as (c' & E & Hcom); [done|done|done|done| |done|done|].
  { intros payload Ep. assert (Forall op_fits (map opSpec ops)) as Hfit by (eapply Forall_impl; [exact Ht|by intros ? [? _]]).
    apply payload_size in Ep; [|done]. assert (blen (map opSpec ops) = blen ops) as Hl by (unfold blen; by rewrite length_map). rewrite Hl in Ep. lia. }
  fold t in E, Hcom. unfold rel_Apply. rewrite onSession_run. rewrite E. unfold memory_Apply.
  destruct (checkOps_conflict t ops) as [Hok|(e & Hbad & Hconf)].
  - rewrite bool_decide_true in E, Hcom |- * by (by apply checkOps_all). rewrite Hok. eexists c', _. split; [done|]. cbn [fst snd]. by rewrite Hcom, perform_spec.
  - rewrite bool_decide_false in E, Hcom |- * by (intros Ha%checkOps_all; congruence). rewrite Hbad. eexists c', _. split; [done|]. cbn [fst snd]. split; [exact Hcom|].
    cbn. split; [done|]. done.
Qed.

Lemma rel_Scan_run s c start stop limit : ready s c -> healthy (nstore (cnode c)) -> pagesFit (committed (nstore (cnode c))) start stop -> start <> [] -> 0 <= limit < 2 ^ 63 ->
  exists c', rel_Scan start stop limit (OnSession s) c = (OnSession s, c', Ret (memory_Scan start stop limit (committed (nstore (cnode c))))) /\
    committed (nstore (cnode c')) = committed (nstore (cnode c)).
Proof.
  intros Hr Hh Hp Hs Hl. destruct (ScanRange_run public_half HW HK s (committed (nstore (cnode c))) start stop RangeOrderAsc limit 0 false c)
    as (c' & E & Hsc); [by split|done| |done|done|done|].
  { unfold in_range. by destruct start. }
  exists c'. unfold rel_Scan. rewrite onSession_run, E. cbn [fst snd]. split; [|by destruct Hsc]. f_equal. f_equal. unfold memory_Scan.
  set (l := select _ _). unfold window. change (Z.to_nat 0) with 0%nat. rewrite drop_0. destruct (Z.ltb_spec 0 limit); cbn [andb]; [|done].
  destruct (Z.ltb_spec limit (blen l)); [done|]. apply take_ge. unfold blen in *. lia.
Qed.
End Refinement.

(** The backend on a node refines the one in memory: over a session of a leader that answers
    and commits, a transaction leaves the replicated table as it would leave the map, and
    succeeds, or is refused as a conflict, exactly when it would there; a scan answers what
    the map would answer and changes nothing. *)
Theorem relation_node_refines_memory `{Env} (public_half : bytes -> bytes) (HW : WireCodec) (HK : NodeKeys public_half) (s : Session) (c : client)
    (ts index : Z) (rest : list apply_reply) :
  ready s c -> committing (cnode c) ts index rest ->
  let t := committed (nstore (cnode c)) in
  (forall ops, sendable ops -> exists c' r, rel_Apply ops (OnSession s) c = (OnSession s, c', r) /\
     committed (nstore (cnode c')) = (memory_Apply ops t).1 /\ sameOutcome (memory_Apply ops t).2 r) /\
  (forall start stop limit, pagesFit t start stop -> start <> [] -> 0 <= limit < 2 ^ 63 ->
     exists c', rel_Scan start stop limit (OnSession s) c = (OnSession s, c', Ret (memory_Scan start stop limit t)) /\ committed (nstore (cnode c')) = t).
Proof.
  intros Hr Hc t. pose proof (cm_healthy _ _ _ _ Hc) as Hh. split.
  - intros ops Ho. by apply (rel_Apply_run public_half HW HK s c ts index rest).
  - intros start stop limit Hp Hs Hl. by apply (rel_Scan_run public_half HW HK).
Qed.
